(* ===== verification/_CoqProject ===== *)
-Q . S2P
Prelude.v
ChunkKeys.v
DiskCache.v
Inserts.v
Cluster.v
PeerIndex.v
Gossip.v
Freshness.v
Wire.v
UcxRuntime.v
UcxCallbacks.v
UcxFetch.v
UcxRequest.v
UcxLoop.v
Config.v
HttpApi.v
Metrics.v
Auth.v
Azure.v
Transport.v
PeerLru.v
Singleflight.v
Permits.v
Fetcher.v
BlobPool.v
Mesh.v
Hydrate.v
Clear.v
Jobs.v
Status.v
FuseFs.v
Daemon.v
