(* ===== verification/Prelude.v ===== *)
(** * blobcache: a verification library for the distributed blob cache daemon

    blobcache is a daemon that runs on every node of a cluster and serves Azure blobs through a FUSE
    mount.  A file is read in chunks; a chunk comes from the node's own disk cache, from a peer that
    has it, or from the origin, and is then cached.  Peers know of each other by gossip and of each
    other's chunks by Bloom filters that travel with it; chunks travel over RDMA (UCX) or HTTP.  An
    operator can hydrate (pre-warm) the caches of the whole cluster.

    ** The files and the code they model

    - [Prelude]: machine integers, slices, byte encodings, strings, results, stable sorting, and the
      lemmas, tactics and hints the components share.
    - [ChunkKeys] (error.rs; keys of cache.rs and peerindex.rs): the error type, [ChunkKey], the bytes
      hashed for file names and digests, hexadecimal names.
    - [DiskCache], module [Cache] (cache.rs): [Inner] is the state behind the mutex, [DiskCache] adds
      limit, statistics and the cache directory.  Every method is a state-passing function cut at its
      critical sections; [step] interleaves those sections and files vanishing under the daemon.
      [Spec] and its operations are the abstract LRU list the cache refines.
    - [Inserts], module [Inserts] (cache.rs [insert], [rand_hex]): inserts as the system calls they make, on
      names and inodes, interleaved with each other, with readers and with unlinking.
    - [Cluster], module [Cluster] (cluster.rs): the membership table, merge, refutation, heartbeat sweep.
    - [PeerIndex] (peerindex.rs): module [Bloom] (the filter and its wire form), module [Index] (local and
      remote filters, rendezvous hashing, candidate ranking), module [Publish] (the interleaving of
      inserters and rebuilders).
    - [Gossip], module [Gossip] (cluster.rs handlers and loop, main.rs Bloom loops): one exchange between
      two nodes, one tick of each loop; the class [JsonCodec] is the interface to serde_json.
    - [Freshness], module [Freshness] (hooks and pull loop of main.rs): the way from an insert to the
      filters of the peers, composed of [Publish], [Cluster] and [Gossip]; rebuilds may overlap, and what
      fails when they do is guarded by the section variable [solo].
    - [Wire], module [Wire] (codecs of transport_ucx.rs): requests and responses, byte for byte.
    - [UcxRuntime] (transport_ucx.rs): module [Slab] (receive slots), module [Endpoints] (endpoint table and
      its users, the closing of all endpoints at shutdown included), module [Rpc] (server
      handler and client fetch, composed over the codec).
    - [UcxCallbacks], module [Callbacks] (transport_ucx.rs): the boxes behind the raw pointers that UCX's
      error callbacks get, on top of [Endpoints].
    - [UcxFetch], module [Exchange] (transport_ucx.rs): concurrent fetches over one slab and one worker, with
      tag matching, on top of [Slab], [Wire] and [Rpc].
    - [UcxRequest], module [Request] (transport_ucx.rs): the futures of UCX operations over the recycled
      memory of requests, their callbacks and wake-ups, as a step relation with UCX as the environment.
    - [UcxLoop] (transport_ucx.rs): module [Boot] (start and stop of the runtime as traces of the resources
      they take and give back, with every call that can fail), module [Runtime] (the client's
      channel, the loop and its tasks).
    - [Config], module [Conf] (config.rs): records, defaults, validation, cluster hash.
    - [HttpApi]: the interfaces to headers and URLs (classes [HeaderMap], [UrlApi]) with instances, and calls
      that may panic.
    - [Metrics], module [Metrics] (stats.rs, [Stats::new]): every metric, its creation and its registration
      over the class [Prometheus].
    - [Auth], module [Auth] (auth/): token sources, the shared bearer token and its refresh under
      interleaved callers (a dropped call leaves its blocking fetch running), SAS tokens, shared-key
      signatures.
    - [Azure], module [Azure] (azure.rs): the blob client - signed requests, retries with back-off, range
      reads that restart, paged listings.
    - [Transport] (transport.rs, request_id.rs): the HTTP server and client of peers, the dispatch between
      transports, and the class [PeerTransport] that both transports implement.
    - [PeerLru], module [Lru] ([PeerLru] of fetcher.rs): byte-bounded LRU over the class [LruCache], the
      interface to the lru crate, with a list as its instance.
    - [Singleflight], module [Singleflight] (fetcher.rs [inflight], [LeaderGuard]): leaders, followers and
      broadcast channels as a step relation over interleaved tasks; the map and the gauge are changed by
      separate operations, as are the two halves of a clear.
    - [Permits], module [Permits] (semaphores of fetcher.rs and hydrate.rs): the permits that reads,
      shards, broadcasts, ring steps and prefetches queue for, with the waits of [Singleflight].
    - [Fetcher], module [Fetch] (fetcher.rs): the whole pipeline - lookups in memory, disk lookup, peers,
      stampede coordination, origin, background inserts, range reads, prefetch, clearing - as
      state-passing functions over the record [Fetcher]; the outside world is the record [Env].
    - [BlobPool], module [Pool] (blob_fetcher_pool.rs): the workers with their clients; it implements the
      origin that [Env] assumes.
    - [Mesh], module [Mesh]: nodes that fetch from each other through either transport.
    - [Hydrate], module [Hydrate] (hydrate.rs): the coordinator's plan and phases, the three workers.
    - [Clear], module [Clear] (clear.rs): the clearing of one node and of the cluster.
    - [Jobs], module [Jobs] (hydrate_jobs.rs and the job task of stats.rs): background hydrate jobs.
    - [Status], module [Status] (stats.rs, [serve]): every route of the operator's HTTP interface over the
      models of what it calls, and the interleaving of requests with the tasks of background jobs, which
      may panic.
    - [FuseFs], module [Fs] (fuse_fs.rs): the inode table, lazy directory listings, and the FUSE
      operations on top of [Fetch.fetch_range].
    - [Daemon] (main.rs, nic.rs): module [Nic] (local addresses), module [Daemon] ([prepare] builds a
      node from its configuration, [main] goes on to its mounts, with every way this can fail).

    ** What the theorems show

    - Reads are right: [fuse_read_correct] (end to end through the mount), [fetch_range_correct] and
      [fetch_chunk_correct] (the bytes returned are the bytes of the blob, and they are returned whenever
      the origin answers), [pipeline_coherent] (no sequence of operations files wrong bytes anywhere),
      [mesh_coherent] (the same for a whole cluster, with only the origin trusted), [singleflight_sound],
      [permits_settle] (the concurrency limits hold and cannot block the tasks that wait for them).
      The mount shows the origin: [fuse_table_invariant] and the lemma [listing_exact].
    - The origin is reached: [pool_origin_honest] (the pool over an honest blob service is the origin the
      pipeline assumes), [requests_bounded] (requests terminate), [range_rides_out_faults],
      [list_blobs_complete], [token_singleflight].
    - The caches keep their promises: [cache_invariant], [cache_refines_lru] (a refinement onto the
      abstract LRU list), [insert_then_try_get], [inserts_atomic] (concurrent inserts refine the one-step
      insert), [peer_lru_bounded].
    - The cluster converges: [merge_precedence], [membership_invariant], [gossip_round_converges],
      [publish_no_false_negatives], [filters_fresh] (what a peer's copy of a filter says is true of the
      version it carries), and the lemma [hrw_leader_agreement].
    - The transports: [transports_agree] (HTTP and RDMA give the same answers about a chunk
      whose cached length is the length asked for), [request_roundtrip],
      [fetches_not_crossed] (concurrent fetches get their own bytes; the slab alone is the lemma
      [slab_exclusive]), [endpoint_life_cycle], [callback_args_safe] (no use after free in the error
      callbacks), [requests_exact] (a UCX future reports its own operation),
      [commands_answered] (one answer per command, and an answer for every command once the runtime's
      thread is gone), [resources_balanced] (whichever call of the start fails).
    - Hydration and operation: [ring_allgather], [worker_accounting], [coordinator_accounts],
      [async_reports_sync], [polls_truthful] (a poll reports the stage a job is really in), [clear_accounts],
      and the lemmas [hydrate_keys_match_reads], [shard_complete] and [job_table_sound].
    - Configuration and start: [validate_exact], [metrics_complete], [started_ready] (a node that starts
      satisfies what the theorems above ask of it), and the lemma [cluster_hash_canonical].
    - Three behaviours that fall short of their intent are lemmas: [reply_loses_bloom_version],
      [overlapping_rebuilds_lose_an_insert] and [announcement_can_lag].

    ** Bounds, fuel, assumptions

    Unsigned integers are [Z] with wrap-around and saturation written out; a theorem that needs the
    absence of overflow says so.  Loops that are not structural run on fuel that is shown to be enough:
    eviction on the number of tracked entries, the offsets of a read on the number of chunks between its
    ends, the cutting of a blob on the rounded-up quotient, the round robin on the longest shard, the
    retries of a request and of a range read on the configured number of retries ([requests_bounded]), and
    the pages of a listing on a bound that [list_blobs_complete] states.
    SHA-256, HMAC, base64, JSON, XML, TOML, percent encoding, URLs, the lru crate, UCX, HTTP and the blob
    service are parameters; what is relied on is a named hypothesis or class ([collision_free],
    [JsonCodec], [LruCache], [HeaderMap], [UrlApi], [PercentCodec], [Prometheus], [honest],
    [honest_service]) with a concrete instance in the witnesses.  Clock readings, random choices, panics
    and I/O faults are arguments.  Iteration orders of hash maps are unspecified and nothing depends on
    them.

    ** Not modelled

    The text format of the Prometheus metrics, the accept loops of the servers, command-line arguments,
    signals and logging (main.rs), observations of histograms and floating-point rates, and the
    generation of random request identifiers: input and output, or code of the libraries.  A task that
    panics in the middle of an update of shared state is not modelled either, nor is a crash of the
    machine between a write and its fsync.  Next in the plan are the composition of the command tasks of
    [UcxLoop] with the fetches of [UcxFetch], and the address hook between the membership and the RDMA
    client under interleaving. *)

From Stdlib Require Export Strings.Byte Strings.Ascii.
From stdpp Require Export base gmap list strings pretty sorting.
From Stdlib Require Export ZArith Lia.
From Stdlib Require Strings.String.

Declare Scope blob_scope.
Delimit Scope blob_scope with blob.
Open Scope Z_scope.

(** ** Machine integers

    A [u64] (or [usize] on the 64-bit targets the daemon is built for) is a [Z] between 0 and
    [u64_max].  The release profile of [Cargo.toml] leaves overflow checks off, so [+] and [*]
    wrap; the saturating operations of the standard library are written out. *)
Definition u32_mod : Z := 2 ^ 32.
Definition u64_mod : Z := 2 ^ 64.
Definition u32_max : Z := u32_mod - 1.
Definition u64_max : Z := u64_mod - 1.
Definition wrap32 (x : Z) : Z := x mod u32_mod.
Definition wrap64 (x : Z) : Z := x mod u64_mod.
Definition wadd64 (a b : Z) : Z := wrap64 (a + b).
Definition wmul64 (a b : Z) : Z := wrap64 (a * b).
Definition sat_add64 (a b : Z) : Z := Z.min (a + b) u64_max.
Definition sat_mul64 (a b : Z) : Z := Z.min (a * b) u64_max.
Definition sat_sub (a b : Z) : Z := Z.max 0 (a - b).
Definition div_ceil (a b : Z) : Z := (a + b - 1) / b.
Definition is_u64 (x : Z) : Prop := 0 <= x <= u64_max.
Definition is_u32 (x : Z) : Prop := 0 <= x <= u32_max.

(** The length of a Rust slice or [Vec], as the [usize] the code compares. *)
Definition len {A} (l : list A) : Z := Z.of_nat (length l).

(** The slice [b[a..z]] of a byte buffer; callers establish [a <= z <= len b]. *)
Definition slice {A} (b : list A) (a z : Z) : list A :=
  take (Z.to_nat (z - a)) (drop (Z.to_nat a) b).

Definition zsum (l : list Z) : Z := foldr Z.add 0 l.

(** ** Bytes and little/big-endian encodings *)
Definition byte_val (b : byte) : Z := Z.of_N (Byte.to_N b).
Definition byte_of (z : Z) : byte :=
  match Byte.of_N (Z.to_N (z mod 256)) with Some b => b | None => x00 end.

Fixpoint le_val (l : list byte) : Z :=
  match l with
  | [] => 0
  | b :: t => byte_val b + 256 * le_val t
  end.

Fixpoint le_bytes (n : nat) (z : Z) : list byte :=
  match n with
  | O => []
  | S n' => byte_of z :: le_bytes n' (z / 256)
  end.

Definition be_bytes (n : nat) (z : Z) : list byte := rev (le_bytes n z).
Definition be_val (l : list byte) : Z := le_val (rev l).

(** ** Decidable equality of bytes *)
#[export] Instance byte_eq_decision : EqDecision byte := Byte.byte_eq_dec.

#[export] Program Instance byte_countable : Countable byte :=
  inj_countable Byte.to_N Byte.of_N _.
Next Obligation. intros b. apply Byte.of_to_N. Qed.

(** ** Strings

    A Rust [String] is its UTF-8 bytes; a Rocq [string] is a sequence of 8-bit characters. *)
Definition str_bytes (s : string) : list byte := String.list_byte_of_string s.
Definition bytes_str (l : list byte) : string := String.string_of_list_byte l.
Definition str_len (s : string) : Z := len (str_bytes s).

Definition in_range (lo hi : Z) (b : byte) : bool :=
  (lo <=? byte_val b) && (byte_val b <=? hi).

(** The validity test of [String::from_utf8]. *)
Fixpoint utf8_valid (l : list byte) : bool :=
  match l with
  | [] => true
  | b0 :: t =>
      if in_range 0 127 b0 then utf8_valid t
      else match t with
      | b1 :: t1 =>
          if in_range 194 223 b0 then in_range 128 191 b1 && utf8_valid t1
          else match t1 with
          | b2 :: t2 =>
              if in_range 224 239 b0 then
                (if in_range 224 224 b0 then in_range 160 191 b1
                 else if in_range 237 237 b0 then in_range 128 159 b1
                 else in_range 128 191 b1)
                && in_range 128 191 b2 && utf8_valid t2
              else match t2 with
              | b3 :: t3 =>
                  if in_range 240 244 b0 then
                    (if in_range 240 240 b0 then in_range 144 191 b1
                     else if in_range 244 244 b0 then in_range 128 143 b1
                     else in_range 128 191 b1)
                    && in_range 128 191 b2 && in_range 128 191 b3 && utf8_valid t3
                  else false
              | [] => false
              end
          | [] => false
          end
      | [] => false
      end
  end.

Definition is_ascii_alphanumeric (b : byte) : bool :=
  in_range 48 57 b || in_range 65 90 b || in_range 97 122 b.

Definition starts_with (p s : string) : bool := String.prefix p s.

Fixpoint string_drop (n : nat) (s : string) : string :=
  match n, s with
  | O, _ => s
  | S n', String _ t => string_drop n' t
  | S _, EmptyString => EmptyString
  end.

(** [str::strip_prefix]. *)
Definition strip_prefix (p s : string) : option string :=
  if starts_with p s then Some (string_drop (String.length p) s) else None.

Fixpoint trim_start_matches (c : ascii) (s : string) : string :=
  match s with
  | String a t => if Ascii.eqb a c then trim_start_matches c t else s
  | EmptyString => EmptyString
  end.

Fixpoint trim_end_matches (c : ascii) (s : string) : string :=
  match s with
  | EmptyString => EmptyString
  | String a t =>
      match trim_end_matches c t with
      | EmptyString => if Ascii.eqb a c then EmptyString else String a EmptyString
      | r => String a r
      end
  end.

Definition trim_matches (c : ascii) (s : string) : string :=
  trim_end_matches c (trim_start_matches c s).

Fixpoint contains_char (c : ascii) (s : string) : bool :=
  match s with
  | EmptyString => false
  | String a t => Ascii.eqb a c || contains_char c t
  end.

(** [str::to_ascii_lowercase]. *)
Definition to_ascii_lower (c : ascii) : ascii :=
  let n := Ascii.nat_of_ascii c in
  if (65 <=? n)%nat && (n <=? 90)%nat then Ascii.ascii_of_nat (n + 32) else c.

Fixpoint to_ascii_lowercase (s : string) : string :=
  match s with
  | EmptyString => EmptyString
  | String c t => String (to_ascii_lower c) (to_ascii_lowercase t)
  end.

(** [str::contains] of a substring. *)
Definition str_contains (p s : string) : bool :=
  match String.index 0 p s with Some _ => true | None => false end.

(** [str::parse::<u64>]: an optional plus sign, then at least one decimal digit, no overflow. *)
Definition parse_digit (c : ascii) : option Z :=
  let n := Z.of_nat (Ascii.nat_of_ascii c) in
  if (48 <=? n) && (n <=? 57) then Some (n - 48) else None.

Fixpoint parse_digits (acc : Z) (s : string) : option Z :=
  match s with
  | EmptyString => Some acc
  | String c t =>
      match parse_digit c with
      | Some d => if 10 * acc + d <=? u64_max then parse_digits (10 * acc + d) t else None
      | None => None
      end
  end.

Definition parse_u64 (s : string) : option Z :=
  let digits := match s with String "+" t => t | _ => s end in
  match digits with EmptyString => None | _ => parse_digits 0 digits end.

(** [[String]::join]. *)
Fixpoint join (sep : string) (l : list string) : string :=
  match l with
  | [] => EmptyString
  | [s] => s
  | s :: t => s +:+ sep +:+ join sep t
  end.

(** [str::trim]: the UTF-8 encodings of the Unicode white space are dropped at both ends. *)
Definition whitespace : list (list byte) :=
  ((fun c => [byte_of c]) <$> [9; 10; 11; 12; 13; 32])
  ++ [[xc2; x85]; [xc2; xa0]; [xe1; x9a; x80]; [xe2; x81; x9f]; [xe3; x80; x80]]
  ++ ((fun c => [xe2; x80; byte_of c])
        <$> [128; 129; 130; 131; 132; 133; 134; 135; 136; 137; 138; 168; 169; 175]).

Fixpoint strip_front (ws : list (list byte)) (fuel : nat) (l : list byte) : list byte :=
  match fuel with
  | O => l
  | S n =>
      match list_find (fun w => take (length w) l = w) ws with
      | Some (_, w) => strip_front ws n (drop (length w) l)
      | None => l
      end
  end.

Definition trim (s : string) : string :=
  let l := strip_front whitespace (String.length s) (str_bytes s) in
  bytes_str (reverse (strip_front (reverse <$> whitespace) (length l) (reverse l))).

(** [StatusCode::is_success]. *)
Definition is_success (st : Z) : bool := (200 <=? st) && (st <? 300).

Definition slash : ascii := "/"%char.
Definition nul : ascii := Ascii.zero.
Definition show (z : Z) : string := pretty (Z.to_N z).

(** ** Results

    [std::result::Result], with the [?] operator as a bind. *)
Inductive result (E A : Type) : Type :=
| Ok (a : A)
| Err (e : E).
Arguments Ok {E A} a.
Arguments Err {E A} e.

Definition rbind {E A B} (r : result E A) (k : A -> result E B) : result E B :=
  match r with Ok a => k a | Err e => Err e end.

Notation "'let?' p := r 'in' k" := (rbind r (fun x => match x with p => k end))
  (at level 10, p pattern, k at level 200) : blob_scope.
Open Scope blob_scope.

Definition is_ok {E A} (r : result E A) : bool :=
  match r with Ok _ => true | Err _ => false end.

(** [Result::map_err]. *)
Definition map_err {E F A} (f : E -> F) (r : result E A) : result F A :=
  match r with Ok a => Ok a | Err e => Err (f e) end.

(** [Result::ok]. *)
Definition ok {E A} (r : result E A) : option A :=
  match r with Ok a => Some a | Err _ => None end.

(** ** Sorting

    [slice::sort_by] and [sort_by_key] are stable; insertion from the right is too. *)
Section stable_sort.
Context {A : Type} (le : A -> A -> bool).

Fixpoint sort_insert (x : A) (l : list A) : list A :=
  match l with
  | [] => [x]
  | y :: t => if le x y then x :: y :: t else y :: sort_insert x t
  end.

Fixpoint stable_sort (l : list A) : list A :=
  match l with
  | [] => []
  | x :: t => sort_insert x (stable_sort t)
  end.
End stable_sort.

(** The [Ord] of [String]: lexicographic on bytes. *)
Fixpoint bytes_le (a b : list byte) : bool :=
  match a, b with
  | [], _ => true
  | _ :: _, [] => false
  | x :: a', y :: b' =>
      if byte_val x <? byte_val y then true
      else if byte_val y <? byte_val x then false
      else bytes_le a' b'
  end.

Definition str_le (a b : string) : bool := bytes_le (str_bytes a) (str_bytes b).

(** ** Tactics and hints *)
Create HintDb blob.

(** Unfold the machine-integer operations and decide the linear arithmetic left. *)
Ltac u64_lia :=
  unfold is_u64, is_u32, sat_sub, sat_add64, u64_max, u64_mod, u32_max, u32_mod, len in *; lia.

(** Split the boolean tests of the code in the goal and the context. *)
Ltac case_bool :=
  repeat match goal with
  | H : (_ && _) = true |- _ => apply andb_true_iff in H as [? ?]
  | H : (_ || _) = false |- _ => apply orb_false_iff in H as [? ?]
  | H : negb _ = true |- _ => apply negb_true_iff in H
  | H : negb _ = false |- _ => apply negb_false_iff in H
  | H : (_ <? _) = true |- _ => apply Z.ltb_lt in H
  | H : (_ <? _) = false |- _ => apply Z.ltb_ge in H
  | H : (_ <=? _) = true |- _ => apply Z.leb_le in H
  | H : (_ <=? _) = false |- _ => apply Z.leb_gt in H
  | H : (_ =? _) = true |- _ => apply Z.eqb_eq in H
  | H : (_ =? _) = false |- _ => apply Z.eqb_neq in H
  end.

(** Case analysis on the first test or match of the goal. *)
Ltac step_match :=
  match goal with
  | |- context [if ?b then _ else _] => destruct b eqn:?
  | |- context [match ?x with _ => _ end] => destruct x eqn:?
  end.

(** Split the [<?] tests of the goal, keeping what they decided. *)
Ltac split_ltb :=
  repeat match goal with |- context [?a <? ?b] => destruct (Z.ltb_spec a b) end.

(** ** Lemmas on integers and lists *)
Lemma wrap64_small x : 0 <= x <= u64_max -> wrap64 x = x.
Proof. intros. apply Z.mod_small. u64_lia. Qed.

Lemma wrap64_range x : is_u64 (wrap64 x).
Proof. unfold is_u64, wrap64, u64_max. pose proof (Z.mod_pos_bound x u64_mod). unfold u64_mod in *. lia. Qed.

Lemma wadd64_small a b : 0 <= a -> 0 <= b -> a + b <= u64_max -> wadd64 a b = a + b.
Proof. intros. apply wrap64_small. lia. Qed.

Lemma len_nonneg {A} (l : list A) : 0 <= len l.
Proof. unfold len; lia. Qed.
#[export] Hint Resolve len_nonneg : blob core.

Lemma len_nil {A} : len (@nil A) = 0.
Proof. reflexivity. Qed.

Lemma len_app {A} (a b : list A) : len (a ++ b) = len a + len b.
Proof. unfold len. rewrite length_app. lia. Qed.

Lemma len_cons {A} (x : A) l : len (x :: l) = 1 + len l.
Proof. unfold len. simpl. lia. Qed.

Lemma len_slice {A} (b : list A) x z :
  0 <= x <= z -> z <= len b -> len (slice b x z) = z - x.
Proof. unfold len, slice. intros. rewrite length_take, length_drop. lia. Qed.

Lemma slice_full {A} (b : list A) : slice b 0 (len b) = b.
Proof.
  unfold slice, len. rewrite Z.sub_0_r, Nat2Z.id. simpl. by rewrite drop_0, firstn_all.
Qed.

Lemma slice_app {A} (b : list A) x y z :
  0 <= x <= y -> y <= z -> slice b x y ++ slice b y z = slice b x z.
Proof.
  unfold slice. intros.
  replace (Z.to_nat (z - x)) with (Z.to_nat (y - x) + Z.to_nat (z - y))%nat by lia.
  replace (Z.to_nat y) with (Z.to_nat x + Z.to_nat (y - x))%nat by lia.
  rewrite <- (take_take_drop (drop (Z.to_nat x) b)), drop_drop. done.
Qed.

Lemma slice_slice {A} (b : list A) x z u v :
  0 <= x -> 0 <= u <= v -> v <= z - x -> slice (slice b x z) u v = slice b (x + u) (x + v).
Proof.
  unfold slice. intros. rewrite skipn_firstn_comm, drop_drop, firstn_firstn.
  f_equal; [lia|]. f_equal. lia.
Qed.

Lemma zsum_cons x l : zsum (x :: l) = x + zsum l.
Proof. reflexivity. Qed.

Lemma zsum_app a b : zsum (a ++ b) = zsum a + zsum b.
Proof. induction a as [|x a IH]; simpl; [lia|]. rewrite IH. lia. Qed.

Lemma zsum_nonneg l : Forall (fun x => 0 <= x) l -> 0 <= zsum l.
Proof. induction 1; simpl; lia. Qed.

Lemma zsum_permutation a b : a ≡ₚ b -> zsum a = zsum b.
Proof. induction 1; simpl; lia. Qed.

(** ** Lemmas on bytes and strings *)
Lemma byte_val_range b : 0 <= byte_val b < 256.
Proof. unfold byte_val. pose proof (Byte.to_N_bounded b). lia. Qed.

Lemma byte_of_val b : byte_of (byte_val b) = b.
Proof.
  unfold byte_of. rewrite Z.mod_small by apply byte_val_range.
  unfold byte_val. by rewrite N2Z.id, Byte.of_to_N.
Qed.

Lemma byte_val_of z : byte_val (byte_of z) = z mod 256.
Proof.
  pose proof (Z.mod_pos_bound z 256 ltac:(lia)) as Hb.
  unfold byte_of. destruct (Byte.of_N _) as [b|] eqn:E.
  - apply Byte.to_of_N in E. unfold byte_val. rewrite E. by rewrite Z2N.id by lia.
  - apply Byte.of_N_None_iff in E. lia.
Qed.

Lemma byte_val_inj a b : byte_val a = byte_val b -> a = b.
Proof. intros H. rewrite <- (byte_of_val a), <- (byte_of_val b). by rewrite H. Qed.

Lemma length_le_bytes n z : length (le_bytes n z) = n.
Proof. revert z. induction n as [|n IH]; intros z; simpl; [done|]. by rewrite IH. Qed.

Lemma length_be_bytes n z : length (be_bytes n z) = n.
Proof. unfold be_bytes. rewrite length_rev. apply length_le_bytes. Qed.

Lemma len_be_bytes n z : len (be_bytes n z) = Z.of_nat n.
Proof. unfold len. by rewrite length_be_bytes. Qed.

Lemma le_val_bytes n z : le_val (le_bytes n z) = z mod 256 ^ Z.of_nat n.
Proof.
  revert z. induction n as [|n IH]; intros z; simpl; [by rewrite Z.mod_1_r|].
  rewrite byte_val_of, IH, Nat2Z.inj_succ, Z.pow_succ_r by lia.
  rewrite Z.rem_mul_r by lia. lia.
Qed.

Lemma le_val_range l : 0 <= le_val l < 256 ^ Z.of_nat (length l).
Proof.
  induction l as [|b l IH]; [simpl; lia|].
  cbn [le_val length]. rewrite Nat2Z.inj_succ, Z.pow_succ_r by lia.
  pose proof (byte_val_range b). lia.
Qed.

Lemma le_bytes_val l : le_bytes (length l) (le_val l) = l.
Proof.
  induction l as [|b l IH]; [done|]. cbn [le_val length le_bytes].
  pose proof (byte_val_range b). f_equal.
  - apply byte_val_inj. rewrite byte_val_of.
    rewrite (Z.mul_comm 256), Z.mod_add, Z.mod_small by lia. done.
  - rewrite (Z.mul_comm 256), Z.div_add, (Z.div_small (byte_val b)) by lia.
    by rewrite Z.add_0_l, IH.
Qed.

Lemma be_val_bytes n z : be_val (be_bytes n z) = z mod 256 ^ Z.of_nat n.
Proof. unfold be_val, be_bytes. rewrite rev_involutive. apply le_val_bytes. Qed.

Lemma le_val_bytes_small n z : 0 <= z < 256 ^ Z.of_nat n -> le_val (le_bytes n z) = z.
Proof. intros. rewrite le_val_bytes. by apply Z.mod_small. Qed.

Lemma be_val_bytes_small n z : 0 <= z < 256 ^ Z.of_nat n -> be_val (be_bytes n z) = z.
Proof. intros. rewrite be_val_bytes. by apply Z.mod_small. Qed.

Lemma le_val_inj a b : length a = length b -> le_val a = le_val b -> a = b.
Proof. intros Hl Hv. rewrite <- (le_bytes_val a), <- (le_bytes_val b). congruence. Qed.

Lemma str_bytes_str l : str_bytes (bytes_str l) = l.
Proof. apply String.list_byte_of_string_of_list_byte. Qed.

Lemma bytes_str_bytes s : bytes_str (str_bytes s) = s.
Proof. apply String.string_of_list_byte_of_string. Qed.

Lemma str_bytes_inj a b : str_bytes a = str_bytes b -> a = b.
Proof. intros H. rewrite <- (bytes_str_bytes a), H. apply bytes_str_bytes. Qed.

Lemma starts_with_app p s : starts_with p (p +:+ s) = true.
Proof.
  unfold starts_with. induction p as [|c p IH]; simpl; [by destruct s|]. by destruct (Ascii.ascii_dec c c).
Qed.

Lemma string_drop_app p s : string_drop (String.length p) (p +:+ s) = s.
Proof. by induction p as [|c p IH]. Qed.

Lemma string_app_assoc (a b c : string) : (a +:+ b) +:+ c = a +:+ (b +:+ c).
Proof. induction a as [|x a IH]; [done|].
  change (String x ((a +:+ b) +:+ c) = String x (a +:+ (b +:+ c))). by rewrite IH.
Qed.

Lemma strip_prefix_app p s : strip_prefix p (p +:+ s) = Some s.
Proof. unfold strip_prefix. by rewrite starts_with_app, string_drop_app. Qed.

Lemma str_bytes_app a b : str_bytes (a +:+ b) = str_bytes a ++ str_bytes b.
Proof.
  induction a as [|c a IH]; [done|].
  exact (f_equal (cons (byte_of_ascii c)) IH).
Qed.

Lemma contains_char_false (f : byte -> bool) c s :
  forallb f (str_bytes s) = true -> f (byte_of_ascii c) = false -> contains_char c s = false.
Proof.
  intros Hs Hc. induction s as [|a s IH]; [done|].
  change (str_bytes (String a s)) with (byte_of_ascii a :: str_bytes s) in Hs. cbn [forallb] in Hs.
  apply andb_true_iff in Hs as [Ha Hs]. cbn [contains_char]. rewrite IH, orb_false_r by done.
  destruct (Ascii.eqb_spec a c) as [->|]; [congruence|done].
Qed.

(** ** Lemmas on decimal numbers *)
Definition is_digit (b : byte) : bool := in_range 48 57 b.

Lemma pretty_digit n :
  (n < 10)%N -> parse_digit (pretty_N_char n) = Some (Z.of_N n)
               /\ is_digit (byte_of_ascii (pretty_N_char n)) = true.
Proof. intros Hn. destruct n as [|p]; [done|]. do 4 (destruct p as [p|p|]; try done; try lia). Qed.

Lemma parse_pretty_go x s :
  Z.of_N x <= u64_max -> parse_digits 0 (pretty_N_go x s) = parse_digits (Z.of_N x) s.
Proof.
  revert s. induction (N.lt_wf_0 x) as [x _ IH]. intros s Hx.
  destruct (decide (x = 0%N)) as [->|Hne]; [by rewrite pretty_N_go_0|].
  rewrite pretty_N_go_step by lia.
  pose proof (N.div_mod x 10 ltac:(lia)). pose proof (N.mod_lt x 10 ltac:(lia)).
  assert (Hlt : (x `div` 10 < x)%N) by (apply N.div_lt; lia).
  rewrite IH by lia. simpl.
  destruct (pretty_digit (x `mod` 10)) as [-> _]; [done|].
  replace (10 * Z.of_N (x `div` 10) + Z.of_N (x `mod` 10)) with (Z.of_N x) by lia.
  by rewrite (proj2 (Z.leb_le _ _) Hx).
Qed.

Lemma pretty_go_digits x s :
  forallb is_digit (str_bytes s) = true -> forallb is_digit (str_bytes (pretty_N_go x s)) = true.
Proof.
  revert s. induction (N.lt_wf_0 x) as [x _ IH]. intros s Hs.
  destruct (decide (x = 0%N)) as [->|Hne]; [by rewrite pretty_N_go_0|].
  rewrite pretty_N_go_step by lia. apply IH; [apply N.div_lt; lia|].
  change (str_bytes (String (pretty_N_char (x `mod` 10)) s))
    with (byte_of_ascii (pretty_N_char (x `mod` 10)) :: str_bytes s).
  cbn [forallb]. rewrite Hs.
  by destruct (pretty_digit (x `mod` 10)) as [_ ->]; [apply N.mod_lt|].
Qed.

Lemma show_digits z : forallb is_digit (str_bytes (show z)) = true.
Proof.
  unfold show, pretty, pretty_N. case_decide; [reflexivity|]. by apply pretty_go_digits.
Qed.

Lemma show_not_empty z : show z <> EmptyString.
Proof.
  unfold show, pretty, pretty_N. case_decide as Hz; [done|].
  assert (Hgo : forall x s, s <> EmptyString -> pretty_N_go x s <> EmptyString).
  { intros x. induction (N.lt_wf_0 x) as [x _ IH]. intros s Hs.
    destruct (decide (x = 0%N)) as [->|Hne]; [by rewrite pretty_N_go_0|].
    rewrite pretty_N_go_step by lia. apply IH; [apply N.div_lt; lia|done]. }
  rewrite pretty_N_go_step by lia. by apply Hgo.
Qed.

Lemma parse_digits_range acc s z : 0 <= acc <= u64_max -> parse_digits acc s = Some z -> is_u64 z.
Proof.
  revert acc. induction s as [|c s IH]; simpl; intros acc Ha; [by intros [= <-]|].
  destruct (parse_digit c) as [d|] eqn:Ed; [|done]. case_match; [|done]. case_bool. apply IH.
  unfold parse_digit in Ed. case_match; [|done]. injection Ed as <-. case_bool. lia.
Qed.

Lemma parse_u64_range s z : parse_u64 s = Some z -> is_u64 z.
Proof.
  unfold parse_u64. case_match; [done|].
  apply parse_digits_range. unfold u64_max, u64_mod. lia.
Qed.

(** A decimal rendering parses back. *)
Lemma parse_show z : is_u64 z -> parse_u64 (show z) = Some z.
Proof.
  intros [H0 Hmax]. assert (Hp : parse_digits 0 (show z) = Some z).
  { unfold show, pretty, pretty_N. case_decide as Hz; [assert (z = 0) as -> by lia; reflexivity|].
    rewrite parse_pretty_go by lia. simpl. f_equal. lia. }
  pose proof (show_digits z) as Hd. pose proof (show_not_empty z) as Hne.
  unfold parse_u64. destruct (show z) as [|c t]; [done|].
  destruct c as [[] [] [] [] [] [] [] []]; try exact Hp; done.
Qed.

(** ** Lemmas on sorting *)
Section stable_sort_facts.
Context {A : Type} (le : A -> A -> bool).
Context (le_total : forall x y, le x y = false -> le y x = true).
Context (le_trans : forall x y z, le x y = true -> le y z = true -> le x z = true).

Lemma sort_insert_permutation x l : sort_insert le x l ≡ₚ x :: l.
Proof.
  induction l as [|y l IH]; simpl; [done|]. destruct (le x y); [done|].
  rewrite IH. apply perm_swap.
Qed.

Lemma stable_sort_permutation l : stable_sort le l ≡ₚ l.
Proof.
  induction l as [|x l IH]; simpl; [done|]. by rewrite sort_insert_permutation, IH.
Qed.

Lemma sort_insert_sorted x l :
  StronglySorted (fun a b => le a b = true) l ->
  StronglySorted (fun a b => le a b = true) (sort_insert le x l).
Proof using le_total le_trans.
  induction 1 as [|y l Hs IH Hf]; simpl; [repeat constructor|].
  destruct (le x y) eqn:E.
  - constructor; [by constructor|]. constructor; [done|].
    eapply Forall_impl; [exact Hf|]. intros z Hz. simpl in Hz. by eapply le_trans.
  - constructor; [done|]. rewrite sort_insert_permutation. constructor; auto.
Qed.

Lemma stable_sort_sorted l : StronglySorted (fun a b => le a b = true) (stable_sort le l).
Proof using le_total le_trans.
  induction l as [|x l IH]; simpl; [constructor|]. by apply sort_insert_sorted.
Qed.

Lemma stable_sort_id l : StronglySorted (fun a b => le a b = true) l -> stable_sort le l = l.
Proof using Type.
  induction 1 as [|x l Hs IH Hf]; simpl; [done|]. rewrite IH.
  destruct l as [|y l]; [done|]. apply Forall_cons in Hf as [Hxy _]. simpl. by rewrite Hxy.
Qed.

(** Two sorted permutations of each other are equal when ties are equalities. *)
Lemma sorted_permutation_eq l1 l2 :
  (forall x y, x ∈ l1 -> y ∈ l1 -> le x y = true -> le y x = true -> x = y) ->
  StronglySorted (fun a b => le a b = true) l1 ->
  StronglySorted (fun a b => le a b = true) l2 ->
  l1 ≡ₚ l2 -> l1 = l2.
Proof using Type.
  clear le_total le_trans. intros Hanti H1. revert l2. induction H1 as [|x l1 Hs IH Hf]; intros l2 H2 Hp.
  - by apply Permutation_nil in Hp.
  - destruct H2 as [|y l2 Hs2 Hf2]; [by apply Permutation_sym, Permutation_nil in Hp|].
    assert (x = y) as ->.
    { assert (y ∈ x :: l1) as Hy by (rewrite Hp; set_solver).
      assert (x ∈ y :: l2) as Hx by (rewrite <- Hp; set_solver).
      rewrite Forall_forall in Hf, Hf2.
      apply elem_of_cons in Hy as [->|Hy]; [done|].
      apply elem_of_cons in Hx as [->|Hx]; [done|].
      apply Hanti; [set_solver|set_solver|by apply Hf|by apply Hf2]. }
    f_equal. apply IH; [|done|by eapply Permutation_cons_inv].
    intros a b Ha Hb. apply Hanti; set_solver.
Qed.
End stable_sort_facts.

Lemma bytes_le_total a b : bytes_le a b = false -> bytes_le b a = true.
Proof.
  revert b. induction a as [|x a IH]; intros [|y b]; simpl; try done.
  split_ltb; try done; try lia. auto.
Qed.

Lemma bytes_le_trans a b c : bytes_le a b = true -> bytes_le b c = true -> bytes_le a c = true.
Proof.
  revert b c. induction a as [|x a IH]; intros [|y b] [|z c]; simpl; try done.
  split_ltb; try done; try lia. eauto.
Qed.

Lemma bytes_le_antisym a b : bytes_le a b = true -> bytes_le b a = true -> a = b.
Proof.
  revert b. induction a as [|x a IH]; intros [|y b]; simpl; try done.
  split_ltb; try done; try lia.
  intros. f_equal; [apply byte_val_inj; lia | auto].
Qed.

Lemma str_le_antisym a b : str_le a b = true -> str_le b a = true -> a = b.
Proof. intros. by apply str_bytes_inj, bytes_le_antisym. Qed.

(** ** Lemmas on filters *)
Lemma filter_id {A} (P : A -> Prop) `{!forall x, Decision (P x)} l :
  Forall P l -> filter P l = l.
Proof. induction 1 as [|x l Hx Hl IH]; [done|]. by rewrite filter_cons_True, IH. Qed.

Lemma filter_none {A} (P : A -> Prop) `{!forall x, Decision (P x)} l :
  Forall (fun x => ~ P x) l -> filter P l = [].
Proof. induction 1 as [|x l Hx Hl IH]; [done|]. by rewrite filter_cons_False, IH. Qed.

Lemma filter_fmap_list {A B} (f : A -> B) (P : B -> Prop) `{!forall x, Decision (P x)} (l : list A) :
  filter P (f <$> l) = f <$> filter (fun x => P (f x)) l.
Proof.
  induction l as [|x l IH]; [done|]. rewrite fmap_cons, !filter_cons.
  case_decide; by rewrite IH.
Qed.

Lemma sorted_impl {A} (R R' : A -> A -> Prop) l :
  (forall a b, R a b -> R' a b) -> StronglySorted R l -> StronglySorted R' l.
Proof.
  intros HR. induction 1 as [|x l Hs IH Hf]; constructor; [done|].
  eapply Forall_impl; [exact Hf|auto].
Qed.
