(* ===== verification/ChunkKeys.v ===== *)
(** * Chunk keys and their names (src/src/cache.rs, src/src/peerindex.rs)

    The key of a cached chunk, the bytes that identify it to SHA-256 (the on-disk file name and
    the Bloom digest hash the same bytes), the hexadecimal rendering, and the error type.
    SHA-256 is a third-party crate: [sha256] is a parameter of everything that hashes. *)

From S2P Require Import Prelude.

(** ** Errors (src/src/error.rs) *)

(** The [reqwest::Error] the code inspects: its classification and its text. *)
Record HttpError := mkHttpError {
  is_timeout : bool;
  is_connect : bool;
  is_request : bool;
  is_body : bool;
  is_decode : bool;
  http_text : string
}.

Inductive BcError : Type :=
| Auth (m : string)
| Http (e : HttpError)
| Io (m : string)
| Config (m : string)
| InvalidUrl (m : string)
| Xml (m : string)
| Storage (status : Z) (message : string)
| NotFound (m : string)
| Peer (m : string)
| Cluster (m : string)
| Other (m : string).

Definition res (A : Type) : Type := result BcError A.

(** [BcError]'s [Display]. *)
Definition display (e : BcError) : string :=
  match e with
  | Auth m => "auth: " +:+ m
  | Http h => "http: " +:+ http_text h
  | Io m => "io: " +:+ m
  | Config m => "config: " +:+ m
  | InvalidUrl m => "invalid url: " +:+ m
  | Xml m => "xml: " +:+ m
  | Storage st m => "storage " +:+ show st +:+ ": " +:+ m
  | NotFound m => "not found: " +:+ m
  | Peer m => "peer: " +:+ m
  | Cluster m => "cluster: " +:+ m
  | Other m => "other: " +:+ m
  end.

(** ** Keys *)
Record ChunkKey := mkChunkKey {
  mount : string;
  blob : string;
  offset : Z
}.

#[export] Instance ChunkKey_eq_decision : EqDecision ChunkKey.
Proof. solve_decision. Defined.

#[export] Program Instance ChunkKey_countable : Countable ChunkKey :=
  inj_countable (fun k => (mount k, blob k, offset k))
    (fun '(m, b, o) => Some (mkChunkKey m b o)) _.
Next Obligation. by intros []. Qed.

(** The bytes fed to SHA-256 by [cache_filename] and [key_digest]. *)
Definition key_preimage (k : ChunkKey) : list byte :=
  str_bytes (mount k) ++ [x00] ++ str_bytes (blob k) ++ [x00] ++ le_bytes 8 (offset k).

(** ** Hexadecimal *)
Definition hex_digit (n : Z) : byte := byte_of (if n <? 10 then 48 + n else 87 + n).

Definition hex_byte (b : byte) : list byte :=
  [hex_digit (Z.shiftr (byte_val b) 4); hex_digit (Z.land (byte_val b) 15)].

Definition hex (b : list byte) : string := bytes_str (b ≫= hex_byte).

Section hashed.
Context (sha256 : list byte -> list byte).

Definition cache_filename (k : ChunkKey) : string := hex (sha256 (key_preimage k)).

Definition key_digest (k : ChunkKey) : list byte := sha256 (key_preimage k).
End hashed.

(** ** Facts *)
Lemma hex_digit_inj a b :
  0 <= a < 16 -> 0 <= b < 16 -> hex_digit a = hex_digit b -> a = b.
Proof.
  intros Ha Hb H. apply (f_equal byte_val) in H. unfold hex_digit in H.
  rewrite !byte_val_of in H.
  destruct (a <? 10) eqn:?, (b <? 10) eqn:?; case_bool;
    rewrite !Z.mod_small in H by lia; lia.
Qed.

Lemma nibbles_range b :
  0 <= Z.shiftr (byte_val b) 4 < 16 /\ 0 <= Z.land (byte_val b) 15 < 16.
Proof.
  pose proof (byte_val_range b). rewrite Z.shiftr_div_pow2 by lia.
  change 15 with (Z.ones 4). rewrite Z.land_ones by lia.
  change (2 ^ 4) with 16. pose proof (Z.mod_pos_bound (byte_val b) 16 ltac:(lia)).
  split; [|lia]. split; [apply Z.div_pos; lia | apply Z.div_lt_upper_bound; lia].
Qed.

Lemma hex_byte_inj a b : hex_byte a = hex_byte b -> a = b.
Proof.
  unfold hex_byte. intros H. injection H as H1 H2.
  destruct (nibbles_range a), (nibbles_range b).
  apply hex_digit_inj in H1; [|done..]. apply hex_digit_inj in H2; [|done..].
  change 15 with (Z.ones 4) in H2.
  rewrite Z.shiftr_div_pow2 in H1 by lia. rewrite Z.shiftr_div_pow2 in H1 by lia.
  rewrite !Z.land_ones in H2 by lia.
  apply byte_val_inj. rewrite (Z.div_mod (byte_val a) (2 ^ 4)) by lia.
  rewrite (Z.div_mod (byte_val b) (2 ^ 4)) by lia. congruence.
Qed.

Lemma hex_inj a b : hex a = hex b -> a = b.
Proof.
  unfold hex. intros H. apply (f_equal str_bytes) in H. rewrite !str_bytes_str in H.
  revert b H. induction a as [|x a IH]; intros [|y b] H; try done.
  change ((x :: a) ≫= hex_byte) with (hex_byte x ++ (a ≫= hex_byte)) in H.
  change ((y :: b) ≫= hex_byte) with (hex_byte y ++ (b ≫= hex_byte)) in H.
  apply app_inj_1 in H as [Hx Ha]; [|done]. f_equal; [by apply hex_byte_inj | auto].
Qed.

Lemma length_bytes_str l : String.length (bytes_str l) = length l.
Proof.
  induction l as [|c l IH]; [done|].
  change (S (String.length (bytes_str l)) = S (length l)). by rewrite IH.
Qed.

Lemma length_hex b : String.length (hex b) = (2 * length b)%nat.
Proof.
  unfold hex. rewrite length_bytes_str. induction b as [|x b IH]; [done|].
  change ((x :: b) ≫= hex_byte) with (hex_byte x ++ (b ≫= hex_byte)).
  rewrite length_app, IH. simpl. lia.
Qed.

(** What precedes the first separator is determined by it. *)
Lemma sep_split (s : byte) (a b x y : list byte) :
  s ∉ a -> s ∉ b -> a ++ [s] ++ x = b ++ [s] ++ y -> a = b /\ x = y.
Proof.
  revert b. induction a as [|c a IH]; intros [|d b] Ha Hb H; simpl in H.
  - by injection H.
  - injection H as <- ?. destruct Hb. apply elem_of_cons; auto.
  - injection H as -> ?. destruct Ha. apply elem_of_cons; auto.
  - rewrite not_elem_of_cons in Ha, Hb. injection H as -> H.
    destruct (IH b) as [-> ->]; tauto.
Qed.

Lemma key_preimage_split k k' :
  x00 ∉ str_bytes (mount k) -> x00 ∉ str_bytes (mount k') ->
  key_preimage k = key_preimage k' ->
  mount k = mount k' /\ blob k = blob k' /\ wrap64 (offset k) = wrap64 (offset k').
Proof.
  unfold key_preimage. intros Hk Hk' H. apply sep_split in H as [Hm H]; [|done..].
  rewrite !app_assoc in H. apply app_inj_2 in H as [Hb Ho].
  2: by rewrite !length_le_bytes.
  apply app_inj_2 in Hb as [Hb _]; [|done].
  split; [by apply str_bytes_inj|]. split; [by apply str_bytes_inj|].
  apply (f_equal le_val) in Ho. by rewrite !le_val_bytes in Ho.
Qed.

(** The keys of the running system: no NUL in the mount name, a 64-bit offset. *)
Definition valid_key (k : ChunkKey) : Prop := x00 ∉ str_bytes (mount k) /\ is_u64 (offset k).

(** SHA-256 does not collide on the preimages of valid keys. *)
Definition collision_free (sha256 : list byte -> list byte) : Prop :=
  forall k k', valid_key k -> valid_key k' ->
    sha256 (key_preimage k) = sha256 (key_preimage k') -> key_preimage k = key_preimage k'.

Lemma valid_filename_inj sha256 k k' :
  collision_free sha256 -> valid_key k -> valid_key k' ->
  cache_filename sha256 k = cache_filename sha256 k' -> k = k'.
Proof.
  intros Hcf Hk Hk' H. apply hex_inj, Hcf in H; [|done..].
  apply key_preimage_split in H; [|by apply Hk|by apply Hk'].
  destruct Hk as [_ Ho], Hk' as [_ Ho'], H as (? & ? & H). rewrite !wrap64_small in H by u64_lia.
  destruct k, k'; simpl in *; congruence.
Qed.

Lemma not_tmp (c : byte) l : c <> x2e -> starts_with ".tmp." (bytes_str (c :: l)) = false.
Proof. by destruct c. Qed.

(** A temporary name ([.tmp.<pid>.<hex>]) is not the name of a chunk. *)
Lemma filename_not_tmp sha256 k : starts_with ".tmp." (cache_filename sha256 k) = false.
Proof.
  unfold cache_filename, hex. destruct (sha256 (key_preimage k)) as [|b l]; [done|].
  change ((b :: l) ≫= hex_byte) with (hex_byte b ++ (l ≫= hex_byte)).
  destruct (nibbles_range b) as [Hn _]. unfold hex_byte. apply not_tmp.
  intros H. apply (f_equal byte_val) in H. unfold hex_digit in H. rewrite byte_val_of in H.
  change (byte_val x2e) with 46 in H.
  destruct (_ <? 10); rewrite Z.mod_small in H by lia; lia.
Qed.

(** Distinct chunks never share a cache file name: two different keys whose mount names
    hold no NUL byte and whose offsets are 64-bit get different names, as long as SHA-256 does
    not collide on their two preimages. *)
Lemma cache_filename_injective (sha256 : list byte -> list byte) (k k' : ChunkKey) :
  x00 ∉ str_bytes (mount k) -> x00 ∉ str_bytes (mount k') ->
  is_u64 (offset k) -> is_u64 (offset k') ->
  (sha256 (key_preimage k) = sha256 (key_preimage k') -> key_preimage k = key_preimage k') ->
  k <> k' -> cache_filename sha256 k <> cache_filename sha256 k'.
Proof.
  intros Hm Hm' Ho Ho' Hcoll Hne H. apply hex_inj, Hcoll, key_preimage_split in H; [|done..].
  destruct H as (? & ? & H). rewrite !wrap64_small in H by u64_lia.
  destruct k, k'; simpl in *; congruence.
Qed.

