(* ===== verification/DiskCache.v ===== *)
(** * The on-disk chunk cache (src/src/cache.rs)

    [Inner] is the state behind the mutex, [DiskCache] adds the configuration, the statistics
    and the cache directory.  Every method is a state-passing function; a method that takes the
    lock more than once is written as the sequence of its critical sections, and the section
    [step] relation at the end interleaves those sections with each other and with files
    disappearing from outside.

    Input and output are modelled by the directory [disk] and an explicit fault argument: an
    operation of [std::fs] fails when the argument says so or when the file is absent.  Tracing
    output is left out; the temporary name of an insert is an argument (module [Inserts] makes it). *)

From S2P Require Import Prelude ChunkKeys.

Module Cache.

(** ** State *)
Record CacheStats := mkCacheStats {
  hits : Z;
  misses : Z;
  evictions : Z;
  bytes_in_use : Z;
  inserts : Z;
  reconcile_drops : Z
}.

Definition stats0 : CacheStats := mkCacheStats 0 0 0 0 0 0.

Record Entry := mkEntry {
  size : Z;
  last_access_seq : Z
}.

Record Inner := mkInner {
  entries : gmap ChunkKey Entry;
  lru : gmap Z ChunkKey;
  seq : Z;
  bytes : Z
}.

(** A directory entry: a regular file with its contents, or anything else. *)
Inductive Dirent : Type :=
| File (data : list byte)
| NotAFile.

Record DiskCache := mkDiskCache {
  max_bytes : Z;
  inner : Inner;
  stats : CacheStats;
  disk : gmap string Dirent
}.

Definition set_inner (g : Inner) (c : DiskCache) : DiskCache :=
  mkDiskCache (max_bytes c) g (stats c) (disk c).
Definition set_stats (s : CacheStats) (c : DiskCache) : DiskCache :=
  mkDiskCache (max_bytes c) (inner c) s (disk c).
Definition set_disk (d : gmap string Dirent) (c : DiskCache) : DiskCache :=
  mkDiskCache (max_bytes c) (inner c) (stats c) d.

(** The counters are [AtomicU64]: [fetch_add] wraps. *)
Definition add_hit (s : CacheStats) : CacheStats :=
  mkCacheStats (wadd64 (hits s) 1) (misses s) (evictions s) (bytes_in_use s) (inserts s)
    (reconcile_drops s).
Definition add_miss (s : CacheStats) : CacheStats :=
  mkCacheStats (hits s) (wadd64 (misses s) 1) (evictions s) (bytes_in_use s) (inserts s)
    (reconcile_drops s).
Definition add_eviction (s : CacheStats) : CacheStats :=
  mkCacheStats (hits s) (misses s) (wadd64 (evictions s) 1) (bytes_in_use s) (inserts s)
    (reconcile_drops s).
Definition store_bytes (n : Z) (s : CacheStats) : CacheStats :=
  mkCacheStats (hits s) (misses s) (evictions s) n (inserts s) (reconcile_drops s).
Definition add_insert (s : CacheStats) : CacheStats :=
  mkCacheStats (hits s) (misses s) (evictions s) (bytes_in_use s) (wadd64 (inserts s) 1)
    (reconcile_drops s).
Definition add_reconcile_drops (n : Z) (s : CacheStats) : CacheStats :=
  mkCacheStats (hits s) (misses s) (evictions s) (bytes_in_use s) (inserts s)
    (wadd64 (reconcile_drops s) n).

Definition hit (c : DiskCache) : DiskCache := set_stats (add_hit (stats c)) c.
Definition miss (c : DiskCache) : DiskCache := set_stats (add_miss (stats c)) c.

(** [BTreeMap::iter().next()]: the pair with the smallest sequence number. *)
Definition lru_first (m : gmap Z ChunkKey) : option (Z * ChunkKey) :=
  map_fold (fun s k acc =>
    match acc with
    | Some (s', _) => if s <? s' then Some (s, k) else acc
    | None => Some (s, k)
    end) None m.

(** ** The directory *)
Definition read_file (d : gmap string Dirent) (name : string) : option (list byte) :=
  match d !! name with Some (File data) => Some data | _ => None end.

(** [std::fs::remove_file]: succeeds on a regular file only. *)
Definition remove_file (d : gmap string Dirent) (name : string) : option (gmap string Dirent) :=
  match d !! name with Some (File _) => Some (delete name d) | _ => None end.

(** [let _ = std::fs::remove_file(..)]. *)
Definition remove_file_ignored (d : gmap string Dirent) (name : string) : gmap string Dirent :=
  default d (remove_file d name).

Definition name_is_utf8 (name : string) : bool := utf8_valid (str_bytes name).

(** What the sweeps over [read_dir] delete: regular files whose metadata can be read, for
    [scan_existing] only those with a readable name. *)
Definition swept (stat_ok : string -> bool) (named : bool) (p : string * Dirent) : bool :=
  match p.2 with
  | File _ => stat_ok p.1 && (negb named || name_is_utf8 p.1)
  | NotAFile => false
  end.

Definition sweep (stat_ok : string -> bool) (named : bool) (d : gmap string Dirent)
    : gmap string Dirent :=
  filter (fun p => swept stat_ok named p = false) d.

(** ** Operations *)
Section operations.
Context (sha256 : list byte -> list byte).

Definition path_for (k : ChunkKey) : string := cache_filename sha256 k.

(** The critical section of [scan_existing]. *)
Definition scan_existing (readdir_ok : bool) (stat_ok : string -> bool) (c : DiskCache)
    : DiskCache * res unit :=
  if readdir_ok then
    let c := set_disk (sweep stat_ok true (disk c)) c in
    let g := inner c in
    let c := set_inner (mkInner (entries g) (lru g) (seq g) 0) c in
    (set_stats (store_bytes 0 (stats c)) c, Ok tt)
  else (c, Err (Io "read_dir")).

Definition open (mkdir_ok readdir_ok : bool) (stat_ok : string -> bool)
    (max : Z) (d : gmap string Dirent) : res DiskCache :=
  if mkdir_ok then
    let c := mkDiskCache max (mkInner ∅ ∅ 0 0) stats0 d in
    let '(c, r) := scan_existing readdir_ok stat_ok c in
    let? tt := r in Ok c
  else Err (Io "create_dir_all").

Definition touch_lru (key : ChunkKey) (c : DiskCache) : DiskCache * bool :=
  let g := inner c in
  match entries g !! key with
  | None => (miss c, false)
  | Some e =>
      let lru1 := delete (last_access_seq e) (lru g) in
      let new_seq := wadd64 (seq g) 1 in
      let entries1 := <[key := mkEntry (size e) new_seq]> (entries g) in
      (set_inner (mkInner entries1 (<[new_seq := key]> lru1) new_seq (bytes g)) c, true)
  end.

Definition try_get (read_ok : bool) (key : ChunkKey) (c : DiskCache)
    : DiskCache * option (list byte) :=
  match entries (inner c) !! key with
  | None => (miss c, None)
  | Some _ =>
      match (if read_ok then read_file (disk c) (path_for key) else None) with
      | None => (miss c, None)
      | Some data =>
          let '(c, touched) := touch_lru key c in
          if touched then (hit c, Some data) else (c, None)
      end
  end.

(** [FileExt::read_exact_at]: the whole range or nothing. *)
Definition read_exact_at (data : list byte) (from n : Z) : option (list byte) :=
  if from + n <=? len data then Some (slice data from (from + n)) else None.

Definition try_get_range (read_ok : bool) (key : ChunkKey) (range_offset range_len : Z)
    (c : DiskCache) : DiskCache * option (list byte) :=
  if range_len =? 0 then (c, Some []) else
  match entries (inner c) !! key with
  | None => (miss c, None)
  | Some e =>
      if size e <? sat_add64 range_offset range_len then (miss c, None) else
      match (if read_ok then read_file (disk c) (path_for key) else None) with
      | None => (miss c, None)
      | Some data =>
          match read_exact_at data range_offset range_len with
          | None => (miss c, None)
          | Some buf =>
              let '(c, touched) := touch_lru key c in
              if touched then (hit c, Some buf) else (c, None)
          end
      end
  end.

(** [try_get_into_slice] reads the whole file from offset 0 into a caller buffer of [dst_len]
    bytes; the buffer's new contents come back with the count. *)
Definition try_get_into_slice (read_ok : bool) (key : ChunkKey) (dst_len : Z) (c : DiskCache)
    : DiskCache * option (Z * list byte) :=
  match entries (inner c) !! key with
  | None => (miss c, None)
  | Some e =>
      if negb (dst_len =? size e) then (c, None) else
      match (if read_ok then read_file (disk c) (path_for key) else None) with
      | None => (miss c, None)
      | Some data =>
          match read_exact_at data 0 dst_len with
          | None => (miss c, None)
          | Some buf =>
              let '(c, touched) := touch_lru key c in
              if touched then (hit c, Some (size e, buf)) else (c, None)
          end
      end
  end.

Definition entry_size (key : ChunkKey) (c : DiskCache) : option Z :=
  size <$> entries (inner c) !! key.

(** The iteration order of a [HashMap] is unspecified; no theorem depends on it. *)
Definition live_keys (c : DiskCache) : list ChunkKey := (map_to_list (entries (inner c))).*1.

(** [if let Some(e) = g.entries.remove(k) { g.lru.remove(..); g.bytes = .. }]. *)
Definition drop_entry (k : ChunkKey) (e : Entry) (g : Inner) : Inner :=
  mkInner (delete k (entries g)) (delete (last_access_seq e) (lru g)) (seq g)
    (sat_sub (bytes g) (size e)).

(** The keys whose backing file is gone. *)
Definition missing_keys (c : DiskCache) : list ChunkKey :=
  filter (fun k => disk c !! path_for k = None) (live_keys c).

Fixpoint reconcile_loop (missing : list ChunkKey) (g : Inner) (dropped reclaimed : Z)
    : Inner * Z * Z :=
  match missing with
  | [] => (g, dropped, reclaimed)
  | k :: t =>
      match entries g !! k with
      | Some e => reconcile_loop t (drop_entry k e g) (wadd64 dropped 1)
                    (sat_add64 reclaimed (size e))
      | None => reconcile_loop t g dropped reclaimed
      end
  end.

(** The locked half of [reconcile_with_disk]. *)
Definition reconcile_drop (missing : list ChunkKey) (c : DiskCache) : DiskCache * (Z * Z) :=
  let '(g, dropped, reclaimed) := reconcile_loop missing (inner c) 0 0 in
  let c := set_inner g c in
  (set_stats (add_reconcile_drops dropped (store_bytes (bytes g) (stats c))) c,
   (dropped, reclaimed)).

Definition reconcile_with_disk (c : DiskCache) : DiskCache * (Z * Z) :=
  match missing_keys c with
  | [] => (c, (0, 0))
  | missing => reconcile_drop missing c
  end.

(** One turn of the eviction loop; [None] when the loop ends. *)
Definition evict_step (c : DiskCache) : option DiskCache :=
  let g := inner c in
  if max_bytes c <? bytes g then
    match lru_first (lru g) with
    | None => None
    | Some (s, key) =>
        let lru1 := delete s (lru g) in
        match entries g !! key with
        | None => Some (set_inner (mkInner (entries g) lru1 (seq g) (bytes g)) c)
        | Some e =>
            let c := set_disk (remove_file_ignored (disk c) (path_for key)) c in
            let c := set_inner (mkInner (delete key (entries g)) lru1 (seq g)
                                  (sat_sub (bytes g) (size e))) c in
            Some (set_stats (add_eviction (stats c)) c)
        end
    end
  else None.

(** Each turn removes one row of [lru], so [size lru] turns are enough ([evict_loop_done]). *)
Fixpoint evict_loop (fuel : nat) (c : DiskCache) : DiskCache :=
  match fuel with
  | O => c
  | S n => match evict_step c with None => c | Some c' => evict_loop n c' end
  end.

Definition evict_if_needed (c : DiskCache) : DiskCache :=
  let c := evict_loop (base.size (lru (inner c))) c in
  set_stats (store_bytes (bytes (inner c)) (stats c)) c.

(** What can go wrong while [insert] writes the temporary file. *)
Inductive InsertFault : Type :=
| CreateFails
| WriteFails (written : nat)
| SyncFails
| RenameFails.

(** The unlocked half of [insert]: temporary file, fsync, rename. *)
Definition insert_file (tmp : string) (fault : option InsertFault) (key : ChunkKey)
    (data : list byte) (d : gmap string Dirent) : gmap string Dirent * res unit :=
  match fault with
  | Some CreateFails => (d, Err (Io "create"))
  | Some (WriteFails n) => (<[tmp := File (take n data)]> d, Err (Io "write"))
  | Some SyncFails => (<[tmp := File data]> d, Err (Io "sync"))
  | Some RenameFails => (<[tmp := File data]> d, Err (Io "rename"))
  | None =>
      match d !! path_for key with
      | Some NotAFile => (<[tmp := File data]> d, Err (Io "rename"))
      | _ => (<[path_for key := File data]> (delete tmp d), Ok tt)
      end
  end.

(** The locked half of [insert]. *)
Definition insert_commit (key : ChunkKey) (sz : Z) (c : DiskCache) : DiskCache :=
  let g := inner c in
  let s := wadd64 (seq g) 1 in
  let '(lru1, bytes1) :=
    match entries g !! key with
    | Some prev => (delete (last_access_seq prev) (lru g), sat_sub (bytes g) (size prev))
    | None => (lru g, bytes g)
    end in
  let bytes2 := wadd64 bytes1 sz in
  let c := set_inner (mkInner (<[key := mkEntry sz s]> (entries g)) (<[s := key]> lru1) s bytes2) c in
  let c := set_stats (store_bytes bytes2 (add_insert (stats c))) c in
  evict_if_needed c.

Definition insert (tmp : string) (fault : option InsertFault) (key : ChunkKey)
    (data : list byte) (c : DiskCache) : DiskCache * res unit :=
  let '(d, r) := insert_file tmp fault key data (disk c) in
  let c := set_disk d c in
  match r with
  | Err e => (c, Err e)
  | Ok _ => (insert_commit key (len data) c, Ok tt)
  end.

(** The locked half of [remove]. *)
Definition remove_entry (key : ChunkKey) (c : DiskCache) : DiskCache :=
  let g := inner c in
  match entries g !! key with
  | Some e =>
      let g' := drop_entry key e g in
      let c := set_inner g' c in
      set_stats (store_bytes (bytes g') (stats c)) c
  | None => c
  end.

Definition remove (key : ChunkKey) (c : DiskCache) : DiskCache * res unit :=
  (remove_entry key (set_disk (remove_file_ignored (disk c) (path_for key)) c), Ok tt).

Fixpoint clear_loop (keys : list ChunkKey) (g : Inner) (d : gmap string Dirent)
    (files removed : Z) : Inner * gmap string Dirent * Z * Z :=
  match keys with
  | [] => (g, d, files, removed)
  | k :: t =>
      match entries g !! k with
      | None => clear_loop t g d files removed
      | Some e =>
          let g' := mkInner (delete k (entries g)) (delete (last_access_seq e) (lru g))
                      (seq g) (bytes g) in
          match remove_file d (path_for k) with
          | Some d' => clear_loop t g' d' (wadd64 files 1) (sat_add64 removed (size e))
          | None => clear_loop t g' d files removed
          end
      end
  end.

(** The locked half of [clear_all]. *)
Definition clear_locked (c : DiskCache) : DiskCache * (Z * Z) :=
  let '(g, d, files, removed) := clear_loop (live_keys c) (inner c) (disk c) 0 0 in
  let c := set_disk d (set_inner (mkInner (entries g) ∅ (seq g) 0) c) in
  (set_stats (store_bytes 0 (stats c)) c, (files, removed)).

Definition clear_all (readdir_ok : bool) (stat_ok : string -> bool) (c : DiskCache)
    : DiskCache * res (Z * Z) :=
  let '(c, r) := clear_locked c in
  (if readdir_ok then set_disk (sweep stat_ok false (disk c)) c else c, Ok r).

Definition local_path (key : ChunkKey) (c : DiskCache) : option string :=
  match disk c !! path_for key with Some _ => Some (path_for key) | None => None end.

(** ** Interleaving

    The critical sections of the methods, in any order, from any number of threads, with the
    directory changing under the daemon ([step_disk]: the file half of a concurrent [insert] or
    [remove], a sweep, or an operator's [rm]). *)
Inductive step : DiskCache -> DiskCache -> Prop :=
| step_miss c : step c (miss c)
| step_hit c : step c (hit c)
| step_touch c key : step c (touch_lru key c).1
| step_commit c key sz : 0 <= sz < 2 ^ 63 -> step c (insert_commit key sz c)
| step_remove c key : step c (remove_entry key c)
| step_reconcile c missing : step c (reconcile_drop missing c).1
| step_clear c : step c (clear_locked c).1
| step_disk c d : step c (set_disk d c).

(** [steps n c c']: [n] critical sections lead from [c] to [c']. *)
Inductive steps : nat -> DiskCache -> DiskCache -> Prop :=
| steps_refl c : steps 0 c c
| steps_cons n c c' c'' : steps n c c' -> step c' c'' -> steps (S n) c c''.
End operations.

(** ** The abstract cache

    What the cache promises, without sequence numbers, maps or byte counters: a list of chunks,
    least recently used first, whose total size stays within the budget. *)
Abbreviation Spec := (list (ChunkKey * Z)).

Definition spec_total (l : Spec) : Z := zsum l.*2.

Definition spec_remove (k : ChunkKey) (l : Spec) : Spec := filter (fun r => r.1 <> k) l.

Definition spec_touch (k : ChunkKey) (l : Spec) : Spec :=
  spec_remove k l ++ filter (fun r => r.1 = k) l.

(** Drop the least recently used chunks until the rest fits. *)
Fixpoint spec_evict (max : Z) (l : Spec) : Spec :=
  match l with
  | [] => []
  | _ :: t => if max <? spec_total l then spec_evict max t else l
  end.

Definition spec_insert (max : Z) (k : ChunkKey) (sz : Z) (l : Spec) : Spec :=
  spec_evict max (spec_remove k l ++ [(k, sz)]).

(** A row of the cache: sequence number, key, size. *)
Abbreviation Row := (Z * ChunkKey * Z)%type.
Definition row_seq (r : Row) : Z := r.1.1.
Definition row_key (r : Row) : ChunkKey := r.1.2.
Definition row_size (r : Row) : Z := r.2.
Definition forget (l : list Row) : Spec := (fun r => (row_key r, row_size r)) <$> l.

(** [models g l]: the two maps and the byte counter of [g] all describe the rows [l], ordered by
    sequence number.  It is at once the representation invariant of [Inner] and the abstraction
    relation to [Spec]. *)
Record models (g : Inner) (l : list Row) : Prop := {
  m_entries k e : entries g !! k = Some e <-> (last_access_seq e, k, size e) ∈ l;
  m_lru s k : lru g !! s = Some k <-> exists z, (s, k, z) ∈ l;
  m_sorted : StronglySorted (fun a b => row_seq a < row_seq b) l;
  m_keys : NoDup (row_key <$> l);
  m_bytes : bytes g = zsum (row_size <$> l);
  m_sizes : Forall (fun r => 0 <= row_size r) l;
  m_seqs : Forall (fun r => 0 <= row_seq r <= seq g) l;
  m_seq : 0 <= seq g
}.

(** The invariant of the whole cache. *)
Definition invariant (c : DiskCache) : Prop :=
  (exists l, models (inner c) l) /\
  bytes (inner c) <= max_bytes c /\
  bytes_in_use (stats c) = bytes (inner c).

(** [refines c a]: the concrete cache [c] implements the abstract cache [a]. *)
Definition refines (c : DiskCache) (a : Spec) : Prop :=
  exists l, models (inner c) l /\ forget l = a.

(** ** Lemmas on rows *)
Lemma row_key_inj l r1 r2 :
  NoDup (row_key <$> l) -> r1 ∈ l -> r2 ∈ l -> row_key r1 = row_key r2 -> r1 = r2.
Proof.
  intros Hnd H1 H2 Hk. apply list_elem_of_lookup in H1 as [i Hi], H2 as [j Hj].
  assert (i = j) as ->; [|congruence].
  eapply NoDup_lookup; [exact Hnd| |]; rewrite list_lookup_fmap.
  - by rewrite Hi.
  - rewrite Hj. simpl. by rewrite Hk.
Qed.

Lemma row_seq_inj l r1 r2 :
  StronglySorted (fun a b => row_seq a < row_seq b) l ->
  r1 ∈ l -> r2 ∈ l -> row_seq r1 = row_seq r2 -> r1 = r2.
Proof.
  induction 1 as [|r l Hs IH Hf]; intros H1 H2 Hk; [by apply not_elem_of_nil in H1|].
  rewrite Forall_forall in Hf.
  apply elem_of_cons in H1 as [->|H1]; apply elem_of_cons in H2 as [->|H2]; auto.
  - specialize (Hf _ H2). lia.
  - specialize (Hf _ H1). lia.
Qed.

Lemma sorted_filter {A} (R : A -> A -> Prop) (P : A -> Prop) `{!forall x, Decision (P x)} l :
  StronglySorted R l -> StronglySorted R (filter P l).
Proof.
  induction 1 as [|r l Hs IH Hf]; [constructor|]. rewrite filter_cons. case_decide; [|done].
  constructor; [done|]. rewrite Forall_forall in *. intros x [_ Hx]%list_elem_of_filter. auto.
Qed.

Lemma sorted_snoc {A} (R : A -> A -> Prop) l x :
  StronglySorted R l -> Forall (fun a => R a x) l -> StronglySorted R (l ++ [x]).
Proof.
  induction 1 as [|r l Hs IH Hf]; simpl; intros Hx; [repeat constructor|].
  inversion Hx; subst. constructor; [auto|]. apply Forall_app; auto.
Qed.

Lemma zsum_filter_key l k e z :
  NoDup (row_key <$> l) -> (e, k, z) ∈ l ->
  zsum (row_size <$> filter (fun r => row_key r <> k) l) = zsum (row_size <$> l) - z.
Proof.
  induction l as [|r l IH]; intros Hnd Hin; [by apply not_elem_of_nil in Hin|].
  rewrite fmap_cons in *. apply NoDup_cons in Hnd as [Hr Hnd]. rewrite filter_cons.
  apply elem_of_cons in Hin as [<-|Hin].
  - rewrite decide_False by (unfold row_key; simpl; tauto). rewrite zsum_cons.
    replace (filter (fun r => row_key r <> k) l) with l; [unfold row_size; simpl; lia|].
    symmetry. apply filter_id, Forall_forall. intros x Hx Hk.
    apply Hr, list_elem_of_fmap. exists x. split; [by rewrite Hk|done].
  - rewrite decide_True.
    2:{ intros Hk. apply Hr. apply list_elem_of_fmap. exists (e, k, z). split; [|done].
        by rewrite Hk. }
    rewrite fmap_cons, zsum_cons, IH by done. rewrite zsum_cons. lia.
Qed.

Lemma row_size_le_sum l r :
  Forall (fun r => 0 <= row_size r) l -> r ∈ l -> row_size r <= zsum (row_size <$> l).
Proof.
  induction 1 as [|x l Hx Hl IH]; intros Hin; [by apply not_elem_of_nil in Hin|].
  rewrite fmap_cons. simpl. assert (0 <= zsum (row_size <$> l)).
  { apply zsum_nonneg. by apply Forall_fmap. }
  apply elem_of_cons in Hin as [->|Hin]; [lia|]. specialize (IH Hin). lia.
Qed.

(** ** Representation lemmas: what each map update does to the rows *)
Lemma forget_filter k l :
  forget (filter (fun r => row_key r <> k) l) = spec_remove k (forget l).
Proof.
  unfold forget, spec_remove. induction l as [|r l IH]; [done|].
  rewrite fmap_cons. destruct (decide (row_key r = k)).
  - rewrite filter_cons_False by tauto. rewrite filter_cons_False by (simpl; tauto). exact IH.
  - rewrite filter_cons_True by tauto. rewrite filter_cons_True by (simpl; tauto).
    by rewrite fmap_cons, IH.
Qed.

Lemma models_empty s : 0 <= s -> models (mkInner ∅ ∅ s 0) [].
Proof.
  intros Hs. split; cbn [entries lru bytes seq]; try constructor; try done.
  - intros H. by apply not_elem_of_nil in H.
  - intros [z H]. by apply not_elem_of_nil in H.
Qed.

Lemma models_lookup g l k e :
  models g l -> entries g !! k = Some e -> (last_access_seq e, k, size e) ∈ l.
Proof. intros Hm. by apply m_entries. Qed.

Lemma models_absent g l k : models g l -> entries g !! k = None -> k ∉ row_key <$> l.
Proof.
  intros Hm Hk ([[s k'] z] & -> & Hin)%list_elem_of_fmap. unfold row_key in Hk; simpl in Hk.
  pose proof (proj2 (m_entries _ _ Hm k' (mkEntry z s)) Hin). simpl in *. congruence.
Qed.

Lemma models_size_le g l k e : models g l -> entries g !! k = Some e -> 0 <= size e <= bytes g.
Proof.
  intros Hm Hk. pose proof (models_lookup _ _ _ _ Hm Hk) as Hin.
  rewrite (m_bytes _ _ Hm). split.
  - pose proof (m_sizes _ _ Hm) as Hs. rewrite Forall_forall in Hs. apply (Hs _ Hin).
  - apply (row_size_le_sum l _ (m_sizes _ _ Hm) Hin).
Qed.

Lemma models_drop g l k e :
  models g l -> entries g !! k = Some e ->
  models (drop_entry k e g) (filter (fun r => row_key r <> k) l).
Proof.
  intros Hm Hk. pose proof (models_lookup _ _ _ _ Hm Hk) as Hin.
  pose proof (models_size_le _ _ _ _ Hm Hk) as Hsz. split; simpl.
  - intros k' e'. rewrite list_elem_of_filter. unfold row_key; simpl.
    rewrite lookup_delete. case_decide as Hd; [subst; naive_solver|].
    rewrite (m_entries _ _ Hm). naive_solver.
  - intros s k'. rewrite lookup_delete. setoid_rewrite list_elem_of_filter.
    unfold row_key; simpl. case_decide as Hd.
    + subst s. split; [done|]. intros (z & Hne & Hz). exfalso. apply Hne.
      assert ((last_access_seq e, k', z) = (last_access_seq e, k, size e)) by
        (eapply row_seq_inj; [apply (m_sorted _ _ Hm)|done|done|done]). congruence.
    + rewrite (m_lru _ _ Hm). split; [|naive_solver]. intros [z Hz]. exists z. split; [|done].
      intros ->. apply Hd. assert ((s, k, z) = (last_access_seq e, k, size e)) by
        (eapply row_key_inj; [apply (m_keys _ _ Hm)|done|done|done]). congruence.
  - apply sorted_filter, (m_sorted _ _ Hm).
  - pose proof (m_keys _ _ Hm) as Hnd. clear -Hnd. induction l as [|r l IH]; [constructor|].
    rewrite fmap_cons in Hnd. apply NoDup_cons in Hnd as [Hr Hnd]. rewrite filter_cons.
    case_decide; [|auto]. rewrite fmap_cons. apply NoDup_cons. split; [|auto].
    intros (x & Hx' & Hx)%list_elem_of_fmap. apply list_elem_of_filter in Hx as [_ Hx].
    apply Hr, list_elem_of_fmap. by exists x.
  - rewrite (zsum_filter_key l k (last_access_seq e) (size e)); [|apply (m_keys _ _ Hm)|done].
    rewrite <- (m_bytes _ _ Hm). u64_lia.
  - pose proof (m_sizes _ _ Hm) as H. rewrite Forall_forall in *.
    intros r [_ Hr]%list_elem_of_filter. auto.
  - pose proof (m_seqs _ _ Hm) as H. rewrite Forall_forall in *.
    intros r [_ Hr]%list_elem_of_filter. auto.
  - apply (m_seq _ _ Hm).
Qed.

(** Append a fresh row with the next sequence number. *)
Definition push (k : ChunkKey) (sz : Z) (g : Inner) : Inner :=
  mkInner (<[k := mkEntry sz (seq g + 1)]> (entries g)) (<[seq g + 1 := k]> (lru g))
    (seq g + 1) (bytes g + sz).

Lemma models_push g l k sz :
  models g l -> k ∉ row_key <$> l -> 0 <= sz -> models (push k sz g) (l ++ [(seq g + 1, k, sz)]).
Proof.
  intros Hm Hk Hsz. pose proof (m_seqs _ _ Hm) as Hseqs. rewrite Forall_forall in Hseqs.
  assert (Hfresh : forall k' z, (seq g + 1, k', z) ∈ l -> False).
  { intros k' z Hin. apply Hseqs in Hin. unfold row_seq in Hin; simpl in Hin. lia. }
  assert (Hnk : forall s z, (s, k, z) ∈ l -> False).
  { intros s z Hin. apply Hk, list_elem_of_fmap. by exists (s, k, z). }
  split; simpl.
  - intros k' e'. rewrite lookup_insert, elem_of_app, list_elem_of_singleton.
    case_decide as Hd.
    + subst k'. split; [intros [= <-]; auto|]. intros [Hin|Heq]; [by apply Hnk in Hin|].
      destruct e'; simpl in *. congruence.
    + rewrite (m_entries _ _ Hm). split; [auto|]. intros [|Heq]; [done|]. congruence.
  - intros s k'. rewrite lookup_insert. setoid_rewrite elem_of_app.
    setoid_rewrite list_elem_of_singleton. case_decide as Hd.
    + subst s. split; [intros [= <-]; eauto|]. intros (z & [Hin|Heq]); [by apply Hfresh in Hin|].
      congruence.
    + rewrite (m_lru _ _ Hm). split; [intros [z Hz]; eauto|]. intros (z & [Hin|Heq]); [eauto|].
      congruence.
  - apply sorted_snoc; [apply (m_sorted _ _ Hm)|]. apply Forall_forall. intros r Hr.
    apply Hseqs in Hr. unfold row_seq at 2; simpl. lia.
  - rewrite fmap_app. apply NoDup_app. split; [apply (m_keys _ _ Hm)|]. split.
    + intros x Hx. simpl. rewrite list_elem_of_singleton. intros ->. done.
    + apply NoDup_singleton.
  - rewrite fmap_app, zsum_app, (m_bytes _ _ Hm).
    change (zsum (row_size <$> [(seq g + 1, k, sz)])) with (sz + 0). lia.
  - apply Forall_app; split; [apply (m_sizes _ _ Hm)|by repeat constructor].
  - apply Forall_app; split.
    + eapply Forall_impl; [apply (m_seqs _ _ Hm)|]. simpl. lia.
    + constructor; [|constructor]. unfold row_seq; simpl. pose proof (m_seq _ _ Hm). lia.
  - pose proof (m_seq _ _ Hm). lia.
Qed.

Lemma NoDup_row_keys_filter (l : list Row) k :
  k ∉ row_key <$> filter (fun r => row_key r <> k) l.
Proof.
  intros (r & Hr & Hin)%list_elem_of_fmap. apply list_elem_of_filter in Hin as [Hne _]. congruence.
Qed.

(** [touch_lru] moves the row of its key to the end. *)
Lemma touch_push g key e :
  entries g !! key = Some e -> size e <= bytes g -> 0 <= seq g < u64_max ->
  mkInner (<[key := mkEntry (size e) (wadd64 (seq g) 1)]> (entries g))
    (<[wadd64 (seq g) 1 := key]> (delete (last_access_seq e) (lru g)))
    (wadd64 (seq g) 1) (bytes g)
  = push key (size e) (drop_entry key e g).
Proof.
  intros He Hb Hs. rewrite wadd64_small by u64_lia. unfold push, drop_entry; simpl.
  rewrite insert_delete_eq. f_equal. u64_lia.
Qed.

Lemma forget_filter_eq k l e z :
  NoDup (row_key <$> l) -> (e, k, z) ∈ l ->
  filter (fun r => r.1 = k) (forget l) = [(k, z)].
Proof.
  unfold forget. induction l as [|r l IH]; intros Hnd Hin; [by apply not_elem_of_nil in Hin|].
  rewrite fmap_cons in *. apply NoDup_cons in Hnd as [Hr Hnd].
  apply elem_of_cons in Hin as [<-|Hin].
  - rewrite filter_cons_True by done. f_equal. apply filter_none, Forall_forall.
    intros x (y & -> & Hy)%list_elem_of_fmap Hk. simpl in Hk.
    apply Hr, list_elem_of_fmap. exists y. unfold row_key at 1; simpl. by rewrite Hk.
  - rewrite filter_cons_False; [auto|]. simpl. intros Hk. apply Hr, list_elem_of_fmap.
    exists (e, k, z). unfold row_key at 2; simpl. by rewrite Hk.
Qed.

Lemma models_touch g l key e :
  models g l -> entries g !! key = Some e -> seq g < u64_max ->
  exists l', models (push key (size e) (drop_entry key e g)) l' /\
             forget l' = spec_touch key (forget l).
Proof.
  intros Hm He Hs. pose proof (models_size_le _ _ _ _ Hm He) as Hsz.
  pose proof (models_lookup _ _ _ _ Hm He) as Hin.
  eexists. split.
  - apply models_push; [by apply models_drop|apply NoDup_row_keys_filter|lia].
  - unfold spec_touch. rewrite <- forget_filter, (forget_filter_eq key l (last_access_seq e) (size e)).
    + unfold forget. by rewrite fmap_app.
    + apply (m_keys _ _ Hm).
    + done.
Qed.

(** ** The smallest sequence number *)
Lemma lru_first_spec (m : gmap Z ChunkKey) :
  match lru_first m with
  | None => m = ∅
  | Some (s, k) => m !! s = Some k /\ forall s' k', m !! s' = Some k' -> s <= s'
  end.
Proof.
  unfold lru_first.
  apply (map_fold_weak_ind (fun acc m => match acc with
    | None => m = ∅
    | Some (s, k) => m !! s = Some k /\ forall s' k', m !! s' = Some k' -> s <= s'
    end)); [done|].
  intros s k m' [[s0 k0]|] Hfresh H.
  - destruct H as [H1 H2]. assert (s <> s0) by congruence. destruct (s <? s0) eqn:?; case_bool.
    + split; [by rewrite lookup_insert_eq|]. intros s' k'. rewrite lookup_insert.
      case_decide; [lia|]. intros Hs'. apply H2 in Hs'. lia.
    + split; [by rewrite lookup_insert_ne|]. intros s' k'. rewrite lookup_insert.
      case_decide; [lia|]. apply H2.
  - subst. split; [by rewrite lookup_insert_eq|]. intros s' k'. rewrite lookup_insert.
    case_decide; [lia|]. done.
Qed.

Lemma lru_first_head g r l :
  models g (r :: l) -> lru_first (lru g) = Some (row_seq r, row_key r).
Proof.
  intros Hm. pose proof (lru_first_spec (lru g)) as H. destruct r as [[s k] z].
  assert (Hr : lru g !! s = Some k).
  { apply (m_lru _ _ Hm). exists z. apply elem_of_cons; auto. }
  destruct (lru_first (lru g)) as [[s0 k0]|].
  - destruct H as [H0 Hmin]. pose proof (Hmin _ _ Hr) as Hle.
    apply (m_lru _ _ Hm) in H0 as [z0 H0].
    pose proof (m_sorted _ _ Hm) as Hs. inversion_clear Hs as [|? ? _ Hf].
    rewrite Forall_forall in Hf. apply elem_of_cons in H0 as [Heq|H0]; [by simplify_eq|].
    apply Hf in H0. unfold row_seq in H0. simpl in *. lia.
  - rewrite H in Hr. done.
Qed.

Lemma models_nil_lru g : models g [] -> lru g = ∅.
Proof.
  intros Hm. apply map_empty. intros s. destruct (lru g !! s) eqn:E; [|done].
  apply (m_lru _ _ Hm) in E as [z Hz]. by apply not_elem_of_nil in Hz.
Qed.

Lemma NoDup_row_seqs (l : list Row) :
  StronglySorted (fun a b => row_seq a < row_seq b) l ->
  NoDup ((fun r => (row_seq r, row_key r)) <$> l).*1.
Proof.
  rewrite <- list_fmap_compose.
  induction 1 as [|r l Hs IH Hf]; [constructor|]. rewrite fmap_cons. apply NoDup_cons.
  split; [|done]. intros (x & Hx & Hin)%list_elem_of_fmap. rewrite Forall_forall in Hf.
  apply Hf in Hin. simpl in Hx. lia.
Qed.

Lemma models_lru_list g l :
  models g l -> lru g = list_to_map ((fun r => (row_seq r, row_key r)) <$> l).
Proof.
  intros Hm. apply map_eq. intros s. apply option_eq. intros k. rewrite (m_lru _ _ Hm).
  rewrite <- elem_of_list_to_map by apply NoDup_row_seqs, (m_sorted _ _ Hm).
  rewrite list_elem_of_fmap. split.
  - intros [z Hz]. by exists (s, k, z).
  - intros ([[s' k'] z] & Heq & Hin). unfold row_seq, row_key in Heq. simpl in Heq.
    simplify_eq. eauto.
Qed.

Lemma models_lru_size g l : models g l -> base.size (lru g) = length l.
Proof.
  intros Hm. rewrite (models_lru_list _ _ Hm), <- length_map_to_list, map_to_list_to_map, length_fmap.
  - done.
  - apply NoDup_row_seqs, (m_sorted _ _ Hm).
Qed.

(** ** Eviction *)
Lemma models_evict_step sha256 c r l :
  models (inner c) (r :: l) -> max_bytes c < bytes (inner c) ->
  exists c', evict_step sha256 c = Some c' /\ models (inner c') l /\ max_bytes c' = max_bytes c.
Proof.
  intros Hm Hb. pose proof (lru_first_head _ _ _ Hm) as Hfirst. destruct r as [[s k] z].
  unfold evict_step. rewrite (proj2 (Z.ltb_lt _ _) Hb), Hfirst.
  change (row_seq (s, k, z)) with s. change (row_key (s, k, z)) with k.
  assert (He : entries (inner c) !! k = Some (mkEntry z s)).
  { apply (m_entries _ _ Hm). simpl. apply elem_of_cons; auto. }
  rewrite He. eexists. split; [done|]. split; [|done].
  pose proof (models_drop _ _ _ _ Hm He) as Hd. unfold drop_entry in Hd. simpl in *.
  rewrite filter_cons_False, filter_id in Hd; [done| |unfold row_key; simpl; tauto].
  pose proof (m_keys _ _ Hm) as Hnd. rewrite fmap_cons in Hnd. apply NoDup_cons in Hnd as [Hk _].
  apply Forall_forall. intros x Hx Heq. apply Hk, list_elem_of_fmap. by exists x.
Qed.

Lemma forget_total l : spec_total (forget l) = zsum (row_size <$> l).
Proof.
  unfold spec_total, forget. f_equal. rewrite <- list_fmap_compose. done.
Qed.

Lemma evict_loop_models sha256 l c fuel :
  models (inner c) l -> (length l <= fuel)%nat -> 0 <= max_bytes c ->
  exists l', models (inner (evict_loop sha256 fuel c)) l'
    /\ forget l' = spec_evict (max_bytes c) (forget l)
    /\ max_bytes (evict_loop sha256 fuel c) = max_bytes c
    /\ bytes (inner (evict_loop sha256 fuel c)) <= max_bytes c.
Proof.
  revert c fuel. induction l as [|r l IH]; intros c fuel Hm Hf Hmax.
  - assert (Hb : bytes (inner c) = 0) by apply (m_bytes _ _ Hm).
    assert (Hl : evict_loop sha256 fuel c = c).
    { destruct fuel; [done|]. simpl. unfold evict_step. by rewrite (proj2 (Z.ltb_ge _ _)) by lia. }
    rewrite Hl. exists []. split_and!; [done|done|done|lia].
  - pose proof (m_bytes _ _ Hm) as Hb. rewrite <- forget_total in Hb.
    destruct (Z.ltb_spec (max_bytes c) (bytes (inner c))) as [Hlt|Hge].
    + destruct fuel as [|fuel]; [simpl in Hf; lia|].
      destruct (models_evict_step sha256 c r l Hm Hlt) as (c' & Hs & Hm' & Hmax').
      simpl evict_loop. rewrite Hs. rewrite <- Hmax' in *.
      destruct (IH c' fuel Hm') as (l' & ? & Hfl & ? & ?); [simpl in Hf; lia|lia|].
      exists l'. split_and!; [done| |done|done].
      rewrite Hfl. change (forget (r :: l)) with ((row_key r, row_size r) :: forget l) in *.
      simpl spec_evict. by rewrite <- Hb, (proj2 (Z.ltb_lt _ _) Hlt).
    + assert (Hl : evict_loop sha256 fuel c = c).
      { destruct fuel; [done|]. simpl. unfold evict_step. by rewrite (proj2 (Z.ltb_ge _ _)) by lia. }
      rewrite Hl. exists (r :: l). split_and!; [done| |done|lia].
      change (forget (r :: l)) with ((row_key r, row_size r) :: forget l) in *.
      simpl spec_evict. by rewrite <- Hb, (proj2 (Z.ltb_ge _ _) Hge).
Qed.

(** The loop of [evict_if_needed] ends by its own condition, not by the bound on its turns. *)
Lemma evict_loop_done sha256 l c :
  models (inner c) l -> 0 <= max_bytes c ->
  evict_step sha256 (evict_loop sha256 (base.size (lru (inner c))) c) = None.
Proof.
  intros Hm Hmax. rewrite (models_lru_size _ _ Hm).
  destruct (evict_loop_models sha256 l c (length l) Hm) as (l' & _ & _ & Hm' & Hb); [done..|].
  unfold evict_step. rewrite Hm', (proj2 (Z.ltb_ge _ _)); [done|lia].
Qed.

Lemma insert_commit_models sha256 c l key sz :
  models (inner c) l -> seq (inner c) < u64_max -> 0 <= max_bytes c <= 2 ^ 63 ->
  bytes (inner c) <= max_bytes c -> 0 <= sz < 2 ^ 63 ->
  let c' := insert_commit sha256 key sz c in
  (exists l', models (inner c') l' /\
    forget l' = spec_insert (max_bytes c) key sz (forget l)) /\
  max_bytes c' = max_bytes c /\ bytes (inner c') <= max_bytes c /\
  bytes_in_use (stats c') = bytes (inner c').
Proof.
  intros Hm Hs Hmax Hb Hsz c'. pose proof (m_seq _ _ Hm).
  assert (Hb0 : 0 <= bytes (inner c)).
  { rewrite (m_bytes _ _ Hm). apply zsum_nonneg, Forall_fmap, (m_sizes _ _ Hm). }
  (* the state before eviction is a push on the rows without [key] *)
  assert (Hpush : exists g0 l0 c0, c' = evict_if_needed sha256 c0 /\ max_bytes c0 = max_bytes c /\
    inner c0 = push key sz g0 /\ models g0 l0 /\ forget l0 = spec_remove key (forget l) /\
    key ∉ row_key <$> l0).
  { subst c'. unfold insert_commit. destruct (entries (inner c) !! key) as [prev|] eqn:E.
    - pose proof (models_size_le _ _ _ _ Hm E).
      exists (drop_entry key prev (inner c)), (filter (fun r => row_key r <> key) l).
      eexists. split; [reflexivity|]. split; [done|]. split.
      + simpl. rewrite !wadd64_small by u64_lia. unfold push, drop_entry; simpl.
        by rewrite insert_delete_eq.
      + split; [by apply models_drop|]. split; [apply forget_filter|apply NoDup_row_keys_filter].
    - exists (inner c), l. eexists. split; [reflexivity|]. split; [done|]. split.
      + simpl. rewrite !wadd64_small by u64_lia. done.
      + pose proof (models_absent _ _ _ Hm E) as Hk. split; [done|]. split; [|done].
        rewrite <- forget_filter, filter_id; [done|]. apply Forall_forall. intros r Hr Heq.
        apply Hk, list_elem_of_fmap. by exists r. }
  destruct Hpush as (g0 & l0 & c0 & -> & Hmax0 & Hin & Hm0 & Hf0 & Hk0).
  assert (Hm1 : models (inner c0) (l0 ++ [(seq g0 + 1, key, sz)])).
  { rewrite Hin. apply models_push; [done..|lia]. }
  unfold evict_if_needed. rewrite (models_lru_size _ _ Hm1). cbn [set_stats inner stats].
  destruct (evict_loop_models sha256 _ c0 _ Hm1 (Nat.le_refl _)) as (l' & Hm' & Hf' & Hmx & Hbb); [lia|].
  rewrite Hmax0 in *. split; [|done]. exists l'. split; [done|].
  rewrite Hf'. unfold spec_insert. f_equal. unfold forget. rewrite fmap_app.
  change (forget l0 ++ [(key, sz)] = spec_remove key (forget l) ++ [(key, sz)]). by rewrite Hf0.
Qed.

(** ** The other operations on rows *)
Lemma spec_touch_absent k (l : list Row) :
  k ∉ row_key <$> l -> spec_touch k (forget l) = forget l.
Proof.
  intros Hk. assert (Hall : Forall (fun r : ChunkKey * Z => r.1 <> k) (forget l)).
  { apply Forall_forall. intros x (r & -> & Hr)%list_elem_of_fmap Heq. simpl in Heq.
    apply Hk, list_elem_of_fmap. by exists r. }
  unfold spec_touch, spec_remove. rewrite filter_id by done.
  rewrite filter_none by done. apply app_nil_r.
Qed.

Lemma touch_models c l key :
  models (inner c) l -> seq (inner c) < u64_max ->
  exists l', models (inner (touch_lru key c).1) l' /\ forget l' = spec_touch key (forget l).
Proof.
  intros Hm Hs. unfold touch_lru. destruct (entries (inner c) !! key) as [e|] eqn:E.
  - pose proof (models_size_le _ _ _ _ Hm E). pose proof (m_seq _ _ Hm). simpl.
    rewrite touch_push by (done || lia). by apply models_touch.
  - exists l. split; [done|]. symmetry. apply spec_touch_absent.
    by eapply models_absent.
Qed.

Lemma spec_remove_absent k (l : list Row) :
  k ∉ row_key <$> l -> spec_remove k (forget l) = forget l.
Proof.
  intros Hk. rewrite <- forget_filter, filter_id; [done|]. apply Forall_forall.
  intros r Hr Heq. apply Hk, list_elem_of_fmap. by exists r.
Qed.

Lemma remove_entry_models c l key :
  models (inner c) l ->
  exists l', models (inner (remove_entry key c)) l' /\ forget l' = spec_remove key (forget l).
Proof.
  intros Hm. unfold remove_entry. destruct (entries (inner c) !! key) as [e|] eqn:E.
  - eexists. split; [by apply models_drop|]. apply forget_filter.
  - exists l. split; [done|]. symmetry. eapply spec_remove_absent, models_absent; eauto.
Qed.

Lemma reconcile_loop_models missing g l d r :
  models g l ->
  exists l', models (reconcile_loop missing g d r).1.1 l' /\
    forget l' = foldl (fun a k => spec_remove k a) (forget l) missing.
Proof.
  revert g l d r. induction missing as [|k t IH]; intros g l d r Hm; simpl; [by exists l|].
  destruct (entries g !! k) as [e|] eqn:E.
  - destruct (IH _ _ (wadd64 d 1) (sat_add64 r (size e)) (models_drop _ _ _ _ Hm E)) as (l' & ? & Hf).
    exists l'. split; [done|]. by rewrite Hf, forget_filter.
  - destruct (IH _ _ d r Hm) as (l' & ? & Hf). exists l'. split; [done|].
    rewrite Hf. f_equal. symmetry. eapply spec_remove_absent, models_absent; eauto.
Qed.

Lemma reconcile_loop_mono missing g d r :
  0 <= bytes g -> (forall k e, entries g !! k = Some e -> 0 <= size e) ->
  bytes (reconcile_loop missing g d r).1.1 <= bytes g.
Proof.
  revert g d r. induction missing as [|k t IH]; intros g d r Hb Hs; simpl; [lia|].
  destruct (entries g !! k) as [e|] eqn:E; [|auto].
  etrans; [apply IH|]; simpl.
  - u64_lia.
  - intros k' e' [_ H]%lookup_delete_Some. eauto.
  - apply Hs in E. u64_lia.
Qed.

Lemma clear_loop_entries sha256 keys g d f r :
  forall k, entries (clear_loop sha256 keys g d f r).1.1.1 !! k
       = if decide (k ∈ keys) then None else entries g !! k.
Proof.
  revert g d f r. induction keys as [|k0 t IH]; intros g d f r k; simpl; [done|].
  destruct (entries g !! k0) as [e|] eqn:E.
  - assert (Hdel : entries (mkInner (delete k0 (entries g)) (delete (last_access_seq e) (lru g)) (seq g)
        (bytes g)) !! k = if decide (k = k0) then None else entries g !! k).
    { simpl. rewrite lookup_delete. repeat case_decide; congruence. }
    destruct (remove_file _ _); rewrite IH, Hdel; repeat case_decide; set_solver.
  - rewrite IH. repeat case_decide; try done; set_solver.
Qed.

Lemma clear_loop_seq sha256 keys g d f r :
  seq (clear_loop sha256 keys g d f r).1.1.1 = seq g.
Proof.
  revert g d f r. induction keys as [|k0 t IH]; intros g d f r; simpl; [done|].
  destruct (entries g !! k0); [|auto]. destruct (remove_file _ _); by rewrite IH.
Qed.

Lemma elem_of_live_keys c k : k ∈ live_keys c <-> is_Some (entries (inner c) !! k).
Proof.
  unfold live_keys. rewrite list_elem_of_fmap. split.
  - intros ([k' e] & -> & H). apply elem_of_map_to_list in H. eauto.
  - intros [e He]. exists (k, e). split; [done|]. by apply elem_of_map_to_list.
Qed.

Lemma clear_locked_inner sha256 c :
  inner (clear_locked sha256 c).1 = mkInner ∅ ∅ (seq (inner c)) 0.
Proof.
  unfold clear_locked. pose proof (clear_loop_entries sha256 (live_keys c) (inner c) (disk c) 0 0) as He.
  pose proof (clear_loop_seq sha256 (live_keys c) (inner c) (disk c) 0 0) as Hs.
  destruct (clear_loop _ _ _ _ _ _) as [[[g d] f] r]. simpl in *. f_equal; [|done].
  apply map_empty. intros k. rewrite He. case_decide as Hk; [done|].
  rewrite elem_of_live_keys in Hk. destruct (entries (inner c) !! k); [|done]. destruct Hk; eauto.
Qed.

Lemma clear_locked_stats sha256 c : bytes_in_use (stats (clear_locked sha256 c).1) = 0.
Proof.
  unfold clear_locked. by destruct (clear_loop _ _ _ _ _ _) as [[[g d] f] r].
Qed.

Lemma clear_locked_max sha256 c : max_bytes (clear_locked sha256 c).1 = max_bytes c.
Proof.
  unfold clear_locked. by destruct (clear_loop _ _ _ _ _ _) as [[[g d] f] r].
Qed.

(** ** The invariant under every interleaving *)
Definition seq_of (c : DiskCache) : Z := seq (inner c).

Lemma models_bytes_nonneg g l : models g l -> 0 <= bytes g.
Proof. intros Hm. rewrite (m_bytes _ _ Hm). apply zsum_nonneg, Forall_fmap, (m_sizes _ _ Hm). Qed.

Lemma seq_evict_loop sha256 n c : seq (inner (evict_loop sha256 n c)) = seq (inner c).
Proof.
  revert c. induction n as [|n IH]; intros c; simpl; [done|].
  destruct (evict_step sha256 c) as [c'|] eqn:E; [|done]. rewrite IH. unfold evict_step in E.
  repeat (step_match || case_match); by simplify_eq.
Qed.

Lemma seq_reconcile_loop missing g d r : seq (reconcile_loop missing g d r).1.1 = seq g.
Proof.
  revert g d r. induction missing as [|k t IH]; intros g d r; simpl; [done|].
  destruct (entries g !! k); by rewrite IH.
Qed.

Lemma step_seq sha256 c c' : step sha256 c c' -> seq_of c' = seq_of c \/ seq_of c' = wadd64 (seq_of c) 1.
Proof.
  unfold seq_of. destruct 1; simpl; auto.
  - unfold touch_lru. destruct (_ !! key); simpl; auto.
  - unfold insert_commit. destruct (_ !! key); unfold evict_if_needed; simpl;
      rewrite seq_evict_loop; simpl; auto.
  - unfold remove_entry. destruct (_ !! key); simpl; auto.
  - unfold reconcile_drop. pose proof (seq_reconcile_loop missing (inner c) 0 0).
    destruct (reconcile_loop _ _ _ _) as [[? ?] ?]. simpl in *. auto.
  - rewrite clear_locked_inner. auto.
Qed.

Lemma step_max sha256 c c' : step sha256 c c' -> 0 <= max_bytes c -> max_bytes c' = max_bytes c.
Proof.
  assert (Hl : forall n c, max_bytes (evict_loop sha256 n c) = max_bytes c).
  { induction n as [|n IH]; intros c0; simpl; [done|].
    destruct (evict_step sha256 c0) as [c1|] eqn:E; [|done]. rewrite IH. unfold evict_step in E.
    repeat case_match; by simplify_eq. }
  destruct 1; intros; simpl; auto.
  - unfold touch_lru. destruct (_ !! key); done.
  - unfold insert_commit. destruct (_ !! key); unfold evict_if_needed; simpl; by rewrite Hl.
  - unfold remove_entry. destruct (_ !! key); done.
  - unfold reconcile_drop. by destruct (reconcile_loop _ _ _ _) as [[? ?] ?].
  - apply clear_locked_max.
Qed.

Lemma step_invariant sha256 c c' :
  step sha256 c c' -> 0 <= max_bytes c <= 2 ^ 63 -> seq_of c < u64_max ->
  invariant c -> invariant c'.
Proof.
  unfold seq_of. intros Hst Hmax Hs ((l & Hm) & Hb & Hu). unfold invariant.
  pose proof (models_bytes_nonneg _ _ Hm) as Hb0.
  destruct Hst as [c|c|c key|c key sz Hsz|c key|c missing|c|c d]; simpl in *.
  - eauto.
  - eauto.
  - destruct (touch_models c l key Hm Hs) as (l' & Hm' & _). split; [eauto|].
    unfold touch_lru. destruct (_ !! key); simpl; auto.
  - destruct (insert_commit_models sha256 c l key sz Hm) as ((l' & Hm' & _) & Hx & Hy & Hz); [done..|].
    rewrite Hx. eauto.
  - destruct (remove_entry_models c l key Hm) as (l' & Hm' & _). split; [eauto|].
    unfold remove_entry. destruct (_ !! key) as [e|] eqn:E; simpl; [|done].
    apply (models_size_le _ _ _ _ Hm) in E. u64_lia.
  - destruct (reconcile_loop_models missing (inner c) l 0 0 Hm) as (l' & Hm' & _).
    pose proof (reconcile_loop_mono missing (inner c) 0 0 Hb0) as Hmono. unfold reconcile_drop.
    destruct (reconcile_loop _ _ _ _) as [[g ?] ?]. simpl in *. split; [eauto|]. split; [|done].
    etrans; [apply Hmono|done]. intros k e He. apply (models_size_le _ _ _ _ Hm He).
  - rewrite clear_locked_inner, clear_locked_stats, clear_locked_max. simpl.
    split; [|lia]. exists []. apply models_empty, (m_seq _ _ Hm).
  - eauto.
Qed.

(** ** What a reader sees *)
Lemma spec_evict_keeps_last max l x : x.2 <= max -> exists l', spec_evict max (l ++ [x]) = l' ++ [x].
Proof.
  intros Hx. induction l as [|y l IH]; simpl.
  - unfold spec_total. simpl. rewrite (proj2 (Z.ltb_ge _ _)) by lia. by exists [].
  - destruct (max <? _); [apply IH|]. by exists (y :: l).
Qed.

Lemma evict_loop_shrinks sha256 n c k e :
  entries (inner (evict_loop sha256 n c)) !! k = Some e -> entries (inner c) !! k = Some e.
Proof.
  revert c. induction n as [|n IH]; intros c; simpl; [done|].
  destruct (evict_step sha256 c) as [c'|] eqn:E; [|done]. intros H%IH. unfold evict_step in E.
  repeat case_match; simplify_eq; simpl in H; [|done].
  by apply lookup_delete_Some in H as [_ ?].
Qed.

(** Eviction deletes only the files of the keys it stops tracking. *)
Lemma evict_loop_disk sha256 n c key :
  (forall k, is_Some (entries (inner c) !! k) -> path_for sha256 k = path_for sha256 key -> k = key) ->
  is_Some (entries (inner (evict_loop sha256 n c)) !! key) ->
  disk (evict_loop sha256 n c) !! path_for sha256 key = disk c !! path_for sha256 key.
Proof.
  revert c. induction n as [|n IH]; intros c Hinj Hk; simpl in *; [done|].
  destruct (evict_step sha256 c) as [c'|] eqn:E; [|done].
  assert (Hk' : is_Some (entries (inner c') !! key)).
  { destruct Hk as [e He]. apply evict_loop_shrinks in He. eauto. }
  unfold evict_step in E. repeat case_match; simplify_eq; simpl in *.
  - rewrite IH; simpl; [|intros k [e' [_ He]%lookup_delete_Some]; eauto|done].
    unfold remove_file_ignored, remove_file. repeat case_match; simpl; [|done..].
    apply lookup_delete_ne. intros Heq. apply Hinj in Heq; [|eauto]. subst.
    rewrite lookup_delete_eq in Hk'. by destruct Hk'.
  - by rewrite IH.
Qed.

(** The commit of [insert] deletes no file of a key that is still tracked afterwards. *)
Lemma insert_commit_disk sha256 key sz c :
  (forall k, is_Some (entries (inner c) !! k) -> path_for sha256 k = path_for sha256 key -> k = key) ->
  is_Some (entries (inner (insert_commit sha256 key sz c)) !! key) ->
  disk (insert_commit sha256 key sz c) !! path_for sha256 key = disk c !! path_for sha256 key.
Proof.
  intros Hinj. unfold insert_commit, evict_if_needed.
  destruct (match entries (inner c) !! key with Some _ => _ | None => _ end) as [lru1 bytes1].
  match goal with |- context [evict_loop _ _ ?x] => set (c1 := x) end.
  intros He. cbn [disk set_stats] in *. rewrite evict_loop_disk; [done| |done].
  subst c1. cbn [inner entries set_inner set_stats]. intros k [e0 [[-> _]|[_ ?]]%lookup_insert_Some] ?; [done|eauto].
Qed.

Lemma try_get_hit sha256 c key e data :
  entries (inner c) !! key = Some e -> read_file (disk c) (path_for sha256 key) = Some data ->
  (try_get sha256 true key c).2 = Some data.
Proof. intros He Hd. unfold try_get, touch_lru. by rewrite He, Hd. Qed.

Lemma insert_file_read sha256 tmp key data d d' :
  insert_file sha256 tmp None key data d = (d', Ok tt) ->
  read_file d' (path_for sha256 key) = Some data.
Proof.
  unfold insert_file, read_file. intros H.
  assert (d' = <[path_for sha256 key := File data]> (delete tmp d)) as ->.
  { by destruct (d !! path_for sha256 key) as [[]|]; simplify_eq. }
  by rewrite lookup_insert_eq.
Qed.

(** What is tracked after reconciliation. *)
Lemma reconciled_state sha256 c k :
  let c' := (reconcile_with_disk sha256 c).1 in
  disk c' = disk c /\
  (is_Some (entries (inner c') !! k) <->
   is_Some (entries (inner c) !! k) /\ is_Some (disk c !! path_for sha256 k)).
Proof.
  assert (Hloop : forall ms g d r, entries (reconcile_loop ms g d r).1.1 !! k
            = if decide (k ∈ ms) then None else entries g !! k).
  { induction ms as [|k0 t IH]; intros g d r; simpl; [done|].
    destruct (entries g !! k0) as [e|] eqn:E; rewrite IH; simpl;
      [rewrite lookup_delete|]; repeat case_decide; try done; set_solver. }
  assert (Hms : k ∈ missing_keys sha256 c <->
            disk c !! path_for sha256 k = None /\ is_Some (entries (inner c) !! k)).
  { unfold missing_keys. by rewrite list_elem_of_filter, elem_of_live_keys. }
  assert (Hsome : is_Some (disk c !! path_for sha256 k) <-> disk c !! path_for sha256 k <> None)
    by (destruct (disk c !! _); split; [done|eauto|intros []; done|done]).
  unfold reconcile_with_disk. destruct (missing_keys sha256 c) as [|m0 ms] eqn:E; simpl.
  - split; [done|]. rewrite Hsome. split; [|tauto]. intros He. split; [done|]. intros Hn.
    by apply (not_elem_of_nil k), Hms.
  - unfold reconcile_drop. specialize (Hloop (m0 :: ms) (inner c) 0 0).
    destruct (reconcile_loop _ _ _ _) as [[g dd] rr]. simpl in *. split; [done|].
    rewrite Hloop, Hsome. case_decide as Hin; [rewrite Hms in Hin; split; [intros []; done|tauto]|].
    rewrite Hms in Hin. tauto.
Qed.

Lemma reconciled_disk sha256 c : disk (reconcile_with_disk sha256 c).1 = disk c.
Proof. apply (reconciled_state sha256 c (mkChunkKey EmptyString EmptyString 0)). Qed.

Lemma reconciled_entries sha256 c k :
  is_Some (entries (inner (reconcile_with_disk sha256 c).1) !! k) ->
  is_Some (disk c !! path_for sha256 k).
Proof. intros H. by apply (reconciled_state sha256 c k) in H as [_ ?]. Qed.

(** ** Theorems *)

(** C6.  Whatever the threads do, in whatever order their critical sections run, and however
    files vanish from the cache directory, the cache stays coherent: from a freshly opened cache
    every sequence of fewer than 2^64-1 critical sections keeps [entries] and [lru] describing
    the same chunks in recency order, [bytes] equal to their total size, that total within
    [max_bytes], and the published gauge equal to it. *)
Theorem cache_invariant sha256 stat_ok max d c0 n c :
  open true true stat_ok max d = Ok c0 -> 0 <= max <= 2 ^ 63 ->
  steps sha256 n c0 c -> Z.of_nat n < u64_max -> invariant c.
Proof.
  intros Ho Hmax Hst Hn.
  assert (Hc0 : invariant c0 /\ max_bytes c0 = max /\ seq_of c0 = 0).
  { unfold open, scan_existing in Ho. simpl in Ho. injection Ho as <-.
    split; [|done]. split; [exists []; by apply models_empty|]. simpl. split; [lia|done]. }
  assert (H : invariant c /\ max_bytes c = max /\ 0 <= seq_of c <= Z.of_nat n).
  { revert Hn. induction Hst as [c0|n c0 c1 c2 Hst IH Hstep]; intros Hn.
    - destruct Hc0 as (? & ? & ->). split; [done|]. split; [done|lia].
    - destruct IH as (Hi & Hm & Hs); [done|done|lia|].
      split; [eapply step_invariant; [done|lia|lia|done]|]. split.
      + rewrite (step_max _ _ _ Hstep); [done|lia].
      + destruct (step_seq _ _ _ Hstep) as [->| ->]; [lia|].
        rewrite wadd64_small by lia. lia. }
  apply H.
Qed.

Lemma cache_invariant_witness :
  exists c, steps (fun l => l) 2 (mkDiskCache 10 (mkInner ∅ ∅ 0 0) stats0 ∅) c /\
    bytes (inner c) = 9 /\ invariant c.
Proof.
  exists (insert_commit (fun l => l) (mkChunkKey "m" "b" 4) 9
       (insert_commit (fun l => l) (mkChunkKey "m" "b" 0) 4
          (mkDiskCache 10 (mkInner ∅ ∅ 0 0) stats0 ∅))).
  assert (Hst : steps (fun l => l) 2 (mkDiskCache 10 (mkInner ∅ ∅ 0 0) stats0 ∅)
    (insert_commit (fun l => l) (mkChunkKey "m" "b" 4) 9
       (insert_commit (fun l => l) (mkChunkKey "m" "b" 0) 4
          (mkDiskCache 10 (mkInner ∅ ∅ 0 0) stats0 ∅)))).
  { eapply steps_cons; [eapply steps_cons; [apply steps_refl|]|]; apply step_commit; lia. }
  split; [exact Hst|]. split; [vm_compute; reflexivity|].
  apply (cache_invariant (fun l => l) (fun _ => true) 10 ∅ _ 2 _ eq_refl); [lia|exact Hst|u64_lia].
Defined.

(** C7.  The cache is an LRU cache: [touch_lru], the commit of [insert], [remove],
    [reconcile_with_disk] and [clear_all] act on the list of chunks in recency order exactly as
    the abstract operations do - a touched chunk moves to the end, an inserted chunk replaces its
    old version at the end, and precisely the least recently used chunks that overflow the
    budget are evicted. *)
Theorem cache_refines_lru sha256 c a key sz missing :
  refines c a -> bytes (inner c) <= max_bytes c -> 0 <= max_bytes c <= 2 ^ 63 ->
  seq_of c < u64_max -> 0 <= sz < 2 ^ 63 ->
  refines (touch_lru key c).1 (spec_touch key a) /\
  refines (insert_commit sha256 key sz c) (spec_insert (max_bytes c) key sz a) /\
  refines (remove_entry key c) (spec_remove key a) /\
  refines (reconcile_drop missing c).1 (foldl (fun a k => spec_remove k a) a missing) /\
  refines (clear_locked sha256 c).1 [].
Proof.
  unfold refines, seq_of. intros (l & Hm & <-) Hb Hmax Hs Hsz. split_and!.
  - by apply touch_models.
  - by apply insert_commit_models.
  - by apply remove_entry_models.
  - unfold reconcile_drop. destruct (reconcile_loop_models missing (inner c) l 0 0 Hm) as (l' & ? & ?).
    destruct (reconcile_loop _ _ _ _) as [[g ?] ?]. eauto.
  - rewrite clear_locked_inner. exists []. split; [|done]. apply models_empty, (m_seq _ _ Hm).
Qed.

Lemma cache_refines_lru_witness :
  let c := mkDiskCache 10 (mkInner ∅ ∅ 0 0) stats0 ∅ in
  refines (insert_commit (fun l => l) (mkChunkKey "m" "b" 0) 4 c)
    (spec_insert 10 (mkChunkKey "m" "b" 0) 4 []).
Proof.
  apply (cache_refines_lru (fun l => l) (mkDiskCache 10 (mkInner ∅ ∅ 0 0) stats0 ∅) []
           (mkChunkKey "m" "b" 0) 4 []); simpl; try lia; try u64_lia.
  - exists []. split; [by apply models_empty|done].
  - unfold seq_of. simpl. u64_lia.
Defined.

(** C8.  A chunk that was just inserted is served: after a successful [insert] of data that fits
    the budget, [try_get] returns exactly that data, provided no other tracked key has the same
    file name. *)
Theorem insert_then_try_get sha256 tmp key data c c' :
  (exists l, models (inner c) l) -> bytes (inner c) <= max_bytes c -> 0 <= max_bytes c <= 2 ^ 63 ->
  seq_of c < u64_max -> len data <= max_bytes c -> len data < 2 ^ 63 ->
  (forall k, is_Some (entries (inner c) !! k) -> path_for sha256 k = path_for sha256 key -> k = key) ->
  insert sha256 tmp None key data c = (c', Ok tt) ->
  (try_get sha256 true key c').2 = Some data.
Proof.
  intros [l Hm] Hb Hmax Hs Hfit Hlen Hinj Hins. unfold insert in Hins.
  destruct (insert_file sha256 tmp None key data (disk c)) as [d [[]|e]] eqn:Ef; [|done].
  injection Hins as <-. apply insert_file_read in Ef.
  pose proof (len_nonneg data).
  destruct (insert_commit_models sha256 (set_disk d c) l key (len data)) as ((l' & Hm' & Hf') & _);
    [done..|]. simpl in Hf'.
  destruct (spec_evict_keeps_last (max_bytes c) (spec_remove key (forget l)) (key, len data))
    as [l2 Hl2]; [done|].
  assert (Hin : (key, len data) ∈ forget l').
  { rewrite Hf'. unfold spec_insert. rewrite Hl2. set_solver. }
  apply list_elem_of_fmap in Hin as ([[s k] z] & Heq & Hin).
  unfold row_key, row_size in Heq; simpl in Heq. injection Heq as <- <-.
  pose proof (proj2 (m_entries _ _ Hm' _ (mkEntry (len data) s)) Hin) as He.
  eapply try_get_hit; [exact He|]. unfold read_file.
  rewrite insert_commit_disk; [exact Ef|done|eauto].
Qed.

Lemma insert_then_try_get_witness :
  let c := mkDiskCache 10 (mkInner ∅ ∅ 0 0) stats0 ∅ in
  let k := mkChunkKey "m" "b" 0 in
  (try_get (fun l => l) true k (insert (fun l => l) ".tmp.1" None k [x01; x02] c).1).2
  = Some [x01; x02].
Proof.
  apply (insert_then_try_get (fun l => l) ".tmp.1" (mkChunkKey "m" "b" 0) [x01; x02]
           (mkDiskCache 10 (mkInner ∅ ∅ 0 0) stats0 ∅)); simpl; try (vm_compute; intuition congruence).
  - exists []. by apply models_empty.
  - intros k [e He]. by rewrite lookup_empty in He.
Defined.

(** Reconciliation leaves no phantom: after [reconcile_with_disk] every key the cache still
    tracks (and would advertise to peers) has its backing file, no file is touched, and no key
    whose file is present is dropped. *)
Lemma reconcile_no_phantom sha256 c k :
  let c' := (reconcile_with_disk sha256 c).1 in
  disk c' = disk c /\
  (is_Some (entries (inner c') !! k) <->
   is_Some (entries (inner c) !! k) /\ is_Some (disk c !! path_for sha256 k)) /\
  (seq_of c' = seq_of c /\ max_bytes c' = max_bytes c).
Proof.
  simpl. destruct (reconciled_state sha256 c k) as [Hd Hk]. split_and!; [done|done| |].
  all: unfold reconcile_with_disk, reconcile_drop, seq_of; destruct (missing_keys sha256 c); [done|].
  - pose proof (seq_reconcile_loop (c0 :: l) (inner c) 0 0).
    by destruct (reconcile_loop _ _ _ _) as [[g dd] rr].
  - by destruct (reconcile_loop _ _ _ _) as [[g dd] rr].
Qed.

(** [clear_all] returns the node to the state after startup: nothing is tracked, the byte
    gauge is zero, and, when the directory could be read, no regular file is left in it. *)
Lemma clear_all_resets sha256 c :
  let '(c', r) := clear_all sha256 true (fun _ => true) c in
  entries (inner c') = ∅ /\ lru (inner c') = ∅ /\ bytes (inner c') = 0 /\
  bytes_in_use (stats c') = 0 /\ (forall name data, disk c' !! name <> Some (File data)) /\
  is_ok r = true.
Proof.
  unfold clear_all. pose proof (clear_locked_inner sha256 c) as Hi.
  pose proof (clear_locked_stats sha256 c) as Hs.
  destruct (clear_locked sha256 c) as [c' r]. simpl in *. rewrite Hi. split_and!; try done.
  intros name data [H1 H2]%map_lookup_filter_Some. by simpl in H2.
Qed.

(** A failed [insert] (creating, writing, syncing or renaming the temporary file) reports the
    error and leaves the tracked state and every file but the temporary one as they were. *)
Lemma insert_failure_untracked sha256 tmp fault key data c c' e :
  insert sha256 tmp fault key data c = (c', Err e) ->
  inner c' = inner c /\ stats c' = stats c /\
  (forall name, name <> tmp -> disk c' !! name = disk c !! name).
Proof.
  unfold insert. destruct (insert_file sha256 tmp fault key data (disk c)) as [d r] eqn:Ef.
  destruct r; [done|]. intros [= <- <-]. simpl. split_and!; [done..|]. intros name Hn.
  unfold insert_file in Ef. repeat case_match; simplify_eq; by rewrite ?lookup_insert_ne.
Qed.

(** A sub-range read never invents or truncates bytes: when [try_get_range] answers, the
    answer is exactly the requested slice of the file behind the key. *)
Lemma try_get_range_exact sha256 io key from n c c' b :
  try_get_range sha256 io key from n c = (c', Some b) -> 0 <= from -> 0 < n ->
  len b = n /\ exists data, read_file (disk c) (path_for sha256 key) = Some data /\
    from + n <= len data /\ b = slice data from (from + n).
Proof.
  unfold try_get_range. intros H Hf Hn. rewrite (proj2 (Z.eqb_neq n 0)) in H by lia.
  destruct (entries (inner c) !! key); [|done]. destruct (_ <? _); [done|].
  destruct io; [|done]. destruct (read_file _ _) as [data|]; [|done].
  unfold read_exact_at in H. destruct (from + n <=? len data) eqn:E; [|done]. case_bool.
  destruct (touch_lru key c) as [c1 []]; [|done]. injection H as _ <-.
  split; [rewrite len_slice; lia|]. eauto.
Qed.
End Cache.
