(* ===== verification/Inserts.v ===== *)
(** * Concurrent inserts into the cache directory (src/src/cache.rs, [insert] and [rand_hex])

    [DiskCache.Cache] writes a chunk file in one step.  Here an insert is the sequence of its system
    calls on a directory of names and inodes, and [step] interleaves any number of inserts with
    readers that keep a file open and with files that are unlinked (by eviction, [remove], the sweep
    of [clear_all] or from outside).  An error of a call ends the insert and leaves its file. *)

From S2P Require Import Prelude ChunkKeys DiskCache.

Module Inserts.

(** ** Temporary names *)

(** [{n:x}] for a 64-bit number. *)
Fixpoint hex_go (fuel : nat) (n : Z) (acc : list byte) : list byte :=
  match fuel with
  | O => acc
  | S fuel => let acc := hex_digit (n mod 16) :: acc in
              if n <? 16 then acc else hex_go fuel (n / 16) acc
  end.

Definition lower_hex (n : Z) : list byte := hex_go 16 n [].

(** [now] is the wall clock in nanoseconds since the epoch, [s] what [TMP_SEQ.fetch_add] returned. *)
Definition rand_hex (now s : Z) : list byte :=
  lower_hex (if now <? 0 then 0 else wrap64 now) ++ [x2e] ++ lower_hex s.

Definition tmp_name (pid now s : Z) : string := ".tmp." +:+ show pid +:+ "." +:+ bytes_str (rand_hex now s).

(** ** State *)

(** Where an insert is: before [File::create], with [n] bytes written, before [rename], before its
    critical section, returned. *)
Inductive Stage : Type :=
| Creating
| Writing (ino n : nat)
| Renaming (ino : nat)
| Renamed
| Failed.

Record Insert := mkInsert {
  key : ChunkKey;
  data : list byte;
  now : Z;
  stage : Stage
}.

(** The inserts in the order of their [fetch_add]; a reader has its inode and what it opened. *)
Record Sys := mkSys {
  names : gmap string nat;
  files : gmap nat (list byte);
  inserts : list Insert;
  readers : gmap nat (nat * list byte)
}.

Definition set_stage (i : nat) (t : Insert) (st : Stage) (s : Sys) : Sys :=
  mkSys (names s) (files s) (<[i := mkInsert (key t) (data t) (now t) st]> (inserts s)) (readers s).

Definition set_files (nm : gmap string nat) (fl : gmap nat (list byte)) (s : Sys) : Sys :=
  mkSys nm fl (inserts s) (readers s).

(** The directory as [DiskCache.Cache] has it. *)
Definition dir (s : Sys) : gmap string Cache.Dirent := omap (fun i => Cache.File <$> files s !! i) (names s).

Definition is_tmp (n : string) : bool := starts_with ".tmp." n.

Section inserts.
Context (sha256 : list byte -> list byte) (pid : Z).

(** [TMP_SEQ] starts at 0 and wraps. *)
Definition tmp (i : nat) (t : Insert) : string := tmp_name pid (now t) (wrap64 (Z.of_nat i)).

Definition begin (k : ChunkKey) (d : list byte) (t : Z) (s : Sys) : Sys :=
  mkSys (names s) (files s) (inserts s ++ [mkInsert k d t Creating]) (readers s).

(** [File::create]: an existing file is truncated. *)
Definition create (i : nat) (t : Insert) (s : Sys) : Sys :=
  match names s !! tmp i t with
  | Some ino => set_stage i t (Writing ino 0) (set_files (names s) (<[ino := []]> (files s)) s)
  | None =>
      let ino := fresh (dom (files s)) in
      set_stage i t (Writing ino 0) (set_files (<[tmp i t := ino]> (names s)) (<[ino := []]> (files s)) s)
  end.

(** One [write] of [write_all]. *)
Definition write (i : nat) (t : Insert) (ino n m : nat) (s : Sys) : Sys :=
  set_stage i t (Writing ino (n + m))
    (set_files (names s) (alter (fun b => b ++ take m (drop n (data t))) ino (files s)) s).

(** [std::fs::rename] of the name, wherever it leads. *)
Definition rename (i : nat) (t : Insert) (ino : nat) (s : Sys) : Sys :=
  set_stage i t Renamed
    (set_files (<[Cache.path_for sha256 (key t) := ino]> (delete (tmp i t) (names s))) (files s) s).

Inductive step (s : Sys) : Sys -> Prop :=
| step_begin k d t : step s (begin k d t s)
| step_create i t : inserts s !! i = Some t -> stage t = Creating -> step s (create i t s)
| step_write i t ino n m :
    inserts s !! i = Some t -> stage t = Writing ino n -> (n + m <= length (data t))%nat ->
    step s (write i t ino n m s)
| step_sync i t ino :
    inserts s !! i = Some t -> stage t = Writing ino (length (data t)) ->
    step s (set_stage i t (Renaming ino) s)
| step_rename i t ino ino' :
    inserts s !! i = Some t -> stage t = Renaming ino -> names s !! tmp i t = Some ino' ->
    step s (rename i t ino' s)
| step_fail i t : inserts s !! i = Some t -> stage t <> Renamed -> step s (set_stage i t Failed s)
| step_unlink n : step s (set_files (delete n (names s)) (files s) s)
| step_open r n ino b :
    is_tmp n = false -> names s !! n = Some ino -> files s !! ino = Some b -> readers s !! r = None ->
    step s (mkSys (names s) (files s) (inserts s) (<[r := (ino, b)]> (readers s)))
| step_close r : step s (mkSys (names s) (files s) (inserts s) (delete r (readers s))).

(** The daemon starts on a directory that [scan_existing] has purged of chunk files. *)
Definition purged (s : Sys) : Prop :=
  inserts s = [] /\ readers s = ∅ /\
  (forall n ino, names s !! n = Some ino -> is_tmp n = true /\ is_Some (files s !! ino)) /\
  (forall a b ino, names s !! a = Some ino -> names s !! b = Some ino -> a = b).

Inductive reachable : Sys -> Prop :=
| reach_start s : purged s -> reachable s
| reach_step s s' : reachable s -> step s s' -> reachable s'.

(** ** Names *)
Definition unhex (b : byte) : Z := if byte_val b <? 58 then byte_val b - 48 else byte_val b - 87.
Definition hex_value (a : Z) (l : list byte) : Z := foldl (fun a b => a * 16 + unhex b) a l.

Lemma unhex_digit n : 0 <= n < 16 -> unhex (hex_digit n) = n.
Proof using Type.
  intros Hn. unfold unhex, hex_digit. rewrite byte_val_of.
  destruct (n <? 10) eqn:E; case_bool; rewrite Z.mod_small by lia; case_match; case_bool; lia.
Qed.

Lemma hex_go_value fuel n acc :
  0 <= n < 16 ^ Z.of_nat fuel -> hex_value 0 (hex_go fuel n acc) = hex_value n acc.
Proof using Type.
  revert n acc. induction fuel as [|fuel IH]; intros n acc Hn.
  { change (16 ^ Z.of_nat 0) with 1 in Hn. assert (n = 0) as -> by lia. done. }
  pose proof (Z.mod_pos_bound n 16 ltac:(lia)). pose proof (Z.div_mod n 16 ltac:(lia)).
  cbn [hex_go]. destruct (n <? 16) eqn:E; case_bool.
  - unfold hex_value. cbn [foldl]. rewrite unhex_digit by lia. f_equal. rewrite Z.mod_small by lia. lia.
  - rewrite IH; [|rewrite Nat2Z.inj_succ, Z.pow_succ_r in Hn by lia; split; [apply Z.div_pos; lia|
      apply Z.div_lt_upper_bound; lia]].
    unfold hex_value. cbn [foldl]. rewrite unhex_digit by lia. f_equal. lia.
Qed.

Lemma lower_hex_inj a b : is_u64 a -> is_u64 b -> lower_hex a = lower_hex b -> a = b.
Proof using Type.
  intros Ha Hb H. assert (Hv : forall n, is_u64 n -> hex_value 0 (lower_hex n) = n).
  { intros n Hn. apply hex_go_value. change (16 ^ Z.of_nat 16) with (2 ^ 64). u64_lia. }
  by rewrite <- (Hv a Ha), <- (Hv b Hb), H.
Qed.

Lemma hex_digit_not_dot n : 0 <= n < 16 -> hex_digit n <> x2e.
Proof using Type.
  intros Hn H. apply (f_equal byte_val) in H. unfold hex_digit in H. rewrite byte_val_of in H.
  change (byte_val x2e) with 46 in H. destruct (_ <? 10); rewrite Z.mod_small in H by lia; lia.
Qed.

Lemma hex_no_dot n : x2e ∉ lower_hex n.
Proof using Type.
  unfold lower_hex. cut (forall fuel n acc, x2e ∉ acc -> x2e ∉ hex_go fuel n acc).
  { intros H. apply H. apply not_elem_of_nil. }
  clear n. intros fuel. induction fuel as [|fuel IH]; intros n acc Ha; [done|].
  assert (Hc : x2e ∉ hex_digit (n mod 16) :: acc).
  { apply not_elem_of_cons. split; [|done]. symmetry. apply hex_digit_not_dot, Z.mod_pos_bound. lia. }
  cbn [hex_go]. destruct (n <? 16); auto.
Qed.

(** The counter makes the names of a process unique, whatever the clock does. *)
Lemma tmp_name_inj t t' a b : is_u64 a -> is_u64 b -> tmp_name pid t a = tmp_name pid t' b -> a = b.
Proof using Type.
  intros Ha Hb H. apply (f_equal str_bytes) in H. unfold tmp_name, rand_hex in H.
  rewrite !str_bytes_app, !str_bytes_str in H. do 3 apply (inj (app _)) in H.
  apply sep_split in H as [_ H]; [by apply lower_hex_inj in H|apply hex_no_dot..].
Qed.

Lemma tmp_is_tmp i t : is_tmp (tmp i t) = true.
Proof using Type. apply starts_with_app. Qed.

Lemma path_not_tmp k : is_tmp (Cache.path_for sha256 k) = false.
Proof using Type. apply filename_not_tmp. Qed.

Lemma tmp_inj i j t u : Z.of_nat i < 2 ^ 64 -> Z.of_nat j < 2 ^ 64 -> tmp i t = tmp j u -> i = j.
Proof using Type.
  unfold tmp. intros Hi Hj H. rewrite !wrap64_small in H by u64_lia.
  apply tmp_name_inj in H; [lia|u64_lia..].
Qed.

(** ** The invariant *)

(** An insert that has its temporary file: nobody else has the inode, and the name leads to it or is
    gone. *)
Record owns (s : Sys) (i : nat) (t : Insert) (ino : nat) (b : list byte) : Prop := {
  ow_data : files s !! ino = Some b;
  ow_name n : names s !! n = Some ino -> n = tmp i t;
  ow_tmp j : names s !! tmp i t = Some j -> j = ino;
  ow_reader r b' : readers s !! r <> Some (ino, b')
}.

Definition holds (t : Insert) : option (nat * list byte) :=
  match stage t with
  | Writing ino n => Some (ino, take n (data t))
  | Renaming ino => Some (ino, data t)
  | _ => None
  end.

Record inv (s : Sys) : Prop := {
  iv_file n ino : names s !! n = Some ino -> is_Some (files s !! ino);
  iv_inj a b ino : names s !! a = Some ino -> names s !! b = Some ino -> a = b;
  iv_owns i t ino b : inserts s !! i = Some t -> holds t = Some (ino, b) -> owns s i t ino b;
  iv_excl i j t u ino b b' : inserts s !! i = Some t -> inserts s !! j = Some u ->
    holds t = Some (ino, b) -> holds u = Some (ino, b') -> i = j;
  iv_chunk n ino b : is_tmp n = false -> names s !! n = Some ino -> files s !! ino = Some b ->
    exists i t, inserts s !! i = Some t /\ stage t = Renamed /\ Cache.path_for sha256 (key t) = n /\ data t = b;
  iv_reader r ino b : readers s !! r = Some (ino, b) ->
    files s !! ino = Some b /\ forall n, names s !! n = Some ino -> is_tmp n = false
}.

Lemma lookup_stage i t st s j u :
  inserts (set_stage i t st s) !! j = Some u ->
  (j = i /\ u = mkInsert (key t) (data t) (now t) st) \/ (j <> i /\ inserts s !! j = Some u).
Proof using Type. intros [(-> & -> & _)|[? ?]]%list_lookup_insert_Some; auto. Qed.

(** A chunk that was published stays published. *)
Lemma stage_published i t st s j u :
  inserts s !! i = Some t -> stage t <> Renamed -> inserts s !! j = Some u -> stage u = Renamed ->
  inserts (set_stage i t st s) !! j = Some u.
Proof using Type.
  intros Hi Hn Hj Hu. unfold set_stage. cbn [inserts]. rewrite list_lookup_insert_ne; [done|]. congruence.
Qed.

(** An insert that gives its file up, or keeps it as it is. *)
Lemma inv_stage s i t st :
  inv s -> inserts s !! i = Some t -> stage t <> Renamed ->
  (forall x, holds (mkInsert (key t) (data t) (now t) st) = Some x -> holds t = Some x) -> inv (set_stage i t st s).
Proof using Type.
  intros Hs Hi Hn Hh.
  assert (Hold : forall j u x, inserts (set_stage i t st s) !! j = Some u -> holds u = Some x ->
    exists u', inserts s !! j = Some u' /\ holds u' = Some x /\ now u' = now u).
  { intros j u x [[-> ->]|[_ Hj]]%lookup_stage Hx; [|by eauto]. exists t. auto. }
  split; cbn [set_stage names files readers].
  - apply (iv_file s Hs).
  - apply (iv_inj s Hs).
  - intros j u ino b Hj Hx. destruct (Hold j u _ Hj Hx) as (u' & Hj' & Hx' & Ht).
    destruct (iv_owns s Hs j u' ino b Hj' Hx') as [H1 H2 H3 H4]. unfold tmp in *. rewrite Ht in H2, H3. by split.
  - intros j k u v ino b b' Hj Hk Hu Hv. destruct (Hold j u _ Hj Hu) as (? & ? & ? & _).
    destruct (Hold k v _ Hk Hv) as (? & ? & ? & _). by eapply (iv_excl s Hs).
  - intros n ino b Ht Hm Hf. destruct (iv_chunk s Hs n ino b Ht Hm Hf) as (j & u & Hj & Hu & Hp).
    exists j, u. split; [by apply stage_published|done].
  - apply (iv_reader s Hs).
Qed.

Lemma inv_insert_begin s k d t : inv s -> inv (begin k d t s).
Proof using Type.
  intros Hs. assert (Hold : forall j u x, inserts (begin k d t s) !! j = Some u -> holds u = Some x ->
    inserts s !! j = Some u).
  { intros j u x [?|[_ [_ <-]%list_lookup_singleton_Some]]%lookup_app_Some Hx; done. }
  split; cbn [begin names files readers].
  - apply (iv_file s Hs).
  - apply (iv_inj s Hs).
  - intros j u ino b Hj Hx. by destruct (iv_owns s Hs j u ino b (Hold _ _ _ Hj Hx) Hx).
  - intros i j u v ino b b' Hi Hj Hu Hv. eapply (iv_excl s Hs i j); eauto.
  - intros n ino b Ht Hm Hf. destruct (iv_chunk s Hs n ino b Ht Hm Hf) as (j & u & Hj & Hp).
    exists j, u. split; [by apply lookup_app_l_Some|done].
  - apply (iv_reader s Hs).
Qed.

Lemma inv_unlink s n : inv s -> inv (set_files (delete n (names s)) (files s) s).
Proof using Type.
  intros [Hf Hj Ho He Hc Hr]. split; cbn [set_files names files inserts readers].
  - intros m ino [_ ?]%lookup_delete_Some. eauto.
  - intros a b ino [_ ?]%lookup_delete_Some [_ ?]%lookup_delete_Some. eauto.
  - intros i t ino b Hi Hh. destruct (Ho i t ino b Hi Hh). split; cbn [set_files names files readers]; auto.
    + intros m [_ ?]%lookup_delete_Some. auto.
    + intros j [_ ?]%lookup_delete_Some. auto.
  - done.
  - intros m ino b Ht [_ Hm]%lookup_delete_Some. eauto.
  - intros r ino b Hrr. destruct (Hr r ino b Hrr). split; [done|]. intros m [_ ?]%lookup_delete_Some. eauto.
Qed.

(** Only published files are opened, and nobody writes to those. *)
Lemma inv_open s r n ino b :
  inv s -> is_tmp n = false -> names s !! n = Some ino -> files s !! ino = Some b ->
  inv (mkSys (names s) (files s) (inserts s) (<[r := (ino, b)]> (readers s))).
Proof using Type.
  intros [Hf Hj Ho He Hc Hr] Ht Hn Hb. split; cbn [names files inserts readers]; auto.
  - intros i t ino' b' Hi Hh. destruct (Ho i t ino' b' Hi Hh) as [H1 H2 H3 H4].
    split; cbn [names files readers]; auto. intros r' x. rewrite lookup_insert. case_decide; [|done].
    intros [= -> ->]. apply H2 in Hn as ->. by rewrite tmp_is_tmp in Ht.
  - intros r' ino' b'. rewrite lookup_insert. case_decide; [|by apply Hr]. intros [= <- <-].
    split; [done|]. intros m Hm. by rewrite (Hj m n ino Hm Hn).
Qed.

Lemma inv_close s r : inv s -> inv (mkSys (names s) (files s) (inserts s) (delete r (readers s))).
Proof using Type.
  intros [Hf Hj Ho He Hc Hr]. split; cbn [names files inserts readers]; auto.
  - intros i t ino b Hi Hh. destruct (Ho i t ino b Hi Hh). split; cbn [names files readers]; auto.
    intros r' b' [_ ?]%lookup_delete_Some. by eapply ow_reader0.
  - intros r' ino b [_ ?]%lookup_delete_Some. eauto.
Qed.

(** ** Calls that change files *)
Section busy.
Context (s : Sys) (Hs : inv s) (Hmax : Z.of_nat (length (inserts s)) <= 2 ^ 64).
Context (i : nat) (t : Insert) (Hi : inserts s !! i = Some t).

Lemma tmp_other j u : inserts s !! j = Some u -> j <> i -> tmp j u <> tmp i t.
Proof using Hmax Hi.
  intros Hj Hne H. apply lookup_lt_Some in Hj, Hi. apply Hne, (tmp_inj j i u t); [lia|lia|done].
Qed.

(** The file of an insert changes under the insert's own name only. *)
Lemma inv_own ino b0 st nm fl :
  holds (mkInsert (key t) (data t) (now t) st) = Some (ino, b0) -> stage t <> Renamed ->
  nm !! tmp i t = Some ino \/ nm !! tmp i t = None ->
  (forall n, n <> tmp i t -> nm !! n = names s !! n) ->
  (forall n, names s !! n = Some ino -> n = tmp i t) ->
  (forall j u b, inserts s !! j = Some u -> holds u = Some (ino, b) -> j = i) ->
  (forall r b, readers s !! r <> Some (ino, b)) ->
  fl = <[ino := b0]> (files s) -> inv (set_stage i t st (set_files nm fl s)).
Proof using Hs Hmax Hi.
  intros Hst Hnr Hown Hnm Hname Hexcl Hread ->.
  assert (Hn : forall n k, nm !! n = Some k -> (n = tmp i t /\ k = ino) \/ (n <> tmp i t /\ k <> ino /\ names s !! n = Some k)).
  { intros n k Hk. destruct (decide (n = tmp i t)) as [->|Hne]; [left; destruct Hown; split; congruence|right].
    rewrite Hnm in Hk by done. split_and!; [done| |done]. intros ->. by apply Hne, Hname. }
  split; cbn [set_stage set_files names files readers].
  - intros n k [[-> ->]|(_ & Hk & Hn')]%Hn; [rewrite lookup_insert_eq; eauto|].
    rewrite lookup_insert_ne by done. by eapply (iv_file s Hs).
  - intros a b k [[-> ->]|(? & ? & Ha)]%Hn [[-> Hk]|(? & ? & Hb)]%Hn; try done. by eapply (iv_inj s Hs).
  - intros j u k b [[-> ->]|[Hj Hu]]%lookup_stage Hh.
    + rewrite Hst in Hh. injection Hh as <- <-. split; cbn [set_stage set_files names files readers].
      * apply lookup_insert_eq.
      * intros n [[-> _]|(_ & ? & _)]%Hn; done.
      * intros k Hk. change (nm !! tmp i t = Some k) in Hk. destruct Hown; congruence.
      * apply Hread.
    + cbn [set_files inserts] in Hu. assert (k <> ino) by (intros ->; by apply Hj, (Hexcl j u b)).
      destruct (iv_owns s Hs j u k b Hu Hh) as [H1 H2 H3 H4]. split; cbn [set_stage set_files names files readers].
      * by rewrite lookup_insert_ne.
      * intros n [[_ ->]|(_ & _ & ?)]%Hn; auto; done.
      * intros k'. rewrite Hnm by (by apply tmp_other). apply H3.
      * apply H4.
  - intros j k u v x b b' [[-> ->]|[Hj Hu]]%lookup_stage [[-> ->]|[Hk Hv]]%lookup_stage Hx Hy; [done|..].
    + rewrite Hst in Hx. injection Hx as -> _. symmetry. by eapply Hexcl.
    + rewrite Hst in Hy. injection Hy as -> _. by eapply Hexcl.
    + by eapply (iv_excl s Hs).
  - intros n k b Ht [[-> ->]|(_ & Hk & Hn')]%Hn Hb; [by rewrite tmp_is_tmp in Ht|].
    rewrite lookup_insert_ne in Hb by done. destruct (iv_chunk s Hs n k b Ht Hn' Hb) as (j & u & Hj & Hu & Hp).
    exists j, u. split; [|done]. by apply (stage_published i t st (set_files nm _ s)).
  - intros r k b Hr. assert (k <> ino) by (intros ->; by apply (Hread r b)).
    destruct (iv_reader s Hs r k b Hr) as [H1 H2]. split; [by rewrite lookup_insert_ne|].
    intros n [[_ ->]|(_ & _ & ?)]%Hn; [done|auto].
Qed.

Lemma inv_create : stage t = Creating -> inv (create i t s).
Proof using Hs Hmax Hi.
  intros Hst. assert (Hfree : forall ino, names s !! tmp i t = Some ino \/ files s !! ino = None ->
    (forall n, names s !! n = Some ino -> n = tmp i t) /\
    (forall j u b, inserts s !! j = Some u -> holds u = Some (ino, b) -> j = i) /\
    (forall r b, readers s !! r <> Some (ino, b))).
  { intros ino Hino. split_and!.
    - intros n Hn. destruct Hino as [Hn'|Hf]; [by eapply (iv_inj s Hs)|].
      destruct (iv_file s Hs n ino Hn). congruence.
    - intros j u b Hj Hu. destruct (iv_owns s Hs j u ino b Hj Hu) as [H1 H2 _ _].
      destruct Hino as [Hn|Hf]; [|congruence]. destruct (decide (j = i)) as [|Hne]; [done|].
      by destruct (tmp_other j u Hj Hne), (H2 _ Hn).
    - intros r b Hr. destruct (iv_reader s Hs r ino b Hr) as [H1 H2].
      destruct Hino as [Hn|Hf]; [|congruence]. apply H2 in Hn. by rewrite tmp_is_tmp in Hn. }
  unfold create. destruct (names s !! tmp i t) as [ino|] eqn:En.
  - destruct (Hfree ino) as (H1 & H2 & H3); [by left|].
    apply (inv_own ino []); auto. by rewrite Hst.
  - set (ino := fresh (dom (files s))). assert (Hf : files s !! ino = None).
    { apply not_elem_of_dom, is_fresh. }
    destruct (Hfree ino) as (H1 & H2 & H3); [by right|].
    apply (inv_own ino []); auto; [by rewrite Hst|left; apply lookup_insert_eq|].
    intros n Hn. by rewrite lookup_insert_ne.
Qed.

Lemma inv_write ino n m :
  stage t = Writing ino n -> (n + m <= length (data t))%nat -> inv (write i t ino n m s).
Proof using Hs Hmax Hi.
  intros Hst Hle. assert (Hh : holds t = Some (ino, take n (data t))) by (unfold holds; by rewrite Hst).
  destruct (iv_owns s Hs i t ino _ Hi Hh) as [H1 H2 H3 H4].
  apply (inv_own ino (take (n + m) (data t))); auto; [by rewrite Hst| | |].
  - destruct (names s !! tmp i t) as [j|] eqn:E; [left|by right]. by rewrite (H3 j eq_refl).
  - intros j u b Hj Hu. by eapply (iv_excl s Hs).
  - rewrite <- take_take_drop. apply map_eq. intros k. rewrite lookup_insert, lookup_alter.
    case_decide; [subst; by rewrite H1|done].
Qed.

Lemma inv_rename ino ino' :
  stage t = Renaming ino -> names s !! tmp i t = Some ino' -> inv (rename i t ino' s).
Proof using Hs Hmax Hi.
  intros Hst Hn. assert (Hh : holds t = Some (ino, data t)) by (unfold holds; by rewrite Hst).
  destruct (iv_owns s Hs i t ino _ Hi Hh) as [H1 H2 H3 H4]. rewrite (H3 _ Hn). clear H3 Hn ino'.
  set (p := Cache.path_for sha256 (key t)). set (nm := <[p := ino]> (delete (tmp i t) (names s))).
  assert (Hnm : forall n k, nm !! n = Some k -> (n = p /\ k = ino) \/ (n <> p /\ k <> ino /\ names s !! n = Some k)).
  { intros n k. unfold nm. rewrite lookup_insert. case_decide as Hp; [intros [= <-]; by left|].
    intros [Hne Hk]%lookup_delete_Some. right. split_and!; [done| |done]. intros ->. by apply Hne, eq_sym, H2. }
  assert (Hother : forall j u k b, inserts (rename i t ino s) !! j = Some u -> holds u = Some (k, b) ->
    inserts s !! j = Some u /\ j <> i /\ k <> ino).
  { intros j u k b [[-> ->]|[Hne Hj]]%lookup_stage Hu; [done|]. split_and!; [done|done|]. intros ->.
    by apply Hne, (iv_excl s Hs j i u t ino b (data t)). }
  split; cbn [rename set_stage set_files names files readers]; fold p nm.
  - intros n k [[-> ->]|(_ & _ & Hk)]%Hnm; [eauto|by eapply (iv_file s Hs)].
  - intros a b k [[-> ->]|(? & ? & Ha)]%Hnm [[-> Hk]|(? & ? & Hb)]%Hnm; try done. by eapply (iv_inj s Hs).
  - intros j u k b Hj Hu. destruct (Hother j u k b Hj Hu) as (Hj' & Hne & Hk).
    destruct (iv_owns s Hs j u k b Hj' Hu) as [G1 G2 G3 G4]. split; cbn [rename set_stage set_files names files readers]; auto.
    + intros n [[_ ->]|(_ & _ & ?)]%Hnm; [done|auto].
    + intros k' [[Hp _]|(_ & _ & ?)]%Hnm; [|auto]. pose proof (path_not_tmp (key t)) as Hx. fold p in Hx.
      by rewrite <- Hp, tmp_is_tmp in Hx.
  - intros j k u v x b b' Hj Hk Hu Hv. destruct (Hother _ _ _ _ Hj Hu) as (? & _ & _).
    destruct (Hother _ _ _ _ Hk Hv) as (? & _ & _). by eapply (iv_excl s Hs).
  - intros n k b Ht [[-> ->]|(_ & _ & Hn)]%Hnm Hb.
    + exists i, (mkInsert (key t) (data t) (now t) Renamed). split_and!; try done; [|cbn [data]; congruence].
      apply list_lookup_insert_eq. by eapply lookup_lt_Some.
    + destruct (iv_chunk s Hs n k b Ht Hn Hb) as (j & u & Hj & Hu & Hp). exists j, u. split; [|done].
      apply (stage_published i t Renamed (set_files nm (files s) s)); [done|by rewrite Hst|done|done].
  - intros r k b Hr. destruct (iv_reader s Hs r k b Hr) as [G1 G2]. split; [done|].
    intros n [[-> _]|(_ & _ & ?)]%Hnm; [apply path_not_tmp|auto].
Qed.
End busy.

(** ** Refinement *)
Lemma step_inserts s s' : step s s' -> (length (inserts s) <= length (inserts s'))%nat.
Proof using Type.
  intros Hst. destruct Hst; unfold create; try destruct (names s !! _);
    cbn [begin write rename set_stage set_files inserts]; rewrite ?length_app, ?length_insert; lia.
Qed.

Lemma insert_step_inv s s' : inv s -> Z.of_nat (length (inserts s)) <= 2 ^ 64 -> step s s' -> inv s'.
Proof using Type.
  intros Hs Hmax Hst. destruct Hst as [k d t|i t Hi Ht|i t ino n m Hi Ht Hm|i t ino Hi Ht|i t ino ino' Hi Ht Hn
    |i t Hi Ht|n|r n ino b Ht Hn Hb Hr|r].
  - by apply inv_insert_begin.
  - by apply inv_create.
  - by apply inv_write.
  - apply inv_stage; [done|done|by rewrite Ht|]. unfold holds. cbn [stage data]. rewrite Ht. by rewrite firstn_all.
  - by eapply inv_rename.
  - by apply inv_stage.
  - by apply inv_unlink.
  - by eapply inv_open.
  - by apply inv_close.
Qed.

Lemma reachable_inserts s : reachable s -> Z.of_nat (length (inserts s)) <= 2 ^ 64 -> inv s.
Proof using Type.
  induction 1 as [s (Hi & Hr & Hn & Hj)|s s' _ IH Hst]; intros Hmax.
  - split; rewrite ?Hi, ?Hr; try done.
    + intros n ino Hm. by apply (Hn n ino).
    + intros n ino b Ht Hm. destruct (Hn n ino Hm). congruence.
  - pose proof (step_inserts s s' Hst). eapply insert_step_inv; [apply IH; lia|lia|done].
Qed.

Lemma lookup_dir s n : dir s !! n = (names s !! n ≫= fun i => Cache.File <$> files s !! i).
Proof using Type. apply lookup_omap. Qed.

(** A file that no chunk name leads to does not show. *)
Lemma same_chunks s nm fl ino b :
  (forall n, is_tmp n = false -> nm !! n = names s !! n /\ names s !! n <> Some ino) -> fl = <[ino := b]> (files s) ->
  forall n i t st, is_tmp n = false -> dir (set_stage i t st (set_files nm fl s)) !! n = dir s !! n.
Proof using Type.
  intros H -> n i t st Hn. rewrite !lookup_dir. cbn [set_stage set_files names files].
  destruct (H n Hn) as [-> Hne]. destruct (names s !! n) as [k|]; [|done]. simpl.
  rewrite lookup_insert_ne; [done|congruence].
Qed.

Lemma create_hidden s i t n : inv s -> is_tmp n = false -> dir (create i t s) !! n = dir s !! n.
Proof using Type.
  intros Hs. revert n. unfold create. destruct (names s !! tmp i t) as [ino|] eqn:E.
  - intros n. eapply same_chunks; [|done]. intros m Hm. split; [done|]. intros Hx.
    rewrite (iv_inj s Hs m (tmp i t) ino Hx E), tmp_is_tmp in Hm. done.
  - intros n. eapply same_chunks; [|done]. intros m Hm. split.
    + rewrite lookup_insert_ne; [done|]. intros <-. by rewrite tmp_is_tmp in Hm.
    + intros Hx. destruct (iv_file s Hs m _ Hx) as [b Hb]. apply elem_of_dom_2 in Hb. by apply is_fresh in Hb.
Qed.

Lemma write_hidden s i t ino k m n :
  inv s -> inserts s !! i = Some t -> stage t = Writing ino k -> is_tmp n = false ->
  dir (write i t ino k m s) !! n = dir s !! n.
Proof using Type.
  intros Hs Hi Hst. assert (Hh : holds t = Some (ino, take k (data t))) by (unfold holds; by rewrite Hst).
  destruct (iv_owns s Hs i t ino _ Hi Hh) as [H1 H2 _ _].
  eapply (same_chunks _ _ _ ino (take k (data t) ++ take m (drop k (data t)))).
  - intros x Hx. split; [done|]. intros ->%H2. by rewrite tmp_is_tmp in Hx.
  - apply map_eq. intros j. rewrite lookup_insert, lookup_alter. case_decide; [subst; by rewrite H1|done].
Qed.

Lemma rename_publishes s i t ino ino' :
  inv s -> inserts s !! i = Some t -> stage t = Renaming ino -> names s !! tmp i t = Some ino' ->
  let '(d, r) := Cache.insert_file sha256 (tmp i t) None (key t) (data t) (dir s) in
  r = Ok tt /\ forall n, dir (rename i t ino' s) !! n = d !! n.
Proof using Type.
  intros Hs Hi Hst Hn. assert (Hh : holds t = Some (ino, data t)) by (unfold holds; by rewrite Hst).
  destruct (iv_owns s Hs i t ino _ Hi Hh) as [H1 _ H3 _]. rewrite (H3 _ Hn).
  set (p := Cache.path_for sha256 (key t)). set (d := <[p := Cache.File (data t)]> (delete (tmp i t) (dir s))).
  assert (Hf : Cache.insert_file sha256 (tmp i t) None (key t) (data t) (dir s) = (d, Ok tt)).
  { unfold Cache.insert_file. fold p. rewrite lookup_dir. destruct (names s !! p) as [k|]; [|done]. simpl.
    by destruct (files s !! k). }
  rewrite Hf. split; [done|]. intros n. unfold d. rewrite lookup_dir, lookup_insert.
  cbn [rename set_stage set_files names files]. fold p. rewrite lookup_insert. case_decide; [simpl; by rewrite H1|].
  rewrite !lookup_delete. case_decide; [done|]. by rewrite lookup_dir.
Qed.

(** ** Theorem *)

(** C9.  Inserts are atomic: however the system calls of concurrent inserts, evictions, sweeps and
    readers interleave, each of them leaves the chunk files alone, unlinks one name, or is the rename
    that does to the directory exactly what the one-step insert of the cache model does; every chunk
    file holds all the bytes given to one insert of a chunk of that name, and a file that was opened
    keeps the bytes it had, even after it is replaced or evicted.  At most 2^64 inserts keep their
    temporary names apart, whatever the clock says. *)
Theorem inserts_atomic s s' :
  reachable s -> step s s' -> Z.of_nat (length (inserts s')) <= 2 ^ 64 ->
  ((forall n, is_tmp n = false -> dir s' !! n = dir s !! n) \/
   (exists i t, inserts s !! i = Some t /\
      let '(d, r) := Cache.insert_file sha256 (tmp i t) None (key t) (data t) (dir s) in
      r = Ok tt /\ forall n, dir s' !! n = d !! n) \/
   (exists m, forall n, dir s' !! n = delete m (dir s) !! n)) /\
  (forall n b, is_tmp n = false -> dir s' !! n = Some (Cache.File b) ->
     exists i t, inserts s' !! i = Some t /\ Cache.path_for sha256 (key t) = n /\ data t = b) /\
  (forall r ino b, readers s' !! r = Some (ino, b) -> files s' !! ino = Some b).
Proof using Type.
  intros Hr Hst Hmax. assert (Hs' : inv s') by (apply reachable_inserts; [by eapply reach_step|done]).
  pose proof (step_inserts s s' Hst). assert (Hs : inv s) by (apply reachable_inserts; [done|lia]). split_and!.
  - destruct Hst as [k d t|i t Hi Ht|i t ino n m Hi Ht Hm|i t ino Hi Ht|i t ino ino' Hi Ht Hn|i t Hi Ht|n
      |r n ino b Ht Hn Hb Hrd|r]; try by left.
    + left. intros n. by apply create_hidden.
    + left. intros x. by apply write_hidden.
    + right. left. exists i, t. split; [done|]. by eapply rename_publishes.
    + right. right. exists n. intros x. rewrite lookup_dir. cbn [set_files names files].
      rewrite !lookup_delete. case_decide; [done|]. by rewrite lookup_dir.
  - intros n b Hn Hb. rewrite lookup_dir in Hb. destruct (names s' !! n) as [ino|] eqn:En; [|done]. simpl in Hb.
    destruct (files s' !! ino) as [x|] eqn:Ef; [|done]. injection Hb as ->.
    destruct (iv_chunk s' Hs' n ino b Hn En Ef) as (i & t & ? & _ & ? & ?). eauto.
  - intros r ino b Hb. by destruct (iv_reader s' Hs' r ino b Hb).
Qed.
End inserts.

(** Two inserts of one chunk in the same nanosecond: both have created their files, the first has
    written its own and is about to rename it. *)
Definition demo_insert (d : byte) (st : Stage) : Insert := mkInsert (mkChunkKey "m" "b" 0) [d] 5 st.

Definition demo_both : Sys :=
  let s := begin (mkChunkKey "m" "b" 0) [x02] 5 (begin (mkChunkKey "m" "b" 0) [x01] 5 (mkSys ∅ ∅ [] ∅)) in
  create 1 1 (demo_insert x02 Creating) (create 1 0 (demo_insert x01 Creating) s).

Definition demo_written : Sys :=
  set_stage 0 (demo_insert x01 (Writing 0 1)) (Renaming 0) (write 0 (demo_insert x01 (Writing 0 0)) 0 0 1 demo_both).

Lemma demo_written_reachable : reachable (fun l => l) 1 demo_written.
Proof.
  eapply reach_step; [eapply reach_step; [eapply reach_step; [eapply reach_step; [eapply reach_step;
    [eapply reach_step; [apply (reach_start _ _ (mkSys ∅ ∅ [] ∅)); by split_and!|apply step_begin]|apply step_begin]|]|]|]|].
  - by apply (step_create _ _ _ 0 (demo_insert x01 Creating)).
  - by apply (step_create _ _ _ 1 (demo_insert x02 Creating)).
  - by apply (step_write _ _ _ 0 (demo_insert x01 (Writing 0 0)) 0 0 1); [vm_compute; reflexivity| |simpl; lia].
  - apply (step_sync _ _ _ 0 (demo_insert x01 (Writing 0 1)) 0); [vm_compute; reflexivity|done].
Qed.

Lemma inserts_atomic_witness :
  exists s', step (fun l => l) 1 demo_written s' /\
    dir s' !! Cache.path_for (fun l => l) (mkChunkKey "m" "b" 0) = Some (Cache.File [x01]) /\
    exists i t, inserts s' !! i = Some t /\ data t = [x01].
Proof.
  set (s' := rename (fun l => l) 1 0 (demo_insert x01 (Renaming 0)) 0 demo_written).
  assert (Hst : step (fun l => l) 1 demo_written s').
  { by apply (step_rename _ _ _ 0 (demo_insert x01 (Renaming 0)) 0 0); vm_compute. }
  assert (Hd : dir s' !! Cache.path_for (fun l => l) (mkChunkKey "m" "b" 0) = Some (Cache.File [x01]))
    by (vm_compute; reflexivity).
  destruct (inserts_atomic (fun l => l) 1 demo_written s') as (_ & Hw & _);
    [exact demo_written_reachable|exact Hst|vm_compute; discriminate|].
  exists s'. split_and!; [done|done|]. destruct (Hw _ _ (path_not_tmp _ _) Hd) as (i & t & ? & _ & ?). by exists i, t.
Defined.
End Inserts.
