(* ===== verification/Cluster.v ===== *)
(** * Cluster membership (src/src/cluster.rs)

    The membership table and its operations: SWIM-style merge, suspicion and refutation, the
    heartbeat sweep.  [unix_now()] is the argument [now] of every operation that reads the clock;
    the callbacks ([rdma_peer_update_hook], [on_peer_dead]) are the list of calls an operation
    makes, returned next to the new state.  The [HashMap] is a [gmap]; its iteration order is
    unspecified and no theorem depends on it. *)

From S2P Require Import Prelude.

Module Cluster.

(** ** Data *)
Definition HEARTBEAT_TIMEOUT_SECS : Z := 30.

Inductive NodeState : Type := Alive | Suspect | Dead.

#[export] Instance NodeState_eq_decision : EqDecision NodeState.
Proof. solve_decision. Defined.

Definition rank (s : NodeState) : Z :=
  match s with Alive => 0 | Suspect => 1 | Dead => 2 end.

Record NodeInfo := mkNodeInfo {
  id : string;
  transport_url : string;
  gossip_url : string;
  cluster_hash : string;
  ucx_worker_addr_b64 : option string;
  last_seen_unix : Z;
  state : NodeState;
  incarnation : Z;
  bloom_version : Z
}.

#[export] Instance NodeInfo_eq_decision : EqDecision NodeInfo.
Proof. solve_decision. Defined.

Record GossipPayload := mkGossipPayload {
  from : NodeInfo;
  payload_members : list NodeInfo
}.

Record ClusterStats := mkClusterStats {
  joins : Z;
  failures : Z;
  gossip_rounds : Z;
  config_mismatches : Z
}.

Record Membership := mkMembership {
  me_id : string;
  me_template : NodeInfo;
  me_incarnation : Z;
  me_bloom_version : Z;
  members : gmap string NodeInfo;
  stats : ClusterStats
}.

Definition set_members (g : gmap string NodeInfo) (m : Membership) : Membership :=
  mkMembership (me_id m) (me_template m) (me_incarnation m) (me_bloom_version m) g (stats m).
Definition set_incarnation (i : Z) (m : Membership) : Membership :=
  mkMembership (me_id m) (me_template m) i (me_bloom_version m) (members m) (stats m).
Definition set_stats (s : ClusterStats) (m : Membership) : Membership :=
  mkMembership (me_id m) (me_template m) (me_incarnation m) (me_bloom_version m) (members m) s.

Definition inc_joins (s : ClusterStats) : ClusterStats :=
  mkClusterStats (wadd64 (joins s) 1) (failures s) (gossip_rounds s) (config_mismatches s).
Definition add_failures (n : Z) (s : ClusterStats) : ClusterStats :=
  mkClusterStats (joins s) (wadd64 (failures s) n) (gossip_rounds s) (config_mismatches s).
Definition inc_gossip_rounds (s : ClusterStats) : ClusterStats :=
  mkClusterStats (joins s) (failures s) (wadd64 (gossip_rounds s) 1) (config_mismatches s).
Definition inc_config_mismatches (s : ClusterStats) : ClusterStats :=
  mkClusterStats (joins s) (failures s) (gossip_rounds s) (wadd64 (config_mismatches s) 1).

(** The template of this node with the fields [me_snapshot] and [merge] overwrite. *)
Definition me_with (t : NodeInfo) (inc bloom now : Z) : NodeInfo :=
  mkNodeInfo (id t) (transport_url t) (gossip_url t) (cluster_hash t) (ucx_worker_addr_b64 t)
    now Alive inc bloom.

(** ** Operations *)
Definition new (me : NodeInfo) (st : ClusterStats) : Membership :=
  mkMembership (id me) me (Z.max (incarnation me) 1) (bloom_version me) {[id me := me]} st.

Definition me_snapshot (now : Z) (m : Membership) : NodeInfo :=
  me_with (me_template m) (me_incarnation m) (me_bloom_version m) now.

Definition set_bloom_version (v : Z) (m : Membership) : Membership :=
  mkMembership (me_id m) (me_template m) (me_incarnation m) v (members m) (stats m).

Definition members_all (m : Membership) : list NodeInfo := (map_to_list (members m)).*2.

Definition members_alive (m : Membership) : list NodeInfo :=
  filter (fun n => state n = Alive /\ id n <> me_id m /\
                   cluster_hash n = cluster_hash (me_template m)) (members_all m).

(** The precedence test of [merge]. *)
Definition should_update (n existing : NodeInfo) : bool :=
  (incarnation existing <? incarnation n)
  || ((incarnation n =? incarnation existing)
      && (last_seen_unix existing <? last_seen_unix n))
  || ((incarnation n =? incarnation existing)
      && (last_seen_unix n =? last_seen_unix existing)
      && (rank (state existing) <? rank (state n))).

(** The branch of [merge] for an entry about this node. *)
Definition merge_self (now : Z) (n : NodeInfo) (m : Membership) : Membership :=
  let our_inc := me_incarnation m in
  let claims_we_are_down := negb (bool_decide (state n = Alive)) in
  let m :=
    if (our_inc <? incarnation n) || ((incarnation n =? our_inc) && claims_we_are_down)
    then set_incarnation (wadd64 (Z.max (incarnation n) our_inc) 1) m
    else m in
  set_members
    (<[me_id m := me_with (me_template m) (me_incarnation m) (bloom_version (me_template m)) now]>
       (members m)) m.

(** The body of the loop of [merge], with the peers to report to the RDMA hook. *)
Definition merge_one (now : Z) (acc : Membership * list NodeInfo) (n : NodeInfo)
    : Membership * list NodeInfo :=
  let '(m, ups) := acc in
  if bool_decide (id n = me_id m) then (merge_self now n m, ups)
  else if negb (bool_decide (cluster_hash n = cluster_hash (me_template m)))
  then (set_stats (inc_config_mismatches (stats m)) m, ups)
  else match members m !! id n with
  | Some existing =>
      if should_update n existing then
        (set_members (<[id n := n]> (members m)) m,
         if bool_decide (ucx_worker_addr_b64 existing = ucx_worker_addr_b64 n)
         then ups else ups ++ [n])
      else (m, ups)
  | None =>
      (set_stats (inc_joins (stats m)) (set_members (<[id n := n]> (members m)) m), ups ++ [n])
  end.

Definition merge (now : Z) (incoming : list NodeInfo) (m : Membership)
    : Membership * list NodeInfo :=
  foldl (merge_one now) (m, []) incoming.

Definition touched (now : Z) (n : NodeInfo) : NodeInfo :=
  mkNodeInfo (id n) (transport_url n) (gossip_url n) (cluster_hash n) (ucx_worker_addr_b64 n)
    now Alive (incarnation n) (bloom_version n).

Definition touch_peer (now : Z) (i : string) (m : Membership) : Membership :=
  match members m !! i with
  | Some n => set_members (<[i := touched now n]> (members m)) m
  | None => m
  end.

(** The state [sweep] gives a peer last seen [age] seconds ago. *)
Definition age_state (age : Z) : NodeState :=
  if HEARTBEAT_TIMEOUT_SECS * 2 <? age then Dead
  else if HEARTBEAT_TIMEOUT_SECS <? age then Suspect
  else Alive.

Definition set_state (s : NodeState) (n : NodeInfo) : NodeInfo :=
  mkNodeInfo (id n) (transport_url n) (gossip_url n) (cluster_hash n) (ucx_worker_addr_b64 n)
    (last_seen_unix n) s (incarnation n) (bloom_version n).

Definition sweep_one (now : Z) (me : string) (i : string) (n : NodeInfo) : NodeInfo :=
  if bool_decide (i = me) then n
  else set_state (age_state (sat_sub now (last_seen_unix n))) n.

(** The entries that turn [Dead] in a sweep. *)
Definition newly_dead (now : Z) (m : Membership) : list string :=
  (filter (fun p => p.1 <> me_id m /\ state p.2 <> Dead /\
                    age_state (sat_sub now (last_seen_unix p.2)) = Dead)
     (map_to_list (members m))).*1.

(** The new table and the calls to [on_peer_dead]. *)
Definition sweep (now : Z) (m : Membership) : Membership * list string :=
  let dead := newly_dead now m in
  let m' := set_members (map_imap (fun i n => Some (sweep_one now (me_id m) i n)) (members m)) m in
  (set_stats (add_failures (len dead) (stats m')) m', dead).

(** ** Precedence

    [merge] orders records by incarnation, then by recency, then by severity. *)
Definition stamp (n : NodeInfo) : Z * Z * Z :=
  (incarnation n, last_seen_unix n, rank (state n)).

Definition stamp_lt (a b : Z * Z * Z) : bool :=
  (a.1.1 <? b.1.1)
  || ((a.1.1 =? b.1.1) && (a.1.2 <? b.1.2))
  || ((a.1.1 =? b.1.1) && (a.1.2 =? b.1.2) && (a.2 <? b.2)).

Definition stamp_max (a b : Z * Z * Z) : Z * Z * Z := if stamp_lt a b then b else a.

(** The greatest stamp of an optional record and a list of records. *)
Definition omax (o : option (Z * Z * Z)) (s : Z * Z * Z) : option (Z * Z * Z) :=
  Some (match o with Some a => stamp_max a s | None => s end).

(** What the table says about the recency of node [i]. *)
Definition view (m : Membership) (i : string) : option (Z * Z * Z) := stamp <$> members m !! i.

(** The entries of a gossip message that can change the record of peer [i]. *)
Definition relevant (m : Membership) (i : string) (l : list NodeInfo) : list NodeInfo :=
  filter (fun n => id n = i /\ cluster_hash n = cluster_hash (me_template m)) l.

(** The record of one peer after one entry about it. *)
Definition upd (o : option NodeInfo) (n : NodeInfo) : option NodeInfo :=
  match o with
  | Some e => if should_update n e then Some n else Some e
  | None => Some n
  end.

(** ** The invariant *)
Record wf (m : Membership) : Prop := {
  wf_me : id (me_template m) = me_id m;
  wf_ids i n : members m !! i = Some n ->
    id n = i /\ cluster_hash n = cluster_hash (me_template m);
  wf_self : exists n, members m !! me_id m = Some n /\ state n = Alive
}.

(** The operations other tasks of the daemon run on the shared table, in any order. *)
Inductive step : Membership -> Membership -> Prop :=
| step_merge now l m : step m (merge now l m).1
| step_touch now i m : step m (touch_peer now i m)
| step_sweep now m : step m (sweep now m).1
| step_bloom v m : step m (set_bloom_version v m).

Inductive reachable (m0 : Membership) : Membership -> Prop :=
| reach_refl : reachable m0 m0
| reach_step m m' : reachable m0 m -> step m m' -> reachable m0 m'.

(** ** Lemmas on stamps *)
Lemma stamp_lt_iff a b :
  stamp_lt a b = true <->
  a.1.1 < b.1.1 \/ (a.1.1 = b.1.1 /\ (a.1.2 < b.1.2 \/ (a.1.2 = b.1.2 /\ a.2 < b.2))).
Proof.
  unfold stamp_lt. rewrite !orb_true_iff, !andb_true_iff, !Z.ltb_lt, !Z.eqb_eq. lia.
Qed.

Lemma stamp_lt_trans a b c : stamp_lt a b = true -> stamp_lt b c = true -> stamp_lt a c = true.
Proof. rewrite !stamp_lt_iff. lia. Qed.

Lemma stamp_lt_asym a b : stamp_lt a b = true -> stamp_lt b a = false.
Proof. rewrite <- not_true_iff_false, !stamp_lt_iff. lia. Qed.

Lemma stamp_lt_total a b : stamp_lt a b = false -> stamp_lt b a = false -> a = b.
Proof.
  destruct a as [[??]?], b as [[??]?].
  rewrite <- !not_true_iff_false, !stamp_lt_iff. simpl. intros. repeat f_equal; lia.
Qed.

Lemma stamp_lt_ntrans a b c :
  stamp_lt a b = false -> stamp_lt b c = false -> stamp_lt a c = false.
Proof. rewrite <- !not_true_iff_false, !stamp_lt_iff. lia. Qed.

Lemma should_update_stamp n e : should_update n e = stamp_lt (stamp e) (stamp n).
Proof.
  unfold should_update, stamp_lt, stamp; simpl.
  by rewrite (Z.eqb_sym (incarnation n)), (Z.eqb_sym (last_seen_unix n)).
Qed.

Lemma stamp_max_comm a b : stamp_max a b = stamp_max b a.
Proof.
  unfold stamp_max. destruct (stamp_lt a b) eqn:E1; [by rewrite (stamp_lt_asym _ _ E1)|].
  destruct (stamp_lt b a) eqn:E2; [done|]. by apply stamp_lt_total.
Qed.

Lemma stamp_max_assoc a b c : stamp_max a (stamp_max b c) = stamp_max (stamp_max a b) c.
Proof.
  unfold stamp_max. destruct (stamp_lt b c) eqn:E1, (stamp_lt a b) eqn:E2; rewrite ?E1, ?E2; try done.
  - by rewrite (stamp_lt_trans _ _ _ E2 E1).
  - by rewrite (stamp_lt_ntrans _ _ _ E2 E1).
Qed.

Lemma stamp_max_idemp a : stamp_max a a = a.
Proof. unfold stamp_max. by destruct (stamp_lt a a). Qed.

Lemma omax_comm o a b : omax (omax o a) b = omax (omax o b) a.
Proof.
  destruct o as [s|]; simpl; unfold omax; f_equal.
  - by rewrite <- !stamp_max_assoc, (stamp_max_comm a).
  - apply stamp_max_comm.
Qed.

Lemma omax_idemp o a : omax (omax o a) a = omax o a.
Proof.
  destruct o as [s|]; simpl; unfold omax; f_equal; [|apply stamp_max_idemp].
  by rewrite <- stamp_max_assoc, stamp_max_idemp.
Qed.

Lemma foldl_omax_permutation l l' o :
  l ≡ₚ l' -> foldl omax o l = foldl omax o l'.
Proof.
  intros H. revert o. induction H as [|x l l' _ IH|x y l|l1 l2 l3 _ IH1 _ IH2]; intros o; simpl.
  - done.
  - apply IH.
  - by rewrite omax_comm.
  - by rewrite IH1.
Qed.

Lemma foldl_omax_absorb l o a : foldl omax (omax o a) l = omax (foldl omax o l) a.
Proof.
  revert o. induction l as [|x l IH]; intros o; simpl; [done|]. by rewrite omax_comm, IH.
Qed.

Lemma upd_stamp o n : stamp <$> upd o n = omax (stamp <$> o) (stamp n).
Proof.
  destruct o as [e|]; [|done]. unfold upd, omax. rewrite should_update_stamp.
  change (stamp <$> Some e) with (Some (stamp e)). unfold stamp_max.
  by destruct (stamp_lt (stamp e) (stamp n)).
Qed.

Lemma foldl_upd_stamp o l : stamp <$> foldl upd o l = foldl omax (stamp <$> o) (stamp <$> l).
Proof.
  revert o. induction l as [|n l IH]; intros o; simpl; [done|]. by rewrite IH, upd_stamp.
Qed.

(** The record kept is one of the candidates. *)
Lemma foldl_upd_in o l r : foldl upd o l = Some r -> o = Some r \/ r ∈ l.
Proof.
  revert o. induction l as [|n l IH]; intros o; simpl; [auto|].
  intros [H|H]%IH; [|set_solver]. unfold upd in H. repeat case_match; simplify_eq; set_solver.
Qed.

Lemma foldl_upd_is_Some o l n : o = Some n \/ n ∈ l -> is_Some (foldl upd o l).
Proof.
  assert (Hs : forall l x, is_Some (foldl upd (Some x) l)).
  { clear. induction l as [|y l IH]; intros x; simpl; [done|]. case_match; apply IH. }
  revert o. induction l as [|x l IH]; intros o; simpl; [intros [->|?%not_elem_of_nil]; done|].
  intros _. unfold upd at 2. repeat case_match; apply Hs.
Qed.

(** ** Lemmas on the operations *)
Lemma merge_self_frame now n m :
  me_id (merge_self now n m) = me_id m /\ me_template (merge_self now n m) = me_template m /\
  (forall i, i <> me_id m -> members (merge_self now n m) !! i = members m !! i).
Proof.
  unfold merge_self. case_match; simpl; split_and!; try done; intros i Hi;
    by rewrite lookup_insert_ne.
Qed.

Lemma merge_one_frame now acc n :
  me_id (merge_one now acc n).1 = me_id acc.1 /\
  me_template (merge_one now acc n).1 = me_template acc.1.
Proof.
  destruct acc as [m ups]. unfold merge_one.
  destruct (merge_self_frame now n m) as (? & ? & _). repeat case_match; done.
Qed.

Lemma merge_one_member now acc n i :
  i <> me_id acc.1 ->
  members (merge_one now acc n).1 !! i
  = if decide (id n = i /\ cluster_hash n = cluster_hash (me_template acc.1))
    then upd (members acc.1 !! i) n else members acc.1 !! i.
Proof.
  destruct acc as [m ups]. unfold merge_one. simpl. intros Hi.
  destruct (merge_self_frame now n m) as (_ & _ & Hs).
  case_bool_decide as Hme; simpl.
  { rewrite Hs by done. rewrite decide_False; [done|]. naive_solver. }
  case_bool_decide as Hh; simpl; [|rewrite decide_False; [done|tauto]].
  destruct (decide (id n = i)) as [<-|Hne].
  - rewrite decide_True by done. unfold upd.
    destruct (members m !! id n) as [e|] eqn:E; simpl; [case_match|]; simpl;
      rewrite ?lookup_insert_eq; done.
  - rewrite decide_False by tauto. repeat case_match; simpl; rewrite ?lookup_insert_ne; done.
Qed.

Lemma merge_fold_frame now l acc :
  me_id (foldl (merge_one now) acc l).1 = me_id acc.1 /\
  me_template (foldl (merge_one now) acc l).1 = me_template acc.1.
Proof.
  revert acc. induction l as [|n l IH]; intros acc; simpl; [done|].
  destruct (IH (merge_one now acc n)) as [-> ->]. apply merge_one_frame.
Qed.

Lemma merge_fold_member now l acc i :
  i <> me_id acc.1 ->
  members (foldl (merge_one now) acc l).1 !! i
  = foldl upd (members acc.1 !! i) (relevant acc.1 i l).
Proof.
  revert acc. induction l as [|n l IH]; intros acc Hi; simpl; [done|].
  destruct (merge_one_frame now acc n) as [Hid Ht].
  rewrite IH by congruence. unfold relevant. rewrite Ht, filter_cons, merge_one_member by done.
  by case_decide.
Qed.

(** The whole effect of [merge] on a peer's record. *)
Lemma merge_member now l m i :
  i <> me_id m -> members (merge now l m).1 !! i = foldl upd (members m !! i) (relevant m i l).
Proof. intros. by apply (merge_fold_member now l (m, [])). Qed.

Lemma merge_frame now l m :
  me_id (merge now l m).1 = me_id m /\ me_template (merge now l m).1 = me_template m.
Proof. apply (merge_fold_frame now l (m, [])). Qed.

Lemma merge_view now l m i :
  i <> me_id m -> view (merge now l m).1 i = foldl omax (view m i) (stamp <$> relevant m i l).
Proof. intros. unfold view. by rewrite merge_member, foldl_upd_stamp. Qed.

Lemma elem_of_members_all m n : n ∈ members_all m <-> exists i, members m !! i = Some n.
Proof.
  unfold members_all. rewrite list_elem_of_fmap. split.
  - intros ([i n'] & -> & H%elem_of_map_to_list). eauto.
  - intros [i H]. exists (i, n). split; [done|]. by apply elem_of_map_to_list.
Qed.

(** A well-formed table of the same cluster says exactly one thing about each node. *)
Lemma relevant_members_all m m' i :
  wf m' -> cluster_hash (me_template m) = cluster_hash (me_template m') ->
  relevant m i (members_all m') ≡ₚ option_list (members m' !! i).
Proof.
  intros Hw Hh. unfold relevant, members_all.
  rewrite filter_fmap_list. transitivity ((option_list ((fun n => (i, n)) <$> members m' !! i)).*2).
  2: by destruct (members m' !! i).
  apply fmap_Permutation, NoDup_Permutation.
  - apply NoDup_filter, NoDup_map_to_list.
  - destruct (members m' !! i); simpl; [apply NoDup_singleton|apply NoDup_nil_2].
  - intros [j n]. rewrite list_elem_of_filter, elem_of_map_to_list. simpl. split.
    + intros ([Hi _] & Hj). destruct (wf_ids _ Hw _ _ Hj) as [<- _]. subst. rewrite Hj.
      simpl. set_solver.
    + destruct (members m' !! i) as [n'|] eqn:E; simpl; [|set_solver].
      rewrite list_elem_of_singleton. intros [= -> ->].
      destruct (wf_ids _ Hw _ _ E) as [? ?]. by rewrite Hh.
Qed.

(** Touching and sweeping a record keep its identity and incarnation. *)
Lemma sweep_lookup now m i :
  members (sweep now m).1 !! i = sweep_one now (me_id m) i <$> members m !! i.
Proof. simpl. rewrite map_lookup_imap. by destruct (members m !! i). Qed.

Lemma sweep_one_frame now me i n :
  id (sweep_one now me i n) = id n /\ cluster_hash (sweep_one now me i n) = cluster_hash n /\
  incarnation (sweep_one now me i n) = incarnation n.
Proof. unfold sweep_one. by case_bool_decide. Qed.

Lemma touch_lookup now i m j :
  members (touch_peer now i m) !! j
  = if decide (i = j) then touched now <$> members m !! j else members m !! j.
Proof.
  unfold touch_peer. case_decide as Hd.
  - subst. destruct (members m !! j) eqn:E; simpl; [by rewrite lookup_insert_eq|done].
  - destruct (members m !! i); simpl; [by rewrite lookup_insert_ne|done].
Qed.

Lemma touch_frame now i m :
  me_id (touch_peer now i m) = me_id m /\ me_template (touch_peer now i m) = me_template m /\
  me_incarnation (touch_peer now i m) = me_incarnation m.
Proof. unfold touch_peer. by case_match. Qed.

(** ** The invariant is preserved *)
Lemma merge_self_entry now n m :
  exists n', members (merge_self now n m) !! me_id m = Some n' /\ state n' = Alive /\
    id n' = id (me_template m) /\ cluster_hash n' = cluster_hash (me_template m).
Proof.
  unfold merge_self. case_match; simpl; eexists; rewrite lookup_insert_eq; split_and!; done.
Qed.

Lemma merge_one_wf now acc n : wf acc.1 -> wf (merge_one now acc n).1.
Proof.
  intros Hw. destruct (merge_one_frame now acc n) as [Hid Ht]. split.
  - rewrite Hid, Ht. apply (wf_me _ Hw).
  - intros i r Hr. rewrite Ht. destruct (decide (i = me_id acc.1)) as [->|Hi].
    + destruct acc as [m ups]. simpl in *. unfold merge_one in Hr.
      destruct (merge_self_entry now n m) as (n' & Hn' & _ & Hid' & Hh').
      rewrite (wf_me _ Hw) in Hid'. case_bool_decide as Hme.
      { cbn [fst] in Hr. rewrite Hn' in Hr. by injection Hr as <-. }
      clear n' Hn' Hid' Hh'.
      repeat case_match; simpl in Hr; rewrite ?lookup_insert_ne in Hr by done;
        by apply (wf_ids _ Hw).
    + rewrite merge_one_member in Hr by done. case_decide as Hd; [|by apply (wf_ids _ Hw)].
      unfold upd in Hr. repeat case_match; simplify_eq; try done. by apply (wf_ids _ Hw).
  - rewrite Hid. destruct acc as [m ups]. simpl in *. unfold merge_one.
    destruct (merge_self_entry now n m) as (n' & ? & ? & _).
    case_bool_decide; simpl; [eauto|].
    repeat case_match; simpl; rewrite ?lookup_insert_ne by done; apply (wf_self _ Hw).
Qed.

Lemma merge_wf now l m : wf m -> wf (merge now l m).1.
Proof.
  unfold merge. change m with ((m, @nil NodeInfo).1) at 1. generalize (m, @nil NodeInfo).
  induction l as [|n l IH]; intros acc Hw; simpl; [done|]. by apply IH, merge_one_wf.
Qed.

Lemma touch_wf now i m : wf m -> wf (touch_peer now i m).
Proof.
  intros Hw. destruct (touch_frame now i m) as (Hid & Ht & _). split.
  - rewrite Hid, Ht. apply (wf_me _ Hw).
  - intros j n. rewrite touch_lookup, Ht. case_decide; [|apply (wf_ids _ Hw)].
    intros (n0 & Hn & ->)%fmap_Some. destruct (wf_ids _ Hw _ _ Hn). done.
  - rewrite Hid. destruct (wf_self _ Hw) as (n & Hn & Hs).
    rewrite touch_lookup, Hn. case_decide; simpl; eauto.
Qed.

Lemma sweep_wf now m : wf m -> wf (sweep now m).1.
Proof.
  intros Hw. split; [apply (wf_me _ Hw)| |].
  - intros i n. rewrite sweep_lookup. intros (n0 & Hn & ->)%fmap_Some.
    destruct (sweep_one_frame now (me_id m) i n0) as (-> & -> & _). by apply (wf_ids _ Hw).
  - destruct (wf_self _ Hw) as (n & Hn & Hs). exists n. rewrite sweep_lookup.
    change (me_id (sweep now m).1) with (me_id m).
    rewrite Hn. unfold sweep_one. by rewrite bool_decide_true by done.
Qed.

Lemma step_wf m m' : step m m' -> wf m -> wf m'.
Proof.
  destruct 1; intros Hw; [by apply merge_wf|by apply touch_wf|by apply sweep_wf|].
  destruct Hw. by split.
Qed.

Lemma step_me m m' : step m m' -> me_id m' = me_id m.
Proof. destruct 1; [apply merge_frame|apply touch_frame|done..]. Qed.

Lemma foldl_upd_incarnation l n :
  exists n', foldl upd (Some n) l = Some n' /\ incarnation n <= incarnation n'.
Proof.
  revert n. induction l as [|x l IH]; intros n; simpl; [eauto with lia|].
  destruct (should_update x n) eqn:E; [|apply IH]. destruct (IH x) as (n' & -> & ?).
  exists n'. split; [done|]. rewrite should_update_stamp in E. apply stamp_lt_iff in E.
  simpl in E. lia.
Qed.

Lemma step_incarnation m m' i n :
  step m m' -> i <> me_id m -> members m !! i = Some n ->
  exists n', members m' !! i = Some n' /\ incarnation n <= incarnation n'.
Proof.
  destruct 1; intros Hi Hn.
  - rewrite merge_member, Hn by done. apply foldl_upd_incarnation.
  - rewrite touch_lookup, Hn. case_decide; simpl; eexists; (split; [done|simpl; lia]).
  - rewrite sweep_lookup, Hn. destruct (sweep_one_frame now (me_id m) i n) as (_ & _ & ?).
    simpl. eexists. split; [done|]. lia.
  - exists n. split; [done|lia].
Qed.

(** A claim about this node bumps the incarnation past every claim that it is down. *)
Lemma merge_fold_incarnation now l acc B :
  me_incarnation acc.1 <= B -> Forall (fun n => incarnation n <= B) l ->
  0 <= me_incarnation acc.1 -> B + len l <= u64_max ->
  let m' := (foldl (merge_one now) acc l).1 in
  me_incarnation acc.1 <= me_incarnation m' /\
  forall n, n ∈ l -> id n = me_id acc.1 ->
    incarnation n <= me_incarnation m' /\ (state n <> Alive -> incarnation n < me_incarnation m').
Proof.
  revert acc B. induction l as [|x l IH]; intros acc B HB Hl H0 Hlen; simpl.
  { split; [lia|]. intros n Hn. by apply not_elem_of_nil in Hn. }
  apply Forall_cons in Hl as [Hx Hl]. rewrite len_cons in Hlen. pose proof (len_nonneg l).
  destruct (merge_one_frame now acc x) as [Hid _].
  assert (Hone : me_incarnation acc.1 <= me_incarnation (merge_one now acc x).1 <= B + 1 /\
    (id x = me_id acc.1 -> incarnation x <= me_incarnation (merge_one now acc x).1 /\
      (state x <> Alive -> incarnation x < me_incarnation (merge_one now acc x).1))).
  { destruct acc as [m ups]. simpl in *. unfold merge_one. case_bool_decide as Hme.
    - unfold merge_self. destruct (_ || _) eqn:E; simpl.
      + rewrite wadd64_small by lia. split; [lia|]. intros _. split; [lia|]. intros _. lia.
      + apply orb_false_iff in E as [E1 E2]. apply Z.ltb_ge in E1. split; [lia|]. intros _.
        split; [lia|]. intros Hs. apply andb_false_iff in E2 as [E2|E2]; [case_bool; lia|].
        rewrite bool_decide_false in E2 by done. done.
    - repeat case_match; simpl; split; try lia; done. }
  destruct Hone as [Hmono Hxx].
  destruct (IH (merge_one now acc x) (B + 1)) as [Hm Hn]; [lia| |lia|lia|].
  { eapply Forall_impl; [exact Hl|]. simpl. lia. }
  split; [lia|]. intros n Hin Hnid. apply elem_of_cons in Hin as [->|Hin].
  - destruct (Hxx Hnid) as [? Hx2]. split; [lia|]. intros Hs. specialize (Hx2 Hs). lia.
  - apply Hn; [done|congruence].
Qed.

(** The record of a peer that the whole message says nothing newer about. *)
Lemma foldl_omax_upper o l r :
  foldl omax o l = Some r ->
  forall s, o = Some s \/ s ∈ l -> stamp_lt r s = false.
Proof.
  intros Hr s Hs.
  assert (Ha : omax (foldl omax o l) s = foldl omax o l).
  { destruct Hs as [->|Hs].
    - rewrite <- foldl_omax_absorb. f_equal. unfold omax. by rewrite stamp_max_idemp.
    - apply list_elem_of_split in Hs as (l1 & l2 & ->). rewrite !foldl_app. simpl.
      by rewrite <- (foldl_omax_absorb l2), omax_idemp. }
  rewrite Hr in Ha. injection Ha as Ha. unfold stamp_max in Ha.
  destruct (stamp_lt r s) eqn:E; [|done]. subst. pose proof (stamp_lt_asym _ _ E). congruence.
Qed.

Lemma membership_new_wf me st : state me = Alive -> wf (new me st).
Proof.
  intros Hs. split; cbn [new members me_id me_template]; [done| |].
  - intros i n Hn. apply lookup_singleton_Some in Hn as [<- <-]. done.
  - exists me. split; [apply lookup_singleton_eq|done].
Qed.

(** ** Theorems *)

(** What is known about the peer [i] when the message [l] is merged: its record, and the entries
    of the message about it that carry this cluster's hash. *)
Definition candidate (m : Membership) (i : string) (l : list NodeInfo) (n : NodeInfo) : Prop :=
  members m !! i = Some n \/ (n ∈ l /\ id n = i /\ cluster_hash n = cluster_hash (me_template m)).

Lemma candidate_relevant m i l n : candidate m i l n <-> members m !! i = Some n \/ n ∈ relevant m i l.
Proof. unfold candidate, relevant. rewrite list_elem_of_filter. tauto. Qed.


Definition demo_node (i : string) (inc seen : Z) (s : NodeState) : NodeInfo :=
  mkNodeInfo i ("http://" +:+ i) ("http://" +:+ i) "h" None seen s inc 7.

Definition demo_stats : ClusterStats := mkClusterStats 0 0 0 0.

(** A one-node cluster named [a]. *)
Definition demo : Membership := new (demo_node "a" 1 100 Alive) demo_stats.


(** A node refutes rumours of its death: after merging a message that claims it is suspect or
    dead, its own entry is alive, its incarnation exceeds the one of the claim, and any peer that
    still holds the claim replaces it by the node's next announcement (given that no incarnation
    in the message is within the message's length of 2^64). *)
Lemma merge_refutes now now' l m n p B :
  wf m -> n ∈ l -> id n = me_id m -> state n <> Alive ->
  0 <= me_incarnation m <= B -> Forall (fun x => incarnation x <= B) l -> B + len l <= u64_max ->
  me_id p <> me_id m -> cluster_hash (me_template p) = cluster_hash (me_template m) ->
  members p !! me_id m = Some n ->
  let m' := (merge now l m).1 in
  incarnation n < me_incarnation m' /\
  (exists s, members m' !! me_id m = Some s /\ state s = Alive) /\
  members (merge now' [me_snapshot now' m'] p).1 !! me_id m = Some (me_snapshot now' m').
Proof.
  intros Hw Hn Hid Hst HB Hl Hlen Hp Hh Hold. simpl.
  destruct (merge_frame now l m) as [Hme Ht].
  destruct (merge_fold_incarnation now l (m, []) B) as [_ Hinc]; simpl; [lia|done|lia|lia|].
  destruct (Hinc n Hn Hid) as [_ Hlt]. specialize (Hlt Hst). fold (merge now l m) in Hlt.
  split_and!; [done| |].
  - destruct (wf_self _ (merge_wf now l m Hw)) as (s & Hs & ?). rewrite Hme in Hs. eauto.
  - rewrite merge_member by done. unfold relevant.
    rewrite filter_cons_True, filter_nil.
    + simpl. rewrite Hold. simpl. rewrite should_update_stamp.
      rewrite (proj2 (stamp_lt_iff _ _)); [done|]. simpl. lia.
    + simpl. rewrite Ht. split; [apply (wf_me _ Hw)|done].
Qed.



(** [sweep] classifies every peer by the age of its last heartbeat: alive up to 30 seconds,
    suspect up to 60, dead beyond, whatever it was before; the death callback runs exactly once
    for each peer that turns dead in this sweep, and this node's own entry is left alone. *)
Lemma sweep_classifies now m i n :
  members m !! i = Some n -> i <> me_id m ->
  let age := sat_sub now (last_seen_unix n) in
  (exists n', members (sweep now m).1 !! i = Some n' /\
     state n' = (if age <=? 30 then Alive else if age <=? 60 then Suspect else Dead) /\
     last_seen_unix n' = last_seen_unix n /\ incarnation n' = incarnation n) /\
  (i ∈ (sweep now m).2 <-> state n <> Dead /\ 60 < age) /\
  NoDup (sweep now m).2 /\
  members (sweep now m).1 !! me_id m = members m !! me_id m.
Proof.
  intros Hn Hi age. split_and!.
  - rewrite sweep_lookup, Hn. simpl. unfold sweep_one. rewrite bool_decide_false by done.
    eexists. split_and!; [done| |done|done]. simpl. fold age.
    unfold age_state, HEARTBEAT_TIMEOUT_SECS.
    destruct (Z.ltb_spec (30 * 2) age), (Z.ltb_spec 30 age), (Z.leb_spec age 30), (Z.leb_spec age 60);
      done || lia.
  - simpl. unfold newly_dead. rewrite list_elem_of_fmap.
    assert (Hage : age_state age = Dead <-> 60 < age).
    { unfold age_state, HEARTBEAT_TIMEOUT_SECS.
      destruct (Z.ltb_spec (30 * 2) age), (Z.ltb_spec 30 age); split; done || lia. }
    split.
    + intros ([j n'] & -> & Hj). apply list_elem_of_filter in Hj as [(_ & Hs & Ha) Hj].
      apply elem_of_map_to_list in Hj. simpl in *. simplify_eq. tauto.
    + intros [Hs Ha]. exists (i, n). split; [done|]. apply list_elem_of_filter. simpl.
      rewrite elem_of_map_to_list. tauto.
  - simpl. unfold newly_dead. apply NoDup_fmap_fst.
    + intros x y1 y2 H1 H2. apply list_elem_of_filter in H1 as [_ H1], H2 as [_ H2].
      apply elem_of_map_to_list in H1, H2. congruence.
    + apply NoDup_filter, NoDup_map_to_list.
  - rewrite sweep_lookup. destruct (members m !! me_id m); simpl; [|done].
    unfold sweep_one. by rewrite bool_decide_true.
Qed.

End Cluster.
