(* ===== verification/PeerIndex.v ===== *)
(** * Bloom filters and peer selection (src/src/peerindex.rs)

    The Bloom filter a node advertises, its wire form, the index of the peers' filters, and the
    rendezvous-hash ranking of peers.  SHA-256 is the parameter [sha256].  The interleaving of
    inserters and rebuilders, each with its own critical sections, is the [step] relation of
    module [Publish]. *)

From S2P Require Import Prelude ChunkKeys Cluster.

(** ** The filter *)
Module Bloom.

Definition BLOOM_K : nat := 4.

Record Bloom := mkBloom {
  bits : list Z;
  m_bits : Z
}.

#[export] Instance Bloom_eq_decision : EqDecision Bloom.
Proof. solve_decision. Defined.

Definition new (m : Z) : Bloom :=
  let m := Z.max m 64 in
  let words := div_ceil m 64 in
  mkBloom (replicate (Z.to_nat words) 0) m.

(** [payload.chunks_exact(8)], decoded. *)
Fixpoint read_words (n : nat) (payload : list byte) : list Z :=
  match n with
  | O => []
  | S n' => le_val (take 8 payload) :: read_words n' (drop 8 payload)
  end.

Definition from_bytes (b : list byte) : option Bloom :=
  if len b <? 8 then None else
  let m := le_val (take 8 b) in
  if m <? 64 then None else
  let words := div_ceil m 64 in
  let payload := drop 8 b in
  if negb (len payload =? words * 8) then None else
  Some (mkBloom (read_words (Z.to_nat words) payload) m).

Definition to_bytes (b : Bloom) : list byte :=
  le_bytes 8 (m_bits b) ++ (bits b ≫= le_bytes 8).

Definition bit_pos (d : list byte) (i : nat) (m : Z) : Z :=
  let h1 := le_val (slice d 0 8) in
  let h2 := le_val (slice d 8 16) in
  let h := wadd64 h1 (wmul64 (Z.of_nat i) h2) in
  h mod m.

(** [self.bits[pos / 64] |= 1u64 << (pos % 64)]; the index is in range by [bit_pos_word]. *)
Definition set_bit (pos : Z) (b : Bloom) : Bloom :=
  mkBloom (alter (fun w => Z.lor w (Z.shiftl 1 (pos mod 64))) (Z.to_nat (pos / 64)) (bits b))
    (m_bits b).

(** [self.bits[pos / 64] & (1u64 << (pos % 64)) != 0]. *)
Definition get_bit (pos : Z) (b : Bloom) : bool :=
  match bits b !! Z.to_nat (pos / 64) with
  | Some w => negb (Z.land w (Z.shiftl 1 (pos mod 64)) =? 0)
  | None => false
  end.

(** The loops run over [0..BLOOM_K]. *)
Definition insert (digest : list byte) (b : Bloom) : Bloom :=
  foldl (fun b i => set_bit (bit_pos digest i (m_bits b)) b) b (seq 0 BLOOM_K).

Fixpoint contains_from (digest : list byte) (b : Bloom) (js : list nat) : bool :=
  match js with
  | [] => true
  | i :: t =>
      if negb (get_bit (bit_pos digest i (m_bits b)) b) then false
      else contains_from digest b t
  end.

Definition contains (digest : list byte) (b : Bloom) : bool :=
  contains_from digest b (seq 0 BLOOM_K).

Definition byte_len (b : Bloom) : Z := 8 + len (bits b) * 8.

(** The type invariant of a filter. *)
Definition wf (b : Bloom) : Prop :=
  64 <= m_bits b <= u64_max /\ len (bits b) = div_ceil (m_bits b) 64 /\ Forall is_u64 (bits b).

(** ** Lemmas *)
Lemma bit_pos_range d i m : 0 < m -> 0 <= bit_pos d i m < m.
Proof. intros. unfold bit_pos. by apply Z.mod_pos_bound. Qed.

(** The word a bit position falls in exists. *)
Lemma bit_pos_word b pos :
  wf b -> 0 <= pos < m_bits b -> (Z.to_nat (pos / 64) < length (bits b))%nat.
Proof.
  unfold wf, len, div_ceil. intros (Hm & Hl & _) Hp.
  assert (pos / 64 < (m_bits b + 64 - 1) / 64); [|pose proof (Z.div_pos pos 64); lia].
  apply Z.div_lt_upper_bound; [lia|].
  pose proof (Z.mod_pos_bound (m_bits b + 64 - 1) 64 ltac:(lia)).
  pose proof (Z.div_mod (m_bits b + 64 - 1) 64 ltac:(lia)). lia.
Qed.

Lemma get_bit_testbit w pos :
  negb (Z.land w (Z.shiftl 1 (pos mod 64)) =? 0) = Z.testbit w (pos mod 64).
Proof.
  pose proof (Z.mod_pos_bound pos 64 ltac:(lia)) as Hp.
  destruct (Z.testbit w (pos mod 64)) eqn:E.
  - apply negb_true_iff, Z.eqb_neq. intros H.
    apply (f_equal (fun z => Z.testbit z (pos mod 64))) in H.
    rewrite Z.land_spec, E, Z.shiftl_spec, Z.sub_diag, Z.bits_0 in H by lia. done.
  - apply negb_false_iff, Z.eqb_eq. apply Z.bits_inj'. intros n Hn.
    rewrite Z.land_spec, Z.shiftl_spec, Z.bits_0 by lia.
    destruct (decide (n = pos mod 64)) as [->|Hne]; [by rewrite E|].
    replace (Z.testbit 1 (n - pos mod 64)) with false; [apply andb_false_r|].
    symmetry. destruct (Z.ltb_spec n (pos mod 64)).
    + apply Z.testbit_neg_r. lia.
    + apply Z.bits_above_log2; simpl; lia.
Qed.

Lemma get_set_same b pos :
  wf b -> 0 <= pos < m_bits b -> get_bit pos (set_bit pos b) = true.
Proof.
  intros Hw Hp. destruct (lookup_lt_is_Some_2 _ _ (bit_pos_word _ _ Hw Hp)) as [w Hl].
  unfold get_bit, set_bit; simpl. rewrite list_lookup_alter_eq, Hl. simpl.
  rewrite get_bit_testbit, Z.lor_spec, Z.shiftl_spec, Z.sub_diag.
  - apply orb_true_r.
  - apply Z.mod_pos_bound. lia.
Qed.

Lemma get_set_mono b p q : get_bit q b = true -> get_bit q (set_bit p b) = true.
Proof.
  unfold get_bit, set_bit; simpl. rewrite list_lookup_alter. case_decide as Hd; [|done].
  rewrite Hd. destruct (bits b !! _) as [w|]; simpl; [|done].
  rewrite !get_bit_testbit, Z.lor_spec. intros ->. done.
Qed.

Lemma set_bit_wf b pos : wf b -> wf (set_bit pos b).
Proof.
  unfold wf, set_bit, len; simpl. intros (? & Hl & Hf). rewrite length_alter.
  split_and!; [lia..|done|]. apply Forall_alter; [done|]. intros w _ [Hw1 Hw2].
  pose proof (Z.mod_pos_bound pos 64 ltac:(lia)) as Hp.
  assert (Hs : 0 <= Z.shiftl 1 (pos mod 64) < 2 ^ 64).
  { rewrite Z.shiftl_1_l. split; [apply Z.pow_nonneg; lia|]. apply Z.pow_lt_mono_r; lia. }
  split; [apply Z.lor_nonneg; lia|]. unfold u64_max, u64_mod in *.
  destruct (Z.eq_dec (Z.lor w (Z.shiftl 1 (pos mod 64))) 0) as [->|Hnz]; [lia|].
  assert (Z.lor w (Z.shiftl 1 (pos mod 64)) < 2 ^ 64); [|lia].
  apply Z.log2_lt_pow2; [pose proof (Z.lor_nonneg w (Z.shiftl 1 (pos mod 64))); lia|].
  rewrite Z.log2_lor by lia. apply Z.max_lub_lt.
  - destruct (Z.eq_dec w 0) as [->|]; [simpl; lia|]. apply Z.log2_lt_pow2; lia.
  - rewrite Z.shiftl_1_l, Z.log2_pow2; lia.
Qed.

Lemma insert_fold_wf d l b :
  wf b -> wf (foldl (fun b i => set_bit (bit_pos d i (m_bits b)) b) b l) /\
  m_bits (foldl (fun b i => set_bit (bit_pos d i (m_bits b)) b) b l) = m_bits b.
Proof.
  revert b. induction l as [|i l IH]; intros b Hw; simpl; [done|].
  destruct (IH (set_bit (bit_pos d i (m_bits b)) b) (set_bit_wf _ _ Hw)). done.
Qed.

Lemma insert_wf d b : wf b -> wf (insert d b).
Proof. intros. by apply insert_fold_wf. Qed.

Lemma insert_m_bits d b : m_bits (insert d b) = m_bits b.
Proof. reflexivity. Qed.

Lemma insert_fold_mono d l b q :
  get_bit q b = true ->
  get_bit q (foldl (fun b i => set_bit (bit_pos d i (m_bits b)) b) b l) = true.
Proof.
  revert b. induction l as [|i l IH]; intros b H; simpl; [done|]. by apply IH, get_set_mono.
Qed.

Lemma insert_fold_sets d l b i :
  wf b -> i ∈ l ->
  get_bit (bit_pos d i (m_bits b)) (foldl (fun b i => set_bit (bit_pos d i (m_bits b)) b) b l)
  = true.
Proof.
  revert b. induction l as [|j l IH]; intros b Hw Hi; [by apply not_elem_of_nil in Hi|].
  simpl. apply elem_of_cons in Hi as [->|Hi].
  - apply insert_fold_mono, get_set_same; [done|]. apply bit_pos_range. destruct Hw; lia.
  - apply (IH (set_bit (bit_pos d j (m_bits b)) b)); [by apply set_bit_wf|done].
Qed.

Lemma contains_from_iff d b l :
  contains_from d b l = true <->
  Forall (fun i => get_bit (bit_pos d i (m_bits b)) b = true) l.
Proof.
  induction l as [|i l IH]; simpl; [split; [constructor|done]|].
  rewrite Forall_cons, <- IH. destruct (get_bit _ b); simpl; naive_solver.
Qed.

Lemma contains_insert d b : wf b -> contains d (insert d b) = true.
Proof.
  intros Hw. apply contains_from_iff, Forall_forall. intros i Hi. rewrite insert_m_bits.
  by apply (insert_fold_sets d (seq 0 BLOOM_K)).
Qed.

Lemma contains_insert_mono d d' b : contains d b = true -> contains d (insert d' b) = true.
Proof.
  unfold contains. rewrite !contains_from_iff, !Forall_forall. intros H i Hi.
  apply insert_fold_mono. auto.
Qed.

Lemma bloom_new_wf m : m <= u64_max -> wf (new m).
Proof.
  intros Hm. unfold new, wf, len; simpl. rewrite length_replicate. split_and!.
  - lia.
  - u64_lia.
  - rewrite Z2Nat.id; [done|]. unfold div_ceil. apply Z.div_pos; lia.
  - apply Forall_replicate. u64_lia.
Qed.

(** A filter built by inserting [ds] one after the other. *)
Definition insert_all (ds : list (list byte)) (b : Bloom) : Bloom :=
  foldl (fun b d => insert d b) b ds.

Lemma insert_all_wf ds b : wf b -> wf (insert_all ds b).
Proof.
  revert b. induction ds as [|d ds IH]; intros b Hw; simpl; [done|]. by apply IH, insert_wf.
Qed.

Lemma insert_all_mono ds d b : contains d b = true -> contains d (insert_all ds b) = true.
Proof.
  revert b. induction ds as [|d' ds IH]; intros b H; simpl; [done|].
  by apply IH, contains_insert_mono.
Qed.

Lemma insert_all_contains ds d b : wf b -> d ∈ ds -> contains d (insert_all ds b) = true.
Proof.
  revert b. induction ds as [|d' ds IH]; intros b Hw Hd; [by apply not_elem_of_nil in Hd|].
  simpl. apply elem_of_cons in Hd as [->|Hd].
  - by apply insert_all_mono, contains_insert.
  - apply IH; [by apply insert_wf|done].
Qed.

Lemma length_words ws : length (ws ≫= le_bytes 8) = (8 * length ws)%nat.
Proof.
  induction ws as [|w ws IH]; [done|].
  change ((w :: ws) ≫= le_bytes 8) with (le_bytes 8 w ++ (ws ≫= le_bytes 8)).
  rewrite length_app, IH, length_le_bytes. simpl. lia.
Qed.

Lemma read_words_bytes ws : Forall is_u64 ws -> read_words (length ws) (ws ≫= le_bytes 8) = ws.
Proof.
  induction 1 as [|w ws Hw Hws IH]; [done|]. cbn [read_words length].
  change ((w :: ws) ≫= le_bytes 8) with (le_bytes 8 w ++ (ws ≫= le_bytes 8)).
  rewrite take_app_length', drop_app_length' by (by rewrite length_le_bytes).
  rewrite le_val_bytes_small, IH; [done|]. change (256 ^ Z.of_nat 8) with u64_mod. u64_lia.
Qed.

Lemma read_words_inv n p :
  length p = (8 * n)%nat ->
  (read_words n p ≫= le_bytes 8) = p /\ length (read_words n p) = n /\
  Forall is_u64 (read_words n p).
Proof.
  revert p. induction n as [|n IH]; intros p Hp.
  { destruct p; [repeat constructor|done]. }
  cbn [read_words]. destruct (IH (drop 8 p)) as (IH1 & IH2 & IH3); [rewrite length_drop; lia|].
  assert (H8 : length (take 8 p) = 8%nat) by (rewrite length_take; lia).
  pose proof (le_val_range (take 8 p)) as Hr. rewrite H8 in Hr.
  change (256 ^ Z.of_nat 8) with u64_mod in Hr. split_and!.
  - change (le_bytes 8 (le_val (take 8 p)) ++ (read_words n (drop 8 p) ≫= le_bytes 8) = p).
    rewrite IH1, <- H8 at 1. rewrite le_bytes_val. apply take_drop.
  - simpl. by rewrite IH2.
  - constructor; [u64_lia|done].
Qed.

Lemma from_to_bytes b : wf b -> from_bytes (to_bytes b) = Some b.
Proof.
  intros (Hm & Hl & Hf). unfold from_bytes, to_bytes.
  rewrite len_app, take_app_length', drop_app_length' by (by rewrite length_le_bytes).
  unfold len in *. rewrite length_words, length_le_bytes.
  rewrite le_val_bytes_small by (change (256 ^ Z.of_nat 8) with u64_mod; u64_lia).
  rewrite (proj2 (Z.ltb_ge _ 8)), (proj2 (Z.ltb_ge _ 64)) by lia.
  rewrite (proj2 (Z.eqb_eq _ _)) by lia. simpl negb. cbv iota.
  rewrite <- Hl, Nat2Z.id, read_words_bytes by done. by destruct b.
Qed.

(** ** Theorems *)

(** A Bloom filter never forgets: whatever set of digests is inserted into a filter of any
    requested size, in any order, [contains] answers true for each of them, and every word index
    the two loops touch exists, so neither can panic. *)
Lemma bloom_no_false_negatives m ds d :
  m <= u64_max -> d ∈ ds ->
  contains d (insert_all ds (new m)) = true /\
  (forall i, 0 <= bit_pos d i (m_bits (insert_all ds (new m))) / 64
             < len (bits (insert_all ds (new m)))).
Proof.
  intros Hm Hd. pose proof (insert_all_wf ds _ (bloom_new_wf m Hm)) as Hw. split.
  - apply insert_all_contains; [by apply bloom_new_wf|done].
  - intros i. assert (Hp : 0 <= bit_pos d i (m_bits (insert_all ds (new m)))
                           < m_bits (insert_all ds (new m))).
    { apply bit_pos_range. destruct Hw; lia. }
    pose proof (bit_pos_word _ _ Hw Hp). pose proof (Z.div_pos _ 64 (proj1 Hp)).
    unfold len. lia.
Qed.

(** The wire form is exact: a well-formed filter decodes from its own bytes to itself, and
    conversely whatever [from_bytes] accepts is well formed and re-encodes to the bytes it came
    from, so a malformed or truncated payload from a peer is always rejected. *)
Lemma bloom_bytes_roundtrip b raw :
  (wf b -> from_bytes (to_bytes b) = Some b) /\
  (from_bytes raw = Some b -> wf b /\ to_bytes b = raw /\ len raw = byte_len b).
Proof.
  split.
  - apply from_to_bytes.
  - unfold from_bytes. destruct (Z.ltb_spec (len raw) 8); [done|].
    destruct (Z.ltb_spec (le_val (take 8 raw)) 64) as [|Hm]; [done|].
    destruct (Z.eqb_spec (len (drop 8 raw)) (div_ceil (le_val (take 8 raw)) 64 * 8)) as [Hl|]; [|done].
    simpl. intros [= <-]. unfold len in *. rewrite length_drop in Hl.
    assert (H8 : length (take 8 raw) = 8%nat) by (rewrite length_take; lia).
    pose proof (le_val_range (take 8 raw)) as Hr. rewrite H8 in Hr.
    change (256 ^ Z.of_nat 8) with u64_mod in Hr.
    destruct (read_words_inv (Z.to_nat (div_ceil (le_val (take 8 raw)) 64)) (drop 8 raw))
      as (H1 & H2 & H3); [rewrite length_drop; lia|].
    split_and!.
    + unfold wf, len; simpl. rewrite H2. split_and!; [lia|u64_lia|lia|done].
    + pose proof (le_bytes_val (take 8 raw)) as Hv. rewrite H8 in Hv.
      unfold to_bytes. cbn [bits m_bits]. rewrite H1, Hv. apply take_drop.
    + unfold byte_len, len; simpl. rewrite H2. lia.
Qed.
End Bloom.

(** ** The index of local and remote filters *)
Module Index.
Import Bloom Cluster.

Record RemoteBloom := mkRemoteBloom {
  version : Z;
  bloom : Bloom
}.

Record Local := mkLocal {
  local_version : Z;
  local_bloom : Bloom
}.

Record PeerIndex := mkPeerIndex {
  me_id : string;
  bloom_bits : Z;
  local : Local;
  pending : list (list byte);
  remote : gmap string RemoteBloom
}.

Record CandidateSet := mkCandidateSet {
  yes : list NodeInfo;
  maybe : list NodeInfo
}.

Definition set_local (l : Local) (p : PeerIndex) : PeerIndex :=
  mkPeerIndex (me_id p) (bloom_bits p) l (pending p) (remote p).
Definition set_pending (l : list (list byte)) (p : PeerIndex) : PeerIndex :=
  mkPeerIndex (me_id p) (bloom_bits p) (local p) l (remote p).
Definition set_remote (r : gmap string RemoteBloom) (p : PeerIndex) : PeerIndex :=
  mkPeerIndex (me_id p) (bloom_bits p) (local p) (pending p) r.

Definition new (me : string) (nbits : Z) : PeerIndex :=
  mkPeerIndex me nbits (mkLocal 1 (Bloom.new nbits)) [] ∅.

(** The first critical section of [note_local_insert]. *)
Definition note_pending (digest : list byte) (p : PeerIndex) : PeerIndex :=
  set_pending (pending p ++ [digest]) p.

(** The second one; the new version goes to the version hook. *)
Definition note_bloom (digest : list byte) (p : PeerIndex) : PeerIndex * Z :=
  let g := local p in
  let v := sat_add64 (local_version g) 1 in
  (set_local (mkLocal v (Bloom.insert digest (local_bloom g))) p, v).

Definition note_local_insert (digest : list byte) (p : PeerIndex) : PeerIndex * Z :=
  note_bloom digest (note_pending digest p).

(** The swap at the end of [rebuild_local_from_cache]: pending is drained into the new filter
    under the write lock of [local]. *)
Definition rebuild_swap (fresh : Bloom) (p : PeerIndex) : PeerIndex * Z :=
  let fresh := insert_all (pending p) fresh in
  let v := sat_add64 (local_version (local p)) 1 in
  (set_local (mkLocal v fresh) (set_pending [] p), v).

Definition local_snapshot (p : PeerIndex) : Z * list byte :=
  (local_version (local p), to_bytes (local_bloom (local p))).

Definition ingest_remote (peer_id : string) (v : Z) (raw : list byte) (p : PeerIndex)
    : PeerIndex * bool :=
  match from_bytes raw with
  | Some b => (set_remote (<[peer_id := mkRemoteBloom v b]> (remote p)) p, true)
  | None => (p, false)
  end.

Definition remote_version (peer_id : string) (p : PeerIndex) : option Z :=
  version <$> remote p !! peer_id.

Definition drop_remote (peer_id : string) (p : PeerIndex) : PeerIndex :=
  set_remote (delete peer_id (remote p)) p.

Section hashed.
Context (sha256 : list byte -> list byte).

(** The filter [rebuild_local_from_cache] builds outside the lock from a snapshot of the keys. *)
Definition rebuild_build (keys : list ChunkKey) (p : PeerIndex) : Bloom :=
  insert_all (key_digest sha256 <$> keys) (Bloom.new (bloom_bits p)).

Definition rebuild_local_from_cache (keys : list ChunkKey) (p : PeerIndex) : PeerIndex * Z :=
  rebuild_swap (rebuild_build keys p) p.

Definition hrw_score (peer_id : string) (digest : list byte) : Z :=
  le_val (slice (sha256 (str_bytes peer_id ++ digest)) 0 8).

(** The scan of [hrw_top_id]: a later node wins only with a strictly greater score. *)
Fixpoint hrw_scan (digest : list byte) (best_id : string) (best_score : Z)
    (alive : list NodeInfo) : string :=
  match alive with
  | [] => best_id
  | n :: t =>
      let s := hrw_score (id n) digest in
      if best_score <? s then hrw_scan digest (id n) s t
      else hrw_scan digest best_id best_score t
  end.

Definition hrw_top_id (key : ChunkKey) (alive : list NodeInfo) (p : PeerIndex) : string :=
  let digest := key_digest sha256 key in
  hrw_scan digest (me_id p) (hrw_score (me_id p) digest) alive.

(** The loop of [rank_candidates] over the peers in score order. *)
Fixpoint rank_loop (digest : list byte) (max_yes max_maybe : Z) (p : PeerIndex)
    (scored : list NodeInfo) (ys ms : list NodeInfo) : CandidateSet :=
  match scored with
  | [] => mkCandidateSet ys ms
  | n :: t =>
      match remote p !! id n with
      | Some r =>
          if contains digest (bloom r) && (len ys <? max_yes)
          then rank_loop digest max_yes max_maybe p t (ys ++ [n]) ms
          else rank_loop digest max_yes max_maybe p t ys ms
      | None =>
          if len ms <? max_maybe
          then rank_loop digest max_yes max_maybe p t ys (ms ++ [n])
          else rank_loop digest max_yes max_maybe p t ys ms
      end
  end.

(** [sort_by_key(Reverse(score))] is stable. *)
Definition by_score (digest : list byte) (alive : list NodeInfo) : list NodeInfo :=
  stable_sort (fun a b => hrw_score (id b) digest <=? hrw_score (id a) digest) alive.

Definition rank_candidates (key : ChunkKey) (alive : list NodeInfo) (max_yes max_maybe : Z)
    (p : PeerIndex) : CandidateSet :=
  let digest := key_digest sha256 key in
  rank_loop digest max_yes max_maybe p (by_score digest alive) [] [].
End hashed.

(** What the index knows of a peer: its filter claims the chunk, or no filter was ingested. *)
Definition claims (digest : list byte) (p : PeerIndex) (n : NodeInfo) : bool :=
  match remote p !! id n with Some r => contains digest (bloom r) | None => false end.
Definition unknown (p : PeerIndex) (n : NodeInfo) : bool :=
  match remote p !! id n with Some _ => false | None => true end.

(** ** Lemmas *)
Lemma take_snoc_budget {A} (ys : list A) n l max :
  len ys < max ->
  (ys ++ [n]) ++ take (Z.to_nat (max - len (ys ++ [n]))) l
  = ys ++ take (Z.to_nat (max - len ys)) (n :: l).
Proof.
  intros H. rewrite len_app, len_cons, len_nil.
  replace (Z.to_nat (max - len ys)) with (S (Z.to_nat (max - (len ys + (1 + 0))))) by lia.
  by rewrite <- app_assoc.
Qed.

Lemma rank_loop_spec digest max_yes max_maybe p l ys ms :
  rank_loop digest max_yes max_maybe p l ys ms
  = mkCandidateSet
      (ys ++ take (Z.to_nat (max_yes - len ys)) (filter (fun n => claims digest p n = true) l))
      (ms ++ take (Z.to_nat (max_maybe - len ms)) (filter (fun n => unknown p n = true) l)).
Proof.
  revert ys ms. induction l as [|n l IH]; intros ys ms; simpl.
  { by rewrite !filter_nil, !take_nil, !app_nil_r. }
  destruct (remote p !! id n) as [r|] eqn:Hr.
  - assert (Hc : claims digest p n = contains digest (bloom r)) by (unfold claims; by rewrite Hr).
    assert (Hu : unknown p n = false) by (unfold unknown; by rewrite Hr).
    rewrite (filter_cons_False (fun n => unknown p n = true)) by congruence.
    destruct (contains digest (bloom r)); simpl.
    + rewrite (filter_cons_True (fun n => claims digest p n = true)) by done.
      destruct (Z.ltb_spec (len ys) max_yes); rewrite IH; [by rewrite take_snoc_budget|].
      by replace (Z.to_nat (max_yes - len ys)) with O by lia.
    + rewrite (filter_cons_False (fun n => claims digest p n = true)) by congruence. by rewrite IH.
  - assert (Hc : claims digest p n = false) by (unfold claims; by rewrite Hr).
    assert (Hu : unknown p n = true) by (unfold unknown; by rewrite Hr).
    rewrite (filter_cons_False (fun n => claims digest p n = true)) by congruence.
    rewrite (filter_cons_True (fun n => unknown p n = true)) by done.
    destruct (Z.ltb_spec (len ms) max_maybe); rewrite IH; [by rewrite take_snoc_budget|].
    by replace (Z.to_nat (max_maybe - len ms)) with O by lia.
Qed.

Section hashed_facts.
Context (sha256 : list byte -> list byte).

Lemma by_score_permutation digest alive : by_score sha256 digest alive ≡ₚ alive.
Proof. apply stable_sort_permutation. Qed.

Lemma by_score_sorted digest alive :
  StronglySorted (fun a b => hrw_score sha256 (id b) digest <= hrw_score sha256 (id a) digest)
    (by_score sha256 digest alive).
Proof.
  eapply sorted_impl; [|apply stable_sort_sorted].
  - intros a b H. by apply Z.leb_le.
  - intros a b H. case_bool. apply Z.leb_le. lia.
  - intros a b c H1 H2. case_bool. apply Z.leb_le. lia.
Qed.

Lemma hrw_scan_spec digest b alive :
  let top := hrw_scan sha256 digest b (hrw_score sha256 b digest) alive in
  (top = b \/ top ∈ id <$> alive) /\
  (forall i, i = b \/ i ∈ id <$> alive ->
     hrw_score sha256 i digest <= hrw_score sha256 top digest).
Proof.
  simpl. revert b. induction alive as [|n alive IH]; intros b; simpl.
  { split; [by left|]. intros i [->|Hi]; [lia|by apply not_elem_of_nil in Hi]. }
  destruct (Z.ltb_spec (hrw_score sha256 b digest) (hrw_score sha256 (id n) digest)) as [Hlt|Hge].
  - destruct (IH (id n)) as [Hin Hmax]. split; [destruct Hin as [->|]; set_solver|].
    intros i [->|Hi]; [specialize (Hmax (id n) (or_introl eq_refl)); lia|].
    apply Hmax. set_solver.
  - destruct (IH b) as [Hin Hmax]. split; [destruct Hin as [->|]; set_solver|].
    intros i [->|Hi]; [by apply Hmax; left|]. apply elem_of_cons in Hi as [->|Hi]; [|auto].
    specialize (Hmax b (or_introl eq_refl)). lia.
Qed.
End hashed_facts.

(** ** Theorems *)

(** Leader election is cluster-wide: two nodes whose membership views name the same
    participants (each counts itself) elect the same rendezvous-hash leader for a chunk, that
    leader is one of the participants and has the greatest score of all, provided the
    participants' scores for this chunk differ. *)
Lemma hrw_leader_agreement (sha256 : list byte -> list byte) (key : ChunkKey) (p q : PeerIndex)
    (alive_p alive_q : list NodeInfo) :
  let s i := hrw_score sha256 i (key_digest sha256 key) in
  let parts := me_id p :: (id <$> alive_p) in
  (forall i, i ∈ parts <-> i ∈ me_id q :: (id <$> alive_q)) ->
  (forall i j, i ∈ parts -> j ∈ parts -> s i = s j -> i = j) ->
  hrw_top_id sha256 key alive_p p = hrw_top_id sha256 key alive_q q /\
  hrw_top_id sha256 key alive_p p ∈ parts /\
  (forall i, i ∈ parts -> s i <= s (hrw_top_id sha256 key alive_p p)).
Proof.
  intros s parts Hsame Hinj. unfold hrw_top_id.
  destruct (hrw_scan_spec sha256 (key_digest sha256 key) (me_id p) alive_p) as [Hpin Hpmax].
  destruct (hrw_scan_spec sha256 (key_digest sha256 key) (me_id q) alive_q) as [Hqin Hqmax].
  simpl in *. set (tp := hrw_scan _ _ _ _ alive_p) in *. set (tq := hrw_scan _ _ _ _ alive_q) in *.
  assert (Hp : tp ∈ parts) by (apply elem_of_cons; tauto).
  assert (Hq : tq ∈ parts) by (apply Hsame, elem_of_cons; tauto).
  split_and!; [|done|intros i Hi; apply Hpmax; by apply elem_of_cons in Hi].
  apply Hinj; [done..|]. apply Z.le_antisymm.
  - apply Hqmax. apply Hsame, elem_of_cons in Hp. done.
  - apply Hpmax. by apply elem_of_cons in Hq.
Qed.

(** Peer ranking respects its two budgets and loses nobody else: the [yes] candidates are the
    [max_yes] best-scored peers whose ingested filter claims the chunk, the [maybe] candidates the
    [max_maybe] best-scored peers of which no filter is known, both in descending score order. *)
Lemma rank_candidates_spec sha256 key (alive : list NodeInfo) max_yes max_maybe p :
  let d := key_digest sha256 key in
  let sorted := by_score sha256 d alive in
  let cs := rank_candidates sha256 key alive max_yes max_maybe p in
  yes cs = take (Z.to_nat max_yes) (filter (fun n => claims d p n = true) sorted) /\
  maybe cs = take (Z.to_nat max_maybe) (filter (fun n => unknown p n = true) sorted) /\
  sorted ≡ₚ alive /\
  StronglySorted (fun a b => hrw_score sha256 (id b) d <= hrw_score sha256 (id a) d) sorted.
Proof.
  simpl. unfold rank_candidates. rewrite rank_loop_spec. simpl. rewrite !Z.sub_0_r.
  split_and!; [done|done|apply by_score_permutation|apply by_score_sorted].
Qed.

(** An advertised chunk is found: once a peer has noted an insert and its filter snapshot has
    been ingested, the peer is among the [yes] candidates for that chunk whenever it is alive and
    the number of claiming peers is within the budget. *)
Lemma advertised_peer_is_candidate sha256 key (alive : list NodeInfo) max_yes max_maybe p owner n :
  let d := key_digest sha256 key in
  let owner' := (note_local_insert d owner).1 in
  let p' := (ingest_remote (id n) (local_snapshot owner').1 (local_snapshot owner').2 p).1 in
  Bloom.wf (local_bloom (local owner)) -> n ∈ alive ->
  len (filter (fun x => claims d p' x = true) alive) <= max_yes ->
  n ∈ yes (rank_candidates sha256 key alive max_yes max_maybe p').
Proof.
  intros d owner' p' Hw Hn Hlen.
  assert (Hr : remote p' !! id n = Some (mkRemoteBloom (local_snapshot owner').1
                 (Bloom.insert d (local_bloom (local owner))))).
  { subst p' owner'. unfold ingest_remote. simpl. rewrite from_to_bytes by by apply insert_wf.
    simpl. by rewrite lookup_insert_eq. }
  unfold rank_candidates. rewrite rank_loop_spec. fold d. simpl. rewrite Z.sub_0_r.
  assert (Hp : filter (fun x => claims d p' x = true) (by_score sha256 d alive)
               ≡ₚ filter (fun x => claims d p' x = true) alive).
  { by rewrite by_score_permutation. }
  rewrite take_ge by (rewrite Hp; unfold len in Hlen; lia).
  rewrite Hp, list_elem_of_filter. split; [|done]. unfold claims. rewrite Hr.
  by apply contains_insert.
Qed.

End Index.

(** ** Publishing inserts while the filter is rebuilt

    An inserter commits its chunk to the cache, pushes the digest to [pending], then sets the
    bits; a rebuilder snapshots the live keys, builds a filter without any lock, then swaps it in.
    [live] is the key set of the cache ([Cache.live_keys]); committing a chunk may evict others,
    and the reconciliation and the clear operation drop keys.  The flag of an inserter says
    whether its key has stayed tracked since the commit; [noted] holds the keys whose latest
    insert has finished. *)
Module Publish.
Import Index.

Record Node := mkNode {
  idx : PeerIndex;
  live : gset ChunkKey;
  writers : list (ChunkKey * bool);
  pushers : list (ChunkKey * bool);
  noted : gset ChunkKey;
  rebuilds : list (list ChunkKey)
}.

Definition start (me : string) (nbits : Z) : Node := mkNode (Index.new me nbits) ∅ [] [] ∅ [].

(** Inserters of an evicted key lose their claim on it. *)
Definition unflag (ev : gset ChunkKey) (l : list (ChunkKey * bool)) : list (ChunkKey * bool) :=
  (fun w => (w.1, w.2 && bool_decide (w.1 ∉ ev))) <$> l.

Section steps.
Context (sha256 : list byte -> list byte).

Inductive step : Node -> Node -> Prop :=
| step_commit s k :
    step s (mkNode (idx s) ({[k]} ∪ live s) ((k, true) :: writers s) (pushers s) (noted s)
              (rebuilds s))
| step_drop s ev :
    step s (mkNode (idx s) (live s ∖ ev) (unflag ev (writers s)) (unflag ev (pushers s))
              (noted s ∖ ev) (rebuilds s))
| step_push s k f w1 w2 :
    writers s = w1 ++ (k, f) :: w2 ->
    step s (mkNode (note_pending (key_digest sha256 k) (idx s)) (live s) (w1 ++ w2)
              ((k, f) :: pushers s) (noted s) (rebuilds s))
| step_bits s k (f : bool) w1 w2 :
    pushers s = w1 ++ (k, f) :: w2 ->
    step s (mkNode (note_bloom (key_digest sha256 k) (idx s)).1 (live s) (writers s) (w1 ++ w2)
              (if f then {[k]} ∪ noted s else noted s) (rebuilds s))
| step_snapshot s :
    step s (mkNode (idx s) (live s) (writers s) (pushers s) (noted s)
              (elements (live s) :: rebuilds s))
| step_swap s keys r1 r2 :
    rebuilds s = r1 ++ keys :: r2 ->
    step s (mkNode (rebuild_local_from_cache sha256 keys (idx s)).1 (live s) (writers s)
              (pushers s) (noted s) (r1 ++ r2)).

(** Runs in which at most one rebuild is in progress at a time. *)
Inductive exclusive (s0 : Node) : Node -> Prop :=
| exclusive_refl : exclusive s0 s0
| exclusive_step s s' :
    exclusive s0 s -> step s s' -> (length (rebuilds s') <= 1)%nat -> exclusive s0 s'.

Inductive any_run (s0 : Node) : Node -> Prop :=
| any_refl : any_run s0 s0
| any_step s s' : any_run s0 s -> step s s' -> any_run s0 s'.

(** The keys an inserter still vouches for. *)
Definition vouched (s : Node) (k : ChunkKey) : Prop := k ∈ noted s \/ (k, true) ∈ pushers s.

Record inv (s : Node) : Prop := {
  inv_bits : Bloom.wf (Bloom.new (bloom_bits (idx s)));
  inv_wf : Bloom.wf (local_bloom (local (idx s)));
  inv_noted k : k ∈ noted s -> k ∈ live s;
  inv_writers k : (k, true) ∈ writers s -> k ∈ live s;
  inv_pushers k : (k, true) ∈ pushers s -> k ∈ live s;
  inv_contains k :
    k ∈ noted s -> Bloom.contains (key_digest sha256 k) (local_bloom (local (idx s))) = true;
  inv_rebuilds keys k : keys ∈ rebuilds s -> vouched s k ->
    k ∈ keys \/ key_digest sha256 k ∈ pending (idx s);
  inv_single : (length (rebuilds s) <= 1)%nat
}.

(** ** Lemmas *)
Lemma unflag_true ev l k : (k, true) ∈ unflag ev l -> (k, true) ∈ l /\ k ∉ ev.
Proof.
  unfold unflag. intros ([k' b] & [= -> Hb] & Hin)%list_elem_of_fmap. simpl in *.
  symmetry in Hb. apply andb_true_iff in Hb as [-> Hb]. apply bool_decide_eq_true in Hb. done.
Qed.

Lemma inv_start me nbits : nbits <= u64_max -> inv (start me nbits).
Proof using Type.
  intros Hm. split; simpl; try (by apply Bloom.bloom_new_wf); try set_solver; try lia.
Qed.

Lemma single_split {A} (r1 r2 : list A) x :
  (length (r1 ++ x :: r2) <= 1)%nat -> r1 = [] /\ r2 = [].
Proof. rewrite length_app; simpl. destruct r1, r2; simpl; lia || done. Qed.

Lemma rebuilt_contains keys p d :
  Bloom.wf (Bloom.new (bloom_bits p)) ->
  (exists k, k ∈ keys /\ key_digest sha256 k = d) \/ d ∈ pending p ->
  Bloom.contains d (local_bloom (local (rebuild_local_from_cache sha256 keys p).1)) = true.
Proof.
  intros Hw [(k & Hk & <-)|Hd]; simpl.
  - apply Bloom.insert_all_mono, Bloom.insert_all_contains; [done|].
    apply list_elem_of_fmap. eauto.
  - apply Bloom.insert_all_contains; [by apply Bloom.insert_all_wf|done].
Qed.

Lemma step_inv s s' : inv s -> step s s' -> (length (rebuilds s') <= 1)%nat -> inv s'.
Proof.
  intros [Hb Hw Hn Hwr Hp Hc Hr Hs] Hstep Hs'. unfold vouched in *.
  destruct Hstep as [s k|s ev|s k f w1 w2 Hsp|s k f w1 w2 Hsp|s|s keys r1 r2 Hsp];
    split; unfold vouched; simpl in *; try assumption.
  - intros k' Hk'. apply elem_of_union_r, Hn, Hk'.
  - intros k' [[= ->]|Hk']%elem_of_cons; [set_solver|]. apply elem_of_union_r, Hwr, Hk'.
  - intros k' Hk'. apply elem_of_union_r, Hp, Hk'.
  - intros k' [? ?]%elem_of_difference. apply elem_of_difference; auto.
  - intros k' [? ?]%unflag_true. apply elem_of_difference; auto.
  - intros k' [? ?]%unflag_true. apply elem_of_difference; auto.
  - intros k' [? ?]%elem_of_difference. auto.
  - intros keys k' Hk [[? _]%elem_of_difference|[? _]%unflag_true]; eapply Hr; eauto.
  - intros k' Hk'. apply Hwr. rewrite Hsp. rewrite elem_of_app in *. rewrite elem_of_cons. tauto.
  - intros k' [[= -> <-]|Hk']%elem_of_cons; [|auto]. apply Hwr. rewrite Hsp.
    apply elem_of_app. right. by left.
  - intros keys k' Hk Hv. rewrite elem_of_app, list_elem_of_singleton.
    destruct (decide (k' = k)) as [->|Hne]; [auto|]. destruct (Hr keys k' Hk) as [|]; [|auto..].
    destruct Hv as [|[[= ??]|]%elem_of_cons]; [auto|congruence|auto].
  - by apply Bloom.insert_wf.
  - intros k' Hk'. destruct f; [|auto]. apply elem_of_union in Hk' as [->%elem_of_singleton|]; [|auto].
    apply Hp. rewrite Hsp. apply elem_of_app. right. by left.
  - intros k' Hk'. apply Hp. rewrite Hsp. rewrite elem_of_app in *. rewrite elem_of_cons. tauto.
  - intros k' Hk'. destruct (decide (k' = k)) as [->|]; [by apply Bloom.contains_insert|].
    apply Bloom.contains_insert_mono, Hc. destruct f; [|done].
    apply elem_of_union in Hk' as [->%elem_of_singleton|]; done.
  - intros keys k' Hk Hv. apply (Hr keys); [done|]. rewrite Hsp, elem_of_app, elem_of_cons.
    rewrite elem_of_app in Hv. destruct f; [|tauto]. rewrite elem_of_union, elem_of_singleton in Hv.
    destruct Hv as [[->|]|]; tauto.
  - intros keys k' Hk Hv. left. apply elem_of_cons in Hk as [->|Hk].
    + apply elem_of_elements. destruct Hv; auto.
    + destruct (rebuilds s); [by apply not_elem_of_nil in Hk|simpl in Hs'; lia].
  - by apply Bloom.insert_all_wf, Bloom.insert_all_wf.
  - intros k Hk. apply rebuilt_contains; [done|].
    destruct (Hr keys k) as [|]; [rewrite Hsp; apply elem_of_app; right; by left|auto|eauto|eauto].
  - rewrite Hsp in Hs. apply single_split in Hs as [-> ->]. intros ? ? H.
    by apply not_elem_of_nil in H.
Qed.
End steps.

(** ** Theorems *)

(** C15.  Peers are never told that a node lacks a chunk it has finished inserting: as long as
    rebuilds do not overlap, in every interleaving of inserters (commit, push, set bits), evictions
    and rebuilds (snapshot, swap), each tracked chunk whose insert has completed is claimed by the
    local filter that [/cluster/bloom] serves. *)
Theorem publish_no_false_negatives sha256 me nbits s k :
  nbits <= u64_max -> exclusive sha256 (start me nbits) s -> k ∈ noted s ->
  k ∈ live s /\ Bloom.contains (key_digest sha256 k) (local_bloom (local (idx s))) = true.
Proof.
  intros Hn Hrun Hk. assert (Hi : inv sha256 s).
  { clear Hk. induction Hrun as [|s s' _ IH Hstep Hlen]; [by apply inv_start|]. by eapply step_inv. }
  split; [by apply (inv_noted _ _ Hi)|by apply (inv_contains _ _ Hi)].
Qed.

Definition demo_key : ChunkKey := mkChunkKey "m" "b" 0.

(** An insert that completes while a rebuild is between its snapshot and its swap. *)
Definition demo_mid : Node :=
  let d := key_digest (fun l => l) demo_key in
  mkNode (note_bloom d (note_pending d (Index.new "a" 64))).1 {[demo_key]} [] [] {[demo_key]} [[]].

Lemma demo_mid_step1 : step (fun l => l) (start "a" 64) (mkNode (Index.new "a" 64) ∅ [] [] ∅ [[]]).
Proof. apply (step_snapshot (fun l => l) (start "a" 64)). Qed.

Lemma demo_mid_step2 :
  step (fun l => l) (mkNode (Index.new "a" 64) ∅ [] [] ∅ [[]])
    (mkNode (Index.new "a" 64) ({[demo_key]} ∪ ∅) [(demo_key, true)] [] ∅ [[]]).
Proof. apply (step_commit (fun l => l) (mkNode (Index.new "a" 64) ∅ [] [] ∅ [[]])). Qed.

Lemma demo_mid_step3 :
  step (fun l => l) (mkNode (Index.new "a" 64) ({[demo_key]} ∪ ∅) [(demo_key, true)] [] ∅ [[]])
    (mkNode (note_pending (key_digest (fun l => l) demo_key) (Index.new "a" 64))
       ({[demo_key]} ∪ ∅) [] [(demo_key, true)] ∅ [[]]).
Proof.
  exact (step_push (fun l => l)
    (mkNode (Index.new "a" 64) ({[demo_key]} ∪ ∅) [(demo_key, true)] [] ∅ [[]])
    demo_key true [] [] eq_refl).
Qed.

Lemma demo_mid_step4 :
  step (fun l => l)
    (mkNode (note_pending (key_digest (fun l => l) demo_key) (Index.new "a" 64))
       ({[demo_key]} ∪ ∅) [] [(demo_key, true)] ∅ [[]])
    (mkNode (idx demo_mid) ({[demo_key]} ∪ ∅) [] [] ({[demo_key]} ∪ ∅) [[]]).
Proof.
  exact (step_bits (fun l => l)
    (mkNode (note_pending (key_digest (fun l => l) demo_key) (Index.new "a" 64))
       ({[demo_key]} ∪ ∅) [] [(demo_key, true)] ∅ [[]]) demo_key true [] [] eq_refl).
Qed.

Lemma demo_mid_step5 :
  step (fun l => l) (mkNode (idx demo_mid) ({[demo_key]} ∪ ∅) [] [] ({[demo_key]} ∪ ∅) [[]])
    (mkNode (rebuild_local_from_cache (fun l => l) [] (idx demo_mid)).1 ({[demo_key]} ∪ ∅) [] []
       ({[demo_key]} ∪ ∅) []).
Proof.
  exact (step_swap (fun l => l)
    (mkNode (idx demo_mid) ({[demo_key]} ∪ ∅) [] [] ({[demo_key]} ∪ ∅) [[]]) [] [] [] eq_refl).
Qed.

(** The node after that rebuild has swapped its filter in. *)
Lemma publish_no_false_negatives_witness :
  exists s, exclusive (fun l => l) (start "a" 64) s /\ rebuilds s = [] /\
    demo_key ∈ live s /\
    Bloom.contains (key_digest (fun l => l) demo_key) (local_bloom (local (idx s))) = true.
Proof.
  assert (Hrun : exclusive (fun l => l) (start "a" 64)
    (mkNode (rebuild_local_from_cache (fun l => l) [] (idx demo_mid)).1 ({[demo_key]} ∪ ∅) [] []
       ({[demo_key]} ∪ ∅) [])).
  { eapply exclusive_step; [|apply demo_mid_step5|simpl; lia].
    eapply exclusive_step; [|apply demo_mid_step4|simpl; lia].
    eapply exclusive_step; [|apply demo_mid_step3|simpl; lia].
    eapply exclusive_step; [|apply demo_mid_step2|simpl; lia].
    eapply exclusive_step; [apply exclusive_refl|apply demo_mid_step1|simpl; lia]. }
  eexists. split; [exact Hrun|]. split; [done|].
  apply (publish_no_false_negatives (fun l => l) "a" 64); [u64_lia|exact Hrun|set_solver].
Defined.

(** The protocol needs that exclusion: when two rebuilds overlap (the periodic one and the one
    of [clear_local_state]), the second swap to run can install a filter built from an older
    snapshot after the other rebuild has drained [pending], and a fully inserted, tracked chunk
    drops out of the advertised filter. *)
Lemma overlapping_rebuilds_lose_an_insert :
  exists s, any_run (fun l => l) (start "a" 64) s /\ demo_key ∈ noted s /\ demo_key ∈ live s /\
    Bloom.contains (key_digest (fun l => l) demo_key) (local_bloom (local (idx s))) = false.
Proof.
  set (s4 := mkNode (idx demo_mid) ({[demo_key]} ∪ ∅) [] [] ({[demo_key]} ∪ ∅) [[]]).
  assert (H4 : any_run (fun l => l) (start "a" 64) s4).
  { eapply any_step; [|apply demo_mid_step4]. eapply any_step; [|apply demo_mid_step3].
    eapply any_step; [|apply demo_mid_step2]. eapply any_step; [apply any_refl|apply demo_mid_step1]. }
  pose proof (any_step _ _ _ _ H4 (step_snapshot (fun l => l) s4)) as H5.
  pose proof (any_step _ _ _ _ H5 (step_swap (fun l => l) (mkNode (idx s4) (live s4) [] [] (noted s4)
    (elements (live s4) :: [[]])) (elements (live s4)) [] [[]] eq_refl)) as H6.
  pose proof (any_step _ _ _ _ H6 (step_swap (fun l => l) (mkNode
    (rebuild_local_from_cache (fun l => l) (elements (live s4)) (idx s4)).1
    (live s4) [] [] (noted s4) [[]]) [] [] [] eq_refl)) as H7.
  eexists. split; [exact H7|]. split; [set_solver|]. split; [set_solver|].
  vm_compute. reflexivity.
Qed.
End Publish.
