(* ===== verification/Gossip.v ===== *)
(** * Gossip exchange and Bloom publication (src/src/cluster.rs, src/src/main.rs)

    The HTTP side of the membership protocol (the [/cluster/sync] and [/cluster/bloom] handler,
    one exchange with a peer, one turn of the gossip loop) and the two background loops of the
    daemon that keep the Bloom filters current.  The HTTP library and [serde_json] are parameters:
    [JsonCodec] states the one law of the codec that is relied on. *)

From S2P Require Import Prelude ChunkKeys DiskCache Cluster PeerIndex.

Module Gossip.
Import Cluster.

(** ** HTTP *)
Inductive Method : Type := GET | POST | OtherMethod.

#[export] Instance Method_eq_dec : EqDecision Method.
Proof. solve_decision. Defined.

Record Request := mkRequest {
  method : Method;
  path : string;
  req_body : option (list byte)
}.

Record Response := mkResponse {
  status : Z;
  headers : list (string * string);
  body : list byte
}.

Definition MAX_GOSSIP_BODY_BYTES : Z := 1024 * 1024.

(** [serde_json] on gossip payloads; a payload decodes from its own encoding. *)
Class JsonCodec := {
  json_encode : GossipPayload -> list byte;
  json_decode : list byte -> result string GossipPayload;
  json_roundtrip p : json_decode (json_encode p) = Ok p
}.

(** ** Operations *)
Section gossip.
Context {codec : JsonCodec}.
(** [Display] of a status code ("409 Conflict"). *)
Context (status_text : Z -> string).

Definition gossip_payload (now : Z) (m : Membership) : GossipPayload :=
  mkGossipPayload (me_snapshot now m) (members_all m).

(** What both ends do with the payload of the other. *)
Definition absorb (now : Z) (p : GossipPayload) (m : Membership) : Membership * list NodeInfo :=
  let all := payload_members p ++ [from p] in
  let '(m, hooks) := merge now all m in
  (touch_peer now (id (from p)) m, hooks).

(** The [POST /cluster/sync] branch. *)
Definition handle_sync (now : Z) (b : list byte) (m : Membership)
    : Membership * Response * list NodeInfo :=
  if MAX_GOSSIP_BODY_BYTES <? len b
  then (m, mkResponse 413 [] (str_bytes "too large"), [])
  else match json_decode b with
  | Ok p =>
      if negb (bool_decide (cluster_hash (from p) = cluster_hash (me_template m))) then
        (set_stats (inc_config_mismatches (stats m)) m,
         mkResponse 409 [("content-type", "application/json")]
           (str_bytes "{" ++ [x22] ++ str_bytes "error" ++ [x22] ++ str_bytes ":" ++ [x22]
              ++ str_bytes "cluster_hash mismatch" ++ [x22] ++ str_bytes "}"), [])
      else
        let '(m, hooks) := absorb now p m in
        (m, mkResponse 200 [("content-type", "application/json")]
              (json_encode (gossip_payload now m)), hooks)
  | Err e => (m, mkResponse 400 [] (str_bytes ("bad: " +:+ e)), [])
  end.

(** The service function of the gossip server. *)
Definition handle (now : Z) (req : Request) (pi : option Index.PeerIndex) (m : Membership)
    : Membership * Response * list NodeInfo :=
  match method req with
  | POST =>
      if String.eqb (path req) "/cluster/sync"
      then handle_sync now (default [] (req_body req)) m
      else (m, mkResponse 404 [] [], [])
  | GET =>
      if String.eqb (path req) "/cluster/bloom" then
        match pi with
        | Some idx =>
            let '(v, b) := Index.local_snapshot idx in
            (m, mkResponse 200 [("content-type", "application/octet-stream");
                                ("x-blobcache-bloom-version", show v)] b, [])
        | None => (m, mkResponse 404 [] [], [])
        end
      else (m, mkResponse 404 [] [], [])
  | OtherMethod => (m, mkResponse 404 [] [], [])
  end.

(** What [client.post(..).send()] and the body read give: a transport error, or a status with a
    body that may fail to arrive. *)
Definition HttpReply : Type := result HttpError (Z * result HttpError (list byte)).

Definition sync_url (peer_url : string) : string :=
  trim_end_matches slash peer_url +:+ "/cluster/sync".

(** The second half of [gossip_with], on the reply. *)
Definition gossip_finish (now : Z) (reply : HttpReply) (m : Membership)
    : Membership * res unit * list NodeInfo :=
  match reply with
  | Err e => (m, Err (Http e), [])
  | Ok (st, rb) =>
      if negb (is_success st) then (m, Err (ChunkKeys.Cluster ("sync HTTP " +:+ status_text st)), [])
      else match rb with
      | Err e => (m, Err (Http e), [])
      | Ok b =>
          match json_decode b with
          | Err e => (m, Err (ChunkKeys.Cluster ("decode reply: " +:+ e)), [])
          | Ok p =>
              if negb (bool_decide (cluster_hash (from p) = cluster_hash (me_template m))) then
                (set_stats (inc_config_mismatches (stats m)) m,
                 Err (ChunkKeys.Cluster ("reply cluster_hash mismatch from " +:+ id (from p))), [])
              else
                let '(m, hooks) := absorb now p m in
                (set_stats (inc_gossip_rounds (stats m)) m, Ok tt, hooks)
          end
      end
  end.

(** [send url body] is the HTTP exchange; the clock is read before and after it. *)
Definition gossip_with (send : string -> list byte -> HttpReply) (now now' : Z) (peer_url : string)
    (m : Membership) : Membership * res unit * list NodeInfo :=
  gossip_finish now' (send (sync_url peer_url) (json_encode (gossip_payload now m))) m.

(** The start of [run_gossip_loop]: every seed is contacted once. *)
Fixpoint contact_seeds (send : string -> list byte -> HttpReply) (now : Z) (seeds : list string)
    (m : Membership) : Membership :=
  match seeds with
  | [] => m
  | s :: t => contact_seeds send now t (gossip_with send now now s m).1.1
  end.

(** One tick of [run_gossip_loop]; [pick] is the index [choose] draws. *)
Definition gossip_tick (send : string -> list byte -> HttpReply) (now : Z) (seeds : list string)
    (pick : nat) (m : Membership) : Membership * list string :=
  let '(m, dead) := sweep now m in
  let alive := members_alive m in
  let target :=
    match alive with
    | [] => seeds !! (pick mod length seeds)%nat
    | _ => gossip_url <$> alive !! (pick mod length alive)%nat
    end in
  match target with
  | Some url => ((gossip_with send now now url m).1.1, dead)
  | None => (m, dead)
  end.
End gossip.

(** ** The background loops of the daemon (main.rs) *)
Section loops.
Context (sha256 : list byte -> list byte).

(** One tick of [run_bloom_rebuild_loop]: reconcile, rebuild, announce the version.  The version
    hook of the index is [set_bloom_version] too, so it runs before the explicit call. *)
Definition rebuild_tick (c : Cache.DiskCache) (p : Index.PeerIndex) (m : Membership)
    : Cache.DiskCache * Index.PeerIndex * Membership :=
  let '(c, _) := Cache.reconcile_with_disk sha256 c in
  let '(p, hooked) := Index.rebuild_local_from_cache sha256 (Cache.live_keys c) p in
  let m := set_bloom_version hooked m in
  (c, p, set_bloom_version (Index.local_version (Index.local p)) m).
End loops.

(** What a [GET /cluster/bloom] gives: a transport error, a status with the parsed version header,
    and a body that may fail to arrive. *)
Definition BloomReply : Type := result HttpError (Z * option Z * result HttpError (list byte)).

Record PullStats := mkPullStats {
  pulls_total : Z;
  pull_errors_total : Z
}.

Definition pull_ok (s : PullStats) : PullStats :=
  mkPullStats (wadd64 (pulls_total s) 1) (pull_errors_total s).
Definition pull_err (s : PullStats) : PullStats :=
  mkPullStats (pulls_total s) (wadd64 (pull_errors_total s) 1).

Definition bloom_url (gossip : string) : string := trim_end_matches slash gossip +:+ "/cluster/bloom".

(** The body of the pull loop for one alive peer. *)
Definition pull_one (get : string -> BloomReply) (acc : Index.PeerIndex * PullStats) (n : NodeInfo)
    : Index.PeerIndex * PullStats :=
  let '(p, st) := acc in
  if bool_decide (id n = Index.me_id p) then (p, st)
  else if bloom_version n =? 0 then (p, st)
  else if bloom_version n <=? default 0 (Index.remote_version (id n) p) then (p, st)
  else match get (bloom_url (gossip_url n)) with
  | Err _ => (p, pull_err st)
  | Ok (code, hdr, rb) =>
      if is_success code then
        match rb with
        | Ok b =>
            let '(p, good) := Index.ingest_remote (id n) (default (bloom_version n) hdr) b p in
            (p, if good then pull_ok st else pull_err st)
        | Err _ => (p, pull_err st)
        end
      else (p, pull_err st)
  end.

(** One tick of [run_bloom_pull_loop]. *)
Definition pull_tick (get : string -> BloomReply) (m : Membership) (p : Index.PeerIndex)
    (st : PullStats) : Index.PeerIndex * PullStats :=
  let alive := filter (fun n => state n = Alive) (members_all m) in
  let gone := filter (fun n => id n ∉ id <$> alive) (members_all m) in
  let p := foldl (fun p n => Index.drop_remote (id n) p) p gone in
  foldl (pull_one get) (p, st) alive.

(** ** Lemmas *)

(** The recency two tables agree on after an exchange. *)
Definition join (o1 o2 : option (Z * Z * Z)) : option (Z * Z * Z) :=
  match o2 with Some s => omax o1 s | None => o1 end.

Lemma join_absorb o1 o2 : join o1 (join o2 o1) = join o2 o1.
Proof.
  destruct o1 as [a|], o2 as [b|]; simpl; try done.
  - unfold omax. by rewrite (stamp_max_comm b a), stamp_max_assoc, stamp_max_idemp.
  - unfold omax. by rewrite stamp_max_idemp.
Qed.

Section absorbing.
Context {codec : JsonCodec}.

Lemma absorb_frame now p m :
  me_id (absorb now p m).1 = me_id m /\ me_template (absorb now p m).1 = me_template m.
Proof.
  unfold absorb. destruct (merge_frame now (payload_members p ++ [from p]) m) as [H1 H2].
  destruct (merge _ _ _) as [m1 hooks]. simpl in *.
  destruct (touch_frame now (id (from p)) m1) as (-> & -> & _). done.
Qed.

Lemma absorb_wf now p m : wf m -> wf (absorb now p m).1.
Proof.
  intros Hw. unfold absorb. pose proof (merge_wf now (payload_members p ++ [from p]) m Hw).
  destruct (merge _ _ _) as [m1 hooks]. simpl in *. by apply touch_wf.
Qed.

Lemma absorb_members now p m j :
  members (absorb now p m).1 !! j
  = members (touch_peer now (id (from p)) (merge now (payload_members p ++ [from p]) m).1) !! j.
Proof. unfold absorb. by destruct (merge _ _ _). Qed.

(** Third parties: the two records of a node are joined. *)
Lemma absorb_view now now' m m' i :
  wf m' -> cluster_hash (me_template m) = cluster_hash (me_template m') ->
  i <> me_id m -> i <> me_id m' ->
  view (absorb now (gossip_payload now' m') m).1 i = join (view m i) (view m' i).
Proof.
  intros Hw Hh Hi Hi'. unfold view at 1. rewrite absorb_members, touch_lookup.
  assert (Hf : id (from (gossip_payload now' m')) = me_id m') by (simpl; apply (wf_me _ Hw)).
  rewrite decide_False by congruence.
  change (view (merge now (payload_members (gossip_payload now' m') ++ [from (gossip_payload now' m')]) m).1 i
          = join (view m i) (view m' i)).
  rewrite merge_view by done. unfold relevant. rewrite filter_app.
  rewrite (filter_cons_False _ (from _)) by (rewrite Hf; naive_solver). rewrite filter_nil, app_nil_r.
  fold (relevant m i (payload_members (gossip_payload now' m'))). simpl payload_members.
  rewrite (foldl_omax_permutation _ (stamp <$> option_list (members m' !! i))).
  - unfold view. by destruct (members m' !! i).
  - apply fmap_Permutation. by apply relevant_members_all.
Qed.

(** The sender is recorded alive as of now. *)
Lemma absorb_sender now p m :
  id (from p) <> me_id m -> cluster_hash (from p) = cluster_hash (me_template m) ->
  exists n, members (absorb now p m).1 !! id (from p) = Some n /\ state n = Alive /\
    last_seen_unix n = now.
Proof.
  intros Hi Hh. rewrite absorb_members, touch_lookup, decide_True by done.
  rewrite merge_member by done. unfold relevant. rewrite filter_app.
  rewrite (filter_cons_True _ (from p)) by done. rewrite filter_nil, foldl_app. simpl.
  unfold upd at 1. destruct (foldl upd _ _); [case_match|]; simpl; eexists; split_and!; done.
Qed.

(** What the server answers to a well-formed message of a node of the same cluster. *)
Lemma handle_accepts now now' pi m m' :
  cluster_hash (me_template m') = cluster_hash (me_template m) ->
  len (json_encode (gossip_payload now m')) <= MAX_GOSSIP_BODY_BYTES ->
  handle now' (mkRequest POST "/cluster/sync" (Some (json_encode (gossip_payload now m')))) pi m
  = ((absorb now' (gossip_payload now m') m).1,
     mkResponse 200 [("content-type", "application/json")]
       (json_encode (gossip_payload now' (absorb now' (gossip_payload now m') m).1)),
     (absorb now' (gossip_payload now m') m).2).
Proof.
  intros Hh Hlen. unfold handle. cbn [method path req_body from_option].
  change (String.eqb "/cluster/sync" "/cluster/sync") with true. cbv iota.
  unfold handle_sync, Datatypes.id.
  rewrite (proj2 (Z.ltb_ge _ _) Hlen), json_roundtrip.
  rewrite bool_decide_true by done. by destruct (absorb _ _ _).
Qed.

Lemma finish_accepts status_text now now' m m' :
  cluster_hash (me_template m') = cluster_hash (me_template m) ->
  gossip_finish status_text now' (Ok (200, Ok (json_encode (gossip_payload now m')))) m
  = (set_stats (inc_gossip_rounds (stats (absorb now' (gossip_payload now m') m).1))
       (absorb now' (gossip_payload now m') m).1, Ok tt, (absorb now' (gossip_payload now m') m).2).
Proof.
  intros Hh. unfold gossip_finish. change (negb (is_success 200)) with false. cbv iota beta.
  rewrite json_roundtrip, bool_decide_true by done. by destruct (absorb _ _ _).
Qed.
End absorbing.

(** ** Theorems *)

(** C19.  One gossip exchange makes two nodes agree: after A posts its table to B and merges B's
    reply, the exchange has succeeded, A and B hold equally recent records - the greater of their
    two - for every third node, and each records the other as alive as of the exchange. *)
Theorem gossip_round_converges {codec : JsonCodec} status_text now now' pi a b i :
  wf a -> wf b -> me_id a <> me_id b ->
  cluster_hash (me_template a) = cluster_hash (me_template b) ->
  len (json_encode (gossip_payload now a)) <= MAX_GOSSIP_BODY_BYTES ->
  let req := mkRequest POST "/cluster/sync" (Some (json_encode (gossip_payload now a))) in
  let b' := (handle now req pi b).1.1 in
  let rsp := (handle now req pi b).1.2 in
  let a' := (gossip_finish status_text now' (Ok (status rsp, Ok (body rsp))) a).1.1 in
  (gossip_finish status_text now' (Ok (status rsp, Ok (body rsp))) a).1.2 = Ok tt /\
  status rsp = 200 /\
  (i <> me_id a -> i <> me_id b ->
     view a' i = view b' i /\ view b' i = join (view b i) (view a i)) /\
  (exists n, members b' !! me_id a = Some n /\ state n = Alive /\ last_seen_unix n = now) /\
  (exists n, members a' !! me_id b = Some n /\ state n = Alive /\ last_seen_unix n = now').
Proof.
  intros Ha Hb Hne Hh Hlen req. subst req.
  rewrite handle_accepts by done. cbn [fst snd status body].
  destruct (absorb_frame now (gossip_payload now a) b) as [Hbid Hbt].
  pose proof (absorb_wf now (gossip_payload now a) b Hb) as Hbw.
  pose proof (absorb_sender now (gossip_payload now a) b) as Hsb.
  pose proof (absorb_view now now b a i Ha) as Hvb.
  set (b' := (absorb now (gossip_payload now a) b).1) in *.
  rewrite finish_accepts by congruence. cbn [fst snd].
  pose proof (absorb_sender now' (gossip_payload now b') a) as Hsa.
  pose proof (absorb_view now' now a b' i Hbw) as Hva.
  set (a' := (absorb now' (gossip_payload now b') a).1) in *.
  change (id (from (gossip_payload now a))) with (id (me_template a)) in Hsb.
  change (id (from (gossip_payload now b'))) with (id (me_template b')) in Hsa.
  rewrite (wf_me _ Ha) in Hsb. rewrite (wf_me _ Hbw), Hbid in Hsa.
  rewrite Hbt, Hbid in Hva. split_and!; try done.
  - intros Hia Hib. specialize (Hvb (eq_sym Hh) Hib Hia). specialize (Hva Hh Hia Hib).
    split; [|done]. rewrite Hvb in Hva |- *. etransitivity; [exact Hva|apply join_absorb].
  - by apply Hsb.
  - apply Hsa; [congruence|]. simpl. congruence.
Qed.

(** ** A concrete codec

    Any injective encoding will do to exercise the theorems; this one lists the bits of the
    payload's [Countable] code. *)
#[export] Program Instance NodeState_countable : Countable NodeState :=
  inj_countable rank (fun z => if z =? 0 then Some Alive else if z =? 1 then Some Suspect else Some Dead) _.
Next Obligation. by intros []. Qed.

#[export] Program Instance NodeInfo_countable : Countable NodeInfo :=
  inj_countable (fun n => (id n, transport_url n, gossip_url n, cluster_hash n,
      ucx_worker_addr_b64 n, (last_seen_unix n, state n, incarnation n, bloom_version n)))
    (fun '(i, t, g, h, u, (l, s, c, b)) => Some (mkNodeInfo i t g h u l s c b)) _.
Next Obligation. by intros []. Qed.

#[export] Instance GossipPayload_eq_decision : EqDecision GossipPayload.
Proof. solve_decision. Defined.

#[export] Program Instance GossipPayload_countable : Countable GossipPayload :=
  inj_countable (fun p => (from p, payload_members p)) (fun '(f, l) => Some (mkGossipPayload f l)) _.
Next Obligation. by intros []. Qed.

Fixpoint bits_of (p : positive) : list byte :=
  match p with xH => [] | xO q => x00 :: bits_of q | xI q => x01 :: bits_of q end.
Fixpoint of_bits (l : list byte) : positive :=
  match l with [] => xH | x00 :: t => xO (of_bits t) | _ :: t => xI (of_bits t) end.

Lemma of_bits_of p : of_bits (bits_of p) = p.
Proof. induction p as [p IH|p IH|]; simpl; by rewrite ?IH. Qed.

Definition bit_encode (p : GossipPayload) : list byte := bits_of (encode p).
Definition bit_decode (b : list byte) : result string GossipPayload :=
  match decode (of_bits b) with Some p => Ok p | None => Err "bad" end.

Lemma bit_roundtrip p : bit_decode (bit_encode p) = Ok p.
Proof. unfold bit_decode, bit_encode. by rewrite of_bits_of, decode_encode. Qed.

Definition bit_codec : JsonCodec := {|
  json_encode := bit_encode; json_decode := bit_decode; json_roundtrip := bit_roundtrip
|}.

Definition demo_b : Membership := new (demo_node "b" 1 100 Alive) demo_stats.
Definition demo_a : Membership := (merge 100 [demo_node "c" 3 90 Alive] demo).1.

Lemma gossip_round_converges_witness :
  let req := mkRequest POST "/cluster/sync"
    (Some (@json_encode bit_codec (gossip_payload 101 demo_a))) in
  let b' := (@handle bit_codec 101 req None demo_b).1.1 in
  view b' "c" = Some (3, 90, 0).
Proof.
  destruct (@gossip_round_converges bit_codec show 101 101 None demo_a demo_b "c") as (_ & _ & H & _).
  - by apply merge_wf, membership_new_wf.
  - by apply membership_new_wf.
  - done.
  - done.
  - apply Z.leb_le. vm_compute. reflexivity.
  - destruct H as [_ H]; [done|done|]. intros req b'. etransitivity; [exact H|]. vm_compute. reflexivity.
Defined.

(** ** What the reply says about the replier *)

(** Merging entries about this node that do not outbid it writes its template, with the current
    incarnation and time, into its own slot. *)
Lemma merge_fold_self now l acc :
  Forall (fun n => id n = me_id acc.1 ->
            incarnation n <= me_incarnation acc.1 /\ state n = Alive) l ->
  let m' := (foldl (merge_one now) acc l).1 in
  me_incarnation m' = me_incarnation acc.1 /\
  (Exists (fun n => id n = me_id acc.1) l ->
     members m' !! me_id acc.1
     = Some (me_with (me_template acc.1) (me_incarnation acc.1)
               (bloom_version (me_template acc.1)) now)) /\
  (Forall (fun n => id n <> me_id acc.1) l ->
     members m' !! me_id acc.1 = members acc.1 !! me_id acc.1).
Proof.
  induction l as [|n l IH] using rev_ind; intros Hl; simpl.
  { split_and!; [done| |done]. intros H. by apply Exists_nil in H. }
  rewrite foldl_snoc. apply Forall_app in Hl as [Hl Hn]. apply Forall_cons in Hn as [Hn _].
  destruct (IH Hl) as (Hi & Hex & Hall). destruct (merge_fold_frame now l acc) as [Hid Ht].
  remember (foldl (merge_one now) acc l) as st eqn:E. clear E. destruct st as [m ups].
  simpl in *. unfold merge_one.
  case_bool_decide as Hme.
  - destruct (Hn ltac:(congruence)) as [Hinc Hst]. unfold merge_self.
    rewrite (bool_decide_true (state n = Alive)) by done. rewrite andb_false_r, orb_false_r.
    rewrite (proj2 (Z.ltb_ge _ _)) by lia. simpl. rewrite Hi, Ht, Hid.
    split_and!; [done|by rewrite lookup_insert_eq|].
    intros [_ H]%Forall_app. apply Forall_cons in H as [H _]. congruence.
  - assert (Hex' : Exists (fun n => id n = me_id acc.1) (l ++ [n]) ->
                   Exists (fun n => id n = me_id acc.1) l).
    { intros [|H]%Exists_app; [done|]. apply Exists_cons in H as [|H]; [congruence|].
      by apply Exists_nil in H. }
    assert (Hall' : Forall (fun n => id n <> me_id acc.1) (l ++ [n]) ->
                    Forall (fun n => id n <> me_id acc.1) l).
    { by intros [? _]%Forall_app. }
    repeat case_match; simpl; rewrite ?lookup_insert_ne by congruence; auto.
Qed.

Lemma relevant_self_singleton m m' x :
  wf m' -> cluster_hash (me_template m) = cluster_hash (me_template m') ->
  members m' !! me_id m' = Some x ->
  relevant m (me_id m') (members_all m') = [x].
Proof.
  intros Hw Hh Hx. pose proof (relevant_members_all m m' (me_id m') Hw Hh) as Hp.
  rewrite Hx in Hp. by apply Permutation_singleton_r in Hp.
Qed.

(** The reply to a gossip message un-announces the replier's Bloom filter: when A already
    lists B and posts its table, B files its own start-up template under its id, with the current
    second, and sends that record ahead of its real announcement; A keeps the first of the two, as
    they tie in precedence, and so records the start-up Bloom version - zero in the daemon, which
    makes A skip B in its next pulls - whatever version B is serving. *)
Lemma reply_loses_bloom_version {codec : JsonCodec} status_text now now' pi a b r :
  wf a -> wf b -> me_id a <> me_id b ->
  cluster_hash (me_template a) = cluster_hash (me_template b) ->
  len (json_encode (gossip_payload now a)) <= MAX_GOSSIP_BODY_BYTES ->
  members a !! me_id b = Some r -> state r = Alive ->
  incarnation r <= me_incarnation b -> last_seen_unix r < now ->
  let req := mkRequest POST "/cluster/sync" (Some (json_encode (gossip_payload now a))) in
  let rsp := (handle now req pi b).1.2 in
  let a' := (gossip_finish status_text now' (Ok (status rsp, Ok (body rsp))) a).1.1 in
  exists x, members a' !! me_id b = Some x /\
    bloom_version x = bloom_version (me_template b).
Proof.
  intros Ha Hb Hne Hh Hlen Hr Hst Hinc Hseen req rsp a'. subst req rsp a'.
  rewrite handle_accepts by done. cbn [fst snd status body].
  destruct (absorb_frame now (gossip_payload now a) b) as [Hbid Hbt].
  pose proof (absorb_wf now (gossip_payload now a) b Hb) as Hbw.
  assert (Hself : members (absorb now (gossip_payload now a) b).1 !! me_id b
     = Some (me_with (me_template b) (me_incarnation b) (bloom_version (me_template b)) now) /\
     me_incarnation (absorb now (gossip_payload now a) b).1 = me_incarnation b).
  { destruct (merge_fold_self now (members_all a ++ [me_snapshot now a]) (b, [])) as (Hi & Hex & _).
    - apply Forall_forall. simpl. intros n [Hn|Hn%list_elem_of_singleton]%elem_of_app Hnid.
      + apply elem_of_members_all in Hn as [j Hj]. destruct (wf_ids _ Ha _ _ Hj). split; congruence.
      + subst n. simpl in Hnid. rewrite (wf_me _ Ha) in Hnid. done.
    - rewrite absorb_members, touch_lookup. rewrite decide_False by (simpl; rewrite (wf_me _ Ha); done).
      split; [apply Hex, Exists_app; left; apply Exists_exists; exists r; split|].
      + apply elem_of_members_all. eauto.
      + apply (wf_ids _ Ha _ _ Hr).
      + unfold absorb. fold (merge now (members_all a ++ [me_snapshot now a]) b) in Hi. simpl.
        destruct (merge _ _ _) as [m1 h]. simpl in *.
        destruct (touch_frame now (id (me_template a)) m1) as (_ & _ & ->). done. }
  destruct Hself as [Hself Hbi]. set (b' := (absorb now (gossip_payload now a) b).1) in *.
  rewrite finish_accepts by congruence. cbn [fst snd]. cbn [members set_stats].
  rewrite absorb_members, touch_lookup. simpl payload_members. simpl from.
  rewrite decide_True by (simpl; rewrite (wf_me _ Hbw); done).
  rewrite merge_member by done. unfold relevant. rewrite filter_app.
  fold (relevant a (me_id b) (members_all b')). rewrite <- Hbid in Hself |- *.
  rewrite (relevant_self_singleton a b' _ Hbw) by (done || congruence).
  rewrite (filter_cons_True _ (me_snapshot now b')) by (simpl; rewrite (wf_me _ Hbw), Hbt; done).
  rewrite Hbid, Hr, filter_nil. simpl. rewrite !should_update_stamp.
  rewrite (proj2 (stamp_lt_iff _ _)) by (simpl; lia). cbv iota.
  assert (Htie : stamp (me_snapshot now b')
    = stamp (me_with (me_template b) (me_incarnation b) (bloom_version (me_template b)) now))
    by (unfold stamp; simpl; by rewrite Hbi).
  unfold upd. rewrite should_update_stamp, Htie. destruct (stamp_lt _ _) eqn:E; [|simpl; eauto].
  pose proof (stamp_lt_asym _ _ E). congruence.
Qed.

(** The periodic rebuild publishes what the disk holds: after one tick of the rebuild loop the
    cache tracks only chunks whose file exists, the local filter claims every one of them, and the
    node's next announcement carries the version of exactly that filter. *)
Lemma rebuild_tick_publishes sha256 c p m :
  Index.bloom_bits p <= u64_max ->
  let '(c', p', m') := rebuild_tick sha256 c p m in
  (forall k, is_Some (Cache.entries (Cache.inner c') !! k) ->
     is_Some (Cache.disk c' !! Cache.path_for sha256 k) /\
     Bloom.contains (key_digest sha256 k) (Index.local_bloom (Index.local p')) = true) /\
  (forall now, bloom_version (me_snapshot now m') = (Index.local_snapshot p').1) /\
  Index.pending p' = [].
Proof.
  intros Hb. unfold rebuild_tick.
  pose proof (Cache.reconciled_disk sha256 c) as Hd.
  pose proof (Cache.reconciled_entries sha256 c) as Hk.
  destruct (Cache.reconcile_with_disk sha256 c) as [c' r]. simpl in *. split_and!; [|done|done].
  intros k He. split; [rewrite Hd; by apply Hk|].
  apply Publish.rebuilt_contains; [by apply Bloom.bloom_new_wf|].
  left. exists k. split; [|done]. by apply Cache.elem_of_live_keys.
Qed.

End Gossip.
