(* ===== verification/Freshness.v ===== *)
(** * From an insert to the filters of the peers

    The components that keep a peer's copy of a node's Bloom filter current, put together: the index
    of the node with its concurrent inserters and rebuilds ([PeerIndex.Publish]), the version hook
    that main.rs connects to [Membership::set_bloom_version] (it runs after the lock is released), the
    announcements that carry the version, the [/cluster/bloom] handler ([Gossip.handle]) and the pull
    loop of a peer ([Gossip.pull_one]), whose request and ingestion are separate steps.  Announcements
    may arrive late and in any order.  The periodic rebuild and the one of [clear_local_state] may
    overlap; [solo] singles out the runs in which rebuilds take turns, the only ones in which the
    filters are complete. *)

From S2P Require Import Prelude ChunkKeys DiskCache Cluster PeerIndex Gossip.

Module Freshness.
Import Cluster Index.

(** [calls] are the versions that inserters, rebuilds and the rebuild loop are about to store, [seen]
    the versions that have been announced, [flight] the reply to the pull that is under way, with
    the version that caused it.  [history] and [since] only record the past: the filter of each
    version, and the version that completed the insert of a chunk that is still tracked. *)
Record Sys := mkSys {
  node : Publish.Node;
  calls : list Z;
  membership : Membership;
  seen : list Z;
  flight : option (Z * Gossip.BloomReply);
  peer : PeerIndex;
  history : gmap Z Bloom.Bloom;
  since : gmap ChunkKey Z
}.

Definition ver (s : Sys) : Z := local_version (local (Publish.idx (node s))).
Definition filt (s : Sys) : Bloom.Bloom := local_bloom (local (Publish.idx (node s))).

(** The hook is called by the two sections that advance the version. *)
Definition called (n n' : Publish.Node) : list Z :=
  let v' := local_version (local (Publish.idx n')) in
  if v' =? local_version (local (Publish.idx n)) then [] else [v'].

Definition advance (n' : Publish.Node) (s : Sys) : Sys :=
  let l := local (Publish.idx n') in
  mkSys n' (called (node s) n' ++ calls s) (membership s) (seen s) (flight s) (peer s)
    (<[local_version l := local_bloom l]> (history s))
    (gset_to_gmap (local_version l) (Publish.noted n' ∖ Publish.noted (node s)) ∪ since s).

Definition set_calls (c : list Z) (m : Membership) (s : Sys) : Sys :=
  mkSys (node s) c m (seen s) (flight s) (peer s) (history s) (since s).
Definition set_seen (l : list Z) (s : Sys) : Sys :=
  mkSys (node s) (calls s) (membership s) l (flight s) (peer s) (history s) (since s).
Definition set_peer (fl : option (Z * Gossip.BloomReply)) (p : PeerIndex) (s : Sys) : Sys :=
  mkSys (node s) (calls s) (membership s) (seen s) fl p (history s) (since s).

(** The closures that main.rs installs: the version hook of the index, and the hook of the membership
    for a node that [sweep] has found dead. *)
Definition on_version_change (v : Z) (m : Membership) : Membership := set_bloom_version v m.
Definition on_peer_dead (id : string) (p : PeerIndex) : PeerIndex := drop_remote id p.

(** The peer's record of the node, with the version it was announced with. *)
Definition entry (me : string) (v : Z) : NodeInfo := mkNodeInfo me "" "" "" None 0 Alive 0 v.

(** What the client makes of the handler's response. *)
Definition header (name : string) (l : list (string * string)) : option string :=
  match list_find (fun h => h.1 = name) l with Some (_, h) => Some h.2 | None => None end.

Definition as_reply (r : Gossip.Response) : Gossip.BloomReply :=
  Ok (Gossip.status r, header "x-blobcache-bloom-version" (Gossip.headers r) ≫= parse_u64, Ok (Gossip.body r)).

Section freshness.
Context {codec : Gossip.JsonCodec} (sha256 : list byte -> list byte) (me : string) (solo : bool).

Definition serve_bloom (now : Z) (s : Sys) : Gossip.BloomReply :=
  as_reply (Gossip.handle now (Gossip.mkRequest Gossip.GET "/cluster/bloom" None)
              (Some (Publish.idx (node s))) (membership s)).1.2.

Definition ingest (r : Z) (reply : Gossip.BloomReply) (p : PeerIndex) (st : Gossip.PullStats) : PeerIndex :=
  (Gossip.pull_one (fun _ => reply) (p, st) (entry me r)).1.

(** Each constructor is one critical section; with [solo] at most one rebuild is under way. *)
Inductive step (s : Sys) : Sys -> Prop :=
| step_node n' :
    Publish.step sha256 (node s) n' -> (solo = true -> (length (Publish.rebuilds n') <= 1)%nat) ->
    step s (advance n' s)
| step_loop : step s (set_calls (ver s :: calls s) (membership s) s)
| step_hook c1 v c2 :
    calls s = c1 ++ v :: c2 -> step s (set_calls (c1 ++ c2) (on_version_change v (membership s)) s)
| step_announce now : step s (set_seen (bloom_version (me_snapshot now (membership s)) :: seen s) s)
| step_serve now r :
    flight s = None -> r ∈ seen s -> step s (set_peer (Some (r, serve_bloom now s)) (peer s) s)
| step_ingest r reply st :
    flight s = Some (r, reply) -> step s (set_peer None (ingest r reply (peer s) st) s)
| step_lost : step s (set_peer None (peer s) s)
| step_dead : step s (set_peer (flight s) (on_peer_dead me (peer s)) s).

(** The node has just started: version 1 and an empty filter; its template carries version 0. *)
Definition starts (s : Sys) : Prop :=
  exists nbits, nbits <= u64_max /\ node s = Publish.start me nbits /\ calls s = [] /\ seen s = [] /\
    me_bloom_version (membership s) = 0 /\ flight s = None /\ remote (peer s) !! me = None /\
    me_id (peer s) <> me /\ history s = {[1 := filt s]} /\ since s = ∅.

Inductive reachable : Sys -> Prop :=
| reach_start s : starts s -> reachable s
| reach_step s s' : reachable s -> step s s' -> reachable s'.

(** ** The invariant *)

(** The filter [b] of version [v] claims what was complete by then and is still there. *)
Definition claims (s : Sys) (v : Z) (b : Bloom.Bloom) : Prop :=
  forall k v0, k ∈ Publish.noted (node s) -> since s !! k = Some v0 -> v0 <= v ->
    Bloom.contains (key_digest sha256 k) b = true.

Record inv (s : Sys) : Prop := {
  iv_node : solo = true -> Publish.inv sha256 (node s);
  iv_bits : Bloom.wf (Bloom.new (bloom_bits (Publish.idx (node s))));
  iv_wf : Bloom.wf (filt s);
  iv_ver : 1 <= ver s;
  iv_now : history s !! ver s = Some (filt s);
  iv_past v b : history s !! v = Some b -> 1 <= v <= ver s /\ Bloom.wf b /\ (solo = true -> claims s v b);
  iv_calls v : v ∈ calls s -> 0 <= v <= ver s;
  iv_announced : 0 <= me_bloom_version (membership s) <= ver s;
  iv_seen v : v ∈ seen s -> 0 <= v <= ver s;
  iv_flight r reply : flight s = Some (r, reply) ->
    exists v b, r <= v /\ history s !! v = Some b /\ reply = Ok (200, Some v, Ok (Bloom.to_bytes b));
  iv_copy c : remote (peer s) !! me = Some c -> history s !! version c = Some (bloom c);
  iv_peer : me_id (peer s) <> me;
  iv_since k : k ∈ Publish.noted (node s) -> exists v, since s !! k = Some v /\ v <= ver s
}.

(** ** Lemmas *)
Lemma node_step n n' :
  Publish.step sha256 n n' ->
  (local (Publish.idx n') = local (Publish.idx n) /\ Publish.noted n' ⊆ Publish.noted n) \/
  local_version (local (Publish.idx n')) = sat_add64 (local_version (local (Publish.idx n))) 1.
Proof using Type.
  clear codec me. intros Hst. destruct Hst; simpl; [left..|by right|left|by right]; (split; [done|]); set_solver.
Qed.

Lemma node_ver s n' :
  Publish.step sha256 (node s) n' -> local_version (local (Publish.idx n')) < u64_max ->
  ver (advance n' s) = ver s \/ ver (advance n' s) = ver s + 1.
Proof using Type.
  unfold ver. intros [[Hl _]|Hv]%node_step Hm; cbn [advance node]; [left; by rewrite Hl|right].
  rewrite Hv in *. u64_lia.
Qed.

Lemma step_ver s s' : step s s' -> ver s' < u64_max -> ver s <= ver s'.
Proof using Type.
  intros Hst Hm. destruct Hst as [n' Hn Hl| | | | | | |]; [|done..].
  destruct (node_ver s n' Hn Hm); lia.
Qed.

(** Filters keep their shape whatever overlaps. *)
Lemma node_filter_wf n n' :
  Publish.step sha256 n n' -> Bloom.wf (Bloom.new (bloom_bits (Publish.idx n))) ->
  Bloom.wf (local_bloom (local (Publish.idx n))) ->
  Bloom.wf (Bloom.new (bloom_bits (Publish.idx n'))) /\ Bloom.wf (local_bloom (local (Publish.idx n'))).
Proof using Type.
  clear codec me. intros Hst Hb Hw. destruct Hst; simpl in *; split; try done.
  - by apply Bloom.insert_wf.
  - by apply Bloom.insert_all_wf, Bloom.insert_all_wf.
Qed.

(** Sections that leave the node alone. *)
Lemma inv_frame s s' :
  inv s -> node s' = node s -> history s' = history s -> since s' = since s ->
  (forall v, v ∈ calls s' -> 0 <= v <= ver s) -> 0 <= me_bloom_version (membership s') <= ver s ->
  (forall v, v ∈ seen s' -> 0 <= v <= ver s) ->
  (forall r reply, flight s' = Some (r, reply) ->
    exists v b, r <= v /\ history s !! v = Some b /\ reply = Ok (200, Some v, Ok (Bloom.to_bytes b))) ->
  (forall c, remote (peer s') !! me = Some c -> history s !! version c = Some (bloom c)) ->
  me_id (peer s') <> me -> inv s'.
Proof using Type.
  intros [] Hn Hh Hs Hc Hm Hse Hf Hp Hid. unfold claims, ver, filt in *.
  split; unfold claims, ver, filt; rewrite ?Hn, ?Hh, ?Hs; done.
Qed.

Lemma lookup_since s n' k :
  since (advance n' s) !! k =
  if decide (k ∈ Publish.noted n' ∖ Publish.noted (node s)) then Some (ver (advance n' s)) else since s !! k.
Proof using Type.
  clear codec. cbn [advance since]. case_decide as Hk.
  - apply lookup_union_Some_l, lookup_gset_to_gmap_Some. done.
  - apply lookup_union_r, lookup_gset_to_gmap_None. done.
Qed.

Lemma inv_advance s n' :
  inv s -> Publish.step sha256 (node s) n' -> (solo = true -> (length (Publish.rebuilds n') <= 1)%nat) ->
  ver (advance n' s) < u64_max -> inv (advance n' s).
Proof using Type.
  intros Hs Hst Hl Hm. set (s' := advance n' s). pose proof (node_ver s n' Hst Hm) as Hv. fold s' in Hv.
  assert (Hn' : solo = true -> Publish.inv sha256 n')
    by (intros Hso; eapply Publish.step_inv; [by apply iv_node|done|by apply Hl]).
  destruct (node_filter_wf _ _ Hst (iv_bits s Hs) (iv_wf s Hs)) as [Hb' Hw'].
  assert (Hh : forall v, history s' !! v = if decide (v = ver s') then Some (filt s') else history s !! v).
  { intros v. change (history s') with (<[ver s' := filt s']> (history s)). rewrite lookup_insert.
    repeat case_decide; congruence. }
  assert (Hkeep : forall v b, history s !! v = Some b -> history s' !! v = Some b).
  { intros v b Hb. rewrite Hh. case_decide as Hvv; [|done]. subst v. destruct (iv_past s Hs _ _ Hb) as [Hr _].
    destruct (node_step _ _ Hst) as [[Hloc _]|Hbump].
    - assert (filt s' = filt s /\ ver s' = ver s) as [Hf Hve] by (unfold filt, ver, s'; cbn [advance node]; by rewrite Hloc).
      pose proof (iv_now s Hs). congruence.
    - unfold ver in *. cbn [s' advance node] in *. rewrite Hbump in *. u64_lia. }
  assert (Hsince : forall k, since s' !! k =
    if decide (k ∈ Publish.noted n' ∖ Publish.noted (node s)) then Some (ver s') else since s !! k)
    by apply lookup_since.
  split; [done|done|done| | |..].
  - pose proof (iv_ver s Hs). lia.
  - rewrite Hh. by rewrite decide_True.
  - intros v b. rewrite Hh. case_decide as Hvv.
    + intros [= <-]. subst v. split; [pose proof (iv_ver s Hs); lia|]. split; [done|].
      intros Hso k v0 Hk _ _. by apply (Publish.inv_contains _ _ (Hn' Hso)).
    + intros Hb. destruct (iv_past s Hs v b Hb) as (Hr & Hw & Hcl). split_and!; [lia|lia|done|].
      intros Hso k v0 Hk. rewrite Hsince. case_decide as Hnew; [intros [= <-]; lia|]. apply (Hcl Hso).
      destruct (decide (k ∈ Publish.noted (node s))); [done|]. destruct Hnew. by apply elem_of_difference.
  - intros v. cbn [s' advance calls]. rewrite elem_of_app. intros [Hc|Hc]; [|pose proof (iv_calls s Hs v Hc); lia].
    unfold called in Hc. case_match; [by apply not_elem_of_nil in Hc|]. apply list_elem_of_singleton in Hc as ->.
    change (0 <= ver s' <= ver s'). pose proof (iv_ver s Hs). lia.
  - pose proof (iv_announced s Hs). cbn [s' advance membership]. lia.
  - intros v Hin. pose proof (iv_seen s Hs v Hin). lia.
  - intros r reply Hf. destruct (iv_flight s Hs r reply Hf) as (v & b & ? & ? & ?).
    exists v, b. auto.
  - intros c Hc. by apply Hkeep, (iv_copy s Hs).
  - apply (iv_peer s Hs).
  - intros k Hk. rewrite Hsince. case_decide as Hnew; [exists (ver s'); split; [done|lia]|].
    destruct (iv_since s Hs k) as (v & ? & ?); [|exists v; split; [done|lia]].
    destruct (decide (k ∈ Publish.noted (node s))); [done|]. destruct Hnew. by apply elem_of_difference.
Qed.

Lemma serve_reply now s :
  is_u64 (ver s) -> serve_bloom now s = Ok (200, Some (ver s), Ok (Bloom.to_bytes (filt s))).
Proof using Type. intros Hv. unfold serve_bloom, as_reply, header. simpl. by rewrite parse_show. Qed.

(** The ingestion of a reply of the node. *)
Lemma ingest_reply r v b p st :
  Bloom.wf b -> me_id p <> me ->
  ingest r (Ok (200, Some v, Ok (Bloom.to_bytes b))) p st = p \/
  ingest r (Ok (200, Some v, Ok (Bloom.to_bytes b))) p st
    = set_remote (<[me := mkRemoteBloom v b]> (remote p)) p.
Proof using Type.
  intros Hw Hid. unfold ingest, Gossip.pull_one. cbn [entry id bloom_version].
  rewrite bool_decide_eq_false_2 by congruence. destruct (r =? 0); [by left|]. destruct (_ <=? _); [by left|].
  cbn [is_success]. simpl. unfold ingest_remote. rewrite Bloom.from_to_bytes by done. by right.
Qed.

Lemma inv_ingest s r reply st :
  inv s -> flight s = Some (r, reply) -> inv (set_peer None (ingest r reply (peer s) st) s).
Proof using Type.
  intros Hs Hf. destruct (iv_flight s Hs r reply Hf) as (v & b & Hr & Hb & ->).
  destruct (iv_past s Hs v b Hb) as (_ & Hw & _). pose proof (iv_peer s Hs) as Hid. pose proof (iv_copy s Hs) as Hc.
  assert (Hp : forall p, p = peer s \/ p = set_remote (<[me := mkRemoteBloom v b]> (remote (peer s))) (peer s) ->
    me_id p <> me /\ forall c, remote p !! me = Some c -> history s !! version c = Some (bloom c)).
  { intros p [->| ->]; [done|]. split; [done|]. intros c. cbn [set_remote remote]. rewrite lookup_insert_eq.
    by intros [= <-]. }
  destruct (Hp _ (ingest_reply r v b (peer s) st Hw Hid)) as [H1 H2].
  apply (inv_frame s); try done; [apply (iv_calls s Hs)|apply (iv_announced s Hs)|apply (iv_seen s Hs)].
Qed.

Lemma freshness_step s s' : inv s -> step s s' -> ver s' < u64_max -> inv s'.
Proof using Type.
  intros Hs Hst Hm. pose proof (iv_ver s Hs) as Hv. pose proof (iv_calls s Hs) as Hca.
  pose proof (iv_announced s Hs) as Han. pose proof (iv_seen s Hs) as Hse. pose proof (iv_flight s Hs) as Hfl.
  pose proof (iv_copy s Hs) as Hco. pose proof (iv_peer s Hs) as Hid.
  destruct Hst as [n' Hn Hl| |c1 v c2 Hc|now|now r Hf Hr|r reply st Hf| |];
    [by apply inv_advance| | | | |by apply inv_ingest| |]; apply (inv_frame s); try done;
    cbn [set_calls set_seen set_peer calls membership seen flight peer].
  - intros v [->|?]%elem_of_cons; [lia|auto].
  - intros x Hx. apply Hca. rewrite Hc. rewrite elem_of_app in *. rewrite elem_of_cons. tauto.
  - apply Hca. rewrite Hc. apply elem_of_app. right. by left.
  - intros v [->|?]%elem_of_cons; auto.
  - intros x reply [= <- <-]. exists (ver s), (filt s). pose proof (Hse r Hr).
    split_and!; [lia|apply (iv_now s Hs)|]. apply serve_reply. change (ver s < u64_max) in Hm. u64_lia.
  - intros c. cbn [on_peer_dead drop_remote set_remote remote]. by rewrite lookup_delete_eq.
Qed.

Lemma reachable_fresh s : reachable s -> ver s < u64_max -> inv s.
Proof using Type.
  induction 1 as [s (nb & Hnb & Hn & Hc & Hse & Hm & Hf & Hr & Hid & Hh & Hsi)|s s' _ IH Hst]; intros Hmax.
  - assert (ver s = 1) as Hv by (unfold ver; by rewrite Hn). split; rewrite ?Hc, ?Hse, ?Hm, ?Hf, ?Hr, ?Hv; try done.
    + rewrite Hn. intros _. by apply Publish.inv_start.
    + rewrite Hn. by apply Bloom.bloom_new_wf.
    + unfold filt. rewrite Hn. by apply Bloom.bloom_new_wf.
    + rewrite Hh. by rewrite lookup_singleton_eq.
    + intros v b. rewrite Hh. intros [<- <-]%lookup_singleton_Some. split; [lia|]. split.
      * unfold filt. rewrite Hn. by apply Bloom.bloom_new_wf.
      * intros _ k v0. rewrite Hn. simpl. set_solver.
    + intros v Hin. by apply not_elem_of_nil in Hin.
    + intros v Hin. by apply not_elem_of_nil in Hin.
    + intros k. rewrite Hn. simpl. set_solver.
  - pose proof (step_ver s s' Hst Hmax). eapply freshness_step; [apply IH; lia|done|done].
Qed.

(** ** Theorem *)

(** C16.  Peers are kept fresh: in every interleaving of inserters, rebuilds, hooks, late announcements,
    pulls and lost replies, and as long as the version has not reached the largest u64, no version is
    announced that the node has not reached; a peer's copy is the filter the node had at the version
    of the copy; a peer skips a pull only when its copy is at least as new as the announced version;
    and a peer that pulls gets the current filter with its version.  If, in addition, rebuilds do not
    overlap ([solo]), the copy claims every chunk whose insert completed by its version and which has
    stayed in the cache, so that a skipped pull misses no such chunk of the announced version. *)
Theorem filters_fresh s :
  reachable s -> ver s < u64_max ->
  me_bloom_version (membership s) <= ver s /\ (forall r, r ∈ seen s -> r <= ver s) /\
  (forall c, remote (peer s) !! me = Some c ->
     version c <= ver s /\ history s !! version c = Some (bloom c) /\
     (version c = ver s -> bloom c = filt s) /\ (solo = true -> claims s (version c) (bloom c))) /\
  (forall r get st, r ∈ seen s -> 0 < r -> r <= default 0 (remote_version me (peer s)) ->
     Gossip.pull_one get (peer s, st) (entry me r) = (peer s, st) /\
     exists c, remote (peer s) !! me = Some c /\ r <= version c /\ (solo = true -> claims s r (bloom c))) /\
  (forall r now st, r ∈ seen s -> default 0 (remote_version me (peer s)) < r ->
     remote (ingest r (serve_bloom now s) (peer s) st) !! me = Some (mkRemoteBloom (ver s) (filt s))).
Proof using Type.
  intros Hr Hm. pose proof (reachable_fresh s Hr Hm) as Hs. pose proof (iv_peer s Hs) as Hid.
  assert (Hcopy : forall c, remote (peer s) !! me = Some c -> history s !! version c = Some (bloom c) /\
    1 <= version c <= ver s /\ (solo = true -> claims s (version c) (bloom c))).
  { intros c Hc%(iv_copy s Hs). by destruct (iv_past s Hs _ _ Hc) as (? & _ & ?). }
  split_and!.
  - apply (iv_announced s Hs).
  - intros r Hin. by apply (iv_seen s Hs).
  - intros c Hc. destruct (Hcopy c Hc) as (Hh & Hle & Hcl). split_and!; [lia|done| |done].
    intros He. rewrite He, (iv_now s Hs) in Hh. by injection Hh.
  - intros r get st Hin H0 Hle. unfold Gossip.pull_one. cbn [entry id bloom_version]. split.
    + destruct (bool_decide _); [done|]. destruct (r =? 0); [done|]. by rewrite (proj2 (Z.leb_le _ _) Hle).
    + unfold remote_version in Hle. destruct (remote (peer s) !! me) as [c|] eqn:Ec; [|simpl in Hle; lia].
      exists c. split; [done|]. simpl in Hle. destruct (Hcopy c eq_refl) as (_ & _ & Hcl).
      split; [done|]. intros Hso k v0 Hk Hv0 Hle0. apply (Hcl Hso k v0); [done|done|lia].
  - intros r now st Hin Hlt. rewrite serve_reply by (pose proof (iv_ver s Hs); u64_lia). unfold ingest, Gossip.pull_one.
    cbn [entry id bloom_version]. rewrite bool_decide_eq_false_2 by congruence.
    assert (0 <= default 0 (remote_version me (peer s))).
    { unfold remote_version. destruct (remote (peer s) !! me) as [c|] eqn:Ec; simpl; [|lia].
      destruct (Hcopy c eq_refl) as (_ & ? & _). lia. }
    rewrite (proj2 (Z.eqb_neq r 0)), (proj2 (Z.leb_gt _ _) Hlt) by lia. cbn [is_success]. simpl. unfold ingest_remote.
    rewrite Bloom.from_to_bytes by apply (iv_wf s Hs). apply lookup_insert_eq.
Qed.
End freshness.

(** ** A chunk reaches a peer *)
#[local] Existing Instance Gossip.bit_codec.

Definition demo_key : ChunkKey := mkChunkKey "m" "b" 0.
Definition demo_sha (l : list byte) : list byte := l.

Definition demo_start : Sys :=
  mkSys (Publish.start "a" 64) [] (Cluster.new (entry "a" 0) (mkClusterStats 0 0 0 0)) [] None (Index.new "b" 64)
    {[1 := Bloom.new 64]} ∅.

Lemma demo_starts : reachable demo_sha "a" true demo_start.
Proof. apply reach_start. exists 64. by split_and!. Qed.

(** The three sections of an insert. *)
Definition committed (n : Publish.Node) : Publish.Node :=
  Publish.mkNode (Publish.idx n) ({[demo_key]} ∪ Publish.live n) ((demo_key, true) :: Publish.writers n)
    (Publish.pushers n) (Publish.noted n) (Publish.rebuilds n).
Definition pushed (n : Publish.Node) : Publish.Node :=
  Publish.mkNode (note_pending (key_digest demo_sha demo_key) (Publish.idx n)) (Publish.live n)
    (tail (Publish.writers n)) ((demo_key, true) :: Publish.pushers n) (Publish.noted n) (Publish.rebuilds n).
Definition bits_set (n : Publish.Node) : Publish.Node :=
  Publish.mkNode (note_bloom (key_digest demo_sha demo_key) (Publish.idx n)).1 (Publish.live n) (Publish.writers n)
    (tail (Publish.pushers n)) ({[demo_key]} ∪ Publish.noted n) (Publish.rebuilds n).

Definition noted_once (s : Sys) : Sys :=
  advance (bits_set (pushed (committed (node s)))) (advance (pushed (committed (node s))) (advance (committed (node s)) s)).

Lemma demo_inserted s :
  reachable demo_sha "a" true s -> (length (Publish.rebuilds (node s)) <= 1)%nat -> reachable demo_sha "a" true (noted_once s).
Proof.
  intros Hs Hr. set (s1 := advance (committed (node s)) s). set (s2 := advance (pushed (committed (node s))) s1).
  apply (reach_step _ _ _ s2); [apply (reach_step _ _ _ s1); [apply (reach_step _ _ _ s)|]|]; [done|..]; apply step_node;
    try exact (fun _ => Hr).
  - apply (Publish.step_commit demo_sha (node s) demo_key).
  - by apply (Publish.step_push demo_sha (committed (node s)) demo_key true [] (Publish.writers (node s))).
  - by apply (Publish.step_bits demo_sha (pushed (committed (node s))) demo_key true [] (Publish.pushers (node s))).
Qed.

(** The hook has run, the version was announced and the peer has pulled. *)
Definition demo_announced : Sys :=
  let s := noted_once demo_start in
  let s := set_calls [] (set_bloom_version 2 (membership s)) s in
  set_seen [2] s.

Definition demo_pulled : Sys :=
  let s := set_peer (Some (2, serve_bloom 0 demo_announced)) (peer demo_announced) demo_announced in
  set_peer None (ingest "a" 2 (serve_bloom 0 demo_announced) (peer s) (Gossip.mkPullStats 0 0)) s.

Lemma demo_pulled_reachable : reachable demo_sha "a" true demo_pulled.
Proof.
  eapply reach_step; [eapply reach_step; [eapply reach_step; [eapply reach_step;
    [apply (demo_inserted demo_start); [exact demo_starts|simpl; lia]|]|]|]|].
  - by apply (step_hook _ _ true (noted_once demo_start) [] 2 []).
  - by apply (step_announce _ _ true _ 0).
  - apply (step_serve _ _ true demo_announced 0 2); [done|]. by left.
  - by apply (step_ingest _ _ true (set_peer (Some (2, serve_bloom 0 demo_announced)) (peer demo_announced) demo_announced)).
Qed.

Lemma filters_fresh_witness :
  exists c, remote (peer demo_pulled) !! "a" = Some c /\ version c = 2 /\
    Bloom.contains (key_digest demo_sha demo_key) (bloom c) = true.
Proof.
  destruct (filters_fresh demo_sha "a" true demo_pulled) as (_ & _ & _ & Hskip & _); [exact demo_pulled_reachable|done|].
  destruct (Hskip 2 (fun _ => Ok (500, None, Ok [])) (Gossip.mkPullStats 0 0)) as [_ (c & Hc & _ & Hcl)];
    [by left|done|vm_compute; discriminate|].
  exists c. split; [exact Hc|]. split; [|by apply (Hcl eq_refl demo_key 2)].
  assert (Hv : version <$> remote (peer demo_pulled) !! "a" = Some 2) by (vm_compute; reflexivity).
  rewrite Hc in Hv. by injection Hv.
Defined.

(** The hooks of two inserts may run in the other order: the older version is then announced, with no
    call left to correct it, until the next insert or rebuild. *)
Lemma announcement_can_lag :
  exists s, reachable demo_sha "a" true s /\ calls s = [] /\ ver s = 3 /\ me_bloom_version (membership s) = 2.
Proof.
  set (s2 := noted_once (noted_once demo_start)).
  assert (H2 : reachable demo_sha "a" true s2).
  { apply demo_inserted; [apply demo_inserted; [exact demo_starts|simpl; lia]|simpl; lia]. }
  exists (set_calls [] (set_bloom_version 2 (set_bloom_version 3 (membership s2)))
           (set_calls [2] (set_bloom_version 3 (membership s2)) s2)). split_and!; [|done|done|done].
  eapply reach_step; [eapply reach_step; [exact H2|]|].
  - by apply (step_hook _ _ true s2 [] 3 [2]).
  - by apply (step_hook _ _ true (set_calls [2] (set_bloom_version 3 (membership s2)) s2) [] 2 []).
Qed.
End Freshness.
