(* ===== verification/Wire.v ===== *)
(** * The UCX wire protocol (src/src/transport_ucx.rs)

    Encoding and decoding of chunk requests and responses, byte for byte.  The cursor [idx] of the
    decoder is threaded through the readers; [String::from_utf8] is the validity test of the
    prelude, and the text of its error is the parameter [utf8_error]. *)

From S2P Require Import Prelude ChunkKeys.

Module Wire.

Definition MAGIC : Z := 3155214337. (* 0xBC10_C001 *)
Definition STATUS_OK : Z := 0.
Definition STATUS_MISS : Z := 1.
Definition STATUS_ERR : Z := 2.
Definition MAX_RESPONSE_BYTES : Z := 64 * 1024 * 1024.

Record ChunkRequest := mkChunkRequest {
  key : ChunkKey;
  length : Z;
  requester_peer_id : string;
  wait_ms : Z;
  request_id : string
}.

(** ** Requests *)
Definition encode_request (k : ChunkKey) (length : Z) (requester : string) (wait_ms : Z)
    (request_id : string) : res (list byte) :=
  let mount := str_bytes (mount k) in
  let blob := str_bytes (blob k) in
  let requester := str_bytes requester in
  let rid := str_bytes request_id in
  if 255 <? len mount then Err (Peer "mount name too long") else
  if 65535 <? len blob then Err (Peer "blob name too long") else
  if 65535 <? len requester then Err (Peer "requester peer id too long") else
  if 128 <? len rid then Err (Peer "request id too long") else
  Ok (be_bytes 4 MAGIC
      ++ [byte_of (len mount)] ++ mount
      ++ be_bytes 2 (len blob) ++ blob
      ++ be_bytes 8 (offset k)
      ++ be_bytes 4 length
      ++ be_bytes 2 (len requester) ++ requester
      ++ be_bytes 4 wait_ms
      ++ be_bytes 2 (len rid) ++ rid).

Definition eof : BcError := Peer "unexpected end of request".

Definition read_u8 (data : list byte) (idx : Z) : res (Z * Z) :=
  match data !! Z.to_nat idx with
  | Some b => Ok (byte_val b, idx + 1)
  | None => Err eof
  end.

Definition read_slice (data : list byte) (idx n : Z) : res (list byte * Z) :=
  if sat_sub (len data) idx <? n then Err eof
  else Ok (slice data idx (idx + n), idx + n).

Definition read_be (w : nat) (data : list byte) (idx : Z) : res (Z * Z) :=
  let? (b, idx) := read_slice data idx (Z.of_nat w) in Ok (be_val b, idx).

Definition rid_char (b : byte) : bool := is_ascii_alphanumeric b || (byte_val b =? 45).

Section decode.
Context (utf8_error : list byte -> string).

Definition read_utf8 (data : list byte) (idx n : Z) (field : string) : res (string * Z) :=
  let? (b, idx) := read_slice data idx n in
  if utf8_valid b then Ok (bytes_str b, idx)
  else Err (Peer (field +:+ " utf8: " +:+ utf8_error b)).

(** The optional request id at the end of a frame. *)
Definition read_request_id (data : list byte) (idx : Z) : res (string * Z) :=
  if idx + 2 <=? len data then
    let? (n, idx) := read_be 2 data idx in
    if 128 <? n then Err (Peer "request id too long") else
    let? (s, idx) := read_utf8 data idx n "request_id" in
    if forallb rid_char (str_bytes s) then Ok (s, idx)
    else Err (Peer "request id has invalid chars")
  else Ok ("", idx).

Definition decode_request (data : list byte) : res ChunkRequest :=
  let? (magic, idx) := read_be 4 data 0 in
  if negb (magic =? MAGIC) then Err (Peer ("bad magic 0x" +:+ hex (be_bytes 4 magic))) else
  let? (mount_len, idx) := read_u8 data idx in
  let? (mount, idx) := read_utf8 data idx mount_len "mount" in
  let? (blob_len, idx) := read_be 2 data idx in
  let? (blob, idx) := read_utf8 data idx blob_len "blob" in
  let? (offset, idx) := read_be 8 data idx in
  let? (length, idx) := read_be 4 data idx in
  let? (requester_len, idx) := read_be 2 data idx in
  let? (requester, idx) := read_utf8 data idx requester_len "requester_peer_id" in
  let? (wait_ms, idx) := if idx + 4 <=? len data then read_be 4 data idx else Ok (0, idx) in
  let? (rid, idx) := read_request_id data idx in
  if negb (idx =? len data) then Err (Peer "trailing bytes in request") else
  Ok (mkChunkRequest (mkChunkKey mount blob offset) length requester wait_ms rid).
End decode.

(** ** Responses *)
Definition encode_response (status : Z) (payload : list byte) : res (list byte) :=
  if MAX_RESPONSE_BYTES <? len payload
  then Err (Peer ("response too large: " +:+ show (len payload) +:+ " bytes"))
  else Ok (le_bytes 4 status ++ le_bytes 4 (len payload) ++ payload).

Definition decode_response (data : list byte) (expected_len : Z) : res (list byte) :=
  if len data <? 8 then Err (Peer ("short UCX response: " +:+ show (len data) +:+ " bytes")) else
  let status := le_val (slice data 0 4) in
  let payload_len := le_val (slice data 4 8) in
  let payload := drop 8 data in
  if negb (payload_len =? len payload) then
    Err (Peer ("UCX response length mismatch: header " +:+ show payload_len +:+ " body "
                 +:+ show (len payload))) else
  if status =? STATUS_OK then
    if (payload_len =? 0) || (MAX_RESPONSE_BYTES <? payload_len)
    then Err (Peer ("bad resp len " +:+ show payload_len))
    else if expected_len <? payload_len
    then Err (Peer ("response larger than requested: got " +:+ show payload_len +:+ ", expected "
                      +:+ show expected_len))
    else Ok payload
  else if status =? STATUS_MISS then Err (NotFound "peer miss")
  else if status =? STATUS_ERR then Err (Peer "ucx peer returned error")
  else Err (Peer ("ucx peer status " +:+ show status)).

(** ** Lemmas on the readers

    Each reader consumes its own encoding off the front of what is left. *)
Section reading.
Context (utf8_error : list byte -> string).

(** [at_idx data idx rest]: the cursor stands in front of [rest]. *)
Definition at_idx (data : list byte) (idx : Z) (rest : list byte) : Prop :=
  0 <= idx /\ idx + len rest = len data /\ drop (Z.to_nat idx) data = rest.

Lemma at_start data : at_idx data 0 data.
Proof. unfold at_idx. split_and!; [lia|lia|by rewrite drop_0]. Qed.

Lemma at_advance data idx a rest : at_idx data idx (a ++ rest) -> at_idx data (idx + len a) rest.
Proof.
  unfold at_idx. intros (H0 & Hl & Hd). rewrite len_app in Hl. pose proof (len_nonneg a).
  split_and!; [lia|lia|].
  rewrite Z2Nat.inj_add, <- drop_drop, Hd by lia. unfold len. rewrite Nat2Z.id.
  apply drop_app_length.
Qed.

Lemma read_slice_at data idx a rest n :
  at_idx data idx (a ++ rest) -> n = len a -> read_slice data idx n = Ok (a, idx + n).
Proof.
  intros (H0 & Hl & Hd) ->. unfold read_slice. rewrite len_app in Hl.
  pose proof (len_nonneg rest). pose proof (len_nonneg a).
  rewrite (proj2 (Z.ltb_ge _ _)) by (unfold sat_sub; lia).
  unfold slice. rewrite Hd. replace (idx + len a - idx) with (len a) by lia.
  unfold len. rewrite Nat2Z.id. by rewrite take_app_length.
Qed.

Lemma read_be_at data idx w z rest :
  at_idx data idx (be_bytes w z ++ rest) -> 0 <= z < 256 ^ Z.of_nat w ->
  read_be w data idx = Ok (z, idx + Z.of_nat w).
Proof.
  intros Ha Hz. unfold read_be.
  rewrite (read_slice_at _ _ _ _ _ Ha) by (unfold len; by rewrite length_be_bytes).
  simpl. by rewrite be_val_bytes_small.
Qed.

Lemma read_u8_at data idx b rest :
  at_idx data idx (b :: rest) -> read_u8 data idx = Ok (byte_val b, idx + 1).
Proof.
  intros (H0 & Hl & Hd). unfold read_u8.
  assert (data !! Z.to_nat idx = Some b) as ->; [|done].
  replace (Z.to_nat idx) with (Z.to_nat idx + 0)%nat by lia. by rewrite <- lookup_drop, Hd.
Qed.

Lemma read_utf8_at data idx s rest n field :
  at_idx data idx (str_bytes s ++ rest) -> n = str_len s -> utf8_valid (str_bytes s) = true ->
  read_utf8 utf8_error data idx n field = Ok (s, idx + n).
Proof.
  intros Ha -> Hv. unfold read_utf8. rewrite (read_slice_at _ _ _ _ _ Ha) by done.
  simpl. by rewrite Hv, bytes_str_bytes.
Qed.

(** Stepping the cursor over a fixed-width field. *)
Lemma at_be data idx w z rest :
  at_idx data idx (be_bytes w z ++ rest) -> at_idx data (idx + Z.of_nat w) rest.
Proof. intros H%at_advance. unfold len in H. by rewrite length_be_bytes in H. Qed.

Lemma at_u8 data idx b rest : at_idx data idx (b :: rest) -> at_idx data (idx + 1) rest.
Proof. apply (at_advance data idx [b] rest). Qed.

Lemma at_len data idx rest : at_idx data idx rest -> idx + len rest = len data.
Proof. by intros (_ & ? & _). Qed.
End reading.

(** The fields every frame has. *)
Definition request_head (k : ChunkKey) (n : Z) (requester : string) : list byte :=
  be_bytes 4 MAGIC ++ byte_of (str_len (mount k)) :: str_bytes (mount k)
  ++ be_bytes 2 (str_len (blob k)) ++ str_bytes (blob k)
  ++ be_bytes 8 (offset k) ++ be_bytes 4 n
  ++ be_bytes 2 (str_len requester) ++ str_bytes requester.

(** What the encoder accepts and what a Rust [String] and the field widths guarantee. *)
Record encodable (k : ChunkKey) (n : Z) (requester : string) : Prop := {
  enc_mount : str_len (mount k) <= 255;
  enc_blob : str_len (blob k) <= 65535;
  enc_requester : str_len requester <= 65535;
  enc_mount_utf8 : utf8_valid (str_bytes (mount k)) = true;
  enc_blob_utf8 : utf8_valid (str_bytes (blob k)) = true;
  enc_requester_utf8 : utf8_valid (str_bytes requester) = true;
  enc_offset : is_u64 (offset k);
  enc_length : is_u32 n
}.

Section decoding.
Context (utf8_error : list byte -> string).

(** The decoder after the head. *)
Definition decode_rest (data : list byte) (idx : Z) (k : ChunkKey) (n : Z) (requester : string)
    : res ChunkRequest :=
  let? (wait_ms, idx) := if idx + 4 <=? len data then read_be 4 data idx else Ok (0, idx) in
  let? (rid, idx) := read_request_id utf8_error data idx in
  if negb (idx =? len data) then Err (Peer "trailing bytes in request") else
  Ok (mkChunkRequest k n requester wait_ms rid).

Lemma decode_head k n requester tail :
  encodable k n requester ->
  exists idx, at_idx (request_head k n requester ++ tail) idx tail /\
    decode_request utf8_error (request_head k n requester ++ tail)
    = decode_rest (request_head k n requester ++ tail) idx k n requester.
Proof.
  intros [Hm Hb Hr Um Ub Ur Ho Hn]. set (data := request_head k n requester ++ tail).
  pose proof (at_start data) as Hat. unfold data at 2, request_head in Hat.
  rewrite <- !app_assoc in Hat. cbn [app] in Hat. rewrite <- !app_assoc in Hat.
  assert (Hpos : forall s, 0 <= str_len s) by (intros; apply len_nonneg).
  unfold decode_request.
  rewrite (read_be_at _ _ _ _ _ Hat) by done. apply at_be in Hat. cbn [rbind].
  rewrite Z.eqb_refl. cbn [negb].
  rewrite (read_u8_at _ _ _ _ Hat). apply at_u8 in Hat. cbn [rbind].
  rewrite byte_val_of, Z.mod_small by (specialize (Hpos (mount k)); lia).
  rewrite (read_utf8_at utf8_error _ _ _ _ _ _ Hat eq_refl Um). apply at_advance in Hat. cbn [rbind].
  fold (str_len (mount k)) in Hat.
  rewrite (read_be_at _ _ _ _ _ Hat)
    by (specialize (Hpos (blob k)); change (256 ^ Z.of_nat 2) with 65536; lia).
  apply at_be in Hat. cbn [rbind].
  rewrite (read_utf8_at utf8_error _ _ _ _ _ _ Hat eq_refl Ub). apply at_advance in Hat. cbn [rbind].
  fold (str_len (blob k)) in Hat.
  rewrite (read_be_at _ _ _ _ _ Hat) by (change (256 ^ Z.of_nat 8) with u64_mod; u64_lia).
  apply at_be in Hat. cbn [rbind].
  rewrite (read_be_at _ _ _ _ _ Hat) by (change (256 ^ Z.of_nat 4) with u32_mod; u64_lia).
  apply at_be in Hat. cbn [rbind].
  rewrite (read_be_at _ _ _ _ _ Hat)
    by (specialize (Hpos requester); change (256 ^ Z.of_nat 2) with 65536; lia).
  apply at_be in Hat. cbn [rbind].
  rewrite (read_utf8_at utf8_error _ _ _ _ _ _ Hat eq_refl Ur). apply at_advance in Hat. cbn [rbind].
  fold (str_len requester) in Hat. eexists. split; [exact Hat|]. unfold decode_rest. by destruct k.
Qed.

Lemma read_request_id_at data idx rid :
  at_idx data idx (be_bytes 2 (str_len rid) ++ str_bytes rid) ->
  str_len rid <= 128 -> utf8_valid (str_bytes rid) = true ->
  forallb rid_char (str_bytes rid) = true ->
  read_request_id utf8_error data idx = Ok (rid, len data).
Proof.
  intros Hat Hl Hu Hc. assert (0 <= str_len rid) by apply len_nonneg.
  pose proof (at_len _ _ _ Hat) as Hlen. rewrite len_app in Hlen. unfold len at 1 in Hlen.
  rewrite length_be_bytes in Hlen. fold (str_len rid) in Hlen.
  unfold read_request_id. rewrite (proj2 (Z.leb_le _ _)) by lia.
  rewrite (read_be_at _ _ _ _ _ Hat) by (change (256 ^ Z.of_nat 2) with 65536; lia).
  apply at_be in Hat. cbn [rbind]. rewrite (proj2 (Z.ltb_ge _ _)) by lia.
  rewrite <- (app_nil_r (str_bytes rid)) in Hat.
  rewrite (read_utf8_at utf8_error _ _ _ _ _ _ Hat eq_refl Hu). cbn [rbind]. rewrite Hc.
  f_equal. f_equal. lia.
Qed.

Lemma read_request_id_none data idx :
  idx = len data -> read_request_id utf8_error data idx = Ok (""%string, idx).
Proof. intros ->. unfold read_request_id. by rewrite (proj2 (Z.leb_gt _ _)) by lia. Qed.

Lemma decode_rest_full data idx k n requester w rid :
  at_idx data idx (be_bytes 4 w ++ be_bytes 2 (str_len rid) ++ str_bytes rid) -> is_u32 w ->
  str_len rid <= 128 -> utf8_valid (str_bytes rid) = true ->
  forallb rid_char (str_bytes rid) = true ->
  decode_rest data idx k n requester = Ok (mkChunkRequest k n requester w rid).
Proof.
  intros Hat Hw Hl Hu Hc. unfold decode_rest. pose proof (at_len _ _ _ Hat) as Hlen.
  rewrite !len_app in Hlen. unfold len at 1 2 in Hlen. rewrite !length_be_bytes in Hlen.
  pose proof (len_nonneg (str_bytes rid)). rewrite (proj2 (Z.leb_le _ _)) by lia.
  rewrite (read_be_at _ _ _ _ _ Hat) by (change (256 ^ Z.of_nat 4) with u32_mod; u64_lia).
  apply at_be in Hat. cbn [rbind]. rewrite (read_request_id_at _ _ _ Hat) by done. cbn [rbind].
  by rewrite Z.eqb_refl.
Qed.

Lemma decode_rest_no_rid data idx k n requester w :
  at_idx data idx (be_bytes 4 w) -> is_u32 w ->
  decode_rest data idx k n requester = Ok (mkChunkRequest k n requester w "").
Proof.
  intros Hat Hw. unfold decode_rest. pose proof (at_len _ _ _ Hat) as Hlen.
  unfold len at 1 in Hlen. rewrite length_be_bytes in Hlen.
  rewrite (proj2 (Z.leb_le _ _)) by lia. rewrite <- (app_nil_r (be_bytes 4 w)) in Hat.
  rewrite (read_be_at _ _ _ _ _ Hat) by (change (256 ^ Z.of_nat 4) with u32_mod; u64_lia).
  cbn [rbind]. rewrite read_request_id_none by lia. cbn [rbind].
  by rewrite (proj2 (Z.eqb_eq _ _)) by lia.
Qed.

Lemma decode_rest_bare data idx k n requester :
  at_idx data idx [] -> decode_rest data idx k n requester = Ok (mkChunkRequest k n requester 0 "").
Proof.
  intros Hat. unfold decode_rest. pose proof (at_len _ _ _ Hat) as Hlen. rewrite len_nil in Hlen.
  rewrite (proj2 (Z.leb_gt _ _)) by lia. cbn [rbind].
  rewrite read_request_id_none by lia. cbn [rbind].
  by rewrite (proj2 (Z.eqb_eq _ _)) by lia.
Qed.
End decoding.

Lemma encode_request_ok k n requester w rid :
  encodable k n requester -> str_len rid <= 128 ->
  encode_request k n requester w rid
  = Ok (request_head k n requester ++ be_bytes 4 w ++ be_bytes 2 (str_len rid) ++ str_bytes rid).
Proof.
  intros [Hm Hb Hr _ _ _ _ _] Hl. unfold encode_request, str_len in *.
  rewrite !(proj2 (Z.ltb_ge _ _)) by lia. unfold request_head, str_len.
  rewrite <- !app_assoc. cbn [app]. by rewrite <- !app_assoc.
Qed.

(** What a framed payload decodes to. *)
Lemma decode_framed status payload expected :
  len payload <= MAX_RESPONSE_BYTES -> is_u32 status ->
  decode_response (le_bytes 4 status ++ le_bytes 4 (len payload) ++ payload) expected =
       (if status =? STATUS_OK then
          if len payload =? 0 then Err (Peer ("bad resp len " +:+ show 0))
          else if expected <? len payload
          then Err (Peer ("response larger than requested: got " +:+ show (len payload)
                            +:+ ", expected " +:+ show expected))
          else Ok payload
        else if status =? STATUS_MISS then Err (NotFound "peer miss")
        else if status =? STATUS_ERR then Err (Peer "ucx peer returned error")
        else Err (Peer ("ucx peer status " +:+ show status))).
Proof.
  intros Hl Hs. unfold decode_response. pose proof (len_nonneg payload).
  rewrite !len_app. unfold len at 1 2. rewrite !length_le_bytes.
  rewrite (proj2 (Z.ltb_ge _ _)) by lia.
  assert (S1 : slice (le_bytes 4 status ++ le_bytes 4 (len payload) ++ payload) 0 4
               = le_bytes 4 status) by done.
  assert (S2 : slice (le_bytes 4 status ++ le_bytes 4 (len payload) ++ payload) 4 8
               = le_bytes 4 (len payload)) by done.
  rewrite S1, S2. change (drop 8 (le_bytes 4 status ++ le_bytes 4 (len payload) ++ payload)) with payload.
  unfold MAX_RESPONSE_BYTES in *.
  rewrite !le_val_bytes_small by (change (256 ^ Z.of_nat 4) with u32_mod; u64_lia).
  rewrite Z.eqb_refl. cbn [negb].
  rewrite (proj2 (Z.ltb_ge (64 * 1024 * 1024) _)) by done. rewrite orb_false_r.
  destruct (Z.eqb_spec (len payload) 0) as [->|]; done.
Qed.

Lemma decode_ok_response payload expected :
  0 < len payload <= expected -> len payload <= MAX_RESPONSE_BYTES ->
  decode_response (le_bytes 4 STATUS_OK ++ le_bytes 4 (len payload) ++ payload) expected = Ok payload.
Proof.
  intros Hp Hm. rewrite decode_framed by (done || u64_lia). rewrite Z.eqb_refl.
  rewrite (proj2 (Z.eqb_neq _ 0)), (proj2 (Z.ltb_ge _ _)) by lia. done.
Qed.

(** ** Theorems *)

(** C37.  A chunk request survives the wire: whatever the encoder accepts (names within their length
    fields, a request id of letters, digits and dashes) decodes to the same key, length, requester,
    wait budget and request id. *)
Theorem request_roundtrip utf8_error k n requester w rid :
  encodable k n requester -> is_u32 w -> str_len rid <= 128 ->
  utf8_valid (str_bytes rid) = true -> forallb rid_char (str_bytes rid) = true ->
  exists frame, encode_request k n requester w rid = Ok frame /\
    decode_request utf8_error frame = Ok (mkChunkRequest k n requester w rid).
Proof.
  intros He Hw Hl Hu Hc. eexists. split; [by apply encode_request_ok|].
  edestruct (decode_head utf8_error k n requester) as (idx & Hat & ->); [done|].
  by apply decode_rest_full.
Qed.

Definition demo_key : ChunkKey := mkChunkKey "models" "weights/0.bin" 4096.

Lemma demo_encodable : encodable demo_key 1024 "node-a".
Proof. split; vm_compute; try reflexivity; intuition congruence. Qed.

Lemma request_roundtrip_witness :
  exists frame, encode_request demo_key 1024 "node-a" 250 "abc-123" = Ok frame /\
    decode_request (fun _ => "") frame = Ok (mkChunkRequest demo_key 1024 "node-a" 250 "abc-123").
Proof.
  apply (request_roundtrip (fun _ => "") demo_key 1024 "node-a" 250 "abc-123");
    [exact demo_encodable|vm_compute; intuition congruence|vm_compute; intuition congruence
    |vm_compute; reflexivity|vm_compute; reflexivity].
Defined.

(** Older peers are understood: a frame that ends after the requester id, or after the wait
    budget, decodes with the missing fields at their defaults (no wait, no request id).  Those
    frames are truncations of newer ones, so a truncated request is not always rejected. *)
Lemma request_backcompat utf8_error k n requester w rid frame :
  encodable k n requester -> is_u32 w -> str_len rid <= 128 ->
  encode_request k n requester w rid = Ok frame ->
  let cut := len (request_head k n requester) in
  decode_request utf8_error (slice frame 0 cut) = Ok (mkChunkRequest k n requester 0 "") /\
  decode_request utf8_error (slice frame 0 (cut + 4)) = Ok (mkChunkRequest k n requester w "") /\
  cut + 4 < len frame.
Proof.
  intros He Hw Hl Hf cut. subst cut. rewrite encode_request_ok in Hf by done.
  assert (frame = request_head k n requester ++ be_bytes 4 w ++ be_bytes 2 (str_len rid)
            ++ str_bytes rid) as -> by congruence. clear Hf.
  set (hd := request_head k n requester).
  assert (H1 : slice (hd ++ be_bytes 4 w ++ be_bytes 2 (str_len rid) ++ str_bytes rid) 0 (len hd)
               = hd ++ []).
  { unfold slice, len. rewrite Z.sub_0_r, Nat2Z.id, app_nil_r. rewrite drop_0.
    apply take_app_length. }
  assert (H2 : slice (hd ++ be_bytes 4 w ++ be_bytes 2 (str_len rid) ++ str_bytes rid) 0 (len hd + 4)
               = hd ++ be_bytes 4 w).
  { unfold slice. rewrite drop_0, app_assoc. apply take_app_length'.
    unfold len. rewrite length_app, length_be_bytes. lia. }
  rewrite H1, H2. subst hd. split_and!.
  - edestruct (decode_head utf8_error k n requester []) as (idx & Hat & ->); [done|].
    by apply decode_rest_bare.
  - edestruct (decode_head utf8_error k n requester) as (idx & Hat & ->); [done|].
    by apply decode_rest_no_rid.
  - rewrite !len_app, !len_be_bytes. pose proof (len_nonneg (str_bytes rid)). lia.
Qed.

(** A response is trusted only when it is exactly one: a payload the encoder accepts is decoded
    verbatim when it is non-empty and no longer than requested; a decoded payload is always such a
    payload, and a miss, an error or an unknown status never yields data. *)
Lemma response_roundtrip status payload expected data out :
  (len payload <= MAX_RESPONSE_BYTES -> is_u32 status ->
   exists raw, encode_response status payload = Ok raw /\
     decode_response raw expected =
       (if status =? STATUS_OK then
          if len payload =? 0 then Err (Peer ("bad resp len " +:+ show 0))
          else if expected <? len payload
          then Err (Peer ("response larger than requested: got " +:+ show (len payload)
                            +:+ ", expected " +:+ show expected))
          else Ok payload
        else if status =? STATUS_MISS then Err (NotFound "peer miss")
        else if status =? STATUS_ERR then Err (Peer "ucx peer returned error")
        else Err (Peer ("ucx peer status " +:+ show status)))) /\
  (decode_response data expected = Ok out ->
   0 < len out <= expected /\ encode_response STATUS_OK out = Ok data).
Proof.
  split.
  - intros Hl Hs. unfold encode_response. rewrite (proj2 (Z.ltb_ge _ _)) by done.
    eexists. split; [done|]. by apply decode_framed.
  - unfold decode_response. intros H. destruct (Z.ltb_spec (len data) 8); [done|].
    destruct (Z.eqb_spec (le_val (slice data 4 8)) (len (drop 8 data))) as [Hl|]; [|done].
    cbn [negb] in H. destruct (Z.eqb_spec (le_val (slice data 0 4)) STATUS_OK) as [Hs|];
      [|repeat case_match; done].
    destruct (_ || _) eqn:E; [done|]. case_bool. destruct (Z.ltb_spec expected (le_val (slice data 4 8))); [done|].
    injection H as <-. pose proof (len_nonneg (drop 8 data)). split; [lia|].
    unfold encode_response. rewrite (proj2 (Z.ltb_ge _ _)) by lia. f_equal.
    rewrite <- Hl, <- Hs.
    assert (L1 : base.length (slice data 0 4) = 4%nat).
    { pose proof (len_slice data 0 4 ltac:(lia) ltac:(lia)). unfold len in *. lia. }
    assert (L2 : base.length (slice data 4 8) = 4%nat).
    { pose proof (len_slice data 4 8 ltac:(lia) ltac:(lia)). unfold len in *. lia. }
    rewrite <- L1 at 1. rewrite <- L2 at 1. rewrite !le_bytes_val.
    change (drop 8 data) with (drop (Z.to_nat 8) data).
    rewrite app_assoc, slice_app by lia. unfold slice. rewrite drop_0. apply take_drop.
Qed.
End Wire.
