(* ===== verification/UcxRuntime.v ===== *)
(** * The UCX runtime (src/src/transport_ucx.rs)

    Receive buffers ([Slab]), the endpoint table ([Endpoints]), and the request handlers on both
    sides of a fetch ([Rpc]).  An endpoint handle is the number of the [ucp_ep_create] call that
    made it; UCX itself and its memory registration are outside the model ([UcxRequest] has the
    futures of its operations), what they return is an argument.  The shared [broken] flag is a field of
    its slot that the error callback sets by a step of its own. *)

From S2P Require Import Prelude ChunkKeys DiskCache Wire.

(** ** The receive slab *)
Module Slab.

Record RecvSlab := mkRecvSlab {
  slot_size : Z;
  n_slots : Z;
  free : list Z;
  permits : Z
}.

(** [(0..n).rev()]; the backing store is one block of [n_slots * slot_size] bytes. *)
Definition new (n size : Z) : res RecvSlab :=
  if u64_max <? n * size then Err (Peer "RecvSlab size overflow")
  else Ok (mkRecvSlab size n (rev (seqZ 0 n)) n).

(** [acquire_owned]: [None] when the caller has to wait for a permit. *)
Definition acquire (s : RecvSlab) : option RecvSlab :=
  if 0 <? permits s then Some (mkRecvSlab (slot_size s) (n_slots s) (free s) (permits s - 1))
  else None.

(** [free.pop()] takes the last element. *)
Definition pop_slot (s : RecvSlab) : RecvSlab * res Z :=
  match rev (free s) with
  | i :: t => (mkRecvSlab (slot_size s) (n_slots s) (rev t) (permits s), Ok i)
  | [] => (s, Err (Peer "RecvSlab free list empty (semaphore desync)"))
  end.

(** Dropping the permit of a slot that was never obtained, or of a slot after its index went back. *)
Definition release (s : RecvSlab) : RecvSlab :=
  mkRecvSlab (slot_size s) (n_slots s) (free s) (permits s + 1).

(** [Drop for SlabSlot]: the index first, the permit when the fields drop. *)
Definition push_slot (i : Z) (s : RecvSlab) : RecvSlab :=
  mkRecvSlab (slot_size s) (n_slots s) (free s ++ [i]) (permits s).

Definition checkout (s : RecvSlab) : option (RecvSlab * res Z) :=
  match acquire s with
  | None => None
  | Some s' =>
      match pop_slot s' with
      | (s'', Ok i) => Some (s'', Ok i)
      | (s'', Err e) => Some (release s'', Err e)
      end
  end.

Definition drop_slot (i : Z) (s : RecvSlab) : RecvSlab := release (push_slot i s).

(** The bytes [as_mut_slice] hands out: [[start, start + len)] of the backing block. *)
Definition slot_start (i : Z) (s : RecvSlab) : Z := i * slot_size s.

(** Tasks in the middle of a checkout ([acquiring]) or of a drop ([releasing]), and the slots in
    use ([held]). *)
Record Sys := mkSys {
  slab : RecvSlab;
  acquiring : nat;
  held : list Z;
  releasing : nat
}.

Inductive step : Sys -> Sys -> Prop :=
| step_acquire s a h r s' :
    acquire s = Some s' -> step (mkSys s a h r) (mkSys s' (S a) h r)
| step_pop s a h r s' i :
    pop_slot s = (s', Ok i) -> step (mkSys s (S a) h r) (mkSys s' a (i :: h) r)
| step_push s a h1 h2 i r :
    step (mkSys s a (h1 ++ i :: h2) r) (mkSys (push_slot i s) a (h1 ++ h2) (S r))
| step_release s a h r :
    step (mkSys s a h (S r)) (mkSys (release s) a h r).

Inductive reachable (s0 : Sys) : Sys -> Prop :=
| reach_refl : reachable s0 s0
| reach_step s s' : reachable s0 s -> step s s' -> reachable s0 s'.

(** The free list and the slots in use share out the indices, and every permit that is not in the
    semaphore is held by a task. *)
Record inv (n size : Z) (s : Sys) : Prop := {
  inv_dims : slot_size (slab s) = size /\ n_slots (slab s) = n;
  inv_slots : free (slab s) ++ held s ≡ₚ seqZ 0 n;
  inv_permits : permits (slab s) + Z.of_nat (acquiring s) + len (held s)
                + Z.of_nat (releasing s) = n;
  inv_nonneg : 0 <= permits (slab s)
}.

Lemma slab_step_inv n size s s' : inv n size s -> step s s' -> inv n size s'.
Proof.
  intros [Hd Hs Hp Hn] Hstep. destruct Hstep as [s a h r s' Ha|s a h r s' i Hpop|s a h1 h2 i r|s a h r];
    simpl in *.
  - unfold acquire in Ha. destruct (Z.ltb_spec 0 (permits s)); [|done]. injection Ha as <-.
    split; simpl; try done; lia.
  - unfold pop_slot in Hpop. destruct (rev (free s)) as [|j t] eqn:E; [done|].
    injection Hpop as <- <-. apply (f_equal (@rev Z)) in E. rewrite rev_involutive in E. simpl in E.
    split; simpl; try done.
    + by rewrite E, <- app_assoc in Hs.
    + rewrite len_cons. lia.
  - split; simpl; try done.
    + rewrite <- Hs. rewrite <- app_assoc. apply Permutation_app_head.
      by rewrite <- Permutation_middle.
    + rewrite len_app, len_cons in Hp. rewrite len_app. lia.
  - split; simpl; try done; lia.
Qed.

(** The receive slab never hands a buffer to two requests: in every interleaving of checkouts
    and drops, the indices in use are distinct slots of the slab, their byte ranges do not overlap
    and stay inside the backing block for messages of at most [slot_size] bytes, and a task that
    got a permit always finds a free slot, so the "semaphore desync" error is unreachable. *)
Lemma slab_exclusive n size s sys :
  new n size = Ok s -> 0 <= n -> 0 <= size -> reachable (mkSys s 0 [] 0) sys ->
  NoDup (held sys) /\
  (forall i, i ∈ held sys -> 0 <= slot_start i (slab sys) /\
     slot_start i (slab sys) + size <= n * size) /\
  (forall i j, i ∈ held sys -> j ∈ held sys -> i <> j ->
     slot_start i (slab sys) + size <= slot_start j (slab sys) \/
     slot_start j (slab sys) + size <= slot_start i (slab sys)) /\
  ((0 < acquiring sys)%nat -> exists i s', pop_slot (slab sys) = (s', Ok i)).
Proof.
  intros Hnew Hn Hsz Hr. unfold new in Hnew. destruct (u64_max <? n * size); [done|].
  injection Hnew as <-.
  assert (Hi : inv n size sys).
  { induction Hr as [|s s' _ IH Hstep]; [|by eapply slab_step_inv].
    split; simpl; [done| |unfold len; simpl; lia|lia]. rewrite app_nil_r. symmetry. apply Permutation_rev. }
  destruct Hi as [[Hd1 Hd2] Hs Hp Hnn].
  assert (Hnd : NoDup (free (slab sys) ++ held sys)) by (rewrite Hs; apply NoDup_seqZ).
  assert (Hin : forall i, i ∈ held sys -> 0 <= i < n).
  { intros i Hi. assert (i ∈ seqZ 0 n) as Hi'%elem_of_seqZ; [|lia].
    rewrite <- Hs. apply elem_of_app. by right. }
  split_and!.
  - by apply NoDup_app in Hnd as (_ & _ & ?).
  - intros i Hi%Hin. unfold slot_start. rewrite Hd1. nia.
  - intros i j Hi%Hin Hj%Hin Hne. unfold slot_start. rewrite Hd1.
    destruct (Z.lt_total i j) as [|[|]]; [left|done|right]; nia.
  - intros Ha. assert (Hlen : len (free (slab sys)) + len (held sys) = n).
    { rewrite <- len_app. unfold len. rewrite Hs, length_seqZ. lia. }
    unfold pop_slot. destruct (rev (free (slab sys))) as [|i t] eqn:E; [|eauto].
    apply (f_equal length) in E. rewrite length_rev in E. unfold len in *. simpl in E. lia.
Qed.

End Slab.

(** ** The endpoint table *)
Module Endpoints.

Record EndpointSlot := mkEndpointSlot {
  ep : nat;
  broken : bool;
  slot_addr : list byte;
  in_flight : Z
}.

Record CheckedOutEndpoint := mkCheckedOut {
  co_peer : string;
  co_ep : nat
}.

Record RemovedEndpoint := mkRemoved {
  rm_ep : nat;
  rm_broken : bool
}.

Record RuntimeState := mkRuntimeState {
  local_peer_id : string;
  peer_eps : gmap string EndpointSlot;
  peer_addr_blobs : gmap string (list byte);
  lane_verified : bool
}.

Definition new (me : string) : RuntimeState := mkRuntimeState me ∅ ∅ false.

Definition from_slot (s : EndpointSlot) : RemovedEndpoint := mkRemoved (ep s) (broken s).

Definition set_eps (e : gmap string EndpointSlot) (r : RuntimeState) : RuntimeState :=
  mkRuntimeState (local_peer_id r) e (peer_addr_blobs r) (lane_verified r).
Definition set_blob (p : string) (b : list byte) (r : RuntimeState) : RuntimeState :=
  mkRuntimeState (local_peer_id r) (peer_eps r) (<[p := b]> (peer_addr_blobs r)) (lane_verified r).

Definition break_slot (s : EndpointSlot) : EndpointSlot :=
  mkEndpointSlot (ep s) true (slot_addr s) (in_flight s).

Definition update_peer_addr_blob (p : string) (addr : list byte) (r : RuntimeState)
    : RuntimeState * option RemovedEndpoint :=
  let r := set_blob p addr r in
  match peer_eps r !! p with
  | Some s =>
      if negb (bool_decide (slot_addr s = addr)) && (in_flight s =? 0)
      then (set_eps (delete p (peer_eps r)) r, Some (from_slot s))
      else if negb (bool_decide (slot_addr s = addr))
      then (set_eps (<[p := break_slot s]> (peer_eps r)) r, None)
      else (r, None)
  | None => (r, None)
  end.

Definition verify_lane_once (r : RuntimeState) : RuntimeState :=
  mkRuntimeState (local_peer_id r) (peer_eps r) (peer_addr_blobs r) true.

(** [created] is what [create_peer_ep] returns, should it be called. *)
Definition checkout_endpoint (created : res nat) (p : string) (addr : list byte) (r : RuntimeState)
    : RuntimeState * res CheckedOutEndpoint :=
  match peer_eps r !! p with
  | Some s =>
      if broken s then (r, Err (Peer ("UCX endpoint is broken for peer " +:+ p)))
      else if negb (bool_decide (slot_addr s = addr))
      then (r, Err (Peer ("UCX endpoint address update still in flight for peer " +:+ p)))
      else (set_eps (<[p := mkEndpointSlot (ep s) false (slot_addr s) (wadd64 (in_flight s) 1)]>
                       (peer_eps r)) r, Ok (mkCheckedOut p (ep s)))
  | None =>
      match created with
      | Err e => (r, Err e)
      | Ok n =>
          (verify_lane_once (set_eps (<[p := mkEndpointSlot n false addr 1]> (peer_eps r)) r),
           Ok (mkCheckedOut p n))
      end
  end.

Definition release_endpoint (c : CheckedOutEndpoint) (r : RuntimeState)
    : RuntimeState * option RemovedEndpoint :=
  match peer_eps r !! co_peer c with
  | None => (r, None)
  | Some s =>
      let n := if 0 <? in_flight s then in_flight s - 1 else in_flight s in
      let s := mkEndpointSlot (ep s) (broken s) (slot_addr s) n in
      if (in_flight s =? 0) && broken s
      then (set_eps (delete (co_peer c) (peer_eps r)) r, Some (from_slot s))
      else (set_eps (<[co_peer c := s]> (peer_eps r)) r, None)
  end.

Definition mark_peer_ep_broken (p : string) (r : RuntimeState) : RuntimeState :=
  match peer_eps r !! p with
  | Some s => set_eps (<[p := break_slot s]> (peer_eps r)) r
  | None => r
  end.

Definition reapable (s : EndpointSlot) : bool := (in_flight s =? 0) && broken s.

Definition take_broken_peer_eps (r : RuntimeState) : RuntimeState * list RemovedEndpoint :=
  (set_eps (filter (fun p => reapable p.2 = false) (peer_eps r)) r,
   from_slot <$> (map_to_list (filter (fun p => reapable p.2 = true) (peer_eps r))).*2).

Definition take_all_peer_eps (r : RuntimeState) : RuntimeState * list RemovedEndpoint :=
  (set_eps ∅ r, from_slot <$> (map_to_list (peer_eps r)).*2).

(** [endpoint_error_cb] sets the shared flag of its endpoint. *)
Definition error_callback (n : nat) (r : RuntimeState) : RuntimeState :=
  set_eps ((fun s => if decide (ep s = n) then break_slot s else s) <$> peer_eps r) r.

(** ** Endpoint life cycle

    The tasks of the runtime between their borrows of the state: [held] are the endpoints tasks
    are sending on, [closed] the ones given to [close_removed_endpoint], [lost] the ones dropped
    without a close, [created] counts the successful [ucp_ep_create] calls. *)
Record Sys := mkSys {
  rt : RuntimeState;
  held : list CheckedOutEndpoint;
  closed : list nat;
  lost : list nat;
  created : nat
}.

Definition rm_list (o : option RemovedEndpoint) : list nat := rm_ep <$> option_list o.

(** The head of [client_fetch], [client_health] and [server_send_response]: update the address and
    check out in one borrow.  When the checkout fails, [?] returns before [removed] is closed. *)
Definition begin_use (ok : res unit) (p : string) (addr : list byte) (s : Sys)
    : Sys * res CheckedOutEndpoint :=
  let '(r, removed) := update_peer_addr_blob p addr (rt s) in
  let is_new := bool_decide (peer_eps r !! p = None) in
  match checkout_endpoint (let? _ := ok in Ok (created s)) p addr r with
  | (r, Ok c) =>
      (mkSys r (c :: held s) (rm_list removed ++ closed s) (lost s)
         (if is_new then S (created s) else created s), Ok c)
  | (r, Err e) => (mkSys r (held s) (closed s) (rm_list removed ++ lost s) (created s), Err e)
  end.

(** Their tail: mark the endpoint broken if the operation failed, release, close what is removed. *)
Definition end_use (c : CheckedOutEndpoint) (failed : bool) (h : list CheckedOutEndpoint) (s : Sys)
    : Sys :=
  let r := if failed then mark_peer_ep_broken (co_peer c) (rt s) else rt s in
  let '(r, removed) := release_endpoint c r in
  mkSys r h (rm_list removed ++ closed s) (lost s) (created s).

(** [update_peer], from gossip. *)
Definition update_peer (p : string) (addr : list byte) (s : Sys) : Sys :=
  let '(r, removed) := update_peer_addr_blob p addr (rt s) in
  mkSys r (held s) (rm_list removed ++ closed s) (lost s) (created s).

Definition reap_broken_eps (s : Sys) : Sys :=
  let '(r, removed) := take_broken_peer_eps (rt s) in
  mkSys r (held s) ((rm_ep <$> removed) ++ closed s) (lost s) (created s).

(** [close_all_endpoints] at the end of [run_runtime]: every slot is taken, whatever its users. *)
Definition close_all_endpoints (s : Sys) : Sys :=
  let '(r, removed) := take_all_peer_eps (rt s) in
  mkSys r (held s) ((rm_ep <$> removed) ++ closed s) (lost s) (created s).

(** The flag marks the step of the shutdown.  The local tasks go on beside it and after it. *)
Inductive step : bool -> Sys -> Sys -> Prop :=
| step_begin s ok p addr : len (held s) < 2 ^ 32 -> step false s (begin_use ok p addr s).1
| step_end s c failed h1 h2 :
    held s = h1 ++ c :: h2 -> step false s (end_use c failed (h1 ++ h2) s)
| step_update s p addr : step false s (update_peer p addr s)
| step_reap s : step false s (reap_broken_eps s)
| step_error s n :
    step false s (mkSys (error_callback n (rt s)) (held s) (closed s) (lost s) (created s))
| step_shutdown s : step true s (close_all_endpoints s).

Definition start (me : string) : Sys := mkSys (new me) [] [] [] 0.

(** [reachable s0 down s]: [down] says whether the shutdown has closed the endpoints on the way. *)
Inductive reachable (s0 : Sys) : bool -> Sys -> Prop :=
| reach_refl : reachable s0 false s0
| reach_step down d s s' : reachable s0 down s -> step d s s' -> reachable s0 (down || d) s'.

(** How many tasks hold an endpoint of peer [p]. *)
Definition users (p : string) (h : list CheckedOutEndpoint) : Z :=
  len (filter (fun c => co_peer c = p) h).

(** The endpoints in the table. *)
Definition tabled (m : gmap string EndpointSlot) : list nat := ep <$> (map_to_list m).*2.

(** The table counts its users, and every user's endpoint is in the table. *)
Record counts (m : gmap string EndpointSlot) (h : list CheckedOutEndpoint) : Prop := {
  counts_users p e : m !! p = Some e -> in_flight e = users p h;
  counts_held c : c ∈ h -> exists e, m !! co_peer c = Some e /\ ep e = co_ep c
}.

Record inv (s : Sys) : Prop := {
  inv_counts : counts (peer_eps (rt s)) (held s);
  inv_parts : tabled (peer_eps (rt s)) ++ closed s ++ lost s ≡ₚ seq 0 (created s);
  inv_small : len (held s) <= 2 ^ 32
}.

(** ** Lemmas *)
Lemma users_nonneg p h : 0 <= users p h.
Proof. apply len_nonneg. Qed.

Lemma users_cons p c h : users p (c :: h) = (if decide (co_peer c = p) then 1 else 0) + users p h.
Proof.
  unfold users. rewrite filter_cons. case_decide; [rewrite len_cons; done|lia].
Qed.

Lemma users_remove p c h1 h2 :
  users p (h1 ++ c :: h2) = (if decide (co_peer c = p) then 1 else 0) + users p (h1 ++ h2).
Proof.
  unfold users. rewrite !filter_app, !len_app, filter_cons. case_decide; rewrite ?len_cons; lia.
Qed.

Lemma users_zero p h c : users p h = 0 -> c ∈ h -> co_peer c <> p.
Proof.
  unfold users, len. intros H Hc Hp.
  assert (c ∈ filter (fun c => co_peer c = p) h) as Hin by (by apply list_elem_of_filter).
  destruct (filter (fun c => co_peer c = p) h); [by apply not_elem_of_nil in Hin|simpl in H; lia].
Qed.

Lemma users_bound p h : users p h <= len h.
Proof. unfold users, len. pose proof (length_filter (fun c => co_peer c = p) h). lia. Qed.

Lemma counts_delete m h p e :
  counts m h -> m !! p = Some e -> in_flight e = 0 -> counts (delete p m) h.
Proof.
  intros [Hu Hh] He Hz. rewrite (Hu _ _ He) in Hz. split.
  - intros q e' [_ Hq]%lookup_delete_Some. by apply Hu.
  - intros c Hc. destruct (Hh c Hc) as (e' & Hl & He'). exists e'. split; [|done].
    rewrite lookup_delete_ne; [done|]. intros ->. by eapply users_zero.
Qed.

Lemma counts_replace m h p e e' :
  counts m h -> m !! p = Some e -> ep e' = ep e -> in_flight e' = in_flight e ->
  counts (<[p := e']> m) h.
Proof.
  intros [Hu Hh] He Hep Hfl. split.
  - intros q e1 [[<- <-]|[_ Hq]]%lookup_insert_Some; [rewrite Hfl|]; by apply Hu.
  - intros c Hc. destruct (Hh c Hc) as (e1 & Hl & He1).
    destruct (decide (p = co_peer c)) as [->|Hne].
    + exists e'. rewrite lookup_insert_eq. split; [done|]. congruence.
    + exists e1. by rewrite lookup_insert_ne.
Qed.

Lemma counts_checkout m h p e' :
  counts m h -> (forall e, m !! p = Some e -> ep e' = ep e) -> in_flight e' = users p h + 1 ->
  counts (<[p := e']> m) (mkCheckedOut p (ep e') :: h).
Proof.
  intros [Hu Hh] Hep Hfl. split.
  - intros q e1 [[<- <-]|[Hne Hq]]%lookup_insert_Some; rewrite users_cons; simpl.
    + rewrite decide_True by done. lia.
    + rewrite decide_False by done. by apply Hu.
  - intros c Hc. apply elem_of_cons in Hc as [->|Hc].
    { exists e'. simpl. by rewrite lookup_insert_eq. }
    destruct (Hh c Hc) as (e1 & Hl & He1). destruct (decide (p = co_peer c)) as [->|Hne].
    + exists e'. rewrite lookup_insert_eq. split; [done|]. rewrite <- He1. by apply Hep.
    + exists e1. by rewrite lookup_insert_ne.
Qed.

Lemma counts_release m h1 h2 c e e' :
  counts m (h1 ++ c :: h2) -> m !! co_peer c = Some e -> ep e' = ep e ->
  in_flight e' = in_flight e - 1 -> counts (<[co_peer c := e']> m) (h1 ++ h2).
Proof.
  intros [Hu Hh] He Hep Hfl. split.
  - intros q e1 [[<- <-]|[Hne Hq]]%lookup_insert_Some.
    + rewrite Hfl, (Hu _ _ He), users_remove, decide_True by done. lia.
    + rewrite (Hu _ _ Hq), users_remove, decide_False by done. lia.
  - intros c1 Hc1. destruct (Hh c1) as (e1 & Hl & He1).
    { rewrite elem_of_app in *. rewrite elem_of_cons. tauto. }
    destruct (decide (co_peer c = co_peer c1)) as [Heq|Hne].
    + exists e'. rewrite Heq, lookup_insert_eq. split; [done|]. congruence.
    + exists e1. by rewrite lookup_insert_ne.
Qed.

Lemma tabled_insert m p e : m !! p = None -> tabled (<[p := e]> m) ≡ₚ ep e :: tabled m.
Proof. intros H. unfold tabled. by rewrite map_to_list_insert. Qed.

Lemma tabled_delete m p e : m !! p = Some e -> tabled m ≡ₚ ep e :: tabled (delete p m).
Proof.
  intros H. rewrite <- (insert_delete_id m p e H) at 1. apply tabled_insert, lookup_delete_eq.
Qed.

Lemma tabled_replace m p e e' : m !! p = Some e -> ep e' = ep e -> tabled (<[p := e']> m) ≡ₚ tabled m.
Proof.
  intros H He. rewrite <- insert_delete_eq, tabled_insert by apply lookup_delete_eq.
  by rewrite He, <- tabled_delete.
Qed.

Lemma tabled_filter_split (P : EndpointSlot -> bool) (m : gmap string EndpointSlot) :
  tabled m ≡ₚ tabled (filter (fun p => P p.2 = true) m) ++ tabled (filter (fun p => P p.2 = false) m).
Proof.
  induction m as [|p e m Hp IH] using map_ind; [done|]. rewrite tabled_insert, IH by done.
  destruct (P e) eqn:E.
  - rewrite (map_filter_insert_True (fun p => P p.2 = true)) by done.
    rewrite (map_filter_insert_False (fun p => P p.2 = false)), delete_id by (simpl; congruence || done).
    rewrite tabled_insert; [done|]. apply map_lookup_filter_None. by left.
  - rewrite (map_filter_insert_False (fun p => P p.2 = true)), delete_id by (simpl; congruence || done).
    rewrite (map_filter_insert_True (fun p => P p.2 = false)) by done.
    rewrite tabled_insert; [apply Permutation_middle|]. apply map_lookup_filter_None. by left.
Qed.

Lemma tabled_fmap (f : EndpointSlot -> EndpointSlot) m :
  (forall e, ep (f e) = ep e) -> tabled (f <$> m) = tabled m.
Proof.
  intros Hf. unfold tabled. rewrite map_to_list_fmap, <- !list_fmap_compose.
  apply list_fmap_ext. intros i [p e] _. simpl. apply Hf.
Qed.

(** ** What each operation does to the table *)
Lemma update_tabled p addr r :
  let '(r', removed) := update_peer_addr_blob p addr r in
  tabled (peer_eps r) ≡ₚ rm_list removed ++ tabled (peer_eps r').
Proof.
  unfold update_peer_addr_blob. cbn [peer_eps set_blob].
  destruct (peer_eps r !! p) as [e|] eqn:E; [|done].
  destruct (negb _ && _); cbn [peer_eps set_eps set_blob]; [by rewrite (tabled_delete _ _ _ E)|].
  destruct (negb _); cbn [peer_eps set_eps set_blob]; [|done]. symmetry. by eapply tabled_replace.
Qed.

Lemma update_counts p addr r h :
  counts (peer_eps r) h -> counts (peer_eps (update_peer_addr_blob p addr r).1) h.
Proof.
  intros Hc. unfold update_peer_addr_blob. cbn [peer_eps set_blob].
  destruct (peer_eps r !! p) as [e|] eqn:E; [|done].
  destruct (negb _ && _) eqn:Er; cbn [fst peer_eps set_eps set_blob].
  - case_bool. by eapply counts_delete.
  - destruct (negb _); cbn [fst peer_eps set_eps set_blob]; [by eapply counts_replace|done].
Qed.

Lemma checkout_tabled n ok p addr r :
  match checkout_endpoint (let? _ := (ok : res unit) in Ok n) p addr r with
  | (r', Ok c) => tabled (peer_eps r') ≡ₚ
      (if bool_decide (peer_eps r !! p = None) then [n] else []) ++ tabled (peer_eps r)
  | (r', Err _) => r' = r
  end.
Proof.
  unfold checkout_endpoint. destruct (peer_eps r !! p) as [e|] eqn:E.
  - destruct (broken e); [done|]. destruct (negb _); [done|]. cbn [peer_eps set_eps].
    rewrite bool_decide_false by done. by apply (tabled_replace _ _ e).
  - destruct ok as [[]|err]; simpl; [|done]. by rewrite tabled_insert.
Qed.

(** Nobody uses a peer that has no slot. *)
Lemma counts_unused m h p : counts m h -> m !! p = None -> users p h = 0.
Proof.
  intros Hc E. destruct (Z.eq_dec (users p h) 0) as [|Hne]; [done|].
  destruct (filter (fun c => co_peer c = p) h) as [|c t] eqn:Ef.
  { unfold users in Hne. rewrite Ef in Hne. done. }
  assert (c ∈ filter (fun c => co_peer c = p) h) as [Hp Hin]%list_elem_of_filter by (rewrite Ef; by left).
  destruct (counts_held _ _ Hc c Hin) as (e & He & _). congruence.
Qed.

Lemma checkout_counts n ok p addr r h :
  counts (peer_eps r) h -> len h < 2 ^ 32 ->
  match checkout_endpoint (let? _ := (ok : res unit) in Ok n) p addr r with
  | (r', Ok c) => counts (peer_eps r') (c :: h)
  | (r', Err _) => True
  end.
Proof.
  intros Hc Hl. unfold checkout_endpoint. destruct (peer_eps r !! p) as [e|] eqn:E.
  - destruct (broken e); [done|]. destruct (negb _); [done|]. cbn [peer_eps set_eps].
    pose proof (users_bound p h). pose proof (users_nonneg p h).
    pose proof (counts_users _ _ Hc _ _ E) as Hu.
    apply (counts_checkout _ _ p (mkEndpointSlot (ep e) false (slot_addr e) (wadd64 (in_flight e) 1))); [done| |].
    + intros e0 He0. simpl. congruence.
    + simpl. rewrite Hu, wadd64_small by u64_lia. done.
  - destruct ok as [[]|err]; simpl; [|done].
    apply (counts_checkout _ _ p (mkEndpointSlot n false addr 1)); [done| |].
    + intros e0 He0. congruence.
    + simpl. by rewrite (counts_unused _ _ _ Hc E).
Qed.

Lemma mark_tabled p r : tabled (peer_eps (mark_peer_ep_broken p r)) ≡ₚ tabled (peer_eps r).
Proof.
  unfold mark_peer_ep_broken. destruct (peer_eps r !! p) as [e|] eqn:E; [|done].
  cbn [peer_eps set_eps]. by eapply tabled_replace.
Qed.

Lemma mark_counts p r h : counts (peer_eps r) h -> counts (peer_eps (mark_peer_ep_broken p r)) h.
Proof.
  intros Hc. unfold mark_peer_ep_broken. destruct (peer_eps r !! p) as [e|] eqn:E; [|done].
  cbn [peer_eps set_eps]. by eapply counts_replace.
Qed.

Lemma release_tabled c r :
  let '(r', removed) := release_endpoint c r in
  tabled (peer_eps r) ≡ₚ rm_list removed ++ tabled (peer_eps r').
Proof.
  unfold release_endpoint. destruct (peer_eps r !! co_peer c) as [e|] eqn:He; [|done].
  destruct (_ && _); cbn [peer_eps set_eps].
  - by rewrite (tabled_delete _ _ _ He).
  - symmetry. by apply (tabled_replace _ _ e).
Qed.

Lemma release_counts c h1 h2 r :
  counts (peer_eps r) (h1 ++ c :: h2) -> counts (peer_eps (release_endpoint c r).1) (h1 ++ h2).
Proof.
  intros Hc. unfold release_endpoint.
  destruct (counts_held _ _ Hc c) as (e & He & _); [apply elem_of_app; right; by left|].
  rewrite He. pose proof (counts_users _ _ Hc _ _ He) as Hu.
  rewrite users_remove, decide_True in Hu by done. pose proof (users_nonneg (co_peer c) (h1 ++ h2)).
  rewrite (proj2 (Z.ltb_lt 0 (in_flight e))) by lia. cbn [in_flight broken].
  set (e' := mkEndpointSlot (ep e) (broken e) (slot_addr e) (in_flight e - 1)).
  assert (Hc' : counts (<[co_peer c := e']> (peer_eps r)) (h1 ++ h2))
    by (by eapply counts_release).
  destruct (_ && _) eqn:Er; cbn [fst peer_eps set_eps]; [|done].
  case_bool. rewrite <- (delete_insert_eq (peer_eps r) (co_peer c) e').
  eapply counts_delete; [done|apply lookup_insert_eq|done].
Qed.

Lemma reap_tabled r :
  tabled (peer_eps r) ≡ₚ (rm_ep <$> (take_broken_peer_eps r).2)
                         ++ tabled (peer_eps (take_broken_peer_eps r).1).
Proof.
  cbn [take_broken_peer_eps fst snd peer_eps set_eps].
  rewrite (tabled_filter_split reapable). apply Permutation_app_tail. unfold tabled.
  by rewrite <- (list_fmap_compose from_slot rm_ep).
Qed.

Lemma reap_counts r h : counts (peer_eps r) h -> counts (peer_eps (take_broken_peer_eps r).1) h.
Proof.
  intros Hc. cbn [take_broken_peer_eps fst snd peer_eps set_eps]. split.
  - intros p e [Hp _]%map_lookup_filter_Some. by apply (counts_users _ _ Hc).
  - intros c Hin. destruct (counts_held _ _ Hc c Hin) as (e & He & Hep). exists e. split; [|done].
    apply map_lookup_filter_Some. split; [done|]. simpl. unfold reapable.
    destruct (Z.eqb_spec (in_flight e) 0) as [Hz|]; [|done].
    rewrite (counts_users _ _ Hc _ _ He) in Hz. by eapply users_zero in Hz.
Qed.

Lemma error_tabled n r : tabled (peer_eps (error_callback n r)) = tabled (peer_eps r).
Proof. unfold error_callback. apply tabled_fmap. intros e. by case_decide. Qed.

Lemma error_counts n r h : counts (peer_eps r) h -> counts (peer_eps (error_callback n r)) h.
Proof.
  intros Hc. unfold error_callback. cbn [peer_eps set_eps]. split.
  - intros p e. rewrite lookup_fmap. intros (e0 & He0 & ->)%fmap_Some.
    rewrite <- (counts_users _ _ Hc _ _ He0). by case_decide.
  - intros c Hin. destruct (counts_held _ _ Hc c Hin) as (e & He & Hep).
    rewrite lookup_fmap, He. simpl. eexists. split; [done|]. by case_decide.
Qed.

(** What the shutdown closes. *)
Lemma close_all_closed s :
  closed (close_all_endpoints s) = tabled (peer_eps (rt s)) ++ closed s /\
  peer_eps (rt (close_all_endpoints s)) = ∅.
Proof. split; [|done]. cbn. unfold tabled. by rewrite <- (list_fmap_compose from_slot rm_ep). Qed.

(** An endpoint that leaves the table goes to the closed or to the lost ones. *)
Lemma parts_closed {A} (t t' r c l : list A) :
  t ≡ₚ r ++ t' -> t' ++ (r ++ c) ++ l ≡ₚ t ++ c ++ l.
Proof.
  intros ->. rewrite <- !app_assoc, (app_assoc t' r), (Permutation_app_comm t' r).
  by rewrite <- app_assoc.
Qed.

Lemma parts_lost {A} (t t' r c l : list A) :
  t ≡ₚ r ++ t' -> t' ++ c ++ r ++ l ≡ₚ t ++ c ++ l.
Proof.
  intros ->. rewrite (app_assoc c r), (Permutation_app_comm c r), <- app_assoc.
  rewrite (app_assoc t' r), (Permutation_app_comm t' r). by rewrite <- app_assoc.
Qed.

(** Every endpoint is in one place, before and after the shutdown. *)
Definition parts (s : Sys) : Prop :=
  tabled (peer_eps (rt s)) ++ closed s ++ lost s ≡ₚ seq 0 (created s).

Lemma step_parts d s s' : parts s -> step d s s' -> parts s'.
Proof.
  unfold parts. intros Hp Hstep. destruct Hstep as [s ok p addr Hlt|s c failed h1 h2 Hh|s p addr|s|s n|s].
  - unfold begin_use. pose proof (update_tabled p addr (rt s)) as Ht.
    destruct (update_peer_addr_blob p addr (rt s)) as [r removed].
    pose proof (checkout_tabled (created s) ok p addr r) as Hct.
    destruct (checkout_endpoint _ p addr r) as [r' [c|e]]; cbn [fst rt held closed lost created].
    + rewrite Hct. case_bool_decide; rewrite <- app_assoc, (parts_closed _ _ _ _ _ Ht), Hp; [|done].
      rewrite seq_S. apply Permutation_cons_append.
    + subst r'. by rewrite (parts_lost _ _ _ _ _ Ht).
  - unfold end_use. set (r := if failed then mark_peer_ep_broken (co_peer c) (rt s) else rt s).
    assert (Hrt : tabled (peer_eps r) ≡ₚ tabled (peer_eps (rt s))).
    { subst r. destruct failed; [apply mark_tabled|done]. }
    pose proof (release_tabled c r) as Ht. destruct (release_endpoint c r) as [r' removed].
    cbn [rt held closed lost created]. by rewrite (parts_closed _ _ _ _ _ Ht), Hrt.
  - unfold update_peer. pose proof (update_tabled p addr (rt s)) as Ht.
    destruct (update_peer_addr_blob p addr (rt s)) as [r removed].
    cbn [rt held closed lost created]. by rewrite (parts_closed _ _ _ _ _ Ht).
  - unfold reap_broken_eps. pose proof (reap_tabled (rt s)) as Ht.
    destruct (take_broken_peer_eps (rt s)) as [r removed]. simpl in *. by rewrite (parts_closed _ _ _ _ _ Ht).
  - cbn [rt held closed lost created]. by rewrite error_tabled.
  - destruct (close_all_closed s) as [-> ->]. cbn. by rewrite <- app_assoc.
Qed.

Lemma step_counts s s' :
  counts (peer_eps (rt s)) (held s) -> len (held s) <= 2 ^ 32 -> step false s s' ->
  counts (peer_eps (rt s')) (held s') /\ len (held s') <= 2 ^ 32.
Proof.
  intros Hc Hl Hstep. remember false as d eqn:Hd.
  destruct Hstep as [s ok p addr Hlt|s c failed h1 h2 Hh|s p addr|s|s n|s]; [..|done].
  - unfold begin_use. pose proof (update_counts p addr _ _ Hc) as Hu.
    destruct (update_peer_addr_blob p addr (rt s)) as [r removed]. cbn [fst] in Hu.
    pose proof (checkout_counts (created s) ok p addr r _ Hu Hlt) as Hco.
    pose proof (checkout_tabled (created s) ok p addr r) as Hct.
    destruct (checkout_endpoint _ p addr r) as [r' [c|e]]; cbn [fst rt held].
    + split; [done|]. rewrite len_cons. lia.
    + by subst r'.
  - unfold end_use. rewrite Hh in Hc, Hl. rewrite len_app, len_cons in Hl.
    set (r := if failed then mark_peer_ep_broken (co_peer c) (rt s) else rt s).
    assert (Hr : counts (peer_eps r) (h1 ++ c :: h2)) by (subst r; destruct failed; [by apply mark_counts|done]).
    pose proof (release_counts c h1 h2 r Hr) as Hu. destruct (release_endpoint c r) as [r' removed].
    cbn [fst rt held] in *. split; [done|]. rewrite len_app. lia.
  - unfold update_peer. pose proof (update_counts p addr _ _ Hc) as Hu.
    by destruct (update_peer_addr_blob p addr (rt s)) as [r removed].
  - unfold reap_broken_eps. pose proof (reap_counts _ _ Hc) as Hu.
    by destruct (take_broken_peer_eps (rt s)) as [r removed].
  - cbn [rt held]. split; [by apply error_counts|done].
Qed.

Lemma step_keeps_inv s s' : inv s -> step false s s' -> inv s'.
Proof.
  intros [Hc Hp Hl] Hstep. destruct (step_counts s s' Hc Hl Hstep). split; [done| |done].
  by apply (step_parts false s).
Qed.

Lemma endpoints_inv_start me : inv (start me).
Proof.
  split; simpl; [|done|rewrite len_nil; lia]. split; [done|]. intros c Hc. by apply not_elem_of_nil in Hc.
Qed.

(** An endpoint in use is the table's, and is neither closed nor lost. *)
Lemma held_open s c :
  inv s -> c ∈ held s ->
  (exists e, peer_eps (rt s) !! co_peer c = Some e /\ ep e = co_ep c /\
     in_flight e = users (co_peer c) (held s)) /\
  co_ep c ∉ closed s /\ co_ep c ∉ lost s.
Proof.
  intros [Hc Hp _] Hin. destruct (counts_held _ _ Hc c Hin) as (e & He & Hep).
  assert (Hnd : NoDup (tabled (peer_eps (rt s)) ++ closed s ++ lost s))
    by (rewrite Hp; apply NoDup_seq).
  assert (Ht : co_ep c ∈ tabled (peer_eps (rt s))).
  { rewrite (tabled_delete _ _ _ He), Hep. by left. }
  apply NoDup_app in Hnd as (_ & Hdis & _). specialize (Hdis _ Ht).
  rewrite elem_of_app in Hdis. split; [|tauto]. exists e. split_and!; [done|done|].
  by apply (counts_users _ _ Hc).
Qed.

(** ** Theorems *)

Lemma reachable_parts me down s : reachable (start me) down s -> parts s.
Proof. induction 1 as [|down d s s' _ IH Hstep]; [exact (inv_parts _ (endpoints_inv_start me))|by eapply step_parts]. Qed.

Lemma running_inv me s : reachable (start me) false s -> inv s.
Proof.
  remember false as down eqn:Hd. induction 1 as [|down d s s' _ IH Hstep]; [apply endpoints_inv_start|].
  apply orb_false_iff in Hd as [-> ->]. eapply step_keeps_inv; [by apply IH|done].
Qed.

(** C24.  Until the shutdown an endpoint is never closed under a sender: whatever fetches, replies,
    address updates, endpoint errors and reaper ticks interleave, an endpoint some task is using is
    still the one in the table for its peer and is neither closed nor dropped, and the table's counter
    is the number of its users.  The shutdown closes every endpoint of the table, in use or not, and
    leaves the table empty.  Before it and after it, while local tasks go on, every endpoint ever
    created is in exactly one place - in the table, closed (once), or lost by a checkout that failed
    right after replacing a changed address. *)
Theorem endpoint_life_cycle me down s :
  reachable (start me) down s ->
  (down = false -> forall c, c ∈ held s ->
     (exists e, peer_eps (rt s) !! co_peer c = Some e /\ ep e = co_ep c /\
        in_flight e = users (co_peer c) (held s)) /\
     co_ep c ∉ closed s /\ co_ep c ∉ lost s) /\
  (forall s', step true s s' ->
     closed s' = tabled (peer_eps (rt s)) ++ closed s /\ peer_eps (rt s') = ∅ /\ held s' = held s) /\
  NoDup (tabled (peer_eps (rt s)) ++ closed s ++ lost s) /\
  (forall n, (n < created s)%nat <-> n ∈ tabled (peer_eps (rt s)) ++ closed s ++ lost s).
Proof.
  intros Hr. pose proof (reachable_parts me down s Hr) as Hp. unfold parts in Hp. split_and!.
  - intros -> c. by apply held_open, (running_inv me).
  - intros s' Hst. inversion Hst; subst. by destruct (close_all_closed s).
  - rewrite Hp. apply NoDup_seq.
  - intros n. rewrite Hp, elem_of_seq. lia.
Qed.

(** The shutdown closes an endpoint that a task is sending on. *)
Example shutdown_closes_in_use :
  let s := close_all_endpoints (begin_use (Ok tt) "b" [x01] (start "a")).1 in
  held s = [mkCheckedOut "b" 0] /\ closed s = [0%nat].
Proof. vm_compute. by split. Qed.

Lemma endpoint_life_cycle_witness :
  let s := end_use (mkCheckedOut "b" 0) true [] (begin_use (Ok tt) "b" [x01] (start "a")).1 in
  reachable (start "a") false s /\ closed s = [0%nat] /\ NoDup (tabled (peer_eps (rt s)) ++ closed s ++ lost s).
Proof.
  intros s. assert (Hr : reachable (start "a") false s).
  { apply (reach_step _ false false (begin_use (Ok tt) "b" [x01] (start "a")).1).
    - apply (reach_step _ false false (start "a")); [apply reach_refl|].
      apply (step_begin _ (Ok tt) "b" [x01]). vm_compute. reflexivity.
    - apply (step_end _ (mkCheckedOut "b" 0) true [] []). vm_compute. reflexivity. }
  split; [exact Hr|]. split; [vm_compute; reflexivity|].
  apply (endpoint_life_cycle "a" false s Hr).
Defined.
End Endpoints.

(** ** Requests and replies *)
Module Rpc.
Import Wire Slab Endpoints.

Definition TAG_ID_MASK : Z := 2 ^ 48 - 1.
Definition TAG_REQ_BASE : Z := 48129 * 2 ^ 48. (* 0xBC01 *)
Definition TAG_RESP_BASE : Z := 48130 * 2 ^ 48. (* 0xBC02 *)

Definition should_mark_endpoint_broken {A} (r : res A) : bool :=
  match r with Ok _ => false | Err (NotFound _) => false | Err _ => true end.

Section serving.
Context (sha256 : list byte -> list byte) (utf8_error : list byte -> string).

(** The blocking closure of [handle_inbound_request]: the framed chunk and its size. *)
Definition cached_response (read_ok : bool) (k : ChunkKey) (req_len : Z) (c : Cache.DiskCache)
    : Cache.DiskCache * option (list byte * Z) :=
  match Cache.entry_size k c with
  | None => (c, None)
  | Some size =>
      if req_len <? size then (c, None) else
      match Cache.try_get_into_slice sha256 read_ok k size c with
      | (c, Some (_, payload)) => (c, Some (le_bytes 4 STATUS_OK ++ le_bytes 4 size ++ payload, size))
      | (c, None) => (c, None)
      end
  end.

(** The reply when the cache has no answer. *)
Definition provider_response (provider : option (ChunkKey -> Z -> Z -> option (list byte)))
    (req : ChunkRequest) : res (list byte * Z) :=
  let answer :=
    if (0 <? wait_ms req) && (0 <? length req) then
      match provider with
      | Some f => f (key req) (length req) (wait_ms req)
      | None => None
      end
    else None in
  match answer with
  | Some b =>
      if length req <? len b then let? r := encode_response STATUS_MISS [] in Ok (r, 0)
      else Ok (le_bytes 4 STATUS_OK ++ le_bytes 4 (len b) ++ b, len b)
  | None => let? r := encode_response STATUS_MISS [] in Ok (r, 0)
  end.

(** What the handler sends: peer, tag, frame, and the bytes it counts as served.  [panicked] says
    whether the blocking task died; [None] when the request is dropped. *)
Definition handle_inbound_request (panicked read_ok : bool)
    (provider : option (ChunkKey -> Z -> Z -> option (list byte)))
    (frame : list byte) (sender_tag : Z) (c : Cache.DiskCache)
    : Cache.DiskCache * res (option (string * Z * list byte * Z)) :=
  match decode_request utf8_error frame with
  | Err e => (c, Err e)
  | Ok req =>
      let resp_tag := Z.lor TAG_RESP_BASE (Z.land sender_tag TAG_ID_MASK) in
      if (length req =? 0) || (MAX_RESPONSE_BYTES <? length req) then (c, Ok None)
      else if panicked then
        (c, let? r := encode_response STATUS_ERR [] in
            Ok (Some (requester_peer_id req, resp_tag, r, 0)))
      else
        let '(c, hit) := cached_response read_ok (key req) (length req) c in
        (c, match hit with
            | Some (b, served) => Ok (Some (requester_peer_id req, resp_tag, b, served))
            | None =>
                let? (b, served) := provider_response provider req in
                Ok (Some (requester_peer_id req, resp_tag, b, served))
            end)
  end.
End serving.

(** Where a reply goes: nowhere when the requester's address is unknown.  [sent] is the outcome of
    the tagged send. *)
Definition server_send_response (ok sent : res unit) (peer : string) (s : Sys) : Sys * res unit :=
  match peer_addr_blobs (rt s) !! peer with
  | None => (s, Ok tt)
  | Some addr =>
      match begin_use ok peer addr s with
      | (s, Err e) => (s, Err e)
      | (s, Ok c) => (end_use c (negb (is_ok sent)) (tail (Endpoints.held s)) s, sent)
      end
  end.

(** [exchange req req_tag resp_tag]: what lands in the receive slot, or the error of the send or
    of the receive. *)
Definition client_fetch_inner (exchange : list byte -> Z -> Z -> res (list byte)) (id : Z)
    (k : ChunkKey) (len wait : Z) (requester rid : string) (sl : RecvSlab)
    : option (RecvSlab * res (list byte)) :=
  let req_tag := Z.lor TAG_REQ_BASE id in
  let resp_tag := Z.lor TAG_RESP_BASE id in
  match checkout sl with
  | None => None
  | Some (sl, Err e) => Some (sl, Err e)
  | Some (sl, Ok slot) =>
      Some (drop_slot slot sl,
            let? req := encode_request k len requester wait rid in
            let? raw := exchange req req_tag resp_tag in
            decode_response raw len)
  end.

Definition client_fetch (ok : res unit) (exchange : list byte -> Z -> Z -> res (list byte)) (id : Z)
    (p : string) (addr : list byte) (k : ChunkKey) (len wait : Z) (rid : string)
    (s : Sys) (sl : RecvSlab) : option (Sys * RecvSlab * res (list byte)) :=
  if (len =? 0) || (MAX_RESPONSE_BYTES <? len)
  then Some (s, sl, Err (Peer ("bad chunk length " +:+ show len)))
  else match begin_use ok p addr s with
  | (s, Err e) => Some (s, sl, Err e)
  | (s, Ok c) =>
      match client_fetch_inner exchange id k len wait (local_peer_id (rt s)) rid sl with
      | None => None
      | Some (sl, r) =>
          Some (end_use c (should_mark_endpoint_broken r) (tail (Endpoints.held s)) s, sl, r)
      end
  end.

Definition client_health (ok : res unit) (p : string) (addr : list byte) (s : Sys) : Sys * res unit :=
  match begin_use ok p addr s with
  | (s, Err e) => (s, Err e)
  | (s, Ok c) => (end_use c false (tail (Endpoints.held s)) s, Ok tt)
  end.

(** ** Lemmas *)
Lemma tag_roundtrip id :
  0 <= id <= TAG_ID_MASK -> Z.land (Z.lor TAG_REQ_BASE id) TAG_ID_MASK = id.
Proof.
  intros Hid. rewrite Z.land_lor_distr_l. change (Z.land TAG_REQ_BASE TAG_ID_MASK) with 0.
  rewrite Z.lor_0_l. change TAG_ID_MASK with (Z.ones 48). rewrite Z.land_ones by lia.
  apply Z.mod_small. unfold TAG_ID_MASK in Hid. lia.
Qed.

Lemma cached_response_hit sha256 k n c e data :
  Cache.entries (Cache.inner c) !! k = Some e -> Cache.size e = len data -> len data <= n ->
  Cache.read_file (Cache.disk c) (Cache.path_for sha256 k) = Some data ->
  (cached_response sha256 true k n c).2
  = Some (le_bytes 4 STATUS_OK ++ le_bytes 4 (len data) ++ data, len data).
Proof.
  intros He Hs Hn Hr. unfold cached_response, Cache.entry_size. rewrite He. cbn [fmap option_fmap option_map].
  rewrite Hs, (proj2 (Z.ltb_ge _ _)) by done.
  unfold Cache.try_get_into_slice, Cache.read_exact_at, Cache.touch_lru. rewrite He, Hs, Z.eqb_refl.
  cbn [negb]. rewrite Hr, Z.add_0_l, (proj2 (Z.leb_le _ _)) by done.
  by rewrite slice_full.
Qed.

Lemma cached_response_miss sha256 read_ok k n c :
  Cache.entries (Cache.inner c) !! k = None -> (cached_response sha256 read_ok k n c).2 = None.
Proof. intros He. unfold cached_response, Cache.entry_size. by rewrite He. Qed.

(** The network between a client and a server: the reply is received when its tag matches. *)
Definition over_the_wire (reply : list byte -> Z -> res (option (string * Z * list byte * Z)))
    (req : list byte) (req_tag resp_tag : Z) : res (list byte) :=
  match reply req req_tag with
  | Ok (Some (_, tag, b, _)) => if tag =? resp_tag then Ok b else Err (Peer "no reply")
  | Ok None => Err (Peer "no reply")
  | Err e => Err e
  end.

(** A chunk fetched from a peer is the peer's chunk: when the server holds the chunk and it is
    no longer than requested, the client's fetch through encoding, decoding, the server's cache,
    framing and tag matching returns exactly the cached bytes; when the server does not hold it and
    is not asked to wait, the client gets the not-found error, the one failure that does not mark
    the endpoint broken. *)
Lemma peer_fetch_end_to_end sha256 utf8_error provider id k n requester rid sl c :
  let exchange := over_the_wire (fun frame tag =>
    (handle_inbound_request sha256 utf8_error false true provider frame tag c).2) in
  0 <= id <= TAG_ID_MASK -> encodable k n requester -> 0 < n <= MAX_RESPONSE_BYTES ->
  str_len rid <= 128 -> utf8_valid (str_bytes rid) = true -> forallb rid_char (str_bytes rid) = true ->
  0 < permits sl -> free sl <> [] ->
  (forall data e, Cache.entries (Cache.inner c) !! k = Some e -> Cache.size e = len data ->
     0 < len data <= n -> Cache.read_file (Cache.disk c) (Cache.path_for sha256 k) = Some data ->
     snd <$> client_fetch_inner exchange id k n 0 requester rid sl = Some (Ok data)) /\
  (Cache.entries (Cache.inner c) !! k = None ->
     snd <$> client_fetch_inner exchange id k n 0 requester rid sl
     = Some (Err (NotFound "peer miss")) /\
     should_mark_endpoint_broken (A := list byte) (Err (NotFound "peer miss")) = false).
Proof.
  intros exchange Hid Henc Hn Hrl Hru Hrc Hperm Hfree.
  assert (Hco : exists sl' i, checkout sl = Some (sl', Ok i)).
  { unfold checkout, acquire. rewrite (proj2 (Z.ltb_lt _ _)) by done. unfold pop_slot. simpl.
    destruct (rev (free sl)) as [|i t] eqn:E; [|eauto].
    apply (f_equal (@rev Z)) in E. rewrite rev_involutive in E. done. }
  destruct Hco as (sl' & i & Hco).
  assert (Hframe : forall b served,
    (cached_response sha256 true k n c).2 = Some (b, served) \/
    ((cached_response sha256 true k n c).2 = None /\ encode_response STATUS_MISS [] = Ok b) ->
    snd <$> client_fetch_inner exchange id k n 0 requester rid sl = Some (decode_response b n)).
  { intros b served Hb. unfold client_fetch_inner. rewrite Hco.
    rewrite encode_request_ok by done. cbn [rbind fmap option_fmap option_map snd]. f_equal.
    unfold exchange, over_the_wire.
    unfold handle_inbound_request.
    edestruct (decode_head utf8_error k n requester) as (idx & Hat & ->); [done|].
    rewrite (decode_rest_full _ _ _ _ _ _ 0 rid Hat) by (done || u64_lia).
    cbn [length requester_peer_id key]. rewrite (proj2 (Z.eqb_neq n 0)), (proj2 (Z.ltb_ge _ _)) by lia.
    simpl orb. cbv iota.
    destruct (cached_response sha256 true k n c) as [c' hit]. simpl in Hb. cbn [snd].
    destruct Hb as [->|[-> Hm]].
    - by rewrite tag_roundtrip, Z.eqb_refl.
    - unfold provider_response. cbn [wait_ms length]. simpl andb. cbv iota. rewrite Hm. simpl rbind.
      by rewrite tag_roundtrip, Z.eqb_refl. }
  split.
  - intros data e He Hs Hd Hr.
    rewrite (Hframe _ _ (or_introl (cached_response_hit sha256 k n c e data He Hs ltac:(lia) Hr))).
    f_equal. apply decode_ok_response; lia.
  - intros He. split; [|done].
    etransitivity; [apply (Hframe (le_bytes 4 STATUS_MISS ++ le_bytes 4 0) 0)|reflexivity].
    right. split; [by apply cached_response_miss|done].
Qed.

End Rpc.
