(* ===== verification/UcxCallbacks.v ===== *)
(** * Arguments of the endpoint error callback (src/src/transport_ucx.rs)

    [create_peer_ep] boxes a copy of the endpoint's flag and gives UCX the raw pointer;
    [close_removed_endpoint] turns it back into a box and frees it once the close has returned.  [step]
    adds the heap, the closes under way and the calls of UCX to the endpoint table of
    [UcxRuntime.Endpoints].  UCX calls the handler of an endpoint only until its close completes. *)

From S2P Require Import Prelude UcxRuntime.

Module Callbacks.
Import Endpoints.

(** [heap] are the boxes not yet freed, [allocs] counts the allocations, [arg] is the [callback_arg] of
    each endpoint; [closing] are the closes under way, [shut] the ones that have returned and
    [abandoned] the ones whose task was dropped. *)
Record Sys := mkSys {
  eps : Endpoints.Sys;
  heap : gset nat;
  allocs : nat;
  arg : gmap nat nat;
  closing : list nat;
  shut : list nat;
  abandoned : list nat
}.

Definition set_heap (h : gset nat) (s : Sys) : Sys :=
  mkSys (eps s) h (allocs s) (arg s) (closing s) (shut s) (abandoned s).

Definition release_callback_arg (b : nat) (s : Sys) : Sys := set_heap (heap s ∖ {[b]}) s.

(** The box and the call of [ucp_ep_create], which gives endpoint [n] when it succeeds. *)
Definition create_peer_ep (n : nat) (ok : bool) (s : Sys) : Sys :=
  let callback_arg := allocs s in
  let s := mkSys (eps s) ({[callback_arg]} ∪ heap s) (S (allocs s)) (arg s) (closing s) (shut s) (abandoned s) in
  if ok then mkSys (eps s) (heap s) (allocs s) (<[n := callback_arg]> (arg s)) (closing s) (shut s) (abandoned s)
  else release_callback_arg callback_arg s.

(** The endpoints that a step of the table has handed to [close_removed_endpoint]. *)
Definition newly_closed (e e' : Endpoints.Sys) : list nat :=
  take (length (closed e') - length (closed e)) (closed e').

Definition with_table (e' : Endpoints.Sys) (s : Sys) : Sys :=
  let s := if decide (created e' = created (eps s)) then s else create_peer_ep (created (eps s)) true s in
  mkSys e' (heap s) (allocs s) (arg s) (newly_closed (eps s) e' ++ closing s) (shut s) (abandoned s).

(** [close_removed_endpoint] when the close has returned. *)
Definition close_returned (n : nat) (rest : list nat) (s : Sys) : Sys :=
  let s := mkSys (eps s) (heap s) (allocs s) (arg s) rest (n :: shut s) (abandoned s) in
  match arg s !! n with Some b => release_callback_arg b s | None => s end.

(** UCX may call the handler of these. *)
Definition callable (n : nat) (s : Sys) : Prop := (n < created (eps s))%nat /\ n ∉ shut s.

Definition endpoint_error_cb (n : nat) (s : Sys) : Sys :=
  let e := eps s in
  mkSys (Endpoints.mkSys (error_callback n (rt e)) (held e) (closed e) (lost e) (created e)) (heap s) (allocs s)
    (arg s) (closing s) (shut s) (abandoned s).

Inductive step (s : Sys) : Sys -> Prop :=
| step_table d e' : Endpoints.step d (eps s) e' -> step s (with_table e' s)
| step_refused n : step s (create_peer_ep n false s)
| step_closed c1 n c2 : closing s = c1 ++ n :: c2 -> step s (close_returned n (c1 ++ c2) s)
| step_abandon c1 n c2 :
    closing s = c1 ++ n :: c2 ->
    step s (mkSys (eps s) (heap s) (allocs s) (arg s) (c1 ++ c2) (shut s) (n :: abandoned s))
| step_error n : callable n s -> step s (endpoint_error_cb n s).

Definition start (me : string) : Sys := mkSys (Endpoints.start me) ∅ 0 ∅ [] [] [].

Inductive reachable (me : string) : Sys -> Prop :=
| reach_start : reachable me (start me)
| reach_step s s' : reachable me s -> step s s' -> reachable me s'.

(** ** The invariant *)
Record inv (s : Sys) : Prop := {
  iv_eps : Endpoints.parts (eps s);
  iv_closes : closing s ++ shut s ++ abandoned s ≡ₚ closed (eps s);
  iv_arg n : is_Some (arg s !! n) <-> (n < created (eps s))%nat;
  iv_bound n b : arg s !! n = Some b -> (b < allocs s)%nat;
  iv_inj n m b : arg s !! n = Some b -> arg s !! m = Some b -> n = m;
  iv_heap b : b ∈ heap s <-> exists n, arg s !! n = Some b /\ n ∉ shut s
}.

(** A step of the table creates at most one endpoint, and closes are only added. *)
Lemma table_step d e e' :
  Endpoints.step d e e' ->
  (created e' = created e \/ created e' = S (created e)) /\ closed e' = newly_closed e e' ++ closed e.
Proof.
  assert (Hn : forall l, closed e' = l ++ closed e -> closed e' = newly_closed e e' ++ closed e).
  { intros l Hl. unfold newly_closed. rewrite Hl, length_app, Nat.add_sub, take_app_length. done. }
  intros Hst. cut ((created e' = created e \/ created e' = S (created e)) /\ exists l, closed e' = l ++ closed e).
  { intros [? [l Hl]]. eauto. }
  clear Hn. destruct Hst as [s ok p addr Hlt|s c failed h1 h2 Hh|s p addr|s|s n|s].
  - unfold begin_use. destruct (update_peer_addr_blob p addr (rt s)) as [r removed].
    destruct (checkout_endpoint _ p addr r) as [r' [c|e]]; simpl; [case_bool_decide|]; eauto.
    split; [auto|by exists []].
  - unfold end_use. destruct (release_endpoint _ _) as [r removed]. simpl. eauto.
  - unfold update_peer. destruct (update_peer_addr_blob p addr (rt s)) as [r removed]. simpl. eauto.
  - unfold reap_broken_eps. destruct (take_broken_peer_eps (rt s)) as [r removed]. simpl. eauto.
  - simpl. split; [auto|by exists []].
  - simpl. eauto.
Qed.

Lemma closed_created s n : inv s -> n ∈ closed (eps s) -> (n < created (eps s))%nat.
Proof.
  intros Hs Hn. assert (H : n ∈ seq 0 (created (eps s))).
  { pose proof (iv_eps s Hs) as Hp. unfold parts in Hp. rewrite <- Hp, !elem_of_app. tauto. }
  apply elem_of_seq in H. lia.
Qed.

Lemma shut_closed s n : inv s -> n ∈ shut s -> n ∈ closed (eps s).
Proof. intros Hs Hn. rewrite <- (iv_closes s Hs), !elem_of_app. tauto. Qed.

Lemma inv_box s : inv s ->
  let s' := create_peer_ep (created (eps s)) true s in
  (forall n, is_Some (arg s' !! n) <-> (n < S (created (eps s)))%nat) /\
  (forall n b, arg s' !! n = Some b -> (b < allocs s')%nat) /\
  (forall n m b, arg s' !! n = Some b -> arg s' !! m = Some b -> n = m) /\
  (forall b, b ∈ heap s' <-> exists n, arg s' !! n = Some b /\ n ∉ shut s').
Proof.
  intros Hs s'. set (c := created (eps s)). assert (Ha : arg s' = <[c := allocs s]> (arg s)) by done.
  assert (Hfresh : forall n, arg s !! n <> Some (allocs s)) by (intros n Hn%(iv_bound s Hs); lia).
  assert (Hc : arg s !! c = None).
  { apply eq_None_not_Some. rewrite (iv_arg s Hs). unfold c. lia. }
  assert (Hns : c ∉ shut s) by (intros Hx%(shut_closed s c Hs)%(closed_created s c Hs); unfold c in Hx; lia).
  rewrite Ha. change (shut s') with (shut s). change (heap s') with ({[allocs s]} ∪ heap s).
  change (allocs s') with (S (allocs s)). split_and!.
  - intros n. rewrite lookup_insert_is_Some, (iv_arg s Hs). fold c. destruct (decide (c = n)); [subst|]; lia.
  - intros n b [[_ <-]|[_ Hn%(iv_bound s Hs)]]%lookup_insert_Some; lia.
  - intros n m b [[<- <-]|[? Hn]]%lookup_insert_Some [[<- Hb]|[? Hm]]%lookup_insert_Some; try done.
    + by apply Hfresh in Hm.
    + subst b. by apply Hfresh in Hn.
    + by eapply (iv_inj s Hs).
  - intros b. rewrite elem_of_union, elem_of_singleton, (iv_heap s Hs). split.
    + intros [->|(n & Hn & Hnn)]; [exists c; by rewrite lookup_insert_eq|].
      exists n. rewrite lookup_insert_ne by congruence. done.
    + intros (n & [[<- <-]|[_ Hn]]%lookup_insert_Some & Hnn); eauto.
Qed.

Lemma inv_table d s e' : inv s -> Endpoints.step d (eps s) e' -> inv (with_table e' s).
Proof.
  intros Hs Hst. destruct (table_step _ _ _ Hst) as [Hcr Hcl].
  assert (He : parts e') by (eapply step_parts; [apply (iv_eps s Hs)|done]).
  assert (Hc : (newly_closed (eps s) e' ++ closing s) ++ shut s ++ abandoned s ≡ₚ closed e').
  { rewrite Hcl, <- (iv_closes s Hs). by rewrite <- app_assoc. }
  unfold with_table. destruct (decide (created e' = created (eps s))) as [Heq|Hne].
  - split; cbn [eps heap allocs arg closing shut abandoned]; rewrite ?Heq; try done; apply Hs.
  - destruct Hcr as [?|Hcr]; [done|]. destruct (inv_box s Hs) as (H1 & H2 & H3 & H4).
    split; cbn [eps heap allocs arg closing shut abandoned]; rewrite ?Hcr; done.
Qed.

Lemma inv_refused s n : inv s -> inv (create_peer_ep n false s).
Proof.
  intros Hs. assert (Hf : allocs s ∉ heap s).
  { rewrite (iv_heap s Hs). intros (m & Hm%(iv_bound s Hs) & _). lia. }
  split; cbn [create_peer_ep release_callback_arg set_heap eps heap allocs arg closing shut abandoned]; try apply Hs.
  - intros m b Hm%(iv_bound s Hs). lia.
  - intros b. rewrite <- (iv_heap s Hs). set_solver.
Qed.

(** The close of an endpoint returns once, and frees its own box. *)
Lemma inv_closed s c1 n c2 : inv s -> closing s = c1 ++ n :: c2 -> inv (close_returned n (c1 ++ c2) s).
Proof.
  intros Hs Hc. assert (Hcl : n ∈ closed (eps s)).
  { rewrite <- (iv_closes s Hs), Hc, !elem_of_app, elem_of_cons. tauto. }
  apply (closed_created s n Hs), (iv_arg s Hs) in Hcl as [b Hb].
  unfold close_returned. cbn [arg]. rewrite Hb.
  split; cbn [release_callback_arg set_heap eps heap allocs arg closing shut abandoned]; try apply Hs.
  - rewrite <- (iv_closes s Hs), Hc. simpl. rewrite <- !app_assoc, <- Permutation_middle. simpl.
    by rewrite Permutation_middle.
  - intros x. rewrite elem_of_difference, not_elem_of_singleton, (iv_heap s Hs). split.
    + intros [(m & Hm & Hn) Hx]. exists m. split; [done|]. rewrite elem_of_cons. intros [->|?]; congruence.
    + intros (m & Hm & Hn). rewrite elem_of_cons in Hn. split; [exists m; tauto|]. intros ->.
      apply Hn. left. by eapply (iv_inj s Hs).
Qed.

Lemma callbacks_step s s' : inv s -> step s s' -> inv s'.
Proof.
  intros Hs Hst. destruct Hst as [d e' He|n|c1 n c2 Hc|c1 n c2 Hc|n _].
  - by apply (inv_table d).
  - by apply inv_refused.
  - by apply inv_closed.
  - split; cbn [eps heap allocs arg closing shut abandoned]; try apply Hs.
    rewrite <- (iv_closes s Hs), Hc, <- !app_assoc. simpl. by rewrite <- !Permutation_middle.
  - split; cbn [endpoint_error_cb eps heap allocs arg closing shut abandoned]; try apply Hs.
    eapply step_parts; [apply (iv_eps s Hs)|apply Endpoints.step_error].
Qed.

(** ** Theorem *)

(** C25.  The raw pointers given to UCX are used safely: in every interleaving of fetches, replies,
    address updates, reaper ticks, refused creations, the shutdown, closes and error callbacks, whenever UCX can
    call the handler of an endpoint the box of its argument is allocated, the box a close is going to
    free is still allocated and is freed by no other close, and a box that is not freed belongs to an
    endpoint in the table, one whose close is under way, or one whose close was given up. *)
Theorem callback_args_safe me s :
  reachable me s ->
  (forall n, callable n s -> exists b, arg s !! n = Some b /\ b ∈ heap s) /\
  (forall n, n ∈ closing s -> callable n s) /\ NoDup (closing s ++ shut s) /\
  (forall n m b, arg s !! n = Some b -> arg s !! m = Some b -> n = m) /\
  (forall b, b ∈ heap s -> exists n, arg s !! n = Some b /\
     (n ∈ tabled (peer_eps (rt (eps s))) \/ n ∈ closing s \/ n ∈ abandoned s \/ n ∈ lost (eps s))).
Proof.
  intros Hr. assert (Hs : inv s).
  { induction Hr as [|s s' _ IH Hst]; [|by eapply callbacks_step]. split; simpl; try done.
    - exact (inv_parts _ (endpoints_inv_start me)).
    - intros n. rewrite lookup_empty, is_Some_alt. lia.
    - intros b. split; [set_solver|]. by intros (n & ? & _). }
  pose proof (iv_eps s Hs) as Hp. unfold parts in Hp. pose proof (NoDup_seq 0 (created (eps s))) as Hnd.
  rewrite <- Hp in Hnd. apply NoDup_app in Hnd as (_ & _ & Hnd). apply NoDup_app in Hnd as (Hnd & _ & _).
  rewrite <- (iv_closes s Hs), app_assoc in Hnd. apply NoDup_app in Hnd as (Hnd & _ & _). split_and!; [| |done| |].
  - intros n [Hn Hsh]. apply (iv_arg s Hs) in Hn as [b Hb]. exists b. split; [done|]. apply (iv_heap s Hs). eauto.
  - intros n Hn. split; [|by apply NoDup_app in Hnd as (_ & Hd & _); apply Hd].
    apply (closed_created s n Hs). rewrite <- (iv_closes s Hs), !elem_of_app. tauto.
  - apply (iv_inj s Hs).
  - intros b (n & Hn & Hsh)%(iv_heap s Hs). exists n. split; [done|].
    assert (Hin : n ∈ seq 0 (created (eps s))) by (apply elem_of_seq; split; [lia|]; apply (iv_arg s Hs); eauto).
    rewrite <- Hp, <- (iv_closes s Hs), !elem_of_app in Hin. tauto.
Qed.

(** An endpoint whose send failed is being closed, and UCX reports the failure meanwhile. *)
Definition demo_closing : Sys :=
  let s := with_table (begin_use (Ok tt) "b" [x01] (Endpoints.start "a")).1 (start "a") in
  with_table (end_use (mkCheckedOut "b" 0) true [] (eps s)) s.

Lemma callback_args_safe_witness :
  closing demo_closing = [0%nat] /\ exists b, arg demo_closing !! 0%nat = Some b /\ b ∈ heap demo_closing.
Proof.
  assert (Hr : reachable "a" demo_closing).
  { eapply reach_step; [eapply reach_step; [apply reach_start|]|].
    - apply (step_table (start "a") false). apply (step_begin _ (Ok tt) "b" [x01]). vm_compute. reflexivity.
    - apply (step_table _ false). apply (step_end _ (mkCheckedOut "b" 0) true [] []). vm_compute. reflexivity. }
  assert (Hc : closing demo_closing = [0%nat]) by (vm_compute; reflexivity). split; [exact Hc|].
  destruct (callback_args_safe "a" demo_closing Hr) as (Hcall & Hcl & _). apply Hcall, Hcl. rewrite Hc. by left.
Defined.
End Callbacks.
