(* ===== verification/UcxFetch.v ===== *)
(** * Concurrent fetches over UCX (src/src/transport_ucx.rs, [client_fetch_inner])

    Any number of fetches of one node share a receive slab and a worker: each takes a slot and a request
    number, posts a receive for its tag into the slot, sends its request, and decodes what arrived when
    the receive has completed.  [step] interleaves them with the handlers of the peers and with UCX,
    which gives a message to a receive with the same tag and writes it into the receive's buffer.
    The slab is one block of memory, and a buffer is an address range of it. *)

From S2P Require Import Prelude ChunkKeys DiskCache Wire UcxRuntime.

Module Exchange.
Import Slab.

(** ** Memory *)
Definition store (pos : Z) (b : list byte) (m : Z -> byte) (a : Z) : byte :=
  if pos <=? a then default (m a) (b !! Z.to_nat (a - pos)) else m a.

Definition load (pos n : Z) (m : Z -> byte) : list byte := m <$> seqZ pos n.

(** ** State *)

(** The receive is posted; it has completed with [n] bytes; the fetch has returned. *)
Inductive Stage : Type :=
| Posted
| Filled (n : Z)
| Returned (r : res (list byte)).

Record Fetch := mkFetch {
  f_key : ChunkKey;
  f_len : Z;
  f_slot : Z;
  f_frame : list byte;
  f_stage : Stage
}.

(** [issued] counts the request numbers, [requests] and [replies] are the messages on the network; [answered] records which reply was made
    to which request. *)
Record Sys := mkSys {
  slab : RecvSlab;
  backing : Z -> byte;
  issued : Z;
  fetches : gmap Z Fetch;
  requests : list (Z * list byte);
  replies : list (Z * list byte);
  answered : list (Z * list byte)
}.

Definition req_tag (id : Z) : Z := Z.lor Rpc.TAG_REQ_BASE id.
Definition resp_tag (id : Z) : Z := Z.lor Rpc.TAG_RESP_BASE id.

(** [8 + length as usize], the length of the posted buffer. *)
Definition total (f : Fetch) : Z := 8 + f_len f.

Definition set_stage (st : Stage) (f : Fetch) : Fetch := mkFetch (f_key f) (f_len f) (f_slot f) (f_frame f) st.

Section exchange.
Context (sha256 : list byte -> list byte) (utf8_error : list byte -> string) (requester : string).

(** [b] is what the handler of some peer, in some state, answers to the frame. *)
Definition answers (frame : list byte) (tag' tag : Z) (b : list byte) : Prop :=
  exists panicked read_ok provider c c' peer served,
    Rpc.handle_inbound_request sha256 utf8_error panicked read_ok provider frame tag c
    = (c', Ok (Some (peer, tag', b, served))).

(** Up to the two posts; the counter [REQ_ID] wraps. *)
Definition begin (k : ChunkKey) (n : Z) (frame : list byte) (sl : RecvSlab) (slot : Z) (s : Sys) : Sys :=
  let id := wrap64 (issued s) in
  mkSys sl (backing s) (issued s + 1) (<[id := mkFetch k n slot frame Posted]> (fetches s))
    (requests s ++ [(req_tag id, frame)]) (replies s) (answered s).

Definition write (f : Fetch) (b : list byte) (s : Sys) : Z -> byte :=
  store (slot_start (f_slot f) (slab s)) b (backing s).

(** A receive completes with a message. *)
Definition receive (id : Z) (f : Fetch) (b : list byte) (rest : list (Z * list byte)) (s : Sys) : Sys :=
  mkSys (slab s) (write f b s) (issued s) (<[id := set_stage (Filled (len b)) f]> (fetches s)) (requests s) rest
    (answered s).

(** The fetch returns; its slot goes back. *)
Definition return_ (id : Z) (f : Fetch) (r : res (list byte)) (s : Sys) : Sys :=
  mkSys (drop_slot (f_slot f) (slab s)) (backing s) (issued s) (<[id := set_stage (Returned r) f]> (fetches s))
    (requests s) (replies s) (answered s).

(** The receive has completed with [n] bytes: they are decoded. *)
Definition finish (id : Z) (f : Fetch) (n : Z) (s : Sys) : Sys :=
  return_ id f (Wire.decode_response (load (slot_start (f_slot f) (slab s)) n (backing s)) (f_len f)) s.

(** A message that does not fit is cut off, and the receive fails. *)
Definition truncate (id : Z) (f : Fetch) (b : list byte) (rest : list (Z * list byte)) (e : BcError) (s : Sys) : Sys :=
  return_ id f (Err e)
    (mkSys (slab s) (write f (take (Z.to_nat (total f)) b) s) (issued s) (fetches s) (requests s) rest (answered s)).

Inductive step (s : Sys) : Sys -> Prop :=
| step_begin k n wait rid frame sl slot :
    checkout (slab s) = Some (sl, Ok slot) -> Wire.encode_request k n requester wait rid = Ok frame ->
    0 <= n -> step s (begin k n frame sl slot s)
| step_answer r1 tag frame r2 tag' b :
    requests s = r1 ++ (tag, frame) :: r2 -> answers frame tag' tag b ->
    step s (mkSys (slab s) (backing s) (issued s) (fetches s) (r1 ++ r2) (replies s ++ [(tag', b)])
              ((Z.land tag Rpc.TAG_ID_MASK, b) :: answered s))
| step_lost r1 m r2 :
    requests s = r1 ++ m :: r2 ->
    step s (mkSys (slab s) (backing s) (issued s) (fetches s) (r1 ++ r2) (replies s) (answered s))
| step_receive r1 tag b r2 id f :
    replies s = r1 ++ (tag, b) :: r2 -> fetches s !! id = Some f -> f_stage f = Posted -> resp_tag id = tag ->
    len b <= total f -> step s (receive id f b (r1 ++ r2) s)
| step_truncate r1 tag b r2 id f e :
    replies s = r1 ++ (tag, b) :: r2 -> fetches s !! id = Some f -> f_stage f = Posted -> resp_tag id = tag ->
    total f < len b -> step s (truncate id f b (r1 ++ r2) e s)
| step_finish id f n : fetches s !! id = Some f -> f_stage f = Filled n -> step s (finish id f n s)
| step_fail id f e : fetches s !! id = Some f -> f_stage f = Posted -> step s (return_ id f (Err e) s).

(** A fresh runtime: [REQ_ID] starts at 1. *)
Definition starts (s : Sys) : Prop :=
  exists n size, Slab.new n size = Ok (slab s) /\ issued s = 1 /\ fetches s = ∅ /\ requests s = [] /\
    replies s = [] /\ answered s = [].

Inductive reachable : Sys -> Prop :=
| reach_start s : starts s -> reachable s
| reach_step s s' : reachable s -> step s s' -> reachable s'.

(** ** The invariant *)
Definition active (f : Fetch) : bool := match f_stage f with Returned _ => false | _ => true end.

(** Every fetch fits into a slot. *)
Definition fits (s : Sys) : Prop := forall id f, fetches s !! id = Some f -> total f <= slot_size (slab s).

Record inv (s : Sys) : Prop := {
  iv_ids id f : fetches s !! id = Some f -> 1 <= id < issued s /\ 0 <= f_len f /\
    exists wait rid, Wire.encode_request (f_key f) (f_len f) requester wait rid = Ok (f_frame f);
  iv_issued : 1 <= issued s;
  iv_nodup : NoDup (free (slab s));
  iv_free id f : fetches s !! id = Some f -> active f = true -> f_slot f ∉ free (slab s);
  iv_excl i j f g : fetches s !! i = Some f -> fetches s !! j = Some g -> active f = true -> active g = true ->
    f_slot f = f_slot g -> i = j;
  iv_requests tag frame : (tag, frame) ∈ requests s ->
    exists id f, fetches s !! id = Some f /\ tag = req_tag id /\ f_frame f = frame;
  iv_replies tag b : (tag, b) ∈ replies s -> exists id, 1 <= id < issued s /\ tag = resp_tag id /\ (id, b) ∈ answered s;
  iv_answered id b : (id, b) ∈ answered s ->
    exists f, fetches s !! id = Some f /\ answers (f_frame f) (resp_tag id) (req_tag id) b;
  iv_filled id f n : fetches s !! id = Some f -> f_stage f = Filled n -> 0 <= n <= total f /\
    (id, load (slot_start (f_slot f) (slab s)) n (backing s)) ∈ answered s;
  iv_returned id f d : fetches s !! id = Some f -> f_stage f = Returned (Ok d) ->
    exists b, (id, b) ∈ answered s /\ Wire.decode_response b (f_len f) = Ok d
}.

(** ** Lemmas *)
Lemma load_store pos b m : load pos (len b) (store pos b m) = b.
Proof using Type.
  clear sha256 utf8_error requester. apply list_eq. intros i. unfold load. rewrite list_lookup_fmap.
  destruct (decide (i < length b)%nat) as [Hi|Hi].
  - rewrite lookup_seqZ_lt by (unfold len; lia). simpl. unfold store.
    rewrite (proj2 (Z.leb_le _ _)) by lia. replace (Z.to_nat (pos + Z.of_nat i - pos)) with i by lia.
    destruct (b !! i) as [x|] eqn:E; [done|]. apply lookup_ge_None in E. lia.
  - rewrite lookup_seqZ_ge by (unfold len; lia). simpl. symmetry. apply lookup_ge_None. lia.
Qed.

(** A write to one buffer does not show in another. *)
Lemma load_elsewhere pos n pos' b m :
  pos + n <= pos' \/ pos' + len b <= pos -> load pos n (store pos' b m) = load pos n m.
Proof using Type.
  clear sha256 utf8_error requester. intros Hd. unfold load. apply list_fmap_ext. intros i a Ha.
  apply lookup_seqZ in Ha as [-> Hi]. unfold store. destruct (Z.leb_spec pos' (pos + Z.of_nat i)); [|done].
  destruct (b !! Z.to_nat (pos + Z.of_nat i - pos')) as [x|] eqn:E; [|done].
  apply lookup_lt_Some in E. unfold len in Hd. lia.
Qed.

Lemma slots_apart i j size : i <> j -> 0 <= size -> i * size + size <= j * size \/ j * size + size <= i * size.
Proof using Type. clear. intros Hne Hs. destruct (Z.lt_total i j) as [?|[?|?]]; [left|done|right]; nia. Qed.

Lemma id_of_tag base id :
  Z.land base Rpc.TAG_ID_MASK = 0 -> 1 <= id < 2 ^ 48 -> Z.land (Z.lor base id) Rpc.TAG_ID_MASK = id.
Proof using Type.
  clear. intros Hb Hid. rewrite Z.land_lor_distr_l, Hb, Z.lor_0_l. change Rpc.TAG_ID_MASK with (Z.ones 48).
  rewrite Z.land_ones by lia. apply Z.mod_small. lia.
Qed.

Lemma resp_tag_inj i j : 1 <= i < 2 ^ 48 -> 1 <= j < 2 ^ 48 -> resp_tag i = resp_tag j -> i = j.
Proof using Type.
  clear. intros Hi Hj H. apply (f_equal (fun t => Z.land t Rpc.TAG_ID_MASK)) in H. unfold resp_tag in H.
  by rewrite !id_of_tag in H.
Qed.

Lemma checkout_free sl sl' i :
  NoDup (free sl) -> checkout sl = Some (sl', Ok i) ->
  i ∈ free sl /\ i ∉ free sl' /\ NoDup (free sl') /\ (forall j, j ∈ free sl' -> j ∈ free sl) /\
  slot_size sl' = slot_size sl.
Proof using Type.
  clear. unfold checkout, acquire. destruct (0 <? permits sl); [|done]. unfold pop_slot. cbn [free slot_size n_slots permits].
  intros Hnd. destruct (rev (free sl)) as [|x t] eqn:E; [done|]. intros [= <- <-]. cbn [free slot_size].
  assert (Hf : free sl = rev t ++ [x]) by (rewrite <- (rev_involutive (free sl)), E; done). rewrite Hf in *.
  apply NoDup_app in Hnd as (Hnd & Hd & _). split_and!; try done.
  - apply elem_of_app. right. by left.
  - intros Hx. apply (Hd x Hx). by left.
  - intros j Hj. apply elem_of_app. by left.
Qed.

(** The handler answers with the number of the request. *)
Lemma answer_tag frame tag' tag b : answers frame tag' tag b -> tag' = Z.lor Rpc.TAG_RESP_BASE (Z.land tag Rpc.TAG_ID_MASK).
Proof using Type.
  intros (pan & rok & prov & c & c' & peer & served & H). unfold Rpc.handle_inbound_request in H.
  destruct (Wire.decode_request _ _) as [req|e]; [|done]. destruct (_ || _); [done|]. destruct pan.
  { destruct (Wire.encode_response _ _); simplify_eq/=. done. }
  destruct (Rpc.cached_response _ _ _ _ _) as [c1 [[b1 s1]|]]; [by simplify_eq|].
  destruct (Rpc.provider_response _ _) as [[b1 s1]|e]; simplify_eq/=. done.
Qed.

(** One fetch goes on: it may write to its own slot and give it back. *)
Lemma inv_fetch_update s id f st sl bk rep :
  inv s -> fits s -> fetches s !! id = Some f -> active f = true ->
  slot_size sl = slot_size (slab s) -> NoDup (free sl) ->
  (forall j, j ∈ free sl -> j ∈ free (slab s) \/ (j = f_slot f /\ active (set_stage st f) = false)) ->
  (forall j n, j <> f_slot f -> n <= slot_size sl -> load (j * slot_size sl) n bk = load (j * slot_size sl) n (backing s)) ->
  (forall m, m ∈ rep -> m ∈ replies s) ->
  (forall n, st = Filled n -> 0 <= n <= total f /\ (id, load (slot_start (f_slot f) sl) n bk) ∈ answered s) ->
  (forall d, st = Returned (Ok d) -> exists b, (id, b) ∈ answered s /\ Wire.decode_response b (f_len f) = Ok d) ->
  inv (mkSys sl bk (issued s) (<[id := set_stage st f]> (fetches s)) (requests s) rep (answered s)).
Proof using Type.
  intros Hs Hfit Hf Ha Hsz Hnd Hfree Hbk Hrep Hfill Hret.
  assert (Hkeep : forall j g, fetches s !! j = Some g ->
    exists g', <[id := set_stage st f]> (fetches s) !! j = Some g' /\ f_frame g' = f_frame g).
  { intros j g Hj. rewrite lookup_insert. case_decide; [|by exists g]. subst j. exists (set_stage st f).
    split; [done|]. cbn [set_stage f_frame]. congruence. }
  split; cbn [slab backing issued fetches requests replies answered].
  - intros j g [[<- <-]|[_ Hj]]%lookup_insert_Some; [apply (iv_ids s Hs id f Hf)|by apply (iv_ids s Hs)].
  - apply (iv_issued s Hs).
  - done.
  - intros j g [[<- <-]|[Hne Hj]]%lookup_insert_Some Hg Hin; destruct (Hfree _ Hin) as [Hin'|[Heq Hna]].
    + by apply (iv_free s Hs id f Hf Ha).
    + congruence.
    + by apply (iv_free s Hs j g Hj Hg).
    + by apply Hne, (iv_excl s Hs id j f g).
  - intros i j g h [[<- <-]|[Hi Hgi]]%lookup_insert_Some [[<- <-]|[Hj Hhj]]%lookup_insert_Some Hg Hh Heq; [done|..].
    + by apply (iv_excl s Hs id j f h).
    + by apply (iv_excl s Hs i id g f).
    + by apply (iv_excl s Hs i j g h).
  - intros tag frame (j & g & Hj & -> & <-)%(iv_requests s Hs). destruct (Hkeep j g Hj) as (g' & ? & ?). eauto.
  - intros tag b Hin. apply (iv_replies s Hs), Hrep, Hin.
  - intros j b (g & Hj & Han)%(iv_answered s Hs). destruct (Hkeep j g Hj) as (g' & ? & Hfr). exists g'. by rewrite Hfr.
  - intros j g n [[<- <-]|[Hne Hj]]%lookup_insert_Some Hg; [by apply Hfill|].
    destruct (iv_filled s Hs j g n Hj Hg) as [Hn Hin]. split; [done|]. unfold slot_start in *. rewrite Hbk, Hsz; [done| |].
    + intros Heq. apply Hne. apply (iv_excl s Hs id j f g); try done. unfold active. by rewrite Hg.
    + rewrite Hsz. pose proof (Hfit j g Hj). lia.
  - intros j g d [[<- <-]|[_ Hj]]%lookup_insert_Some Hg; [by apply Hret|by apply (iv_returned s Hs j g d)].
Qed.

(** Writing to the slot of a fetch leaves the other slots as they were. *)
Lemma write_elsewhere s f b j n :
  fits s -> forall id, fetches s !! id = Some f -> len b <= total f -> 0 <= f_len f -> j <> f_slot f ->
  n <= slot_size (slab s) ->
  load (j * slot_size (slab s)) n (write f b s) = load (j * slot_size (slab s)) n (backing s).
Proof using Type.
  intros Hfit id Hf Hb Hl Hne Hn. pose proof (Hfit id f Hf) as Ht. apply load_elsewhere. unfold slot_start.
  unfold total in *. destruct (slots_apart j (f_slot f) (slot_size (slab s)) Hne); lia.
Qed.

Lemma inv_receive s r1 tag b r2 id f :
  inv s -> fits s -> issued s <= 2 ^ 48 -> replies s = r1 ++ (tag, b) :: r2 -> fetches s !! id = Some f ->
  f_stage f = Posted -> resp_tag id = tag -> len b <= total f -> inv (receive id f b (r1 ++ r2) s).
Proof using Type.
  intros Hs Hfit Hmax Hr Hf Hp <- Hb. destruct (iv_ids s Hs id f Hf) as (Hid & Hl & _).
  destruct (iv_replies s Hs (resp_tag id) b) as (id' & Hid' & Htag & Hin).
  { rewrite Hr. apply elem_of_app. right. by left. }
  apply resp_tag_inj in Htag; [subst id'|lia|lia]. apply inv_fetch_update; try done.
  - unfold active. by rewrite Hp.
  - apply (iv_nodup s Hs).
  - by left.
  - intros j n. by apply (write_elsewhere s f b j n Hfit id).
  - intros m Hm. rewrite Hr. rewrite elem_of_app in *. rewrite elem_of_cons. tauto.
  - intros n [= <-]. split; [pose proof (len_nonneg b); lia|]. unfold write. by rewrite load_store.
Qed.

(** A fetch returns, possibly after a message that was cut off. *)
Lemma inv_return s id f r bk rep :
  inv s -> fits s -> fetches s !! id = Some f -> active f = true ->
  (forall j n, j <> f_slot f -> n <= slot_size (slab s) ->
     load (j * slot_size (slab s)) n bk = load (j * slot_size (slab s)) n (backing s)) ->
  (forall m, m ∈ rep -> m ∈ replies s) ->
  (forall d, r = Ok d -> exists b, (id, b) ∈ answered s /\ Wire.decode_response b (f_len f) = Ok d) ->
  inv (return_ id f r (mkSys (slab s) bk (issued s) (fetches s) (requests s) rep (answered s))).
Proof using Type.
  intros Hs Hfit Hf Ha Hbk Hrep Hret.
  apply (inv_fetch_update s id f (Returned r) (drop_slot (f_slot f) (slab s)) bk rep); try done.
  - cbn [drop_slot release push_slot free]. apply NoDup_app. split_and!; [apply (iv_nodup s Hs)| |apply NoDup_singleton].
    intros j Hj ->%list_elem_of_singleton. by apply (iv_free s Hs id f Hf Ha).
  - intros j. cbn [drop_slot release push_slot free]. rewrite elem_of_app, list_elem_of_singleton. tauto.
  - intros d [= ->]. by apply Hret.
Qed.

Lemma inv_begin_fetch s k n wait rid frame sl slot :
  inv s -> issued s < 2 ^ 48 -> checkout (slab s) = Some (sl, Ok slot) ->
  Wire.encode_request k n requester wait rid = Ok frame -> 0 <= n -> inv (begin k n frame sl slot s).
Proof using Type.
  intros Hs Hmax Hco Henc Hn. pose proof (iv_issued s Hs) as Hi.
  destruct (checkout_free _ _ _ (iv_nodup s Hs) Hco) as (Hin & Hout & Hnd & Hsub & Hsz).
  unfold begin. rewrite wrap64_small by u64_lia.
  assert (Hnew : forall j g, fetches s !! j = Some g -> issued s <> j).
  { intros j g Hj <-. destruct (iv_ids s Hs _ g Hj). lia. }
  assert (Hkeep : forall j g, fetches s !! j = Some g ->
    <[issued s := mkFetch k n slot frame Posted]> (fetches s) !! j = Some g).
  { intros j g Hj. rewrite lookup_insert_ne; [done|]. by eapply Hnew. }
  assert (Hslot : forall j g, fetches s !! j = Some g -> active g = true -> f_slot g <> slot).
  { intros j g Hj Hg <-. by apply (iv_free s Hs j g Hj Hg). }
  split; cbn [slab backing issued fetches requests replies answered].
  - intros j g [[<- <-]|[_ Hj]]%lookup_insert_Some; [split_and!; simpl; [lia..|eauto]|].
    destruct (iv_ids s Hs j g Hj) as (? & ? & ?). split_and!; try done; lia.
  - lia.
  - done.
  - intros j g [[<- <-]|[_ Hj]]%lookup_insert_Some Hg; [done|]. intros Hx%Hsub. by apply (iv_free s Hs j g Hj Hg).
  - intros i j g h [[<- <-]|[_ Hgi]]%lookup_insert_Some [[<- <-]|[_ Hhj]]%lookup_insert_Some Hg Hh Heq; [done|..].
    + by destruct (Hslot j h Hhj Hh); symmetry.
    + by destruct (Hslot i g Hgi Hg).
    + by apply (iv_excl s Hs i j g h).
  - intros tag fr [(j & g & Hj & -> & <-)%(iv_requests s Hs)|[= -> ->]%list_elem_of_singleton]%elem_of_app;
      [exists j, g; auto|].
    exists (issued s), (mkFetch k n slot frame Posted). by rewrite lookup_insert_eq.
  - intros tag b (j & ? & ? & ?)%(iv_replies s Hs). exists j. split_and!; try done; lia.
  - intros j b (g & Hj & Han)%(iv_answered s Hs). exists g. auto.
  - intros j g m [[_ <-]|[_ Hj]]%lookup_insert_Some Hg; [done|]. unfold slot_start. rewrite Hsz. by apply (iv_filled s Hs j g m).
  - intros j g d [[_ <-]|[_ Hj]]%lookup_insert_Some Hg; [done|]. by apply (iv_returned s Hs j g d).
Qed.

(** A peer answers a request that is on its way. *)
Lemma inv_fetch_answer s r1 tag frame r2 tag' b :
  inv s -> issued s <= 2 ^ 48 -> requests s = r1 ++ (tag, frame) :: r2 -> answers frame tag' tag b ->
  inv (mkSys (slab s) (backing s) (issued s) (fetches s) (r1 ++ r2) (replies s ++ [(tag', b)])
         ((Z.land tag Rpc.TAG_ID_MASK, b) :: answered s)).
Proof using Type.
  intros Hs Hmax Hr Han. destruct (iv_requests s Hs tag frame) as (id & f & Hf & -> & Hfr).
  { rewrite Hr. apply elem_of_app. right. by left. }
  destruct (iv_ids s Hs id f Hf) as (Hid & _). pose proof (answer_tag _ _ _ _ Han) as Ht.
  unfold req_tag in Ht. rewrite id_of_tag in Ht by (done || lia). fold (resp_tag id) in Ht. subst tag'.
  unfold req_tag at 1. rewrite id_of_tag by (done || lia).
  split; cbn [slab backing issued fetches requests replies answered]; try apply Hs.
  - intros t fr Hin. apply (iv_requests s Hs). rewrite Hr. rewrite elem_of_app in *. rewrite elem_of_cons. tauto.
  - intros t x [(j & ? & ? & ?)%(iv_replies s Hs)|[= -> ->]%list_elem_of_singleton]%elem_of_app.
    + exists j. rewrite elem_of_cons. auto.
    + exists id. rewrite elem_of_cons. auto.
  - intros j x [[= -> ->]|Hin]%elem_of_cons; [exists f; by rewrite Hfr|by apply (iv_answered s Hs)].
  - intros j g n Hj Hg. destruct (iv_filled s Hs j g n Hj Hg). rewrite elem_of_cons. auto.
  - intros j g d Hj Hg. destruct (iv_returned s Hs j g d Hj Hg) as (x & ? & ?). exists x. rewrite elem_of_cons. auto.
Qed.

(** ** Theorem *)
Lemma checkout_size sl sl' r : checkout sl = Some (sl', r) -> slot_size sl' = slot_size sl.
Proof using Type.
  clear. unfold checkout, acquire. destruct (0 <? permits sl); [|done]. unfold pop_slot.
  destruct (rev _); by intros [= <- _].
Qed.

(** Request numbers are not used twice. *)
Definition numbered (s : Sys) : Prop := 1 <= issued s /\ forall id f, fetches s !! id = Some f -> id < issued s.

Lemma step_numbered s s' : step s s' -> numbered s -> issued s' <= 2 ^ 48 -> numbered s' /\ (fits s' -> fits s).
Proof using Type.
  intros Hst [H1 Hn] Hmax. assert (Hset : forall id f st, fetches s !! id = Some f ->
    let fs := <[id := set_stage st f]> (fetches s) in
    (forall j g, fs !! j = Some g -> j < issued s) /\
    ((forall j g, fs !! j = Some g -> total g <= slot_size (slab s)) -> fits s)).
  { intros id f st Hf. split; [intros j g [[<- _]|[_ Hj]]%lookup_insert_Some; eauto|].
    intros H j g Hj. destruct (decide (id = j)) as [->|Hne].
    - assert (g = f) as -> by congruence. apply (H j (set_stage st f)). apply lookup_insert_eq.
    - apply (H j g). by rewrite lookup_insert_ne. }
  destruct Hst as [k n wait rid frame sl slot Hco Henc Hn0| | |r1 tag b r2 id f Hr Hf Hp Ht Hb
    |r1 tag b r2 id f e Hr Hf Hp Ht Hb|id f n Hf Hp|id f e Hf Hp];
    [|done|done|(edestruct (Hset id f) as [A B]; [exact Hf|]; split; [split; [exact H1|exact A]|exact B])..].
  unfold begin, numbered, fits in *. cbn [issued slab fetches] in *. rewrite wrap64_small, (checkout_size _ _ _ Hco) by u64_lia.
  split; [split; [lia|]|].
  - intros j g [[<- _]|[_ Hj%Hn]]%lookup_insert_Some; lia.
  - intros H j g Hj. apply (H j g). rewrite lookup_insert_ne; [done|]. intros <-. apply Hn in Hj. lia.
Qed.

Lemma fetch_step_inv s s' : inv s -> fits s -> issued s' <= 2 ^ 48 -> step s s' -> inv s'.
Proof using Type.
  intros Hs Hfit Hmax Hst.
  destruct Hst as [k n wait rid frame sl slot Hco Henc Hn|r1 tag frame r2 tag' b Hr Han|r1 m r2 Hr
    |r1 tag b r2 id f Hr Hf Hp Ht Hb|r1 tag b r2 id f e Hr Hf Hp Ht Hb|id f n Hf Hp|id f e Hf Hp].
  - eapply inv_begin_fetch; try done. cbn [begin issued] in Hmax. lia.
  - by eapply inv_fetch_answer.
  - split; cbn [slab backing issued fetches requests replies answered]; try apply Hs.
    intros t fr Hin. apply (iv_requests s Hs). rewrite Hr. rewrite elem_of_app in *. rewrite elem_of_cons. tauto.
  - by eapply inv_receive.
  - destruct (iv_ids s Hs id f Hf) as (_ & Hl & _). apply inv_return; try done.
    + unfold active. by rewrite Hp.
    + intros j n. apply (write_elsewhere s f _ j n Hfit id Hf); [|done]. unfold len. rewrite length_take. unfold total. lia.
    + intros m Hm. rewrite Hr. rewrite elem_of_app in *. rewrite elem_of_cons. tauto.
  - destruct s as [sl bk i fs rq rp an]. apply (inv_return (mkSys sl bk i fs rq rp an)); try done.
    + unfold active. by rewrite Hp.
    + intros d Hd. destruct (iv_filled _ Hs id f n Hf Hp) as [_ Hin]. eauto.
  - destruct s as [sl bk i fs rq rp an]. apply (inv_return (mkSys sl bk i fs rq rp an)); try done.
    unfold active. by rewrite Hp.
Qed.

Lemma step_issued s s' : step s s' -> issued s <= issued s'.
Proof using Type. intros Hst. destruct Hst; simpl; lia. Qed.

Lemma reachable_numbered s : reachable s -> issued s <= 2 ^ 48 -> numbered s.
Proof using Type.
  induction 1 as [s (n & size & _ & Hi & Hf & _)|s s' _ IH Hst]; intros Hmax.
  - split; [lia|]. intros id f. by rewrite Hf.
  - pose proof (step_issued s s' Hst). by apply (step_numbered s s' Hst); [apply IH; lia|].
Qed.

Lemma reachable_fetches s : reachable s -> issued s <= 2 ^ 48 -> fits s -> inv s.
Proof using Type.
  induction 1 as [s (n & size & Hnew & Hi & Hf & Hr & Hp & Ha)|s s' Hreach IH Hst]; intros Hmax Hfit.
  - split; rewrite ?Hi, ?Hf, ?Hr, ?Hp, ?Ha; try done.
    + unfold Slab.new in Hnew. case_match; [done|]. injection Hnew as <-. cbn [free].
      apply NoDup_ListNoDup, NoDup_rev, NoDup_ListNoDup, NoDup_seqZ.
    + intros tag fr Hin. by apply not_elem_of_nil in Hin.
    + intros tag b Hin. by apply not_elem_of_nil in Hin.
    + intros id b Hin. by apply not_elem_of_nil in Hin.
  - pose proof (step_issued s s' Hst) as Hle. destruct (step_numbered s s' Hst) as [_ Hback];
      [apply reachable_numbered; [done|lia]|done|].
    eapply fetch_step_inv; [apply IH; [lia|auto]|auto|done|done].
Qed.

(** C26.  Fetches that run at the same time do not cross: however the sends, receives, lost requests,
    late replies, truncated and failed receives and the reuse of slots interleave, a fetch that returns
    bytes returns the decoding of a frame that some peer's handler made for exactly this fetch's
    request - for its key, its length and its number - and the buffers of fetches that are under way
    do not overlap.  Up to 2^48 requests, for requests that fit the slots of the slab. *)
Theorem fetches_not_crossed s id f :
  reachable s -> issued s <= 2 ^ 48 -> fits s -> fetches s !! id = Some f ->
  (forall d, f_stage f = Returned (Ok d) ->
     exists wait rid frame b, Wire.encode_request (f_key f) (f_len f) requester wait rid = Ok frame /\
       answers frame (resp_tag id) (req_tag id) b /\ Wire.decode_response b (f_len f) = Ok d) /\
  (forall j g, fetches s !! j = Some g -> j <> id -> active f = true -> active g = true ->
     slot_start (f_slot f) (slab s) + total f <= slot_start (f_slot g) (slab s) \/
     slot_start (f_slot g) (slab s) + total g <= slot_start (f_slot f) (slab s)).
Proof using Type.
  intros Hr Hmax Hfit Hf. pose proof (reachable_fetches s Hr Hmax Hfit) as Hs. split.
  - intros d Hd. destruct (iv_returned s Hs id f d Hf Hd) as (b & Hin & Hdec).
    destruct (iv_answered s Hs id b Hin) as (g & Hg & Han). assert (g = f) as -> by congruence.
    destruct (iv_ids s Hs id f Hf) as (_ & _ & wait & rid & Henc). by exists wait, rid, (f_frame f), b.
  - intros j g Hj Hne Ha Hb. pose proof (Hfit id f Hf). pose proof (Hfit j g Hj).
    destruct (iv_ids s Hs id f Hf) as (_ & Hl & _). unfold slot_start.
    destruct (slots_apart (f_slot f) (f_slot g) (slot_size (slab s))); [|unfold total in *; lia..|].
    + intros Heq. by apply Hne, (iv_excl s Hs j id g f).
    + unfold total in *. lia.
Qed.
End exchange.

(** ** A fetch that a peer answers *)
Definition demo_key : ChunkKey := mkChunkKey "m" "b" 0.
Definition demo_frame : list byte :=
  match Wire.encode_request demo_key 1 "a" 5 "" with Ok f => f | Err _ => [] end.
Definition demo_reply : list byte := le_bytes 4 Wire.STATUS_OK ++ le_bytes 4 1 ++ [x2a].
Definition demo_fetch (st : Stage) : Fetch := mkFetch demo_key 1 0 demo_frame st.

Definition demo_start : Sys :=
  mkSys (mkRecvSlab 16 2 (rev (seqZ 0 2)) 2) (fun _ => x00) 1 ∅ [] [] [].
Definition demo_begun : Sys := begin demo_key 1 demo_frame (mkRecvSlab 16 2 [1] 1) 0 demo_start.
Definition demo_answered : Sys :=
  mkSys (slab demo_begun) (backing demo_begun) 2 (fetches demo_begun) [] [(resp_tag 1, demo_reply)] [(1, demo_reply)].
Definition demo_done : Sys :=
  finish 1 (demo_fetch (Filled 9)) 9 (receive 1 (demo_fetch Posted) demo_reply [] demo_answered).

(** The peer has nothing cached, and its provider fetches the chunk. *)
Lemma demo_answers :
  answers (fun l => l) (fun _ => "") demo_frame (resp_tag 1) (req_tag 1) demo_reply.
Proof.
  set (c := Cache.mkDiskCache 0 (Cache.mkInner ∅ ∅ 0 0) Cache.stats0 ∅).
  exists false, true, (Some (fun _ _ _ => Some [x2a])), c, c, "a", 1. vm_compute. reflexivity.
Qed.

Lemma demo_done_reachable : reachable (fun l => l) (fun _ => "") "a" demo_done.
Proof.
  apply (reach_step _ _ _ (receive 1 (demo_fetch Posted) demo_reply [] demo_answered));
    [apply (reach_step _ _ _ demo_answered); [apply (reach_step _ _ _ demo_begun); [apply (reach_step _ _ _ demo_start)|]|]|].
  - apply reach_start. exists 2, 16. by split_and!.
  - by apply (step_begin _ _ _ demo_start demo_key 1 5 "").
  - apply (step_answer _ _ _ demo_begun [] (req_tag 1) demo_frame [] (resp_tag 1) demo_reply); [done|exact demo_answers].
  - by apply (step_receive _ _ _ demo_answered [] (resp_tag 1) demo_reply [] 1 (demo_fetch Posted)).
  - by apply (step_finish _ _ _ (receive 1 (demo_fetch Posted) demo_reply [] demo_answered) 1 (demo_fetch (Filled 9)) 9).
Qed.

Lemma fetches_not_crossed_witness :
  exists wait rid frame b, Wire.encode_request demo_key 1 "a" wait rid = Ok frame /\
    answers (fun l => l) (fun _ => "") frame (resp_tag 1) (req_tag 1) b /\ Wire.decode_response b 1 = Ok [x2a].
Proof.
  destruct (fetches_not_crossed (fun l => l) (fun _ => "") "a" demo_done 1 (demo_fetch (Returned (Ok [x2a]))))
    as [H _]; [exact demo_done_reachable|vm_compute; discriminate| |vm_compute; reflexivity|exact (H [x2a] eq_refl)].
  intros id f Hf. vm_compute in Hf. destruct (decide (id = 1)) as [->|Hne].
  - vm_compute in Hf. injection Hf as <-. vm_compute. discriminate.
  - exfalso. change (({[1 := demo_fetch (Returned (Ok [x2a]))]} : gmap Z Fetch) !! id = Some f) in Hf.
    by rewrite lookup_singleton_ne in Hf.
Defined.
End Exchange.
