(* ===== verification/UcxRequest.v ===== *)
(** * The futures of UCX operations (src/src/transport_ucx.rs, [UcxRequest])

    A non-blocking UCX call finishes at once, fails at once, or hands out a request whose completion
    callback runs later, inside [ucp_worker_progress].  UCX keeps requests in a pool and hands them
    out again without clearing them, so the memory [mem] of a request survives its reuse.  [step]
    interleaves calls, callbacks, polls and drops; what it requires of UCX is the documented
    contract of the library: a request is handed out to one call at a time, it completes at most
    once, and it is not reused before [ucp_request_free]. *)

From S2P Require Import Prelude ChunkKeys.

Module Request.

(** ** Data *)
Inductive ucs_status : Type :=
| UCS_OK
| UCS_INPROGRESS
| UCS_ERR_BUSY
| UCS_ERR (code : Z).

#[export] Instance ucs_status_eq_dec : EqDecision ucs_status.
Proof. solve_decision. Defined.

(** A request handle, and the task a waker wakes. *)
Abbreviation Handle := nat.
Abbreviation Waker := nat.

(** [ucs_status_ptr_t]: null, an error, or a request. *)
Inductive StatusPtr : Type :=
| Null
| ErrPtr (st : ucs_status)
| ReqPtr (h : Handle).

Record RequestState := mkRequestState {
  done : bool;
  status : ucs_status;
  length : Z;
  waker : option Waker
}.

Record UcxRequest := mkUcxRequest {
  action : string;
  request : option Handle;
  inline : option (res Z)
}.

Inductive Poll : Type :=
| Ready (r : res Z)
| Pending.

Abbreviation Mem := (gmap Handle RequestState).

Section request.
(** [ucs_status_string] (null for a status it does not know) and the derived [Debug]. *)
Context (status_string : ucs_status -> option string) (debug : ucs_status -> string).

Definition ucx_status_name (st : ucs_status) : string :=
  match status_string st with None => debug st | Some s => s end.

Definition status_error (act : string) (st : ucs_status) : BcError :=
  Peer (act +:+ " failed: " +:+ ucx_status_name st).

Definition check_status (act : string) (st : ucs_status) : res unit :=
  if decide (st = UCS_OK) then Ok tt else Err (status_error act st).

(** ** Callbacks *)
Definition blank : RequestState := mkRequestState false UCS_INPROGRESS 0 None.

Definition request_init_cb (h : Handle) (m : Mem) : Mem := <[h := blank]> m.

(** The waker that is woken, if one is registered. *)
Definition complete_request (h : Handle) (st : ucs_status) (n : Z) (m : Mem) : Mem * option Waker :=
  match m !! h with
  | Some rs => (<[h := mkRequestState true st n None]> m, waker rs)
  | None => (m, None)
  end.

Definition send_cb (h : Handle) (st : ucs_status) (m : Mem) : Mem * option Waker := complete_request h st 0 m.

Definition recv_tag_cb (h : Handle) (st : ucs_status) (info : option Z) (m : Mem) : Mem * option Waker :=
  complete_request h st (default 0 info) m.

(** ** The future *)
Definition request_from_status_ptr (act : string) (p : StatusPtr) (inline_length : Z) (m : Mem)
    : Mem * UcxRequest :=
  match p with
  | Null => (m, mkUcxRequest act None (Some (Ok inline_length)))
  | ErrPtr st => (m, mkUcxRequest act None (Some (Err (status_error act st))))
  | ReqPtr h => (<[h := mkRequestState false UCS_INPROGRESS 0 None]> m, mkUcxRequest act (Some h) None)
  end.

(** The last component is the request given to [ucp_request_free]. *)
Definition poll (w : Waker) (u : UcxRequest) (m : Mem) : Mem * UcxRequest * Poll * option Handle :=
  match inline u with
  | Some r => (m, mkUcxRequest (action u) (request u) None, Ready r, None)
  | None =>
      match request u with
      | None => (m, u, Ready (Err (Peer (action u +:+ " polled after completion"))), None)
      | Some h =>
          match m !! h with
          | None => (m, u, Pending, None)
          | Some rs =>
              if done rs then
                (m, mkUcxRequest (action u) None None,
                 Ready (if decide (status rs = UCS_OK) then Ok (length rs)
                        else Err (status_error (action u) (status rs))), Some h)
              else (<[h := mkRequestState (done rs) (status rs) (length rs) (Some w)]> m, u, Pending, None)
          end
      end
  end.

Definition drop_request (u : UcxRequest) (m : Mem) : Mem :=
  match request u with
  | Some h => alter (fun rs => mkRequestState (done rs) (status rs) (length rs) None) h m
  | None => m
  end.

(** The wrappers: the call of UCX has returned [p] (with the immediate length [n] of a receive); the
    flag says whether the progress task is kicked. *)
Definition needs_progress (p : StatusPtr) : bool :=
  match p with ReqPtr _ => true | _ => false end.

Definition tag_send (p : StatusPtr) (m : Mem) : Mem * UcxRequest * bool :=
  (request_from_status_ptr "ucp_tag_send_nbx" p 0 m, needs_progress p).
Definition tag_recv (p : StatusPtr) (n : Z) (m : Mem) : Mem * UcxRequest * bool :=
  (request_from_status_ptr "ucp_tag_recv_nbx" p n m, needs_progress p).
Definition tag_msg_recv (p : StatusPtr) (n : Z) (m : Mem) : Mem * UcxRequest * bool :=
  (request_from_status_ptr "ucp_tag_msg_recv_nbx" p n m, needs_progress p).
Definition close_ep_with_flags (p : StatusPtr) (m : Mem) : Mem * UcxRequest * bool :=
  (request_from_status_ptr "ucp_ep_close_nbx" p 0 m, needs_progress p).

Inductive Call : Type :=
| Send
| Recv (n : Z)
| MsgRecv (n : Z)
| Close.

Definition issue (c : Call) (p : StatusPtr) (m : Mem) : Mem * UcxRequest * bool :=
  match c with
  | Send => tag_send p m
  | Recv n => tag_recv p n m
  | MsgRecv n => tag_msg_recv p n m
  | Close => close_ep_with_flags p m
  end.

Definition call_name (c : Call) : string :=
  match c with
  | Send => "ucp_tag_send_nbx"
  | Recv _ => "ucp_tag_recv_nbx"
  | MsgRecv _ => "ucp_tag_msg_recv_nbx"
  | Close => "ucp_ep_close_nbx"
  end.

Definition call_length (c : Call) : Z :=
  match c with Recv n | MsgRecv n => n | _ => 0 end.

(** ** Interleaving *)

(** An operation: its call, what UCX reported through the callback, its future while it lives, the
    waker of its last pending poll with the number of wakes before it, and its result. *)
Record Op := mkOp {
  op_call : Call;
  op_ptr : StatusPtr;
  op_report : option (ucs_status * Z);
  op_future : option UcxRequest;
  op_parked : option (Waker * nat);
  op_result : option (res Z)
}.

(** [inuse]: the requests UCX has not got back, with the operation each serves; [log]: all wakes. *)
Record Sys := mkSys {
  mem : Mem;
  inuse : gmap Handle nat;
  ops : gmap nat Op;
  log : list Waker
}.

Definition start : Sys := mkSys ∅ ∅ ∅ [].

Definition with_report (r : ucs_status * Z) (o : Op) : Op :=
  mkOp (op_call o) (op_ptr o) (Some r) (op_future o) (op_parked o) (op_result o).

(** A request from the pool: initialised when it is new, as its last use left it otherwise. *)
Definition from_pool (p : StatusPtr) (m : Mem) : Mem :=
  match p with
  | ReqPtr h => match m !! h with None => request_init_cb h m | Some _ => m end
  | _ => m
  end.

Definition available (p : StatusPtr) (s : Sys) : Prop :=
  match p with ReqPtr h => inuse s !! h = None | _ => True end.

Definition take_handle (i : nat) (p : StatusPtr) (u : gmap Handle nat) : gmap Handle nat :=
  match p with ReqPtr h => <[h := i]> u | _ => u end.

Definition post (i : nat) (c : Call) (p : StatusPtr) (s : Sys) : Sys :=
  let '(m, u, _) := issue c p (from_pool p (mem s)) in
  mkSys m (take_handle i p (inuse s)) (<[i := mkOp c p None (Some u) None None]> (ops s)) (log s).

(** A callback has run with this report. *)
Definition deliver (i : nat) (o : Op) (r : ucs_status * Z) (mw : Mem * option Waker) (s : Sys) : Sys :=
  mkSys mw.1 (inuse s) (<[i := with_report r o]> (ops s)) (log s ++ option_list mw.2).

Definition poll_op (i : nat) (o : Op) (u : UcxRequest) (w : Waker) (s : Sys) : Sys :=
  match poll w u (mem s) with
  | (m, u', Pending, _) =>
      mkSys m (inuse s)
        (<[i := mkOp (op_call o) (op_ptr o) (op_report o) (Some u')
                  (Some (w, List.length (log s))) None]> (ops s)) (log s)
  | (m, u', Ready r, freed) =>
      mkSys m (match freed with Some h => delete h (inuse s) | None => inuse s end)
        (<[i := mkOp (op_call o) (op_ptr o) (op_report o) (Some u')
                  (op_parked o) (Some r)]> (ops s)) (log s)
  end.

Definition drop_op (i : nat) (o : Op) (u : UcxRequest) (s : Sys) : Sys :=
  mkSys (drop_request u (mem s)) (inuse s)
    (<[i := mkOp (op_call o) (op_ptr o) (op_report o) None (op_parked o) (op_result o)]> (ops s))
    (log s).

Inductive step (s : Sys) : Sys -> Prop :=
| step_post i c p : ops s !! i = None -> available p s -> step s (post i c p s)
| step_send_cb h i o st :
    inuse s !! h = Some i -> ops s !! i = Some o -> op_report o = None ->
    step s (deliver i o (st, 0) (send_cb h st (mem s)) s)
| step_recv_cb h i o st info :
    inuse s !! h = Some i -> ops s !! i = Some o -> op_report o = None ->
    step s (deliver i o (st, default 0 info) (recv_tag_cb h st info (mem s)) s)
| step_poll i o u w :
    ops s !! i = Some o -> op_future o = Some u -> op_result o = None -> step s (poll_op i o u w s)
| step_drop i o u :
    ops s !! i = Some o -> op_future o = Some u -> step s (drop_op i o u s).

Inductive reachable : Sys -> Prop :=
| reach_start : reachable start
| reach_step s s' : reachable s -> step s s' -> reachable s'.

(** ** Lemmas *)

(** What an operation has come to, according to UCX. *)
Definition verdict (c : Call) (r : ucs_status * Z) : res Z :=
  if decide (r.1 = UCS_OK) then Ok r.2 else Err (status_error (call_name c) r.1).

Definition outcome (o : Op) : option (res Z) :=
  match op_ptr o with
  | Null => Some (Ok (call_length (op_call o)))
  | ErrPtr st => Some (Err (status_error (call_name (op_call o)) st))
  | ReqPtr _ => verdict (op_call o) <$> op_report o
  end.

(** The memory of the request behind an operation that has no result yet. *)
Definition state_ok (l : list Waker) (o : Op) (rs : RequestState) : Prop :=
  match op_report o with
  | None => done rs = false /\ waker rs = (_ ← op_future o; fst <$> op_parked o)
  | Some (st, n) =>
      done rs = true /\ status rs = st /\ length rs = n /\
      (forall w k, op_future o <> None -> op_parked o = Some (w, k) -> w ∈ drop k l)
  end.

Definition future_of (o : Op) : UcxRequest :=
  match op_ptr o with
  | ReqPtr h => mkUcxRequest (call_name (op_call o)) (Some h) None
  | _ => mkUcxRequest (call_name (op_call o)) None (outcome o)
  end.

Record op_ok (m : Mem) (l : list Waker) (o : Op) : Prop := {
  ok_result r : op_result o = Some r -> outcome o = Some r;
  ok_parked w k : op_parked o = Some (w, k) -> (k <= List.length l)%nat;
  ok_future u : op_result o = None -> op_future o = Some u -> u = future_of o;
  ok_state h : op_result o = None -> op_ptr o = ReqPtr h -> exists rs, m !! h = Some rs /\ state_ok l o rs;
  ok_spent r u : op_result o = Some r -> op_future o = Some u -> request u = None;
  ok_inline : (forall h, op_ptr o <> ReqPtr h) -> op_parked o = None
}.

Definition owns (o : Op) (h : Handle) : Prop := op_ptr o = ReqPtr h /\ op_result o = None.

Record inv (s : Sys) : Prop := {
  i_owner h i : inuse s !! h = Some i <-> exists o, ops s !! i = Some o /\ owns o h;
  i_op i o : ops s !! i = Some o -> op_ok (mem s) (log s) o
}.

Lemma op_ok_frame m m' l l' o :
  op_ok m l o -> (forall h, owns o h -> m' !! h = m !! h) -> op_ok m' (l ++ l') o.
Proof.
  intros [Hr Hp Hf Hs Hu Hi] Hm. split; [done| |done| |done|done].
  - intros w k Hk. rewrite length_app. specialize (Hp w k Hk). lia.
  - intros h H1 H2. destruct (Hs h H1 H2) as (rs & Hrs & Hok). exists rs. rewrite Hm by done. split; [done|].
    unfold state_ok in *. destruct (op_report o) as [[st n]|]; [|done].
    destruct Hok as (? & ? & ? & Hw). split_and!; [done..|]. intros w k Hf' Hk.
    rewrite drop_app_le by by eapply Hp. apply elem_of_app. left. by eapply Hw.
Qed.

(** One operation changes, with the memory of its own request at most. *)
Lemma inv_update s i o' m' u' l' :
  inv s -> op_ok m' (log s ++ l') o' ->
  (forall h j, inuse s !! h = Some j -> j <> i -> m' !! h = mem s !! h) ->
  (forall h j, u' !! h = Some j <-> exists o, <[i := o']> (ops s) !! j = Some o /\ owns o h) ->
  inv (mkSys m' u' (<[i := o']> (ops s)) (log s ++ l')).
Proof.
  intros [Ho Hop] Hok Hm Hu. split; simpl; [done|]. intros j o. rewrite lookup_insert. case_decide as Hij.
  - by intros [= <-].
  - intros Hj. apply (op_ok_frame (mem s)); [by eapply Hop|]. intros h Hh.
    apply (Hm h j); [|done]. apply Ho. eauto.
Qed.

(** Who owns a request, when the operation keeps it. *)
Lemma owner_same s i o o' :
  inv s -> ops s !! i = Some o -> (forall h, owns o' h <-> owns o h) ->
  forall h j, inuse s !! h = Some j <-> exists x, <[i := o']> (ops s) !! j = Some x /\ owns x h.
Proof.
  intros [Ho _] Hi Hsame h j. rewrite Ho, lookup_insert. case_decide as Hij; [|done]. subst j. split.
  - intros (x & Hx & Hh). assert (x = o) as -> by congruence. exists o'. split; [done|by apply Hsame].
  - intros (x & [= <-] & Hh). exists o. split; [done|by apply Hsame].
Qed.

Lemma issue_spec c p m :
  issue c p m = (request_from_status_ptr (call_name c) p (call_length c) m, needs_progress p).
Proof. by destruct c. Qed.

(** Who owns a request, when a new operation gets one. *)
Lemma owner_new s i o' p :
  inv s -> ops s !! i = None -> available p s -> op_ptr o' = p -> op_result o' = None ->
  forall h j, take_handle i p (inuse s) !! h = Some j
              <-> exists x, <[i := o']> (ops s) !! j = Some x /\ owns x h.
Proof.
  intros [Ho _] Hi Ha Hp Hr h j. rewrite lookup_insert.
  assert (Hno : forall h, inuse s !! h <> Some i).
  { intros h' (o & Hj & _)%Ho. congruence. }
  assert (Hnew : owns o' h <-> p = ReqPtr h) by (unfold owns; rewrite Hp; naive_solver).
  case_decide as Hij; [subst j|].
  - transitivity (p = ReqPtr h); [|rewrite <- Hnew; naive_solver].
    destruct p as [|st|h0]; cbn [take_handle]; [split; [by intros ?%Hno|done]..|].
    rewrite lookup_insert. case_decide; [naive_solver|]. split; [by intros ?%Hno|congruence].
  - destruct p as [|st|h0]; cbn [take_handle available] in *; [apply Ho..|]. rewrite lookup_insert.
    case_decide as Hh; [subst h0|apply Ho]. split; [congruence|]. intros Hx%Ho. congruence.
Qed.

(** Who owns a request, when its operation resolves. *)
Lemma owner_gone s i o o' h0 :
  inv s -> ops s !! i = Some o -> owns o h0 -> op_result o' <> None ->
  forall h j, delete h0 (inuse s) !! h = Some j
              <-> exists x, <[i := o']> (ops s) !! j = Some x /\ owns x h.
Proof.
  intros [Ho _] Hi Hh Hr h j. assert (H0 : inuse s !! h0 = Some i) by (apply Ho; eauto).
  rewrite lookup_delete_Some, Ho, lookup_insert. case_decide as Hij; [subst j|].
  - split; [|intros (x & [= <-] & [_ ?]); done]. intros (Hne & x & Hx & [Hp _]).
    assert (x = o) as -> by congruence. destruct Hh. congruence.
  - split; [naive_solver|]. intros (x & Hx & Hxh). split; [|eauto]. intros <-.
    assert (inuse s !! h0 = Some j) by (apply Ho; eauto). congruence.
Qed.

Lemma inv_post s i c p : inv s -> ops s !! i = None -> available p s -> inv (post i c p s).
Proof.
  intros Hs Hi Ha. unfold post. rewrite issue_spec.
  set (m0 := from_pool p (mem s)). destruct (request_from_status_ptr _ p _ m0) as [m u] eqn:Eu.
  rewrite <- (app_nil_r (log s)). apply inv_update; [done| | |by apply owner_new].
  - unfold request_from_status_ptr in Eu. destruct p as [|st|h]; injection Eu as <- <-; split; simpl; try done.
    1-3: by intros ? _ [= <-].
    intros h' _ [= <-]. rewrite lookup_insert_eq. eexists. split; [done|]. by split.
  - intros h j Hj Hne. destruct p as [|st|h0]; cbn [available] in Ha; injection Eu as <- <-; [done..|].
    unfold m0. cbn [from_pool]. assert (h0 <> h) by congruence.
    destruct (mem s !! h0); unfold request_init_cb; by rewrite !lookup_insert_ne.
Qed.

Lemma inv_deliver s h i o st n :
  inv s -> inuse s !! h = Some i -> ops s !! i = Some o -> op_report o = None ->
  inv (deliver i o (st, n) (complete_request h st n (mem s)) s).
Proof.
  intros Hs Hh Hi Hr. destruct (proj1 (i_owner s Hs h i) Hh) as (x & Hx & [Hp Hres]).
  assert (x = o) as -> by congruence. clear Hx. pose proof (i_op s Hs i o Hi) as Hok.
  destruct (ok_state _ _ _ Hok h Hres Hp) as (rs & Hrs & Hst). unfold state_ok in Hst. rewrite Hr in Hst.
  destruct Hst as [Hd Hw]. unfold deliver, complete_request. rewrite Hrs. cbn [fst snd].
  apply inv_update; [done| | |by eapply owner_same].
  - split; simpl; try congruence.
    + intros w k Hk. rewrite length_app. pose proof (ok_parked _ _ _ Hok w k Hk). lia.
    + intros u Hru Hu. rewrite (ok_future _ _ _ Hok u Hru Hu). unfold future_of. simpl. by rewrite Hp.
    + intros h' _ Hp'. assert (h' = h) as -> by congruence. rewrite lookup_insert_eq. eexists. split; [done|].
      split_and!; [done..|]. intros w k Hf Hk. simpl in Hf, Hk. rewrite drop_app_le by by eapply ok_parked.
      apply elem_of_app. right. destruct (op_future o); [|done]. rewrite Hw, Hk. by left.
  - intros h' j Hj Hne. rewrite lookup_insert_ne; [done|]. congruence.
Qed.

(** What a poll of a live future without a result does. *)
Lemma poll_live m l o u w :
  op_ok m l o -> op_result o = None -> op_future o = Some u ->
  match outcome o with
  | Some r => exists u' m' fr, poll w u m = (m', u', Ready r, fr) /\ m' = m /\ request u' = None /\
                (forall h, op_ptr o = ReqPtr h -> fr = Some h) /\
                ((forall h, op_ptr o <> ReqPtr h) -> fr = None)
  | None => exists h rs, op_ptr o = ReqPtr h /\ op_report o = None /\ m !! h = Some rs /\ done rs = false /\
              poll w u m = (<[h := mkRequestState false (status rs) (length rs) (Some w)]> m, u, Pending, None)
  end.
Proof.
  intros Hok Hr Hf. rewrite (ok_future _ _ _ Hok u Hr Hf). unfold future_of, outcome, poll.
  destruct (op_ptr o) as [|st|h] eqn:Hp; cbn [inline request action];
    [repeat eexists; naive_solver..|].
  destruct (ok_state _ _ _ Hok h Hr Hp) as (rs & Hrs & Hst). rewrite Hrs. unfold state_ok in Hst.
  destruct (op_report o) as [[st n]|]; cbn [fmap option_fmap option_map].
  - destruct Hst as (-> & -> & -> & _). unfold verdict. cbn [fst snd]. repeat eexists; naive_solver.
  - destruct Hst as (Hd & _). rewrite Hd. exists h, rs. done.
Qed.

Lemma inv_poll s i o u w :
  inv s -> ops s !! i = Some o -> op_future o = Some u -> op_result o = None -> inv (poll_op i o u w s).
Proof.
  intros Hs Hi Hf Hr. pose proof (i_op s Hs i o Hi) as Hok. unfold poll_op.
  pose proof (poll_live _ _ _ _ w Hok Hr Hf) as Hp. destruct (outcome o) as [r|] eqn:Eo.
  - destruct Hp as (u' & m' & fr & -> & -> & Hsp & Hfr & Hfn). rewrite <- (app_nil_r (log s)).
    apply inv_update; [done| |done|].
    + rewrite app_nil_r. split; simpl; [|by apply Hok|done|done| |by apply Hok].
      * by intros ? [= <-].
      * by intros ? ? [= <-] [= <-].
    + destruct (op_ptr o) as [|st|h] eqn:Ep.
      1-2: rewrite Hfn by done; eapply owner_same; [done..|]; intros h; unfold owns; simpl; rewrite Ep; split; by intros [? ?].
      rewrite (Hfr h) by done. by eapply owner_gone.
  - destruct Hp as (h & rs & Hp & Hrep & Hrs & Hd & ->). rewrite <- (app_nil_r (log s)).
    assert (Hown : inuse s !! h = Some i) by (apply (i_owner s Hs); exists o; done).
    apply inv_update; [done| | |eapply owner_same; [done..|]; intros h'; unfold owns; simpl; rewrite Hr; tauto].
    + rewrite app_nil_r. split; simpl; [done|by intros ? ? [= <- <-]| | |done|].
      * intros v _ [= <-]. rewrite (ok_future _ _ _ Hok u Hr Hf). unfold future_of. simpl. by rewrite Hp.
      * intros h' _ Hp'. assert (h' = h) as -> by congruence. rewrite lookup_insert_eq. eexists. split; [done|].
        unfold state_ok. simpl. by rewrite Hrep.
      * intros Hno. by destruct (Hno h).
    + intros h' j Hj Hne. rewrite lookup_insert_ne; [done|]. congruence.
Qed.

Lemma inv_drop s i o u :
  inv s -> ops s !! i = Some o -> op_future o = Some u -> inv (drop_op i o u s).
Proof.
  intros Hs Hi Hf. pose proof (i_op s Hs i o Hi) as Hok. unfold drop_op. rewrite <- (app_nil_r (log s)).
  apply inv_update; [done| | |by eapply owner_same].
  - rewrite app_nil_r. split; simpl; try (by apply Hok); [done| |done].
    intros h Hr Hp. destruct (ok_state _ _ _ Hok h Hr Hp) as (rs & Hrs & Hst).
    rewrite (ok_future _ _ _ Hok u Hr Hf). unfold future_of. rewrite Hp. cbn [drop_request request].
    rewrite lookup_alter_eq, Hrs. eexists. split; [done|]. unfold state_ok in *. simpl.
    destruct (op_report o) as [[st n]|]; naive_solver.
  - intros h j Hj Hne. unfold drop_request. destruct (request u) as [h0|] eqn:Eu; [|done].
    destruct (decide (h0 = h)) as [->|]; [|by rewrite lookup_alter_ne].
    destruct (op_result o) as [r|] eqn:Er.
    + rewrite (ok_spent _ _ _ Hok r u Er Hf) in Eu. done.
    + assert (inuse s !! h = Some i); [|congruence]. apply (i_owner s Hs). exists o. split; [done|].
      assert (u = future_of o) as -> by by apply (ok_future _ _ _ Hok). unfold future_of in Eu.
      split; [|done]. destruct (op_ptr o); simpl in Eu; congruence.
Qed.

Lemma reachable_inv s : reachable s -> inv s.
Proof.
  induction 1 as [|s s' _ IH Hst].
  - split; simpl; [|done]. intros h i. split; [done|]. by intros (o & Ho & _).
  - destruct Hst; [by apply inv_post|by apply inv_deliver..|by apply inv_poll|by apply inv_drop].
Qed.

(** ** Theorem *)

(** C21.  The future of a UCX operation tells what became of that operation: whatever requests were
    recycled, cancelled or completed around it, a result it has returned is the one UCX reported for
    it, immediately or through its callback; a live future that is polled before that is pending and
    afterwards is ready with it; when UCX has reported and the future has not been polled since, the
    waker of its last poll has been woken; and the request is in use by this operation exactly until
    the future has returned its result - so never shared, and never returned to UCX when the future is
    dropped first. *)
Theorem requests_exact s i o :
  reachable s -> ops s !! i = Some o ->
  (forall r, op_result o = Some r -> outcome o = Some r) /\
  (forall u w, op_result o = None -> op_future o = Some u ->
     (poll w u (mem s)).1.2 = match outcome o with Some r => Ready r | None => Pending end) /\
  (forall u w k, op_result o = None -> op_future o = Some u -> op_parked o = Some (w, k) ->
     outcome o <> None -> w ∈ drop k (log s)) /\
  (forall h, inuse s !! h = Some i <-> op_ptr o = ReqPtr h /\ op_result o = None).
Proof.
  intros Hs%reachable_inv Hi. pose proof (i_op s Hs i o Hi) as Hok. split_and!.
  - apply Hok.
  - intros u w Hr Hf. pose proof (poll_live _ _ _ _ w Hok Hr Hf) as Hp. destruct (outcome o).
    + by destruct Hp as (? & ? & ? & -> & _).
    + by destruct Hp as (? & ? & _ & _ & _ & _ & ->).
  - intros u w k Hr Hf Hk Ho. unfold outcome in Ho. destruct (op_ptr o) as [|st|h] eqn:Ep.
    1-2: by rewrite (ok_inline _ _ _ Hok) in Hk by congruence.
    destruct (ok_state _ _ _ Hok h Hr Ep) as (rs & _ & Hst). unfold state_ok in Hst.
    destruct (op_report o) as [[st n]|]; [|done]. destruct Hst as (_ & _ & _ & Hw).
    apply (Hw w k); [by rewrite Hf|done].
  - intros h. rewrite (i_owner s Hs). unfold owns. split; [|eauto].
    intros (x & Hx & ?). by assert (x = o) as -> by congruence.
Qed.
End request.

(** Operation 0 receives 12 bytes on request 7, which goes back to the pool with [done] set; then
    operation 1 gets request 7 and is polled by task 5. *)
Definition demo_name (st : ucs_status) : option string := None.
Definition demo_debug (st : ucs_status) : string := "UCS_ERR".

Definition demo_received : Sys :=
  let s := post demo_name demo_debug 0 (Recv 0) (ReqPtr 7) start in
  let o := mkOp (Recv 0) (ReqPtr 7) None (Some (mkUcxRequest "ucp_tag_recv_nbx" (Some 7%nat) None)) None None in
  let s := deliver 0 o (UCS_OK, 12) (recv_tag_cb 7 UCS_OK (Some 12) (mem s)) s in
  poll_op demo_name demo_debug 0 (with_report (UCS_OK, 12) o)
    (mkUcxRequest "ucp_tag_recv_nbx" (Some 7%nat) None) 4 s.

Definition demo_reused : Sys := post demo_name demo_debug 1 (Recv 0) (ReqPtr 7) demo_received.

Lemma demo_reused_reachable : reachable demo_name demo_debug demo_reused.
Proof.
  eapply reach_step; [eapply reach_step; [eapply reach_step; [eapply reach_step; [apply reach_start|]|]|]|].
  - by apply (step_post _ _ _ 0 (Recv 0) (ReqPtr 7)).
  - eapply (step_recv_cb _ _ _ 7 0 _ UCS_OK (Some 12)); reflexivity.
  - eapply (step_poll _ _ _ 0 _ _ 4); reflexivity.
  - apply (step_post _ _ _ 1 (Recv 0) (ReqPtr 7)); reflexivity.
Qed.

Lemma requests_exact_witness :
  done <$> (mem demo_received !! 7%nat) = Some true /\
  (poll demo_name demo_debug 5 (mkUcxRequest "ucp_tag_recv_nbx" (Some 7%nat) None) (mem demo_reused)).1.2 = Pending.
Proof.
  split; [vm_compute; reflexivity|].
  destruct (requests_exact demo_name demo_debug demo_reused 1
    (mkOp (Recv 0) (ReqPtr 7) None (Some (mkUcxRequest "ucp_tag_recv_nbx" (Some 7%nat) None)) None None))
    as (_ & H & _).
  - exact demo_reused_reachable.
  - vm_compute. reflexivity.
  - rewrite H by reflexivity. reflexivity.
Defined.
End Request.
