(* ===== verification/UcxLoop.v ===== *)
(** * The thread of the UCX runtime (src/src/transport_ucx.rs: [start], [run_runtime], [UcxRuntime])

    The start of the runtime and what each failing step gives back ([Boot]), and the loop that turns
    the commands of the clients into answers ([Runtime]).  What UCX and the operating system return
    is the record [Ffi]; the tasks of the loop are interleaved by [Runtime.step] at their awaits, on
    top of the endpoint table of UcxRuntime. *)

From S2P Require Import Prelude ChunkKeys DiskCache Wire UcxRuntime UcxRequest.

(** ** Starting and stopping *)
Module Boot.
Import Request.

Inductive Resource : Type :=
| Config
| Context_
| Worker
| Memory
| Address.

#[export] Instance Resource_eq_dec : EqDecision Resource.
Proof. solve_decision. Defined.

(** The calls that create and give back a resource. *)
Inductive Event : Type :=
| Acq (r : Resource)
| Rel (r : Resource).

(** What lives inside what: a worker and a registration in their context, an address in its worker. *)
Definition parents (r : Resource) : list Resource :=
  match r with
  | Worker | Memory => [Context_]
  | Address => [Worker]
  | _ => []
  end.

Definition free_of (r : Resource) (held : list Resource) : bool :=
  forallb (fun x => negb (bool_decide (r ∈ parents x))) held.

(** A resource is created once its parents are there, and given back while they are, after all that
    live in it. *)
Fixpoint run (tr : list Event) (held : list Resource) : option (list Resource) :=
  match tr with
  | [] => Some held
  | Acq r :: tr =>
      if negb (bool_decide (r ∈ held)) && forallb (fun p => bool_decide (p ∈ held)) (parents r)
      then run tr (r :: held) else None
  | Rel r :: tr =>
      if bool_decide (r ∈ held) && free_of r held then run tr (filter (fun x => x <> r) held) else None
  end.

(** What the calls return: the spawn of the thread, the runtime of the thread, UCX, and whether
    [start] still listens when the thread reports that it is up. *)
Record Ffi := mkFfi {
  f_thread : result string unit;
  f_runtime : result string unit;
  f_config_read : ucs_status;
  f_init_version : ucs_status;
  f_worker_create : ucs_status;
  f_get_efd : ucs_status;
  f_async_fd : result string unit;
  f_mem_map : ucs_status;
  f_get_address : ucs_status;
  f_listening : bool
}.

Section boot.
Context (status_string : ucs_status -> option string) (debug : ucs_status -> string) (F : Ffi).
#[local] Abbreviation check := (check_status status_string debug).

(** [UcxRuntime::new]: the calls it makes, and its result. *)
Definition ucx_new : list Event * res unit :=
  match check "ucp_config_read" (f_config_read F) with
  | Err e => ([], Err e)
  | Ok _ =>
      match check "ucp_init_version" (f_init_version F) with
      | Err e => ([Acq Config; Rel Config], Err e)
      | Ok _ =>
          let tr := [Acq Config; Acq Context_; Rel Config] in
          match check "ucp_worker_create" (f_worker_create F) with
          | Err e => (tr ++ [Rel Context_], Err e)
          | Ok _ =>
              match check "ucp_worker_get_efd" (f_get_efd F) with
              | Err e => (tr ++ [Acq Worker; Rel Worker; Rel Context_], Err e)
              | Ok _ =>
                  match f_async_fd F with
                  | Err e => (tr ++ [Acq Worker; Rel Worker; Rel Context_],
                              Err (Peer ("AsyncFd ucx worker efd: " +:+ e)))
                  | Ok _ => (tr ++ [Acq Worker], Ok tt)
                  end
              end
          end
      end
  end.

(** [Drop for UcxRuntime] and for [RecvSlab]. *)
Definition drop_ucx : list Event := [Rel Worker; Rel Context_].
Definition drop_slab : list Event := [Rel Memory].

(** [RecvSlab::new]; the advice may fail. *)
Definition slab_new (n size : Z) : list Event * res Slab.RecvSlab :=
  match Slab.new n size with
  | Err e => ([], Err e)
  | Ok sl =>
      match check "ucp_mem_map" (f_mem_map F) with
      | Err e => ([], Err e)
      | Ok _ => ([Acq Memory], Ok sl)
      end
  end.

(** [run_runtime] up to its loop: the calls it makes, what arrives at [start] (an error as its text,
    [None] when [start] no longer listens), and its result, which on success is the state the loop
    starts with.  The locals are dropped on the early returns, the slab before the worker. *)
Definition boot (n size : Z) (me : string) (blob : list byte)
    : list Event * option (res (list byte)) * res (Slab.RecvSlab * Endpoints.RuntimeState) :=
  let sent (r : res (list byte)) := if f_listening F then Some r else None in
  match ucx_new with
  | (tr, Err e) => (tr, sent (Err (Peer (display e))), Err e)
  | (tr, Ok _) =>
      match slab_new n size with
      | (tr', Err e) => (tr ++ tr' ++ drop_ucx, sent (Err (Peer (display e))), Err e)
      | (tr', Ok sl) =>
          match check "ucp_worker_get_address" (f_get_address F) with
          | Err e => (tr ++ tr' ++ drop_slab ++ drop_ucx, sent (Err (Peer (display e))), Err e)
          | Ok _ =>
              let tr := tr ++ tr' ++ [Acq Address] in
              if f_listening F then (tr, sent (Ok blob), Ok (sl, Endpoints.new me))
              else (tr ++ [Rel Address] ++ drop_slab ++ drop_ucx, None,
                    Err (Peer "ucx runtime startup receiver dropped"))
          end
      end
  end.

(** [RdmaPeerService::start]: its result, and the state of the thread if that enters its loop. *)
Definition start (n size : Z) (me : string) (blob : list byte)
    : list Event * res (list byte) * option (Slab.RecvSlab * Endpoints.RuntimeState) :=
  match f_thread F with
  | Err e => ([], Err (Peer ("ucx-runtime thread: " +:+ e)), None)
  | Ok _ =>
      match f_runtime F with
      | Err e => ([], Err (Peer ("rt: " +:+ e)), None)
      | Ok _ =>
          let '(tr, sent, r) := boot n size me blob in
          (tr, default (Err (Peer "ucx runtime startup channel closed")) sent, ok r)
      end
  end.

(** The end of [run_runtime]: the address, the locals, and, when the thread drops its tasks, the
    registration if one of them still shares the state. *)
Definition shutdown (tasks : bool) : list Event :=
  [Rel Address] ++ (if tasks then drop_ucx ++ drop_slab else drop_slab ++ drop_ucx).

(** ** Theorem *)

(** The calls of a start, in their order, with the error [start] reports when one fails. *)
Definition reported (r : res unit) : res unit := map_err (fun e => Peer (display e)) r.

Definition startup_calls (n size : Z) : list (res unit) :=
  [map_err (fun e => Peer ("ucx-runtime thread: " +:+ e)) (f_thread F);
   map_err (fun e => Peer ("rt: " +:+ e)) (f_runtime F);
   reported (check "ucp_config_read" (f_config_read F));
   reported (check "ucp_init_version" (f_init_version F));
   reported (check "ucp_worker_create" (f_worker_create F));
   reported (check "ucp_worker_get_efd" (f_get_efd F));
   map_err (fun e => Peer (display (Peer ("AsyncFd ucx worker efd: " +:+ e)))) (f_async_fd F);
   reported (if n * size <=? u64_max then Ok tt else Err (Peer "RecvSlab size overflow"));
   reported (check "ucp_mem_map" (f_mem_map F));
   reported (check "ucp_worker_get_address" (f_get_address F))].

Fixpoint first_error (l : list (res unit)) : option BcError :=
  match l with
  | [] => None
  | Err e :: _ => Some e
  | Ok _ :: l => first_error l
  end.

Definition all_succeed (n size : Z) : Prop :=
  f_thread F = Ok tt /\ f_runtime F = Ok tt /\
  Forall (eq UCS_OK) [f_config_read F; f_init_version F; f_worker_create F; f_get_efd F; f_mem_map F;
                      f_get_address F] /\
  f_async_fd F = Ok tt /\ n * size <= u64_max.

Lemma first_error_cons r l : first_error (r :: l) = None <-> r = Ok tt /\ first_error l = None.
Proof. destruct r as [[]|]; simpl; [tauto|]. split; [done|]. by intros [? _]. Qed.

Lemma map_err_ok {E} (f : E -> BcError) (r : result E unit) :
  (map_err f r : res unit) = Ok tt <-> r = Ok tt.
Proof. destruct r; simpl; split; congruence. Qed.

Lemma check_ok a st : check a st = Ok tt <-> UCS_OK = st.
Proof. unfold check_status. case_decide; subst; split; congruence. Qed.

Lemma first_error_none n size : first_error (startup_calls n size) = None <-> all_succeed n size.
Proof.
  unfold startup_calls, reported, all_succeed.
  rewrite !first_error_cons, !map_err_ok, !check_ok, !Forall_cons, Forall_nil. simpl.
  assert ((if n * size <=? u64_max then Ok tt else Err (Peer "RecvSlab size overflow")) = Ok tt
    <-> n * size <= u64_max) as ->; [|tauto].
  destruct (Z.leb_spec (n * size) u64_max); split; try done; lia.
Qed.

(** Evaluates a start whose calls are decided. *)
#[local] Ltac start_failed :=
  cbn -[display]; intros Hnone; destruct (f_listening F); cbn -[display]; split_and!;
  try done; intuition congruence.

(** The slab of the loop is the one [start] was asked for. *)
Lemma start_slab n size me blob tr r sl st :
  start n size me blob = (tr, r, Some (sl, st)) -> Slab.new n size = Ok sl.
Proof.
  unfold start, boot, slab_new. destruct (f_thread F), (f_runtime F); try done.
  destruct ucx_new as [tr' [u|e]]; [|done]. destruct (Slab.new n size) as [x|]; [|done].
  destruct (check "ucp_mem_map" _); [|done]. destruct (check "ucp_worker_get_address" _); [|done].
  destruct (f_listening F); [|done]. by intros [= _ _ -> _].
Qed.

(** C23.  Starting and stopping the runtime gives back what it took.  With [start] listening, it
    succeeds exactly when every call does - the thread, its runtime, each UCX call, the size of the
    slab - and otherwise reports the error of the first that failed; when it fails, or nobody listens
    any more, no loop runs, nothing is held afterwards, and every resource was given back after those
    that live in it.  A start that succeeds holds the context, the worker, the registered memory and
    the worker's address, and stopping gives them back in order when no task is left - and only then:
    the state a leftover task shares is dropped after the context, so its memory is unregistered too
    late. *)
Theorem resources_balanced n size me blob :
  let '(tr, r, loop) := start n size me blob in
  (r = Ok blob <-> all_succeed n size /\ f_listening F = true) /\
  (f_listening F = true -> forall e, r = Err e <-> first_error (startup_calls n size) = Some e) /\
  match loop with
  | None => is_ok r = false /\ run tr [] = Some []
  | Some st => r = Ok blob /\ Slab.new n size = Ok st.1 /\ st.2 = Endpoints.new me /\
               run tr [] = Some [Address; Memory; Worker; Context_] /\
               run (tr ++ shutdown false) [] = Some [] /\ run (tr ++ shutdown true) [] = None
  end.
Proof.
  unfold start, boot, ucx_new, slab_new, Slab.new.
  pose proof (first_error_none n size) as Hnone. revert Hnone. unfold startup_calls.
  rewrite (Z.leb_antisym u64_max (n * size)).
  destruct (f_thread F) as [[]|]; [|by start_failed].
  destruct (f_runtime F) as [[]|]; [|by start_failed].
  destruct (check "ucp_config_read" _) as [[]|]; [|by start_failed].
  destruct (check "ucp_init_version" _) as [[]|]; [|by start_failed].
  destruct (check "ucp_worker_create" _) as [[]|]; [|by start_failed].
  destruct (check "ucp_worker_get_efd" _) as [[]|]; [|by start_failed].
  destruct (f_async_fd F) as [[]|]; [|by start_failed].
  destruct (u64_max <? n * size); [by start_failed|].
  destruct (check "ucp_mem_map" _) as [[]|]; [|by start_failed].
  destruct (check "ucp_worker_get_address" _) as [[]|]; [|by start_failed].
  by start_failed.
Qed.
End boot.

(** Every call succeeds; and the same with the registration refused. *)
Definition demo_ffi (mem_map : ucs_status) : Ffi :=
  mkFfi (Ok tt) (Ok tt) UCS_OK UCS_OK UCS_OK UCS_OK (Ok tt) mem_map UCS_OK true.

Example refused_registration :
  start (fun _ => None) (fun _ => "no memory") (demo_ffi (UCS_ERR (-4))) 2 64 "a" [x01]
  = ([Acq Config; Acq Context_; Rel Config; Acq Worker; Rel Worker; Rel Context_],
     Err (Peer (display (status_error (fun _ => None) (fun _ => "no memory") "ucp_mem_map" (UCS_ERR (-4))))), None).
Proof. vm_compute. reflexivity. Qed.

Lemma resources_balanced_witness :
  let '(tr, r, _) := start (fun _ => None) (fun _ => "") (demo_ffi UCS_OK) 2 64 "a" [x01] in
  r = Ok [x01] /\ all_succeed (demo_ffi UCS_OK) 2 64.
Proof.
  pose proof (resources_balanced (fun _ => None) (fun _ => "") (demo_ffi UCS_OK) 2 64 "a" [x01]) as H.
  destruct (start _ _ _ _ _ _ _) as [[tr r] l] eqn:E. destruct H as ([H1 _] & _ & _).
  assert (Hr : r = Ok [x01]) by (vm_compute in E; by injection E).
  split; [exact Hr|]. apply H1, Hr.
Defined.
End Boot.

(** ** The loop *)
Module Runtime.
Import Request Endpoints.

Inductive RdmaCmd : Type :=
| Fetch (peer : string) (addr : list byte) (k : ChunkKey) (n wait : Z) (rid : string)
| Health (peer : string) (addr : list byte)
| UpdatePeer (peer : string) (addr : list byte).

(** What comes through a reply channel; [Dropped] when its sender is dropped unused. *)
Inductive Reply : Type :=
| FetchReply (r : res (list byte))
| HealthReply (r : res unit)
| Dropped.

Definition wants_reply (c : RdmaCmd) : bool :=
  match c with UpdatePeer _ _ => false | _ => true end.

(** A local task: not begun, or past the checkout of its endpoint. *)
Inductive Task : Type :=
| Spawned (c : RdmaCmd)
| Using (c : RdmaCmd) (e : CheckedOutEndpoint).

Definition cmd_of (t : Task) : RdmaCmd := match t with Spawned c | Using c _ => c end.

(** A message the probe finds: its frame and the sender's tag. *)
Abbreviation Msg := (list byte * Z)%type.

(** [up]: the loop runs.  [open]: the command channel exists.  [gone]: the thread has dropped its tasks.
    [queue] is the channel, [sent] all commands it ever accepted, [probed] what UCX has received and
    [served] what was handed to a request handler. *)
Record Sys := mkSys {
  up : bool;
  open : bool;
  gone : bool;
  eps : Endpoints.Sys;
  queue : list (nat * RdmaCmd);
  sent : gmap nat RdmaCmd;
  tasks : gmap nat Task;
  replies : gmap nat Reply;
  probed : list Msg;
  served : list Msg;
  chunk_requests : Z
}.

Definition start (me : string) : Sys :=
  mkSys true true false (Endpoints.start me) [] ∅ ∅ ∅ [] [] 0.

Definition set_eps (e : Endpoints.Sys) (s : Sys) : Sys :=
  mkSys (up s) (open s) (gone s) e (queue s) (sent s) (tasks s) (replies s) (probed s) (served s) (chunk_requests s).
Definition set_tasks (t : gmap nat Task) (s : Sys) : Sys :=
  mkSys (up s) (open s) (gone s) (eps s) (queue s) (sent s) t (replies s) (probed s) (served s) (chunk_requests s).
Definition set_replies (r : gmap nat Reply) (s : Sys) : Sys :=
  mkSys (up s) (open s) (gone s) (eps s) (queue s) (sent s) (tasks s) r (probed s) (served s) (chunk_requests s).

(** ** The client *)

(** [cmd_tx.send]. *)
Definition submit (i : nat) (c : RdmaCmd) (s : Sys) : Sys * res unit :=
  if open s then
    (mkSys (up s) (open s) (gone s) (eps s) (queue s ++ [(i, c)]) (<[i := c]> (sent s)) (tasks s) (replies s)
       (probed s) (served s) (chunk_requests s), Ok tt)
  else (s, Err (Peer "ucx runtime thread gone")).

(** [rx.await]: [None] while the caller waits. *)
Definition await_fetch (i : nat) (s : Sys) : option (res (list byte)) :=
  match replies s !! i with
  | Some (FetchReply r) => Some r
  | Some _ => Some (Err (Peer "ucx fetch reply dropped"))
  | None => None
  end.

Definition await_health (i : nat) (s : Sys) : option (res unit) :=
  match replies s !! i with
  | Some (HealthReply r) => Some r
  | Some _ => Some (Err (Peer "ucx health reply dropped"))
  | None => None
  end.

(** [RdmaPeerClient::fetch_chunk] and [health], when their reply is [i]. *)
Definition fetch_chunk (i : nat) (p : string) (addr : list byte) (k : ChunkKey) (n wait : Z)
    (rid : option string) (s : Sys) : Sys * res unit :=
  submit i (Fetch p addr k n wait (default "" rid)) s.

Definition health (i : nat) (p : string) (addr : list byte) (s : Sys) : Sys * res unit :=
  submit i (Health p addr) s.

Definition update_peer (i : nat) (p : string) (addr : list byte) (s : Sys) : Sys * res unit :=
  submit i (UpdatePeer p addr) s.

(** ** The tasks of commands *)

(** The head of the channel becomes a task. *)
Definition dispatch_cmd (s : Sys) : Sys :=
  match queue s with
  | [] => s
  | (i, c) :: q =>
      mkSys (up s) (open s) (gone s) (eps s) q (sent s) (<[i := Spawned c]> (tasks s)) (replies s) (probed s)
        (served s) (chunk_requests s)
  end.

(** A task sends its reply and ends. *)
Definition answer (i : nat) (r : Reply) (s : Sys) : Sys :=
  set_replies (<[i := r]> (replies s)) (set_tasks (delete i (tasks s)) s).

Definition bad_length (n : Z) : bool := (n =? 0) || (Wire.MAX_RESPONSE_BYTES <? n).

(** The error of a command, in its reply. *)
Definition error_reply (c : RdmaCmd) (e : BcError) : Reply :=
  match c with Health _ _ => HealthReply (Err e) | _ => FetchReply (Err e) end.

(** A task up to its first await: [ok] is what [ucp_ep_create] returns if it is called. *)
Definition begin_task (ok : res unit) (i : nat) (c : RdmaCmd) (s : Sys) : Sys :=
  match c with
  | UpdatePeer p addr => set_eps (Endpoints.update_peer p addr (eps s)) (set_tasks (delete i (tasks s)) s)
  | Fetch p addr _ n _ _ =>
      if bad_length n then answer i (FetchReply (Err (Peer ("bad chunk length " +:+ show n)))) s
      else match begin_use ok p addr (eps s) with
      | (e, Err x) => answer i (error_reply c x) (set_eps e s)
      | (e, Ok co) => set_eps e (set_tasks (<[i := Using c co]> (tasks s)) s)
      end
  | Health p addr =>
      match begin_use ok p addr (eps s) with
      | (e, Err x) => answer i (error_reply c x) (set_eps e s)
      | (e, Ok co) => set_eps e (set_tasks (<[i := Using c co]> (tasks s)) s)
      end
  end.

(** The end of a task that holds [co]: [r] is the outcome of a fetch's exchange, [h] the other
    endpoints in use. *)
Definition end_task (i : nat) (c : RdmaCmd) (co : CheckedOutEndpoint) (r : res (list byte))
    (h : list CheckedOutEndpoint) (s : Sys) : Sys :=
  match c with
  | Health _ _ => answer i (HealthReply (Ok tt)) (set_eps (end_use co false h (eps s)) s)
  | _ => answer i (FetchReply r) (set_eps (end_use co (Rpc.should_mark_endpoint_broken r) h (eps s)) s)
  end.

(** ** Inbound messages *)
Definition INBOUND_DRAIN_BUDGET : nat := 32.

(** The loop of [drain_inbound]: the messages it takes and those it leaves. *)
Fixpoint drain_loop (budget : nat) (q : list Msg) : list Msg * list Msg :=
  match q with
  | [] => ([], [])
  | x :: q =>
      match budget with
      | O | 1%nat => ([x], q)
      | S b => let '(a, b) := drain_loop b q in (x :: a, b)
      end
  end.

Definition drain_inbound (s : Sys) : Sys :=
  let '(a, b) := drain_loop INBOUND_DRAIN_BUDGET (probed s) in
  mkSys (up s) (open s) (gone s) (eps s) (queue s) (sent s) (tasks s) (replies s) b (served s ++ a)
    (wadd64 (chunk_requests s) (len a)).

(** ** The progress task *)
Definition PROGRESS_BUDGET : nat := 64.

(** [n] calls of [ucp_worker_progress] in a row report work; the yields of the task among them. *)
Fixpoint spin (n budget : nat) : nat :=
  match n with
  | O => O
  | S n => match budget with
           | O | 1%nat => S (spin n PROGRESS_BUDGET)
           | S b => spin n b
           end
  end.

Inductive Next : Type :=
| Wait
| Again
| Exit (e : BcError).

(** A round of [progress_worker]: whether inbound messages are announced, the yields, and what
    arming the worker leads to. *)
Definition progress_round (name : ucs_status -> option string) (dbg : ucs_status -> string) (n : nat)
    (arm : ucs_status) : bool * nat * Next :=
  ((0 <? n)%nat, spin n PROGRESS_BUDGET,
   match arm with
   | UCS_OK => Wait
   | UCS_ERR_BUSY => Again
   | st => Exit (status_error name dbg "ucp_worker_arm" st)
   end).

(** ** The loop and its end *)
Definition tick (s : Sys) : Sys := set_eps (reap_broken_eps (eps s)) s.

(** The senders of the commands in [m] that are still waiting are dropped. *)
Definition drop_replies (m : gmap nat RdmaCmd) (r : gmap nat Reply) : gmap nat Reply :=
  r ∪ ((fun _ => Dropped) <$> filter (fun ic => wants_reply ic.2 = true) m).

(** The loop ends and the endpoints are closed. *)
Definition stop (s : Sys) : Sys :=
  mkSys false (open s) (gone s) (close_all_endpoints (eps s)) (queue s) (sent s) (tasks s) (replies s)
    (probed s) (served s) (chunk_requests s).

(** [run_runtime] returns and drops the channel with what is in it. *)
Definition hang_up (s : Sys) : Sys :=
  mkSys (up s) false (gone s) (eps s) [] (sent s) (tasks s)
    (drop_replies (list_to_map (queue s)) (replies s)) (probed s) (served s) (chunk_requests s).

(** The thread ends and drops its tasks. *)
Definition exit (s : Sys) : Sys :=
  mkSys false (open s) true (eps s) (queue s) (sent s) ∅ (drop_replies (cmd_of <$> tasks s) (replies s))
    (probed s) (served s) (chunk_requests s).

Inductive step (s : Sys) : Sys -> Prop :=
| step_submit i c : sent s !! i = None -> step s (submit i c s).1
| step_dispatch : up s = true -> step s (dispatch_cmd s)
| step_begin i c ok :
    gone s = false -> tasks s !! i = Some (Spawned c) -> len (held (eps s)) < 2 ^ 32 ->
    step s (begin_task ok i c s)
| step_end i c co r h1 h2 :
    gone s = false -> tasks s !! i = Some (Using c co) -> held (eps s) = h1 ++ co :: h2 ->
    step s (end_task i c co r (h1 ++ h2) s)
| step_reply ok sent p :
    gone s = false -> len (held (eps s)) < 2 ^ 32 -> step s (set_eps (Rpc.server_send_response ok sent p (eps s)).1 s)
| step_error n :
    step s (set_eps (Endpoints.mkSys (error_callback n (rt (eps s))) (held (eps s)) (closed (eps s))
                       (lost (eps s)) (created (eps s))) s)
| step_arrive x :
    step s (mkSys (up s) (open s) (gone s) (eps s) (queue s) (sent s) (tasks s) (replies s) (probed s ++ [x])
              (served s) (chunk_requests s))
| step_drain : up s = true -> step s (drain_inbound s)
| step_tick : up s = true -> step s (tick s)
| step_stop : up s = true -> step s (stop s)
| step_hang_up : up s = false -> step s (hang_up s)
| step_exit : open s = false -> step s (exit s).

Inductive reachable (s0 : Sys) : Sys -> Prop :=
| reach_refl : reachable s0 s0
| reach_step s s' : reachable s0 s -> step s s' -> reachable s0 s'.

(** ** Lemmas *)

(** The replies a command may get. *)
Definition answers (c : RdmaCmd) (r : Reply) : Prop :=
  match c, r with
  | UpdatePeer _ _, _ => False
  | _, Dropped => True
  | Fetch _ _ _ _ _ _, FetchReply _ | Health _ _, HealthReply _ => True
  | _, _ => False
  end.

Record inv (s : Sys) : Prop := {
  in_nodup : NoDup (queue s).*1;
  in_queue i c : (i, c) ∈ queue s -> sent s !! i = Some c /\ tasks s !! i = None /\ replies s !! i = None;
  in_tasks i t : tasks s !! i = Some t -> sent s !! i = Some (cmd_of t) /\ replies s !! i = None;
  in_using i c co : tasks s !! i = Some (Using c co) -> wants_reply c = true;
  in_replies i r : replies s !! i = Some r ->
    exists c, sent s !! i = Some c /\ answers c r /\ (up s = true -> r <> Dropped);
  in_some i c : sent s !! i = Some c -> wants_reply c = true ->
    i ∈ (queue s).*1 \/ is_Some (tasks s !! i) \/ is_Some (replies s !! i);
  in_down : open s = false -> queue s = [] /\ up s = false;
  in_gone : gone s = true -> open s = false /\ tasks s = ∅;
  in_eps : up s = true -> Endpoints.inv (eps s);
  in_served : chunk_requests s = wrap64 (len (served s))
}.

Lemma inv_set_eps e s : inv s -> (up s = true -> Endpoints.inv e) -> inv (set_eps e s).
Proof. intros [] He. by split. Qed.

(** A step of the endpoint table. *)
Lemma inv_eps_step e s : inv s -> Endpoints.step false (eps s) e -> inv (set_eps e s).
Proof. intros Hs He. apply inv_set_eps; [done|]. intros Hu. apply (step_keeps_inv (eps s)); [by apply in_eps|done]. Qed.

(** A task of the table goes on, or ends without a reply when none is wanted. *)
Lemma inv_task_on i c co s :
  inv s -> tasks s !! i = Some (Spawned c) -> wants_reply c = true ->
  inv (set_tasks (<[i := Using c co]> (tasks s)) s).
Proof.
  intros Hs Hi Hw. destruct (in_tasks s Hs i _ Hi) as [Hc Hr]. destruct Hs as [].
  split; simpl; try done.
  - intros j x Hj. destruct (in_queue0 j x Hj) as (? & ? & ?). split_and!; [done| |done].
    rewrite lookup_insert_ne; [done|]. intros ->. congruence.
  - intros j t. rewrite lookup_insert. case_decide; [subst j; by intros [= <-]|by apply in_tasks0].
  - intros j x y. rewrite lookup_insert. case_decide; [by intros [= <- <-]|by apply in_using0].
  - intros j x Hx Hwx. rewrite lookup_insert. case_decide; [right; left; by eauto|by eapply in_some0].
  - intros Hg. destruct (in_gone0 Hg) as [? Ht]. rewrite Ht in Hi. done.
Qed.

Lemma inv_task_end i c s :
  inv s -> tasks s !! i = Some (Spawned c) -> wants_reply c = false ->
  inv (set_tasks (delete i (tasks s)) s).
Proof.
  intros Hs Hi Hw. destruct (in_tasks s Hs i _ Hi) as [Hc Hr]. destruct Hs as [].
  split; simpl; try done.
  - intros j x Hj. destruct (in_queue0 j x Hj) as (? & ? & ?). split_and!; [done| |done].
    apply lookup_delete_None. by right.
  - intros j t [_ Ht]%lookup_delete_Some. by apply in_tasks0.
  - intros j x y [_ Ht]%lookup_delete_Some. by eapply in_using0.
  - intros j x Hx Hwx. destruct (in_some0 j x Hx Hwx) as [?|[?|?]]; [by left| |by (right; right)].
    right. left. rewrite lookup_delete_ne; [done|]. intros ->. simpl in Hc. congruence.
  - intros Hg. destruct (in_gone0 Hg) as [? Ht]. by rewrite Ht in Hi.
Qed.

Lemma inv_answer i t r s :
  inv s -> tasks s !! i = Some t -> answers (cmd_of t) r -> r <> Dropped -> inv (answer i r s).
Proof.
  intros Hs Hi Ha Hd. destruct (in_tasks s Hs i t Hi) as [Hc Hr]. destruct Hs as [].
  split; simpl; try done.
  - intros j x Hj. destruct (in_queue0 j x Hj) as (? & ? & ?).
    assert (i <> j) by (intros ->; congruence). by rewrite lookup_delete_ne, lookup_insert_ne.
  - intros j x [Hne Hx]%lookup_delete_Some. rewrite lookup_insert_ne by done. by apply in_tasks0.
  - intros j x y [_ Ht]%lookup_delete_Some. by eapply in_using0.
  - intros j x. rewrite lookup_insert. case_decide; [subst j; intros [= <-]; eauto|by apply in_replies0].
  - intros j x Hx Hwx. destruct (decide (i = j)) as [->|Hne].
    + right. right. by rewrite lookup_insert_eq.
    + rewrite lookup_delete_ne, lookup_insert_ne by done. by eapply in_some0.
  - intros Hg. destruct (in_gone0 Hg) as [? Ht]. by rewrite Ht in Hi.
Qed.

Lemma inv_begin_use ok p addr i c s :
  inv s -> tasks s !! i = Some (Spawned c) -> wants_reply c = true -> len (held (eps s)) < 2 ^ 32 ->
  inv (match begin_use ok p addr (eps s) with
       | (e, Err x) => answer i (error_reply c x) (set_eps e s)
       | (e, Ok co) => set_eps e (set_tasks (<[i := Using c co]> (tasks s)) s)
       end).
Proof.
  intros Hs Hi Hw Hl. pose proof (Endpoints.step_begin (eps s) ok p addr Hl) as Hst.
  destruct (begin_use ok p addr (eps s)) as [e [co|x]]; cbn [fst] in Hst.
  - apply (inv_eps_step e (set_tasks (<[i := Using c co]> (tasks s)) s)); [|done]. by apply inv_task_on.
  - apply (inv_answer i (Spawned c)); [by apply inv_eps_step|done| |by destruct c].
    by destruct c.
Qed.

Lemma inv_begin ok i c s :
  inv s -> tasks s !! i = Some (Spawned c) -> len (held (eps s)) < 2 ^ 32 -> inv (begin_task ok i c s).
Proof.
  intros Hs Hi Hl. destruct c as [p addr k n w rid|p addr|p addr]; cbn [begin_task].
  - destruct (bad_length n); [by apply (inv_answer i (Spawned (Fetch p addr k n w rid)))|].
    by apply inv_begin_use.
  - by apply inv_begin_use.
  - apply (inv_eps_step _ (set_tasks (delete i (tasks s)) s)); [by eapply inv_task_end|].
    apply (Endpoints.step_update (eps s)).
Qed.

Lemma inv_end i c co r h1 h2 s :
  inv s -> tasks s !! i = Some (Using c co) -> held (eps s) = h1 ++ co :: h2 ->
  inv (end_task i c co r (h1 ++ h2) s).
Proof.
  intros Hs Hi Hh. pose proof (in_using s Hs i c co Hi) as Hw.
  assert (He : forall f, inv (set_eps (end_use co f (h1 ++ h2) (eps s)) s)).
  { intros f. apply inv_eps_step; [done|]. by apply Endpoints.step_end. }
  destruct c as [p addr k n w rid|p addr|p addr]; [| |done]; cbn [end_task];
    eapply (inv_answer i); try done; apply He.
Qed.

(** The reply to a request is two steps of the endpoint table. *)
Lemma inv_reply ok sent p s :
  inv s -> len (held (eps s)) < 2 ^ 32 -> inv (set_eps (Rpc.server_send_response ok sent p (eps s)).1 s).
Proof.
  intros Hs Hl. unfold Rpc.server_send_response.
  destruct (peer_addr_blobs _ !! p) as [addr|]; [|by apply inv_set_eps, in_eps].
  pose proof (Endpoints.step_begin (eps s) ok p addr Hl) as Hst. unfold begin_use in *.
  destruct (update_peer_addr_blob _ _ _) as [r0 rm]. destruct (checkout_endpoint _ _ _ _) as [r [c|x]].
  - cbn [fst] in *. apply inv_set_eps; [done|]. intros Hu.
    eapply step_keeps_inv; [eapply step_keeps_inv; [by apply (in_eps s)|exact Hst]|].
    apply (Endpoints.step_end _ c _ [] (held (eps s))). done.
  - by apply inv_eps_step.
Qed.

Lemma inv_submit i c s : inv s -> sent s !! i = None -> inv (submit i c s).1.
Proof.
  intros Hs Hi. unfold submit. destruct (open s) eqn:Eo; [|done]. destruct Hs as [].
  assert (Hq : forall x, (i, x) ∉ queue s) by (intros x Hx; apply in_queue0 in Hx; naive_solver congruence).
  assert (Ht : tasks s !! i = None).
  { apply eq_None_not_Some. intros [t Ht]. apply in_tasks0 in Ht. naive_solver congruence. }
  assert (Hr : replies s !! i = None).
  { apply eq_None_not_Some. intros [r Hr]. apply in_replies0 in Hr. naive_solver congruence. }
  split; simpl; try done.
  - rewrite fmap_app. apply NoDup_app. split_and!; [done| |apply NoDup_singleton].
    intros j Hj1 Hj%list_elem_of_singleton. apply list_elem_of_fmap in Hj1 as ([j' x] & -> & Hx). simpl in Hj. subst j'. by eapply Hq.
  - intros j x [Hx|[= -> ->]%list_elem_of_singleton]%elem_of_app; [|by rewrite lookup_insert_eq].
    rewrite lookup_insert_ne; [by apply in_queue0|]. intros ->. by eapply Hq.
  - intros j t Hj. rewrite lookup_insert_ne; [by apply in_tasks0|]. congruence.
  - intros j r Hj. rewrite lookup_insert_ne; [|congruence]. by apply in_replies0.
  - intros j x. rewrite lookup_insert, fmap_app. case_decide as Hij.
    + intros _ _. left. apply elem_of_app. right. subst j. by apply list_elem_of_singleton.
    + intros Hj Hw. destruct (in_some0 j x Hj Hw) as [?|?]; [left; apply elem_of_app; by left|by right].
  - intros Hg. destruct (in_gone0 Hg). congruence.
Qed.

Lemma inv_dispatch s : inv s -> up s = true -> inv (dispatch_cmd s).
Proof.
  intros Hs Eu. unfold dispatch_cmd. destruct (queue s) as [|[i c] q] eqn:Eq; [done|]. destruct Hs as [].
  rewrite Eq in *. apply NoDup_cons in in_nodup0 as [Hni Hnd].
  destruct (in_queue0 i c) as (Hc & Ht & Hr); [by left|].
  split; simpl; try done.
  - intros j x Hj. destruct (in_queue0 j x) as (? & ? & ?); [by right|]. rewrite lookup_insert_ne; [done|].
    intros ->. apply Hni. by apply (list_elem_of_fmap_2 fst) in Hj.
  - intros j t. rewrite lookup_insert. case_decide; [subst j; by intros [= <-]|by apply in_tasks0].
  - intros j x y. rewrite lookup_insert. case_decide; [done|by apply in_using0].
  - intros j x Hx Hw. rewrite lookup_insert. case_decide; [right; left; eauto|].
    destruct (in_some0 j x Hx Hw) as [Hj|?]; [|by right]. left. simpl in Hj.
    apply elem_of_cons in Hj as [->|]; done.
  - intros Ho. by destruct (in_down0 Ho).
  - intros Hg. destruct (in_gone0 Hg) as [Ho _]. by destruct (in_down0 Ho).
Qed.

(** The progress task gives way once in every 64 steps. *)
Lemma spin_yields n b :
  (0 < b <= PROGRESS_BUDGET)%nat ->
  spin n b = ((n + (PROGRESS_BUDGET - b)) / PROGRESS_BUDGET)%nat.
Proof.
  unfold PROGRESS_BUDGET. revert b. induction n as [|n IH]; intros b Hb.
  - symmetry. apply Nat.div_small. lia.
  - cbn [spin]. destruct b as [|[|b]]; [lia| |].
    + unfold PROGRESS_BUDGET. rewrite IH by lia.
      replace (S n + (64 - 1))%nat with (n + (64 - 64) + 1 * 64)%nat by lia. rewrite Nat.div_add by lia. lia.
    + rewrite IH by lia. f_equal. lia.
Qed.

Lemma drain_loop_spec b q : drain_loop (S b) q = (take (S b) q, drop (S b) q).
Proof.
  revert q. induction b as [|b IH]; intros [|x q]; try done.
  change (drain_loop (S (S b)) (x :: q)) with (let '(a, r) := drain_loop (S b) q in (x :: a, r)).
  by rewrite IH.
Qed.

Lemma inv_drain s : inv s -> inv (drain_inbound s).
Proof.
  intros []. unfold drain_inbound, INBOUND_DRAIN_BUDGET. rewrite drain_loop_spec. split; simpl; try done.
  rewrite in_served0, len_app. unfold wadd64, wrap64. by rewrite Zplus_mod_idemp_l.
Qed.

(** The replies of a set of commands that had none, after their senders are dropped. *)
Lemma drop_replies_lookup m r i :
  drop_replies m r !! i =
    match r !! i with
    | Some x => Some x
    | None => c ← m !! i; if wants_reply c then Some Dropped else None
    end.
Proof.
  unfold drop_replies. rewrite lookup_union, lookup_fmap, map_lookup_filter.
  destruct (r !! i) as [x|].
  - by destruct (_ <$> _).
  - destruct (m !! i) as [c|]; simpl; [|done]. case_guard as Hg; destruct (wants_reply c); done.
Qed.

Lemma dropped_answers c : wants_reply c = true -> answers c Dropped.
Proof. by destruct c. Qed.

(** The commands in [m] lose their senders: they are all that may still get a reply from there. *)
Lemma in_replies_drop (m : gmap nat RdmaCmd) s i r :
  inv s -> (forall j c, m !! j = Some c -> sent s !! j = Some c) ->
  drop_replies m (replies s) !! i = Some r -> exists c, sent s !! i = Some c /\ answers c r.
Proof.
  intros Hs Hm. rewrite drop_replies_lookup. destruct (replies s !! i) as [x|] eqn:Er.
  - intros [= <-]. destruct (in_replies s Hs i x Er) as (c & ? & ? & _). eauto.
  - destruct (m !! i) as [c|] eqn:Em; [|done]. simpl. destruct (wants_reply c) eqn:Ew; [|done].
    intros [= <-]. exists c. split; [by apply Hm|by apply dropped_answers].
Qed.

Lemma inv_stop s : inv s -> inv (stop s).
Proof.
  intros []. split; simpl; try done.
  - intros i r Hr. destruct (in_replies0 i r Hr) as (c & ? & ? & _). eauto.
  - intros Ho. by destruct (in_down0 Ho).
Qed.

Lemma inv_hang_up s : inv s -> up s = false -> inv (hang_up s).
Proof.
  intros Hs Hu. assert (Hl : forall j c, list_to_map (M := gmap nat RdmaCmd) (queue s) !! j = Some c <-> (j, c) ∈ queue s).
  { intros j c. split; [apply elem_of_list_to_map_2|]. apply elem_of_list_to_map_1, Hs. }
  unfold hang_up. split; simpl; try done.
  - apply NoDup_nil_2.
  - intros i c Hi. by apply not_elem_of_nil in Hi.
  - intros i t Ht. destruct (in_tasks s Hs i t Ht) as [Hc Hr]. split; [done|].
    rewrite drop_replies_lookup, Hr. destruct (list_to_map (queue s) !! i) as [c|] eqn:Ec; [|done].
    apply Hl, (in_queue s Hs) in Ec. naive_solver congruence.
  - apply (in_using s Hs).
  - intros i r Hr. destruct (in_replies_drop (list_to_map (queue s)) s i r Hs) as (c & ? & ?); [|done|exists c; split_and!; [done|done|congruence]].
    intros j c Hj%Hl. by apply (in_queue s Hs).
  - intros i c Hc Hw. rewrite drop_replies_lookup. right. destruct (replies s !! i) eqn:Er; [by right; eauto|].
    destruct (in_some s Hs i c Hc Hw) as [Hq|[Ht|[x Hx]]]; [right|by left|congruence].
    apply list_elem_of_fmap in Hq as ([j x] & -> & Hx). simpl in *.
    pose proof (in_queue s Hs j x Hx) as (Hcx & _). apply Hl in Hx. rewrite Hx. simpl.
    assert (x = c) as -> by congruence. rewrite Hw. eauto.
  - intros Hg. split; [done|]. by apply (in_gone s Hs).
  - congruence.
  - apply (in_served s Hs).
Qed.

Lemma inv_exit s : inv s -> open s = false -> inv (exit s).
Proof.
  intros Hs Ho. destruct (in_down s Hs Ho) as [Hq Hu]. unfold exit. split; simpl; try done.
  - apply (in_nodup s Hs).
  - intros i c Hi. rewrite Hq in Hi. by apply not_elem_of_nil in Hi.
  - intros i r Hr. destruct (in_replies_drop (cmd_of <$> tasks s) s i r Hs) as (c & ? & ?); [|done|eauto].
    intros j c. rewrite lookup_fmap. intros (t & Ht & ->)%fmap_Some. by apply (in_tasks s Hs).
  - intros i c Hc Hw. right. right. rewrite drop_replies_lookup. destruct (replies s !! i) eqn:Er; [eauto|].
    rewrite lookup_fmap. destruct (in_some s Hs i c Hc Hw) as [Hi|[[t Ht]|[x Hx]]]; [|rewrite Ht|congruence].
    + rewrite Hq in Hi. by apply not_elem_of_nil in Hi.
    + destruct (in_tasks s Hs i t Ht) as [Ht' _]. simpl. assert (cmd_of t = c) as -> by congruence.
      rewrite Hw. eauto.
  - apply (in_served s Hs).
Qed.

Lemma step_keeps s s' : inv s -> step s s' -> inv s'.
Proof.
  intros Hs Hst. destruct Hst.
  - by apply inv_submit.
  - by apply inv_dispatch.
  - by apply inv_begin.
  - by apply inv_end.
  - by apply inv_reply.
  - apply inv_eps_step; [done|]. apply Endpoints.step_error.
  - destruct Hs. by split.
  - by apply inv_drain.
  - apply inv_eps_step; [done|]. apply Endpoints.step_reap.
  - by apply inv_stop.
  - by apply inv_hang_up.
  - by apply inv_exit.
Qed.

Lemma reachable_keeps me s : reachable (start me) s -> inv s.
Proof.
  induction 1 as [|s s' _ IH Hst]; [|by eapply step_keeps].
  split; simpl; try done; [apply NoDup_nil_2|intros i c Hi; by apply not_elem_of_nil in Hi|].
  intros _. apply endpoints_inv_start.
Qed.

(** A reply is final. *)
Lemma replies_final s s' i r :
  inv s -> step s s' -> replies s !! i = Some r -> replies s' !! i = Some r.
Proof.
  intros Hs Hst Hr.
  assert (Hno : forall j t x, tasks s !! j = Some t -> <[j := x]> (replies s) !! i = Some r).
  { intros j t x Ht. rewrite lookup_insert_ne; [done|]. intros ->.
    destruct (in_tasks s Hs i t Ht). congruence. }
  destruct Hst as [j c Hj| |j c ok ? Hj|j c co x h1 h2 ? Hj| | | | | | | |]; simpl; try done.
  - unfold submit. by destruct (open s).
  - unfold dispatch_cmd. by destruct (queue s) as [|[? ?] ?].
  - unfold begin_task. destruct c; [destruct (bad_length n); [by eapply Hno|]| |done];
      destruct (begin_use _ _ _ _) as [? [?|?]]; try done; by eapply Hno.
  - unfold end_task. destruct c; by eapply Hno.
  - unfold drain_inbound. by destruct (drain_loop _ _).
  - by rewrite drop_replies_lookup, Hr.
  - by rewrite drop_replies_lookup, Hr.
Qed.

(** Inbound messages are served in the order of their arrival, none twice and none left out, at most
    32 for each drain. *)
Lemma inbound_in_order s s' :
  step s s' ->
  (exists a b, served s' = served s ++ a /\ (List.length a <= INBOUND_DRAIN_BUDGET)%nat /\
     served s' ++ probed s' = served s ++ probed s ++ b).
Proof.
  assert (Hsame : forall x, served x = served s -> probed x = probed s ->
    exists a b, served x = served s ++ a /\ (List.length a <= INBOUND_DRAIN_BUDGET)%nat /\
      served x ++ probed x = served s ++ probed s ++ b).
  { intros x -> ->. exists [], []. rewrite !app_nil_r. split_and!; [done|simpl; lia|done]. }
  intros Hst. destruct Hst as [j c Hj| |j c ok ? Hj|j c co x h1 h2 ? Hj| | |x| | | | |]; try (by apply Hsame).
  - apply Hsame; unfold submit; by destruct (open s).
  - apply Hsame; unfold dispatch_cmd; by destruct (queue s) as [|[? ?] ?].
  - apply Hsame; unfold begin_task; (destruct c; [destruct (bad_length n); [done|]| |done];
      by destruct (begin_use _ _ _ _) as [? [?|?]]).
  - apply Hsame; by destruct c.
  - exists [], [x]. simpl. rewrite app_nil_r. split_and!; [done|lia|done].
  - unfold drain_inbound, INBOUND_DRAIN_BUDGET. rewrite drain_loop_spec. simpl.
    exists (take 32 (probed s)), []. rewrite app_nil_r, <- app_assoc, take_drop, length_take.
    split_and!; [done|lia|done].
Qed.

(** ** Theorem *)

(** C22.  Every command that the runtime accepts is answered once: at each moment a fetch or health
    command is in the channel, or the work of one task, or answered, and only one of these; its
    answer is final and of its own kind; while the loop runs, no caller is told that its reply was
    dropped and no task sends on an endpoint that has been closed; and when the thread is gone, every
    command that was ever accepted has its answer. *)
Theorem commands_answered me s i c :
  reachable (start me) s -> sent s !! i = Some c -> wants_reply c = true ->
  (if decide (i ∈ (queue s).*1) then 1 else 0) + (if decide (is_Some (tasks s !! i)) then 1 else 0)
    + (if decide (is_Some (replies s !! i)) then 1 else 0) = 1 /\
  (forall r, replies s !! i = Some r ->
     answers c r /\ (up s = true -> r <> Dropped) /\ forall s', step s s' -> replies s' !! i = Some r) /\
  (up s = true -> forall e, e ∈ held (eps s) -> co_ep e ∉ closed (eps s)) /\
  (gone s = true -> is_Some (replies s !! i)).
Proof.
  intros Hs%reachable_keeps Hc Hw. split_and!.
  - assert (Hq : i ∈ (queue s).*1 -> tasks s !! i = None /\ replies s !! i = None).
    { intros ([j x] & -> & Hx)%list_elem_of_fmap. by apply (in_queue s Hs) in Hx as (_ & ? & ?). }
    assert (Ht : is_Some (tasks s !! i) -> replies s !! i = None).
    { intros [t Ht]. by apply (in_tasks s Hs) in Ht as [_ ?]. }
    pose proof (in_some s Hs i c Hc Hw) as Hsome.
    destruct (decide (i ∈ (queue s).*1)) as [H1|H1].
    { destruct (Hq H1) as [-> ->]. by rewrite !decide_False by apply is_Some_None. }
    destruct (decide (is_Some (tasks s !! i))) as [H2|H2].
    { rewrite (Ht H2). by rewrite decide_False by apply is_Some_None. }
    by rewrite decide_True by tauto.
  - intros r Hr. destruct (in_replies s Hs i r Hr) as (x & Hx & Ha & Hd).
    assert (x = c) as -> by congruence. split_and!; [done|done|].
    intros s' Hst. by eapply replies_final.
  - intros Hu e He. by apply (held_open _ e (in_eps s Hs Hu)).
  - intros Hg. destruct (in_gone s Hs Hg) as [Ho Ht].
    destruct (in_some s Hs i c Hc Hw) as [Hi|[[t Hi]|?]]; [|by rewrite Ht in Hi|done].
    rewrite (proj1 (in_down s Hs Ho)) in Hi. by apply not_elem_of_nil in Hi.
Qed.

(** A fetch still in the channel and a health check in flight when the runtime stops. *)
Definition demo_stopped : Sys :=
  let s := (submit 1 (Health "b" [x01]) (start "a")).1 in
  let s := begin_task (Ok tt) 1 (Health "b" [x01]) (dispatch_cmd s) in
  exit (hang_up (stop (submit 2 (Fetch "b" [x01] (mkChunkKey "m" "f" 0) 4 0 "") s).1)).

Lemma demo_stopped_reachable : reachable (start "a") demo_stopped.
Proof.
  eapply reach_step; [eapply reach_step; [eapply reach_step; [eapply reach_step; [eapply reach_step;
    [eapply reach_step; [eapply reach_step; [apply reach_refl|]|]|]|]|]|]|].
  - by apply (step_submit _ 1 (Health "b" [x01])).
  - by apply step_dispatch.
  - by apply (step_begin _ 1 (Health "b" [x01]) (Ok tt)).
  - by apply (step_submit _ 2 (Fetch "b" [x01] (mkChunkKey "m" "f" 0) 4 0 "")).
  - by apply step_stop.
  - by apply step_hang_up.
  - by apply step_exit.
Qed.

Lemma commands_answered_witness :
  is_Some (replies demo_stopped !! 1%nat) /\
  await_fetch 2 demo_stopped = Some (Err (Peer "ucx fetch reply dropped")).
Proof.
  split; [|vm_compute; reflexivity].
  apply (commands_answered "a" demo_stopped 1 (Health "b" [x01])).
  - exact demo_stopped_reachable.
  - vm_compute. reflexivity.
  - reflexivity.
  - reflexivity.
Defined.
End Runtime.
