(* ===== verification/Config.v ===== *)
(** * Configuration (src/src/config.rs)

    The configuration records with their defaults, validation, and the cluster hash that decides
    which nodes may gossip with each other.  Reading the file, the TOML parser, SHA-256 and the
    [Debug] rendering of a string are parameters. *)

From S2P Require Import Prelude ChunkKeys.

Module Conf.

(** ** Records and defaults *)
Record CacheConfig := mkCacheConfig {
  dir : string;
  max_bytes : Z;
  chunk_size : Z;
  cache_on_peer_fetch : bool;
  peer_lru_bytes : Z
}.

Definition default_chunk_size : Z := 4 * 1024 * 1024.
Definition default_cache_on_peer_fetch : bool := true.
Definition default_peer_lru_bytes : Z := 1024 * 1024 * 1024.

Record AzureConfig := mkAzureConfig {
  pool_max_idle_per_host : Z;
  block_size : Z;
  workers : Z;
  main_worker_threads : Z
}.

Definition default_azure : AzureConfig := mkAzureConfig 512 0 1 8.

Record ClusterConfig := mkClusterConfig {
  cluster_bind : string;
  seeds : list string;
  cluster_advertise : option string
}.

Record TransportConfig := mkTransportConfig {
  bind : string;
  advertise : list string;
  chunk_concurrency : Z;
  peer_concurrency : Z;
  prefetch_depth : Z;
  prefetch_threshold : Z;
  prefetch_concurrency : Z;
  prefetch_origin_only : bool;
  kind : string;
  bloom_bits : Z;
  bloom_rebuild_secs : Z;
  bloom_pull_secs : Z;
  peer_max_candidates : Z;
  peer_max_yes_attempts : Z;
  peer_max_maybe_attempts : Z;
  stampede_wait_ms : Z
}.

(** A [transport] section that sets only [bind]. *)
Definition default_transport (b : string) : TransportConfig :=
  mkTransportConfig b [] 32 8 16 3 32 false "tcp" (2 ^ 23) 30 5 4 2 2 5000.

Record MountConfig := mkMountConfig {
  name : string;
  mountpoint : string;
  account : string;
  container : string;
  prefix : string;
  sas_token : option string
}.

#[export] Instance MountConfig_eq_decision : EqDecision MountConfig.
Proof. solve_decision. Defined.

Record Config := mkConfig {
  node_id : option string;
  cache : CacheConfig;
  azure : AzureConfig;
  cluster : ClusterConfig;
  transport : TransportConfig;
  stats_bind : string;
  mounts : list MountConfig
}.

(** ** Validation *)

(** [u64::is_multiple_of]: zero is the only multiple of zero. *)
Definition is_multiple_of (a b : Z) : bool := if b =? 0 then a =? 0 else a mod b =? 0.

Definition str_empty (s : string) : bool := match s with EmptyString => true | _ => false end.

Definition mount_ok (m : MountConfig) : bool :=
  negb (str_empty (name m) || str_empty (account m) || str_empty (container m)).

Definition validate_mount (m : MountConfig) : res unit :=
  if mount_ok m then Ok tt
  else Err (ChunkKeys.Config ("mount " +:+ name m +:+ ": name/account/container required")).

Fixpoint validate_mounts (l : list MountConfig) : res unit :=
  match l with
  | [] => Ok tt
  | m :: t => let? _ := validate_mount m in validate_mounts t
  end.

(** The double quotes of a message. *)
Definition quoted (s : string) : string := bytes_str [x22] +:+ s +:+ bytes_str [x22].

Section validation.
Context (debug_str : string -> string).

Definition validate (c : Config) : res unit :=
  if (chunk_size (cache c) =? 0) || negb (is_multiple_of (chunk_size (cache c)) 4096)
  then Err (ChunkKeys.Config "cache.chunk_size must be multiple of 4096")
  else if pool_max_idle_per_host (azure c) =? 0
  then Err (ChunkKeys.Config "azure.pool_max_idle_per_host must be >= 1")
  else if workers (azure c) =? 0 then Err (ChunkKeys.Config "azure.workers must be >= 1")
  else if main_worker_threads (azure c) =? 0
  then Err (ChunkKeys.Config "azure.main_worker_threads must be >= 1")
  else if negb (block_size (azure c) =? 0) && (block_size (azure c) <? chunk_size (cache c))
  then Err (ChunkKeys.Config "azure.block_size must be >= cache.chunk_size when set")
  else if negb (block_size (azure c) =? 0)
          && negb (is_multiple_of (block_size (azure c)) (chunk_size (cache c)))
  then Err (ChunkKeys.Config "azure.block_size must be a multiple of cache.chunk_size")
  else match mounts c with
  | [] => Err (ChunkKeys.Config "at least one mount required")
  | ms =>
      let? _ := validate_mounts ms in
      if String.eqb (kind (transport c)) "tcp" || String.eqb (kind (transport c)) "rdma" then Ok tt
      else Err (ChunkKeys.Config ("transport.kind must be " +:+ quoted "tcp" +:+ " or " +:+ quoted "rdma"
                                    +:+ ", got " +:+ debug_str (kind (transport c))))
  end.

(** [read] is the file's text or the I/O error's text, [parse] the TOML parser. *)
Definition from_path (path : string) (read : result string string)
    (parse : string -> res Config) : res Config :=
  match read with
  | Err e => Err (ChunkKeys.Config ("read " +:+ path +:+ ": " +:+ e))
  | Ok s => let? cfg := parse s in let? _ := validate cfg in Ok cfg
  end.
End validation.

(** ** The cluster hash *)
Definition by_name (l : list MountConfig) : list MountConfig :=
  stable_sort (fun a b => str_le (name a) (name b)) l.

Definition cstring (s : string) : list byte := str_bytes s ++ [x00].

Definition mount_bytes (m : MountConfig) : list byte :=
  cstring (name m) ++ cstring (account m) ++ cstring (container m) ++ cstring (prefix m).

Definition hash_preimage (c : Config) : list byte :=
  le_bytes 8 (chunk_size (cache c)) ++ cstring (kind (transport c))
  ++ (by_name (mounts c) ≫= mount_bytes).

Definition cluster_hash (sha256 : list byte -> list byte) (c : Config) : list byte :=
  sha256 (hash_preimage c).

(** What the hash is meant to pin down of a mount. *)
Definition identity (m : MountConfig) : string * string * string * string :=
  (name m, account m, container m, prefix m).

Definition nul_free (s : string) : Prop := x00 ∉ str_bytes s.

Definition mount_nul_free (m : MountConfig) : Prop :=
  nul_free (name m) /\ nul_free (account m) /\ nul_free (container m) /\ nul_free (prefix m).

(** ** Lemmas *)
Lemma multiple_iff a b : 0 < b -> is_multiple_of a b = true <-> (b | a).
Proof.
  intros Hb. unfold is_multiple_of. rewrite (proj2 (Z.eqb_neq b 0)), Z.eqb_eq by lia.
  apply Z.mod_divide. lia.
Qed.

Lemma mount_ok_iff m :
  mount_ok m = true <-> name m <> EmptyString /\ account m <> EmptyString /\ container m <> EmptyString.
Proof.
  unfold mount_ok, str_empty. destruct (name m), (account m), (container m); simpl; naive_solver.
Qed.

Lemma validate_mounts_ok l : validate_mounts l = Ok tt <-> Forall (fun m => mount_ok m = true) l.
Proof.
  induction l as [|m l IH]; simpl; [split; [constructor|done]|].
  unfold validate_mount. rewrite Forall_cons, <- IH. destruct (mount_ok m); simpl; naive_solver.
Qed.

Lemma cstring_split a b x y :
  nul_free a -> nul_free b -> cstring a ++ x = cstring b ++ y -> a = b /\ x = y.
Proof.
  unfold cstring, nul_free. rewrite <- !app_assoc. intros Ha Hb H.
  apply sep_split in H as [H ->]; [|done..]. split; [by apply str_bytes_inj|done].
Qed.

Lemma mount_bytes_split a b x y :
  mount_nul_free a -> mount_nul_free b -> mount_bytes a ++ x = mount_bytes b ++ y ->
  identity a = identity b /\ x = y.
Proof.
  unfold mount_nul_free, mount_bytes. intros (?&?&?&?) (?&?&?&?) Heq. rewrite <- !app_assoc in Heq.
  apply cstring_split in Heq as [E1 Ha]; [|done..]. apply cstring_split in Ha as [E2 Hb]; [|done..].
  apply cstring_split in Hb as [E3 Hc]; [|done..]. apply cstring_split in Hc as [E4 Hd]; [|done..].
  unfold identity. by rewrite E1, E2, E3, E4.
Qed.

Lemma mounts_bytes_inj l l' :
  Forall mount_nul_free l -> Forall mount_nul_free l' ->
  (l ≫= mount_bytes) = (l' ≫= mount_bytes) -> identity <$> l = identity <$> l'.
Proof.
  intros Hl. revert l'. induction Hl as [|m l Hm Hl IH]; intros [|m' l'] Hl' H; try done.
  - apply (f_equal length) in H. unfold mount_bytes, cstring in H. simpl in H.
    rewrite !length_app in H. simpl in H. lia.
  - apply (f_equal length) in H. unfold mount_bytes, cstring in H. simpl in H.
    rewrite !length_app in H. simpl in H. lia.
  - apply Forall_cons in Hl' as [Hm' Hl'].
    change (mount_bytes m ++ (l ≫= mount_bytes) = mount_bytes m' ++ (l' ≫= mount_bytes)) in H.
    apply mount_bytes_split in H as [Hi Hr]; [|done..]. rewrite !fmap_cons. f_equal; auto.
Qed.

Lemma by_name_permutation l : by_name l ≡ₚ l.
Proof. apply stable_sort_permutation. Qed.

Lemma by_name_canonical l l' :
  NoDup (name <$> l) -> l ≡ₚ l' -> by_name l = by_name l'.
Proof.
  intros Hnd Hp. apply (sorted_permutation_eq (fun a b => str_le (name a) (name b))).
  - intros x y Hx Hy H1 H2. rewrite by_name_permutation in Hx, Hy.
    pose proof (str_le_antisym _ _ H1 H2) as Hn.
    apply list_elem_of_lookup in Hx as [i Hi], Hy as [j Hj].
    assert (i = j) as ->; [|congruence].
    eapply NoDup_lookup; [exact Hnd| |]; rewrite list_lookup_fmap; [by rewrite Hi|].
    rewrite Hj. simpl. by rewrite Hn.
  - apply stable_sort_sorted; [intros; by apply bytes_le_total|intros ? ? ?; apply bytes_le_trans].
  - apply stable_sort_sorted; [intros; by apply bytes_le_total|intros ? ? ?; apply bytes_le_trans].
  - by rewrite !by_name_permutation.
Qed.

(** ** Theorems *)

(** The cluster hash identifies the configuration peers must share, and nothing else: with
    distinct mount names it does not depend on the order the mounts are listed in, nor on mount
    points and credentials; and two configurations with equal hash preimages agree on chunk size,
    transport kind and, sorted by name, on name, account, container and prefix of every mount. *)
Lemma cluster_hash_canonical sha256 c c' :
  (NoDup (name <$> mounts c) -> chunk_size (cache c) = chunk_size (cache c') ->
   kind (transport c) = kind (transport c') -> mounts c ≡ₚ mounts c' ->
   cluster_hash sha256 c = cluster_hash sha256 c') /\
  (is_u64 (chunk_size (cache c)) -> is_u64 (chunk_size (cache c')) ->
   nul_free (kind (transport c)) -> nul_free (kind (transport c')) ->
   Forall mount_nul_free (mounts c) -> Forall mount_nul_free (mounts c') ->
   hash_preimage c = hash_preimage c' ->
   chunk_size (cache c) = chunk_size (cache c') /\ kind (transport c) = kind (transport c') /\
   identity <$> by_name (mounts c) = identity <$> by_name (mounts c')).
Proof.
  split.
  - intros Hnd Hc Hk Hm. unfold cluster_hash, hash_preimage. rewrite Hc, Hk.
    by rewrite (by_name_canonical _ _ Hnd Hm).
  - intros Hc Hc' Hk Hk' Hm Hm' H. unfold hash_preimage in H.
    apply app_inj_1 in H as [Hs Hr]; [|by rewrite !length_le_bytes].
    apply cstring_split in Hr as [Hkk Hms]; [|done..].
    apply (f_equal le_val) in Hs. change (256 ^ Z.of_nat 8) with u64_mod in *.
    rewrite !le_val_bytes_small in Hs by (change (256 ^ Z.of_nat 8) with u64_mod; u64_lia).
    split_and!; [done..|]. apply mounts_bytes_inj; [by rewrite by_name_permutation..|done].
Qed.

(** What a usable configuration satisfies. *)
Record usable (c : Config) : Prop := {
  us_chunk : 0 < chunk_size (cache c);
  us_pages : (4096 | chunk_size (cache c));
  us_idle : pool_max_idle_per_host (azure c) <> 0;
  us_workers : workers (azure c) <> 0;
  us_threads : main_worker_threads (azure c) <> 0;
  us_block : (chunk_size (cache c) | block_size (azure c));
  us_mounts : mounts c <> [];
  us_named m : m ∈ mounts c -> name m <> EmptyString /\ account m <> EmptyString /\ container m <> EmptyString;
  us_kind : kind (transport c) = "tcp"%string \/ kind (transport c) = "rdma"%string
}.

Lemma validate_usable debug_str c :
  0 <= chunk_size (cache c) -> 0 <= block_size (azure c) -> validate debug_str c = Ok tt -> usable c.
Proof.
  intros Hc Hb. unfold validate. intros H.
  destruct (_ || _) eqn:E1 in H; [done|]. apply orb_false_iff in E1 as [E1 E1'].
  apply Z.eqb_neq in E1. apply negb_false_iff, multiple_iff in E1'; [|lia].
  destruct (Z.eqb_spec (pool_max_idle_per_host (azure c)) 0); [done|].
  destruct (Z.eqb_spec (workers (azure c)) 0); [done|].
  destruct (Z.eqb_spec (main_worker_threads (azure c)) 0); [done|].
  destruct (_ && (_ <? _)) eqn:E2 in H; [done|].
  destruct (_ && negb _) eqn:E3 in H; [done|].
  destruct (mounts c) as [|m0 ms] eqn:Em; [done|].
  destruct (validate_mounts (m0 :: ms)) as [[]|] eqn:Ev; [|done]. simpl rbind in H.
  apply validate_mounts_ok in Ev. rewrite Forall_forall in Ev.
  split; try done; try lia.
  - destruct (Z.eqb_spec (block_size (azure c)) 0) as [->|]; [apply Z.divide_0_r|].
    apply negb_false_iff, multiple_iff in E3; [done|lia].
  - congruence.
  - intros m Hm. rewrite Em in Hm. by apply mount_ok_iff, Ev.
  - destruct (String.eqb_spec (kind (transport c)) "tcp"); [by left|].
    destruct (String.eqb_spec (kind (transport c)) "rdma"); [by right|done].
Qed.

(** The constraints in the order they are checked in, each with the message of its violation. *)
Definition requirements (debug_str : string -> string) (c : Config) : list (Prop * string) :=
  let chunk := chunk_size (cache c) in
  let block := block_size (azure c) in
  [(0 < chunk /\ (4096 | chunk), "cache.chunk_size must be multiple of 4096");
   (pool_max_idle_per_host (azure c) <> 0, "azure.pool_max_idle_per_host must be >= 1");
   (workers (azure c) <> 0, "azure.workers must be >= 1");
   (main_worker_threads (azure c) <> 0, "azure.main_worker_threads must be >= 1");
   (block = 0 \/ chunk <= block, "azure.block_size must be >= cache.chunk_size when set");
   (block = 0 \/ (chunk | block), "azure.block_size must be a multiple of cache.chunk_size");
   (mounts c <> [], "at least one mount required")]
  ++ ((fun m => (name m <> EmptyString /\ account m <> EmptyString /\ container m <> EmptyString,
                 "mount " +:+ name m +:+ ": name/account/container required")) <$> mounts c)
  ++ [(kind (transport c) = "tcp" \/ kind (transport c) = "rdma",
       "transport.kind must be " +:+ quoted "tcp" +:+ " or " +:+ quoted "rdma" +:+ ", got "
         +:+ debug_str (kind (transport c)))]%string.

(** The same as decisions of the code. *)
Definition checks (debug_str : string -> string) (c : Config) : list (bool * string) :=
  let chunk := chunk_size (cache c) in
  let block := block_size (azure c) in
  [(negb ((chunk =? 0) || negb (is_multiple_of chunk 4096)), "cache.chunk_size must be multiple of 4096");
   (negb (pool_max_idle_per_host (azure c) =? 0), "azure.pool_max_idle_per_host must be >= 1");
   (negb (workers (azure c) =? 0), "azure.workers must be >= 1");
   (negb (main_worker_threads (azure c) =? 0), "azure.main_worker_threads must be >= 1");
   (negb (negb (block =? 0) && (block <? chunk)), "azure.block_size must be >= cache.chunk_size when set");
   (negb (negb (block =? 0) && negb (is_multiple_of block chunk)),
    "azure.block_size must be a multiple of cache.chunk_size");
   (match mounts c with [] => false | _ => true end, "at least one mount required")]
  ++ ((fun m => (mount_ok m, "mount " +:+ name m +:+ ": name/account/container required")) <$> mounts c)
  ++ [(String.eqb (kind (transport c)) "tcp" || String.eqb (kind (transport c)) "rdma",
       "transport.kind must be " +:+ quoted "tcp" +:+ " or " +:+ quoted "rdma" +:+ ", got "
         +:+ debug_str (kind (transport c)))]%string.

Definition first_failed (l : list (bool * string)) : res unit :=
  foldr (fun (r : bool * string) k => if r.1 then k else Err (ChunkKeys.Config r.2)) (Ok tt) l.

Lemma first_failed_mounts ms rest :
  first_failed (((fun m : MountConfig => (mount_ok m, "mount " +:+ name m +:+ ": name/account/container required")) <$> ms)
                ++ rest) = (let? _ := validate_mounts ms in first_failed rest).
Proof.
  induction ms as [|m ms IH]; [done|]. cbn. unfold validate_mount. destruct (mount_ok m); [exact IH|done].
Qed.

Lemma validate_checks debug_str c : validate debug_str c = first_failed (checks debug_str c).
Proof.
  unfold validate, checks. cbv zeta. cbn [app first_failed foldr fst snd].
  repeat (match goal with |- context [if negb ?b then _ else _] => destruct b end; [done|]; cbn [negb]).
  destruct (mounts c) as [|m ms]; [done|]. cbv iota.
  change (foldr _ (Ok tt) ?l) with (first_failed l). rewrite first_failed_mounts.
  destruct (validate_mounts (m :: ms)) as [[]|]; [|done]. cbn. by destruct (_ || _).
Qed.

Lemma checks_meet debug_str c :
  0 <= chunk_size (cache c) ->
  Forall2 (fun b r => (b.1 = true <-> r.1) /\ b.2 = r.2) (checks debug_str c) (requirements debug_str c).
Proof.
  intros Hc. assert (Hm : forall a b, 0 <= b -> is_multiple_of a b = true <-> (b | a)).
  { intros a b Hb. destruct (Z.eq_dec b 0) as [->|]; [|apply multiple_iff; lia].
    unfold is_multiple_of. simpl. rewrite Z.eqb_eq. split; [intros ->; apply Z.divide_0_r|apply Z.divide_0_l]. }
  unfold checks, requirements. cbv zeta. apply Forall2_app; [|apply Forall2_app].
  - repeat (apply Forall2_cons; split; [split; [|done]|]); [..|apply Forall2_nil_2];
      cbn [fst]; rewrite ?negb_true_iff, ?andb_false_iff, ?orb_false_iff, ?negb_false_iff, ?Hm, ?Z.eqb_neq, ?Z.eqb_eq, ?Z.ltb_ge by lia;
      try tauto; try lia.
    + split; [intros [? ?]; split; [lia|done]|intros [? ?]; split; [lia|done]].
    + by destruct (mounts c).
  - apply Forall2_fmap, Forall_Forall2_diag, Forall_forall. intros m _. split; [apply mount_ok_iff|done].
  - constructor; [|constructor]. split; [|done]. cbn [fst]. by rewrite orb_true_iff, !String.eqb_eq.
Qed.

(** The first constraint of a list that does not hold. *)
Definition first_violated (l : list (Prop * string)) (msg : string) : Prop :=
  exists l1 P l2, l = l1 ++ (P, msg) :: l2 /\ Forall fst l1 /\ ~ P.

Lemma first_failed_spec l l' :
  Forall2 (fun (b : bool * string) (r : Prop * string) => (b.1 = true <-> r.1) /\ b.2 = r.2) l l' ->
  (first_failed l = Ok tt <-> Forall fst l') /\
  (forall e, first_failed l = Err e <-> exists msg, first_violated l' msg /\ e = ChunkKeys.Config msg).
Proof.
  induction 1 as [|[b m] [P m'] l l' [HP Hmsg] _ [IH1 IH2]]; simpl in *.
  { split; [by split|]. intros e. split; [done|]. by intros (msg & ([|] & P & l2 & ? & _) & _). }
  subst m'. rewrite Forall_cons. cbn [fst]. destruct b; simpl.
  - assert (HP' : P) by by apply HP. split; [rewrite IH1; tauto|]. intros e. rewrite IH2.
    apply exist_proper. intros msg. apply and_iff_compat_r. split.
    + intros (l1 & Q & l2 & -> & ? & ?). exists ((P, m) :: l1), Q, l2. by split_and!; [|constructor|].
    + intros ([|r l1] & Q & l2 & Heq & Hl & HQ); simplify_eq/=; [done|].
      apply Forall_cons in Hl as [_ Hl]. by exists l1, Q, l2.
  - assert (HP' : ~ P) by (intros ?%HP; done). split; [split; [done|tauto]|]. intros e. split.
    + intros [= <-]. exists m. split; [|done]. by exists [], P, l'.
    + intros (msg & ([|r l1] & Q & l2 & Heq & Hl & HQ) & ->); simplify_eq/=; [done|].
      apply Forall_cons in Hl as [? _]. done.
Qed.

(** C40.  Validation accepts exactly the usable configurations: a positive chunk size in whole
    4 KiB pages, at least one idle connection, worker and thread, a block size that is zero or a
    positive multiple of the chunk size, at least one mount, every mount named, and a known
    transport.  Any other configuration is refused with the message of the first of these constraints
    that it violates, in this order. *)
Theorem validate_exact debug_str c :
  0 <= chunk_size (cache c) -> 0 <= block_size (azure c) ->
  (validate debug_str c = Ok tt <-> usable c) /\
  (forall e, validate debug_str c = Err e <->
     exists msg, first_violated (requirements debug_str c) msg /\ e = ChunkKeys.Config msg).
Proof.
  intros Hc Hb. split; [|rewrite validate_checks; apply first_failed_spec, checks_meet, Hc].
  split; [by apply validate_usable|].
  intros [H1 H2 H3 H4 H5 H6 H7 H8 H9]. rewrite validate_checks.
  apply (first_failed_spec _ _ (checks_meet debug_str c Hc)). unfold requirements. cbv zeta.
  rewrite !Forall_app, !Forall_cons, Forall_fmap. split_and!; try done; [|by right|apply Forall_forall; by apply H8].
  destruct (Z.eq_dec (block_size (azure c)) 0); [by left|right]. apply Z.divide_pos_le; [lia|done].
Qed.

Definition demo_config : Config :=
  mkConfig None (mkCacheConfig "/c" 100 4096 true 0) default_azure (mkClusterConfig "b" [] None)
    (default_transport "b") "s" [mkMountConfig "m" "/mnt" "acct" "cont" EmptyString None].

Lemma validate_exact_witness : validate (fun s => s) demo_config = Ok tt.
Proof.
  apply (validate_exact (fun s => s) demo_config); [simpl; lia|simpl; lia|].
  split; simpl;
    [lia|apply Z.divide_refl|done|done|done|apply Z.divide_0_r|done| |by left].
  intros m Hm. apply list_elem_of_singleton in Hm as ->. done.
Defined.
End Conf.
