(* ===== verification/HttpApi.v ===== *)
(** * Interfaces to the HTTP libraries

    The crates [http], [url] and [reqwest] are not part of the program.  What the program relies on
    is stated as classes with the documented laws: a [HeaderMap] is known by what it iterates over,
    and a URL by its path and query.  [list_headers] and [plain_url] are instances, so that what is
    proved against the interfaces can be evaluated. *)

From S2P Require Import Prelude ChunkKeys.

Module HttpApi.
Abbreviation Bytes := (list byte).

(** A computation that may panic. *)
Inductive run (A : Type) : Type :=
| Returns (a : A)
| Panics.
Arguments Returns {A} a.
Arguments Panics {A}.

Definition run_bind {A B} (r : run A) (k : A -> run B) : run B :=
  match r with Returns a => k a | Panics => Panics end.

(** [Option::unwrap] and [Option::expect]. *)
Definition unwrap {A} (o : option A) : run A :=
  match o with Some a => Returns a | None => Panics end.

(** ** Header maps *)
Abbreviation HeaderView := (list (string * Bytes)).

Definition header_lookup (n : string) (l : HeaderView) : option Bytes :=
  snd <$> head (filter (fun r => r.1 = n) l).

Definition header_others (n : string) (l : HeaderView) : HeaderView := filter (fun r => r.1 <> n) l.

(** The characters every header value may hold. *)
Definition visible (b : byte) : bool := in_range 32 126 b.

(** Names compare without case and are iterated in lower case, in an unspecified order; an insert
    replaces the values of its name. *)
Class HeaderMap := {
  header_map : Type;
  hm_new : header_map;
  hm_insert : string -> Bytes -> header_map -> header_map;
  hm_get : string -> header_map -> option Bytes;
  hm_iter : header_map -> HeaderView;
  hv_from_str : string -> option Bytes;
  hv_to_str : Bytes -> option string;
  hm_iter_new : hm_iter hm_new = [];
  hm_iter_insert n v h :
    hm_iter (hm_insert n v h)
    ≡ₚ (to_ascii_lowercase n, v) :: header_others (to_ascii_lowercase n) (hm_iter h);
  hm_get_iter n h : hm_get n h = header_lookup (to_ascii_lowercase n) (hm_iter h);
  hv_from_visible s : forallb visible (str_bytes s) = true -> hv_from_str s = Some (str_bytes s);
  hv_from_some s v : hv_from_str s = Some v -> v = str_bytes s;
  hv_to_visible v : forallb visible v = true -> hv_to_str v = Some (bytes_str v)
}.

#[export] Program Instance list_headers : HeaderMap := {|
  header_map := HeaderView;
  hm_new := [];
  hm_insert n v h := (to_ascii_lowercase n, v) :: header_others (to_ascii_lowercase n) h;
  hm_get n h := header_lookup (to_ascii_lowercase n) h;
  hm_iter h := h;
  hv_from_str s := if forallb visible (str_bytes s) then Some (str_bytes s) else None;
  hv_to_str v := if forallb visible v then Some (bytes_str v) else None
|}.
Next Obligation. done. Qed.
Next Obligation. done. Qed.
Next Obligation. done. Qed.
Next Obligation. intros s H. simpl. by rewrite H. Qed.
Next Obligation. intros s v. simpl. by case_match; intros [= <-]. Qed.
Next Obligation. intros v H. simpl. by rewrite H. Qed.

Lemma filter_same_name n (l : HeaderView) : filter (fun r => r.1 = n) (header_others n l) = [].
Proof.
  apply filter_none, Forall_forall. intros r Hr. unfold header_others in Hr.
  by apply list_elem_of_filter in Hr as [? _].
Qed.

Lemma filter_other_name n m (l : HeaderView) :
  n <> m -> filter (fun r => r.1 = m) (header_others n l) = filter (fun r => r.1 = m) l.
Proof.
  intros Hne. unfold header_others. induction l as [|[k v] l IH]; [done|].
  rewrite (filter_cons (fun r => r.1 <> n)), (filter_cons (fun r => r.1 = m) (k, v) l).
  repeat case_decide; simpl in *; subst; rewrite ?filter_cons_True, ?filter_cons_False, IH by done;
    done.
Qed.

Section headers.
Context {H : HeaderMap}.

Lemma hm_get_new n : hm_get n hm_new = None.
Proof. rewrite hm_get_iter, hm_iter_new. done. Qed.

Lemma hm_get_insert n v h : hm_get n (hm_insert n v h) = Some v.
Proof.
  rewrite hm_get_iter. unfold header_lookup.
  assert (Hp : filter (fun r => r.1 = to_ascii_lowercase n) (hm_iter (hm_insert n v h))
               = [(to_ascii_lowercase n, v)]).
  { apply Permutation_singleton_r. rewrite hm_iter_insert, filter_cons_True by done.
    by rewrite filter_same_name. }
  by rewrite Hp.
Qed.

(** One value per name: what inserts build. *)
Definition single (h : header_map) : Prop := NoDup (fst <$> hm_iter h).

Lemma single_filter n h : single h -> (length (filter (fun r => r.1 = n) (hm_iter h)) <= 1)%nat.
Proof.
  unfold single. induction (hm_iter h) as [|[m v] l IH]; [simpl; lia|].
  rewrite fmap_cons, NoDup_cons, filter_cons. intros [Hm Hl]. case_decide as Hd; [|by apply IH].
  simpl in Hd. subst. rewrite filter_none; [simpl; lia|]. apply Forall_forall.
  intros r Hr <-. apply Hm, list_elem_of_fmap. by exists r.
Qed.

Lemma hm_get_insert_ne n m v h :
  single h -> to_ascii_lowercase n <> to_ascii_lowercase m ->
  hm_get m (hm_insert n v h) = hm_get m h.
Proof.
  intros Hs Hne. rewrite !hm_get_iter. unfold header_lookup.
  pose proof (single_filter (to_ascii_lowercase m) h Hs) as Hlen.
  assert (Hp : filter (fun r => r.1 = to_ascii_lowercase m) (hm_iter (hm_insert n v h))
               ≡ₚ filter (fun r => r.1 = to_ascii_lowercase m) (hm_iter h)).
  { rewrite hm_iter_insert, filter_cons_False by done. by rewrite filter_other_name. }
  destruct (filter _ (hm_iter h)) as [|x [|y l]]; [|  |simpl in Hlen; lia].
  - by apply Permutation_nil_r in Hp as ->.
  - by apply Permutation_singleton_r in Hp as ->.
Qed.

Lemma single_new : single hm_new.
Proof. unfold single. rewrite hm_iter_new. constructor. Qed.

Lemma single_insert n v h : single h -> single (hm_insert n v h).
Proof.
  unfold single. intros Hs. rewrite hm_iter_insert. simpl. constructor.
  - intros (r & Hr & Hin)%list_elem_of_fmap. unfold header_others in Hin.
    apply list_elem_of_filter in Hin as [? _]. congruence.
  - unfold header_others. eapply sublist_NoDup; [exact Hs|]. apply fmap_sublist, sublist_filter.
Qed.
End headers.
#[export] Hint Resolve single_new single_insert : blob.

(** ** URLs *)

(** What [Url::set_query] keeps as it is: no control character, space, quote, [#], [<] or [>]. *)
Definition query_safe (b : byte) : bool :=
  in_range 33 126 b
  && negb (in_range 34 35 b || in_range 39 39 b || in_range 60 60 b || in_range 62 62 b).

Class UrlApi := {
  url : Type;
  url_parse : string -> result string url;
  url_host : url -> string;
  url_path : url -> string;
  url_query : url -> option string;
  url_query_pairs : url -> list (string * string);
  url_set_query : option string -> url -> url;
  url_host_set q u : url_host (url_set_query q u) = url_host u;
  url_path_set q u : url_path (url_set_query q u) = url_path u;
  url_query_set q u :
    forallb query_safe (str_bytes q) = true -> url_query (url_set_query (Some q) u) = Some q
}.

(** A URL cut at its first question mark and after its host. *)
Fixpoint split_at (c : ascii) (s : string) : string * option string :=
  match s with
  | EmptyString => (EmptyString, None)
  | String a t =>
      if Ascii.eqb a c then (EmptyString, Some t)
      else let '(x, y) := split_at c t in (String a x, y)
  end.

Lemma split_at_app c a b :
  contains_char c a = false -> split_at c (a +:+ String c b) = (a, Some b).
Proof.
  induction a as [|x a IH]; [by intros _; simpl; rewrite Ascii.eqb_refl|].
  simpl. rewrite orb_false_iff. intros [Hx Ha].
  change (split_at c (String x a +:+ String c b)) with
    (if Ascii.eqb x c then (EmptyString, Some (a +:+ String c b))
     else let '(p, q) := split_at c (a +:+ String c b) in (String x p, q)).
  by rewrite Hx, IH.
Qed.

Definition plain_pair (q : string) : string * string :=
  let '(k, v) := split_at "=" q in (k, default "" v).

#[export] Program Instance plain_url : UrlApi := {|
  url := string * string * option string;
  url_parse s :=
    match strip_prefix "https://" s with
    | Some r =>
        let '(hp, q) := split_at "?" r in
        let '(h, p) := split_at slash hp in Ok (h, String slash (default "" p), q)
    | None => Err "relative URL without a base"
    end;
  url_host u := u.1.1;
  url_path u := u.1.2;
  url_query u := u.2;
  url_query_pairs u := match u.2 with Some q => [plain_pair q] | None => [] end;
  url_set_query q u := (u.1, q)
|}.
Next Obligation. done. Qed.
Next Obligation. done. Qed.
Next Obligation. done. Qed.
End HttpApi.
