(* ===== verification/Metrics.v ===== *)
(** * The metrics of a node (src/src/stats.rs, [Stats::new])

    Every metric with its name, help text and kind, the order in which they are created and
    registered, and the structures that hold them.  The prometheus crate is the class [Prometheus];
    creation and registration are unwrapped, so a metric the crate refuses ends the process. *)

From S2P Require Import Prelude ChunkKeys Config HttpApi.

Module Metrics.
Import HttpApi.

(** Buckets are in units of ten microseconds. *)
Inductive Kind : Type :=
| IntCounter
| Counter
| IntCounterVec (labels : list string)
| IntGauge
| Gauge
| Histogram (buckets : list Z).

Record Desc := mkDesc {
  name : string;
  help : string;
  kind : Kind
}.

#[export] Instance Kind_eq_dec : EqDecision Kind.
Proof. solve_decision. Defined.
#[export] Instance Desc_eq_dec : EqDecision Desc.
Proof. solve_decision. Defined.

(** ** The crate *)

(** The documented syntax of metric and label names. *)
Definition name_start (b : byte) : bool :=
  in_range 65 90 b || in_range 97 122 b || bool_decide (b = x5f).
Definition name_char (b : byte) : bool := name_start b || is_digit b.

Definition valid_label (s : string) : bool :=
  match str_bytes s with b :: l => name_start b && forallb name_char l | [] => false end.
Definition valid_name (s : string) : bool :=
  match str_bytes s with
  | b :: l => (name_start b || bool_decide (b = x3a))
              && forallb (fun b => name_char b || bool_decide (b = x3a)) l
  | [] => false
  end.

Fixpoint increasing (l : list Z) : bool :=
  match l with
  | x :: (y :: _) as t => (x <? y) && increasing t
  | _ => true
  end.

Definition valid (d : Desc) : bool :=
  valid_name (name d) && negb (Conf.str_empty (help d)) &&
  match kind d with
  | IntCounterVec ls => forallb valid_label ls && bool_decide (NoDup ls)
  | Histogram bs => increasing bs
  | _ => true
  end.

(** [create] is the constructor of a metric, [register] refuses a name it has. *)
Class Prometheus := {
  registry : Type;
  empty_registry : registry;
  gather : registry -> list Desc;
  create : Desc -> result string Desc;
  register : Desc -> registry -> result string registry;
  create_valid d : valid d = true -> create d = Ok d;
  gather_empty : gather empty_registry = [];
  register_new d r : name d ∉ name <$> gather r -> exists r', register d r = Ok r' /\ gather r' ≡ₚ d :: gather r
}.

(** ** The metrics *)
Definition mk_hist (n h : string) : Desc :=
  mkDesc n h (Histogram [10; 25; 50; 100; 200; 500; 1000; 2500; 5000; 10000; 25000; 50000; 100000]).

(** The cache. *)
Definition cache_metrics : list (string * Desc) :=
  [("cache_hits", mkDesc "blobcache_cache_hits_total" "cache hits" IntCounter);
   ("cache_misses", mkDesc "blobcache_cache_misses_total" "cache misses" IntCounter);
   ("cache_evictions", mkDesc "blobcache_cache_evictions_total" "cache evictions" IntCounter);
   ("cache_inserts", mkDesc "blobcache_cache_inserts_total" "cache inserts" IntCounter);
   ("cache_reconcile_drops", mkDesc "blobcache_cache_reconcile_drops_total"
      "entries dropped because backing file was missing on disk (would have caused stale-bloom false positives)" IntCounter);
   ("cache_bytes", mkDesc "blobcache_cache_bytes" "cache bytes in use" IntGauge)].

(** Requests to the origin. *)
Definition blob_metrics : list (string * Desc) :=
  [("blob_fetches", mkDesc "blobcache_blob_fetches_total" "blob fetches" IntCounter);
   ("blob_fetch_bytes", mkDesc "blobcache_blob_fetch_bytes_total" "blob fetched bytes" IntCounter);
   ("blob_request_status_total", mkDesc "blobcache_blob_request_status_total"
      ("final HTTP status of blob requests after retries (label: status code or " +:+ Conf.quoted "err" +:+ ")") (IntCounterVec ["status"]));
   ("blob_request_retries_total", mkDesc "blobcache_blob_request_retries_total"
      ("blob request retries by retryable condition (label: status code or " +:+ Conf.quoted "net" +:+ ")") (IntCounterVec ["status"]));
   ("blob_request_giveups_total", mkDesc "blobcache_blob_request_giveups_total"
      "blob requests that exhausted max_retries" IntCounter);
   ("blob_retry_sleep_seconds_total", mkDesc "blobcache_blob_retry_sleep_seconds_total"
      "cumulative seconds slept in exponential backoff between blob retries" Counter);
   ("blob_request_seconds", mkDesc "blobcache_blob_request_seconds"
      "wall time for one Azure blob HTTP request attempt (send + body drain)" (Histogram [500; 1000; 2500; 5000; 10000; 25000; 50000; 100000; 200000; 500000; 1000000; 3000000; 6000000]));
   ("blob_request_seconds_max", mkDesc "blobcache_blob_request_seconds_max"
      "longest observed single blob HTTP request since process start" Gauge)].

(** Where chunks came from, and reads. *)
Definition read_metrics : list (string * Desc) :=
  [("peer_fetches_ok", mkDesc "blobcache_peer_fetches_ok_total" "peer fetches ok" IntCounter);
   ("peer_fetches_miss", mkDesc "blobcache_peer_fetches_miss_total" "peer fetch misses" IntCounter);
   ("peer_fetches_err", mkDesc "blobcache_peer_fetches_err_total" "peer fetch errors" IntCounter);
   ("peer_fetch_bytes", mkDesc "blobcache_peer_fetch_bytes_total" "peer fetched bytes" IntCounter);
   ("peer_lru_hits", mkDesc "blobcache_peer_lru_hits_total"
      "in-memory peer-LRU hits (cache_on_peer_fetch=false path)" IntCounter);
   ("fuse_reads", mkDesc "blobcache_fuse_reads_total" "fuse read calls" IntCounter);
   ("fuse_read_bytes", mkDesc "blobcache_fuse_read_bytes_total" "fuse read bytes" IntCounter);
   ("singleflight_waits", mkDesc "blobcache_singleflight_waits_total"
      "fetches deduped via singleflight" IntCounter)].

(** Prefetching. *)
Definition prefetch_metrics : list (string * Desc) :=
  [("prefetch_spawned", mkDesc "blobcache_prefetch_spawned_total"
      "prefetch chunk fetches spawned by sequential detector" IntCounter);
   ("prefetch_skipped_cached", mkDesc "blobcache_prefetch_skipped_cached_total"
      "prefetch candidates skipped because already cached" IntCounter);
   ("prefetch_skipped_inflight", mkDesc "blobcache_prefetch_skipped_inflight_total"
      "prefetch candidates skipped because fetch already in flight" IntCounter);
   ("prefetch_skipped_not_origin", mkDesc "blobcache_prefetch_skipped_not_origin_total"
      "prefetch trigger gated off because prefetch_origin_only=true and the stream's recent fetches were not from blob" IntCounter);
   ("prefetch_completed_ok", mkDesc "blobcache_prefetch_completed_ok_total"
      "prefetch chunk fetches that completed successfully" IntCounter);
   ("prefetch_completed_err", mkDesc "blobcache_prefetch_completed_err_total"
      "prefetch chunk fetches that failed" IntCounter)].

(** Filters, broadcasts and stampedes. *)
Definition peer_metrics : list (string * Desc) :=
  [("peer_bloom_yes", mkDesc "blobcache_peer_bloom_yes_total"
      "fetches where at least one peer bloom indicated holder" IntCounter);
   ("peer_bloom_no_holder", mkDesc "blobcache_peer_bloom_no_holder_total"
      "fetches with peers known but no bloom-positive holder" IntCounter);
   ("peer_bloom_false_positive", mkDesc "blobcache_peer_bloom_false_positive_total"
      "bloom-positive peers that returned NotFound" IntCounter);
   ("peer_bloom_stale_drops", mkDesc "blobcache_peer_bloom_stale_drops_total"
      "remote bloom views dropped after a was_yes NotFound (forces refetch on next bloom-pull tick)" IntCounter);
   ("cache_insert_failures", mkDesc "blobcache_cache_insert_failures_total"
      "cache.insert calls that failed to persist (tmp+fsync+rename); chunk is silently absent until refetched" IntCounter);
   ("broadcast_peer_not_found", mkDesc "blobcache_broadcast_peer_not_found_total"
      "hydrate Phase B requests where the planned source peer returned NotFound" IntCounter);
   ("broadcast_blob_fallback_ok", mkDesc "blobcache_broadcast_blob_fallback_ok_total"
      "hydrate Phase B chunks recovered by falling back to Azure Blob origin after planned-peer NotFound" IntCounter);
   ("broadcast_blob_fallback_err", mkDesc "blobcache_broadcast_blob_fallback_err_total"
      "hydrate Phase B chunks that failed both planned-peer pull and blob-fallback" IntCounter);
   ("peer_bloom_pulls_total", mkDesc "blobcache_peer_bloom_pulls_total" "successful peer bloom pulls" IntCounter);
   ("peer_bloom_pull_errors_total", mkDesc "blobcache_peer_bloom_pull_errors_total"
      "failed peer bloom pulls" IntCounter);
   ("peer_stampede_leader", mkDesc "blobcache_peer_stampede_leader_total"
      "fetches where this node is the HRW-top stampede leader" IntCounter);
   ("peer_stampede_follower", mkDesc "blobcache_peer_stampede_follower_total"
      "fetches where this node routes to HRW-top with wait_ms as a follower" IntCounter);
   ("peer_stampede_follower_ok", mkDesc "blobcache_peer_stampede_follower_ok_total"
      "stampede follower fetches that returned data within wait_ms" IntCounter);
   ("peer_stampede_follower_timeout", mkDesc "blobcache_peer_stampede_follower_timeout_total"
      "stampede follower fetches that fell through to blob (peer didn't deliver in time)" IntCounter)].

(** Requests of peers; the last one with RDMA only. *)
Definition served_metrics (ucx : bool) : list (string * Desc) :=
  [("chunk_requests", mkDesc "blobcache_peer_chunk_requests_total" "chunk requests served" IntCounter);
   ("chunk_bytes_served", mkDesc "blobcache_peer_chunk_bytes_served_total" "chunk bytes served" IntCounter)]
  ++ (if ucx then [("rdma_non_rdma_lane", mkDesc "blobcache_rdma_non_rdma_lane_total"
      "rdma endpoints that resolved to non-RDMA lanes" IntCounter)] else []).

(** Membership. *)
Definition cluster_metrics : list (string * Desc) :=
  [("gossip_rounds", mkDesc "blobcache_cluster_gossip_rounds_total" "gossip rounds" IntCounter);
   ("joins", mkDesc "blobcache_cluster_joins_total" "peer joins observed" IntCounter);
   ("failures", mkDesc "blobcache_cluster_failures_total" "peer failures observed" IntCounter);
   ("config_mismatches", mkDesc "blobcache_cluster_config_mismatches_total" "config hash mismatches" IntCounter);
   ("members_alive", mkDesc "blobcache_cluster_members_alive" "alive members" IntGauge);
   ("members_dead", mkDesc "blobcache_cluster_members_dead" "dead members" IntGauge)].

(** Work in flight. *)
Definition gauges : list (string * Desc) :=
  [("inflight_writes", mkDesc "blobcache_inflight_writes" "cache.insert tasks queued or in flight" IntGauge);
   ("singleflight_inflight", mkDesc "blobcache_singleflight_inflight"
      "distinct chunks with an active singleflight leader (followers excluded)" IntGauge);
   ("chunk_permits_in_use", mkDesc "blobcache_chunk_permits_in_use"
      "chunk_concurrency semaphore permits currently held" IntGauge)].

(** Durations. *)
Definition timings : list (string * Desc) :=
  [("chunk_total_seconds", mk_hist "blobcache_chunk_fetch_total_seconds"
      "wall time in fetch_chunk()");
   ("chunk_cache_get_seconds", mk_hist "blobcache_chunk_cache_get_seconds"
      "wall time in cache.try_get spawn_blocking");
   ("chunk_peer_fetch_seconds", mk_hist "blobcache_chunk_peer_fetch_seconds"
      "wall time in peers.fetch_chunk await");
   ("chunk_cache_insert_seconds", mk_hist "blobcache_chunk_cache_insert_seconds"
      "wall time in cache.insert spawn_blocking");
   ("fuse_read_seconds", mk_hist "blobcache_fuse_read_seconds"
      "wall time in FUSE read callback");
   ("server_handler_seconds", mk_hist "blobcache_peer_server_handler_seconds"
      "wall time per inbound peer chunk request handler");
   ("server_cache_get_seconds", mk_hist "blobcache_peer_server_cache_get_seconds"
      "wall time in server-side cache.try_get for peer chunk requests");
   ("server_send_seconds", mk_hist "blobcache_peer_server_send_seconds"
      "wall time sending response bytes to peer");
   ("bloom_rebuild_seconds", mkDesc "blobcache_bloom_rebuild_seconds"
      "wall time of one full bloom rebuild (reconcile + rehash); rebuild_secs cadence" (Histogram [1000; 2500; 5000; 10000; 25000; 50000; 100000; 250000; 500000; 1000000; 2500000; 6000000; 12000000]))].

(** All of them, in the order of their creation. *)
Definition created (ucx : bool) : list (string * Desc) :=
  cache_metrics ++ blob_metrics ++ read_metrics ++ prefetch_metrics ++ peer_metrics ++ served_metrics ucx
  ++ cluster_metrics ++ gauges ++ timings.

(** The variables in the order of their registration. *)
Definition registered (ucx : bool) : list string :=
  ["cache_hits"; "cache_misses"; "cache_evictions"; "cache_inserts"; "cache_reconcile_drops"; "blob_fetches";
   "blob_fetch_bytes"; "blob_request_giveups_total"; "peer_fetches_ok"; "peer_fetches_miss";
   "peer_fetches_err"; "peer_fetch_bytes"; "peer_lru_hits"; "fuse_reads"; "fuse_read_bytes";
   "singleflight_waits"; "prefetch_spawned"; "prefetch_skipped_cached"; "prefetch_skipped_inflight";
   "prefetch_skipped_not_origin"; "prefetch_completed_ok"; "prefetch_completed_err"; "peer_bloom_yes";
   "peer_bloom_no_holder"; "peer_bloom_false_positive"; "peer_bloom_stale_drops"; "cache_insert_failures";
   "broadcast_peer_not_found"; "broadcast_blob_fallback_ok"; "broadcast_blob_fallback_err";
   "peer_bloom_pulls_total"; "peer_bloom_pull_errors_total"; "peer_stampede_leader"; "peer_stampede_follower";
   "peer_stampede_follower_ok"; "peer_stampede_follower_timeout"; "chunk_requests"; "chunk_bytes_served"]
  ++ (if ucx then ["rdma_non_rdma_lane"] else [])
  ++ ["gossip_rounds"; "joins"; "failures"; "config_mismatches"; "blob_request_status_total";
   "blob_request_retries_total"; "blob_retry_sleep_seconds_total"; "blob_request_seconds";
   "blob_request_seconds_max"; "cache_bytes"; "members_alive"; "members_dead"; "inflight_writes";
   "singleflight_inflight"; "chunk_permits_in_use"; "chunk_total_seconds"; "chunk_cache_get_seconds";
   "chunk_peer_fetch_seconds"; "chunk_cache_insert_seconds"; "fuse_read_seconds"; "server_handler_seconds";
   "server_cache_get_seconds"; "server_send_seconds"; "bloom_rebuild_seconds"].

(** The fields of [Stats], [PeerStats] and [ClusterStats] that hold a metric. *)
Definition fields (ucx : bool) : list string :=
  ["cache_hits"; "cache_misses"; "cache_evictions"; "cache_inserts"; "cache_reconcile_drops"; "cache_bytes";
   "blob_fetches"; "blob_fetch_bytes"; "blob_request_status_total"; "blob_request_retries_total";
   "blob_request_giveups_total"; "blob_retry_sleep_seconds_total"; "blob_request_seconds";
   "blob_request_seconds_max"; "peer_fetches_ok"; "peer_fetches_miss"; "peer_fetches_err"; "peer_fetch_bytes";
   "peer_lru_hits"; "fuse_reads"; "fuse_read_bytes"; "singleflight_waits"; "prefetch_spawned";
   "prefetch_skipped_cached"; "prefetch_skipped_inflight"; "prefetch_skipped_not_origin";
   "prefetch_completed_ok"; "prefetch_completed_err"; "peer_bloom_yes"; "peer_bloom_no_holder";
   "peer_bloom_false_positive"; "peer_bloom_stale_drops"; "cache_insert_failures"; "broadcast_peer_not_found";
   "broadcast_blob_fallback_ok"; "broadcast_blob_fallback_err"; "peer_bloom_pulls_total";
   "peer_bloom_pull_errors_total"; "peer_stampede_leader"; "peer_stampede_follower";
   "peer_stampede_follower_ok"; "peer_stampede_follower_timeout"; "members_alive"; "members_dead";
   "inflight_writes"; "singleflight_inflight"; "chunk_permits_in_use"; "chunk_total_seconds";
   "chunk_cache_get_seconds"; "chunk_peer_fetch_seconds"; "chunk_cache_insert_seconds"; "fuse_read_seconds";
   "bloom_rebuild_seconds"]
  ++ ["chunk_requests"; "chunk_bytes_served"; "server_handler_seconds"; "server_cache_get_seconds";
   "server_send_seconds"]
  ++ (if ucx then ["rdma_non_rdma_lane"] else [])
  ++ ["gossip_rounds"; "joins"; "failures"; "config_mismatches"].

Section stats.
Context {P : Prometheus}.

Definition unwrapped {A} (r : result string A) : run A := match r with Ok a => Returns a | Err _ => Panics end.

Fixpoint create_all (l : list (string * Desc)) (vars : gmap string Desc) : run (gmap string Desc) :=
  match l with
  | [] => Returns vars
  | (v, d) :: l => run_bind (unwrapped (create d)) (fun d => create_all l (<[v := d]> vars))
  end.

(** A variable that does not exist would not compile. *)
Fixpoint register_all (l : list string) (vars : gmap string Desc) (r : registry) : run registry :=
  match l with
  | [] => Returns r
  | v :: l =>
      match vars !! v with
      | Some d => run_bind (unwrapped (register d r)) (register_all l vars)
      | None => register_all l vars r
      end
  end.

Record Stats := mkStats {
  reg : registry;
  metrics : gmap string Desc
}.

Definition new (ucx : bool) : run Stats :=
  run_bind (create_all (created ucx) ∅) (fun vars =>
  run_bind (register_all (registered ucx) vars empty_registry) (fun r =>
  Returns (mkStats r (filter (fun x => x.1 ∈ fields ucx) vars)))).

(** ** Lemmas *)
Lemma run_bind_returns {A B} (a : A) (k : A -> run B) : run_bind (Returns a) k = k a.
Proof. done. Qed.

Definition bind_all (l : list (string * Desc)) (vars : gmap string Desc) : gmap string Desc :=
  foldl (fun m x => <[x.1 := x.2]> m) vars l.

Lemma create_all_ok l vars :
  forallb valid l.*2 = true -> create_all l vars = Returns (bind_all l vars).
Proof.
  revert vars. induction l as [|[v d] l IH]; intros vars; [done|]. simpl.
  intros [Hd Hl]%andb_true_iff. rewrite (create_valid d Hd). simpl. by apply IH.
Qed.

Lemma register_all_ok l vars r :
  NoDup (name <$> omap (vars !!.) l) -> (forall n, n ∈ name <$> omap (vars !!.) l -> n ∉ name <$> gather r) ->
  exists r', register_all l vars r = Returns r' /\ gather r' ≡ₚ omap (vars !!.) l ++ gather r.
Proof.
  revert r. induction l as [|v l IH]; intros r Hnd Hdis; [by exists r|]. simpl in *.
  destruct (vars !! v) as [d|]; [|by apply IH]. simpl in Hnd, Hdis. apply NoDup_cons in Hnd as [Hd Hnd].
  destruct (register_new d r) as (r1 & Hr & Hg); [apply Hdis; by left|]. rewrite Hr. simpl.
  destruct (IH r1) as (r2 & -> & Hg2); [done| |exists r2; split; [done|]].
  - intros n Hn. rewrite Hg. simpl. rewrite not_elem_of_cons. split; [by intros ->|apply Hdis; by right].
  - rewrite Hg2, Hg. by rewrite Permutation_middle.
Qed.

Lemma bind_all_None l vars v : bind_all l vars !! v = None -> v ∉ l.*1 /\ vars !! v = None.
Proof.
  revert vars. induction l as [|[w d] l IH]; intros vars; simpl; [by split; [apply not_elem_of_nil|]|].
  intros [Hl Hv]%IH. simpl in Hv. apply lookup_insert_None in Hv as [Hv Hne]. split; [|done].
  apply not_elem_of_cons. by split; [congruence|].
Qed.

(** What the tables have to satisfy, decided by evaluation. *)
Definition tables_ok (ucx : bool) : bool :=
  forallb valid (created ucx).*2 &&
  bool_decide (NoDup (created ucx).*1) &&
  bool_decide (NoDup (name <$> (created ucx).*2)) &&
  bool_decide (omap (bind_all (created ucx) ∅ !!.) (registered ucx) ≡ₚ (created ucx).*2) &&
  bool_decide (fields ucx ≡ₚ (created ucx).*1).

Lemma tables_checked ucx : tables_ok ucx = true.
Proof. destruct ucx; vm_compute; reflexivity. Qed.
#[local] Opaque created registered fields.

(** ** Theorem *)

(** C39.  A node has all its metrics: [Stats::new] does not panic, with or without RDMA; every metric it
    creates is registered, none twice, and no two under one name; and every field of the three
    structures holds one of them. *)
Theorem metrics_complete ucx :
  exists s, new ucx = Returns s /\
    gather (reg s) ≡ₚ (created ucx).*2 /\ NoDup (name <$> gather (reg s)) /\
    (forall f, f ∈ fields ucx -> is_Some (metrics s !! f)).
Proof.
  pose proof (tables_checked ucx) as Ht. unfold tables_ok in Ht.
  rewrite !andb_true_iff in Ht. destruct Ht as [[[[Hv Hnf] Hnn] Hreg] Hf].
  apply bool_decide_eq_true in Hnf, Hnn, Hreg, Hf. unfold new. rewrite create_all_ok, run_bind_returns by done.
  destruct (register_all_ok (registered ucx) (bind_all (created ucx) ∅) empty_registry) as (r & Hr & Hg).
  - by rewrite Hreg.
  - intros n _. rewrite gather_empty. apply not_elem_of_nil.
  - rewrite Hr, run_bind_returns. eexists. split; [done|]. cbn [reg metrics]. rewrite gather_empty, app_nil_r, Hreg in Hg.
    split_and!; [done|by rewrite Hg|]. intros f Hin. rewrite map_lookup_filter.
    destruct (bind_all (created ucx) ∅ !! f) as [d|] eqn:E.
    + exists d. simpl. by rewrite option_guard_True.
    + exfalso. rewrite Hf in Hin. by apply bind_all_None in E as [? _].
Qed.
End stats.

(** The crate as a list. *)
#[export] Program Instance list_registry : Prometheus := {|
  registry := list Desc;
  empty_registry := [];
  gather r := r;
  create d := if valid d then Ok d else Err "invalid metric";
  register d r := if decide (name d ∈ name <$> r) then Err "duplicate" else Ok (d :: r)
|}.
Next Obligation. intros d Hd. simpl. by rewrite Hd. Qed.
Next Obligation. done. Qed.
Next Obligation. intros d r Hd. simpl. rewrite decide_False by done. eauto. Qed.

Lemma metrics_complete_witness :
  exists s, new true = Returns s /\ gather (reg s) ≡ₚ (created true).*2.
Proof. destruct (metrics_complete true) as (s & Hs & Hg & _). exists s. split; [exact Hs|exact Hg]. Defined.
End Metrics.
