(* ===== verification/Auth.v ===== *)
(** * Credentials of the blob service (src/src/auth/)

    Module [Auth]: where tokens come from (workload identity, the instance metadata service), the
    cached bearer token with its serialized refresh, how a mount's credential is resolved, SAS
    tokens and shared-key signatures.  The environment, files, HTTP, JSON, base64 and HMAC are
    parameters.  [token] is one call left alone; [step] interleaves the critical sections of any
    number of calls, cancellations and invalidations. *)

From S2P Require Import Prelude ChunkKeys HttpApi.

Module Auth.
Import HttpApi.

(** ** Token sources (imds.rs) *)
Record WorkloadTokenResponse := mkWorkloadTokenResponse {
  w_access_token : string;
  w_expires_in : option Z
}.

Record ImdsTokenResponse := mkImdsTokenResponse {
  i_access_token : string;
  i_expires_on : option string;
  i_expires_in : option string
}.

Definition DEFAULT_TTL_SECS : Z := 3600.

(** A token and the Unix second it expires at. *)
Abbreviation Issued := (string * Z)%type.

(** A blocking HTTP exchange: a transport error, or a status with a body that may not arrive. *)
Abbreviation TextReply := (result string (Z * result string string)).

(** What the token sources meet outside the process; [now_unix] is the clock after the exchange. *)
Record Identity := mkIdentity {
  env_var : string -> option string;
  read_to_string : string -> result string string;
  http_client : result string unit;
  post_form : string -> list (string * string) -> TextReply;
  get_metadata : string -> TextReply;
  now_unix : Z;
  workload_json : string -> result string WorkloadTokenResponse;
  imds_json : string -> result string ImdsTokenResponse;
  status_text : Z -> string
}.

Definition IMDS_ENDPOINT : string := "http://169.254.169.254/metadata/identity/oauth2/token".
Definition IMDS_API_VERSION : string := "2018-02-01".
Definition STORAGE_RESOURCE : string := "https://storage.azure.com/".

Section sources.
Context (W : Identity).

Definition auth_err (what : string) (e : string) : BcError := Auth (what +:+ e).

Definition workload_url (authority tenant_id : string) : string :=
  trim_end_matches slash authority +:+ "/" +:+ tenant_id +:+ "/oauth2/v2.0/token".

Definition workload_params (client_id assertion : string) : list (string * string) :=
  [("client_id", client_id);
   ("scope", "https://storage.azure.com/.default");
   ("grant_type", "client_credentials");
   ("client_assertion_type", "urn:ietf:params:oauth:client-assertion-type:jwt-bearer");
   ("client_assertion", assertion)].

Definition get_storage_token_workload : res (option Issued) :=
  match env_var W "AZURE_CLIENT_ID", env_var W "AZURE_TENANT_ID",
        env_var W "AZURE_FEDERATED_TOKEN_FILE" with
  | Some client_id, Some tenant_id, Some token_file =>
      let authority := default "https://login.microsoftonline.com/" (env_var W "AZURE_AUTHORITY_HOST") in
      let? assertion := map_err (auth_err ("read federated token " +:+ token_file +:+ ": "))
                          (read_to_string W token_file) in
      let? _ := map_err (auth_err "http client: ") (http_client W) in
      let? (status, text) :=
        map_err (auth_err "workload token exchange: ")
          (post_form W (workload_url authority tenant_id) (workload_params client_id (trim assertion))) in
      let? body := map_err (auth_err "read body: ") text in
      if negb (is_success status)
      then Err (Auth ("workload token HTTP " +:+ status_text W status +:+ ": " +:+ body))
      else
        let? parsed := map_err (fun e => Auth ("parse: " +:+ e +:+ " body=" +:+ body))
                         (workload_json W body) in
        Ok (Some (w_access_token parsed,
                  wadd64 (now_unix W) (default DEFAULT_TTL_SECS (w_expires_in parsed))))
  | _, _, _ => Ok None
  end.

Definition imds_url : string :=
  IMDS_ENDPOINT +:+ "?api-version=" +:+ IMDS_API_VERSION +:+ "&resource=" +:+ STORAGE_RESOURCE
  +:+ match env_var W "AZURE_CLIENT_ID", env_var W "AZURE_MSI_RESOURCE_ID" with
      | Some cid, _ => "&client_id=" +:+ cid
      | None, Some rid => "&msi_res_id=" +:+ rid
      | None, None => ""
      end.

(** The refusals that mean the machine has no identity to offer. *)
Definition not_applicable (status : Z) (body : string) : bool :=
  (status =? 404)
  || ((status =? 400)
      && (str_contains "Identity not found" body || str_contains "No managed identity" body
          || str_contains "identity_not_found" body)).

Definition imds_expiry (p : ImdsTokenResponse) : Z :=
  match i_expires_on p ≫= parse_u64 with
  | Some t => t
  | None =>
      match i_expires_in p ≫= parse_u64 with
      | Some secs => wadd64 (now_unix W) secs
      | None => wadd64 (now_unix W) DEFAULT_TTL_SECS
      end
  end.

Definition get_storage_token_imds : res (option Issued) :=
  let? _ := map_err (auth_err "http client: ") (http_client W) in
  match get_metadata W imds_url with
  | Err _ => Ok None
  | Ok (status, text) =>
      let? body := map_err (auth_err "read body: ") text in
      if negb (is_success status) then
        if str_contains "Multiple user assigned identities" body
        then Err (Auth "IMDS: multiple user-assigned identities; set AZURE_CLIENT_ID")
        else if not_applicable status body then Ok None
        else Err (Auth ("IMDS HTTP " +:+ status_text W status +:+ ": " +:+ body))
      else
        let? parsed := map_err (fun e => Auth ("parse: " +:+ e +:+ " body=" +:+ body))
                         (imds_json W body) in
        Ok (Some (i_access_token parsed, imds_expiry parsed))
  end.
End sources.

(** ** The cached bearer token (mod.rs) *)
Definition REFRESH_SKEW_SECS : Z := 300.

Inductive BearerKind : Type := Workload | Imds.

(** [cached] sits behind a mutex held only to read or write it. *)
Record BearerSource := mkBearerSource {
  kind : BearerKind;
  cached : option Issued
}.

Definition new (k : BearerKind) (initial : Issued) : BearerSource := mkBearerSource k (Some initial).

Definition set_cached (c : option Issued) (s : BearerSource) : BearerSource := mkBearerSource (kind s) c.

(** The test of the fast path and of the double check. *)
Definition usable (now : Z) (c : option Issued) : option string :=
  match c with
  | Some (t, exp) => if wadd64 now REFRESH_SKEW_SECS <? exp then Some t else None
  | None => None
  end.

(** The call on the blocking pool. *)
Definition fetch_token (W : Identity) (k : BearerKind) : res (option Issued) :=
  match k with
  | Workload => get_storage_token_workload W
  | Imds => get_storage_token_imds W
  end.

(** What the winner of the lock does with it; the outer error is that of the join. *)
Definition finish_refresh (fetched : result string (res (option Issued))) (s : BearerSource)
    : BearerSource * res string :=
  match fetched with
  | Err e => (s, Err (Auth ("token refresh join: " +:+ e)))
  | Ok (Err e) => (s, Err e)
  | Ok (Ok None) => (s, Err (Auth "token source no longer available"))
  | Ok (Ok (Some new)) => (set_cached (Some new) s, Ok (fst new))
  end.

(** The part of [token] under the refresh lock. *)
Definition under_lock (now : Z) (fetched : result string (res (option Issued))) (s : BearerSource)
    : BearerSource * res string :=
  match usable now (cached s) with
  | Some t => (s, Ok t)
  | None => finish_refresh fetched s
  end.

(** A call that meets no other. *)
Definition token (now : Z) (fetched : result string (res (option Issued))) (s : BearerSource)
    : BearerSource * res string :=
  match usable now (cached s) with
  | Some t => (s, Ok t)
  | None => under_lock now fetched s
  end.

Definition invalidate (s : BearerSource) : BearerSource := set_cached None s.

(** ** Interleaved calls *)

(** Where a call to [token] is; [now] is the clock it read first.  A call whose future is dropped
    before it returned stays [Dropped]. *)
Inductive Phase : Type :=
| Waiting (now : Z)
| Locked (now : Z)
| Refreshing (now : Z)
| Finished (now : Z) (r : res string)
| Dropped (now : Z).

(** [running] are the fetches on the blocking pool, by the call that spawned them: dropping the
    call detaches its fetch, which runs to its end.  [issued] lists every token that was ever in
    the cache with the call that fetched it. *)
Record Shared := mkShared {
  source : BearerSource;
  refresh_lock : option nat;
  calls : gmap nat Phase;
  running : gset nat;
  issued : list (option nat * Issued)
}.

Inductive Event : Type :=
| Call (i : nat) (now : Z)
| Acquire (i : nat)
| DoubleCheck (i : nat)
| Refreshed (i : nat) (fetched : result string (res (option Issued)))
| Cancelled (i : nat)
| Detached (i : nat) (fetched : result string (res (option Issued)))
| Invalidate.

Definition start (k : BearerKind) (initial : Issued) : Shared :=
  mkShared (new k initial) None ∅ ∅ [(None, initial)].

Definition set_call (i : nat) (p : Phase) (s : Shared) : Shared :=
  mkShared (source s) (refresh_lock s) (<[i := p]> (calls s)) (running s) (issued s).
Definition set_lock (l : option nat) (s : Shared) : Shared :=
  mkShared (source s) l (calls s) (running s) (issued s).
Definition set_running (r : gset nat) (s : Shared) : Shared :=
  mkShared (source s) (refresh_lock s) (calls s) r (issued s).

(** The refresher [i] stores what it fetched. *)
Definition store (i : nat) (fetched : result string (res (option Issued))) (s : Shared) : Shared :=
  mkShared (finish_refresh fetched (source s)).1 (refresh_lock s) (calls s) (running s ∖ {[i]})
    (match fetched with Ok (Ok (Some new)) => [(Some i, new)] | _ => [] end ++ issued s).

Definition call_now (p : Phase) : Z :=
  match p with Waiting n | Locked n | Refreshing n | Finished n _ | Dropped n => n end.

(** A call that can still be dropped: its future has not returned. *)
Definition unfinished (p : Phase) : bool :=
  match p with Waiting _ | Locked _ | Refreshing _ => true | Finished _ _ | Dropped _ => false end.

(** Each constructor is one critical section, a future that is dropped, or a fetch that ends with
    nobody waiting for it.  Dropping a future releases the lock it holds and leaves its fetch
    running; what a detached fetch brings is thrown away. *)
Inductive step : Event -> Shared -> Shared -> Prop :=
| step_fast i now t s :
    calls s !! i = None -> usable now (cached (source s)) = Some t ->
    step (Call i now) s (set_call i (Finished now (Ok t)) s)
| step_slow i now s :
    calls s !! i = None -> usable now (cached (source s)) = None ->
    step (Call i now) s (set_call i (Waiting now) s)
| step_acquire i now s :
    calls s !! i = Some (Waiting now) -> refresh_lock s = None ->
    step (Acquire i) s (set_lock (Some i) (set_call i (Locked now) s))
| step_hit i now t s :
    calls s !! i = Some (Locked now) -> usable now (cached (source s)) = Some t ->
    step (DoubleCheck i) s (set_lock None (set_call i (Finished now (Ok t)) s))
| step_miss i now s :
    calls s !! i = Some (Locked now) -> usable now (cached (source s)) = None ->
    step (DoubleCheck i) s (set_running ({[i]} ∪ running s) (set_call i (Refreshing now) s))
| step_refreshed i now fetched s :
    calls s !! i = Some (Refreshing now) ->
    step (Refreshed i fetched) s
      (set_lock None (set_call i (Finished now (finish_refresh fetched (source s)).2)
         (store i fetched s)))
| step_cancelled i p s :
    calls s !! i = Some p -> unfinished p = true ->
    step (Cancelled i) s
      (set_lock (if decide (refresh_lock s = Some i) then None else refresh_lock s)
         (set_call i (Dropped (call_now p)) s))
| step_detached i now fetched s :
    calls s !! i = Some (Dropped now) -> i ∈ running s ->
    step (Detached i fetched) s (set_running (running s ∖ {[i]}) s)
| step_invalidate s :
    step Invalidate s
      (mkShared (invalidate (source s)) (refresh_lock s) (calls s) (running s) (issued s)).

Inductive steps : list Event -> Shared -> Shared -> Prop :=
| steps_nil s : steps [] s s
| steps_snoc es e s s' s'' : steps es s s' -> step e s' s'' -> steps (es ++ [e]) s s''.

(** ** Resolution of a mount's credential *)

(** [Bearer i] is a shared pointer to the i-th source. *)
Inductive Credential : Type :=
| SharedKey (account key : string)
| Sas (token : string)
| Bearer (src : nat)
| Anonymous.

(** The process-wide ambient credential and the sources allocated so far. *)
Record Ambient := mkAmbient {
  guard : option Credential;
  sources : list BearerSource
}.

Definition from_env (W : Identity) : res (option Credential) :=
  match env_var W "AZURE_STORAGE_ACCOUNT", env_var W "AZURE_STORAGE_KEY" with
  | Some account, Some key => Ok (Some (SharedKey account key))
  | _, _ =>
      match env_var W "AZURE_STORAGE_SAS_TOKEN" with
      | Some sas => Ok (Some (Sas sas))
      | None => Ok None
      end
  end.

(** A new source behind a new shared pointer, remembered as the ambient credential. *)
Definition adopt (k : BearerKind) (initial : Issued) (a : Ambient) : Ambient * Credential :=
  let c := Bearer (length (sources a)) in
  (mkAmbient (Some c) (sources a ++ [new k initial]), c).

Definition resolve_ambient (W : Identity) (a : Ambient) : Ambient * res Credential :=
  match get_storage_token_workload W with
  | Err e => (a, Err e)
  | Ok (Some initial) => let '(a, c) := adopt Workload initial a in (a, Ok c)
  | Ok None =>
      match get_storage_token_imds W with
      | Err e => (a, Err e)
      | Ok (Some initial) => let '(a, c) := adopt Imds initial a in (a, Ok c)
      | Ok None => (a, Ok Anonymous)
      end
  end.

Definition resolve (W : Identity) (sas_token : option string) (a : Ambient)
    : Ambient * res Credential :=
  match sas_token with
  | Some sas => (a, Ok (Sas sas))
  | None =>
      match from_env W with
      | Err e => (a, Err e)
      | Ok (Some c) => (a, Ok c)
      | Ok None =>
          match guard a with
          | Some c => (a, Ok c)
          | None => resolve_ambient W a
          end
      end
  end.

(** ** SAS tokens (sas.rs) *)
Definition append_sas_token {U : UrlApi} (u : url) (token : string) : url :=
  let token := default token (strip_prefix "?" token) in
  let existing := default "" (url_query u) in
  if String.eqb existing "" then url_set_query (Some token) u
  else url_set_query (Some (existing +:+ "&" +:+ token)) u.

(** ** Shared-key signatures (shared_key.rs) *)
Definition newline : string := String (Ascii.ascii_of_nat 10) EmptyString.

Section signing.
Context {H : HeaderMap} {U : UrlApi}.
Context (to_lowercase : string -> string).
Context (b64_decode : string -> option Bytes) (b64_encode : Bytes -> string).
Context (hmac_sha256 : Bytes -> Bytes -> Bytes).

Definition get_header (h : header_map) (name : string) : string :=
  default "" (hm_get name h ≫= hv_to_str).

Definition canonical_entry (r : string * Bytes) : option (string * string) :=
  if starts_with "x-ms-" r.1 then Some (r.1, default "" (hv_to_str r.2)) else None.

Definition by_key {A} (a b : string * A) : bool := str_le a.1 b.1.

(** Header names are iterated in lower case already. *)
Definition build_canonicalized_headers (h : header_map) : string :=
  join newline ((fun r => r.1 +:+ ":" +:+ r.2) <$> stable_sort by_key (omap canonical_entry (hm_iter h))).

Definition build_canonicalized_resource (account : string) (u : url) : string :=
  let params := stable_sort by_key ((fun r => (to_lowercase r.1, r.2)) <$> url_query_pairs u) in
  foldl (fun s r => s +:+ newline +:+ r.1 +:+ ":" +:+ r.2) ("/" +:+ account +:+ url_path u) params.

Definition content_length_str (content_length : option Z) : string :=
  match content_length with
  | Some n => if n =? 0 then "" else show n
  | None => ""
  end.

Definition string_to_sign (account method : string) (u : url) (h : header_map)
    (content_length : option Z) : string :=
  join newline
    ([method; get_header h "content-encoding"; get_header h "content-language";
      content_length_str content_length]
     ++ (get_header h <$> ["content-md5"; "content-type"; "date"; "if-modified-since"; "if-match";
                           "if-none-match"; "if-unmodified-since"; "range"])
     ++ [build_canonicalized_headers h; build_canonicalized_resource account u]).

(** A key that is not base64 panics; HMAC takes keys of any length. *)
Definition sign_request (account key method : string) (u : url) (h : header_map)
    (content_length : option Z) : run string :=
  run_bind (unwrap (b64_decode key)) (fun decoded =>
    Returns ("SharedKey " +:+ account +:+ ":"
      +:+ b64_encode (hmac_sha256 decoded
            (str_bytes (string_to_sign account method u h content_length))))).
End signing.

(** ** Lemmas on the refresh *)
Definition holds_lock (p : Phase) : bool :=
  match p with Locked _ | Refreshing _ => true | _ => false end.

(** Tokens some call fetched, the initial one left out. *)
Definition refreshes (s : Shared) : nat := length (filter (fun r => is_Some r.1) (issued s)).

(** What the phase of the call [i] says about its fetch and its token. *)
Definition phase_ok (s : Shared) (i : nat) (p : Phase) : Prop :=
  (holds_lock p = true <-> refresh_lock s = Some i) /\
  match p with
  | Refreshing _ => i ∈ running s
  | Dropped _ => True
  | Finished now (Ok t) => i ∉ running s /\ exists who exp, (who, (t, exp)) ∈ issued s
                             /\ (who = Some i \/ wadd64 now REFRESH_SKEW_SECS < exp)
  | _ => i ∉ running s
  end.

Record sound (s : Shared) : Prop := {
  so_phase i p : calls s !! i = Some p -> phase_ok s i p;
  so_held i : refresh_lock s = Some i \/ i ∈ running s -> is_Some (calls s !! i);
  so_cached x : cached (source s) = Some x -> x ∈ snd <$> issued s;
  so_issued i x : (Some i, x) ∈ issued s -> exists now, calls s !! i = Some (Finished now (Ok x.1))
}.

Lemma usable_some now c t :
  usable now c = Some t -> exists exp, c = Some (t, exp) /\ wadd64 now REFRESH_SKEW_SECS < exp.
Proof.
  destruct c as [[t' e]|]; [|done]. simpl. case_match; [|done]. intros [= ->]. case_bool. eauto.
Qed.

Lemma sound_start k initial : sound (start k initial).
Proof.
  split; simpl; [done|by intros i [?|?%elem_of_empty]|intros x [= <-]; apply list_elem_of_here|].
  by intros i x ?%list_elem_of_singleton.
Qed.

Lemma cached_issued s now t :
  sound s -> usable now (cached (source s)) = Some t ->
  exists who exp, (who, (t, exp)) ∈ issued s /\ wadd64 now REFRESH_SKEW_SECS < exp.
Proof.
  intros Hs (exp & Hc & Hlt)%usable_some. apply (so_cached s Hs), list_elem_of_fmap in Hc.
  destruct Hc as ([who x] & Hx & Hin). simpl in Hx. subst x. eauto.
Qed.

Lemma finish_refresh_cached fetched s x :
  cached (finish_refresh fetched s).1 = Some x ->
  cached s = Some x \/ fetched = Ok (Ok (Some x)).
Proof. unfold finish_refresh. repeat case_match; subst; simpl; intros H; simplify_eq; auto. Qed.

Lemma finish_refresh_ok fetched s t :
  (finish_refresh fetched s).2 = Ok t -> exists exp, fetched = Ok (Ok (Some (t, exp))).
Proof.
  unfold finish_refresh. repeat case_match; subst; simpl; intros [= <-].
  match goal with x : Issued |- _ => destruct x as [t e]; by exists e end.
Qed.

(** Changing one call keeps the state sound when lock, fetch and justification follow. *)
Lemma sound_update s s' i p :
  sound s -> calls s' = <[i := p]> (calls s) ->
  (forall j, j <> i -> (refresh_lock s' = Some j <-> refresh_lock s = Some j)
                       /\ (j ∈ running s' <-> j ∈ running s)) ->
  (forall r, r ∈ issued s -> r ∈ issued s') -> phase_ok s' i p ->
  (forall x, cached (source s') = Some x -> x ∈ snd <$> issued s') ->
  (forall j x, (Some j, x) ∈ issued s' -> (Some j, x) ∈ issued s \/
     j = i /\ exists now, p = Finished now (Ok x.1)) ->
  (forall now t, calls s !! i <> Some (Finished now (Ok t))) ->
  sound s'.
Proof.
  intros Hs Hc Ho Hi Hp Hx Hiss Hnf. split; [| |done|].
  - intros j q. rewrite Hc, lookup_insert. case_decide as Hj; [intros [= <-]; by subst|].
    intros [Hl Hq]%(so_phase s Hs). destruct (Ho j) as [Ho1 Ho2]; [done|]. split; [by rewrite Ho1|].
    destruct q as [| | |now [t|]|]; rewrite ?Ho2; try done.
    destruct Hq as (? & who & exp & ? & ?). split; [done|]. exists who, exp. auto.
  - intros j. rewrite Hc, lookup_insert. case_decide as Hj; [done|].
    destruct (Ho j) as [-> ->]; [done|]. apply (so_held s Hs).
  - intros j x [Hj|[-> [now ->]]]%Hiss; [|exists now; by rewrite Hc, lookup_insert_eq].
    destruct (so_issued s Hs j x Hj) as [now Hn]. exists now. rewrite Hc, lookup_insert_ne; [done|].
    intros <-. by apply (Hnf now x.1).
Qed.

Lemma phase_lock s i p :
  sound s -> calls s !! i = Some p -> holds_lock p = true -> refresh_lock s = Some i.
Proof. intros Hs Hi Hp. by apply (so_phase s Hs i p Hi). Qed.

(** A call that has just begun is neither holding the lock nor fetching. *)
Lemma new_call s i :
  sound s -> calls s !! i = None -> refresh_lock s <> Some i /\ i ∉ running s.
Proof.
  intros Hs Hi. split; intros H; destruct (so_held s Hs i) as [? Hx]; [by left|congruence|by right|congruence].
Qed.

Lemma refreshed_sound i now fetched s :
  calls s !! i = Some (Refreshing now) -> sound s ->
  sound (set_lock None (set_call i (Finished now (finish_refresh fetched (source s)).2)
           (store i fetched s))).
Proof.
  intros Hi Hs. pose proof (phase_lock s i _ Hs Hi eq_refl) as Hl.
  eapply (sound_update s _ i); eauto; simpl.
  - intros j Hj. rewrite Hl. set_solver.
  - intros r Hr. apply elem_of_app. by right.
  - split; [done|]. destruct ((finish_refresh fetched (source s)).2) as [t|] eqn:Ht; [|set_solver].
    apply finish_refresh_ok in Ht as [exp ->]. split; [set_solver|].
    exists (Some i), exp. split; [apply list_elem_of_here|by left].
  - intros x. rewrite fmap_app, elem_of_app. intros [Hx| ->]%finish_refresh_cached.
    + right. by apply (so_cached s Hs).
    + left. apply list_elem_of_here.
  - intros j x. destruct fetched as [[[y|]|]|]; simpl; auto.
    rewrite elem_of_cons. intros [[= -> ->]|?]; [right|by left]. eauto.
  - by rewrite Hi.
Qed.

Lemma cancelled_sound i p s :
  calls s !! i = Some p -> unfinished p = true -> sound s ->
  sound (set_lock (if decide (refresh_lock s = Some i) then None else refresh_lock s)
           (set_call i (Dropped (call_now p)) s)).
Proof.
  intros Hi Hp Hs. eapply (sound_update s _ i); eauto; simpl.
  - intros j Hj. split; [|done]. case_decide; naive_solver.
  - split; [|done]. simpl. case_decide; naive_solver.
  - apply (so_cached s Hs).
  - rewrite Hi. intros now t [= ->]. done.
Qed.

Lemma step_sound e s s' : step e s s' -> sound s -> sound s'.
Proof.
  destruct 1 as [i now t s Hi Hu|i now s Hi Hu|i now s Hi Hl|i now t s Hi Hu|i now s Hi Hu
                |i now fetched s Hi|i p s Hi Hp|i now fetched s Hi Hin|s]; intros Hs.
  1,2: destruct (new_call s i Hs Hi) as [Hn1 Hn2].
  - eapply (sound_update s _ i); eauto; try done; [|apply (so_cached s Hs)|by rewrite Hi].
    split; [done|]. split; [done|]. destruct (cached_issued s now t Hs Hu) as (who & exp & ? & ?). eauto 10.
  - eapply (sound_update s _ i); eauto; try done; [apply (so_cached s Hs)|by rewrite Hi].
  - pose proof (so_phase s Hs i _ Hi) as [_ Hr].
    eapply (sound_update s _ i); eauto; try done; [|apply (so_cached s Hs)|by rewrite Hi].
    intros j Hj. simpl. rewrite Hl. naive_solver.
  - pose proof (so_phase s Hs i _ Hi) as [_ Hr]. pose proof (phase_lock s i _ Hs Hi eq_refl) as Hl.
    eapply (sound_update s _ i); eauto; try done; [| |apply (so_cached s Hs)|by rewrite Hi].
    + intros j Hj. simpl. rewrite Hl. naive_solver.
    + split; [done|]. split; [done|]. destruct (cached_issued s now t Hs Hu) as (who & exp & ? & ?). eauto 10.
  - pose proof (phase_lock s i _ Hs Hi eq_refl) as Hl.
    eapply (sound_update s _ i); eauto; try done; [| |apply (so_cached s Hs)|by rewrite Hi].
    + intros j Hj. simpl. set_solver.
    + split; [done|]. simpl. set_solver.
  - by apply (refreshed_sound i now fetched s).
  - by apply (cancelled_sound i p s).
  - destruct Hs as [H1 H2 H3 H4]. split; simpl; [|set_solver|done|done].
    intros j q Hj. destruct (H1 j q Hj) as [Hl Hq]. split; [done|]. destruct q as [| | |? [|]|]; set_solver.
  - destruct Hs as [H1 H2 H3 H4]. by split.
Qed.

(** Calls that started before [T], refreshes whose tokens outlive it, no invalidation. *)
Definition quiet (T : Z) (e : Event) : Prop :=
  match e with
  | Call _ now => 0 <= now <= T
  | Refreshed _ (Ok (Ok (Some (_, exp)))) => T + REFRESH_SKEW_SECS < exp
  | Invalidate => False
  | _ => True
  end.

(** Before the first refresh nothing is promised; after it the cache serves everyone. *)
Record settled (T : Z) (s : Shared) : Prop := {
  se_now i p : calls s !! i = Some p -> 0 <= call_now p <= T;
  se_once : refreshes s = O \/
    (refreshes s = 1%nat /\ (forall i now, calls s !! i <> Some (Refreshing now)) /\
     exists t exp, cached (source s) = Some (t, exp) /\ T + REFRESH_SKEW_SECS < exp)
}.

Lemma usable_outlives T now t exp :
  0 <= now <= T -> T + REFRESH_SKEW_SECS <= u64_max -> T + REFRESH_SKEW_SECS < exp ->
  usable now (Some (t, exp)) = Some t.
Proof.
  unfold REFRESH_SKEW_SECS. intros Hn Hm He. simpl. unfold REFRESH_SKEW_SECS.
  rewrite wadd64_small by lia. case_match; [done|]. case_bool. lia.
Qed.

(** A change of one call that is not to [Refreshing]. *)
Lemma settled_update T s s' i p :
  settled T s -> calls s' = <[i := p]> (calls s) -> 0 <= call_now p <= T ->
  (forall now, p <> Refreshing now) -> source s' = source s -> issued s' = issued s ->
  settled T s'.
Proof.
  intros [Hn Ho] Hc Hp Hr Hs Hi. split.
  - intros j q. rewrite Hc, lookup_insert. case_decide; [by intros [= <-]|]. apply Hn.
  - unfold refreshes. rewrite Hi, Hs, Hc. destruct Ho as [Ho|(Ho & Hf & Hx)]; [by left|right].
    split_and!; [done| |done]. intros j now. rewrite lookup_insert. case_decide; [|apply Hf].
    intros [= ->]. by apply (Hr now).
Qed.

Lemma step_settled T e s s' :
  T + REFRESH_SKEW_SECS <= u64_max -> quiet T e -> step e s s' -> sound s -> settled T s ->
  settled T s'.
Proof.
  intros HT Hq Hst Hso Hs.
  destruct Hst as [i now t s Hi Hu|i now s Hi Hu|i now s Hi Hl|i now t s Hi Hu|i now s Hi Hu
                  |i now fetched s Hi|i p s Hi Hp|i now fetched s Hi Hin|s]; simpl in Hq; try done;
    try (pose proof (se_now T s Hs i _ Hi) as Hn; simpl in Hn).
  - by eapply (settled_update T s).
  - by eapply (settled_update T s).
  - by eapply (settled_update T s).
  - by eapply (settled_update T s).
  - destruct Hs as [Ha [Ho|(Ho & Hf & t & exp & Hc & He)]].
    + split; [|by left]. intros j q. simpl. rewrite lookup_insert. case_decide; [by intros [= <-]|apply Ha].
    + rewrite Hc, (usable_outlives T) in Hu by done. done.
  - assert (Hl : refresh_lock s = Some i) by by apply (phase_lock s i (Refreshing now)).
    split.
    + intros j q. simpl. rewrite lookup_insert. case_decide; [by intros [= <-]|]. apply (se_now T s Hs).
    + destruct (se_once T s Hs) as [Ho|(_ & Hf & _)]; [|by destruct (Hf i now)].
      unfold refreshes in *. simpl. destruct fetched as [[[[t exp]|]|]|]; try by left.
      right. split_and!; [exact (f_equal S Ho)| |by exists t, exp].
      intros j now'. rewrite lookup_insert. case_decide; [done|]. intros Hj.
      assert (refresh_lock s = Some j) by by apply (phase_lock s j (Refreshing now')). congruence.
  - by eapply (settled_update T s).
  - by destruct Hs as [Ha Ho].
Qed.

Lemma steps_sound es s s' : steps es s s' -> sound s -> sound s'.
Proof. induction 1; eauto using step_sound. Qed.

Lemma steps_settled T es s s' :
  T + REFRESH_SKEW_SECS <= u64_max -> steps es s s' -> Forall (quiet T) es -> sound s ->
  settled T s -> settled T s'.
Proof.
  intros HT Hst. induction Hst as [|es e s s' s'' H1 IH H2]; [done|].
  rewrite Forall_app, Forall_singleton. intros [Hes He] Hso Hs.
  eapply step_settled; eauto. by eapply steps_sound.
Qed.

Lemma settled_start T k initial : settled T (start k initial).
Proof. split; [done|by left]. Qed.

(** A call left alone is one of the runs: its sections, one after the other. *)
Lemma token_run now fetched i s :
  calls s !! i = None -> refresh_lock s = None ->
  exists es s', steps es s s' /\ source s' = (token now fetched (source s)).1 /\
    calls s' !! i = Some (Finished now (token now fetched (source s)).2) /\ refresh_lock s' = None.
Proof.
  intros Hi Hl. unfold token, under_lock. destruct (usable now (cached (source s))) as [t|] eqn:Hu.
  - eexists ([] ++ [Call i now]), _. split; [by eapply steps_snoc; [apply steps_nil|apply step_fast]|].
    simpl. by rewrite lookup_insert_eq.
  - eexists (((([] ++ [Call i now]) ++ [Acquire i]) ++ [DoubleCheck i]) ++ [Refreshed i fetched]), _.
    split.
    + eapply steps_snoc; [eapply steps_snoc; [eapply steps_snoc; [eapply steps_snoc; [apply steps_nil|]|]|]|].
      * by apply step_slow.
      * apply (step_acquire i now); [|done]. simpl. by rewrite lookup_insert_eq.
      * apply (step_miss i now); [|done]. simpl. by rewrite lookup_insert_eq.
      * apply (step_refreshed i now). simpl. by rewrite lookup_insert_eq.
    + simpl. by rewrite lookup_insert_eq.
Qed.

(** What a call returns, and what it leaves in the cache. *)
Lemma token_cases now fetched s :
  (exists t exp, cached s = Some (t, exp) /\ wadd64 now REFRESH_SKEW_SECS < exp
                 /\ token now fetched s = (s, Ok t))
  \/ (usable now (cached s) = None /\ token now fetched s = finish_refresh fetched s).
Proof.
  unfold token, under_lock. destruct (usable now (cached s)) as [t|] eqn:Hu; [left|by right].
  destruct (usable_some _ _ _ Hu) as (exp & ? & ?). eauto.
Qed.

(** After an invalidation the next call fetches, whatever was cached. *)
Lemma invalidate_forces now fetched s :
  token now fetched (invalidate s) = finish_refresh fetched (invalidate s).
Proof. done. Qed.

(** ** Lemmas on resolution *)

(** A remembered credential points to an allocated source. *)
Definition ambient_ok (a : Ambient) : Prop :=
  match guard a with
  | None => sources a = []
  | Some c => c = Bearer 0 /\ length (sources a) = 1%nat
  end.

(** The credential of a mount is its own SAS token, one from the environment, anonymous, or the
    one shared source of the process. *)
Lemma resolve_cases W sas a a' r :
  ambient_ok a -> resolve W sas a = (a', r) ->
  ambient_ok a' /\
  match r with
  | Ok (Sas t) => sas = Some t \/ (sas = None /\ from_env W = Ok (Some (Sas t)))
  | Ok (SharedKey n k) => sas = None /\ from_env W = Ok (Some (SharedKey n k))
  | Ok (Bearer i) => sas = None /\ from_env W = Ok None /\ i = O /\ guard a' = Some (Bearer 0)
  | Ok Anonymous => sas = None /\ from_env W = Ok None /\ guard a' = None
  | Err _ => a' = a
  end.
Proof.
  unfold resolve, ambient_ok. intros Ha. destruct sas as [t|]; [intros [= <- <-]; auto|].
  destruct (from_env W) as [[c|]|e] eqn:Ef.
  - intros [= <- <-]. split; [done|]. unfold from_env in Ef. repeat case_match; simplify_eq; auto.
  - destruct (guard a) as [c|] eqn:Eg.
    { intros [= <- <-]. destruct Ha as [-> Hl]. rewrite Eg. auto. }
    unfold resolve_ambient, adopt.
    destruct (get_storage_token_workload W) as [[x|]|e]; [| destruct (get_storage_token_imds W) as [[x|]|e]|].
    all: intros [= <- <-]; simpl; rewrite ?Eg, ?Ha; auto.
  - intros [= <- <-]. done.
Qed.

(** Once an identity is found it is never asked for again: later mounts share the source. *)
Lemma resolve_shares W W' a a' i :
  ambient_ok a -> resolve W None a = (a', Ok (Bearer i)) -> from_env W' = Ok None ->
  resolve W' None a' = (a', Ok (Bearer i)).
Proof.
  intros Ha Hr Hw. destruct (resolve_cases W None a a' _ Ha Hr) as (_ & _ & _ & -> & Hg).
  unfold resolve. by rewrite Hw, Hg.
Qed.

(** ** Lemmas on signatures *)
Section signing_facts.
Context {H : HeaderMap} {U : UrlApi}.

Lemma by_key_total {A} (x y : string * A) : by_key x y = false -> by_key y x = true.
Proof. apply bytes_le_total. Qed.

Lemma by_key_trans {A} (x y z : string * A) :
  by_key x y = true -> by_key y z = true -> by_key x z = true.
Proof. apply bytes_le_trans. Qed.

Lemma canonical_names (l : HeaderView) (r : string * string) :
  r ∈ omap canonical_entry l -> r.1 ∈ fst <$> l.
Proof.
  rewrite list_elem_of_omap. intros ([n v] & Hin & Hr). unfold canonical_entry in Hr.
  case_match; [|done]. injection Hr as <-. apply list_elem_of_fmap. by exists (n, v).
Qed.

Lemma canonical_unique (l : HeaderView) (x y : string * string) :
  NoDup (fst <$> l) -> x ∈ omap canonical_entry l -> y ∈ omap canonical_entry l ->
  x.1 = y.1 -> x = y.
Proof.
  induction l as [|[n v] l IH]; [by intros _ Hx%not_elem_of_nil|].
  rewrite fmap_cons, NoDup_cons. intros [Hn Hl]. cbn [omap list_omap].
  destruct (canonical_entry (n, v)) as [r|] eqn:E; [|by apply IH].
  assert (Hrn : r.1 = n) by (unfold canonical_entry in E; case_match; by simplify_eq).
  rewrite !elem_of_cons. intros [->|Hx] [->|Hy] Hxy; [done| | |by apply IH].
  - apply canonical_names in Hy. rewrite <- Hxy, Hrn in Hy. by destruct Hn.
  - apply canonical_names in Hx. rewrite Hxy, Hrn in Hx. by destruct Hn.
Qed.

(** The signed headers do not depend on the order the header map iterates in. *)
Lemma canonical_headers_order h h' :
  single h -> hm_iter h ≡ₚ hm_iter h' ->
  build_canonicalized_headers h = build_canonicalized_headers h'.
Proof.
  intros Hs Hp. unfold build_canonicalized_headers. do 2 f_equal.
  apply (sorted_permutation_eq by_key).
  - intros x y Hx Hy H1 H2. rewrite stable_sort_permutation in Hx, Hy.
    apply (canonical_unique (hm_iter h)); [done..|]. by apply str_le_antisym.
  - apply stable_sort_sorted; [apply by_key_total|apply by_key_trans].
  - apply stable_sort_sorted; [apply by_key_total|apply by_key_trans].
  - rewrite !stable_sort_permutation. by rewrite Hp.
Qed.
End signing_facts.

(** A SAS token goes into the query, after what is there; the path is not touched. *)
Lemma append_sas_query {U : UrlApi} (u : url) tok :
  forallb query_safe (str_bytes (default "" (url_query u) +:+ "&" +:+ default tok (strip_prefix "?" tok))) = true ->
  forallb query_safe (str_bytes (default tok (strip_prefix "?" tok))) = true ->
  url_path (append_sas_token u tok) = url_path u /\
  url_query (append_sas_token u tok)
  = Some (if String.eqb (default "" (url_query u)) "" then default tok (strip_prefix "?" tok)
          else default "" (url_query u) +:+ "&" +:+ default tok (strip_prefix "?" tok)).
Proof.
  intros H1 H2. unfold append_sas_token.
  destruct (String.eqb (default "" (url_query u)) ""); by rewrite url_path_set, url_query_set.
Qed.

(** ** Theorems *)

(** C13.  Token refreshes are serialized among the calls that wait for them.  In every interleaving
    of calls, lock hand-overs, refreshes, dropped futures, detached fetches and invalidations: a
    fetch on the blocking pool belongs to a call that waits for it or to one that was dropped, and
    at most one running fetch has a call waiting for it; a token that a call returns was in the
    cache once and was either fetched by that very call or valid for more than the skew beyond the
    clock the call read (a token the call fetched itself is returned whatever its lifetime); the
    cache only ever holds the initial token or one whose fetching call returned it, so the result
    of a detached fetch is never stored; and in a period without invalidation, whose calls the
    refreshed tokens outlive by more than the skew, at most one refresh brings a token, however
    many calls miss the cache. *)
Theorem token_singleflight k initial es s :
  steps es (start k initial) s ->
  (forall i, i ∈ running s -> exists now,
     calls s !! i = Some (Refreshing now) \/ calls s !! i = Some (Dropped now)) /\
  (forall i j now now', i ∈ running s -> j ∈ running s -> calls s !! i = Some (Refreshing now) ->
     calls s !! j = Some (Refreshing now') -> i = j) /\
  (forall i now t, calls s !! i = Some (Finished now (Ok t)) -> exists who exp,
     (who, (t, exp)) ∈ issued s /\ (who = Some i \/ wadd64 now REFRESH_SKEW_SECS < exp)) /\
  (forall x, cached (source s) = Some x -> exists who, (who, x) ∈ issued s) /\
  (forall i x, (Some i, x) ∈ issued s -> exists now, calls s !! i = Some (Finished now (Ok x.1))) /\
  (forall T, T + REFRESH_SKEW_SECS <= u64_max -> Forall (quiet T) es -> (refreshes s <= 1)%nat).
Proof.
  intros Hst. pose proof (steps_sound _ _ _ Hst (sound_start k initial)) as Hs. split_and!.
  - intros i Hi. destruct (so_held s Hs i) as [p Hp]; [by right|].
    destruct (so_phase s Hs i p Hp) as [_ Hq]. destruct p as [| | |now [|]|]; naive_solver.
  - intros i j now now' _ _ Hi Hj. pose proof (phase_lock s i _ Hs Hi eq_refl).
    pose proof (phase_lock s j _ Hs Hj eq_refl). congruence.
  - intros i now t Hi. apply (so_phase s Hs i _ Hi).
  - intros x ([who y] & -> & Hin)%(so_cached s Hs)%list_elem_of_fmap. by exists who.
  - apply (so_issued s Hs).
  - intros T HT Hq. destruct (steps_settled T _ _ _ HT Hst Hq (sound_start k initial)
      (settled_start T k initial)) as [_ [Ho|[Ho _]]]; lia.
Qed.

(** The lock does not bound the fetches themselves: the first caller's future is dropped while its
    fetch runs, the lock is free at once and the next caller starts a second one. *)
Example two_fetches_run :
  let s0 := start Imds ("old", 1100) in
  exists es s, steps es s0 s /\ running s = {[0%nat; 1%nat]}.
Proof.
  intros s0. eexists (((((([] ++ [Call 0 1000]) ++ [Acquire 0]) ++ [DoubleCheck 0]) ++ [Cancelled 0])
    ++ [Call 1 1001]) ++ [Acquire 1] ++ [DoubleCheck 1]), _. split.
  - rewrite (assoc_L app). repeat eapply steps_snoc; [apply steps_nil|..].
    + by apply step_slow.
    + by apply (step_acquire 0 1000).
    + by apply (step_miss 0 1000).
    + by apply (step_cancelled 0 (Refreshing 1000)).
    + by apply step_slow.
    + by apply (step_acquire 1 1001).
    + by apply (step_miss 1 1001).
  - simpl. set_solver.
Qed.

(** Two calls miss an expired token; one fetches, the other finds it. *)
Definition demo_events : list Event :=
  [Call 0 1000; Call 1 1001; Acquire 1; DoubleCheck 1;
   Refreshed 1 (Ok (Ok (Some ("new", 9000)))); Acquire 0; DoubleCheck 0].

Definition demo_final : Shared :=
  set_lock None (set_call 0 (Finished 1000 (Ok "new"))
    (set_lock (Some 0%nat) (set_call 0 (Locked 1000)
      (set_lock None (set_call 1 (Finished 1001 (Ok "new"))
        (store 1 (Ok (Ok (Some ("new", 9000))))
          (set_running {[1%nat]} (set_call 1 (Refreshing 1001) (set_lock (Some 1%nat) (set_call 1 (Locked 1001)
            (set_call 1 (Waiting 1001) (set_call 0 (Waiting 1000)
              (start Imds ("old", 1100)))))))))))))).

Lemma demo_steps : steps demo_events (start Imds ("old", 1100)) demo_final.
Proof.
  eapply (steps_snoc (take 6 demo_events) (DoubleCheck 0)); [|by eapply step_hit].
  eapply (steps_snoc (take 5 demo_events) (Acquire 0)); [|by eapply step_acquire].
  eapply (steps_snoc (take 4 demo_events) (Refreshed 1 (Ok (Ok (Some ("new", 9000)))))).
  2: by eapply step_refreshed.
  eapply (steps_snoc (take 3 demo_events) (DoubleCheck 1)); [|by eapply step_miss].
  eapply (steps_snoc (take 2 demo_events) (Acquire 1)); [|by eapply step_acquire].
  eapply (steps_snoc (take 1 demo_events) (Call 1 1001)); [|by eapply step_slow].
  eapply (steps_snoc [] (Call 0 1000)); [apply steps_nil|by eapply step_slow].
Qed.

Lemma token_singleflight_witness :
  calls demo_final !! 0%nat = Some (Finished 1000 (Ok "new")) /\ (refreshes demo_final <= 1)%nat.
Proof.
  split; [reflexivity|].
  destruct (token_singleflight Imds ("old", 1100) demo_events demo_final demo_steps) as (_ & _ & _ & _ & _ & Hr).
  apply (Hr 2000).
  - vm_compute. discriminate.
  - repeat constructor; simpl; unfold REFRESH_SKEW_SECS; lia.
Defined.
End Auth.
