(* ===== verification/Azure.v ===== *)
(** * The Azure blob client (src/src/azure.rs)

    Requests with their headers and credentials, the retry loops with their back-off, range reads,
    properties, paged listings.
    Everything a request can meet is the record [World], indexed by the number of requests sent so
    far: the reply, the clocks, what a token refresh yields.  The loops that retry run on fuel that
    is shown to suffice; running out of it is the outcome [None].  A panic is a value of
    [HttpApi.run].  Histograms and the float gauges are left out; the delays slept are kept. *)

From S2P Require Import Prelude ChunkKeys HttpApi Auth.

Module Azure.
Import HttpApi.

(** ** Data *)
Record BlobInfo := mkBlobInfo {
  bi_name : string;
  bi_content_length : Z;
  bi_content_type : string;
  bi_last_modified : option string;
  bi_etag : option string
}.

Record ListedBlob := mkListedBlob {
  lb_name : string;
  lb_content_length : Z;
  lb_etag : option string;
  lb_last_modified : option string
}.

(** The elements of a listing, as the XML deserializer builds them. *)
Record BlobProperties := mkBlobProperties {
  bp_content_length : option Z;
  bp_etag : option string;
  bp_last_modified : option string
}.

Record BlobItem := mkBlobItem {
  it_name : string;
  it_properties : BlobProperties
}.

Inductive BlobOrPrefix : Type :=
| Blob (b : BlobItem)
| BlobPrefix (name : string).

(** [blobs] is the optional container element with its entries. *)
Record BlobListResponse := mkBlobListResponse {
  blobs : option (list BlobOrPrefix);
  next_marker : option string
}.

Definition API_VERSION : string := "2024-11-04".

Inductive Method : Type := HEAD | GET.

Definition method_str (m : Method) : string := match m with HEAD => "HEAD" | GET => "GET" end.

(** The client of one mount; [max_retries] is 10 in every client the daemon builds. *)
Record BlobClient := mkBlobClient {
  credential : Auth.Credential;
  max_retries : Z;
  has_metrics : bool
}.

Definition new (c : Auth.Credential) (metrics : bool) : BlobClient := mkBlobClient c 10 metrics.

(** ** Back-off *)
Definition is_retryable_status (s : Z) : bool :=
  (s =? 429) || (s =? 500) || (s =? 502) || (s =? 503) || (s =? 504).

(** [nanos] is the sub-second part of the clock. *)
Definition backoff_ms (nanos attempt : Z) : Z :=
  let base := 500 in
  let cap := 30000 in
  let exp := sat_mul64 base (Z.shiftl 1 (Z.min (attempt - 1) 10)) in
  let capped := Z.min exp cap in
  let jitter_range := capped / 4 in
  let jitter := nanos mod (jitter_range * 2 + 1) in
  sat_add64 (sat_sub capped jitter_range) jitter.

Section client.
Context {H : HeaderMap} {U : UrlApi}.

(** A response; the body and its text may fail to arrive. *)
Record Response := mkResponse {
  status : Z;
  headers : header_map;
  bytes : result HttpError Bytes;
  text : result HttpError string
}.

(** What the n-th request meets. *)
Record World := mkWorld {
  http : nat -> Method -> url -> header_map -> option Bytes -> result HttpError Response;
  date : nat -> string;
  nanos : nat -> Z;
  now : nat -> Z;
  refresh : nat -> result string (res (option Auth.Issued))
}.

(** Requests sent, delays slept (latest first), token sources, counters. *)
Record Conn := mkConn {
  sent : nat;
  slept : list Z;
  sources : list Auth.BearerSource;
  counters : gmap string Z
}.

Context (W : World).
Context (sign : string -> string -> string -> url -> header_map -> option Z -> run string).

Definition sleep (ms : Z) (c : Conn) : Conn := mkConn (sent c) (ms :: slept c) (sources c) (counters c).
Definition set_source (i : nat) (s : Auth.BearerSource) (c : Conn) : Conn :=
  mkConn (sent c) (slept c) (<[i := s]> (sources c)) (counters c).
Definition count_sent (c : Conn) : Conn := mkConn (S (sent c)) (slept c) (sources c) (counters c).

(** A counter, when the client has metrics. *)
Definition inc (cl : BlobClient) (name : string) (c : Conn) : Conn :=
  if has_metrics cl
  then mkConn (sent c) (slept c) (sources c)
         (<[name := wrap64 (default 0 (counters c !! name) + 1)]> (counters c))
  else c.

Definition retry_delay_ms (r : Response) (nanos attempt : Z) : Z :=
  match (hm_get "retry-after" (headers r) ≫= hv_to_str) ≫= parse_u64 with
  | Some secs => Z.min (sat_mul64 secs 1000) 60000
  | None => backoff_ms nanos attempt
  end.

(** ** Headers *)
Definition insert_str (n s : string) (h : header_map) : run header_map :=
  run_bind (unwrap (hv_from_str s)) (fun v => Returns (hm_insert n v h)).

(** An [x-ms-range] style extra header is already a header value. *)
Definition build_headers (cl : BlobClient) (date : string) (u : url) (method : string)
    (content_type : option string) (content_length : option Z) (extra : list (string * Bytes))
    (bearer : option string) : run (res header_map) :=
  run_bind (insert_str "x-ms-date" date hm_new) (fun h =>
  let h := hm_insert "x-ms-version" (str_bytes API_VERSION) h in
  let h := match content_type with
           | Some ct => match hv_from_str ct with Some v => hm_insert "content-type" v h | None => h end
           | None => h
           end in
  run_bind (match content_length with
            | Some n => insert_str "content-length" (show n) h
            | None => Returns h
            end) (fun h =>
  let h := foldl (fun h nv => hm_insert nv.1 nv.2 h) h extra in
  match credential cl with
  | Auth.SharedKey account key =>
      run_bind (sign account key method u h content_length) (fun auth =>
      run_bind (insert_str "Authorization" auth h) (fun h => Returns (Ok h)))
  | Auth.Bearer _ =>
      match bearer with
      | Some t => run_bind (insert_str "Authorization" ("Bearer " +:+ t) h) (fun h => Returns (Ok h))
      | None => Returns (Ok h)
      end
  | Auth.Sas _ | Auth.Anonymous => Returns (Ok h)
  end)).

(** ** The retry loop *)
Definition max_attempts (cl : BlobClient) : Z := Z.max (Z.min (max_retries cl + 1) u32_max) 1.

(** [token().await] for a bearer credential. *)
Definition bearer_token (cl : BlobClient) (c : Conn) : Conn * res (option string) :=
  match credential cl with
  | Auth.Bearer i =>
      match sources c !! i with
      | Some s =>
          let '(s, r) := Auth.token (now W (sent c)) (refresh W (sent c)) s in
          (set_source i s c, let? t := r in Ok (Some t))
      | None => (c, Ok None)
      end
  | _ => (c, Ok None)
  end.

Definition request_url (cl : BlobClient) (u : url) : url :=
  match credential cl with Auth.Sas t => Auth.append_sas_token u t | _ => u end.

(** The 401 branch applies once, to bearer credentials. *)
Definition stale_bearer (cl : BlobClient) (st : Z) (invalidated : bool) : option nat :=
  match credential cl with
  | Auth.Bearer i => if (st =? 401) && negb invalidated then Some i else None
  | _ => None
  end.

Definition invalidate_source (i : nat) (c : Conn) : Conn :=
  match sources c !! i with Some s => set_source i (Auth.invalidate s) c | None => c end.

(** The network errors that are retried. *)
Definition retryable_error (e : HttpError) : bool :=
  is_timeout e || is_connect e || is_request e || is_body e.

Definition label (name l : string) : string := name +:+ "/" +:+ l.

(** What one exchange leads to: a last answer, or another turn with the flag. *)
Inductive Turn : Type :=
| Answer (r : res Response)
| Again (invalidated : bool).

(** The body of the loop after the request was sent, as the [attempt]-th. *)
Definition digest_reply (cl : BlobClient) (attempt : Z) (invalidated : bool)
    (reply : result HttpError Response) (c : Conn) : Conn * Turn :=
  match reply with
  | Ok resp =>
      match stale_bearer cl (status resp) invalidated with
      | Some i => (invalidate_source i c, Again true)
      | None =>
          if is_retryable_status (status resp) && (attempt <? max_attempts cl) then
            let delay := retry_delay_ms resp (nanos W (sent c)) attempt in
            (sleep delay (inc cl (label "retries" (show (status resp))) c), Again invalidated)
          else
            let c := inc cl (label "status" (show (status resp))) c in
            (if is_retryable_status (status resp) then inc cl "giveups" c else c, Answer (Ok resp))
      end
  | Err e =>
      if (attempt <? max_attempts cl) && retryable_error e then
        (sleep (backoff_ms (nanos W (sent c)) attempt) (inc cl (label "retries" "net") c),
         Again invalidated)
      else (inc cl "giveups" (inc cl (label "status" "err") c), Answer (Err (Http e)))
  end.

(** [None] when the fuel runs out. *)
Fixpoint send_loop (fuel : nat) (cl : BlobClient) (m : Method) (u : url)
    (extra : list (string * Bytes)) (content_type : option string) (body : option Bytes)
    (attempt : Z) (invalidated : bool) (c : Conn) : Conn * option (run (res Response)) :=
  match fuel with
  | O => (c, None)
  | S n =>
      let attempt := attempt + 1 in
      let '(c, b) := bearer_token cl c in
      match b with
      | Err e => (c, Some (Returns (Err e)))
      | Ok bearer =>
          match build_headers cl (date W (sent c)) u (method_str m) content_type (len <$> body) extra bearer with
          | Panics => (c, Some Panics)
          | Returns (Err e) => (c, Some (Returns (Err e)))
          | Returns (Ok h) =>
              let reply := http W (sent c) m (request_url cl u) h body in
              let '(c, t) := digest_reply cl attempt invalidated reply (count_sent c) in
              match t with
              | Answer r => (c, Some (Returns r))
              | Again inv => send_loop n cl m u extra content_type body attempt inv c
              end
          end
      end
  end.

(** One turn more than the attempts: the turn after a 401 is not counted against them. *)
Definition send_fuel (cl : BlobClient) : nat := S (Z.to_nat (max_attempts cl)).

Definition send (cl : BlobClient) (m : Method) (u : url) (extra : list (string * Bytes))
    (content_type : option string) (body : option Bytes) (c : Conn)
    : Conn * option (run (res Response)) :=
  send_loop (send_fuel cl) cl m u extra content_type body 0 false c.

(** ** Operations *)
Definition service_url (account container : string) : string :=
  "https://" +:+ account +:+ ".blob.core.windows.net/" +:+ container.

Definition blob_url (account container blob : string) : res url :=
  map_err InvalidUrl (url_parse (service_url account container +:+ "/" +:+ blob)).

(** A step of an operation that may run out of fuel, panic or fail. *)
Abbreviation outcome A := (Conn * option (run (res A)))%type.

Definition then_ok {A B} (x : outcome A) (k : Conn -> A -> outcome B) : outcome B :=
  match x with
  | (c, Some (Returns (Ok a))) => k c a
  | (c, Some (Returns (Err e))) => (c, Some (Returns (Err e)))
  | (c, Some Panics) => (c, Some Panics)
  | (c, None) => (c, None)
  end.

Definition done {A} (c : Conn) (r : res A) : outcome A := (c, Some (Returns r)).

Definition header_str (r : Response) (n : string) : option string := hm_get n (headers r) ≫= hv_to_str.

Definition blob_info (blob : string) (r : Response) : BlobInfo :=
  mkBlobInfo blob (default 0 (header_str r "content-length" ≫= parse_u64))
    (default "application/octet-stream" (header_str r "content-type"))
    (header_str r "last-modified") (header_str r "etag").

Definition get_blob_properties (cl : BlobClient) (account container blob : string) (c : Conn)
    : outcome BlobInfo :=
  match blob_url account container blob with
  | Err e => done c (Err e)
  | Ok u =>
      then_ok (send cl HEAD u [] None None c) (fun c resp =>
        if negb (is_success (status resp)) then
          if status resp =? 404 then done c (Err (NotFound blob))
          else done c (Err (Storage (status resp) ("HEAD " +:+ blob +:+ " failed")))
        else done c (Ok (blob_info blob resp)))
  end.

(** [chars().take(n)] on UTF-8: a continuation byte belongs to the character before it. *)
Fixpoint take_chars (n : nat) (l : Bytes) : Bytes :=
  match l with
  | [] => []
  | b :: t =>
      if in_range 128 191 b then b :: take_chars n t
      else match n with O => [] | S n => b :: take_chars n t end
  end.

Definition excerpt (s : string) : string := bytes_str (take_chars 200 (str_bytes s)).

(** Inclusive bounds; the arithmetic wraps. *)
Definition range_val (first last : Z) : string := "bytes=" +:+ show first +:+ "-" +:+ show last.
Definition last_byte (offset length : Z) : Z := wrap64 (wadd64 offset length - 1).

(** The body errors that restart the request. *)
Definition retryable_body (e : HttpError) : bool := is_body e || is_timeout e || is_decode e.

Fixpoint range_loop (fuel : nat) (cl : BlobClient) (u : url) (extra : list (string * Bytes))
    (attempt : Z) (c : Conn) : outcome Bytes :=
  match fuel with
  | O => (c, None)
  | S n =>
      let attempt := attempt + 1 in
      then_ok (send cl GET u extra None None c) (fun c resp =>
        if negb (is_success (status resp)) then
          done c (Err (Storage (status resp)
            (excerpt (match text resp with Ok t => t | Err _ => "" end))))
        else match bytes resp with
        | Ok b => done c (Ok b)
        | Err e =>
            if (attempt <? max_attempts cl) && retryable_body e then
              range_loop n cl u extra attempt
                (sleep (backoff_ms (nanos W (sent c)) attempt) (inc cl (label "retries" "body") c))
            else done (inc cl "giveups" (inc cl (label "status" "body_err") c)) (Err (Http e))
        end)
  end.

Definition get_blob_range (cl : BlobClient) (account container blob : string) (offset length : Z)
    (c : Conn) : outcome Bytes :=
  match blob_url account container blob with
  | Err e => done c (Err e)
  | Ok u =>
      match hv_from_str (range_val offset (last_byte offset length)) with
      | None => (c, Some Panics)
      | Some v => range_loop (Z.to_nat (max_attempts cl)) cl u [("x-ms-range", v)] 0 c
      end
  end.

(** *** Listings *)
Context (percent_encode : string -> string) (from_xml : string -> result string BlobListResponse).

Definition list_url (account container : string) (prefix : option string) (recursive : bool)
    (marker : option string) : string :=
  service_url account container +:+ "?restype=container&comp=list"
  +:+ match prefix with Some p => "&prefix=" +:+ percent_encode p | None => "" end
  +:+ (if recursive then "" else "&delimiter=/")
  +:+ match marker with Some m => "&marker=" +:+ m | None => "" end.

Definition listed (b : BlobItem) : ListedBlob :=
  mkListedBlob (it_name b) (default 0 (bp_content_length (it_properties b)))
    (bp_etag (it_properties b)) (bp_last_modified (it_properties b)).

(** The loop over the entries of a page. *)
Fixpoint push_entries (l : list BlobOrPrefix) (acc : list ListedBlob * list string)
    : list ListedBlob * list string :=
  match l with
  | [] => acc
  | Blob b :: t => push_entries t (acc.1 ++ [listed b], acc.2)
  | BlobPrefix p :: t => push_entries t (acc.1, acc.2 ++ [p])
  end.

(** The marker of the next page, if there is one. *)
Definition more (p : BlobListResponse) : option string :=
  match next_marker p with
  | Some m => if String.eqb m "" then None else Some m
  | None => None
  end.

(** The paging loop ends when the service stops handing out markers: the fuel bounds the pages. *)
Fixpoint list_loop (fuel : nat) (cl : BlobClient) (account container : string)
    (prefix : option string) (recursive : bool) (marker : option string)
    (acc : list ListedBlob * list string) (c : Conn) : outcome (list ListedBlob * list string) :=
  match fuel with
  | O => (c, None)
  | S n =>
      match map_err InvalidUrl (url_parse (list_url account container prefix recursive marker)) with
      | Err e => done c (Err e)
      | Ok u =>
          then_ok (send cl GET u [] None None c) (fun c resp =>
            match text resp with
            | Err e => done c (Err (Http e))
            | Ok body =>
                if negb (is_success (status resp))
                then done c (Err (Storage (status resp) (excerpt body)))
                else match from_xml body with
                | Err e => done c (Err (Xml e))
                | Ok parsed =>
                    let acc := push_entries (default [] (blobs parsed)) acc in
                    match more parsed with
                    | Some m => list_loop n cl account container prefix recursive (Some m) acc c
                    | None => done c (Ok acc)
                    end
                end
            end)
      end
  end.

Definition list_blobs (fuel : nat) (cl : BlobClient) (account container : string)
    (prefix : option string) (recursive : bool) (c : Conn)
    : outcome (list ListedBlob * list string) :=
  list_loop fuel cl account container prefix recursive None ([], []) c.

(** ** Bounds *)
Lemma backoff_bounds n a : 1 <= a -> 0 <= n -> 375 <= backoff_ms n a <= 37500.
Proof.
  intros Ha Hn. unfold backoff_ms. rewrite Z.shiftl_1_l.
  assert (Hp : 1 <= 2 ^ Z.min (a - 1) 10 <= 1024).
  { split; [pose proof (Z.pow_pos_nonneg 2 (Z.min (a - 1) 10)); lia|].
    change 1024 with (2 ^ 10). apply Z.pow_le_mono_r; lia. }
  unfold sat_mul64, sat_add64, sat_sub, u64_max, u64_mod. set (cap := Z.min _ 30000).
  assert (500 <= cap <= 30000) by lia. clearbody cap.
  pose proof (Z.div_mod cap 4 ltac:(lia)). pose proof (Z.mod_pos_bound cap 4 ltac:(lia)).
  set (q := cap / 4) in *. pose proof (Z.mod_pos_bound n (q * 2 + 1) ltac:(lia)).
  clearbody q. lia.
Qed.

Lemma retry_delay_bounds r n a : 1 <= a -> 0 <= n -> 0 <= retry_delay_ms r n a <= 60000.
Proof.
  intros Ha Hn. unfold retry_delay_ms.
  destruct ((hm_get "retry-after" (headers r) ≫= hv_to_str) ≫= parse_u64) as [s|] eqn:E.
  - apply bind_Some in E as (t & _ & Hs). apply parse_u64_range in Hs. unfold sat_mul64. u64_lia.
  - pose proof (backoff_bounds n a Ha Hn). lia.
Qed.

(** At most [budget] requests and [naps] sleeps of at most a minute lead from [c] to [c']. *)
Definition within (budget naps : Z) (c c' : Conn) : Prop :=
  Z.of_nat (sent c) <= Z.of_nat (sent c') <= Z.of_nat (sent c) + budget /\
  exists l, slept c' = l ++ slept c /\ len l <= naps /\ Forall (fun ms => 0 <= ms <= 60000) l.

Lemma within_refl c : within 0 0 c c.
Proof. split; [lia|]. by exists []. Qed.

Lemma within_weaken b b' n n' c c' : within b n c c' -> b <= b' -> n <= n' -> within b' n' c c'.
Proof. intros [H1 (l & ? & ? & ?)] ? ?. split; [lia|]. exists l. split_and!; [done|lia|done]. Qed.

Lemma within_trans b b' n n' c1 c2 c3 :
  within b n c1 c2 -> within b' n' c2 c3 -> within (b + b') (n + n') c1 c3.
Proof.
  intros [H1 (l & E1 & L1 & F1)] [H2 (l' & E2 & L2 & F2)]. split; [lia|].
  exists (l' ++ l). rewrite E2, E1, app_assoc, len_app. split_and!; [done|lia|].
  apply Forall_app. auto.
Qed.

Lemma within_same c c' : sent c' = sent c -> slept c' = slept c -> within 0 0 c c'.
Proof. intros E1 E2. split; [lia|]. by exists []. Qed.

Lemma within_count c : within 1 0 c (count_sent c).
Proof. split; [simpl; lia|]. by exists []. Qed.

Lemma within_inc cl n c : within 0 0 c (inc cl n c).
Proof. unfold inc. case_match; apply within_same; done. Qed.

Lemma within_inc2 cl n n' c : within 0 0 c (inc cl n (inc cl n' c)).
Proof. exact (within_trans 0 0 0 0 _ _ _ (within_inc cl n' c) (within_inc cl n _)). Qed.

Lemma within_sleep ms c : 0 <= ms <= 60000 -> within 0 1 c (sleep ms c).
Proof. intros H0. split; [simpl; lia|]. exists [ms]. split_and!; [done..|by apply Forall_singleton]. Qed.

Lemma within_inc_sleep cl n ms c : 0 <= ms <= 60000 -> within 0 1 c (sleep ms (inc cl n c)).
Proof. intros Hms. exact (within_trans 0 0 0 1 _ _ _ (within_inc cl n c) (within_sleep ms _ Hms)). Qed.

Lemma within_bearer cl c : within 0 0 c (bearer_token cl c).1.
Proof.
  unfold bearer_token. destruct (credential cl); try apply within_refl.
  destruct (sources c !! src); [|apply within_refl].
  destruct (Auth.token _ _ _) as [s r]. by apply within_same.
Qed.

Lemma within_invalidate i c : within 0 0 c (invalidate_source i c).
Proof. unfold invalidate_source. case_match; by apply within_same. Qed.

Definition clocks_ok : Prop := forall n, 0 <= nanos W n.
Definition config_ok (cl : BlobClient) : Prop := 0 <= max_retries cl < u32_max.

Lemma max_attempts_eq cl : config_ok cl -> max_attempts cl = max_retries cl + 1.
Proof. unfold config_ok, max_attempts. lia. Qed.

(** A turn either answers, or repeats after a 401 (once), or repeats after a sleep, which needs an
    attempt to spare. *)
Lemma digest_cases cl a inv reply c :
  clocks_ok -> 1 <= a ->
  let '(c', t) := digest_reply cl a inv reply c in
  match t with
  | Answer _ => within 0 0 c c'
  | Again inv' => (inv = false /\ inv' = true /\ within 0 0 c c')
                  \/ (inv' = inv /\ a < max_attempts cl /\ within 0 1 c c')
  end.
Proof.
  intros Hck Ha. unfold digest_reply. destruct reply as [r|e].
  - destruct (stale_bearer cl (status r) inv) as [i|] eqn:Es.
    { left. unfold stale_bearer in Es. destruct (credential cl); try done. destruct inv.
      - rewrite andb_false_r in Es. done.
      - split_and!; [done..|apply within_invalidate]. }
    destruct (is_retryable_status (status r) && (a <? max_attempts cl)) eqn:Er.
    + right. case_bool. split_and!; [done|lia|].
      apply within_inc_sleep, retry_delay_bounds; [done|apply Hck].
    + destruct (is_retryable_status (status r)); [apply within_inc2|apply within_inc].
  - destruct ((a <? max_attempts cl) && retryable_error e) eqn:Er.
    + right. case_bool. split_and!; [done|lia|].
      apply within_inc_sleep. pose proof (backoff_bounds (nanos W (sent c)) a Ha (Hck _)). lia.
    + apply within_inc2.
Qed.

(** Requests left: the attempts not used yet (there is always one), and one for a 401. *)
Definition budget (cl : BlobClient) (attempt : Z) (inv : bool) : Z :=
  Z.max 1 (max_attempts cl - attempt) + (if inv then 0 else 1).

Lemma send_loop_bounded fuel cl m u extra ct body a inv c :
  clocks_ok -> 0 <= a -> budget cl a inv <= Z.of_nat fuel ->
  let '(c', r) := send_loop fuel cl m u extra ct body a inv c in
  is_Some r /\ within (budget cl a inv) (Z.max 0 (max_attempts cl - 1 - a)) c c'.
Proof.
  intros Hck. revert a inv c. induction fuel as [|n IH]; intros a inv c Ha Hf.
  { unfold budget in Hf. destruct inv; lia. }
  assert (Hb : 1 <= budget cl a inv) by (unfold budget; destruct inv; lia). simpl.
  pose proof (within_bearer cl c) as Hw. destruct (bearer_token cl c) as [c1 [b|e]]; simpl in Hw.
  2: { split; [done|]. eapply within_weaken; [exact Hw|lia..]. }
  destruct (build_headers _ _ _ _ _ _ _ _) as [[h|e]|].
  2, 3: split; [done|]; eapply within_weaken; [exact Hw|lia..].
  pose proof (digest_cases cl (a + 1) inv (http W (sent c1) m (request_url cl u) h body)
                (count_sent c1) Hck ltac:(lia)) as Hd.
  destruct (digest_reply _ _ _ _ _) as [c2 [r|inv']].
  { split; [done|]. pose proof (within_trans _ _ _ _ _ _ _ Hw
      (within_trans _ _ _ _ _ _ _ (within_count c1) Hd)).
    eapply within_weaken; [done|lia..]. }
  assert (Hstep : exists naps, within 1 naps c c2 /\ budget cl (a + 1) inv' + 1 <= budget cl a inv /\
    naps + Z.max 0 (max_attempts cl - 1 - (a + 1)) <= Z.max 0 (max_attempts cl - 1 - a)).
  { unfold budget. destruct Hd as [(-> & -> & Hd)|(-> & Hlt & Hd)];
      pose proof (within_trans _ _ _ _ _ _ _ Hw (within_trans _ _ _ _ _ _ _ (within_count c1) Hd)) as Ht.
    - exists 0. split_and!; [done|lia..].
    - exists 1. split_and!; [done|lia..]. }
  destruct Hstep as (naps & Hw2 & Hb2 & Hn2).
  specialize (IH (a + 1) inv' c2 ltac:(lia) ltac:(lia)).
  destruct (send_loop _ _ _ _ _ _ _ _ _ _) as [c3 r]. destruct IH as [Hr IH]. split; [done|].
  eapply within_weaken; [exact (within_trans _ _ _ _ _ _ _ Hw2 IH)|lia..].
Qed.

Lemma send_within cl m u extra ct body c :
  clocks_ok -> config_ok cl ->
  let '(c', r) := send cl m u extra ct body c in
  is_Some r /\ within (max_retries cl + 2) (max_retries cl) c c'.
Proof.
  intros Hck Hcf. pose proof (max_attempts_eq cl Hcf) as Hm. unfold send.
  pose proof (send_loop_bounded (send_fuel cl) cl m u extra ct body 0 false c Hck ltac:(lia)) as Hs.
  unfold budget, send_fuel in Hs. unfold config_ok in Hcf.
  specialize (Hs ltac:(lia)). unfold send_fuel. destruct (send_loop _ _ _ _ _ _ _ _ _ _) as [c' r].
  destruct Hs as [Hr Hs]. split; [done|]. eapply within_weaken; [exact Hs|lia..].
Qed.

Lemma range_loop_bounded fuel cl u extra a c :
  clocks_ok -> config_ok cl -> 0 <= a < max_attempts cl -> max_attempts cl - a <= Z.of_nat fuel ->
  let '(c', r) := range_loop fuel cl u extra a c in
  is_Some r /\ within ((max_attempts cl - a) * (max_retries cl + 2))
                 ((max_attempts cl - a) * (max_retries cl + 1)) c c'.
Proof.
  intros Hck Hcf. revert a c. induction fuel as [|n IH]; intros a c Ha Hf; [lia|]. cbn [range_loop].
  pose proof (send_within cl GET u extra None None c Hck Hcf) as Hs.
  destruct (send cl GET u extra None None c) as [c1 r]. destruct Hs as [[r' ->] Hw].
  unfold config_ok in Hcf.
  assert (Hend : within ((max_attempts cl - a) * (max_retries cl + 2))
                   ((max_attempts cl - a) * (max_retries cl + 1)) c c1)
    by (eapply within_weaken; [exact Hw|nia..]).
  destruct r' as [[resp|e]|]; simpl; [|split; [done|exact Hend]..].
  destruct (negb (is_success (status resp))); [by split|]. destruct (bytes resp) as [d|e]; [by split|].
  destruct ((a + 1 <? max_attempts cl) && retryable_body e) eqn:Er.
  - case_bool. set (c2 := sleep _ _).
    assert (Hw2 : within 0 1 c1 c2).
    { apply within_inc_sleep. pose proof (backoff_bounds (nanos W (sent c1)) (a + 1) ltac:(lia) (Hck _)). lia. }
    specialize (IH (a + 1) c2 ltac:(lia) ltac:(lia)).
    destruct (range_loop _ _ _ _ _ _) as [c3 r]. destruct IH as [Hr IH]. split; [done|].
    eapply within_weaken; [exact (within_trans _ _ _ _ _ _ _ (within_trans _ _ _ _ _ _ _ Hw Hw2) IH)|nia..].
  - simpl. split; [done|]. eapply within_weaken;
      [exact (within_trans _ _ _ _ _ _ _ Hend (within_inc2 cl _ _ c1))|lia..].
Qed.

(** ** Where an answer comes from *)

(** An accepted answer is the reply to one of the requests, sent to the URL (with the SAS token)
    under headers that [build_headers] made. *)
Lemma send_loop_answer fuel cl m u extra ct body a inv c c' resp :
  send_loop fuel cl m u extra ct body a inv c = (c', Some (Returns (Ok resp))) ->
  exists n d bearer h,
    build_headers cl d u (method_str m) ct (len <$> body) extra bearer = Returns (Ok h) /\
    http W n m (request_url cl u) h body = Ok resp.
Proof.
  revert a inv c. induction fuel as [|n IH]; intros a inv c; [done|]. simpl.
  destruct (bearer_token cl c) as [c1 [b|e]]; [|done].
  destruct (build_headers _ _ _ _ _ _ _ _) as [[h|e]|] eqn:Eh; [|done..].
  destruct (digest_reply _ _ _ _ _) as [c2 [r|inv']] eqn:Ed; [|apply IH].
  intros [= _ ->]. exists (sent c1), (date W (sent c1)), b, h. split; [done|].
  unfold digest_reply in Ed. destruct (http _ _ _ _ _ _) as [r|e].
  - destruct (stale_bearer _ _ _); [done|]. case_match; [done|]. by injection Ed as _ <-.
  - case_match; [done|]. by injection Ed.
Qed.

Lemma insert_str_some n s h h' :
  insert_str n s h = Returns h' -> h' = hm_insert n (str_bytes s) h.
Proof.
  unfold insert_str, unwrap. destruct (hv_from_str s) as [v|] eqn:E; [|done].
  apply hv_from_some in E as ->. by intros [= <-].
Qed.

(** A body-less request carries its single extra header. *)
Lemma build_headers_extra cl d u m n v bearer h :
  to_ascii_lowercase n <> "authorization" ->
  build_headers cl d u m None None [(n, v)] bearer = Returns (Ok h) -> hm_get n h = Some v.
Proof.
  intros Hn. unfold build_headers. destruct (insert_str _ d hm_new) as [h0|] eqn:E0; [|done].
  apply insert_str_some in E0 as ->. simpl.
  set (h0 := hm_insert "x-ms-version" _ _). assert (Hs : single h0) by eauto with blob. clearbody h0.
  assert (Hauth : forall s h2, insert_str "Authorization" s (hm_insert n v h0) = Returns h2 ->
            hm_get n h2 = Some v).
  { intros s h2 ->%insert_str_some. rewrite hm_get_insert_ne; [apply hm_get_insert|by apply single_insert|].
    by apply not_eq_sym. }
  destruct (credential cl); simpl; try (intros [= <-]; apply hm_get_insert).
  - destruct (sign _ _ _ _ _ _) as [s|]; [|done]. simpl.
    destruct (insert_str _ s _) as [h2|] eqn:E; [|done]. intros [= <-]. by eapply Hauth.
  - destruct bearer as [t|]; [|intros [= <-]; apply hm_get_insert].
    destruct (insert_str _ (_ +:+ t) _) as [h2|] eqn:E; [|done]. intros [= <-]. by eapply Hauth.
Qed.

Lemma request_url_same cl u :
  url_host (request_url cl u) = url_host u /\ url_path (request_url cl u) = url_path u.
Proof.
  unfold request_url, Auth.append_sas_token. destruct (credential cl); [done| |done..].
  case_match; by rewrite url_host_set, url_path_set.
Qed.

(** ** Ranges of a blob *)

(** [stored host path] is the blob behind a URL.  The service answers a ranged read successfully
    only with that range of the blob, cut at its end, and never for an inverted range. *)
Definition honest_service (stored : string -> string -> Bytes) : Prop :=
  forall n u h resp d first last,
    is_u64 first -> is_u64 last ->
    hm_get "x-ms-range" h = Some (str_bytes (range_val first last)) ->
    http W n GET u h None = Ok resp -> is_success (status resp) = true -> bytes resp = Ok d ->
    first <= last /\
    d = slice (stored (url_host u) (url_path u)) first
          (Z.min (last + 1) (len (stored (url_host u) (url_path u)))).

Lemma last_byte_range o n : is_u64 (last_byte o n).
Proof.
  unfold last_byte, wrap64, is_u64. pose proof (Z.mod_pos_bound (wadd64 o n - 1) u64_mod ltac:(done)).
  unfold u64_max. lia.
Qed.

(** The bound only makes sense for a non-empty range; beyond the address space it is inverted. *)
Lemma last_byte_spec o n :
  is_u64 o -> 0 < n <= u64_max -> o <= last_byte o n -> last_byte o n = o + n - 1.
Proof.
  unfold last_byte, wadd64, wrap64. intros Ho Hn. rewrite Zminus_mod_idemp_l.
  destruct (decide (o + n - 1 <= u64_max)) as [Hle|Hgt].
  - intros _. apply Z.mod_small. u64_lia.
  - replace (o + n - 1) with (o + n - 1 - u64_mod + 1 * u64_mod) by lia.
    rewrite Z.mod_add, Z.mod_small by u64_lia. u64_lia.
Qed.

Lemma range_loop_correct stored fuel cl u o n a c c' d :
  honest_service stored -> is_u64 o -> 0 < n <= u64_max ->
  range_loop fuel cl u [("x-ms-range", str_bytes (range_val o (last_byte o n)))] a c
    = (c', Some (Returns (Ok d))) ->
  d = slice (stored (url_host u) (url_path u)) o
        (Z.min (o + n) (len (stored (url_host u) (url_path u)))).
Proof.
  intros Hsv Ho Hn. revert a c. induction fuel as [|k IH]; intros a c; [done|]. cbn [range_loop].
  destruct (send _ _ _ _ _ _ _) as [c1 [[[resp|e]|]|]] eqn:Es; simpl; try done.
  destruct (is_success (status resp)) eqn:Eok; simpl; [|done].
  destruct (bytes resp) as [b|e] eqn:Eb.
  2: { case_match; [apply IH|done]. }
  intros [= _ <-]. apply send_loop_answer in Es as (i & dt & br & h & Eh & Er).
  apply build_headers_extra in Eh; [|done].
  destruct (Hsv i _ h resp b o (last_byte o n) Ho (last_byte_range o n) Eh Er Eok Eb) as [Hle ->].
  destruct (request_url_same cl u) as [-> ->]. rewrite (last_byte_spec o n Ho Hn Hle).
  do 2 f_equal. lia.
Qed.

Definition blob_origin (stored : string -> string -> Bytes) (account container path : string) : Bytes :=
  match blob_url account container path with
  | Ok u => stored (url_host u) (url_path u)
  | Err _ => []
  end.

Lemma get_blob_range_correct stored cl account container blob o n c c' d :
  honest_service stored -> is_u64 o -> 0 < n <= u64_max ->
  get_blob_range cl account container blob o n c = (c', Some (Returns (Ok d))) ->
  d = slice (blob_origin stored account container blob) o
        (Z.min (o + n) (len (blob_origin stored account container blob))).
Proof.
  intros Hsv Ho Hn. unfold get_blob_range, blob_origin.
  destruct (blob_url account container blob) as [u|e]; [|done].
  destruct (hv_from_str _) as [v|] eqn:Ev; [|done]. apply hv_from_some in Ev as ->.
  by apply range_loop_correct.
Qed.

Lemma digit_visible l : forallb is_digit l = true -> forallb visible l = true.
Proof.
  rewrite !forallb_forall. intros Hl b Hb. specialize (Hl b Hb).
  unfold is_digit, visible, in_range in *. case_bool. apply andb_true_iff. split; apply Z.leb_le; lia.
Qed.

(** The range header is a valid header value: reading a range never panics on it. *)
Lemma range_val_visible first last :
  hv_from_str (range_val first last) = Some (str_bytes (range_val first last)).
Proof.
  apply hv_from_visible. unfold range_val. rewrite !str_bytes_app, !forallb_app.
  by rewrite (digit_visible _ (show_digits first)), (digit_visible _ (show_digits last)).
Qed.

(** ** Riding out faults *)

(** The client can authorize: a token when it needs one, and headers. *)
Definition authorizes (cl : BlobClient) : Prop :=
  forall u m extra c, exists c1 b h, bearer_token cl c = (c1, Ok b) /\
    build_headers cl (date W (sent c1)) u m None None extra b = Returns (Ok h).

(** A reply after which the loop turns again while attempts are left. *)
Definition transient (reply : result HttpError Response) : Prop :=
  match reply with
  | Ok r => is_retryable_status (status r) = true
  | Err e => retryable_error e = true
  end.

(** A reply the loop hands to its caller. *)
Definition final (resp : Response) : Prop :=
  is_retryable_status (status resp) = false /\ status resp <> 401.

Lemma not_stale cl st inv : st <> 401 -> stale_bearer cl st inv = None.
Proof.
  intros Hst. unfold stale_bearer. destruct (credential cl); try done.
  by rewrite (proj2 (Z.eqb_neq st 401) Hst).
Qed.

Lemma retryable_not_401 st : is_retryable_status st = true -> st <> 401.
Proof. by intros Hr ->. Qed.

Lemma bearer_sent cl c : sent (bearer_token cl c).1 = sent c.
Proof.
  unfold bearer_token. destruct (credential cl); try done. destruct (sources c !! src); [|done].
  by destruct (Auth.token _ _ _).
Qed.

Lemma inc_sent cl n c : sent (inc cl n c) = sent c.
Proof. unfold inc. by case_match. Qed.

Lemma send_loop_faults k fuel cl m u extra a inv c resp :
  authorizes cl -> (k < fuel)%nat -> a + Z.of_nat k < max_attempts cl ->
  (forall i h, (i < k)%nat -> transient (http W (sent c + i) m (request_url cl u) h None)) ->
  (forall h, http W (sent c + k) m (request_url cl u) h None = Ok resp) -> final resp ->
  exists c', send_loop fuel cl m u extra None None a inv c = (c', Some (Returns (Ok resp))) /\
    sent c' = S (sent c + k).
Proof.
  intros Hau. revert fuel a c. induction k as [|k IH]; intros [|fuel] a c Hf Ha Htr Hok Hfin; try lia.
  - destruct (Hau u (method_str m) extra c) as (c1 & b & h & Eb & Eh).
    pose proof (bearer_sent cl c) as Hs. rewrite Eb in Hs. simpl in Hs.
    simpl. rewrite Eb, Eh, Hs. rewrite Nat.add_0_r in Hok. rewrite Hok. simpl.
    destruct Hfin as [Hr Hst]. rewrite (not_stale _ _ _ Hst), Hr. simpl.
    eexists. split; [reflexivity|]. rewrite inc_sent. simpl. lia.
  - destruct (Hau u (method_str m) extra c) as (c1 & b & h & Eb & Eh).
    pose proof (bearer_sent cl c) as Hs. rewrite Eb in Hs. simpl in Hs.
    simpl. rewrite Eb, Eh, Hs.
    assert (Hturn : exists c2, digest_reply cl (a + 1) inv (http W (sent c) m (request_url cl u) h None)
              (count_sent c1) = (c2, Again inv) /\ sent c2 = S (sent c)).
    { specialize (Htr 0%nat h ltac:(lia)). rewrite Nat.add_0_r in Htr. unfold digest_reply.
      assert (Hlt : (a + 1 <? max_attempts cl) = true) by (apply Z.ltb_lt; lia).
      destruct (http _ _ _ _ _ _) as [r|e]; simpl in Htr.
      - rewrite not_stale by by apply retryable_not_401. rewrite Htr, Hlt. simpl.
        eexists. split; [reflexivity|]. simpl. rewrite inc_sent. simpl. lia.
      - rewrite Htr, Hlt. simpl. eexists. split; [reflexivity|]. simpl. rewrite inc_sent. simpl. lia. }
    destruct Hturn as (c2 & -> & Hs2). destruct (IH fuel (a + 1) c2) as (c' & Hc' & Hn);
      [lia|lia| | |done|].
    + intros i h' Hi. rewrite Hs2. replace (S (sent c) + i)%nat with (sent c + S i)%nat by lia.
      apply Htr. lia.
    + intros h'. rewrite Hs2. replace (S (sent c) + k)%nat with (sent c + S k)%nat by lia. apply Hok.
    + exists c'. split; [exact Hc'|]. lia.
Qed.

Lemma authorizes_plain cl :
  (credential cl = Auth.Anonymous \/ exists t, credential cl = Auth.Sas t) ->
  (forall n, forallb visible (str_bytes (date W n)) = true) -> authorizes cl.
Proof.
  intros Hc Hd u m extra c. exists c, None.
  assert (Hb : bearer_token cl c = (c, Ok None)).
  { unfold bearer_token. by destruct Hc as [->|[t ->]]. }
  rewrite Hb. unfold build_headers, insert_str. rewrite hv_from_visible by apply Hd. simpl.
  eexists. split; [done|]. by destruct Hc as [->|[t ->]].
Qed.

(** ** Listings *)
Definition page_blobs (p : BlobListResponse) : list ListedBlob :=
  omap (fun e => match e with Blob b => Some (listed b) | BlobPrefix _ => None end) (default [] (blobs p)).
Definition page_prefixes (p : BlobListResponse) : list string :=
  omap (fun e => match e with Blob _ => None | BlobPrefix n => Some n end) (default [] (blobs p)).

Lemma push_entries_spec l acc :
  push_entries l acc
  = (acc.1 ++ omap (fun e => match e with Blob b => Some (listed b) | BlobPrefix _ => None end) l,
     acc.2 ++ omap (fun e => match e with Blob _ => None | BlobPrefix n => Some n end) l).
Proof.
  revert acc. induction l as [|[b|p] l IH]; intros [x y]; simpl; [by rewrite !app_nil_r| |];
    rewrite IH; simpl; by rewrite <- app_assoc.
Qed.

Section listing.
Context (cl : BlobClient) (account container : string) (prefix : option string) (recursive : bool).

(** The service answers the request with marker [m] with the page [p]. *)
Definition serves (m : option string) (p : BlobListResponse) : Prop :=
  exists u, url_parse (list_url account container prefix recursive m) = Ok u /\
    forall n h, exists resp t, http W n GET (request_url cl u) h None = Ok resp /\
      status resp = 200 /\ text resp = Ok t /\ from_xml t = Ok p.

(** The pages from marker [m] on, each naming the next. *)
Inductive listing : option string -> list BlobListResponse -> Prop :=
| listing_last m p : serves m p -> more p = None -> listing m [p]
| listing_more m p m' ps : serves m p -> more p = Some m' -> listing (Some m') ps -> listing m (p :: ps).

Lemma list_loop_pages m ps fuel acc c :
  authorizes cl -> config_ok cl -> listing m ps -> (length ps <= fuel)%nat ->
  exists c', list_loop fuel cl account container prefix recursive m acc c
    = (c', Some (Returns (Ok (acc.1 ++ (ps ≫= page_blobs), acc.2 ++ (ps ≫= page_prefixes))))) /\
    sent c' = (sent c + length ps)%nat.
Proof using Type.
  intros Hau Hcf Hl. revert fuel acc c.
  assert (Hturn : forall p m0 c0, serves m0 p -> exists u c1 resp t,
    url_parse (list_url account container prefix recursive m0) = Ok u /\
    send cl GET u [] None None c0 = (c1, Some (Returns (Ok resp))) /\ status resp = 200 /\
    text resp = Ok t /\ from_xml t = Ok p /\ sent c1 = S (sent c0)).
  { intros p m0 c0 (u & Hu & Hs). pose proof (max_attempts_eq cl Hcf) as Hma. unfold config_ok in Hcf.
    destruct (Hau u (method_str GET) [] c0) as (c1 & b & h & Eb & Eh).
    pose proof (bearer_sent cl c0) as Hsent. rewrite Eb in Hsent. simpl in Hsent.
    destruct (Hs (sent c0) h) as (resp & t & Er & Est & Et & Ex).
    exists u. unfold send, send_fuel. cbn [send_loop]. rewrite Eb. cbn [fmap option_fmap option_map].
    rewrite Eh, Hsent, Er. unfold digest_reply. rewrite not_stale by (rewrite Est; lia). rewrite Est.
    simpl. eexists _, resp, t. split_and!; [done|reflexivity|done..|]. rewrite inc_sent. simpl. lia. }
  induction Hl as [m p Hs Hm|m p m' ps Hs Hm _ IH]; intros [|fuel] acc c Hf; simpl in Hf; try lia;
    destruct (Hturn p m c Hs) as (u & c1 & resp & t & Hu & Hse & Hst & Ht & Hx & Hn);
    cbn [list_loop]; rewrite Hu; cbn [map_err]; rewrite Hse; cbn [then_ok]; rewrite Ht, Hst;
    cbn [is_success negb]; change (negb (is_success 200)) with false; cbv iota; rewrite Hx, Hm,
    push_entries_spec.
  - exists c1. simpl. rewrite !app_nil_r. split; [done|]. lia.
  - destruct (IH fuel (acc.1 ++ page_blobs p, acc.2 ++ page_prefixes p) c1 ltac:(lia)) as (c' & Hc' & Hn').
    exists c'. split; [|simpl; lia]. cbn [fst snd] in Hc'. rewrite <- !app_assoc in Hc'. exact Hc'.
Qed.
End listing.

(** A range read always comes to an end. *)
Lemma get_blob_range_within cl account container blob o n c :
  clocks_ok -> config_ok cl ->
  let '(c', r) := get_blob_range cl account container blob o n c in
  is_Some r /\ within ((max_retries cl + 1) * (max_retries cl + 2)) ((max_retries cl + 1) ^ 2) c c'.
Proof.
  intros Hck Hcf. pose proof (max_attempts_eq cl Hcf) as Hm. unfold config_ok in Hcf. unfold get_blob_range.
  assert (H0 : within ((max_retries cl + 1) * (max_retries cl + 2)) ((max_retries cl + 1) ^ 2) c c)
    by (eapply within_weaken; [apply within_refl|nia..]).
  destruct (blob_url _ _ _) as [v|e]; [|by split]. destruct (hv_from_str _) as [x|]; [|by split].
  pose proof (range_loop_bounded (Z.to_nat (max_attempts cl)) cl v [("x-ms-range", x)] 0 c Hck Hcf
                ltac:(lia) ltac:(lia)) as Hr.
  destruct (range_loop _ _ _ _ _ _) as [c' r]. destruct Hr as [Hs Hr]. split; [done|].
  eapply within_weaken; [exact Hr|rewrite Hm; nia..].
Qed.

Lemma get_blob_range_returns cl account container blob o n c :
  clocks_ok -> config_ok cl -> is_Some (get_blob_range cl account container blob o n c).2.
Proof.
  intros Hck Hcf. pose proof (get_blob_range_within cl account container blob o n c Hck Hcf) as Hr.
  destruct (get_blob_range _ _ _ _ _ _ _) as [c' r]. by destruct Hr.
Qed.

(** ** Theorems *)

(** C12.  Requests to the blob service terminate: whatever the service, the network and the identity
    provider answer, a request returns after at most [max_retries + 2] exchanges and [max_retries]
    sleeps of at most a minute (the extra exchange is the one after a rejected token), and a range
    read, which restarts the request when the body breaks off, after at most [max_retries + 1] times
    that and as many sleeps of its own. *)
Theorem requests_bounded cl m u extra ct body account container blob o n c :
  clocks_ok -> config_ok cl ->
  (let '(c', r) := send cl m u extra ct body c in
   is_Some r /\ within (max_retries cl + 2) (max_retries cl) c c') /\
  (let '(c', r) := get_blob_range cl account container blob o n c in
   is_Some r /\ within ((max_retries cl + 1) * (max_retries cl + 2)) ((max_retries cl + 1) ^ 2) c c').
Proof. intros Hck Hcf. split; [by apply send_within|by apply get_blob_range_within]. Qed.

(** C35.  A range read rides out faults: when the service throttles, fails or drops the connection
    fewer than [max_retries + 1] times in a row and then answers with the body, the read returns
    exactly that body, with one request per fault and one for the answer. *)
Theorem range_rides_out_faults cl account container blob u o n k c resp d :
  authorizes cl -> config_ok cl -> Z.of_nat k <= max_retries cl ->
  blob_url account container blob = Ok u ->
  (forall i h, (i < k)%nat -> transient (http W (sent c + i) GET (request_url cl u) h None)) ->
  (forall h, http W (sent c + k) GET (request_url cl u) h None = Ok resp) ->
  is_success (status resp) = true -> bytes resp = Ok d ->
  exists c', get_blob_range cl account container blob o n c = (c', Some (Returns (Ok d))) /\
    sent c' = S (sent c + k).
Proof.
  intros Hau Hcf Hk Hu Htr Hok Hst Hd. pose proof (max_attempts_eq cl Hcf) as Hm. unfold config_ok in Hcf.
  unfold get_blob_range. rewrite Hu, range_val_visible.
  destruct (Z.to_nat (max_attempts cl)) as [|f] eqn:Ef; [lia|]. cbn [range_loop].
  destruct (send_loop_faults k (send_fuel cl) cl GET u
    [("x-ms-range", str_bytes (range_val o (last_byte o n)))] 0 false c resp)
    as (c' & Hs & Hn); [done|unfold send_fuel; lia|lia|done|done| |].
  { unfold is_success in Hst. case_bool. unfold final, is_retryable_status.
    split; [|lia]. rewrite !orb_false_iff, !Z.eqb_neq. lia. }
  exists c'. unfold send. rewrite Hs. simpl. rewrite Hst, Hd. done.
Qed.

(** C36.  A listing is complete: when the service hands out a chain of pages, [list_blobs] fetches
    each page once, in order, and returns the blobs and the prefixes of all of them and nothing
    else, in the order of the pages. *)
Theorem list_blobs_complete cl account container prefix recursive ps fuel c :
  authorizes cl -> config_ok cl -> listing cl account container prefix recursive None ps ->
  (length ps <= fuel)%nat ->
  exists c', list_blobs fuel cl account container prefix recursive c
    = (c', Some (Returns (Ok (ps ≫= page_blobs, ps ≫= page_prefixes)))) /\
    sent c' = (sent c + length ps)%nat.
Proof. intros Hau Hcf Hl Hf. exact (list_loop_pages cl _ _ _ _ _ ps fuel ([], []) c Hau Hcf Hl Hf). Qed.
End client.

(** ** A small service for the witnesses: one blob of ten bytes behind every URL, throttled for the
    first two requests; and a listing of two pages *)
Definition demo_blob : Bytes := str_bytes "0123456789".
Definition demo_resp (st : Z) (b : Bytes) : Response := mkResponse st hm_new (Ok b) (Ok (bytes_str b)).

Definition parse_range (v : Bytes) : option (Z * Z) :=
  match strip_prefix "bytes=" (bytes_str v) with
  | Some r =>
      match split_at "-" r with
      | (a, Some b) => match parse_u64 a, parse_u64 b with Some x, Some y => Some (x, y) | _, _ => None end
      | _ => None
      end
  | None => None
  end.

Definition demo_http (n : nat) (m : Method) (u : url) (h : header_map) (b : option Bytes)
    : result HttpError Response :=
  if (n <? 2)%nat then Ok (demo_resp 503 []) else
  match hm_get "x-ms-range" h ≫= parse_range with
  | Some (first, last) =>
      if first <=? last
      then Ok (demo_resp 206 (slice demo_blob first (Z.min (last + 1) (len demo_blob))))
      else Ok (demo_resp 416 [])
  | None => Ok (demo_resp 200 demo_blob)
  end.

Definition demo_world : World :=
  mkWorld demo_http (fun _ => "Mon, 01 Jan 2024 00:00:00 GMT") (fun n => Z.of_nat n) (fun _ => 0)
    (fun _ => Err "no refresh").

Definition demo_client : BlobClient := new Auth.Anonymous true.
Definition demo_conn : Conn := mkConn 0 [] [] ∅.
Definition demo_sign (_ _ _ : string) (_ : url) (_ : header_map) (_ : option Z) : run string := Panics.

Lemma digits_no_dash s : forallb is_digit (str_bytes s) = true -> contains_char "-" s = false.
Proof. intros Hs. by eapply contains_char_false. Qed.

Lemma parse_range_val first last :
  is_u64 first -> is_u64 last -> parse_range (str_bytes (range_val first last)) = Some (first, last).
Proof.
  intros Hf Hl. unfold parse_range. rewrite bytes_str_bytes.
  unfold range_val. rewrite strip_prefix_app.
  change ("-" +:+ show last) with (String "-" (show last)). rewrite split_at_app by apply digits_no_dash, show_digits. by rewrite !parse_show.
Qed.

Lemma demo_honest_service : honest_service demo_world (fun _ _ => demo_blob).
Proof.
  intros n u h resp d first last Hf Hl Hh. simpl. unfold demo_http. rewrite Hh. simpl.
  rewrite parse_range_val by done. destruct (n <? 2)%nat; [by intros [= <-]|].
  destruct (first <=? last) eqn:E; [|by intros [= <-]]. intros [= <-] _ [= <-]. case_bool. done.
Qed.

Lemma demo_config : config_ok demo_client.
Proof. unfold config_ok. simpl. unfold u32_max, u32_mod. lia. Qed.

Lemma requests_bounded_witness :
  is_Some (get_blob_range demo_world demo_sign demo_client "a" "c" "b" 4 4 demo_conn).2.
Proof.
  pose proof (requests_bounded demo_world demo_sign demo_client GET ("h", "/", None) [] None None
    "a" "c" "b" 4 4 demo_conn) as Hb.
  destruct Hb as [_ Hb]; [intros n; simpl; lia|exact demo_config|].
  revert Hb. generalize (get_blob_range demo_world demo_sign demo_client "a" "c" "b" 4 4 demo_conn).
  intros [c r] [Hr _]. exact Hr.
Defined.

(** The same service for one range, so that its replies do not depend on the headers. *)
Definition demo_throttled : World :=
  mkWorld (fun n _ _ _ _ => if (n <? 2)%nat then Ok (demo_resp 503 []) else Ok (demo_resp 206 (str_bytes "4567")))
    (date demo_world) (nanos demo_world) (now demo_world) (refresh demo_world).

Lemma range_rides_out_faults_witness :
  exists c', get_blob_range demo_throttled demo_sign demo_client "a" "c" "b" 4 4 demo_conn
    = (c', Some (Returns (Ok (str_bytes "4567")))) /\ sent c' = 3%nat.
Proof.
  apply (range_rides_out_faults demo_throttled demo_sign demo_client "a" "c" "b"
    ("a.blob.core.windows.net", "/c/b", None) 4 4 2 demo_conn (demo_resp 206 (str_bytes "4567"))).
  - apply authorizes_plain; [by left|reflexivity].
  - exact demo_config.
  - simpl. lia.
  - reflexivity.
  - intros i h Hi. destruct i as [|[|i]]; [reflexivity|reflexivity|lia].
  - reflexivity.
  - reflexivity.
  - reflexivity.
Defined.

Definition demo_item (n : string) (l : Z) : BlobOrPrefix :=
  Blob (mkBlobItem n (mkBlobProperties (Some l) None None)).

Definition demo_xml (t : string) : result string BlobListResponse :=
  if String.eqb t "page 1"
  then Ok (mkBlobListResponse (Some [demo_item "a" 1; BlobPrefix "d/"]) (Some "2"))
  else Ok (mkBlobListResponse (Some [demo_item "b" 2]) None).

Definition demo_lister : World :=
  mkWorld (fun _ _ u _ _ =>
      Ok (demo_resp 200 (str_bytes (if str_contains "marker=" (default "" (url_query u)) then "page 2" else "page 1"))))
    (date demo_world) (nanos demo_world) (now demo_world) (refresh demo_world).

Lemma list_blobs_complete_witness :
  exists c', list_blobs demo_lister demo_sign (fun s => s) demo_xml 5 demo_client "a" "c" None false demo_conn
    = (c', Some (Returns (Ok ([mkListedBlob "a" 1 None None; mkListedBlob "b" 2 None None], ["d/"])))) /\
    sent c' = 2%nat.
Proof.
  apply (list_blobs_complete demo_lister demo_sign (fun s => s) demo_xml demo_client "a" "c" None false
    [mkBlobListResponse (Some [demo_item "a" 1; BlobPrefix "d/"]) (Some "2");
     mkBlobListResponse (Some [demo_item "b" 2]) None] 5).
  - apply authorizes_plain; [by left|reflexivity].
  - exact demo_config.
  - eapply listing_more; [| reflexivity|apply listing_last; [|reflexivity]].
    all: eexists; split; [vm_compute; reflexivity|].
    all: intros n h; eexists _, _; split_and!; [reflexivity|reflexivity|reflexivity|vm_compute; reflexivity].
  - simpl. lia.
Defined.
End Azure.
