(* ===== verification/Transport.v ===== *)
(** * The HTTP peer transport and the transport interface (src/src/transport.rs, src/src/request_id.rs)

    Module [Transport]: the server's [PeerService], the TCP client, and the dispatch of [PeerClient]
    between TCP and RDMA.  Percent encoding and form parsing belong to crates: [PercentCodec] states
    their documented round trips, [percent_codec] is an instance.  [PeerTransport] is what the rest
    of the daemon relies on: a fetch hands out nothing but what the server's cache or its chunk
    provider holds under the key; both transports are instances. *)

From S2P Require Import Prelude ChunkKeys DiskCache Cluster PeerIndex Gossip Wire UcxRuntime HttpApi.

(** ** Request ids *)
Module RequestId.

(** The identifier is accepted after trimming: up to 128 letters, digits and dashes. *)
Definition from_header (s : string) : option string :=
  let s := trim s in
  if (str_len s =? 0) || (128 <? str_len s) then None
  else if negb (forallb Wire.rid_char (str_bytes s)) then None
  else Some s.

(** [uuid] is the text of [Uuid::new_v4]: 36 hexadecimal digits and dashes. *)
Definition new (uuid : string) : string := uuid.

(** What the TCP server accepts is what the RDMA frame can carry. *)
Lemma from_header_wire s r :
  from_header s = Some r ->
  0 < str_len r <= 128 /\ forallb Wire.rid_char (str_bytes r) = true.
Proof.
  unfold from_header. destruct (_ || _) eqn:E; [done|]. destruct (negb _) eqn:F; [done|].
  intros [= <-]. case_bool. split; [|done]. pose proof (len_nonneg (str_bytes (trim s))).
  unfold str_len in *. lia.
Qed.

(** White space that no accepted character begins is not found. *)
Lemma strip_front_rid ws fuel l :
  forallb (fun w => match w with b :: _ => negb (Wire.rid_char b) | [] => false end) ws = true ->
  forallb Wire.rid_char l = true -> strip_front ws fuel l = l.
Proof.
  intros Hws Hl. destruct fuel as [|fuel]; [done|]. cbn [strip_front].
  destruct (list_find _ ws) as [[i w]|] eqn:E; [|done]. apply list_find_Some in E as (Hi & Hw & _).
  rewrite forallb_forall in Hws. assert (Hin : In w ws) by (apply list_elem_of_In; by eapply list_elem_of_lookup_2).
  specialize (Hws w Hin). destruct w as [|b w]; [done|]. destruct l as [|c l]; [done|].
  injection Hw as -> _. simpl in Hl. by destruct (Wire.rid_char b).
Qed.

Lemma trim_rid s : forallb Wire.rid_char (str_bytes s) = true -> trim s = s.
Proof.
  intros Hs. unfold trim. rewrite (strip_front_rid whitespace) by (exact Hs || (vm_compute; reflexivity)).
  rewrite strip_front_rid; [by rewrite reverse_involutive, bytes_str_bytes|vm_compute; reflexivity|].
  rewrite forallb_forall in *. intros b Hb. apply Hs. by apply list_elem_of_In, elem_of_reverse, list_elem_of_In.
Qed.

(** An identifier that was generated or accepted arrives unchanged at the next hop. *)
Lemma rid_forwarded s :
  0 < str_len s <= 128 -> forallb Wire.rid_char (str_bytes s) = true -> from_header (new s) = Some s.
Proof.
  intros Hl Hs. unfold from_header, new. rewrite trim_rid, Hs by done. simpl.
  by rewrite (proj2 (Z.eqb_neq _ _)), (proj2 (Z.ltb_ge _ _)) by lia.
Qed.
End RequestId.

Module Transport.
Import HttpApi.

(** ** Percent encoding *)
Definition encoded_char (b : byte) : bool := is_ascii_alphanumeric b || (byte_val b =? 37).
Definition key_char (b : byte) : bool := is_ascii_alphanumeric b || (byte_val b =? 95).

(** A query of [key=value] pairs with encoded values. *)
Definition form_pair (encode : string -> string) (kv : string * string) : string :=
  kv.1 +:+ "=" +:+ encode kv.2.
Definition form_query (encode : string -> string) (ps : list (string * string)) : string :=
  join "&" (form_pair encode <$> ps).

Definition plain_pair (kv : string * string) : Prop :=
  forallb key_char (str_bytes kv.1) = true /\ utf8_valid (str_bytes kv.2) = true.

(** [utf8_percent_encode] with [NON_ALPHANUMERIC], [percent_decode_str] with its UTF-8 check, and
    [form_urlencoded::parse]. *)
Class PercentCodec := {
  percent_encode : string -> string;
  percent_decode : string -> option string;
  form_parse : string -> list (string * string);
  percent_plain s : forallb encoded_char (str_bytes (percent_encode s)) = true;
  percent_alnum s : forallb is_ascii_alphanumeric (str_bytes s) = true -> percent_encode s = s;
  percent_roundtrip s : utf8_valid (str_bytes s) = true -> percent_decode (percent_encode s) = Some s;
  form_roundtrip ps :
    ps <> [] -> Forall plain_pair ps -> form_parse (form_query percent_encode ps) = ps
}.

(** ** The server *)
Abbreviation Provider := (ChunkKey -> Z -> Z -> option Bytes).

Record PeerService := mkPeerService {
  cache : Cache.DiskCache;
  cluster_hash_hex : string;
  chunk_requests : Z;
  chunk_bytes_served : Z;
  chunk_provider : option Provider
}.

Definition hex32 (b : Bytes) : string := hex b.

Definition new (c : Cache.DiskCache) (cluster_hash : Bytes) : PeerService :=
  mkPeerService c (hex32 cluster_hash) 0 0 None.

Definition with_chunk_provider (p : Provider) (s : PeerService) : PeerService :=
  mkPeerService (cache s) (cluster_hash_hex s) (chunk_requests s) (chunk_bytes_served s) (Some p).

Definition set_cache (c : Cache.DiskCache) (s : PeerService) : PeerService :=
  mkPeerService c (cluster_hash_hex s) (chunk_requests s) (chunk_bytes_served s) (chunk_provider s).
Definition count_request (s : PeerService) : PeerService :=
  mkPeerService (cache s) (cluster_hash_hex s) (wadd64 (chunk_requests s) 1) (chunk_bytes_served s)
    (chunk_provider s).
Definition count_served (n : Z) (s : PeerService) : PeerService :=
  mkPeerService (cache s) (cluster_hash_hex s) (chunk_requests s) (wadd64 (chunk_bytes_served s) n)
    (chunk_provider s).

Record Request := mkRequest {
  method : Gossip.Method;
  path : string;
  query : option string
}.

Definition not_found : Gossip.Response := Gossip.mkResponse 404 [] (str_bytes "not found").
Definition miss : Gossip.Response := Gossip.mkResponse 404 [] (str_bytes "miss").
Definition bad_request (why : string) : Gossip.Response :=
  Gossip.mkResponse 400 [] (str_bytes ("bad: " +:+ why)).
Definition json_ok (body : Bytes) : Gossip.Response :=
  Gossip.mkResponse 200 [("content-type", "application/json")] body.
Definition chunk_response (b : Bytes) : Gossip.Response :=
  Gossip.mkResponse 200 [("content-type", "application/octet-stream"); ("content-length", show (len b))] b.

(** [str::splitn]. *)
Fixpoint splitn (n : nat) (c : ascii) (s : string) : list string :=
  match n with
  | O => []
  | S O => [s]
  | S n =>
      match split_at c s with
      | (a, Some b) => a :: splitn n c b
      | (a, None) => [a]
      end
  end.

(** A [HashMap] collected from the pairs: the last value of a key stays. *)
Definition qs_get (ps : list (string * string)) (k : string) : option string :=
  snd <$> last (filter (fun kv => kv.1 = k) ps).

Definition parse_u32 (s : string) : option Z :=
  match parse_u64 s with
  | Some z => if z <=? u32_max then Some z else None
  | None => None
  end.

Section server.
Context {P : PercentCodec} (sha256 : Bytes -> Bytes).
(** Whether the blocking task returned and whether the file could be read; the JSON of the health
    reply. *)
Context (joined read_ok : bool) (health_json : string -> Bytes).

(** The request's key, length and wait, or the name of the part that is bad. *)
Definition chunk_params (req : Request) : result string (ChunkKey * Z * Z) :=
  match splitn 4 slash (path req) with
  | [_; _; _; part] =>
      match percent_decode part with
      | None => Err "mount"
      | Some mount =>
          let qs := form_parse (default "" (query req)) in
          match qs_get qs "blob" with
          | None => Err "blob"
          | Some blob =>
              match qs_get qs "offset" ≫= parse_u64 with
              | None => Err "offset"
              | Some off =>
                  Ok (mkChunkKey mount blob off, default 0 (qs_get qs "len" ≫= parse_u64),
                      default 0 (qs_get qs "wait_ms" ≫= parse_u32))
              end
          end
      end
  | _ => Err "path"
  end.

(** The cache first, then the provider when the caller is ready to wait. *)
Definition resolve (k : ChunkKey) (expected_len wait_ms : Z) (s : PeerService)
    : PeerService * option Bytes :=
  let '(c, got) := if joined then Cache.try_get sha256 read_ok k (cache s) else (cache s, None) in
  (set_cache c s,
   match got with
   | Some b => Some b
   | None =>
       match chunk_provider s with
       | Some provider => if (0 <? wait_ms) && (0 <? expected_len) then provider k expected_len wait_ms else None
       | None => None
       end
   end).

Definition handle_chunk (req : Request) (s : PeerService) : PeerService * Gossip.Response :=
  match chunk_params req with
  | Err why => (s, bad_request why)
  | Ok (k, expected_len, wait_ms) =>
      match resolve k expected_len wait_ms s with
      | (s, Some b) => (count_served (len b) s, chunk_response b)
      | (s, None) => (s, miss)
      end
  end.

Definition handle (req : Request) (s : PeerService) : PeerService * Gossip.Response :=
  match method req with
  | Gossip.GET =>
      if String.eqb (path req) "/health" then (s, json_ok (health_json (cluster_hash_hex s)))
      else if starts_with "/v1/chunk/" (path req) then handle_chunk req (count_request s)
      else (s, not_found)
  | _ => (s, not_found)
  end.
End server.

(** ** The clients *)

(** What a GET gives: a transport error, or a status with a body that may not arrive. *)
Abbreviation HttpGet := (string -> result HttpError (Z * result HttpError Bytes)).

Section client.
Context {P : PercentCodec} (status_text : Z -> string).

Definition chunk_url (peer_url : string) (k : ChunkKey) (expected_len wait_ms : Z) : string :=
  peer_url +:+ "/v1/chunk/" +:+ percent_encode (mount k) +:+ "?blob=" +:+ percent_encode (blob k)
  +:+ "&offset=" +:+ show (offset k) +:+ "&len=" +:+ show expected_len +:+ "&wait_ms=" +:+ show wait_ms.

Definition tcp_fetch_chunk (get : HttpGet) (peer_url : string) (k : ChunkKey)
    (expected_len wait_ms : Z) : res Bytes :=
  match get (chunk_url peer_url k expected_len wait_ms) with
  | Err e => Err (Http e)
  | Ok (st, body) =>
      if st =? 404 then Err (NotFound "peer miss")
      else if negb (is_success st) then Err (Peer ("HTTP " +:+ status_text st))
      else map_err Http body
  end.

(** The decoded JSON is dropped by the caller. *)
Definition tcp_health (get : HttpGet) (json : Bytes -> result HttpError unit) (peer_url : string) : res unit :=
  match get (peer_url +:+ "/health") with
  | Err e => Err (Http e)
  | Ok (st, body) =>
      if negb (is_success st) then Err (Peer ("health HTTP " +:+ status_text st))
      else match body with
      | Err e => Err (Http e)
      | Ok b => map_err Http (json b)
      end
  end.

(** [rdma addr] is the RDMA client's fetch for a peer at that worker address. *)
Inductive PeerClient : Type :=
| Tcp (get : HttpGet)
| Rdma (fetch : string -> Bytes -> ChunkKey -> Z -> Z -> res Bytes)
       (health : string -> Bytes -> res unit) (update : string -> Bytes -> res unit).

Definition missing_address (peer_id : string) : BcError :=
  Peer ("missing ucx worker address for peer " +:+ peer_id).

Definition fetch_chunk (cl : PeerClient) (peer_id peer_url : string) (addr : option Bytes)
    (k : ChunkKey) (length wait_ms : Z) : res Bytes :=
  match cl with
  | Tcp get => tcp_fetch_chunk get peer_url k length wait_ms
  | Rdma fetch _ _ =>
      match addr with
      | Some a => fetch peer_id a k length wait_ms
      | None => Err (missing_address peer_id)
      end
  end.

Definition health (cl : PeerClient) (json : Bytes -> result HttpError unit) (peer_id peer_url : string)
    (addr : option Bytes) : res unit :=
  match cl with
  | Tcp get => tcp_health get json peer_url
  | Rdma _ h _ =>
      match addr with Some a => h peer_id a | None => Err (missing_address peer_id) end
  end.

Definition update_peer (cl : PeerClient) (peer_id : string) (addr : Bytes) : res unit :=
  match cl with Tcp _ => Ok tt | Rdma _ _ u => u peer_id addr end.
End client.

(** ** The TCP exchange *)
Lemma alnum_ascii b : is_ascii_alphanumeric b = true -> in_range 0 127 b = true.
Proof.
  unfold is_ascii_alphanumeric, in_range. rewrite !orb_true_iff, !andb_true_iff, !Z.leb_le.
  pose proof (byte_val_range b). lia.
Qed.

Lemma utf8_ascii l : forallb (in_range 0 127) l = true -> utf8_valid l = true.
Proof.
  induction l as [|b l IH]; [done|]. cbn [forallb]. intros [Hb Hl]%andb_true_iff. simpl. rewrite Hb. auto.
Qed.

Lemma forallb_impl {A} (f g : A -> bool) l :
  (forall x, f x = true -> g x = true) -> forallb f l = true -> forallb g l = true.
Proof. intros Hfg. rewrite !forallb_forall. auto. Qed.

Lemma digit_alnum b : is_digit b = true -> is_ascii_alphanumeric b = true.
Proof. unfold is_digit, is_ascii_alphanumeric. by intros ->. Qed.

Lemma show_alnum z : forallb is_ascii_alphanumeric (str_bytes (show z)) = true.
Proof. eapply forallb_impl; [apply digit_alnum|apply show_digits]. Qed.

Lemma show_utf8 z : utf8_valid (str_bytes (show z)) = true.
Proof. apply utf8_ascii. eapply forallb_impl; [apply alnum_ascii|apply show_alnum]. Qed.

(** What Rust's types guarantee of a request. *)
Record wf_request (k : ChunkKey) (n w : Z) : Prop := {
  wf_mount : utf8_valid (str_bytes (mount k)) = true;
  wf_blob : utf8_valid (str_bytes (blob k)) = true;
  wf_offset : is_u64 (offset k);
  wf_len : is_u32 n;
  wf_wait : is_u32 w
}.

Definition path_char (b : byte) : bool := encoded_char b || (byte_val b =? 47).
Definition query_char (b : byte) : bool :=
  encoded_char b || (byte_val b =? 38) || (byte_val b =? 61) || (byte_val b =? 95).

(** [base] is the origin of a server ([http://host:port]): what follows it is path and query. *)
Definition is_origin {U : UrlApi} (base : string) : Prop :=
  forall p q, forallb path_char (str_bytes p) = true -> forallb query_char (str_bytes q) = true ->
  exists u, url_parse (base +:+ "/" +:+ p +:+ "?" +:+ q) = Ok u /\
            url_path u = "/" +:+ p /\ url_query u = Some q.

Section tcp.
Context {P : PercentCodec} {U : UrlApi} (sha256 : Bytes -> Bytes).
Context (joined read_ok : bool) (health_json : string -> Bytes) (status_text : Z -> string).
Context (refused : HttpError).

(** A GET against the server; a URL that does not parse is refused. *)
Definition tcp_get (s : PeerService) (u : string) : result HttpError (Z * result HttpError Bytes) :=
  match url_parse u with
  | Err _ => Err refused
  | Ok u =>
      let r := (handle sha256 joined read_ok health_json (mkRequest Gossip.GET (url_path u) (url_query u)) s).2 in
      Ok (Gossip.status r, Ok (Gossip.body r))
  end.

Definition chunk_form (k : ChunkKey) (n w : Z) : list (string * string) :=
  [("blob", blob k); ("offset", show (offset k)); ("len", show n); ("wait_ms", show w)].

Lemma chunk_url_form base k n w :
  chunk_url base k n w
  = base +:+ "/" +:+ ("v1/chunk/" +:+ percent_encode (mount k)) +:+ "?"
    +:+ form_query percent_encode (chunk_form k n w).
Proof.
  unfold chunk_url, chunk_form, form_query, form_pair. cbn [fmap list_fmap join fst snd].
  rewrite !(percent_alnum (show _)) by apply show_alnum. by rewrite !string_app_assoc.
Qed.

Lemma encoded_path b : encoded_char b = true -> path_char b = true.
Proof. unfold path_char. by intros ->. Qed.
Lemma encoded_query b : encoded_char b = true -> query_char b = true.
Proof. unfold query_char. by intros ->. Qed.

Lemma form_query_chars k n w :
  forallb query_char (str_bytes (form_query percent_encode (chunk_form k n w))) = true.
Proof.
  unfold chunk_form, form_query, form_pair. cbn [fmap list_fmap join fst snd].
  rewrite !str_bytes_app, !forallb_app.
  rewrite !(forallb_impl _ _ _ encoded_query (percent_plain _)). reflexivity.
Qed.

Lemma chunk_params_form k n w :
  wf_request k n w ->
  chunk_params (mkRequest Gossip.GET ("/" +:+ ("v1/chunk/" +:+ percent_encode (mount k)))
                  (Some (form_query percent_encode (chunk_form k n w))))
  = Ok (k, n, w).
Proof.
  intros [Hm Hb Ho Hn Hw]. unfold chunk_params. cbn [path query from_option id].
  change (splitn 4 slash ("/" +:+ ("v1/chunk/" +:+ percent_encode (mount k))))
    with [""; "v1"; "chunk"; percent_encode (mount k)].
  cbv beta iota. rewrite percent_roundtrip by done. rewrite form_roundtrip.
  2: done.
  2: { unfold chunk_form. repeat constructor; simpl; try done; apply show_utf8. }
  change (qs_get (chunk_form k n w) "blob") with (Some (blob k)).
  change (qs_get (chunk_form k n w) "offset") with (Some (show (offset k))).
  change (qs_get (chunk_form k n w) "len") with (Some (show n)).
  change (qs_get (chunk_form k n w) "wait_ms") with (Some (show w)).
  cbn [mbind option_bind]. unfold parse_u32.
  rewrite !parse_show by (done || u64_lia). cbn [from_option id]. rewrite (proj2 (Z.leb_le w u32_max)) by apply Hw.
  by destruct k.
Qed.

(** The whole TCP path, as an equation: what the server resolves is what the client gets. *)
Lemma tcp_fetch_resolves base s k n w :
  is_origin base -> wf_request k n w ->
  tcp_fetch_chunk status_text (tcp_get s) base k n w
  = match (resolve sha256 joined read_ok k n w s).2 with
    | Some b => Ok b
    | None => Err (NotFound "peer miss")
    end.
Proof.
  intros Hor Hwf. unfold tcp_fetch_chunk. rewrite chunk_url_form.
  destruct (Hor ("v1/chunk/" +:+ percent_encode (mount k)) (form_query percent_encode (chunk_form k n w)))
    as (u & Hu & Hp & Hq).
  { rewrite str_bytes_app, forallb_app. rewrite (forallb_impl _ _ _ encoded_path (percent_plain _)). done. }
  { apply form_query_chars. }
  unfold tcp_get. rewrite Hu, Hp, Hq. unfold handle. cbn [method path].
  rewrite (proj2 (String.eqb_neq _ "/health")) by done.
  assert (Hsw : starts_with "/v1/chunk/" ("/" +:+ ("v1/chunk/" +:+ percent_encode (mount k))) = true)
    by apply (starts_with_app "/v1/chunk/" (percent_encode (mount k))).
  rewrite Hsw. unfold handle_chunk. rewrite chunk_params_form by done.
  unfold resolve. cbn [cache count_request chunk_provider].
  destruct (if joined then _ else _) as [c got]. cbn [snd].
  destruct got as [b|]; [reflexivity|]. destruct (chunk_provider s) as [f|]; [|reflexivity].
  destruct (_ && _); [|reflexivity]. by destruct (f k n w).
Qed.
End tcp.

(** ** The RDMA exchange *)

(** One request of the RDMA client: its id, its own name, the request id and the receive slab. *)
Record Link := mkLink {
  l_id : Z;
  l_requester : string;
  l_rid : string;
  l_slab : Slab.RecvSlab
}.

Record link_ok (l : Link) : Prop := {
  lk_id : 0 <= l_id l <= Rpc.TAG_ID_MASK;
  lk_requester : utf8_valid (str_bytes (l_requester l)) = true;
  lk_rid : utf8_valid (str_bytes (l_rid l)) = true /\ forallb Wire.rid_char (str_bytes (l_rid l)) = true;
  lk_slab : 0 < Slab.permits (l_slab l) /\ Slab.free (l_slab l) <> []
}.

Section rdma.
Context (sha256 : Bytes -> Bytes) (read_ok : bool) (utf8_error : Bytes -> string).

(** The fetch of the RDMA client against a server with cache [c] and the given provider. *)
Definition rdma_fetch (l : Link) (c : Cache.DiskCache) (provider : option Provider) (k : ChunkKey) (n w : Z)
    : res Bytes :=
  let exchange := Rpc.over_the_wire (fun frame tag =>
    (Rpc.handle_inbound_request sha256 utf8_error false read_ok provider frame tag c).2) in
  match Rpc.client_fetch_inner exchange (l_id l) k n w (l_requester l) (l_rid l) (l_slab l) with
  | Some (_, r) => r
  | None => Err (Peer "no receive slot")
  end.

(** What the server answers with: a frame of its cache, or one of the provider's. *)
Definition rdma_answer (c : Cache.DiskCache) (provider : option Provider) (k : ChunkKey) (n w : Z)
    (l : Link) : res (Bytes * Z) :=
  match (Rpc.cached_response sha256 read_ok k n c).2 with
  | Some x => Ok x
  | None => Rpc.provider_response provider (Wire.mkChunkRequest k n (l_requester l) w (l_rid l))
  end.

Lemma encode_ok_bounds k n q w rid f :
  Wire.encode_request k n q w rid = Ok f ->
  str_len (mount k) <= 255 /\ str_len (blob k) <= 65535 /\ str_len q <= 65535 /\ str_len rid <= 128.
Proof.
  unfold Wire.encode_request, str_len. repeat (case_match; [done|]). case_bool. lia.
Qed.

Lemma link_checkout l : link_ok l -> exists sl i, Slab.checkout (l_slab l) = Some (sl, Ok i).
Proof.
  intros [_ _ _ [Hp Hf]]. unfold Slab.checkout, Slab.acquire. rewrite (proj2 (Z.ltb_lt _ _)) by done.
  unfold Slab.pop_slot. simpl. destruct (rev (Slab.free (l_slab l))) as [|i t] eqn:E; [|eauto].
  apply (f_equal (@rev Z)) in E. rewrite rev_involutive in E. done.
Qed.

(** The whole RDMA path, as an equation, for a request that fits the frame. *)
Lemma rdma_fetch_answers l c provider k n w :
  link_ok l -> wf_request k n w -> 0 < n <= Wire.MAX_RESPONSE_BYTES ->
  rdma_fetch l c provider k n w
  = (let? _ := Wire.encode_request k n (l_requester l) w (l_rid l) in
     let? (b, _) := rdma_answer c provider k n w l in Wire.decode_response b n).
Proof.
  intros Hl [Hm Hb Ho Hn Hw] Hmax. destruct (link_checkout l Hl) as (sl & i & Hco).
  unfold rdma_fetch, Rpc.client_fetch_inner. rewrite Hco.
  destruct (Wire.encode_request k n (l_requester l) w (l_rid l)) as [f|e] eqn:Ef; [|done].
  pose proof (encode_ok_bounds _ _ _ _ _ _ Ef) as (B1 & B2 & B3 & B4).
  assert (Henc : Wire.encodable k n (l_requester l)) by (split; [done..|apply Hl|done|done]).
  rewrite Wire.encode_request_ok in Ef by done.
  assert (f = Wire.request_head k n (l_requester l) ++ be_bytes 4 w ++ be_bytes 2 (str_len (l_rid l))
              ++ str_bytes (l_rid l)) as -> by congruence.
  clear Ef. cbn [rbind].
  unfold Rpc.over_the_wire, Rpc.handle_inbound_request.
  edestruct (Wire.decode_head utf8_error k n (l_requester l)) as (idx & Hat & ->); [done|].
  rewrite (Wire.decode_rest_full _ _ _ _ _ _ w (l_rid l) Hat) by (apply Hl || done).
  cbn [Wire.length Wire.requester_peer_id Wire.key].
  rewrite (proj2 (Z.eqb_neq n 0)), (proj2 (Z.ltb_ge _ _)) by lia. simpl orb. cbv iota.
  unfold rdma_answer. destruct (Rpc.cached_response sha256 read_ok k n c) as [c' hit]. cbn [snd].
  destruct hit as [[b served]|].
  - by rewrite Rpc.tag_roundtrip, Z.eqb_refl by apply Hl.
  - destruct (Rpc.provider_response provider _) as [[b served]|e]; [|done]. cbn [rbind].
    by rewrite Rpc.tag_roundtrip, Z.eqb_refl by apply Hl.
Qed.

Lemma cached_response_frame k n c b served :
  (Rpc.cached_response sha256 read_ok k n c).2 = Some (b, served) ->
  exists e file, Cache.entries (Cache.inner c) !! k = Some e /\ Cache.size e <= n /\
    Cache.disk c !! Cache.path_for sha256 k = Some (Cache.File file) /\ Cache.size e <= len file /\
    b = le_bytes 4 Wire.STATUS_OK ++ le_bytes 4 (Cache.size e) ++ slice file 0 (Cache.size e).
Proof.
  unfold Rpc.cached_response, Cache.entry_size, Cache.try_get_into_slice, Cache.touch_lru.
  destruct (Cache.entries (Cache.inner c) !! k) as [e|] eqn:He; [|done]. cbn [fmap option_fmap option_map].
  destruct (n <? Cache.size e) eqn:Hn; [done|]. rewrite Z.eqb_refl. cbn [negb].
  destruct read_ok; [|done]. unfold Cache.read_file.
  destruct (Cache.disk c !! Cache.path_for sha256 k) as [[file|]|] eqn:Hd; [|done..].
  unfold Cache.read_exact_at. rewrite Z.add_0_l. destruct (Cache.size e <=? len file) eqn:Hs; [|done].
  cbn [snd]. intros [= <- _]. case_bool. exists e, file. done.
Qed.

(** What a frame decodes to is its payload. *)
Lemma decode_payload st payload n d :
  Wire.decode_response (le_bytes 4 st ++ le_bytes 4 (len payload) ++ payload) n = Ok d -> d = payload.
Proof.
  unfold Wire.decode_response.
  change (drop 8 (le_bytes 4 st ++ le_bytes 4 (len payload) ++ payload)) with payload.
  repeat case_match; try done. by intros [= <-].
Qed.
End rdma.

(** ** The interface *)

(** [d] is the start of the file tracked under [k], or the provider's answer for [k]. *)
Definition from_server (sha256 : Bytes -> Bytes) (c : Cache.DiskCache) (provider : option Provider)
    (k : ChunkKey) (d : Bytes) : Prop :=
  (exists file, is_Some (Cache.entries (Cache.inner c) !! k) /\
     Cache.disk c !! Cache.path_for sha256 k = Some (Cache.File file) /\ d `prefix_of` file)
  \/ (exists f n w, provider = Some f /\ f k n w = Some d).

(** A way to fetch a chunk from a server with the given cache and provider. *)
Class PeerTransport (sha256 : Bytes -> Bytes) := {
  tr_fetch : Cache.DiskCache -> option Provider -> ChunkKey -> Z -> Z -> res Bytes;
  tr_sound c provider k n w d :
    wf_request k n w -> tr_fetch c provider k n w = Ok d -> from_server sha256 c provider k d
}.

Lemma try_get_file sha256 ro k c b :
  (Cache.try_get sha256 ro k c).2 = Some b ->
  is_Some (Cache.entries (Cache.inner c) !! k) /\
  Cache.disk c !! Cache.path_for sha256 k = Some (Cache.File b).
Proof.
  unfold Cache.try_get, Cache.touch_lru. destruct (Cache.entries (Cache.inner c) !! k) as [e|]; [|done].
  destruct ro; [|done]. unfold Cache.read_file.
  destruct (Cache.disk c !! Cache.path_for sha256 k) as [[f|]|] eqn:E; [|done..].
  cbn [snd]. intros [= <-]. eauto.
Qed.

Section instances.
Context {P : PercentCodec} {U : UrlApi} (sha256 : Bytes -> Bytes) (joined read_ok : bool).
Context (health_json : string -> Bytes) (status_text : Z -> string) (refused : HttpError).

(** The service over a cache and a provider. *)
Definition service (c : Cache.DiskCache) (provider : option Provider) : PeerService :=
  mkPeerService c "" 0 0 provider.

Lemma resolve_sound c provider k n w d :
  (resolve sha256 joined read_ok k n w (service c provider)).2 = Some d ->
  from_server sha256 c provider k d.
Proof.
  unfold resolve, service. cbn [cache chunk_provider].
  destruct (if joined then _ else _) as [c' got] eqn:E. cbn [snd]. destruct got as [b|].
  - intros [= <-]. destruct joined; [|done]. left. exists b.
    destruct (try_get_file sha256 read_ok k c b) as [? ?]; [by rewrite E|]. by split_and!.
  - destruct provider as [f|]; [|done]. destruct (_ && _); [|done]. intros Hf. right. eauto 10.
Qed.

#[export] Program Instance tcp_transport (base : string) (Hb : is_origin base) : PeerTransport sha256 := {|
  tr_fetch c provider k n w :=
    tcp_fetch_chunk status_text (tcp_get sha256 joined read_ok health_json refused (service c provider)) base k n w
|}.
Next Obligation.
  intros base Hb c provider k n w d Hwf. cbv beta. rewrite tcp_fetch_resolves by done.
  destruct (resolve _ _ _ _ _ _ _).2 as [b|] eqn:E; [|done]. intros [= <-]. by eapply resolve_sound.
Qed.

Lemma provider_response_sound provider req b served :
  Rpc.provider_response provider req = Ok (b, served) ->
  (exists f n w d, provider = Some f /\ f (Wire.key req) n w = Some d /\
     b = le_bytes 4 Wire.STATUS_OK ++ le_bytes 4 (len d) ++ d)
  \/ Wire.encode_response Wire.STATUS_MISS [] = Ok b.
Proof.
  unfold Rpc.provider_response. destruct (if _ && _ then _ else _) as [d|] eqn:E.
  - destruct (Wire.length req <? len d).
    + destruct (Wire.encode_response _ _) as [r|e]; [|done]. intros [= <- _]. by right.
    + intros [= <- _]. destruct (_ && _); [|done]. destruct provider as [f|]; [|done]. left. eauto 10.
  - destruct (Wire.encode_response _ _) as [r|e]; [|done]. intros [= <- _]. by right.
Qed.

#[export] Program Instance rdma_transport (utf8_error : Bytes -> string) (l : Link) (Hl : link_ok l)
  : PeerTransport sha256 := {|
  tr_fetch c provider k n w :=
    if (n =? 0) || (Wire.MAX_RESPONSE_BYTES <? n) then Err (Peer ("bad chunk length " +:+ show n))
    else rdma_fetch sha256 read_ok utf8_error l c provider k n w
|}.
Next Obligation.
  intros utf8_error l Hl c provider k n w d Hwf. cbv beta.
  destruct (_ || _) eqn:En; [done|]. case_bool.
  rewrite rdma_fetch_answers; [|done..|pose proof (wf_len _ _ _ Hwf); unfold is_u32 in *; lia].
  destruct (Wire.encode_request _ _ _ _ _) as [f|e]; [|done]. cbn [rbind]. unfold rdma_answer.
  destruct (Rpc.cached_response sha256 read_ok k n c).2 as [[b served]|] eqn:Ec.
  - cbn [rbind]. destruct (cached_response_frame _ _ _ _ _ _ _ Ec) as (e & file & He & Hle & Hd & Hs & ->).
    intros Hdec. left. exists file. split; [eauto|]. split; [done|].
    assert (Hpay : slice file 0 (Cache.size e) = d).
    { symmetry. revert Hdec. unfold Wire.decode_response.
      change (drop 8 (le_bytes 4 Wire.STATUS_OK ++ le_bytes 4 (Cache.size e) ++ slice file 0 (Cache.size e)))
        with (slice file 0 (Cache.size e)). repeat case_match; try done. by intros [= <-]. }
    rewrite <- Hpay. unfold slice. rewrite drop_0. apply prefix_take.
  - destruct (Rpc.provider_response _ _) as [[b served]|e] eqn:Ep; [|done]. cbn [rbind].
    apply provider_response_sound in Ep as [(f' & n' & w' & d' & -> & Hf & ->)|Hm].
    + intros ->%decode_payload. right. eauto 10.
    + unfold Wire.encode_response in Hm. injection Hm as <-. done.
Qed.
End instances.

(** ** An instance of the codec *)
Definition upper_hex (n : Z) : byte := byte_of (if n <? 10 then 48 + n else 55 + n).

Definition encode_byte (b : byte) : Bytes :=
  if is_ascii_alphanumeric b then [b]
  else [x25; upper_hex (byte_val b / 16); upper_hex (byte_val b mod 16)].

Definition hex_val (b : byte) : option Z :=
  let n := byte_val b in
  if (48 <=? n) && (n <=? 57) then Some (n - 48)
  else if (65 <=? n) && (n <=? 70) then Some (n - 55)
  else if (97 <=? n) && (n <=? 102) then Some (n - 87)
  else None.

Fixpoint decode_bytes (l : Bytes) : Bytes :=
  match l with
  | [] => []
  | c :: t =>
      if byte_val c =? 37 then
        match t with
        | a :: b :: t' =>
            match hex_val a, hex_val b with
            | Some x, Some y => byte_of (16 * x + y) :: decode_bytes t'
            | _, _ => c :: decode_bytes t
            end
        | _ => c :: decode_bytes t
        end
      else c :: decode_bytes t
  end.

Definition plus_space (b : byte) : byte := if byte_val b =? 43 then x20 else b.

Fixpoint split_all (c : ascii) (s : string) : list string :=
  match s with
  | EmptyString => [EmptyString]
  | String a t =>
      if Ascii.eqb a c then EmptyString :: split_all c t
      else match split_all c t with x :: r => String a x :: r | [] => [String a EmptyString] end
  end.

Definition decode_part (s : string) : string := bytes_str (decode_bytes (plus_space <$> str_bytes s)).

Definition decode_pair (s : string) : string * string :=
  let '(k, v) := split_at "=" s in (decode_part k, decode_part (default "" v)).

Lemma split_all_app c a b :
  contains_char c a = false -> split_all c (a +:+ String c b) = a :: split_all c b.
Proof.
  induction a as [|x a IH]; [by intros _; simpl; rewrite Ascii.eqb_refl|].
  simpl. rewrite orb_false_iff. intros [Hx Ha].
  change (String x a +:+ String c b) with (String x (a +:+ String c b)). simpl. by rewrite Hx, IH.
Qed.

Lemma split_all_one c a : contains_char c a = false -> split_all c a = [a].
Proof.
  induction a as [|x a IH]; [done|]. simpl. rewrite orb_false_iff. intros [-> Ha]. by rewrite IH.
Qed.

Lemma upper_hex_val n : 0 <= n < 16 -> hex_val (upper_hex n) = Some n.
Proof.
  intros Hn. unfold hex_val, upper_hex. rewrite byte_val_of. destruct (n <? 10) eqn:E; case_bool;
    rewrite Z.mod_small by lia.
  - rewrite !(proj2 (Z.leb_le _ _)) by lia. simpl. f_equal. lia.
  - rewrite (proj2 (Z.leb_gt (55 + n) 57)), andb_false_r by lia.
    rewrite !(proj2 (Z.leb_le _ _)) by lia. simpl. f_equal. lia.
Qed.

Lemma nibble_range b : 0 <= byte_val b / 16 < 16 /\ 0 <= byte_val b mod 16 < 16.
Proof.
  pose proof (byte_val_range b). split; [|apply Z.mod_pos_bound; lia].
  split; [apply Z.div_pos; lia|apply Z.div_lt_upper_bound; lia].
Qed.

Lemma decode_encode l : decode_bytes (l ≫= encode_byte) = l.
Proof.
  induction l as [|b l IH]; [done|]. rewrite bind_cons. unfold encode_byte at 1.
  destruct (is_ascii_alphanumeric b) eqn:E.
  - change ([b] ++ (l ≫= encode_byte)) with (b :: (l ≫= encode_byte)).
    assert (H37 : (byte_val b =? 37) = false).
    { apply Z.eqb_neq. intros Hb. unfold is_ascii_alphanumeric, in_range in E. by rewrite Hb in E. }
    cbn [decode_bytes]. rewrite H37. by f_equal.
  - destruct (nibble_range b). cbn [app decode_bytes]. change (byte_val x25 =? 37) with true. cbv iota.
    rewrite !upper_hex_val, IH by done. f_equal.
    rewrite <- Z.div_mod by lia. apply byte_of_val.
Qed.

Lemma upper_hex_alnum n : 0 <= n < 16 -> is_ascii_alphanumeric (upper_hex n) = true.
Proof.
  intros Hn. unfold is_ascii_alphanumeric, in_range, upper_hex. rewrite byte_val_of.
  destruct (n <? 10) eqn:E; case_bool; rewrite Z.mod_small by lia;
    rewrite !orb_true_iff, !andb_true_iff, !Z.leb_le; lia.
Qed.

Lemma encode_bytes_plain l : forallb encoded_char (l ≫= encode_byte) = true.
Proof.
  induction l as [|b l IH]; [done|]. rewrite bind_cons, forallb_app, IH, andb_true_r.
  unfold encode_byte, encoded_char. destruct (is_ascii_alphanumeric b) eqn:E; [simpl; by rewrite E|].
  destruct (nibble_range b). cbn [forallb]. by rewrite !upper_hex_alnum.
Qed.

Lemma plus_space_plain l : forallb encoded_char l = true -> plus_space <$> l = l.
Proof.
  induction l as [|b l IH]; [done|]. cbn [forallb]. intros [Hb Hl]%andb_true_iff.
  rewrite fmap_cons, IH by done. f_equal. unfold plus_space.
  destruct (Z.eqb_spec (byte_val b) 43) as [E|]; [|done].
  unfold encoded_char, is_ascii_alphanumeric, in_range in Hb. rewrite E in Hb. done.
Qed.

Lemma decode_key s : forallb key_char (str_bytes s) = true -> decode_part s = s.
Proof.
  intros Hs. unfold decode_part. rewrite <- (bytes_str_bytes s) at 2. f_equal.
  induction (str_bytes s) as [|b l IH]; [done|]. cbn [forallb] in Hs. apply andb_true_iff in Hs as [Hb Hl].
  rewrite fmap_cons. unfold key_char, is_ascii_alphanumeric, in_range in Hb.
  assert (plus_space b = b /\ (byte_val b =? 37) = false) as [-> H37].
  { unfold plus_space. split; [destruct (Z.eqb_spec (byte_val b) 43) as [E|]; [rewrite E in Hb|]; done|].
    apply Z.eqb_neq. intros E. rewrite E in Hb. done. }
  cbn [decode_bytes]. rewrite H37, IH; done.
Qed.

#[export] Program Instance percent_codec : PercentCodec := {|
  percent_encode s := bytes_str (str_bytes s ≫= encode_byte);
  percent_decode s := let l := decode_bytes (str_bytes s) in
                      if utf8_valid l then Some (bytes_str l) else None;
  form_parse s := decode_pair <$> filter (fun p => p <> "") (split_all "&" s)
|}.
Next Obligation. intros s. cbv beta. rewrite str_bytes_str. apply encode_bytes_plain. Qed.
Next Obligation.
  intros s Hs. cbv beta. rewrite <- (bytes_str_bytes s) at 2. f_equal.
  induction (str_bytes s) as [|b l IH]; [done|]. cbn [forallb] in Hs. apply andb_true_iff in Hs as [Hb Hl].
  rewrite bind_cons, IH by done. unfold encode_byte. by rewrite Hb.
Qed.
Next Obligation.
  intros s Hs. cbv beta zeta. by rewrite str_bytes_str, decode_encode, Hs, bytes_str_bytes.
Qed.
Next Obligation.
  intros ps Hne Hps. cbv beta. unfold form_query.
  set (enc := fun s => bytes_str (str_bytes s ≫= encode_byte)).
  assert (Hpair : forall kv, plain_pair kv -> contains_char "&" (form_pair enc kv) = false /\
    form_pair enc kv <> "" /\ decode_pair (form_pair enc kv) = kv).
  { intros [k v] [Hk Hv]. unfold form_pair. cbn [fst snd] in *. split_and!.
    - set (F := fun b => key_char b || encoded_char b || (byte_val b =? 61)).
      apply (contains_char_false F); [|done].
      rewrite !str_bytes_app, !forallb_app. unfold enc. rewrite str_bytes_str, !andb_true_iff. split_and!.
      + eapply forallb_impl; [|exact Hk]. unfold F. by intros b ->.
      + done.
      + eapply forallb_impl; [|apply encode_bytes_plain]. unfold F. intros b ->. by rewrite orb_true_r.
    - by destruct k.
    - unfold decode_pair. change ("=" +:+ enc v) with (String "=" (enc v)).
      rewrite split_at_app by by eapply contains_char_false. cbn [from_option id].
      rewrite decode_key by done. f_equal. unfold decode_part, enc.
      by rewrite str_bytes_str, plus_space_plain, decode_encode, bytes_str_bytes by apply encode_bytes_plain. }
  clear Hne. induction Hps as [|kv ps Hkv Hps IH]; [done|].
  destruct (Hpair kv Hkv) as (H1 & H2 & H3). destruct ps as [|kv' ps].
  - cbn [fmap list_fmap join]. rewrite split_all_one, filter_cons_True by done. cbn. by rewrite H3.
  - change (join "&" (form_pair enc <$> kv :: kv' :: ps))
      with (form_pair enc kv +:+ String "&" (join "&" (form_pair enc <$> kv' :: ps))).
    rewrite split_all_app, filter_cons_True, fmap_cons, H3 by done. f_equal. exact IH.
Qed.

(** ** Theorems *)

(** A tracked chunk has its file, of the size on record, not empty and within the request. *)
Definition intact (sha256 : Bytes -> Bytes) (c : Cache.DiskCache) (k : ChunkKey) (n : Z) : Prop :=
  forall e, Cache.entries (Cache.inner c) !! k = Some e ->
  exists file, Cache.disk c !! Cache.path_for sha256 k = Some (Cache.File file) /\
    Cache.size e = len file /\ 0 < len file <= n.

(** A provider answers with the length it was asked for. *)
Definition exact_provider (provider : option Provider) : Prop :=
  forall f k n w d, provider = Some f -> 0 <= n -> f k n w = Some d -> len d = n.

(** C20.  The two transports are interchangeable for well-behaved servers and requests: the length is
    positive and within [MAX_RESPONSE_BYTES], the names and the request id fit the frame, a cached
    chunk is intact and no longer than the request, and the provider answers with the length it was
    asked for.  Then, for the same server state and the same request, a fetch over HTTP (URL,
    percent encoding, query parsing, response) and a fetch over RDMA (frame, tag, header) give the
    client the same result: the chunk the cache tracks, else what the provider produces within the
    wait, else the not-found error.  [transports_differ] shows that the condition on the cached
    chunk is needed. *)
Theorem transports_agree {P : PercentCodec} {U : UrlApi} sha256 health_json status_text refused
    utf8_error base l c provider k n w :
  is_origin base -> link_ok l -> wf_request k n w -> 0 < n <= Wire.MAX_RESPONSE_BYTES ->
  is_ok (Wire.encode_request k n (l_requester l) w (l_rid l)) = true ->
  intact sha256 c k n -> exact_provider provider ->
  let tcp := tcp_fetch_chunk status_text
               (tcp_get sha256 true true health_json refused (service c provider)) base k n w in
  let rdma := rdma_fetch sha256 true utf8_error l c provider k n w in
  tcp = rdma /\
  tcp = match (resolve sha256 true true k n w (service c provider)).2 with
        | Some b => Ok b
        | None => Err (NotFound "peer miss")
        end.
Proof.
  intros Hor Hl Hwf Hn Henc Hin Hpr tcp rdma. unfold tcp, rdma.
  rewrite tcp_fetch_resolves by done. split; [|done].
  rewrite rdma_fetch_answers by done. destruct (Wire.encode_request _ _ _ _ _) as [f|e]; [|done].
  cbn [rbind]. unfold rdma_answer, resolve, service. cbn [cache chunk_provider].
  destruct (Cache.entries (Cache.inner c) !! k) as [e|] eqn:He.
  - destruct (Hin e He) as (file & Hd & Hs & Hlen).
    assert (Hrd : Cache.read_file (Cache.disk c) (Cache.path_for sha256 k) = Some file)
      by (unfold Cache.read_file; by rewrite Hd).
    rewrite (Rpc.cached_response_hit sha256 k n c e file) by (done || lia). cbn [rbind].
    rewrite Wire.decode_ok_response by lia.
    unfold Cache.try_get, Cache.touch_lru. by rewrite He, Hrd.
  - rewrite Rpc.cached_response_miss by done. unfold Cache.try_get. rewrite He. cbn [snd].
    unfold Rpc.provider_response. cbn [Wire.wait_ms Wire.length Wire.key].
    destruct provider as [f'|]; [|by destruct (_ && _)].
    destruct ((0 <? w) && (0 <? n)); [|reflexivity].
    destruct (f' k n w) as [d|] eqn:Ef; [|reflexivity].
    assert (Hlen : len d = n) by (eapply Hpr; [done|lia|done]).
    rewrite Hlen, (proj2 (Z.ltb_ge _ _)) by lia. cbn [rbind].
    rewrite <- Hlen at 1.
    rewrite Wire.decode_ok_response; [done|lia..].
Qed.

(** A peer with one chunk of two bytes and a provider that makes up any other. *)
Definition demo_cache : Cache.DiskCache :=
  (Cache.insert (fun l => l) ".tmp.1" None Wire.demo_key [x07; x08]
     (Cache.mkDiskCache 10 (Cache.mkInner ∅ ∅ 0 0) Cache.stats0 ∅)).1.
Definition demo_provider : Provider := fun _ n _ => Some (replicate (Z.to_nat n) x09).
Definition demo_link : Link := mkLink 1 "node-a" "abc" (Slab.mkRecvSlab 1032 1 [0] 1).
Definition demo_refused : HttpError := mkHttpError false true false false false "refused".

Lemma demo_origin : is_origin (U := plain_url) "https://peer:7000".
Proof.
  intros p q Hp Hq. unfold url_parse, plain_url.
  rewrite (strip_prefix_app "https://" ("peer:7000" +:+ "/" +:+ p +:+ "?" +:+ q) :
    strip_prefix "https://" ("https://peer:7000" +:+ "/" +:+ p +:+ "?" +:+ q) = _).
  change ("peer:7000" +:+ "/" +:+ p +:+ "?" +:+ q) with ("peer:7000/" +:+ p +:+ String "?" q).
  rewrite <- (string_app_assoc "peer:7000/" p (String "?" q)). rewrite split_at_app.
  - change ("peer:7000/" +:+ p) with ("peer:7000" +:+ String slash p). rewrite split_at_app by done.
    by exists ("peer:7000", String slash p, Some q).
  - apply (contains_char_false (fun b => path_char b || (byte_val b =? 58))); [|done].
    rewrite str_bytes_app, forallb_app, andb_true_iff. split; [reflexivity|].
    eapply forallb_impl; [|exact Hp]. by intros b ->.
Qed.

Lemma demo_link_ok : link_ok demo_link.
Proof. split; vm_compute; intuition congruence. Qed.

Lemma demo_wf : wf_request Wire.demo_key 1024 0.
Proof. split; vm_compute; intuition congruence. Qed.

Lemma transports_agree_witness :
  rdma_fetch (fun l => l) true (fun _ => "") demo_link demo_cache (Some demo_provider) Wire.demo_key 1024 0
  = Ok [x07; x08].
Proof.
  pose proof (transports_agree (fun l => l) (fun _ => []) show demo_refused (fun _ => "")
    "https://peer:7000" demo_link demo_cache (Some demo_provider) Wire.demo_key 1024 0) as Ht.
  cbv zeta in Ht. destruct Ht as [<- ->].
  - exact demo_origin.
  - exact demo_link_ok.
  - exact demo_wf.
  - vm_compute. intuition congruence.
  - vm_compute. reflexivity.
  - intros e He. exists [x07; x08].
    assert (Hs : Cache.size e = 2) by (revert He; vm_compute; intros [= <-]; reflexivity).
    split; [vm_compute; reflexivity|]. rewrite Hs. split; [reflexivity|]. unfold len. simpl. lia.
  - intros f k n w d [= <-] Hn [= <-]. unfold len. rewrite length_replicate. lia.
  - vm_compute. reflexivity.
Defined.

(** A cached chunk that is longer than the request: HTTP sends the whole of it (the fetcher rejects
    the length), RDMA answers that it has no such chunk. *)
Example transports_differ :
  tcp_fetch_chunk show (tcp_get (fun l => l) true true (fun _ => []) demo_refused
    (service demo_cache None)) "https://peer:7000" Wire.demo_key 1 0 = Ok [x07; x08] /\
  rdma_fetch (fun l => l) true (fun _ => "") demo_link demo_cache None Wire.demo_key 1 0
  = Err (NotFound "peer miss").
Proof.
  split; [|vm_compute; reflexivity]. rewrite tcp_fetch_resolves.
  - vm_compute. reflexivity.
  - exact demo_origin.
  - split; vm_compute; intuition congruence.
Qed.
End Transport.
