(* ===== verification/PeerLru.v ===== *)
(** * The in-memory LRU of peer-fetched chunks (src/src/fetcher.rs, [PeerLru])

    The entry-bounded cache inside is the [lru] crate: the class [LruCache] states its operations
    and, through the list [lru_view] of its entries (least recently used first), the documented
    behaviour the wrapper relies on.  The byte accounting is the program's own. *)

From S2P Require Import Prelude ChunkKeys.

Module Lru.

Abbreviation Bytes := (list byte).
Abbreviation View := (list (ChunkKey * Bytes)).

Definition view_lookup (k : ChunkKey) (l : View) : option Bytes :=
  snd <$> head (filter (fun r => r.1 = k) l).

Definition view_remove (k : ChunkKey) (l : View) : View := filter (fun r => r.1 <> k) l.

(** ** The interface of the crate *)
Class LruCache := {
  lru_cache : Type;
  lru_unbounded : lru_cache;
  lru_get : ChunkKey -> lru_cache -> lru_cache * option Bytes;
  lru_put : ChunkKey -> Bytes -> lru_cache -> lru_cache * option Bytes;
  lru_pop : lru_cache -> lru_cache * option (ChunkKey * Bytes);
  lru_clear : lru_cache -> lru_cache;
  lru_view : lru_cache -> View;
  lru_view_new : lru_view lru_unbounded = [];
  lru_view_get k c :
    (lru_get k c).2 = view_lookup k (lru_view c) /\
    lru_view (lru_get k c).1
    = match view_lookup k (lru_view c) with
      | Some b => view_remove k (lru_view c) ++ [(k, b)]
      | None => lru_view c
      end;
  lru_view_put k b c :
    (lru_put k b c).2 = view_lookup k (lru_view c) /\
    lru_view (lru_put k b c).1 = view_remove k (lru_view c) ++ [(k, b)];
  lru_view_pop c :
    (lru_pop c).2 = head (lru_view c) /\ lru_view (lru_pop c).1 = tail (lru_view c);
  lru_view_clear c : lru_view (lru_clear c) = []
}.

Section peer_lru.
Context {L : LruCache}.

Record PeerLru := mkPeerLru {
  inner : lru_cache;
  bytes : Z;
  cap_bytes : Z
}.

Definition new (cap : Z) : PeerLru := mkPeerLru lru_unbounded 0 cap.

Definition get (k : ChunkKey) (p : PeerLru) : PeerLru * option Bytes :=
  let '(c, r) := lru_get k (inner p) in (mkPeerLru c (bytes p) (cap_bytes p), r).

(** The eviction loop of [put]; one entry leaves per turn, so the number of entries is enough
    fuel ([evict_bounded]). *)
Fixpoint evict (fuel : nat) (p : PeerLru) : PeerLru :=
  match fuel with
  | O => p
  | S n =>
      if cap_bytes p <? bytes p then
        match lru_pop (inner p) with
        | (c, Some (_, v)) => evict n (mkPeerLru c (sat_sub (bytes p) (len v)) (cap_bytes p))
        | (c, None) => mkPeerLru c (bytes p) (cap_bytes p)
        end
      else p
  end.

Definition put (k : ChunkKey) (v : Bytes) (p : PeerLru) : PeerLru :=
  let new_len := len v in
  if cap_bytes p <? new_len then p else
  let '(c, prev) := lru_put k v (inner p) in
  let b := match prev with Some o => sat_sub (bytes p) (len o) | None => bytes p end in
  let p := mkPeerLru c (sat_add64 b new_len) (cap_bytes p) in
  evict (S (length (lru_view c))) p.

Definition clear (p : PeerLru) : PeerLru := mkPeerLru (lru_clear (inner p)) 0 (cap_bytes p).

(** ** The invariant *)
Definition total (l : View) : Z := zsum ((fun r => len r.2) <$> l).

Record wf (p : PeerLru) : Prop := {
  wf_keys : NoDup (lru_view (inner p)).*1;
  wf_bytes : bytes p = total (lru_view (inner p));
  wf_cap : bytes p <= cap_bytes p
}.

Inductive op : PeerLru -> PeerLru -> Prop :=
| op_get k p : op p (get k p).1
| op_put k v p : op p (put k v p)
| op_clear p : op p (clear p).

Inductive reachable (p0 : PeerLru) : PeerLru -> Prop :=
| reach_refl : reachable p0 p0
| reach_op p p' : reachable p0 p -> op p p' -> reachable p0 p'.

(** ** Lemmas *)
Lemma total_nonneg (l : View) : 0 <= total l.
Proof. apply zsum_nonneg, Forall_fmap, Forall_forall. intros; simpl; apply len_nonneg. Qed.

Lemma total_app (a b : View) : total (a ++ b) = total a + total b.
Proof. unfold total. by rewrite fmap_app, zsum_app. Qed.

Lemma view_lookup_none k (l : View) : view_lookup k l = None -> view_remove k l = l.
Proof.
  unfold view_lookup, view_remove. intros H. apply filter_id, Forall_forall. intros r Hr Hk.
  assert (r ∈ filter (fun r => r.1 = k) l) as Hin by (by apply list_elem_of_filter).
  destruct (filter (fun r => r.1 = k) l); [by apply not_elem_of_nil in Hin|done].
Qed.

Lemma view_lookup_some k (l : View) b :
  NoDup l.*1 -> view_lookup k l = Some b -> total (view_remove k l) = total l - len b.
Proof.
  unfold view_lookup, view_remove. induction l as [|[k' b'] l IH]; [done|].
  intros [Hni Hnd]%NoDup_cons. rewrite !filter_cons. simpl.
  destruct (decide (k' = k)) as [->|Hne].
  - rewrite decide_False by tauto. intros [= ->]. unfold total at 2. rewrite fmap_cons, zsum_cons. simpl.
    fold (total l). rewrite filter_id; [lia|]. apply Forall_forall. intros r Hr Hk.
    apply Hni, list_elem_of_fmap. exists r. by rewrite Hk.
  - rewrite decide_True by done. intros Hl. unfold total in *. rewrite !fmap_cons, !zsum_cons.
    rewrite IH by done. simpl. lia.
Qed.

Lemma view_remove_keys k (l : View) : NoDup l.*1 -> NoDup (view_remove k l).*1 /\ k ∉ (view_remove k l).*1.
Proof.
  unfold view_remove. intros Hnd. split.
  - induction l as [|r l IH]; [constructor|]. rewrite fmap_cons in Hnd.
    apply NoDup_cons in Hnd as [Hni Hnd]. rewrite filter_cons. case_decide; [|auto].
    rewrite fmap_cons. apply NoDup_cons. split; [|auto].
    intros (x & Hx & Hin)%list_elem_of_fmap. apply list_elem_of_filter in Hin as [_ Hin].
    apply Hni, list_elem_of_fmap. eauto.
  - intros (x & -> & Hin)%list_elem_of_fmap. by apply list_elem_of_filter in Hin as [? _].
Qed.

Lemma view_lookup_snoc (l : View) k b :
  NoDup (l ++ [(k, b)]).*1 -> view_lookup k (l ++ [(k, b)]) = Some b.
Proof.
  rewrite fmap_app. intros (_ & Hd & _)%NoDup_app. unfold view_lookup. rewrite filter_app.
  rewrite (filter_none (fun r => r.1 = k) l).
  - rewrite filter_cons_True by done. done.
  - apply Forall_forall. intros r Hr <-. apply (Hd r.1); [apply list_elem_of_fmap; eauto|]. by left.
Qed.

Lemma NoDup_snoc_keys (l : View) k (b : Bytes) : NoDup l.*1 -> k ∉ l.*1 -> NoDup (l ++ [(k, b)]).*1.
Proof.
  intros Hnd Hk. rewrite fmap_app. apply NoDup_app. split_and!; [done| |apply NoDup_singleton].
  intros x Hx. simpl. rewrite list_elem_of_singleton. by intros ->.
Qed.

(** Eviction removes a prefix of the recency order, and stops within the cap. *)
Lemma evict_bounded fuel p :
  NoDup (lru_view (inner p)).*1 -> bytes p = total (lru_view (inner p)) -> 0 <= cap_bytes p ->
  (length (lru_view (inner p)) < fuel)%nat ->
  wf (evict fuel p) /\ cap_bytes (evict fuel p) = cap_bytes p /\
  exists gone, lru_view (inner p) = gone ++ lru_view (inner (evict fuel p)) /\
    (gone = [] \/ exists g y, gone = g ++ [y] /\
       cap_bytes p < total (y :: lru_view (inner (evict fuel p)))).
Proof.
  revert p. induction fuel as [|n IH]; intros p Hnd Hb Hc Hf; [lia|]. simpl.
  destruct (Z.ltb_spec (cap_bytes p) (bytes p)) as [Hlt|Hge].
  2: { split_and!; [by split|done|exists []; auto]. }
  destruct (lru_view_pop (inner p)) as [H2 H1].
  destruct (lru_pop (inner p)) as [c r]. simpl in *.
  destruct (lru_view (inner p)) as [|[k v] t] eqn:E; simpl in *.
  { rewrite Hb in Hlt. unfold total in Hlt. simpl in Hlt. lia. }
  subst r. assert (Ht : total ((k, v) :: t) = len v + total t) by done.
  pose proof (total_nonneg t). destruct (IH (mkPeerLru c (sat_sub (bytes p) (len v)) (cap_bytes p)))
    as (Hw & Hcap & gone & Hg & Hmin); simpl.
  - rewrite H1. by apply NoDup_cons in Hnd as [_ ?].
  - rewrite H1, Hb, Ht. unfold sat_sub. lia.
  - done.
  - rewrite H1. lia.
  - split_and!; [done|done|]. exists ((k, v) :: gone). simpl in Hg.
    split; [by rewrite <- app_comm_cons, <- Hg, H1|]. right. destruct Hmin as [->|(g & y & -> & Hy)].
    + exists [], (k, v). split; [done|]. simpl in Hg. rewrite <- Hg, H1, Ht, <- Ht, <- Hb. done.
    + exists ((k, v) :: g), y. done.
Qed.

(** What is left of a list after dropping a prefix that was too big ends with the newest entry. *)
Lemma newest_stays (l gone rest : View) (x : ChunkKey * Bytes) cap :
  l ++ [x] = gone ++ rest -> len x.2 <= cap ->
  (gone = [] \/ exists g y, gone = g ++ [y] /\ cap < total (y :: rest)) ->
  exists l', rest = l' ++ [x].
Proof.
  intros H Hx Hmin. destruct rest as [|z rest _] using rev_ind.
  - rewrite app_nil_r in H. destruct Hmin as [->|(g & y & -> & Hy)].
    + by destruct l.
    + apply app_inj_tail in H as [_ <-]. unfold total in Hy. simpl in Hy. lia.
  - rewrite app_assoc in H. apply app_inj_tail in H as [_ <-]. eauto.
Qed.

Lemma put_spec k v p :
  wf p -> 0 <= cap_bytes p < 2 ^ 63 -> len v <= cap_bytes p ->
  wf (put k v p) /\ cap_bytes (put k v p) = cap_bytes p /\
  exists l, lru_view (inner (put k v p)) = l ++ [(k, v)].
Proof.
  intros [Hnd Hb Hc] Hcap Hv. unfold put. rewrite (proj2 (Z.ltb_ge _ _)) by done.
  destruct (lru_view_put k v (inner p)) as [H2 H1]. destruct (lru_put k v (inner p)) as [c prev].
  simpl in *. destruct (view_remove_keys k _ Hnd) as [Hnd' Hk'].
  assert (Hb' : match prev with Some o => sat_sub (bytes p) (len o) | None => bytes p end
                = total (view_remove k (lru_view (inner p)))).
  { rewrite H2. destruct (view_lookup k (lru_view (inner p))) as [o|] eqn:E.
    - rewrite (view_lookup_some _ _ _ Hnd E), <- Hb.
      pose proof (total_nonneg (view_remove k (lru_view (inner p)))) as Hn.
      rewrite (view_lookup_some _ _ _ Hnd E), <- Hb in Hn. unfold sat_sub. lia.
    - by rewrite (view_lookup_none _ _ E). }
  assert (Hle : total (view_remove k (lru_view (inner p))) <= bytes p).
  { rewrite <- Hb'. destruct prev as [o|]; [|lia]. unfold sat_sub. pose proof (len_nonneg o).
    pose proof (total_nonneg (lru_view (inner p))). lia. }
  edestruct (evict_bounded (S (length (lru_view c)))
    (mkPeerLru c (sat_add64 (match prev with Some o => sat_sub (bytes p) (len o) | None => bytes p end)
                    (len v)) (cap_bytes p))) as (Hw & Hcap' & gone & Hg & Hmin).
  - simpl. rewrite H1. by apply NoDup_snoc_keys.
  - simpl. rewrite Hb', H1, total_app. unfold total at 3. simpl. unfold sat_add64.
    rewrite Z.min_l by u64_lia. lia.
  - simpl. lia.
  - simpl. lia.
  - split_and!; [exact Hw|exact Hcap'|]. set (q := evict _ _) in *.
    cbn [inner cap_bytes] in Hg, Hmin. rewrite H1 in Hg.
    eapply (newest_stays _ _ _ (k, v)); [exact Hg|exact Hv|exact Hmin].
Qed.

(** No operation invents an entry. *)
Lemma view_lookup_elem k (l : View) b : view_lookup k l = Some b -> (k, b) ∈ l.
Proof.
  unfold view_lookup. intros ([k' b'] & Hh & ->)%fmap_Some. simpl.
  assert ((k', b') ∈ filter (fun r => r.1 = k) l) as [Hk Hin]%list_elem_of_filter.
  { destruct (filter (fun r => r.1 = k) l); [done|]. injection Hh as ->. by left. }
  simpl in Hk. by subst.
Qed.

Lemma get_elem k p :
  (forall x, x ∈ lru_view (inner (get k p).1) -> x ∈ lru_view (inner p)) /\
  (forall b, (get k p).2 = Some b -> (k, b) ∈ lru_view (inner p)).
Proof.
  unfold get. destruct (lru_view_get k (inner p)) as [H2 H1].
  destruct (lru_get k (inner p)) as [c r]. simpl in *. rewrite H1, H2.
  destruct (view_lookup k (lru_view (inner p))) as [b|] eqn:E; [|done].
  apply view_lookup_elem in E. split; [|intros b' [= <-]; done].
  intros x [Hx|Hx]%elem_of_app; [by apply list_elem_of_filter in Hx as [_ ?]|].
  by apply list_elem_of_singleton in Hx as ->.
Qed.

Lemma evict_elem fuel p x : x ∈ lru_view (inner (evict fuel p)) -> x ∈ lru_view (inner p).
Proof.
  revert p. induction fuel as [|n IH]; intros p; simpl; [done|]. case_match; [|done].
  destruct (lru_view_pop (inner p)) as [_ H1]. destruct (lru_pop (inner p)) as [c [[k v]|]]; simpl in *.
  - intros Hx%IH. simpl in Hx. rewrite H1 in Hx. destruct (lru_view (inner p)); [done|by right].
  - rewrite H1. destruct (lru_view (inner p)); [done|by right].
Qed.

Lemma put_elem k v p x :
  x ∈ lru_view (inner (put k v p)) -> x = (k, v) \/ x ∈ lru_view (inner p).
Proof.
  unfold put. case_match; [auto|]. destruct (lru_view_put k v (inner p)) as [_ H1].
  destruct (lru_put k v (inner p)) as [c prev]. intros Hx%evict_elem. simpl in *. rewrite H1 in Hx.
  apply elem_of_app in Hx as [Hx|Hx]; [by apply list_elem_of_filter in Hx as [_ ?]; auto|].
  apply list_elem_of_singleton in Hx. auto.
Qed.

(** An operation keeps the invariant and the cap. *)
Lemma op_wf p p' :
  op p p' -> wf p -> 0 <= cap_bytes p < 2 ^ 63 -> wf p' /\ cap_bytes p' = cap_bytes p.
Proof.
  destruct 1 as [k p|k v p|p]; intros Hw Hc.
  - unfold get. destruct (lru_view_get k (inner p)) as [_ H1]. destruct (lru_get k (inner p)) as [c r].
    simpl in *. split; [|done]. destruct Hw as [Hnd Hb Hcap].
    destruct (view_lookup k (lru_view (inner p))) as [b|] eqn:E; split; simpl; rewrite ?H1; try done.
    + destruct (view_remove_keys k _ Hnd). by apply NoDup_snoc_keys.
    + rewrite total_app, (view_lookup_some _ _ _ Hnd E), Hb. unfold total. simpl. lia.
  - destruct (Z.ltb_spec (cap_bytes p) (len v)) as [Hlt|Hge].
    + unfold put. rewrite (proj2 (Z.ltb_lt _ _)) by done. done.
    + destruct (put_spec k v p Hw Hc Hge) as (? & ? & _). done.
  - split; [|done]. unfold clear. split; simpl; rewrite ?lru_view_clear; [constructor|done|lia].
Qed.

Lemma peer_lru_new_wf cap : 0 <= cap -> wf (new cap).
Proof. intros Hc. split; simpl; rewrite ?lru_view_new; [constructor|done|done]. Qed.

(** ** Theorems *)

(** C38.  The peer LRU keeps its byte budget: through any sequence of gets, puts and clears the byte
    counter is exactly the total size of the entries and never exceeds the cap; a chunk that fits
    is found right after it is put, and an oversized chunk changes nothing. *)
Theorem peer_lru_bounded cap p k v :
  0 <= cap < 2 ^ 63 -> reachable (new cap) p ->
  bytes p = total (lru_view (inner p)) /\ bytes p <= cap /\ NoDup (lru_view (inner p)).*1 /\
  (len v <= cap -> (get k (put k v p)).2 = Some v) /\
  (cap < len v -> put k v p = p).
Proof.
  intros Hcap Hr. assert (Hp : wf p /\ cap_bytes p = cap).
  { induction Hr as [|p p' _ [IH1 IH2] Hop]; [split; [apply peer_lru_new_wf; lia|done]|].
    destruct (op_wf _ _ Hop IH1); [lia|]. split; [done|congruence]. }
  destruct Hp as [Hw Hc]. split_and!; [apply Hw|rewrite <- Hc; apply Hw|apply Hw| |].
  - intros Hv. destruct (put_spec k v p Hw) as (Hw' & _ & l & Hl); [lia|lia|].
    unfold get. destruct (lru_view_get k (inner (put k v p))) as [H2 _].
    destruct (lru_get k (inner (put k v p))) as [c r]. simpl in *. subst r.
    pose proof (wf_keys _ Hw') as Hnd. rewrite Hl in Hnd |- *. by apply view_lookup_snoc.
  - intros Hv. unfold put. rewrite (proj2 (Z.ltb_lt _ _)); [done|lia].
Qed.
End peer_lru.

(** ** An instance of the interface: the list itself *)
Program Definition list_lru : LruCache := {|
  lru_cache := View;
  lru_unbounded := [];
  lru_get k c := match view_lookup k c with
                 | Some b => (view_remove k c ++ [(k, b)], Some b)
                 | None => (c, None)
                 end;
  lru_put k b c := (view_remove k c ++ [(k, b)], view_lookup k c);
  lru_pop c := (tail c, head c);
  lru_clear _ := [];
  lru_view c := c
|}.
Next Obligation. done. Qed.
Next Obligation. intros k c. simpl. by destruct (view_lookup k c). Qed.
Next Obligation. done. Qed.
Next Obligation. done. Qed.
Next Obligation. done. Qed.

Lemma peer_lru_bounded_witness :
  let k := mkChunkKey "m" "b" 0 in
  (@get list_lru k (put k [x01; x02] (@new list_lru 3))).2 = Some [x01; x02].
Proof.
  apply (@peer_lru_bounded list_lru 3 (@new list_lru 3) (mkChunkKey "m" "b" 0) [x01; x02]);
    [lia|apply reach_refl|vm_compute; done].
Defined.
End Lru.
