(* ===== verification/Singleflight.v ===== *)
(** * Singleflight (src/src/fetcher.rs: [inflight], [LeaderGuard], the leader/follower branch)

    The interleaving the sequential model of [Fetcher] abstracts into the parameter [follow]: many
    tasks ask for chunks at once, the first one for a key becomes its leader, the others subscribe
    to the leader's broadcast channel.  A task is a leader from the moment it inserts its sender
    until [disarm] or [drop] of its [LeaderGuard].

    Each operation on shared state is a step of its own: inserting the sender and incrementing the
    gauge, removing the sender, decrementing the gauge and sending, and, for [clear_local_state],
    emptying the shards of the map and resetting the gauge.  Nothing between two of these awaits,
    so a leader cannot be cancelled there, but other tasks run in between.  Channels are numbered; a
    channel is created by one leader and carries at most one message, because a sender is used only
    after it was removed from the map. *)

From S2P Require Import Prelude ChunkKeys.

Module Singleflight.
Abbreviation Bytes := (list byte).

(** [Result<Bytes, String>], the message of the channel. *)
Abbreviation Msg := (result string Bytes).

Inductive Chan : Type :=
| Open
| Sent (m : Msg)
| Closed.

(** A leader that has removed a sender from the map and has yet to use it; [e_dec] says whether the
    gauge has been decremented. *)
Record Ending := mkEnding {
  e_tx : nat;
  e_msg : Msg;
  e_dec : bool
}.

Record State := mkState {
  inflight : gmap ChunkKey nat;      (** the sender's channel, per key *)
  chans : gmap nat Chan;
  leaders : gmap nat ChunkKey;       (** leading tasks, by the channel they created *)
  followers : gmap nat (ChunkKey * nat);  (** waiting tasks: key and subscribed channel *)
  incs : gset nat;                   (** leaders that have yet to increment the gauge *)
  ending : gmap nat Ending;          (** by the channel the leader created *)
  gauge : Z;                         (** [singleflight_inflight] *)
  next : nat
}.

Definition initial : State := mkState ∅ ∅ ∅ ∅ ∅ ∅ 0 0.

(** The [inflight.entry(key)] match: subscribe, or insert a fresh sender. *)
Definition join (task : nat) (k : ChunkKey) (s : State) : State :=
  match inflight s !! k with
  | Some c =>
      mkState (inflight s) (chans s) (leaders s) (<[task := (k, c)]> (followers s)) (incs s) (ending s)
        (gauge s) (next s)
  | None =>
      let c := next s in
      mkState (<[k := c]> (inflight s)) (<[c := Open]> (chans s)) (<[c := k]> (leaders s))
        (followers s) ({[c]} ∪ incs s) (ending s) (gauge s) (S c)
  end.

(** [singleflight_inflight.inc()] of the new leader. *)
Definition count_inc (c : nat) (s : State) : State :=
  mkState (inflight s) (chans s) (leaders s) (followers s) (incs s ∖ {[c]}) (ending s) (gauge s + 1)
    (next s).

(** [inflight.remove(&key)] of [disarm] and of [drop]: both take whatever sender is filed under the
    key; the guard is spent. *)
Definition remove_slot (c : nat) (k : ChunkKey) (m : Msg) (s : State) : State :=
  match inflight s !! k with
  | Some tx =>
      mkState (delete k (inflight s)) (chans s) (delete c (leaders s)) (followers s) (incs s)
        (<[c := mkEnding tx m false]> (ending s)) (gauge s) (next s)
  | None =>
      mkState (inflight s) (chans s) (delete c (leaders s)) (followers s) (incs s) (ending s) (gauge s)
        (next s)
  end.

(** [singleflight_inflight.dec()] after a sender was removed. *)
Definition count_dec (c : nat) (s : State) : State :=
  match ending s !! c with
  | Some (mkEnding tx m false) =>
      mkState (inflight s) (chans s) (leaders s) (followers s) (incs s)
        (<[c := mkEnding tx m true]> (ending s)) (gauge s - 1) (next s)
  | _ => s
  end.

(** [tx.send], after the decrement. *)
Definition send (c : nat) (s : State) : State :=
  match ending s !! c with
  | Some (mkEnding tx m true) =>
      mkState (inflight s) (<[tx := Sent m]> (chans s)) (leaders s) (followers s) (incs s)
        (delete c (ending s)) (gauge s) (next s)
  | _ => s
  end.

(** The leader's fetch returned, or [serve_peer_chunk] found no such mount. *)
Definition finish (c : nat) (m : Msg) (s : State) : State :=
  match leaders s !! c with
  | Some k => remove_slot c k m s
  | None => s
  end.

(** The leader's future was dropped or panicked. *)
Definition cancel (c : nat) (s : State) : State := finish c (Err "leader cancelled") s.

(** The senders filed under the keys [ks]. *)
Definition senders_of (ks : gset ChunkKey) (s : State) : gset nat :=
  map_img (filter (fun r => r.1 ∈ ks) (inflight s)).

(** [inflight.clear()] empties the map one shard after the other; [ks] are the keys of one shard.
    The senders are dropped, which closes their channels. *)
Definition clear_shard (ks : gset ChunkKey) (s : State) : State :=
  mkState (filter (fun r => r.1 ∉ ks) (inflight s))
    (map_imap (fun c ch => Some (if decide (c ∈ senders_of ks s) then Closed else ch)) (chans s))
    (leaders s) (followers s) (incs s) (ending s) (gauge s) (next s).

(** [singleflight_inflight.set(0)] of [clear_local_state]. *)
Definition reset_gauge (s : State) : State :=
  mkState (inflight s) (chans s) (leaders s) (followers s) (incs s) (ending s) 0 (next s).

(** [rx.recv()] of a follower, when it can return. *)
Definition recv (task : nat) (s : State) : option (option Msg) :=
  match followers s !! task with
  | Some (_, c) =>
      match chans s !! c with
      | Some (Sent m) => Some (Some m)
      | Some Closed => Some None
      | _ => None
      end
  | None => None
  end.

Definition leave (task : nat) (s : State) : State :=
  mkState (inflight s) (chans s) (leaders s) (delete task (followers s)) (incs s) (ending s) (gauge s)
    (next s).

(** ** Runs

    The log [h] records which fetch, for which key, ended how.  [cl] says whether
    [clear_local_state] may run; its shards and its reset may fall anywhere. *)
Abbreviation Log := (list (ChunkKey * Msg)).

Inductive step : bool -> State * Log -> State * Log -> Prop :=
| step_join cl t k s h : followers s !! t = None -> step cl (s, h) (join t k s, h)
| step_inc cl c s h : c ∈ incs s -> step cl (s, h) (count_inc c s, h)
| step_finish cl c k m s h :
    leaders s !! c = Some k -> c ∉ incs s -> step cl (s, h) (finish c m s, (k, m) :: h)
| step_cancel cl c k s h :
    leaders s !! c = Some k -> c ∉ incs s ->
    step cl (s, h) (cancel c s, (k, Err "leader cancelled") :: h)
| step_dec cl c s h : step cl (s, h) (count_dec c s, h)
| step_send cl c s h : step cl (s, h) (send c s, h)
| step_leave cl t s h : step cl (s, h) (leave t s, h)
| step_clear ks s h : step true (s, h) (clear_shard ks s, h)
| step_reset s h : step true (s, h) (reset_gauge s, h).

Inductive reachable (cl : bool) : State -> Log -> Prop :=
| reach_init : reachable cl initial []
| reach_next s h s' h' : reachable cl s h -> step cl (s, h) (s', h') -> reachable cl s' h'.

(** A sender on its way to the channel [c], with the message it will carry. *)
Definition sending (c : nat) (m : Msg) (s : State) : Prop :=
  exists c' d, ending s !! c' = Some (mkEnding c m d).

Record invariant (s : State) (h : Log) : Prop := {
  in_slot k c : inflight s !! k = Some c -> chans s !! c = Some Open /\ leaders s !! c = Some k;
  in_fresh c : (next s <= c)%nat -> chans s !! c = None /\ leaders s !! c = None;
  in_incs c : c ∈ incs s -> is_Some (leaders s !! c);
  in_ending c e : ending s !! c = Some e ->
    leaders s !! c = None /\ (c < next s)%nat /\ chans s !! e_tx e = Some Open /\
    forall k, inflight s !! k <> Some (e_tx e);
  in_once c1 c2 e1 e2 : ending s !! c1 = Some e1 -> ending s !! c2 = Some e2 ->
    e_tx e1 = e_tx e2 -> c1 = c2;
  in_follow t k c : followers s !! t = Some (k, c) ->
    match chans s !! c with
    | Some Open => inflight s !! k = Some c \/ exists m, sending c m s /\ (k, m) ∈ h
    | Some (Sent m) => (k, m) ∈ h
    | Some Closed => True
    | None => False
    end
}.

Lemma invariant_initial : invariant initial [].
Proof. split; simpl; try done; set_solver. Qed.

Lemma join_invariant t k s h : followers s !! t = None -> invariant s h -> invariant (join t k s) h.
Proof.
  intros Ht [H2 H3 Hi He Hd H5]. unfold join. destruct (inflight s !! k) as [c|] eqn:E.
  - split; try done. simpl. intros t' k' c' [[<- [= <- <-]]|[_ ?]]%lookup_insert_Some; [|by eapply H5].
    destruct (H2 _ _ E) as [-> _]. by left.
  - destruct (H3 (next s)) as [Hc Hl]; [lia|]. split; simpl.
    + intros k' c [[<- <-]|[Hne Hk]]%lookup_insert_Some; [by rewrite !lookup_insert_eq|].
      destruct (H2 _ _ Hk) as [Ho Hk']. rewrite !lookup_insert_ne by congruence. done.
    + intros c Hle. destruct (H3 c) as [? ?]; [lia|]. rewrite !lookup_insert_ne by lia. done.
    + intros c. rewrite lookup_insert, elem_of_union, elem_of_singleton. case_decide; [done|naive_solver].
    + intros c e Hc'. destruct (He _ _ Hc') as (? & ? & Ho & Hn). rewrite !lookup_insert_ne by (congruence || lia).
      split_and!; [done|lia|done|]. intros k'. rewrite lookup_insert. case_decide; [|done]. congruence.
    + done.
    + intros t' k' c Hf. specialize (H5 t' k' c Hf).
      rewrite lookup_insert_ne by (intros <-; by rewrite Hc in H5).
      destruct (chans s !! c) as [[| |]|]; try done. destruct H5 as [?|?]; [left|by right].
      by rewrite lookup_insert_ne by congruence.
Qed.

Lemma inc_invariant c s h : invariant s h -> invariant (count_inc c s) h.
Proof. intros [H2 H3 Hi He Hd H5]. split; try done. simpl. set_solver. Qed.

Lemma invariant_log s h x : invariant s h -> invariant s (x :: h).
Proof.
  intros [H2 H3 Hi He Hd H5]. split; try done. intros t k c Hf. specialize (H5 t k c Hf).
  destruct (chans s !! c) as [[| |]|]; try done; [|by right].
  destruct H5 as [?|(m & ? & ?)]; [by left|right]. exists m. split; [done|by right].
Qed.

(** The sender of [k], taken by the leader [c]. *)
Lemma taken_invariant c k tx m s h :
  leaders s !! c = Some k -> c ∉ incs s -> inflight s !! k = Some tx -> invariant s h ->
  (k, m) ∈ h -> invariant (remove_slot c k m s) h.
Proof.
  intros Hlead Hni E [H2 H3 Hi He Hd H5] Hm. unfold remove_slot. rewrite E.
  destruct (H2 _ _ E) as [Hopen Htx]. split; simpl.
  - intros k' c' [Hne Hk]%lookup_delete_Some. destruct (H2 _ _ Hk) as [Ho Hl].
    split; [done|]. apply lookup_delete_Some. split; [|done]. intros <-. congruence.
  - intros c' Hle. destruct (H3 c' Hle) as [Hc Hl]. split; [done|]. rewrite lookup_delete. by case_decide.
  - intros c' Hc'. rewrite lookup_delete_ne by (intros <-; done). by apply Hi.
  - intros c' e [[<- <-]|[Hne Hc']]%lookup_insert_Some; simpl.
    + split_and!; [apply lookup_delete_eq| |done|].
      * destruct (decide (next s <= c)%nat) as [Hle|]; [|lia]. destruct (H3 c Hle). congruence.
      * intros k' [Hk Hk']%lookup_delete_Some. destruct (H2 _ _ Hk'). congruence.
    + destruct (He _ _ Hc') as (Hl & ? & ? & Hn). split_and!; [|done..|].
      * rewrite lookup_delete. by case_decide.
      * intros k' [_ Hk']%lookup_delete_Some. by apply (Hn k').
  - intros c1 c2 e1 e2 [[<- <-]|[H1 He1]]%lookup_insert_Some [[<- <-]|[H2' He2]]%lookup_insert_Some; simpl;
      [done| | |by eapply Hd].
    + intros Heq. destruct (He _ _ He2) as (_ & _ & _ & Hn). destruct (Hn k). congruence.
    + intros Heq. destruct (He _ _ He1) as (_ & _ & _ & Hn). destruct (Hn k). congruence.
  - intros t k' c' Hf. specialize (H5 t k' c' Hf). destruct (chans s !! c') as [[| |]|]; try done.
    destruct H5 as [Hk|(m' & (c1 & d & Hs) & ?)].
    + destruct (decide (k' = k)) as [->|Hne]; [|left; by rewrite lookup_delete_ne].
      right. exists m. split; [|done]. exists c, false. simpl. rewrite lookup_insert_eq. congruence.
    + right. exists m'. split; [|done]. exists c1, d. simpl. rewrite lookup_insert_ne; [done|].
      intros <-. destruct (He _ _ Hs) as (? & _). congruence.
Qed.

Lemma finish_invariant c k m s h :
  leaders s !! c = Some k -> c ∉ incs s -> invariant s h -> invariant (finish c m s) ((k, m) :: h).
Proof.
  intros Hlead Hni Hinv%(invariant_log _ _ (k, m)). unfold finish. rewrite Hlead.
  destruct (inflight s !! k) as [tx|] eqn:E; [by eapply taken_invariant; eauto; left|].
  unfold remove_slot. rewrite E. destruct Hinv as [H2 H3 Hi He Hd H5]. split; simpl; try done.
  - intros k' c' Hk. destruct (H2 _ _ Hk) as [Ho Hl]. split; [done|].
    by rewrite lookup_delete_ne by congruence.
  - intros c' Hle. destruct (H3 c' Hle). split; [done|]. rewrite lookup_delete. by case_decide.
  - intros c' Hc'. rewrite lookup_delete_ne by (intros <-; done). by apply Hi.
  - intros c' e Hc'. destruct (He _ _ Hc') as (Hl & ? & ? & Hn). split_and!; [|done..].
    rewrite lookup_delete. by case_decide.
Qed.

Lemma dec_invariant c s h : invariant s h -> invariant (count_dec c s) h.
Proof.
  intros Hinv. unfold count_dec. destruct (ending s !! c) as [[tx m []]|] eqn:E; try done.
  destruct Hinv as [H2 H3 Hi He Hd H5].
  assert (Hsame : forall c' e, <[c := mkEnding tx m true]> (ending s) !! c' = Some e ->
    exists d, ending s !! c' = Some (mkEnding (e_tx e) (e_msg e) d)).
  { intros c' [tx' m' d'] [[<- [= <- <- <-]]|[_ ?]]%lookup_insert_Some; eauto. }
  split; simpl; try done.
  - intros c' e [d Hc']%Hsame. by apply (He _ _ Hc').
  - intros c1 c2 e1 e2 [d1 H1]%Hsame [d2 H2']%Hsame Heq. by apply (Hd _ _ _ _ H1 H2').
  - intros t k c' Hf. specialize (H5 t k c' Hf). destruct (chans s !! c') as [[| |]|]; try done.
    destruct H5 as [?|(m' & (c1 & d & Hs) & ?)]; [by left|right]. exists m'. split; [|done].
    unfold sending. simpl. destruct (decide (c1 = c)) as [->|Hne].
    + exists c, true. rewrite lookup_insert_eq. congruence.
    + exists c1, d. by rewrite lookup_insert_ne.
Qed.

Lemma send_invariant c s h : invariant s h -> invariant (send c s) h.
Proof.
  intros Hinv. unfold send. destruct (ending s !! c) as [[tx m []]|] eqn:E; try done.
  destruct Hinv as [H2 H3 Hi He Hd H5]. destruct (He _ _ E) as (Hl & Hlt & Ho & Hn). simpl in *.
  split; simpl.
  - intros k c' Hk. rewrite lookup_insert_ne by (intros <-; by destruct (Hn k)). by apply H2.
  - intros c' Hle. destruct (H3 c' Hle) as [Hc' ?]. by rewrite lookup_insert_ne by congruence.
  - done.
  - intros c' e [Hne Hc']%lookup_delete_Some. destruct (He _ _ Hc') as (? & ? & ? & ?).
    split_and!; [done..| |done]. rewrite lookup_insert_ne; [done|]. intros Heq.
    by apply Hne, (Hd _ _ _ _ E Hc').
  - intros c1 c2 e1 e2 [_ H1]%lookup_delete_Some [_ H2']%lookup_delete_Some. by apply Hd.
  - intros t k c' Hf. specialize (H5 t k c' Hf). rewrite lookup_insert. case_decide as Hc.
    + subst c'. rewrite Ho in H5. destruct H5 as [Hk|(m' & (c1 & d & Hs) & Hm)]; [by destruct (Hn k)|].
      assert (c = c1) as <- by by apply (Hd _ _ _ _ E Hs). congruence.
    + destruct (chans s !! c') as [[| |]|]; try done.
      destruct H5 as [?|(m' & (c1 & d & Hs) & ?)]; [by left|right]. exists m'. split; [|done].
      exists c1, d. simpl. rewrite lookup_delete_ne; [done|]. intros <-. congruence.
Qed.

Lemma clear_invariant ks s h : invariant s h -> invariant (clear_shard ks s) h.
Proof.
  intros [H2 H3 Hi He Hd H5].
  assert (Hdrop : forall k c, inflight s !! k = Some c -> c ∈ senders_of ks s <-> k ∈ ks).
  { intros k c Hk. unfold senders_of. rewrite elem_of_map_img. split; [|intros; exists k].
    - intros (k' & [Hk' Hin]%map_lookup_filter_Some). simpl in Hin. destruct (H2 _ _ Hk), (H2 _ _ Hk'). congruence.
    - by apply map_lookup_filter_Some. }
  unfold clear_shard. split; simpl.
  - intros k c [Hk Hni]%map_lookup_filter_Some. destruct (H2 _ _ Hk) as [Ho Hl]. split; [|done].
    rewrite map_lookup_imap, Ho. simpl. by rewrite decide_False by by rewrite (Hdrop k).
  - intros c Hle. destruct (H3 c Hle) as [Hc ?]. by rewrite map_lookup_imap, Hc.
  - done.
  - intros c e Hc. destruct (He _ _ Hc) as (? & ? & Ho & Hn). split_and!; [done..| |].
    + rewrite map_lookup_imap, Ho. simpl. rewrite decide_False; [done|]. unfold senders_of.
      rewrite elem_of_map_img. intros (k & [Hk _]%map_lookup_filter_Some). by destruct (Hn k).
    + intros k [Hk _]%map_lookup_filter_Some. by destruct (Hn k).
  - done.
  - intros t k c Hf. specialize (H5 t k c Hf). rewrite map_lookup_imap.
    destruct (chans s !! c) as [ch|]; [|done]. simpl. case_decide as Hc; [done|].
    destruct ch; try done. destruct H5 as [Hk|?]; [left|by right].
    apply map_lookup_filter_Some. split; [done|]. simpl. by rewrite <- (Hdrop k c).
Qed.

Lemma leave_invariant t s h : invariant s h -> invariant (leave t s) h.
Proof.
  intros [H2 H3 Hi He Hd H5]. split; try done. simpl. intros t' k c [_ Hf]%lookup_delete_Some. by eapply H5.
Qed.

Lemma reset_invariant s h : invariant s h -> invariant (reset_gauge s) h.
Proof. intros [H2 H3 Hi He Hd H5]. by split. Qed.

Lemma reachable_invariant cl s h : reachable cl s h -> invariant s h.
Proof.
  induction 1 as [|s h s' h' _ IH Hst]; [apply invariant_initial|].
  inversion Hst; subst; eauto using join_invariant, inc_invariant, finish_invariant, dec_invariant,
    send_invariant, leave_invariant, clear_invariant, reset_invariant.
Qed.

(** *** Without a clear *)

(** Leaders that took a sender out and have yet to decrement the gauge. *)
Definition undecremented (s : State) : gmap nat Ending := filter (fun r => e_dec r.2 = false) (ending s).

(** Every leader still holds its slot, and the gauge lags behind the map by the updates that are
    still to come. *)
Record counted (s : State) : Prop := {
  co_hold c k : leaders s !! c = Some k -> inflight s !! k = Some c;
  co_gauge : gauge s = Z.of_nat (size (inflight s)) - Z.of_nat (size (incs s))
                       + Z.of_nat (size (undecremented s))
}.

Lemma size_lookup_pos {K A} `{Countable K} (m : gmap K A) i x : m !! i = Some x -> (0 < size m)%nat.
Proof.
  intros Hi. destruct (decide (size m = 0%nat)) as [H0%map_size_empty_inv|]; [|lia].
  rewrite H0 in Hi. by rewrite lookup_empty in Hi.
Qed.

Lemma finish_counted c k m s h :
  leaders s !! c = Some k -> invariant s h -> counted s -> counted (finish c m s).
Proof.
  intros Hc Hinv [Hh Hg]. unfold finish. rewrite Hc. unfold remove_slot. rewrite (Hh _ _ Hc).
  pose proof (size_lookup_pos _ _ _ (Hh _ _ Hc)) as Hpos. split; simpl.
  - intros c' k' [Hne Hl]%lookup_delete_Some. pose proof (Hh _ _ Hl) as Hk'.
    rewrite lookup_delete_ne; [done|]. intros ->. apply Hh in Hc. congruence.
  - unfold undecremented. simpl. rewrite map_filter_insert_True by done.
    rewrite map_size_delete_Some by (rewrite (Hh _ _ Hc); eauto). rewrite map_size_insert_None; [|].
    + fold (undecremented s). lia.
    + apply map_lookup_filter_None_2. left. destruct (ending s !! c) eqn:E; [|done].
      destruct (in_ending s h Hinv _ _ E). congruence.
Qed.

Lemma dec_counted c s : counted s -> counted (count_dec c s).
Proof.
  intros [Hh Hg]. unfold count_dec. destruct (ending s !! c) as [[tx m []]|] eqn:E; [by split| |by split].
  assert (Hl : undecremented s !! c = Some (mkEnding tx m false)) by by apply map_lookup_filter_Some.
  split; [done|]. unfold undecremented. simpl. rewrite map_filter_insert_False by done.
  rewrite map_filter_delete. fold (undecremented s). rewrite map_size_delete_Some by eauto.
  pose proof (size_lookup_pos _ _ _ Hl). lia.
Qed.

Lemma send_counted c s : counted s -> counted (send c s).
Proof.
  intros [Hh Hg]. unfold send. destruct (ending s !! c) as [[tx m []]|] eqn:E; [|by split..].
  split; [done|]. unfold undecremented. simpl. rewrite map_filter_delete_not; [done|].
  intros y. rewrite E. by intros [= <-].
Qed.

Lemma join_counted t k s h : invariant s h -> counted s -> counted (join t k s).
Proof.
  intros Hinv [Hh Hg]. unfold join. destruct (inflight s !! k) as [c|] eqn:E; [done|].
  destruct (in_fresh s h Hinv (next s)) as [Hc Hl]; [lia|]. split; simpl.
  - intros c k' [[<- <-]|[Hne Hk]]%lookup_insert_Some; [by rewrite lookup_insert_eq|].
    apply Hh in Hk. by rewrite lookup_insert_ne by congruence.
  - rewrite map_size_insert_None by done. rewrite size_union, size_singleton.
    + fold (undecremented s). unfold undecremented in *. simpl. lia.
    + intros x ->%elem_of_singleton Hx. apply (in_incs s h Hinv) in Hx as [??]. congruence.
Qed.

Lemma inc_counted c s : c ∈ incs s -> counted s -> counted (count_inc c s).
Proof.
  intros Hc [Hh Hg]. split; [done|]. simpl. rewrite size_difference, size_singleton by set_solver.
  assert (0 < size (incs s))%nat; [|unfold undecremented in *; simpl; lia].
  destruct (decide (size (incs s) = 0%nat)) as [H0%size_empty_inv|]; [set_solver|lia].
Qed.

Lemma reachable_counted s h : reachable false s h -> counted s.
Proof.
  intros Hr. remember false as cl eqn:Hcl. induction Hr as [|s h s' h' Hr IH Hst]; [by split|].
  pose proof (reachable_invariant _ _ _ Hr) as Hinv.
  inversion Hst; subst; try discriminate;
    eauto using join_counted, inc_counted, dec_counted, send_counted.
  - by eapply finish_counted.
  - by eapply finish_counted.
  - by destruct IH.
Qed.

(** C14.  Singleflight is safe and never strands a follower, whatever the interleaving of tasks
    joining, finishing, being cancelled and giving up, of the separate updates of map, gauge and
    channel, and of the shards and the gauge reset of [clear_local_state]: a follower that receives
    a message receives the outcome of a fetch for its own key, and a follower whose [recv] does not
    return yet waits for a leader of its own key that still runs or for a message that is about to
    be sent.  As long as no [clear_local_state] runs, a key has at most one leader and the gauge is
    the number of slots, less the increments and plus the decrements that are still to come. *)
Theorem singleflight_sound cl s h :
  reachable cl s h ->
  (forall t k c, followers s !! t = Some (k, c) ->
     (forall m, recv t s = Some (Some m) -> (k, m) ∈ h) /\
     (recv t s = None -> leaders s !! c = Some k \/ exists m, sending c m s /\ (k, m) ∈ h)) /\
  (cl = false ->
     (forall c1 c2 k, leaders s !! c1 = Some k -> leaders s !! c2 = Some k -> c1 = c2) /\
     gauge s = Z.of_nat (size (inflight s)) - Z.of_nat (size (incs s))
               + Z.of_nat (size (undecremented s))).
Proof.
  intros Hr. pose proof (reachable_invariant _ _ _ Hr) as [H2 H3 Hi He Hd H5]. split.
  - intros t k c Hf. specialize (H5 t k c Hf). unfold recv. rewrite Hf. split.
    + intros m. destruct (chans s !! c) as [[| |]|]; try done. by intros [= <-].
    + destruct (chans s !! c) as [[| |]|]; try done. intros _. destruct H5 as [Hk|?]; [left|by right].
      by apply H2.
  - intros ->. destruct (reachable_counted _ _ Hr) as [Hh Hg]. split; [|done].
    intros c1 c2 k H1%Hh H2'%Hh. congruence.
Qed.

(** Clearing the local state while a leader runs admits a second one. *)
Example clear_admits_second_leader :
  let k := mkChunkKey "m" "b" 0 in
  let s := join 2 k (clear_shard {[k]} (join 1 k initial)) in
  leaders s !! 0%nat = Some k /\ leaders s !! 1%nat = Some k.
Proof. split; reflexivity. Qed.

Definition demo_key : ChunkKey := mkChunkKey "m" "b" 0.

(** A task that joins between the clear of the map and the reset of the gauge leaves the gauge
    wrong for good: everything has ended and the gauge reads -1. *)
Example clear_breaks_gauge :
  let s := send 0 (count_dec 0 (finish 0 (Ok []) (reset_gauge (count_inc 0
             (join 1 demo_key (clear_shard {[demo_key]} initial)))))) in
  reachable true s [(demo_key, Ok [])] /\ leaders s = ∅ /\ ending s = ∅ /\ inflight s = ∅ /\ gauge s = -1.
Proof.
  split; [|by vm_compute].
  eapply reach_next; [|apply step_send]. eapply reach_next; [|apply step_dec].
  eapply reach_next; [|by apply step_finish; vm_compute]. eapply reach_next; [|apply step_reset].
  eapply reach_next; [|apply step_inc; by vm_compute]. eapply reach_next; [|by apply step_join].
  eapply reach_next; [apply reach_init|apply step_clear].
Qed.

(** One leader, one follower. *)
Definition demo_joined : State := join 2 demo_key (count_inc 0 (join 1 demo_key initial)).

Lemma demo_reachable : reachable false demo_joined [].
Proof.
  eapply reach_next; [|by apply step_join]. eapply reach_next; [|apply step_inc; set_solver].
  eapply reach_next; [apply reach_init|by apply step_join].
Qed.

Lemma singleflight_sound_witness :
  let s := send 0 (count_dec 0 (finish 0 (Ok [x01]) demo_joined)) in
  recv 2 s = Some (Some (Ok [x01])) /\ (demo_key, Ok [x01]) ∈ [(demo_key, Ok [x01] : Msg)] /\ gauge s = 0.
Proof.
  assert (Hr : reachable false (send 0 (count_dec 0 (finish 0 (Ok [x01]) demo_joined)))
    [(demo_key, Ok [x01])]).
  { eapply reach_next; [|apply step_send]. eapply reach_next; [|apply step_dec].
    eapply reach_next; [apply demo_reachable|by apply step_finish; vm_compute]. }
  destruct (singleflight_sound false _ _ Hr) as (Hm & _ & Hg); [done|].
  split_and!; [reflexivity|by apply (Hm 2%nat demo_key 0%nat); reflexivity|rewrite Hg; reflexivity].
Defined.
End Singleflight.
