(* ===== verification/Permits.v ===== *)
(** * Concurrency limits (semaphores of src/src/fetcher.rs and src/src/hydrate.rs)

    The tasks that fetch chunks queue for permits before they fetch, and a fetch may then wait for the
    task that leads the same chunk.  [step] interleaves the tasks of file reads, shards, broadcasts,
    ring steps, prefetches and peer requests at these points; a task that is cancelled gives its
    permits back when it is dropped.  The semaphores are never closed. *)

From S2P Require Import Prelude ChunkKeys.

Module Permits.

(** [chunk_sem], [prefetch_sem], the semaphore of a source in a broadcast and that of a ring step; [r]
    numbers the calls that create their own. *)
Inductive SemId : Type :=
| ChunkSem
| PrefetchSem
| SourceSem (r i : nat)
| RingSem (r : nat).

#[export] Instance SemId_eq_dec : EqDecision SemId.
Proof. solve_decision. Defined.

Inductive Job : Type :=
| ReadChunk
| ShardChunk
| BroadcastChunk (r source : nat)
| RingChunk (r : nat)
| PrefetchChunk
| PeerRequest.

(** The permits a task acquires, in this order. *)
Definition needs (j : Job) : list SemId :=
  match j with
  | ReadChunk | ShardChunk => [ChunkSem]
  | BroadcastChunk r i => [SourceSem r i; ChunkSem]
  | RingChunk r => [RingSem r; ChunkSem]
  | PrefetchChunk => [PrefetchSem]
  | PeerRequest => []
  end.

(** [Following l]: waiting for the result of the leader [l]. *)
Inductive Phase : Type :=
| Acquiring (rest : list SemId)
| Leading (k : ChunkKey)
| Following (l : nat)
| Fetching
| Finished.

Record Task := mkTask {
  job : Job;
  held : list SemId;
  phase : Phase
}.

Record Sys := mkSys {
  tasks : gmap nat Task;
  free : SemId -> Z;
  gauge : Z
}.

Section permits.
(** The configured limits, and the number of sources of each broadcast. *)
Context (chunk_concurrency prefetch_concurrency : Z) (n_sources : nat -> Z).

Definition chunk_concurrency_limit : Z := Z.max chunk_concurrency 1.

Definition per_src_permits (r : nat) : Z :=
  Z.max (Z.max chunk_concurrency_limit 1 / Z.max (n_sources r) 1) 1.

Definition capacity (x : SemId) : Z :=
  match x with
  | ChunkSem => chunk_concurrency_limit
  | PrefetchSem => Z.max prefetch_concurrency 1
  | SourceSem r _ => per_src_permits r
  | RingSem _ => Z.max chunk_concurrency_limit 1
  end.

Definition start : Sys := mkSys ∅ capacity 0.

Definition occurs (x : SemId) (l : list SemId) : Z := len (filter (fun y => y = x) l).

Definition set_task (i : nat) (t : Task) (s : Sys) : Sys := mkSys (<[i := t]> (tasks s)) (free s) (gauge s).

(** [acquire_owned]; [acquire_chunk_permit] also counts the permit. *)
Definition acquire (i : nat) (j : Job) (h rest : list SemId) (x : SemId) (s : Sys) : Sys :=
  mkSys (<[i := mkTask j (x :: h) (Acquiring rest)]> (tasks s))
    (fun y => if decide (y = x) then free s y - 1 else free s y)
    (if decide (x = ChunkSem) then gauge s + 1 else gauge s).

(** The end of a task, normal or not: its permits are dropped, a chunk permit with its count. *)
Definition finish (i : nat) (t : Task) (s : Sys) : Sys :=
  mkSys (<[i := mkTask (job t) [] Finished]> (tasks s)) (fun y => free s y + occurs y (held t))
    (gauge s - occurs ChunkSem (held t)).

(** The work of the tasks. *)
Inductive work (s : Sys) : Sys -> Prop :=
| work_acquire i j h x rest :
    tasks s !! i = Some (mkTask j h (Acquiring (x :: rest))) -> 0 < free s x ->
    work s (acquire i j h rest x s)
| work_lead i j h k :
    tasks s !! i = Some (mkTask j h (Acquiring [])) -> map_Forall (fun _ t => phase t <> Leading k) (tasks s) ->
    work s (set_task i (mkTask j h (Leading k)) s)
| work_follow i j h k l t :
    tasks s !! i = Some (mkTask j h (Acquiring [])) -> tasks s !! l = Some t -> phase t = Leading k ->
    work s (set_task i (mkTask j h (Following l)) s)
| work_direct i j h :
    tasks s !! i = Some (mkTask j h (Acquiring [])) -> work s (set_task i (mkTask j h Fetching) s)
| work_wake i j h l t :
    tasks s !! i = Some (mkTask j h (Following l)) -> tasks s !! l = Some t -> phase t = Finished ->
    work s (set_task i (mkTask j h Fetching) s)
| work_done i j h k : tasks s !! i = Some (mkTask j h (Leading k)) -> work s (finish i (mkTask j h (Leading k)) s)
| work_return i j h : tasks s !! i = Some (mkTask j h Fetching) -> work s (finish i (mkTask j h Fetching) s).

(** With new tasks and cancellations. *)
Inductive step (s : Sys) : Sys -> Prop :=
| step_work s' : work s s' -> step s s'
| step_spawn i j : tasks s !! i = None -> step s (set_task i (mkTask j [] (Acquiring (needs j))) s)
| step_cancel i t : tasks s !! i = Some t -> phase t <> Finished -> step s (finish i t s).

Inductive reachable : Sys -> Prop :=
| reach_start : reachable start
| reach_step s s' : reachable s -> step s s' -> reachable s'.

Inductive works : nat -> Sys -> Sys -> Prop :=
| works_O s : works 0 s s
| works_S n s s' s'' : work s s' -> works n s' s'' -> works (S n) s s''.

(** ** Sums over the tasks *)
Definition total (f : Task -> Z) (m : gmap nat Task) : Z := zsum (f <$> (map_to_list m).*2).

Lemma sum_insert f m i t : m !! i = None -> total f (<[i := t]> m) = f t + total f m.
Proof using Type.
  intros Hi. unfold total. rewrite <- zsum_cons. apply zsum_permutation.
  by rewrite (map_to_list_insert m i t Hi).
Qed.

Lemma sum_update f m i t t' : m !! i = Some t -> total f (<[i := t']> m) = total f m - f t + f t'.
Proof using Type.
  intros Hi. rewrite <- (insert_delete_id m i t Hi) at 2. rewrite <- insert_delete_eq.
  rewrite !sum_insert by apply lookup_delete_eq. lia.
Qed.

Lemma sum_nonneg f m : (forall t, 0 <= f t) -> 0 <= total f m.
Proof using Type.
  intros Hf. apply zsum_nonneg. rewrite Forall_fmap. apply Forall_forall. intros t _. apply Hf.
Qed.

(** A positive sum has a positive term. *)
Lemma sum_pos f m : (forall t, 0 <= f t) -> 0 < total f m -> exists i t, m !! i = Some t /\ 0 < f t.
Proof using Type.
  intros Hf. induction m as [|i t m Hi IH] using map_ind; [done|]. rewrite sum_insert by done. intros Hp.
  destruct (decide (0 < f t)) as [Ht|Ht]; [exists i, t; by rewrite lookup_insert_eq|].
  destruct IH as (j & u & Hj & Hu); [lia|]. exists j, u. split; [|done]. rewrite lookup_insert_ne; [done|].
  congruence.
Qed.

Definition holders (s : Sys) (x : SemId) : Z := total (fun t => occurs x (held t)) (tasks s).

Lemma occurs_nonneg x l : 0 <= occurs x l.
Proof using Type. apply len_nonneg. Qed.

Lemma occurs_cons x y l : occurs x (y :: l) = (if decide (y = x) then 1 else 0) + occurs x l.
Proof using Type. unfold occurs. rewrite filter_cons. case_decide; [rewrite len_cons|]; lia. Qed.

Lemma occurs_pos x l : 0 < occurs x l -> x ∈ l.
Proof using Type.
  unfold occurs. intros Hp. destruct (filter (fun y => y = x) l) as [|y k] eqn:E; [done|].
  assert (Hy : y ∈ filter (fun y => y = x) l) by (rewrite E; by left).
  apply list_elem_of_filter in Hy as [-> ?]. done.
Qed.

(** The work left to a task. *)
Definition left (t : Task) : Z :=
  match phase t with
  | Acquiring rest => 3 + len rest
  | Following _ => 2
  | Leading _ | Fetching => 1
  | Finished => 0
  end.

Definition measure (s : Sys) : Z := total left (tasks s).

Lemma left_nonneg t : 0 <= left t.
Proof using Type. unfold left. destruct (phase t) as [rest| | | |]; try lia. pose proof (len_nonneg rest). lia. Qed.

(** ** The invariant *)
Definition task_ok (m : gmap nat Task) (t : Task) : Prop :=
  match phase t with
  | Acquiring rest => needs (job t) = reverse (held t) ++ rest
  | Leading _ | Fetching => needs (job t) = reverse (held t)
  | Following l => needs (job t) = reverse (held t) /\
      exists u, m !! l = Some u /\ (phase u = Finished \/ exists k, phase u = Leading k)
  | Finished => held t = []
  end.

Record inv (s : Sys) : Prop := {
  in_free x : free s x = capacity x - holders s x;
  in_free_nonneg x : 0 <= free s x;
  in_gauge : gauge s = holders s ChunkSem;
  in_task i t : tasks s !! i = Some t -> task_ok (tasks s) t
}.

Lemma task_ok_set m i u u' t :
  m !! i = Some u -> (forall k, phase u = Leading k -> phase u' = Leading k \/ phase u' = Finished) ->
  (phase u = Finished -> phase u' = Finished) ->
  task_ok m t -> task_ok (<[i := u']> m) t.
Proof using Type.
  intros Hi Hl Hf. unfold task_ok. destruct (phase t) as [rest|k|l| |]; try done.
  intros [Hn (x & Hx & Hp)]. split; [done|]. destruct (decide (i = l)) as [->|Hne].
  - exists u'. rewrite lookup_insert_eq. split; [done|]. assert (x = u) as -> by congruence.
    destruct Hp as [Hp|[k Hp]]; [left; auto|]. destruct (Hl k Hp) as [?|?]; eauto.
  - exists x. by rewrite lookup_insert_ne.
Qed.

Lemma task_ok_new m i u t : m !! i = None -> task_ok m t -> task_ok (<[i := u]> m) t.
Proof using Type.
  intros Hi. unfold task_ok. destruct (phase t) as [rest|k|l| |]; try done.
  intros [Hn (x & Hx & Hp)]. split; [done|]. exists x. rewrite lookup_insert_ne; [done|]. congruence.
Qed.

(** One task goes on without touching the permits. *)
Lemma inv_set_task s i t t' :
  inv s -> tasks s !! i = Some t -> held t' = held t ->
  (forall k, phase t <> Leading k) -> phase t <> Finished ->
  task_ok (<[i := t']> (tasks s)) t' -> inv (set_task i t' s).
Proof using Type.
  intros [Hf Hn Hg Ht] Hi Hh Hnl Hnf Hok.
  assert (Hsame : forall x, holders (set_task i t' s) x = holders s x).
  { intros x. unfold holders. simpl. rewrite (sum_update _ _ i t) by done. rewrite Hh. lia. }
  split; simpl; [intros x; by rewrite Hsame|done|by rewrite Hsame|].
  intros j u. rewrite lookup_insert. case_decide; [by intros [= <-]|]. intros Hj.
  eapply task_ok_set; [done| | |by eapply Ht]; [intros k ?; by destruct (Hnl k)|done].
Qed.

Lemma inv_acquire s i j h x rest :
  inv s -> tasks s !! i = Some (mkTask j h (Acquiring (x :: rest))) -> 0 < free s x ->
  inv (acquire i j h rest x s).
Proof using Type.
  intros [Hf Hn Hg Ht] Hi Hx.
  assert (Hh : forall y, holders (acquire i j h rest x s) y = holders s y + if decide (x = y) then 1 else 0).
  { intros y. unfold holders, acquire. cbn [tasks]. rewrite (sum_update _ _ i _ _ Hi). cbn [held].
    rewrite occurs_cons. lia. }
  split.
  - intros y. rewrite Hh. unfold acquire. cbn [free]. rewrite Hf. repeat case_decide; subst; try congruence; lia.
  - intros y. unfold acquire. cbn [free]. case_decide; [subst; lia|apply Hn].
  - rewrite Hh. unfold acquire. cbn [gauge]. rewrite Hg. repeat case_decide; lia.
  - intros k t. unfold acquire. cbn [tasks]. rewrite lookup_insert. case_decide as Hk.
    + intros [= <-]. specialize (Ht i _ Hi). unfold task_ok in *. cbn [phase job held] in *.
      by rewrite reverse_cons, <- app_assoc.
    + intros Hj. eapply task_ok_set; [done| | |by eapply Ht]; done.
Qed.

Lemma inv_finish s i t : inv s -> tasks s !! i = Some t -> inv (finish i t s).
Proof using Type.
  intros [Hf Hn Hg Ht] Hi.
  assert (Hh : forall y, holders (finish i t s) y = holders s y - occurs y (held t)).
  { intros y. unfold holders, finish. cbn [tasks]. rewrite (sum_update _ _ i _ _ Hi). cbn [held].
    change (occurs y []) with 0. lia. }
  split.
  - intros y. rewrite Hh. unfold finish. cbn [free]. rewrite Hf. lia.
  - intros y. unfold finish. cbn [free]. pose proof (Hn y). pose proof (occurs_nonneg y (held t)). lia.
  - rewrite Hh. unfold finish. cbn [gauge]. lia.
  - intros j u. unfold finish. cbn [tasks]. rewrite lookup_insert. case_decide; [by intros [= <-]|].
    intros Hj. eapply task_ok_set; [done| | |by eapply Ht]; [by right|done].
Qed.

Lemma work_inv s s' : inv s -> work s s' -> inv s'.
Proof using Type.
  intros Hs Hw. destruct Hw as [i j h x rest Hi Hx|i j h k Hi _|i j h k l t Hi Hl Hp|i j h Hi|i j h l t Hi Hl Hp
    |i j h k Hi|i j h Hi]; [by apply inv_acquire|..|by apply inv_finish|by apply inv_finish];
    pose proof (in_task s Hs i _ Hi) as Hok; unfold task_ok in Hok; cbn [phase job held] in Hok.
  - eapply inv_set_task; try done. unfold task_ok. simpl. by rewrite Hok, app_nil_r.
  - eapply inv_set_task; try done. unfold task_ok. simpl. split; [by rewrite Hok, app_nil_r|].
    exists t. split; [|eauto]. rewrite lookup_insert_ne; [done|]. intros ->.
    assert (t = mkTask j h (Acquiring [])) as -> by congruence. done.
  - eapply inv_set_task; try done. unfold task_ok. simpl. by rewrite Hok, app_nil_r.
  - destruct Hok as [Hok _]. by eapply inv_set_task.
Qed.

Lemma step_permits_inv s s' : inv s -> step s s' -> inv s'.
Proof using Type.
  intros Hs Hst. destruct Hst as [s' Hw|i j Hi|i t Hi Hp]; [by eapply work_inv| |by apply inv_finish].
  destruct Hs as [Hf Hn Hg Ht]. set (t := mkTask j [] (Acquiring (needs j))).
  assert (Hh : forall x, holders (set_task i t s) x = holders s x).
  { intros x. unfold holders. simpl. by rewrite sum_insert. }
  split; simpl; [intros x; by rewrite Hh|done|by rewrite Hh|].
  intros k u. rewrite lookup_insert. case_decide; [by intros [= <-]|]. intros Hk.
  apply task_ok_new; [done|by eapply Ht].
Qed.

Lemma permits_inv s : reachable s -> inv s.
Proof using Type.
  induction 1 as [|s s' _ IH Hst]; [|by eapply step_permits_inv]. split; simpl.
  - intros x. unfold holders, total. simpl. rewrite map_to_list_empty. simpl. lia.
  - intros x. destruct x; simpl; unfold chunk_concurrency_limit, per_src_permits; lia.
  - done.
  - done.
Qed.

(** ** Progress *)
Lemma capacity_pos x : 0 < capacity x.
Proof using Type. destruct x; simpl; unfold chunk_concurrency_limit, per_src_permits; lia. Qed.

(** Whoever has a chunk permit has all its permits, and whoever waits with a permit waits for one. *)
Lemma needs_order j h y r : needs j = reverse h ++ y :: r -> ChunkSem ∉ h /\ (h <> [] -> y = ChunkSem).
Proof using Type.
  clear chunk_concurrency prefetch_concurrency n_sources. rewrite <- (elem_of_reverse ChunkSem h). intros Ha. assert (Hn : h <> [] -> reverse h <> []).
  { intros Hh Hr. apply Hh. by rewrite <- (reverse_involutive h), Hr. }
  revert Ha Hn. generalize (reverse h) as a. intros a Ha Hn.
  cut (ChunkSem ∉ a /\ (a <> [] -> y = ChunkSem)); [naive_solver|].
  destruct j; simpl in Ha; destruct a as [|b [|c [|? ?]]]; simplify_eq/=; split; try done; set_solver.
Qed.

Lemma find_task (p : Task -> bool) (m : gmap nat Task) :
  (exists i t, m !! i = Some t /\ p t = true) \/ (forall i t, m !! i = Some t -> p t = false).
Proof using Type.
  destruct (decide (map_Exists (fun _ t => p t = true) m)) as [(i & t & ? & ?)|Hn]; [left; eauto|right].
  intros i t Hi. apply not_true_iff_false. intros Hp. apply Hn. by exists i, t.
Qed.

Definition waits (x : SemId) (t : Task) : bool :=
  match phase t with Acquiring (y :: _) => bool_decide (y = x) | _ => false end.
Definition active (t : Task) : bool := match phase t with Leading _ | Fetching => true | _ => false end.
Definition ready (t : Task) : bool := match phase t with Acquiring [] => true | _ => false end.
Definition follows (t : Task) : bool := match phase t with Following _ => true | _ => false end.

(** When every unfinished task waits for a permit, one that has run out is held by a task that waits. *)
Lemma exhausted_holder s x :
  inv s -> (forall i t, tasks s !! i = Some t -> active t = false) ->
  (forall i t, tasks s !! i = Some t -> follows t = false) ->
  (forall i t, tasks s !! i = Some t -> ready t = false) -> free s x <= 0 ->
  exists i t y r, tasks s !! i = Some t /\ phase t = Acquiring (y :: r) /\ x ∈ held t /\
    needs (job t) = reverse (held t) ++ y :: r.
Proof using Type.
  intros Hs Ha Hfo Hre Hx. pose proof (in_free s Hs x) as Hf. pose proof (capacity_pos x).
  destruct (sum_pos (fun t => occurs x (held t)) (tasks s)) as (i & t & Hi & Ho).
  - intros t. apply occurs_nonneg.
  - fold (holders s x). lia.
  - apply occurs_pos in Ho. pose proof (in_task s Hs i t Hi) as Hok. unfold task_ok in Hok.
    specialize (Ha i t Hi). specialize (Hfo i t Hi). specialize (Hre i t Hi).
    unfold active, follows, ready in *. destruct (phase t) as [[|y r]|k|l| |] eqn:Ep; try done.
    + exists i, t, y, r. done.
    + rewrite Hok in Ho. by apply not_elem_of_nil in Ho.
Qed.

(** A task that waits for a permit it can have, or a task that waits for a chunk permit. *)
Lemma waiter_moves s i t x r :
  tasks s !! i = Some t -> phase t = Acquiring (x :: r) -> 0 < free s x -> exists s', work s s'.
Proof using Type.
  intros Hi Hp Hx. destruct t as [j h p]. simpl in Hp. subst p. eexists. by eapply work_acquire.
Qed.

Lemma some_task_moves s i t :
  inv s -> tasks s !! i = Some t -> phase t <> Finished -> exists s', work s s'.
Proof using Type.
  intros Hs Hi Hp. destruct (find_task active (tasks s)) as [(k & u & Hk & Hu)|Ha].
  { destruct u as [j h [| | | |]]; try done; eexists; [by eapply work_done|by eapply work_return]. }
  destruct (find_task follows (tasks s)) as [(k & u & Hk & Hu)|Hfo].
  { pose proof (in_task s Hs k u Hk) as Hok. destruct u as [j h [| |l| |]]; try done.
    destruct Hok as [_ (v & Hv & [Hf|[q Hl]])]; [eexists; by eapply work_wake|].
    specialize (Ha l v Hv). unfold active in Ha. by rewrite Hl in Ha. }
  destruct (find_task ready (tasks s)) as [(k & u & Hk & Hu)|Hre].
  { destruct u as [j h [[|]| | | |]]; try done. eexists. by eapply work_direct. }
  assert (Hw : exists x r, phase t = Acquiring (x :: r)).
  { specialize (Ha i t Hi). specialize (Hfo i t Hi). specialize (Hre i t Hi).
    unfold active, follows, ready in *. destruct (phase t) as [[|x r]|k|l| |]; try done. eauto. }
  destruct Hw as (x & r & Hx). destruct (decide (0 < free s x)) as [Hfr|Hfr]; [by eapply waiter_moves|].
  destruct (exhausted_holder s x Hs Ha Hfo Hre ltac:(lia)) as (k & u & y & q & Hk & Hu & Hin & Hn).
  destruct (needs_order _ _ _ _ Hn) as [_ Hy]. assert (y = ChunkSem) as ->.
  { apply Hy. intros Hnil. rewrite Hnil in Hin. by apply not_elem_of_nil in Hin. }
  destruct (decide (0 < free s ChunkSem)) as [Hfc|Hfc]; [by eapply waiter_moves|].
  destruct (exhausted_holder s ChunkSem Hs Ha Hfo Hre ltac:(lia)) as (k' & u' & y' & q' & _ & _ & Hin' & Hn').
  by destruct (needs_order _ _ _ _ Hn') as [Hno _].
Qed.

Lemma work_measure s s' : work s s' -> measure s' < measure s.
Proof using Type.
  assert (Hupd : forall i t t', tasks s !! i = Some t -> left t' < left t ->
    total left (<[i := t']> (tasks s)) < measure s).
  { intros i t t' Hi Hl. rewrite (sum_update _ _ i t) by done. unfold measure. lia. }
  intros Hw. destruct Hw; unfold measure at 1, acquire, set_task, finish; cbn [tasks];
    (eapply Hupd; [done|]); unfold left; cbn [phase]; rewrite ?len_cons, ?len_nil; lia.
Qed.

Lemma works_measure n s s' : works n s s' -> Z.of_nat n + measure s' <= measure s.
Proof using Type.
  induction 1 as [|n s s' s'' Hw _ IH]; [lia|]. apply work_measure in Hw. lia.
Qed.

Lemma works_inv n s s' : works n s s' -> inv s -> inv s'.
Proof using Type. induction 1; [done|]. intros Hs. eauto using work_inv. Qed.

(** ** Theorem *)

(** C32.  The limits hold and nothing waits for ever: in every reachable state the holders of each
    semaphore are its capacity less its free permits (so never more than the limit, which is at least
    one), and the gauge counts the chunk permits held; the tasks can do only a bounded amount of work,
    whatever the schedule, and when they can do no more all of them have finished and every permit is
    back - no mixture of reads, shards, broadcasts, ring steps, prefetches, peer requests, leaders,
    followers and cancellations can block itself. *)
Theorem permits_settle s :
  reachable s ->
  (forall x, 0 <= free s x /\ 0 <= holders s x /\ holders s x + free s x = capacity x /\ 1 <= capacity x) /\
  gauge s = holders s ChunkSem /\
  (forall n s', works n s s' -> Z.of_nat n <= measure s) /\
  (forall n s', works n s s' -> (forall s'', ~ work s' s'') ->
     (forall i t, tasks s' !! i = Some t -> phase t = Finished) /\
     (forall x, free s' x = capacity x) /\ gauge s' = 0).
Proof using Type.
  intros Hs%permits_inv.
  assert (Hh : forall s x, 0 <= holders s x) by (intros; apply sum_nonneg; intros; apply occurs_nonneg).
  split_and!.
  - intros x. pose proof (in_free s Hs x). pose proof (in_free_nonneg s Hs x). pose proof (capacity_pos x).
    pose proof (Hh s x). lia.
  - apply (in_gauge s Hs).
  - intros n s' Hw%works_measure. pose proof (sum_nonneg left (tasks s') left_nonneg).
    unfold measure in *. lia.
  - intros n s' Hw Hstuck. pose proof (works_inv n s s' Hw Hs) as Hs'.
    assert (Hfin : forall i t, tasks s' !! i = Some t -> phase t = Finished).
    { intros i t Hi. destruct (phase t) eqn:Ep; try done;
        (destruct (some_task_moves s' i t Hs' Hi) as [s'' Hw'']; [by rewrite Ep|by destruct (Hstuck s'')]). }
    assert (Hz : forall x, holders s' x = 0).
    { intros x. destruct (Z.le_gt_cases (holders s' x) 0) as [|Hp]; [pose proof (Hh s' x); lia|].
      apply sum_pos in Hp as (i & t & Hi & Ho); [|intros; apply occurs_nonneg].
      pose proof (in_task s' Hs' i t Hi) as Hok. unfold task_ok in Hok. rewrite (Hfin i t Hi) in Hok.
      by rewrite Hok in Ho. }
    split_and!; [done| |by rewrite (in_gauge s' Hs'), Hz].
    intros x. by rewrite (in_free s' Hs'), Hz, Z.sub_0_r.
Qed.
End permits.

(** Two broadcast pulls from one source under a limit of one, the first with its source permit. *)
Definition demo_permits : Sys :=
  let s := set_task 0 (mkTask (BroadcastChunk 0 0) [] (Acquiring [SourceSem 0 0; ChunkSem]))
             (start 1 1 (fun _ => 2)) in
  let s := set_task 1 (mkTask (BroadcastChunk 0 0) [] (Acquiring [SourceSem 0 0; ChunkSem])) s in
  acquire 0 (BroadcastChunk 0 0) [] [ChunkSem] (SourceSem 0 0) s.

Lemma demo_permits_reachable : reachable 1 1 (fun _ => 2) demo_permits.
Proof.
  eapply reach_step; [eapply reach_step; [eapply reach_step; [apply reach_start|]|]|].
  - by apply (step_spawn _ 0 (BroadcastChunk 0 0)).
  - by apply (step_spawn _ 1 (BroadcastChunk 0 0)).
  - apply step_work. by apply work_acquire.
Qed.

Lemma permits_settle_witness :
  free demo_permits (SourceSem 0 0) = 0 /\ holders demo_permits (SourceSem 0 0) = 1 /\
  forall n s', works n demo_permits s' -> Z.of_nat n <= 9.
Proof.
  destruct (permits_settle 1 1 (fun _ => 2) demo_permits) as (_ & _ & Hn & _); [exact demo_permits_reachable|].
  split; [vm_compute; reflexivity|]. split; [vm_compute; reflexivity|]. intros n s' Hw.
  apply Hn in Hw. assert (measure demo_permits = 9) as Hm by (vm_compute; reflexivity). rewrite Hm in Hw. exact Hw.
Defined.
End Permits.
