(* ===== verification/Fetcher.v ===== *)
(** * The fetch pipeline (src/src/fetcher.rs)

    Where a chunk comes from: writes in flight, the peer LRU, the disk cache, another task's fetch
    (singleflight), the peers, the origin.  Everything outside the node is the record [Env]: the
    peer client, the Azure pool, the base64 decoder, whether a blocking task or a disk read
    succeeds, and what a singleflight leader broadcasts to a follower.  [tokio::spawn]ed inserts
    are the list [spawned], finished one at a time by [finish_insert].  Counters are a map from
    their names; histograms, tracing and the request id are left out. *)

From S2P Require Import Prelude ChunkKeys DiskCache Cluster PeerIndex Config PeerLru.

Module Fetch.
Import Cluster.
Abbreviation Bytes := (list byte).

(** ** State *)
Record SeqState := mkSeqState {
  last_end : Z;
  consecutive : Z;
  blob_streak : Z
}.

(** The fields that never change after [new]. *)
Record Settings := mkSettings {
  chunk_size : Z;
  block_size : Z;
  peer_max_candidates : Z;
  peer_max_yes_attempts : Z;
  peer_max_maybe_attempts : Z;
  stampede_wait_ms : Z;
  mounts : gmap string Conf.MountConfig;
  chunk_concurrency : Z;
  prefetch_concurrency : Z;
  prefetch_depth : Z;
  prefetch_threshold : Z;
  prefetch_origin_only : bool;
  cache_on_peer_fetch : bool
}.

Section fetcher.
Context {L : Lru.LruCache}.

Record Fetcher := mkFetcher {
  cfg : Settings;
  cache : Cache.DiskCache;
  membership : Membership;
  peer_index : Index.PeerIndex;
  stats : gmap string Z;
  inflight : gset ChunkKey;
  inflight_writes : gmap ChunkKey Bytes;
  spawned : list (ChunkKey * Bytes);
  insert_failures : list (ChunkKey * string);
  seq_state : gmap string SeqState;
  peer_lru : option Lru.PeerLru
}.

Definition new (c : Cache.DiskCache) (m : Membership) (pi : Index.PeerIndex)
    (chunk_size configured_block_size chunk_concurrency depth threshold pf_concurrency : Z)
    (origin_only on_peer : bool) (peer_lru_bytes max_cand max_yes max_maybe wait : Z)
    (mounts : gmap string Conf.MountConfig) : Fetcher :=
  mkFetcher
    (mkSettings chunk_size
       (if configured_block_size =? 0 then chunk_size else configured_block_size)
       (Z.max max_cand 1) (Z.max max_yes 1) (Z.max max_maybe 1) wait mounts
       (Z.max chunk_concurrency 1) (Z.max pf_concurrency 1) depth (Z.max threshold 1)
       origin_only on_peer)
    c m pi ∅ ∅ ∅ [] [] ∅
    (if 0 <? peer_lru_bytes then Some (Lru.new peer_lru_bytes) else None).

Definition set_cache (c : Cache.DiskCache) (f : Fetcher) : Fetcher :=
  mkFetcher (cfg f) c (membership f) (peer_index f) (stats f) (inflight f) (inflight_writes f)
    (spawned f) (insert_failures f) (seq_state f) (peer_lru f).
Definition set_membership (m : Membership) (f : Fetcher) : Fetcher :=
  mkFetcher (cfg f) (cache f) m (peer_index f) (stats f) (inflight f) (inflight_writes f)
    (spawned f) (insert_failures f) (seq_state f) (peer_lru f).
Definition set_index (p : Index.PeerIndex) (f : Fetcher) : Fetcher :=
  mkFetcher (cfg f) (cache f) (membership f) p (stats f) (inflight f) (inflight_writes f)
    (spawned f) (insert_failures f) (seq_state f) (peer_lru f).
Definition set_stats (s : gmap string Z) (f : Fetcher) : Fetcher :=
  mkFetcher (cfg f) (cache f) (membership f) (peer_index f) s (inflight f) (inflight_writes f)
    (spawned f) (insert_failures f) (seq_state f) (peer_lru f).
Definition set_inflight (s : gset ChunkKey) (f : Fetcher) : Fetcher :=
  mkFetcher (cfg f) (cache f) (membership f) (peer_index f) (stats f) s (inflight_writes f)
    (spawned f) (insert_failures f) (seq_state f) (peer_lru f).
Definition set_writes (w : gmap ChunkKey Bytes) (f : Fetcher) : Fetcher :=
  mkFetcher (cfg f) (cache f) (membership f) (peer_index f) (stats f) (inflight f) w
    (spawned f) (insert_failures f) (seq_state f) (peer_lru f).
Definition set_spawned (l : list (ChunkKey * Bytes)) (f : Fetcher) : Fetcher :=
  mkFetcher (cfg f) (cache f) (membership f) (peer_index f) (stats f) (inflight f)
    (inflight_writes f) l (insert_failures f) (seq_state f) (peer_lru f).
Definition set_failures (l : list (ChunkKey * string)) (f : Fetcher) : Fetcher :=
  mkFetcher (cfg f) (cache f) (membership f) (peer_index f) (stats f) (inflight f)
    (inflight_writes f) (spawned f) l (seq_state f) (peer_lru f).
Definition set_seq (m : gmap string SeqState) (f : Fetcher) : Fetcher :=
  mkFetcher (cfg f) (cache f) (membership f) (peer_index f) (stats f) (inflight f)
    (inflight_writes f) (spawned f) (insert_failures f) m (peer_lru f).
Definition set_lru (l : option Lru.PeerLru) (f : Fetcher) : Fetcher :=
  mkFetcher (cfg f) (cache f) (membership f) (peer_index f) (stats f) (inflight f)
    (inflight_writes f) (spawned f) (insert_failures f) (seq_state f) l.

(** A counter or gauge. *)
Definition add_stat (name : string) (n : Z) (f : Fetcher) : Fetcher :=
  set_stats (<[name := wrap64 (default 0 (stats f !! name) + n)]> (stats f)) f.
Definition inc (name : string) (f : Fetcher) : Fetcher := add_stat name 1 f.
Definition dec (name : string) (f : Fetcher) : Fetcher := add_stat name (-1) f.

(** ** The world outside *)

(** What a follower receives from the broadcast channel of the leader. *)
Inductive Follow : Type :=
| Got (d : Bytes)
| Failed (msg : string)
| Dropped.

Record Env := mkEnv {
  joined : bool;
  join_error : string;
  read_ok : bool;
  rdma : bool;
  b64_decode : string -> option Bytes;
  fetch_peer : string -> string -> option Bytes -> ChunkKey -> Z -> Z -> res Bytes;
  get_blob_range : string -> string -> string -> string -> Z -> Z -> res Bytes;
  follow : ChunkKey -> Follow;
  task_error : Z -> option string
}.

Section operations.
Context (sha256 : Bytes -> Bytes) (E : Env).

(** [cache.try_get] on a blocking task. *)
Definition cache_get (k : ChunkKey) (f : Fetcher) : Fetcher * option Bytes :=
  let '(c, r) := Cache.try_get sha256 (read_ok E) k (cache f) in (set_cache c f, r).

Definition seq_key (mount_name blob_path : string) : string :=
  mount_name +:+ String nul blob_path.

Definition sat_inc32 (z : Z) : Z := Z.min (z + 1) u32_max.

Definition note_fetch_origin (mount_name blob_path : string) (from_blob : bool) (f : Fetcher)
    : Fetcher :=
  let k := seq_key mount_name blob_path in
  let e := default (mkSeqState 0 0 0) (seq_state f !! k) in
  let s := if from_blob then sat_inc32 (blob_streak e) else 0 in
  set_seq (<[k := mkSeqState (last_end e) (consecutive e) s]> (seq_state f)) f.

Definition MAX_RECORDED_INSERT_FAILURES : Z := 256.

Definition record_insert_failure (k : ChunkKey) (err : string) (f : Fetcher) : Fetcher :=
  if len (insert_failures f) <? MAX_RECORDED_INSERT_FAILURES
  then set_failures (insert_failures f ++ [(k, err)]) f else f.

(** The part of [spawn_insert] that runs at once. *)
Definition spawn_insert (k : ChunkKey) (d : Bytes) (f : Fetcher) : Fetcher :=
  let f := set_writes (<[k := d]> (inflight_writes f)) f in
  let f := inc "inflight_writes" f in
  set_spawned (spawned f ++ [(k, d)]) f.

(** The spawned half: [outcome] is what the blocking insert meets - a panic with its message, or
    the fault, if any, of the file operations. *)
Definition finish_insert (tmp : string) (outcome : string + option Cache.InsertFault)
    (k : ChunkKey) (d : Bytes) (f : Fetcher) : Fetcher :=
  let f :=
    match outcome with
    | inr fault =>
        let '(c, r) := Cache.insert sha256 tmp fault k d (cache f) in
        let f := set_cache c f in
        match r with
        | Ok _ =>
            let '(p, v) := Index.note_local_insert (key_digest sha256 k) (peer_index f) in
            set_membership (set_bloom_version v (membership f)) (set_index p f)
        | Err e => inc "cache_insert_failures" (record_insert_failure k (display e) f)
        end
    | inl e => inc "cache_insert_failures" (record_insert_failure k ("panic: " +:+ e) f)
    end in
  dec "inflight_writes" (set_writes (delete k (inflight_writes f)) f).

Definition real_path (m : Conf.MountConfig) (blob_path : string) : string :=
  match Conf.prefix m with
  | EmptyString => blob_path
  | p => trim_end_matches slash p +:+ "/" +:+ blob_path
  end.

Definition wrong_length (got want : Z) (blob_path : string) (off : Z) : BcError :=
  Other ("blob returned wrong length: got " +:+ show got +:+ " want " +:+ show want +:+ " for "
           +:+ blob_path +:+ "@" +:+ show off).

(** The blob-only path of the stampede leader, and the tail of [do_fetch]. *)
Definition fetch_blob_direct (m : Conf.MountConfig) (blob_path : string) (k : ChunkKey)
    (expected_len : Z) (f : Fetcher) : Fetcher * res Bytes :=
  match get_blob_range E (Conf.name m) (Conf.account m) (Conf.container m)
          (real_path m blob_path) (offset k) (chunk_size (cfg f)) with
  | Err e => (f, Err e)
  | Ok d =>
      if negb (len d =? expected_len)
      then (f, Err (wrong_length (len d) expected_len blob_path (offset k)))
      else
        let f := add_stat "blob_fetch_bytes" (len d) (inc "blob_fetches" f) in
        let f := spawn_insert k d f in
        (note_fetch_origin (mount k) (blob k) true f, Ok d)
  end.

(** Every path of [try_peer_fetch] returns [Ok], so the result is the inner option. *)
Definition try_peer_fetch (peer : NodeInfo) (k : ChunkKey) (expected_len : Z) (was_yes : bool)
    (wait_ms : Z) (f : Fetcher) : Fetcher * option Bytes :=
  let addr :=
    match ucx_worker_addr_b64 peer with
    | Some encoded =>
        match b64_decode E encoded with Some a => Some (Some a) | None => None end
    | None => if rdma E then None else Some None
    end in
  match addr with
  | None => (f, None)
  | Some worker_addr =>
      match fetch_peer E (id peer) (transport_url peer) worker_addr k (wrap32 expected_len) wait_ms with
      | Ok d =>
          if negb (len d =? expected_len) then (inc "peer_fetches_err" f, None)
          else
            let f := add_stat "peer_fetch_bytes" (len d) (inc "peer_fetches_ok" f) in
            let f :=
              if cache_on_peer_fetch (cfg f) then spawn_insert k d f
              else match peer_lru f with
                   | Some l => set_lru (Some (Lru.put k d l)) f
                   | None => f
                   end in
            (note_fetch_origin (mount k) (blob k) false f, Some d)
      | Err (NotFound _) =>
          let f := inc "peer_fetches_miss" f in
          if was_yes then
            let f := inc "peer_bloom_false_positive" f in
            let f := set_index (Index.drop_remote (id peer) (peer_index f)) f in
            (inc "peer_bloom_stale_drops" f, None)
          else (f, None)
      | Err _ => (inc "peer_fetches_err" f, None)
      end
  end.

(** The loop over the ranked candidates. *)
Fixpoint try_peers (k : ChunkKey) (expected_len : Z) (ordered : list (bool * NodeInfo)) (f : Fetcher)
    : Fetcher * option Bytes :=
  match ordered with
  | [] => (f, None)
  | (was_yes, p) :: t =>
      match try_peer_fetch p k expected_len was_yes 0 f with
      | (f, Some d) => (f, Some d)
      | (f, None) => try_peers k expected_len t f
      end
  end.

(** The cold-start coordination with the rendezvous-hash leader. *)
Definition stampede (k : ChunkKey) (expected_len : Z) (alive : list NodeInfo) (f : Fetcher)
    : Fetcher * option Bytes :=
  let top := Index.hrw_top_id sha256 k alive (peer_index f) in
  if String.eqb top (Index.me_id (peer_index f)) then (inc "peer_stampede_leader" f, None)
  else match list_find (fun n => id n = top) alive with
  | Some (_, peer) =>
      let f := inc "peer_stampede_follower" f in
      match try_peer_fetch peer k expected_len false (stampede_wait_ms (cfg f)) f with
      | (f, Some d) => (inc "peer_stampede_follower_ok" f, Some d)
      | (f, None) => (inc "peer_stampede_follower_timeout" f, None)
      end
  | None => (f, None)
  end.

Definition nilb {A} (l : list A) : bool := match l with [] => true | _ => false end.

(** The peer half of [do_fetch]. *)
Definition fetch_from_peers (k : ChunkKey) (expected_len : Z) (f : Fetcher)
    : Fetcher * option Bytes :=
  let alive := members_alive (membership f) in
  let cs := Index.rank_candidates sha256 k alive (peer_max_yes_attempts (cfg f))
              (peer_max_maybe_attempts (cfg f)) (peer_index f) in
  let f :=
    if negb (nilb (Index.yes cs)) then inc "peer_bloom_yes" f
    else if negb (nilb alive) then inc "peer_bloom_no_holder" f
    else f in
  let ordered := ((fun p => (true, p)) <$> Index.yes cs) ++ ((fun p => (false, p)) <$> Index.maybe cs) in
  match try_peers k expected_len ordered f with
  | (f, Some d) => (f, Some d)
  | (f, None) =>
      if nilb (Index.yes cs) && (0 <? stampede_wait_ms (cfg f)) && negb (nilb alive)
      then stampede k expected_len alive f
      else (f, None)
  end.

Definition do_fetch (m : Conf.MountConfig) (blob_path : string) (k : ChunkKey) (expected_len : Z)
    (bypass_peers : bool) (f : Fetcher) : Fetcher * res Bytes :=
  let '(f, hit) := if bypass_peers then (f, None) else fetch_from_peers k expected_len f in
  match hit with
  | Some d => (f, Ok d)
  | None => fetch_blob_direct m blob_path k expected_len f
  end.

Definition chunk_key (m : Conf.MountConfig) (blob_path : string) (off : Z) : ChunkKey :=
  mkChunkKey (Conf.name m) blob_path off.

(** The peer-LRU lookup, with the test a hit has to pass. *)
Definition lru_hit (k : ChunkKey) (test : Bytes -> bool) (f : Fetcher) : Fetcher * option Bytes :=
  match peer_lru f with
  | None => (f, None)
  | Some l =>
      let '(l, r) := Lru.get k l in
      let f := set_lru (Some l) f in
      match r with
      | Some b => if test b then (inc "peer_lru_hits" f, Some b) else (f, None)
      | None => (f, None)
      end
  end.

(** The lookups in memory that open both fetch functions. *)
Definition memory_hit (k : ChunkKey) (test_writes test_lru : Bytes -> bool) (f : Fetcher)
    : Fetcher * option Bytes :=
  match inflight_writes f !! k with
  | Some b => if test_writes b then (f, Some b) else lru_hit k test_lru f
  | None => lru_hit k test_lru f
  end.

(** A follower's end of the broadcast channel. *)
Definition follow_leader (k : ChunkKey) (expected_len : Z) (f : Fetcher) : Fetcher * res Bytes :=
  let f := inc "singleflight_waits" f in
  match follow E k with
  | Got d =>
      if negb (len d =? expected_len)
      then (f, Err (Other ("singleflight result wrong len: got " +:+ show (len d) +:+ " want "
                             +:+ show expected_len)))
      else (f, Ok d)
  | Failed e => (f, Err (Other e))
  | Dropped =>
      let '(f, r) := if joined E then cache_get k f else (f, None) in
      match r with
      | Some b =>
          if len b =? expected_len then (f, Ok b)
          else (f, Err (Other "singleflight leader dropped without result"))
      | None => (f, Err (Other "singleflight leader dropped without result"))
      end
  end.

(** Taking the leader slot, fetching, and [LeaderGuard::disarm]. *)
Definition lead (m : Conf.MountConfig) (blob_path : string) (k : ChunkKey) (expected_len : Z)
    (bypass_peers : bool) (f : Fetcher) : Fetcher * res Bytes :=
  let f := inc "singleflight_inflight" (set_inflight ({[k]} ∪ inflight f) f) in
  let '(f, r) := do_fetch m blob_path k expected_len bypass_peers f in
  (dec "singleflight_inflight" (set_inflight (inflight f ∖ {[k]}) f), r).

Definition fetch_chunk_inner (m : Conf.MountConfig) (blob_path : string) (off expected_len : Z)
    (bypass_peers : bool) (f : Fetcher) : Fetcher * res Bytes :=
  let k := chunk_key m blob_path off in
  let full b := len b =? expected_len in
  match memory_hit k full full f with
  | (f, Some b) => (f, Ok b)
  | (f, None) =>
      if negb (joined E) then (f, Err (Other ("cache get join: " +:+ join_error E))) else
      let '(f, cached) := cache_get k f in
      match cached with
      | Some b =>
          if len b =? expected_len then (f, Ok b)
          else
            let f := set_cache (Cache.remove sha256 k (cache f)).1 f in
            if decide (k ∈ inflight f) then follow_leader k expected_len f
            else lead m blob_path k expected_len bypass_peers f
      | None =>
          if decide (k ∈ inflight f) then follow_leader k expected_len f
          else lead m blob_path k expected_len bypass_peers f
      end
  end.

Definition fetch_chunk (m : Conf.MountConfig) (blob_path : string) (off expected_len : Z)
    (f : Fetcher) : Fetcher * res Bytes :=
  fetch_chunk_inner m blob_path off expected_len false f.

Definition fetch_chunk_origin_only (m : Conf.MountConfig) (blob_path : string)
    (off expected_len : Z) (f : Fetcher) : Fetcher * res Bytes :=
  fetch_chunk_inner m blob_path off expected_len true f.

Definition fetch_chunk_range (m : Conf.MountConfig) (blob_path : string)
    (chunk_offset sub_offset sub_len expected_chunk_len : Z) (f : Fetcher) : Fetcher * res Bytes :=
  if sub_len =? 0 then (f, Ok []) else
  let k := chunk_key m blob_path chunk_offset in
  let e := wadd64 sub_offset sub_len in
  let covers b := e <=? len b in
  match memory_hit k covers (fun b => (len b =? expected_chunk_len) && covers b) f with
  | (f, Some b) => (f, Ok (slice b sub_offset e))
  | (f, None) =>
      if negb (joined E) then (f, Err (Other ("cache get join: " +:+ join_error E))) else
      let '(c, cached) := Cache.try_get_range sha256 (read_ok E) k sub_offset sub_len (cache f) in
      let f := set_cache c f in
      match cached with
      | Some b => (f, Ok b)
      | None =>
          match fetch_chunk_inner m blob_path chunk_offset expected_chunk_len false f with
          | (f, Err err) => (f, Err err)
          | (f, Ok full) =>
              if len full <? e
              then (f, Err (Other ("fetched chunk shorter than requested slice: have "
                                     +:+ show (len full) +:+ " need " +:+ show e)))
              else (f, Ok (slice full sub_offset e))
          end
      end
  end.

(** What the stampede-leader entry point does without a usable cached chunk: it waits for the
    leader of this node ([in_time] says whether the leader answered within the caller's wait), or
    leads itself. *)
Definition serve_miss (in_time : bool) (k : ChunkKey) (expected_len : Z) (f : Fetcher)
    : Fetcher * option Bytes :=
  if decide (k ∈ inflight f) then
    match follow E k with
    | Got d => if in_time && (len d =? expected_len) then (f, Some d) else (f, None)
    | _ => (f, None)
    end
  else
    let f := inc "singleflight_inflight" (set_inflight ({[k]} ∪ inflight f) f) in
    let '(f, r) :=
      match mounts (cfg f) !! mount k with
      | None => (f, None)
      | Some m => let '(f, r) := fetch_blob_direct m (blob k) k expected_len f in (f, ok r)
      end in
    (dec "singleflight_inflight" (set_inflight (inflight f ∖ {[k]}) f), r).

Definition serve_peer_chunk (in_time : bool) (k : ChunkKey) (expected_len : Z) (f : Fetcher)
    : Fetcher * option Bytes :=
  let '(f, r) := if joined E then cache_get k f else (f, None) in
  match r with
  | Some b => if len b =? expected_len then (f, Some b) else serve_miss in_time k expected_len f
  | None => serve_miss in_time k expected_len f
  end.

(** The transfer of the hydrate-broadcast pull, with its fallback to the origin. *)
Definition pull_remote (m : Conf.MountConfig) (blob_path : string) (off expected_len : Z)
    (peer_id transport_url : string) (addr : option Bytes) (wait_ms : Z) (f : Fetcher)
    : Fetcher * res Bytes :=
  let k := chunk_key m blob_path off in
  match fetch_peer E peer_id transport_url addr k (wrap32 expected_len) wait_ms with
  | Err (NotFound _) =>
      let f := inc "broadcast_peer_not_found" f in
      match fetch_chunk_origin_only m blob_path off expected_len f with
      | (f, Ok d) => (inc "broadcast_blob_fallback_ok" f, Ok d)
      | (f, Err e) =>
          (inc "broadcast_blob_fallback_err" f,
           Err (Other ("broadcast peer " +:+ peer_id +:+ " NotFound and blob fallback failed for "
                         +:+ blob_path +:+ "@" +:+ show off +:+ ": " +:+ display e)))
      end
  | Err e => (f, Err e)
  | Ok d =>
      if negb (len d =? expected_len) then
        (inc "peer_fetches_err" f,
         Err (Other ("broadcast peer " +:+ peer_id +:+ " returned wrong length: got "
                       +:+ show (len d) +:+ " want " +:+ show expected_len +:+ " for "
                       +:+ blob_path +:+ "@" +:+ show off)))
      else
        let f := add_stat "peer_fetch_bytes" (len d) (inc "peer_fetches_ok" f) in
        (spawn_insert k d f, Ok d)
  end.

Definition pull_chunk_from_peer_wait (m : Conf.MountConfig) (blob_path : string)
    (off expected_len : Z) (peer_id transport_url : string) (addr : option Bytes) (wait_ms : Z)
    (f : Fetcher) : Fetcher * res Bytes :=
  let '(f, cached) := cache_get (chunk_key m blob_path off) f in
  match cached with
  | Some b =>
      if len b =? expected_len then (f, Ok b)
      else pull_remote m blob_path off expected_len peer_id transport_url addr wait_ms f
  | None => pull_remote m blob_path off expected_len peer_id transport_url addr wait_ms f
  end.

Definition pull_chunk_from_peer (m : Conf.MountConfig) (blob_path : string) (off expected_len : Z)
    (peer_id transport_url : string) (addr : option Bytes) (f : Fetcher) : Fetcher * res Bytes :=
  pull_chunk_from_peer_wait m blob_path off expected_len peer_id transport_url addr 0 f.

Definition take_insert_failures (f : Fetcher) : Fetcher * list (ChunkKey * string) :=
  (set_failures [] f, insert_failures f).

(** [await_inserts_drained] returns once this holds. *)
Definition inserts_drained (f : Fetcher) : bool := bool_decide (inflight_writes f = ∅).

(** What [clear_local_state] does once the inserts have drained. *)
Definition clear_local_state (readdir_ok : bool) (stat_ok : string -> bool) (f : Fetcher)
    : Fetcher * res (Z * Z) :=
  let '(c, r) := Cache.clear_all sha256 readdir_ok stat_ok (cache f) in
  let f := set_cache c f in
  match r with
  | Err e => (f, Err e)
  | Ok n =>
      let f := set_inflight ∅ f in
      let f := set_stats (<["singleflight_inflight" := 0]> (stats f)) f in
      let f := set_writes ∅ f in
      let f := set_stats (<["inflight_writes" := 0]> (stats f)) f in
      let f := set_seq ∅ f in
      let f := set_lru (Lru.clear <$> peer_lru f) f in
      let '(p, v) := Index.rebuild_local_from_cache sha256 (Cache.live_keys (cache f)) (peer_index f) in
      (set_membership (set_bloom_version v (membership f)) (set_index p f), Ok n)
  end.

(** ** Reading a range of a file *)
Definition MAX_READ_BYTES : Z := 64 * 1024 * 1024.

(** Which part of the chunk at [o] a read of [[offset, e)] needs: start, length, chunk length. *)
Definition chunk_part (cs offset e file_size o : Z) : Z * Z * Z :=
  let chunk_len := Z.min cs (file_size - o) in
  let take_start := Z.max offset o - o in
  let take_end := Z.min e (o + chunk_len) - o in
  (take_start, take_end - take_start, chunk_len).

(** The offsets of the loop, from [o] while [o <= last]; [checked_add] ends it on overflow.  The
    fuel is the number of chunks between the two ends. *)
Fixpoint chunk_offsets (fuel : nat) (cs o last : Z) : list Z :=
  match fuel with
  | O => []
  | S n =>
      if o <=? last then
        o :: (if o + cs <=? u64_max then chunk_offsets n cs (o + cs) last else [])
      else []
  end.

Definition range_offsets (cs offset e : Z) : list Z :=
  let first_chunk := offset / cs * cs in
  let last_chunk := (e - 1) / cs * cs in
  chunk_offsets (Z.to_nat ((last_chunk - first_chunk) / cs + 1)) cs first_chunk last_chunk.

(** The spawned tasks, each to its end. *)
Fixpoint run_parts (m : Conf.MountConfig) (blob_path : string) (offset e file_size : Z)
    (os : list Z) (f : Fetcher) : Fetcher * list (Z * res Bytes) :=
  match os with
  | [] => (f, [])
  | o :: t =>
      let '(start, sub_len, chunk_len) := chunk_part (chunk_size (cfg f)) offset e file_size o in
      let '(f, r) :=
        match task_error E o with
        | Some msg => (f, Err (Other ("join: " +:+ msg)))
        | None => fetch_chunk_range m blob_path o start sub_len chunk_len f
        end in
      let '(f, rs) := run_parts m blob_path offset e file_size t f in
      (f, (o, r) :: rs)
  end.

(** Joining the tasks in order: the first error is returned. *)
Fixpoint join_parts (rs : list (Z * res Bytes)) : res (list (Z * Bytes)) :=
  match rs with
  | [] => Ok []
  | (o, r) :: t => let? d := r in let? ds := join_parts t in Ok ((o, d) :: ds)
  end.

(** The per-stream tracker of sequential reads. *)
Definition track_stream (m : Conf.MountConfig) (blob_path : string) (req_offset req_end : Z)
    (f : Fetcher) : Fetcher * SeqState :=
  let k := seq_key (Conf.name m) blob_path in
  let s := default (mkSeqState 0 0 0) (seq_state f !! k) in
  let forward := (last_end s <=? req_offset) && (req_offset - last_end s <=? chunk_size (cfg f)) in
  let s := mkSeqState req_end (if forward then sat_inc32 (consecutive s) else 1) (blob_streak s) in
  (set_seq (<[k := s]> (seq_state f)) f, s).

(** The loop over the next [prefetch_depth] chunks: the fetches it spawns, as (offset, length). *)
Fixpoint prefetch_loop (depth : nat) (i : Z) (m : Conf.MountConfig) (blob_path : string)
    (cur_chunk file_size : Z) (f : Fetcher) : Fetcher * list (Z * Z) :=
  match depth with
  | O => (f, [])
  | S n =>
      let cs := chunk_size (cfg f) in
      let off := wadd64 cur_chunk (wmul64 i cs) in
      if file_size <=? off then (f, []) else
      let chunk_len := Z.min cs (file_size - off) in
      let ck := chunk_key m blob_path off in
      match Cache.entry_size ck (cache f) with
      | Some _ => prefetch_loop n (i + 1) m blob_path cur_chunk file_size (inc "prefetch_skipped_cached" f)
      | None =>
          if decide (is_Some (inflight_writes f !! ck)) then
            prefetch_loop n (i + 1) m blob_path cur_chunk file_size (inc "prefetch_skipped_inflight" f)
          else if decide (ck ∈ inflight f) then
            prefetch_loop n (i + 1) m blob_path cur_chunk file_size (inc "prefetch_skipped_inflight" f)
          else
            let '(f, l) := prefetch_loop n (i + 1) m blob_path cur_chunk file_size
                             (inc "prefetch_spawned" f) in
            (f, (off, chunk_len) :: l)
      end
  end.

Definition maybe_trigger_prefetch (m : Conf.MountConfig) (blob_path : string)
    (req_offset req_end file_size : Z) (f : Fetcher) : Fetcher * list (Z * Z) :=
  if prefetch_depth (cfg f) =? 0 then (f, []) else
  let '(f, s) := track_stream m blob_path req_offset req_end f in
  if consecutive s <? prefetch_threshold (cfg f) then (f, [])
  else if prefetch_origin_only (cfg f) && (blob_streak s =? 0)
  then (inc "prefetch_skipped_not_origin" f, [])
  else
    let cs := chunk_size (cfg f) in
    let cur_chunk := if req_end =? 0 then 0 else (req_end - 1) / cs * cs in
    prefetch_loop (Z.to_nat (prefetch_depth (cfg f))) 1 m blob_path cur_chunk file_size f.

(** The bytes of the range and the prefetches spawned on the way. *)
Definition fetch_range (m : Conf.MountConfig) (blob_path : string) (offset length file_size : Z)
    (f : Fetcher) : Fetcher * res Bytes * list (Z * Z) :=
  if length =? 0 then (f, Ok [], [])
  else if MAX_READ_BYTES <? length then
    (f, Err (Other ("read length " +:+ show length +:+ " exceeds MAX_READ_BYTES "
                      +:+ show MAX_READ_BYTES)), [])
  else
    let e := Z.min (sat_add64 offset length) file_size in
    if e <=? offset then (f, Ok [], [])
    else
      let '(f, pf) := maybe_trigger_prefetch m blob_path offset e file_size f in
      let '(f, rs) := run_parts m blob_path offset e file_size
                        (range_offsets (chunk_size (cfg f)) offset e) f in
      (f,
       (let? chunks := join_parts rs in
        Ok (concat (snd <$> stable_sort (fun a b => a.1 <=? b.1) chunks))),
       pf).

(** What a prefetch task does once it has its permit. *)
Definition run_prefetch (m : Conf.MountConfig) (blob_path : string) (off chunk_len : Z)
    (f : Fetcher) : Fetcher :=
  let '(f, r) := fetch_chunk_inner m blob_path off chunk_len (prefetch_origin_only (cfg f)) f in
  match r with
  | Ok _ => inc "prefetch_completed_ok" f
  | Err _ => inc "prefetch_completed_err" f
  end.
End operations.

(** ** Coherence

    [origin a c p] is the blob [p] of container [c] of account [a], [M] the configured mounts and
    [content m b] the file [b] of mount [m]; a node is coherent when everything it could serve is
    (a prefix of) the chunk it is filed under. *)
Section coherence.
Context (sha256 : Bytes -> Bytes) (origin : string -> string -> string -> Bytes).
Context (M : gmap string Conf.MountConfig).
Context (Hsha : collision_free sha256).

Definition content (mount_name b : string) : Bytes :=
  match M !! mount_name with
  | Some m => origin (Conf.account m) (Conf.container m) (real_path m b)
  | None => []
  end.

(** A chunk of a configured mount, with a well-formed key. *)
Definition known (m : Conf.MountConfig) (b : string) (off : Z) : Prop :=
  M !! Conf.name m = Some m /\ valid_key (chunk_key m b off).

Definition chunk_of (cs : Z) (k : ChunkKey) : Bytes :=
  let file := content (mount k) (blob k) in
  slice file (offset k) (Z.min (offset k + cs) (len file)).

(** Tracked keys have honest files. *)
Record cache_ok (cs : Z) (c : Cache.DiskCache) : Prop := {
  ck_good k : is_Some (Cache.entries (Cache.inner c) !! k) -> valid_key k;
  ck_file k d : is_Some (Cache.entries (Cache.inner c) !! k) ->
    Cache.disk c !! Cache.path_for sha256 k = Some (Cache.File d) -> d `prefix_of` chunk_of cs k
}.

Record coherent (f : Fetcher) : Prop := {
  co_cache : cache_ok (chunk_size (cfg f)) (cache f);
  co_writes k d : inflight_writes f !! k = Some d -> d `prefix_of` chunk_of (chunk_size (cfg f)) k;
  co_spawned k d : (k, d) ∈ spawned f -> valid_key k /\ d `prefix_of` chunk_of (chunk_size (cfg f)) k;
  co_lru l k d : peer_lru f = Some l -> (k, d) ∈ Lru.lru_view (Lru.inner l) ->
    d `prefix_of` chunk_of (chunk_size (cfg f)) k
}.

(** The world is honest: peers and other tasks hand out pieces of the right chunk, and the origin
    answers the request for a chunk's range with that range of the blob. *)
Record honest (cs : Z) (E : Env) : Prop := {
  ho_peer p u a k n w d : fetch_peer E p u a k n w = Ok d -> d `prefix_of` chunk_of cs k;
  ho_follow k d : follow E k = Got d -> d `prefix_of` chunk_of cs k;
  ho_origin nm a c p off d :
    is_u64 off -> get_blob_range E nm a c p off cs = Ok d ->
    d = slice (origin a c p) off (Z.min (off + cs) (len (origin a c p)))
}.

Lemma honest_chunk cs E m b off d :
  honest cs E -> known m b off ->
  get_blob_range E (Conf.name m) (Conf.account m) (Conf.container m) (real_path m b) off cs = Ok d ->
  d = chunk_of cs (chunk_key m b off).
Proof using Type.
  intros Hho [Hm [_ Ho]] H. apply (ho_origin _ _ Hho) in H; [|exact Ho]. unfold chunk_of, chunk_key, content. simpl.
  by rewrite Hm.
Qed.

(** ** Frame lemmas *)

(** [f'] differs from [f] only in statistics, membership, index, streams and failures. *)
Definition same_data (f f' : Fetcher) : Prop :=
  cfg f' = cfg f /\ cache f' = cache f /\ inflight_writes f' = inflight_writes f /\
  spawned f' = spawned f /\ peer_lru f' = peer_lru f /\ inflight f' = inflight f.

Lemma same_data_coherent f f' : same_data f f' -> coherent f -> coherent f'.
Proof.
  intros (H1 & H2 & H3 & H4 & H5 & _) [Ha Hb Hc Hd]. split; rewrite ?H1, ?H2, ?H3, ?H4, ?H5; done.
Qed.

Lemma same_data_stat n z f : same_data f (add_stat n z f).
Proof. done. Qed.

Lemma same_data_note m b o f : same_data f (note_fetch_origin m b o f).
Proof. done. Qed.

Lemma same_data_trans f g h : same_data f g -> same_data g h -> same_data f h.
Proof. unfold same_data. intuition congruence. Qed.

(** The cache after an operation that only looks, touches, evicts or deletes. *)
Definition shrinks (c c' : Cache.DiskCache) : Prop :=
  (forall k, is_Some (Cache.entries (Cache.inner c') !! k) ->
     is_Some (Cache.entries (Cache.inner c) !! k)) /\
  (forall n d, Cache.disk c' !! n = Some (Cache.File d) -> Cache.disk c !! n = Some (Cache.File d)).

Lemma shrinks_ok cs c c' : shrinks c c' -> cache_ok cs c -> cache_ok cs c'.
Proof using Type.
  intros [Hk Hd] [Hg Hf]. split.
  - intros k H. by apply Hg, Hk.
  - intros k d H Hdk. apply Hf; [by apply Hk|by apply Hd].
Qed.

Lemma shrinks_refl c : shrinks c c.
Proof. done. Qed.

Lemma shrinks_trans a b c : shrinks a b -> shrinks b c -> shrinks a c.
Proof. intros [H1 H2] [H3 H4]. split; intros; auto. Qed.

Lemma shrinks_touch k c : shrinks c (Cache.touch_lru k c).1.
Proof.
  unfold Cache.touch_lru. destruct (Cache.entries (Cache.inner c) !! k) as [e|] eqn:E; [|done].
  split; [|done]. simpl. intros k'. rewrite lookup_insert. case_decide; [|done]. subst. eauto.
Qed.

Lemma shrinks_hit c c' : shrinks c c' -> shrinks c (Cache.hit c').
Proof. done. Qed.

Lemma shrinks_try_get ro k c : shrinks c (Cache.try_get sha256 ro k c).1.
Proof.
  unfold Cache.try_get. pose proof (shrinks_touch k c). destruct (Cache.touch_lru k c) as [c' []].
  all: repeat case_match; simplify_eq; try done; try by apply shrinks_hit.
Qed.

Lemma shrinks_try_get_range ro k a n c : shrinks c (Cache.try_get_range sha256 ro k a n c).1.
Proof.
  unfold Cache.try_get_range. pose proof (shrinks_touch k c). destruct (Cache.touch_lru k c) as [c' []].
  all: repeat case_match; simplify_eq; try done; try by apply shrinks_hit.
Qed.

Lemma shrinks_remove_file n c : shrinks c (Cache.set_disk (Cache.remove_file_ignored (Cache.disk c) n) c).
Proof.
  split; [done|]. intros n' d. unfold Cache.remove_file_ignored, Cache.remove_file. simpl.
  repeat case_match; simpl; try done. by intros [_ ?]%lookup_delete_Some.
Qed.

Lemma shrinks_remove k c : shrinks c (Cache.remove sha256 k c).1.
Proof.
  unfold Cache.remove. simpl.
  eapply shrinks_trans; [apply (shrinks_remove_file (Cache.path_for sha256 k))|].
  unfold Cache.remove_entry. case_match; [|done]. split; [|done]. simpl.
  intros k' [e' [_ ?]%lookup_delete_Some]. eauto.
Qed.

(** What a cache lookup returns is honest. *)
Lemma try_get_prefix cs ro k c b :
  cache_ok cs c -> (Cache.try_get sha256 ro k c).2 = Some b -> b `prefix_of` chunk_of cs k.
Proof using Type.
  intros Hc. unfold Cache.try_get. destruct (Cache.entries (Cache.inner c) !! k) eqn:He; [|done].
  destruct ro; [|done]. unfold Cache.read_file.
  destruct (Cache.disk c !! Cache.path_for sha256 k) as [[d|]|] eqn:Hd; [|done..].
  destruct (Cache.touch_lru k c) as [c' []]; simpl; [|done]. intros [= <-].
  apply (ck_file _ _ Hc); [eauto|done].
Qed.

Lemma prefix_slice (d t : Bytes) a z :
  d `prefix_of` t -> 0 <= a <= z -> z <= len d -> slice d a z = slice t a z.
Proof.
  intros [r ->] Ha Hz. unfold slice, len in *. rewrite drop_app_le by lia.
  rewrite take_app_le; [done|]. rewrite length_drop. lia.
Qed.

Lemma prefix_full (d t : Bytes) : d `prefix_of` t -> len d = len t -> d = t.
Proof.
  intros [r ->] H. rewrite len_app in H. destruct r; [by rewrite app_nil_r|].
  rewrite len_cons in H. pose proof (len_nonneg r). lia.
Qed.

Lemma try_get_range_prefix cs ro k a n c b :
  cache_ok cs c -> 0 <= a -> 0 < n -> (Cache.try_get_range sha256 ro k a n c).2 = Some b ->
  b = slice (chunk_of cs k) a (a + n) /\ a + n <= len (chunk_of cs k).
Proof using Type.
  intros Hc Ha Hn. unfold Cache.try_get_range. rewrite (proj2 (Z.eqb_neq n 0)) by lia.
  destruct (Cache.entries (Cache.inner c) !! k) eqn:He; [|done].
  destruct (_ <? _); [done|]. destruct ro; [|done]. unfold Cache.read_file.
  destruct (Cache.disk c !! Cache.path_for sha256 k) as [[d|]|] eqn:Hd; [|done..].
  unfold Cache.read_exact_at. destruct (Z.leb_spec (a + n) (len d)); [|done].
  destruct (Cache.touch_lru k c) as [c' []]; simpl; [|done]. intros [= <-].
  assert (Hp : d `prefix_of` chunk_of cs k) by (apply (ck_file _ _ Hc); [eauto|done]).
  split; [apply prefix_slice; [done|lia|lia]|]. destruct Hp as [r ->]. rewrite len_app.
  pose proof (len_nonneg r). lia.
Qed.

(** ** What each operation leaves behind

    [leaves f p Q]: from [f], the operation with outcome [p] ends in a coherent state with the same
    settings and the same singleflight slots, and its result satisfies [Q]. *)
Definition leaves {A} (f : Fetcher) (p : Fetcher * A) (Q : A -> Prop) : Prop :=
  coherent p.1 /\ cfg p.1 = cfg f /\ inflight p.1 = inflight f /\ Q p.2.

Definition piece (cs : Z) (k : ChunkKey) (r : option Bytes) : Prop :=
  forall d, r = Some d -> d `prefix_of` chunk_of cs k.

(** A result of a fetch that was asked for [n] bytes. *)
Definition answer (cs : Z) (k : ChunkKey) (n : Z) (r : option Bytes) : Prop :=
  forall d, r = Some d -> d `prefix_of` chunk_of cs k /\ len d = n.

Lemma leaves_same {A} f g (x : A) (Q : A -> Prop) :
  coherent f -> same_data f g -> Q x -> leaves f (g, x) Q.
Proof using Type.
  intros Hc Hs HQ. split; [by eapply same_data_coherent|]. destruct Hs as (? & ? & ? & ? & ? & ?). done.
Qed.

(** Statistics after the fact change nothing. *)
Lemma leaves_after {A B} f (p : Fetcher * A) g (y : B) (Q : A -> Prop) (R : B -> Prop) :
  leaves f p Q -> same_data p.1 g -> (Q p.2 -> R y) -> leaves f (g, y) R.
Proof using Type.
  intros (Hc & Hf & Hi & HQ) Hs HR. destruct (Hs) as (H1 & _ & _ & _ & _ & H6).
  split; [by eapply same_data_coherent|]. simpl. rewrite H1, H6. auto.
Qed.

Lemma leaves_seq {A B} f (p : Fetcher * A) (q : Fetcher * B) (Q : A -> Prop) (R : B -> Prop) :
  leaves f p Q -> leaves p.1 q R -> leaves f q R.
Proof using Type.
  intros (_ & H1 & H2 & _) (Hc & H3 & H4 & HR). split; [done|]. rewrite H3, H4. done.
Qed.

(** Statistics before the fact change nothing either. *)
Lemma leaves_from {A} f g (p : Fetcher * A) (Q : A -> Prop) :
  same_data f g -> leaves g p Q -> leaves f p Q.
Proof using Type.
  intros (H4 & _ & _ & _ & _ & H5) (Hc & H2 & H3 & HQ). split; [done|]. rewrite H2, H3, H4, H5. done.
Qed.

Lemma coherent_cache c f : shrinks (cache f) c -> coherent f -> coherent (set_cache c f).
Proof using Type.
  intros Hs [Ha Hb Hc Hd]. split; simpl; try done. by eapply shrinks_ok.
Qed.

Lemma spawn_leaves {A} k d f (x : A) (Q : A -> Prop) :
  coherent f -> valid_key k -> d `prefix_of` chunk_of (chunk_size (cfg f)) k -> Q x ->
  leaves f (spawn_insert k d f, x) Q.
Proof using Type.
  intros [Ha Hb Hc Hd] Hg Hp HQ. split; [|done]. split; simpl; try done.
  - intros k' d' [[<- <-]|[_ ?]]%lookup_insert_Some; auto.
  - intros k' d' [?|[= -> ->]%list_elem_of_singleton]%elem_of_app; auto.
Qed.

Section with_env.
Context (E : Env).

Lemma cache_get_leaves k f :
  coherent f -> leaves f (cache_get sha256 E k f) (piece (chunk_size (cfg f)) k).
Proof using Type.
  intros Hc. unfold cache_get.
  pose proof (shrinks_try_get (read_ok E) k (cache f)) as Hs.
  pose proof (try_get_prefix (chunk_size (cfg f)) (read_ok E) k (cache f)) as Hp.
  destruct (Cache.try_get sha256 (read_ok E) k (cache f)) as [c r]. simpl in *.
  split; [by apply coherent_cache|]. split_and!; [done|done|].
  intros d Hd. simpl in Hd. subst r. by apply Hp; [apply co_cache|].
Qed.

Lemma lru_hit_leaves k test f :
  coherent f -> leaves f (lru_hit k test f)
    (fun r => forall d, r = Some d -> d `prefix_of` chunk_of (chunk_size (cfg f)) k /\ test d = true).
Proof using Type.
  intros Hc. unfold lru_hit. destruct (peer_lru f) as [l|] eqn:El; [|by split].
  destruct (Lru.get_elem k l) as [Hsub Hget]. destruct (Lru.get k l) as [l' r]. simpl in *.
  assert (Hc' : coherent (set_lru (Some l') f)).
  { destruct Hc as [Ha Hb Hd He]. split; simpl; try done. intros l0 k0 d0 [= <-] Hin.
    eapply He; [done|]. by apply Hsub. }
  destruct r as [b|]; [|by split]. destruct (test b) eqn:Et; [|by split].
  split; [by eapply same_data_coherent; [apply same_data_stat|]|]. split_and!; [done|done|].
  intros d [= <-]. split; [|done]. eapply (co_lru _ Hc); [done|]. by apply Hget.
Qed.

Lemma memory_hit_leaves k tw tl f :
  coherent f -> leaves f (memory_hit k tw tl f)
    (fun r => forall d, r = Some d -> d `prefix_of` chunk_of (chunk_size (cfg f)) k /\
                (tw d = true \/ tl d = true)).
Proof using Type.
  intros Hc. unfold memory_hit.
  assert (Hl : leaves f (lru_hit k tl f) (fun r => forall d, r = Some d ->
    d `prefix_of` chunk_of (chunk_size (cfg f)) k /\ (tw d = true \/ tl d = true))).
  { destruct (lru_hit_leaves k tl f Hc) as (? & ? & ? & HQ). split; [done|]. split_and!; [done|done|].
    intros d Hd. destruct (HQ d Hd). auto. }
  destruct (inflight_writes f !! k) as [b|] eqn:Ew; [|done]. destruct (tw b) eqn:Et; [|done].
  split; [done|]. split_and!; [done|done|]. intros d [= <-]. split; [|auto].
  by apply (co_writes _ Hc).
Qed.

Context (cs : Z) (Hho : honest cs E).

Lemma fetch_blob_direct_leaves m b off n f :
  coherent f -> chunk_size (cfg f) = cs -> known m b off ->
  leaves f (fetch_blob_direct E m b (chunk_key m b off) n f)
    (fun r => answer cs (chunk_key m b off) n (ok r)).
Proof using Hho.
  intros Hc Hcs Hg. unfold fetch_blob_direct. rewrite Hcs.
  destruct (get_blob_range _ _ _ _ _ _ _) as [d|e] eqn:Eb; [|by split].
  destruct (Z.eqb_spec (len d) n) as [Hn|]; cbn [negb]; [|by split].
  apply (honest_chunk _ _ _ _ _ _ Hho Hg) in Eb.
  eapply leaves_after with (p := (spawn_insert (chunk_key m b off) d
    (add_stat "blob_fetch_bytes" (len d) (inc "blob_fetches" f)), tt)) (Q := fun _ => True).
  - eapply leaves_from; [|apply spawn_leaves;
      [by apply (same_data_coherent f)|by apply Hg|simpl; rewrite Hcs, Eb; done|done]]. done.
  - apply same_data_note.
  - intros _ d' [= <-]. rewrite Eb at 1. done.
Qed.

Lemma try_peer_fetch_leaves peer k n yes w f :
  coherent f -> chunk_size (cfg f) = cs -> valid_key k ->
  leaves f (try_peer_fetch E peer k n yes w f) (answer cs k n).
Proof using Hho.
  intros Hc Hcs Hg. unfold try_peer_fetch.
  assert (Hnone : forall g, same_data f g -> leaves f (g, None) (answer cs k n))
    by (intros g Hs; by apply leaves_same).
  destruct (match ucx_worker_addr_b64 peer with Some _ => _ | None => _ end) as [addr|];
    [|by apply Hnone].
  destruct (fetch_peer E _ _ _ _ _ _) as [d|err] eqn:Ep.
  - destruct (Z.eqb_spec (len d) n) as [Hn|]; cbn [negb]; [|by apply Hnone].
    apply (ho_peer _ _ Hho) in Ep.
    set (g := add_stat "peer_fetch_bytes" (len d) (inc "peer_fetches_ok" f)).
    assert (Hgc : coherent g) by (by apply (same_data_coherent f)).
    eapply leaves_after with (p := (if cache_on_peer_fetch (cfg g) then spawn_insert k d g
        else match peer_lru g with Some l => set_lru (Some (Lru.put k d l)) g | None => g end, tt))
        (Q := fun _ => True).
    + destruct (cache_on_peer_fetch (cfg g)).
      * apply (leaves_from f g); [done|]. apply spawn_leaves; [done|done|by subst g; simpl; rewrite Hcs|done].
      * destruct (peer_lru g) as [l|] eqn:El; [|done]. split; [|done].
        destruct Hgc as [Ha Hb Hd He]. split; simpl; try done. intros l0 k0 d0 [= <-] Hin.
        apply Lru.put_elem in Hin as [[= -> ->]|Hin]; [by rewrite Hcs|by eapply (He l)].
    + apply same_data_note.
    + intros _ d' [= <-]. done.
  - destruct err; try (by apply Hnone). destruct yes; by apply Hnone.
Qed.

Lemma try_peers_leaves k n ordered f :
  coherent f -> chunk_size (cfg f) = cs -> valid_key k ->
  leaves f (try_peers E k n ordered f) (answer cs k n).
Proof using Hho.
  revert f. induction ordered as [|[yes p] t IH]; intros f Hc Hcs Hg; simpl; [by split|].
  pose proof (try_peer_fetch_leaves p k n yes 0 f Hc Hcs Hg) as Hp.
  destruct (try_peer_fetch E p k n yes 0 f) as [g [d|]]; [done|].
  eapply leaves_seq; [exact Hp|]. destruct Hp as (? & Hcfg & _). apply IH; [done| |done].
  simpl in *. by rewrite Hcfg.
Qed.

Lemma stampede_leaves k n alive f :
  coherent f -> chunk_size (cfg f) = cs -> valid_key k ->
  leaves f (stampede sha256 E k n alive f) (answer cs k n).
Proof using Hho.
  intros Hc Hcs Hg. unfold stampede. case_match; [by apply leaves_same|].
  destruct (list_find _ alive) as [[i peer]|]; [|by split].
  set (g := inc "peer_stampede_follower" f).
  pose proof (try_peer_fetch_leaves peer k n false (stampede_wait_ms (cfg g)) g) as Hp.
  destruct (try_peer_fetch E peer k n false (stampede_wait_ms (cfg g)) g) as [h [d|]].
  all: eapply leaves_after with (Q := answer cs k n);
    [apply (leaves_from f g); [done|]; apply Hp; [by apply (same_data_coherent f)|done|done]|done|auto].
Qed.

Lemma fetch_from_peers_leaves k n f :
  coherent f -> chunk_size (cfg f) = cs -> valid_key k ->
  leaves f (fetch_from_peers sha256 E k n f) (answer cs k n).
Proof using Hho.
  intros Hc Hcs Hg. unfold fetch_from_peers.
  set (alive := members_alive (membership f)). set (ranked := Index.rank_candidates _ _ _ _ _ _).
  set (g := if negb _ then _ else _).
  assert (Hs : same_data f g) by (subst g; repeat case_match; done).
  assert (Hgc : coherent g) by (by apply (same_data_coherent f)).
  assert (Hgs : chunk_size (cfg g) = cs) by (destruct Hs as [-> _]; done).
  apply (leaves_from f g); [done|]. set (ordered := _ ++ _).
  pose proof (try_peers_leaves k n ordered g Hgc Hgs Hg) as Hp.
  destruct (try_peers E k n ordered g) as [h [d|]]; [done|].
  destruct (_ && _); [|done]. eapply leaves_seq; [exact Hp|].
  destruct Hp as (? & Hcfg & _). apply stampede_leaves; [done| |done]. simpl in *. by rewrite Hcfg.
Qed.

Lemma do_fetch_leaves m b off n bypass f :
  coherent f -> chunk_size (cfg f) = cs -> known m b off ->
  leaves f (do_fetch sha256 E m b (chunk_key m b off) n bypass f)
    (fun r => answer cs (chunk_key m b off) n (ok r)).
Proof using Hho.
  intros Hc Hcs Hg. unfold do_fetch. destruct bypass; [by apply fetch_blob_direct_leaves|].
  pose proof (fetch_from_peers_leaves (chunk_key m b off) n f Hc Hcs (proj2 Hg)) as Hp.
  destruct (fetch_from_peers sha256 E (chunk_key m b off) n f) as [g [d|]]; [exact Hp|].
  eapply leaves_seq; [exact Hp|]. destruct Hp as (? & Hcfg & _).
  apply fetch_blob_direct_leaves; [done| |done]. simpl in *. by rewrite Hcfg.
Qed.

(** Holding the leader slot of [k] around an operation. *)
Lemma slot_leaves {A} k f (p : Fetcher * A) (Q : A -> Prop) :
  k ∉ inflight f ->
  leaves (inc "singleflight_inflight" (set_inflight ({[k]} ∪ inflight f) f)) p Q ->
  leaves f (dec "singleflight_inflight" (set_inflight (inflight p.1 ∖ {[k]}) p.1), p.2) Q.
Proof using Type.
  intros Hk (Hc & Hcfg & Hi & HQ). split.
  - destruct Hc as [Ha Hb Hd He]. by split.
  - split_and!; [done| |done]. simpl in *. rewrite Hi. clear -Hk. set_solver.
Qed.

Lemma coherent_slot n s f : coherent f -> coherent (inc n (set_inflight s f)).
Proof using Type. intros [Ha Hb Hd He]. by split. Qed.

Lemma lead_leaves m b off n bypass f :
  coherent f -> chunk_size (cfg f) = cs -> known m b off ->
  chunk_key m b off ∉ inflight f ->
  leaves f (lead sha256 E m b (chunk_key m b off) n bypass f)
    (fun r => answer cs (chunk_key m b off) n (ok r)).
Proof using Hho.
  intros Hc Hcs Hg Hk. unfold lead.
  set (k := chunk_key m b off) in *.
  set (g := inc "singleflight_inflight" (set_inflight ({[k]} ∪ inflight f) f)).
  pose proof (slot_leaves k f (do_fetch sha256 E m b k n bypass g) _ Hk
    (do_fetch_leaves m b off n bypass g (coherent_slot _ _ f Hc) Hcs Hg)) as Hl.
  by destruct (do_fetch sha256 E m b k n bypass g).
Qed.

Lemma follow_leader_leaves k n f :
  coherent f -> chunk_size (cfg f) = cs ->
  leaves f (follow_leader sha256 E k n f) (fun r => answer cs k n (ok r)).
Proof using Hho.
  intros Hc Hcs. unfold follow_leader. set (g := inc "singleflight_waits" f).
  apply (leaves_from f g); [done|].
  assert (Hgc : coherent g) by (by apply (same_data_coherent f)).
  destruct (follow E k) as [d|e|] eqn:Ef; [|by split|].
  - destruct (Z.eqb_spec (len d) n); cbn [negb]; [|by split]. split; [done|].
    split_and!; [done|done|]. intros d' [= <-]. split; [|done]. by apply (ho_follow _ _ Hho).
  - destruct (joined E); [|by split].
    pose proof (cache_get_leaves k g Hgc) as Hl. change (cfg g) with (cfg f) in Hl.
    rewrite Hcs in Hl. destruct (cache_get sha256 E k g) as [h [d|]].
    + destruct Hl as (H1 & H2 & H3 & HQ). specialize (HQ d eq_refl).
      destruct (Z.eqb_spec (len d) n); split; try done.
      split_and!; [done|done|]. by intros d' [= <-].
    + by destruct Hl as (? & ? & ? & _).
Qed.

Lemma fetch_chunk_inner_leaves m b off n bypass f :
  coherent f -> chunk_size (cfg f) = cs -> known m b off ->
  leaves f (fetch_chunk_inner sha256 E m b off n bypass f)
    (fun r => answer cs (chunk_key m b off) n (ok r)).
Proof using Hho.
  intros Hc Hcs Hg. unfold fetch_chunk_inner. set (k := chunk_key m b off) in *.
  pose proof (memory_hit_leaves k (fun b => len b =? n) (fun b => len b =? n) f Hc) as Hm.
  destruct (memory_hit k _ _ f) as [g [d|]].
  { destruct Hm as (? & ? & ? & HQ). split; [done|]. split_and!; [done|done|].
    intros d' [= <-]. destruct (HQ d eq_refl) as [? Hl]. rewrite <-Hcs. split; [done|].
    destruct Hl as [Hl|Hl]; by apply Z.eqb_eq in Hl. }
  eapply leaves_seq; [exact Hm|]. destruct Hm as (Hgc & Hgcfg & _ & _). simpl in *.
  assert (Hgs : chunk_size (cfg g) = cs) by (by rewrite Hgcfg).
  destruct (joined E); cbn [negb]; [|by split].
  pose proof (cache_get_leaves k g Hgc) as Hl.
  destruct (cache_get sha256 E k g) as [h r]. eapply leaves_seq; [exact Hl|].
  destruct Hl as (Hhc & Hhcfg & _ & HQ). simpl in *. rewrite Hgs in HQ.
  assert (Hhs : chunk_size (cfg h) = cs) by (by rewrite Hhcfg).
  assert (Hgo : forall h, coherent h -> chunk_size (cfg h) = cs ->
    leaves h (if decide (k ∈ inflight h) then follow_leader sha256 E k n h
              else lead sha256 E m b k n bypass h) (fun r => answer cs k n (ok r))).
  { intros h' ? ?. case_decide; [by apply follow_leader_leaves|by apply lead_leaves]. }
  destruct r as [d|]; [|by apply Hgo]. specialize (HQ d eq_refl).
  destruct (Z.eqb_spec (len d) n).
  - split; [done|]. split_and!; [done|done|]. by intros d' [= <-].
  - set (h' := set_cache _ h). destruct (Hgo h') as (? & ? & ? & ?); [|done|by split].
    apply coherent_cache; [apply shrinks_remove|done].
Qed.

(** The sub-range of a chunk a range fetch is asked for. *)
Definition part_of (k : ChunkKey) (a n : Z) (r : option Bytes) : Prop :=
  forall d, r = Some d -> d = slice (chunk_of cs k) a (a + n).

Lemma fetch_chunk_range_leaves m b off a n cl f :
  coherent f -> chunk_size (cfg f) = cs -> known m b off ->
  0 <= a -> 0 <= n -> a + n <= u64_max ->
  leaves f (fetch_chunk_range sha256 E m b off a n cl f)
    (fun r => part_of (chunk_key m b off) a n (ok r)).
Proof using Hho.
  intros Hc Hcs Hg Ha Hn Hmax. unfold fetch_chunk_range. set (k := chunk_key m b off) in *.
  destruct (Z.eqb_spec n 0) as [->|Hn0].
  { split; [done|]. split_and!; [done|done|]. intros d [= <-].
    rewrite Z.add_0_r. unfold slice. by rewrite Z.sub_diag. }
  rewrite wadd64_small by lia.
  pose proof (memory_hit_leaves k (fun b => a + n <=? len b)
    (fun b => (len b =? cl) && (a + n <=? len b)) f Hc) as Hm.
  destruct (memory_hit k _ _ f) as [g [d|]].
  { destruct Hm as (? & ? & ? & HQ). split; [done|]. split_and!; [done|done|].
    intros d' [= <-]. destruct (HQ d eq_refl) as [Hp Hl]. rewrite Hcs in Hp.
    apply prefix_slice; [done|lia|]. rewrite andb_true_iff, !Z.leb_le in Hl. lia. }
  eapply leaves_seq; [exact Hm|]. destruct Hm as (Hgc & Hgcfg & _ & _). simpl in *.
  assert (Hgs : chunk_size (cfg g) = cs) by (by rewrite Hgcfg).
  destruct (joined E); cbn [negb]; [|by split].
  pose proof (shrinks_try_get_range (read_ok E) k a n (cache g)) as Hs.
  pose proof (fun b => try_get_range_prefix (chunk_size (cfg g)) (read_ok E) k a n (cache g) b
    (co_cache _ Hgc) Ha ltac:(lia)) as Hr.
  destruct (Cache.try_get_range sha256 (read_ok E) k a n (cache g)) as [c r]. simpl in *.
  assert (Hhc : coherent (set_cache c g)) by (by apply coherent_cache). rewrite Hgs in Hr.
  destruct r as [d|].
  { split; [done|]. split_and!; [done|done|]. intros d' [= <-]. by destruct (Hr d eq_refl). }
  set (h := set_cache c g) in *.
  pose proof (fetch_chunk_inner_leaves m b off cl false h Hhc Hgs Hg) as Hl.
  destruct (fetch_chunk_inner sha256 E m b off cl false h) as [j [d|e]];
    destruct Hl as (Hjc & Hjcfg & Hji & HQ); simpl in HQ; [|by split].
  destruct (Z.ltb_spec (len d) (a + n)); split; try done.
  split_and!; [done|done|]. intros d' [= <-]. destruct (HQ d eq_refl).
  apply prefix_slice; [done|lia|lia].
Qed.

(** The keys of the mount table are the names of its mounts. *)
Definition mounts_named : Prop := forall name m, M !! name = Some m -> Conf.name m = name.

Lemma serve_miss_leaves in_time k n f :
  coherent f -> chunk_size (cfg f) = cs -> valid_key k ->
  mounts (cfg f) = M -> mounts_named ->
  leaves f (serve_miss E in_time k n f) (answer cs k n).
Proof using Hho.
  intros Hc Hcs Hg HM Hm. unfold serve_miss. case_decide as Hk.
  - destruct (follow E k) as [d| |] eqn:Ef; [|by split..].
    destruct in_time; [|by split]. destruct (Z.eqb_spec (len d) n); [|by split].
    split; [done|]. split_and!; [done|done|]. intros d' [= <-]. split; [|done].
    by apply (ho_follow _ _ Hho).
  - set (h := inc "singleflight_inflight" (set_inflight ({[k]} ∪ inflight f) f)).
    assert (Hhc : coherent h) by by apply coherent_slot.
    set (p := match mounts (cfg h) !! mount k with Some _ => _ | None => _ end).
    assert (Hp : leaves h p (answer cs k n)).
    { subst p. destruct (mounts (cfg h) !! mount k) as [m|] eqn:Em; [|by split].
      assert (Hkey : chunk_key m (blob k) (offset k) = k).
      { destruct k as [km kb ko]. unfold chunk_key. simpl in *. rewrite HM in Em. by rewrite (Hm _ m Em). }
      pose proof (fetch_blob_direct_leaves m (blob k) (offset k) n h Hhc Hcs) as Hd.
      rewrite Hkey in Hd. assert (Hkn : known m (blob k) (offset k)).
      { split; [|by rewrite Hkey]. simpl in Em. rewrite HM in Em. by rewrite (Hm _ m Em). }
      specialize (Hd Hkn). by destruct (fetch_blob_direct E m (blob k) k n h). }
    apply (slot_leaves k f p _ Hk) in Hp. by destruct p.
Qed.

Lemma serve_peer_chunk_leaves in_time k n f :
  coherent f -> chunk_size (cfg f) = cs -> valid_key k ->
  mounts (cfg f) = M -> mounts_named ->
  leaves f (serve_peer_chunk sha256 E in_time k n f) (answer cs k n).
Proof using Hho.
  intros Hc Hcs Hg HM Hm. unfold serve_peer_chunk.
  assert (Hl : leaves f (if joined E then cache_get sha256 E k f else (f, None)) (piece cs k)).
  { destruct (joined E); [|by split]. rewrite <-Hcs. by apply cache_get_leaves. }
  destruct (if joined E then _ else _) as [g r]. eapply leaves_seq; [exact Hl|].
  destruct Hl as (Hgc & Hgcfg & _ & HQ). simpl in Hgc, Hgcfg, HQ. cbn [fst].
  assert (Hmiss : leaves g (serve_miss E in_time k n g) (answer cs k n))
    by (apply serve_miss_leaves; rewrite ?Hgcfg; done).
  destruct r as [d|]; [|done]. destruct (Z.eqb_spec (len d) n); [|done].
  split; [done|]. split_and!; [done|done|]. intros d' [= <-]. split; [by apply HQ|done].
Qed.

Lemma pull_remote_leaves m b off n p u addr w f :
  coherent f -> chunk_size (cfg f) = cs -> known m b off ->
  leaves f (pull_remote sha256 E m b off n p u addr w f)
    (fun r => answer cs (chunk_key m b off) n (ok r)).
Proof using Hho.
  intros Hc Hcs Hg. unfold pull_remote. set (k := chunk_key m b off) in *.
  destruct (fetch_peer E p u addr k (wrap32 n) w) as [d|e] eqn:Ep.
  - destruct (Z.eqb_spec (len d) n); cbn [negb]; [|by apply leaves_same].
    apply (ho_peer _ _ Hho) in Ep. set (h := add_stat _ _ _).
    apply (leaves_from f h); [done|]. apply spawn_leaves; [by apply (same_data_coherent f)|by apply Hg| |].
    + subst h. simpl. by rewrite Hcs.
    + by intros d' [= <-].
  - assert (Hh : leaves f (fetch_chunk_origin_only sha256 E m b off n
      (inc "broadcast_peer_not_found" f)) (fun r => answer cs k n (ok r))).
    { eapply leaves_from; [|apply fetch_chunk_inner_leaves;
        [by apply (same_data_coherent f)|done|done]]. done. }
    destruct e; try by split. destruct (fetch_chunk_origin_only _ _ _ _ _ _ _) as [h [d|e]].
    all: by eapply leaves_after; [exact Hh|done|].
Qed.

Lemma pull_chunk_leaves m b off n p u addr w f :
  coherent f -> chunk_size (cfg f) = cs -> known m b off ->
  leaves f (pull_chunk_from_peer_wait sha256 E m b off n p u addr w f)
    (fun r => answer cs (chunk_key m b off) n (ok r)).
Proof using Hho.
  intros Hc Hcs Hg. unfold pull_chunk_from_peer_wait. set (k := chunk_key m b off) in *.
  pose proof (cache_get_leaves k f Hc) as Hl. rewrite Hcs in Hl.
  destruct (cache_get sha256 E k f) as [g r]. eapply leaves_seq; [exact Hl|].
  destruct Hl as (Hgc & Hgcfg & _ & HQ). simpl in Hgc, Hgcfg, HQ. cbn [fst].
  assert (Hpull : leaves g (pull_remote sha256 E m b off n p u addr w g)
    (fun r => answer cs k n (ok r))) by (apply pull_remote_leaves; rewrite ?Hgcfg; done).
  destruct r as [d|]; [|exact Hpull]. destruct (Z.eqb_spec (len d) n); [|exact Hpull].
  split; [done|]. split_and!; [done|done|]. intros d' [= <-]. split; [by apply HQ|done].
Qed.

Lemma run_prefetch_leaves m b off n f :
  coherent f -> chunk_size (cfg f) = cs -> known m b off ->
  leaves f (run_prefetch sha256 E m b off n f, tt) (fun _ => True).
Proof using Hho.
  intros Hc Hcs Hg. unfold run_prefetch.
  pose proof (fetch_chunk_inner_leaves m b off n (prefetch_origin_only (cfg f)) f Hc Hcs Hg) as Hl.
  destruct (fetch_chunk_inner _ _ _ _ _ _ _ _) as [g r].
  destruct r; by eapply leaves_after; [exact Hl|done|].
Qed.
End with_env.

(** ** The tail of an insert, and clearing *)
Lemma shrinks_evict n c : shrinks c (Cache.evict_loop sha256 n c).
Proof using Type.
  revert c. induction n as [|n IH]; intros c; simpl; [done|].
  destruct (Cache.evict_step sha256 c) as [c'|] eqn:E; [|done].
  eapply shrinks_trans; [|apply IH]. unfold Cache.evict_step in E.
  repeat case_match; simplify_eq; [|done].
  split; simpl.
  - intros k' [e' [_ ?]%lookup_delete_Some]. eauto.
  - intros n' d. unfold Cache.remove_file_ignored, Cache.remove_file.
    repeat case_match; simpl; try done. by intros [_ ?]%lookup_delete_Some.
Qed.

Lemma insert_commit_ok cs k d files c :
  valid_key k -> d `prefix_of` chunk_of cs k -> cache_ok cs (Cache.set_disk files c) ->
  cache_ok cs (Cache.insert_commit sha256 k (len d)
    (Cache.set_disk (<[Cache.path_for sha256 k := Cache.File d]> files) c)).
Proof using Hsha.
  intros Hg Hp [Hk Hf]. unfold Cache.insert_commit. simpl.
  destruct (match Cache.entries (Cache.inner c) !! k with Some _ => _ | None => _ end) as [lru1 bytes1].
  unfold Cache.evict_if_needed.
  match goal with |- cache_ok _ (Cache.set_stats _ (Cache.evict_loop _ _ ?x)) => set (c1 := x) end.
  eapply (shrinks_ok _ c1); [|].
  { destruct (shrinks_evict (base.size (Cache.lru (Cache.inner c1))) c1). by split. }
  assert (Hin : forall k', is_Some (Cache.entries (Cache.inner c1) !! k') ->
    k' = k \/ is_Some (Cache.entries (Cache.inner c) !! k')).
  { subst c1. simpl. intros k' [e [[-> _]|[_ ?]]%lookup_insert_Some]; eauto. }
  split.
  - intros k' [->|?]%Hin; [done|by apply Hk].
  - intros k' d' Hk'. change (Cache.disk c1) with (<[Cache.path_for sha256 k := Cache.File d]> files).
    intros [[Hpath [= <-]]|[Hne ?]]%lookup_insert_Some.
    + assert (k' = k) as ->; [|done]. eapply valid_filename_inj; [exact Hsha| |done|done].
      destruct (Hin _ Hk') as [->|?]; [done|by apply Hk].
    + destruct (Hin _ Hk') as [->|?]; [done|]. by apply Hf.
Qed.

(** [tmp] is the name of a temporary file. *)
Definition temporary (tmp : string) : Prop := starts_with ".tmp." tmp = true.

Lemma cache_insert_ok cs tmp fault k d c :
  temporary tmp -> valid_key k -> d `prefix_of` chunk_of cs k -> cache_ok cs c ->
  cache_ok cs (Cache.insert sha256 tmp fault k d c).1.
Proof using Hsha.
  intros Htmp Hg Hp Hc. unfold Cache.insert, Cache.insert_file.
  assert (Hfail : forall x, cache_ok cs (Cache.set_disk (<[tmp := Cache.File x]> (Cache.disk c)) c)).
  { intros x. destruct Hc as [Hk Hf]. split; [done|]. simpl. intros k' d' Hk'.
    rewrite lookup_insert_ne; [by apply Hf|]. intros ->.
    pose proof (filename_not_tmp sha256 k') as Hno. unfold temporary, Cache.path_for in Htmp. congruence. }
  assert (Hok : cache_ok cs (Cache.insert_commit sha256 k (len d) (Cache.set_disk
    (<[Cache.path_for sha256 k := Cache.File d]> (delete tmp (Cache.disk c))) c))).
  { apply insert_commit_ok; [done..|].
    eapply shrinks_ok; [|exact Hc]. split; [done|]. simpl. by intros n x [_ ?]%lookup_delete_Some. }
  destruct fault as [[]|]; try apply Hfail; [by destruct c|].
  destruct (Cache.disk c !! Cache.path_for sha256 k) as [[]|]; [exact Hok|apply Hfail|exact Hok].
Qed.

Lemma finish_insert_leaves tmp o k d f :
  coherent f -> temporary tmp -> valid_key k -> d `prefix_of` chunk_of (chunk_size (cfg f)) k ->
  leaves f (finish_insert sha256 tmp o k d f, tt) (fun _ => True).
Proof using Hsha.
  intros Hc Htmp Hg Hp. unfold finish_insert.
  set (g := match o with inr _ => _ | inl _ => _ end).
  assert (Hgc : coherent g /\ cfg g = cfg f /\ inflight g = inflight f).
  { assert (Hrec : forall h e n, coherent h -> coherent (inc n (record_insert_failure k e h)) /\
      cfg (inc n (record_insert_failure k e h)) = cfg h /\
      inflight (inc n (record_insert_failure k e h)) = inflight h).
    { intros h e n Hh. unfold record_insert_failure. case_match; (split; [|done]);
        by apply (same_data_coherent h). }
    subst g. destruct o as [e|fault]; [by apply Hrec|].
    pose proof (cache_insert_ok (chunk_size (cfg f)) tmp fault k d (cache f) Htmp Hg Hp (co_cache _ Hc)) as Hi.
    destruct (Cache.insert sha256 tmp fault k d (cache f)) as [c r]. simpl in Hi.
    assert (Hcc : coherent (set_cache c f)) by (destruct Hc; by split).
    destruct r as [[]|e]; [|by apply (Hrec (set_cache c f))].
    destruct (Index.note_local_insert _ _) as [p v]. split; [|done]. by apply (same_data_coherent (set_cache c f)). }
  destruct Hgc as ([Ha Hb Hd He] & H2 & H3). split; [|done].
  split; simpl; try done. intros k' d' [_ ?]%lookup_delete_Some. by apply Hb.
Qed.

Lemma clear_loop_disk keys g d fs r n x :
  (Cache.clear_loop sha256 keys g d fs r).1.1.2 !! n = Some (Cache.File x) -> d !! n = Some (Cache.File x).
Proof using Type.
  revert g d fs r. induction keys as [|k t IH]; intros g d fs r; simpl; [done|].
  destruct (Cache.entries g !! k) as [e|]; [|apply IH].
  destruct (Cache.remove_file d (Cache.path_for sha256 k)) as [d'|] eqn:E; intros H%IH; [|done].
  unfold Cache.remove_file in E. repeat case_match; simplify_eq. by apply lookup_delete_Some in H as [_ ?].
Qed.

Lemma shrinks_clear rd st c : shrinks c (Cache.clear_all sha256 rd st c).1.
Proof using Type.
  pose proof (Cache.clear_locked_inner sha256 c) as Hi.
  pose proof (clear_loop_disk (Cache.live_keys c) (Cache.inner c) (Cache.disk c) 0 0) as Hd.
  unfold Cache.clear_all, Cache.clear_locked in *.
  destruct (Cache.clear_loop _ _ _ _ _ _) as [[[g d] fs] r]. simpl in Hi, Hd.
  assert (Hg : Cache.entries g = ∅) by congruence.
  destruct rd; (split; simpl; [intros k; rewrite Hg; intros [? ?]; set_solver|]); [|done].
  intros n x. unfold Cache.sweep. rewrite map_lookup_filter_Some. intros [? _]. by apply Hd.
Qed.

Lemma clear_local_state_coherent rd st f :
  coherent f -> coherent (clear_local_state sha256 rd st f).1 /\
    cfg (clear_local_state sha256 rd st f).1 = cfg f.
Proof using Type.
  intros Hc. unfold clear_local_state. pose proof (shrinks_clear rd st (cache f)) as Hs.
  destruct (Cache.clear_all sha256 rd st (cache f)) as [c r]. simpl in Hs.
  assert (Hcc : coherent (set_cache c f)) by by apply coherent_cache.
  destruct r as [n|e]; [|by split].
  destruct (Index.rebuild_local_from_cache _ _ _) as [p v]. split; [|done]. simpl.
  destruct Hcc as [Ha Hb Hd He]. split; simpl; try done. intros l k d Hl Hin.
  destruct (peer_lru f) as [l0|]; simplify_eq/=.
  rewrite Lru.lru_view_clear in Hin. by apply not_elem_of_nil in Hin.
Qed.

(** ** Availability: a readable origin is enough *)
Section available.
Context (E : Env) (cs : Z) (Hho : honest cs E).

Definition origin_answers (m : Conf.MountConfig) (b : string) (off : Z) : Prop :=
  exists d, get_blob_range E (Conf.name m) (Conf.account m) (Conf.container m) (real_path m b) off cs
    = Ok d.

Lemma fetch_blob_direct_ok m b off f :
  chunk_size (cfg f) = cs -> known m b off -> origin_answers m b off ->
  exists d, (fetch_blob_direct E m b (chunk_key m b off) (len (chunk_of cs (chunk_key m b off))) f).2
    = Ok d.
Proof using Hho.
  intros Hcs Hg [d Hd]. unfold fetch_blob_direct. rewrite Hcs. cbn [offset chunk_key]. rewrite Hd.
  apply (honest_chunk _ _ _ _ _ _ Hho Hg) in Hd. rewrite <-Hd, Z.eqb_refl. simpl. eauto.
Qed.

Lemma do_fetch_ok m b off bypass f :
  coherent f -> chunk_size (cfg f) = cs -> known m b off -> origin_answers m b off ->
  exists d, (do_fetch sha256 E m b (chunk_key m b off) (len (chunk_of cs (chunk_key m b off)))
               bypass f).2 = Ok d.
Proof using Hho.
  intros Hc Hcs Hg Ho. unfold do_fetch. destruct bypass; [by apply fetch_blob_direct_ok|].
  pose proof (fetch_from_peers_leaves E cs Hho (chunk_key m b off)
    (len (chunk_of cs (chunk_key m b off))) f Hc Hcs (proj2 Hg)) as Hp.
  destruct (fetch_from_peers _ _ _ _ _) as [g [d|]]; [simpl; eauto|].
  apply fetch_blob_direct_ok; [|done..]. destruct Hp as (_ & Hcfg & _). simpl in Hcfg. by rewrite Hcfg.
Qed.

Lemma lead_ok m b off bypass f :
  coherent f -> chunk_size (cfg f) = cs -> known m b off -> origin_answers m b off ->
  exists d, (lead sha256 E m b (chunk_key m b off) (len (chunk_of cs (chunk_key m b off)))
               bypass f).2 = Ok d.
Proof using Hho.
  intros Hc Hcs Hg Ho. unfold lead. set (k := chunk_key m b off) in *.
  set (g := inc "singleflight_inflight" (set_inflight ({[k]} ∪ inflight f) f)).
  destruct (do_fetch_ok m b off bypass g (coherent_slot _ _ f Hc) Hcs Hg Ho) as [d Hd].
  fold k in Hd. destruct (do_fetch _ _ _ _ _ _ _ _) as [h r]. simpl in *. eauto.
Qed.

(** No task of this node holds the leader slot of the chunk. *)
Lemma fetch_chunk_inner_ok m b off bypass f :
  coherent f -> chunk_size (cfg f) = cs -> known m b off -> origin_answers m b off ->
  joined E = true -> chunk_key m b off ∉ inflight f ->
  exists d, (fetch_chunk_inner sha256 E m b off (len (chunk_of cs (chunk_key m b off))) bypass f).2
    = Ok d.
Proof using Hho.
  intros Hc Hcs Hg Ho Hj Hk. unfold fetch_chunk_inner. set (k := chunk_key m b off) in *.
  set (n := len (chunk_of cs k)).
  pose proof (memory_hit_leaves k (fun b => len b =? n) (fun b => len b =? n) f Hc) as Hm.
  destruct (memory_hit k _ _ f) as [g [d|]]; [simpl; eauto|].
  destruct Hm as (Hgc & Hgcfg & Hgi & _). simpl in Hgc, Hgcfg, Hgi. rewrite Hj. cbn [negb].
  pose proof (cache_get_leaves E k g Hgc) as Hl.
  destruct (cache_get sha256 E k g) as [h r]. destruct Hl as (Hhc & Hhcfg & Hhi & _).
  simpl in Hhc, Hhcfg, Hhi.
  destruct r as [d|]; [destruct (len d =? n); [simpl; eauto|]|].
  all: rewrite decide_False by (simpl; congruence); apply lead_ok; simpl; try done; try congruence.
  apply coherent_cache; [apply shrinks_remove|done].
Qed.

Lemma fetch_chunk_range_ok m b off a n f :
  coherent f -> chunk_size (cfg f) = cs -> known m b off -> origin_answers m b off ->
  joined E = true -> chunk_key m b off ∉ inflight f ->
  0 <= a -> 0 <= n -> a + n <= len (chunk_of cs (chunk_key m b off)) -> a + n <= u64_max ->
  exists d, (fetch_chunk_range sha256 E m b off a n (len (chunk_of cs (chunk_key m b off))) f).2 = Ok d.
Proof using Hho.
  intros Hc Hcs Hg Ho Hj Hk Ha Hn Hlen Hmax. unfold fetch_chunk_range. set (k := chunk_key m b off) in *.
  destruct (n =? 0); [simpl; eauto|]. rewrite wadd64_small by lia.
  set (cl := len (chunk_of cs k)) in *.
  pose proof (memory_hit_leaves k (fun b => a + n <=? len b)
    (fun b => (len b =? cl) && (a + n <=? len b)) f Hc) as Hm.
  destruct (memory_hit k _ _ f) as [g [d|]]; [simpl; eauto|].
  destruct Hm as (Hgc & Hgcfg & Hgi & _). simpl in Hgc, Hgcfg, Hgi. rewrite Hj. cbn [negb].
  pose proof (shrinks_try_get_range (read_ok E) k a n (cache g)) as Hs.
  destruct (Cache.try_get_range sha256 (read_ok E) k a n (cache g)) as [c [d|]]; [simpl; eauto|].
  simpl in Hs. set (h := set_cache c g).
  assert (Hhc : coherent h) by by apply coherent_cache.
  assert (Hhs : chunk_size (cfg h) = cs) by (simpl; congruence).
  destruct (fetch_chunk_inner_ok m b off false h) as [d Hd]; try done; [by subst h; simpl; rewrite Hgi|].
  pose proof (fetch_chunk_inner_leaves E cs Hho m b off cl false h Hhc Hhs Hg) as (_ & _ & _ & HQ).
  fold k in Hd. fold cl in Hd. destruct (fetch_chunk_inner _ _ _ _ _ _ _ _) as [j r].
  simpl in Hd, HQ. subst r. destruct (HQ d eq_refl) as [_ Hdl].
  rewrite (proj2 (Z.ltb_ge (len d) (a + n))) by lia. simpl. eauto.
Qed.
End available.

(** ** Ranges of a file *)
Section ranges.
Context (E : Env) (cs : Z) (Hho : honest cs E) (Hcs : 0 < cs).
Context (m : Conf.MountConfig) (b : string).
Context (Hmount : M !! Conf.name m = Some m) (Hname : x00 ∉ str_bytes (Conf.name m)).
Let file : Bytes := content (Conf.name m) b.
Context (Hsize : len file <= u64_max).

(** The bytes of [[off, e)] that lie in the chunk at [o]. *)
Definition piece_at (off e o : Z) : Bytes := slice file (Z.max off o) (Z.min e (o + cs)).

Lemma chunk_of_len o : 0 <= o <= len file -> len (chunk_of cs (chunk_key m b o)) = Z.min cs (len file - o).
Proof using Hcs.
  intros Ho. unfold chunk_of, chunk_key. cbn [mount blob offset]. fold file. rewrite len_slice; lia.
Qed.

Lemma chunk_part_piece off e o start n cl :
  0 <= off -> off < e <= len file -> 0 <= o < e -> off < o + cs ->
  chunk_part cs off e (len file) o = (start, n, cl) ->
  0 <= start /\ 0 < n /\ start + n <= cl /\ cl = len (chunk_of cs (chunk_key m b o)) /\
  slice (chunk_of cs (chunk_key m b o)) start (start + n) = piece_at off e o.
Proof using Hcs.
  intros Ho He Hoe Hoc. unfold chunk_part. intros [= <- <- <-].
  rewrite chunk_of_len by lia. split_and!; [lia..|].
  unfold chunk_of, chunk_key. cbn [mount blob offset]. fold file.
  rewrite slice_slice by lia. unfold piece_at. f_equal; lia.
Qed.

(** Walking the offsets from a chunk boundary covers the range without gap or overlap. *)
Lemma chunk_offsets_cover fuel off e o last :
  0 <= o -> o <= last -> last < e -> e <= last + cs -> e <= u64_max -> (last - o) mod cs = 0 ->
  off <= o + cs -> off < e ->
  (Z.to_nat ((last - o) / cs + 1) <= fuel)%nat ->
  concat (piece_at off e <$> chunk_offsets fuel cs o last) = slice file (Z.max off o) e /\
  Forall (fun x => o <= x <= last) (chunk_offsets fuel cs o last) /\
  StronglySorted Z.lt (chunk_offsets fuel cs o last).
Proof using Hcs.
  revert o. induction fuel as [|fuel IH]; intros o H0 Hol Hle Hel Hmax Hmod Hoff Hoe Hfuel.
  { pose proof (Z.div_pos (last - o) cs). lia. }
  cbn [chunk_offsets]. rewrite (proj2 (Z.leb_le o last)) by lia.
  destruct (decide (o = last)) as [->|Hne].
  - assert (Hnext : chunk_offsets fuel cs (last + cs) last = []).
    { destruct fuel; [done|]. cbn [chunk_offsets]. by rewrite (proj2 (Z.leb_gt _ _)) by lia. }
    rewrite Hnext. assert (Hif : forall c : bool, (if c then [] else []) = @nil Z) by (by intros []).
    rewrite Hif. simpl. rewrite app_nil_r. split_and!; [|repeat constructor; lia..].
    unfold piece_at. f_equal. lia.
  - assert (Hstep : o + cs <= last).
    { apply Z.mod_divide in Hmod as [q Hq]; [|lia]. assert (0 < q) by nia. nia. }
    rewrite (proj2 (Z.leb_le (o + cs) u64_max)) by lia.
    assert (Hm' : (last - (o + cs)) mod cs = 0).
    { replace (last - (o + cs)) with (last - o + (-1) * cs) by lia. by rewrite Z.mod_add by lia. }
    assert (Hd' : (last - (o + cs)) / cs = (last - o) / cs - 1).
    { replace (last - (o + cs)) with (last - o + (-1) * cs) by lia. rewrite Z.div_add by lia. lia. }
    destruct (IH (o + cs)) as (Hc & Hf & Hs); try lia.
    split_and!.
    + cbn [fmap list_fmap concat]. rewrite Hc. unfold piece_at.
      rewrite Z.min_r by lia. rewrite (Z.max_r off (o + cs)) by lia. apply slice_app; lia.
    + constructor; [lia|]. eapply Forall_impl; [exact Hf|]. simpl. lia.
    + constructor; [done|]. eapply Forall_impl; [exact Hf|]. simpl. lia.
Qed.

Lemma range_offsets_cover off e :
  0 <= off -> off < e -> e <= u64_max ->
  concat (piece_at off e <$> range_offsets cs off e) = slice file off e /\
  Forall (fun o => 0 <= o < e /\ off < o + cs) (range_offsets cs off e) /\
  StronglySorted Z.lt (range_offsets cs off e).
Proof using Hcs.
  intros Ho He Hmax. unfold range_offsets.
  pose proof (Z.div_mod off cs) as H1. pose proof (Z.mod_pos_bound off cs Hcs).
  pose proof (Z.div_mod (e - 1) cs) as H2. pose proof (Z.mod_pos_bound (e - 1) cs Hcs).
  assert (0 <= off / cs) by (apply Z.div_pos; lia).
  assert (off / cs <= (e - 1) / cs) by (apply Z.div_le_mono; lia).
  set (q := off / cs) in *. set (r := (e - 1) / cs) in *.
  destruct (chunk_offsets_cover (Z.to_nat ((r * cs - q * cs) / cs + 1)) off e (q * cs) (r * cs))
    as (Hc & Hf & Hs); try nia.
  { rewrite <-Z.mul_sub_distr_r. by apply Z.mod_mul, Z.neq_sym, Z.lt_neq. }
  split_and!; [|eapply Forall_impl; [exact Hf|simpl; nia]|done].
  rewrite Hc. f_equal. lia.
Qed.

(** Nothing stands in the way of the read. *)
Definition readable (f : Fetcher) : Prop :=
  joined E = true /\
  forall o, 0 <= o < len file ->
    task_error E o = None /\ origin_answers E cs m b o /\ chunk_key m b o ∉ inflight f.

Lemma run_parts_leaves off e os f :
  coherent f -> chunk_size (cfg f) = cs -> 0 <= off -> off < e <= len file ->
  Forall (fun o => 0 <= o < e /\ off < o + cs) os ->
  leaves f (run_parts sha256 E m b off e (len file) os f)
    (fun rs => Forall2 (fun o x => x.1 = o /\ (forall d, x.2 = Ok d -> d = piece_at off e o) /\
                          (readable f -> exists d, x.2 = Ok d)) os rs).
Proof using Hho Hcs Hmount Hname Hsize.
  intros Hc Hfs Ho He. revert f Hc Hfs.
  induction os as [|o os IH]; intros f Hc Hfs Hos; cbn [run_parts]; [by split|].
  apply Forall_cons in Hos as [[Ho1 Ho2] Hos]. rewrite Hfs.
  destruct (chunk_part cs off e (len file) o) as [[start n] cl] eqn:Ep.
  destruct (chunk_part_piece off e o start n cl) as (Hst & Hn & Hsl & Hcl & Hpiece); try done.
  assert (Hmax : start + n <= u64_max) by (rewrite chunk_of_len in Hcl by lia; lia).
  assert (Hk : known m b o) by (split; [done|]; split; [done|]; simpl; split; lia).
  set (p := match task_error E o with Some _ => _ | None => _ end).
  assert (Hp : leaves f p (fun r => (forall d, r = Ok d -> d = piece_at off e o) /\
                             (readable f -> exists d, r = Ok d))).
  { subst p. destruct (task_error E o) as [msg|] eqn:Et.
    - split; [done|]. split_and!; [done|done|done|].
      intros [_ Hr]. destruct (Hr o) as [? _]; [lia|]. simpl in *. congruence.
    - pose proof (fetch_chunk_range_leaves E cs Hho m b o start n cl f) as Hl.
      destruct Hl as (H1 & H2 & H3 & HQ); try done; [lia|]. split; [done|]. split_and!; [done|done| |].
      + intros d Hd. rewrite <-Hpiece. apply HQ. exact (f_equal ok Hd).
      + intros [Hj Hr]. destruct (Hr o) as (_ & Hor & Hni); [lia|]. rewrite Hcl.
        apply fetch_chunk_range_ok; try done; lia. }
  destruct p as [g r]. destruct Hp as (Hgc & Hgcfg & Hgi & HQ). simpl in Hgc, Hgcfg, Hgi, HQ.
  destruct (IH g Hgc ltac:(by rewrite Hgcfg) Hos) as (Hh1 & Hh2 & Hh3 & HF).
  destruct (run_parts sha256 E m b off e (len file) os g) as [h rs]. simpl in Hh1, Hh2, Hh3, HF.
  split; [done|]. split_and!; [simpl; congruence|simpl; congruence|].
  constructor; [done|]. eapply Forall2_impl; [exact HF|]. simpl. unfold readable. by rewrite Hgi.
Qed.

(** Joining parts that are right gives the range, in order. *)
Lemma join_parts_exact (F : Z -> Bytes) os rs :
  Forall2 (fun o (x : Z * res Bytes) => x.1 = o /\ (forall d, x.2 = Ok d -> d = F o)) os rs ->
  forall ds, join_parts rs = Ok ds -> ds = (fun o => (o, F o)) <$> os.
Proof using Type.
  induction 1 as [|o [o' r] os rs [H1 H2] _ IH]; intros ds; simpl; [by intros [= <-]|].
  simpl in H1, H2. subst o'. destruct r as [d|e]; simpl; [|done]. rewrite (H2 d) by done.
  destruct (join_parts rs) as [l|e]; simpl; [|done]. intros [= <-]. by rewrite (IH l).
Qed.

Lemma join_parts_ok (rs : list (Z * res Bytes)) :
  Forall (fun x => exists d, x.2 = Ok d) rs -> exists ds, join_parts rs = Ok ds.
Proof using Type.
  induction 1 as [|[o r] rs [d Hd] _ [ds IH]]; simpl; [eauto|]. simpl in Hd. subst r. simpl.
  rewrite IH. simpl. eauto.
Qed.

Lemma prefetch_loop_same depth i cur size f : same_data f (prefetch_loop depth i m b cur size f).1.
Proof using Type.
  revert i f. induction depth as [|n IH]; intros i f; cbn [prefetch_loop]; [done|].
  destruct (size <=? _); [done|].
  destruct (Cache.entry_size _ _); [eapply same_data_trans; [|apply IH]; done|].
  repeat case_decide; [eapply same_data_trans; [|apply IH]; done..|].
  pose proof (IH (i + 1) (inc "prefetch_spawned" f)) as Hrec.
  destruct (prefetch_loop n (i + 1) m b cur size (inc "prefetch_spawned" f)) as [g l].
  eapply same_data_trans; [|exact Hrec]. done.
Qed.

Lemma maybe_trigger_prefetch_same x y size f :
  same_data f (maybe_trigger_prefetch m b x y size f).1.
Proof using Type.
  unfold maybe_trigger_prefetch. case_match; [done|]. unfold track_stream.
  repeat case_match; simplify_eq; try done. all: by eapply same_data_trans; [|apply prefetch_loop_same].
Qed.

Lemma fetch_range_leaves off n f :
  coherent f -> chunk_size (cfg f) = cs -> 0 <= off -> 0 <= n ->
  leaves f (fetch_range sha256 E m b off n (len file) f).1
    (fun r => (forall d, r = Ok d -> d = slice file off (Z.min (off + n) (len file))) /\
              (readable f -> n <= MAX_READ_BYTES -> exists d, r = Ok d)).
Proof using Hho Hcs Hmount Hname Hsize.
  intros Hc Hfs Ho Hn. unfold fetch_range.
  assert (Hnil : forall z, z <= off -> [] = slice file off z).
  { intros z Hz. unfold slice. by replace (Z.to_nat (z - off)) with 0%nat by lia. }
  destruct (Z.eqb_spec n 0) as [->|Hn0].
  { split; [done|]. split_and!; [done|done| |eauto]. intros d [= <-]. apply Hnil. lia. }
  destruct (Z.ltb_spec MAX_READ_BYTES n).
  { split; [done|]. split_and!; [done|done|done|lia]. }
  unfold sat_add64. replace (Z.min (Z.min (off + n) u64_max) (len file)) with (Z.min (off + n) (len file)) by lia.
  set (e := Z.min (off + n) (len file)).
  destruct (Z.leb_spec e off).
  { split; [done|]. split_and!; [done|done| |eauto]. intros d [= <-]. by apply Hnil. }
  pose proof (maybe_trigger_prefetch_same off e (len file) f) as Hs.
  destruct (maybe_trigger_prefetch m b off e (len file) f) as [g pf]. simpl in Hs.
  apply (leaves_from f g); [done|].
  assert (Hgc : coherent g) by (by apply (same_data_coherent f)).
  destruct Hs as (Hgcfg & _ & _ & _ & _ & Hgi). rewrite Hgcfg, Hfs.
  destruct (range_offsets_cover off e) as (Hcov & Hfor & Hsort); [lia..|].
  pose proof (run_parts_leaves off e (range_offsets cs off e) g Hgc) as Hr.
  destruct (run_parts sha256 E m b off e (len file) (range_offsets cs off e) g) as [h rs].
  destruct Hr as (H1 & H2 & H3 & HF); [by rewrite Hgcfg|lia|lia|done|]. simpl in HF.
  split; [done|]. split_and!; [done|done| |].
  - intros d Hd. cbn [fst snd] in Hd.
    destruct (join_parts rs) as [ds|] eqn:Ej; simpl in Hd; [|done]. injection Hd as <-.
    rewrite (join_parts_exact (piece_at off e) (range_offsets cs off e) rs) with (ds := ds);
      [|eapply Forall2_impl; [exact HF|]; simpl; naive_solver|done].
    rewrite stable_sort_id, <-list_fmap_compose; [done|].
    eapply StronglySorted_fmap; [|exact Hsort]. simpl. intros. by apply Z.leb_le, Z.lt_le_incl.
  - intros Hrd _. cbn [fst snd].
    destruct (join_parts_ok rs) as [ds ->]; [|simpl; eauto].
    assert (Hrd' : readable g) by (unfold readable in *; by rewrite Hgi).
    apply Forall_forall. intros x Hx. apply list_elem_of_lookup in Hx as [i Hi].
    destruct (Forall2_lookup_r _ _ _ _ _ HF Hi) as (o & _ & _ & _ & ?). auto.
Qed.
End ranges.

(** ** Runs of the pipeline

    One operation of a node with chunk size [cs], in an honest world of its own.  What other tasks
    hold of the singleflight map, what gossip does to membership and index, and the deletion of a
    file under the daemon are operations too. *)
Inductive act (cs : Z) (E : Env) (f : Fetcher) : Fetcher -> Prop :=
| act_fetch m b off n bypass :
    known m b off -> act cs E f (fetch_chunk_inner sha256 E m b off n bypass f).1
| act_read m b off n :
    0 < cs -> M !! Conf.name m = Some m -> x00 ∉ str_bytes (Conf.name m) ->
    len (content (Conf.name m) b) <= u64_max -> 0 <= off -> 0 <= n ->
    act cs E f (fetch_range sha256 E m b off n (len (content (Conf.name m) b)) f).1.1
| act_serve in_time k n :
    valid_key k -> act cs E f (serve_peer_chunk sha256 E in_time k n f).1
| act_pull m b off n p u addr w :
    known m b off ->
    act cs E f (pull_chunk_from_peer_wait sha256 E m b off n p u addr w f).1
| act_prefetch m b off n :
    known m b off -> act cs E f (run_prefetch sha256 E m b off n f)
| act_finish tmp outcome l1 k d l2 :
    spawned f = l1 ++ (k, d) :: l2 -> temporary tmp ->
    act cs E f (finish_insert sha256 tmp outcome k d (set_spawned (l1 ++ l2) f))
| act_clear rd st : act cs E f (clear_local_state sha256 rd st f).1
| act_take : act cs E f (take_insert_failures f).1
| act_reconcile : act cs E f (set_cache (Cache.reconcile_with_disk sha256 (cache f)).1 f)
| act_unlink n : act cs E f (set_cache (Cache.set_disk (delete n (Cache.disk (cache f))) (cache f)) f)
| act_gossip mem idx : act cs E f (set_membership mem (set_index idx f))
| act_tasks s : act cs E f (set_inflight s f).

(** One step of a node in some honest world. *)
Inductive op (cs : Z) (f f' : Fetcher) : Prop :=
| op_intro E : honest cs E -> act cs E f f' -> op cs f f'.

Inductive reachable (cs : Z) (f0 : Fetcher) : Fetcher -> Prop :=
| reach_start : reachable cs f0 f0
| reach_step f f' : reachable cs f0 f -> op cs f f' -> reachable cs f0 f'.

Definition node_ok (cs : Z) (f : Fetcher) : Prop :=
  coherent f /\ chunk_size (cfg f) = cs /\ mounts (cfg f) = M.

Lemma leaves_node_ok {A} cs f (p : Fetcher * A) Q : node_ok cs f -> leaves f p Q -> node_ok cs p.1.
Proof using Type. intros (_ & H2 & H3) (Hc & Hcfg & _). unfold node_ok. by rewrite Hcfg. Qed.

Lemma op_node_ok cs f f' : mounts_named -> op cs f f' -> node_ok cs f -> node_ok cs f'.
Proof using Hsha.
  intros Hm [E Hho Hact] Hf. pose proof Hf as (Hc & Hcs & HM). destruct Hact.
  - eapply leaves_node_ok; [done|]. by apply (fetch_chunk_inner_leaves E cs).
  - eapply leaves_node_ok; [done|]. by apply (fetch_range_leaves E cs).
  - eapply leaves_node_ok; [done|]. by apply (serve_peer_chunk_leaves E cs).
  - eapply leaves_node_ok; [done|]. by apply (pull_chunk_leaves E cs).
  - by apply (leaves_node_ok cs f (run_prefetch sha256 E m b off n f, tt) (fun _ => True));
      [|apply (run_prefetch_leaves E cs)].
  - destruct (co_spawned _ Hc k d) as [Hk Hp]; [rewrite H; apply elem_of_app; right; left|].
    assert (Hg : coherent (set_spawned (l1 ++ l2) f)).
    { destruct Hc as [Ha Hb Hsp Hl]. split; try done. simpl. intros k' d' Hin. apply Hsp. rewrite H.
      apply elem_of_app in Hin as [?|?]; apply elem_of_app; [by left|right; by right]. }
    by apply (leaves_node_ok cs (set_spawned (l1 ++ l2) f)
      (finish_insert sha256 tmp outcome k d (set_spawned (l1 ++ l2) f), tt) (fun _ => True));
      [|apply finish_insert_leaves].
  - destruct (clear_local_state_coherent rd st f Hc) as [? Hcfg]. unfold node_ok. by rewrite Hcfg.
  - split; [by apply (same_data_coherent f)|done].
  - split; [|done]. apply coherent_cache; [|done]. split; [|by rewrite Cache.reconciled_disk].
    intros k Hk. by apply (Cache.reconciled_state sha256 (cache f) k) in Hk as [? _].
  - split; [|done]. apply coherent_cache; [|done]. split; [done|]. simpl.
    by intros n' d [_ ?]%lookup_delete_Some.
  - split; [by apply (same_data_coherent f)|done].
  - split; [|done]. destruct Hc; by split.
Qed.

(** A fetcher over a freshly opened cache. *)
Lemma new_node_ok mkdir_ok readdir_ok stat_ok max d c mem idx cs bsize cc depth thr pfc oo onp lru mc my mm wait :
  Cache.open mkdir_ok readdir_ok stat_ok max d = Ok c ->
  node_ok cs (new c mem idx cs bsize cc depth thr pfc oo onp lru mc my mm wait M).
Proof using Type.
  intros Ho.
  assert (He : Cache.entries (Cache.inner c) = ∅).
  { unfold Cache.open, Cache.scan_existing in Ho. by repeat case_match; simplify_eq/=. }
  split; [|done]. split; simpl.
  - by split; [intros k|intros k x]; rewrite He, lookup_empty; intros [? ?].
  - done.
  - intros k x Hin. by apply not_elem_of_nil in Hin.
  - intros l k x Hl Hin. case_match; simplify_eq/=. rewrite Lru.lru_view_new in Hin.
    by apply not_elem_of_nil in Hin.
Qed.

(** ** Theorems *)

(** C4.  A node never files wrong bytes: from a fetcher built over a freshly opened cache, whatever
    sequence of fetches, reads, peer requests, broadcast pulls, prefetches, finished or failed
    inserts, clears, reconciliations, gossip and file deletions happens - with honest peers and an
    honest origin - every tracked cache file, every write in flight and every entry of the peer LRU
    holds a prefix of exactly the chunk it is filed under. *)
Theorem pipeline_coherent mkdir_ok readdir_ok stat_ok max d c mem idx cs bsize cc depth thr pfc oo onp
    lru mc my mm wait f :
  mounts_named -> Cache.open mkdir_ok readdir_ok stat_ok max d = Ok c ->
  reachable cs (new c mem idx cs bsize cc depth thr pfc oo onp lru mc my mm wait M) f ->
  coherent f.
Proof using Hsha.
  intros Hm Ho Hr. cut (node_ok cs f); [by intros [? _]|].
  induction Hr as [|f f' _ IH Hop]; [|by apply (op_node_ok cs f)].
  by eapply new_node_ok.
Qed.

(** C5.  A chunk fetch is correct and available: on a coherent node in an honest world, whatever
    [fetch_chunk] (or its origin-only form) returns for the chunk's length is exactly that chunk of
    the blob; and it does return it whenever the blocking cache lookup ran, the origin answers and
    no other task holds the leader slot - no state of caches, peers or index can prevent it. *)
Theorem fetch_chunk_correct cs E m b off bypass f :
  coherent f -> chunk_size (cfg f) = cs -> honest cs E -> known m b off ->
  let want := chunk_of cs (chunk_key m b off) in
  let '(f', r) := fetch_chunk_inner sha256 E m b off (len want) bypass f in
  coherent f' /\ inflight f' = inflight f /\ (forall d, r = Ok d -> d = want) /\
  (joined E = true -> origin_answers E cs m b off -> chunk_key m b off ∉ inflight f -> r = Ok want).
Proof using Type.
  intros Hc Hcs Hho Hk want.
  pose proof (fetch_chunk_inner_leaves E cs Hho m b off (len want) bypass f Hc Hcs Hk) as Hl.
  pose proof (fetch_chunk_inner_ok E cs Hho m b off bypass f Hc Hcs Hk) as Hok. fold want in Hok.
  destruct (fetch_chunk_inner sha256 E m b off (len want) bypass f) as [g r].
  destruct Hl as (Hgc & _ & Hgi & HQ). simpl in Hgc, Hgi, HQ, Hok.
  assert (Hd : forall d, r = Ok d -> d = want).
  { intros d ->. destruct (HQ d eq_refl). by apply prefix_full. }
  split_and!; [done|done|done|]. intros Hj Ho Hni. destruct (Hok Ho Hj Hni) as [d Hr].
  by rewrite Hr, (Hd d Hr).
Qed.

(** C2.  A read of a file is correct and available: on a coherent node in an honest world
    [fetch_range] returns, if anything, exactly the bytes [[offset, min(offset+length, size))] of
    the blob behind the mount - the chunks fetched apart and joined back in order, nothing missing,
    repeated or shifted - and it does return them when the read is within [MAX_READ_BYTES] and every
    chunk is readable. *)
Theorem fetch_range_correct cs E m b off n f :
  let file := content (Conf.name m) b in
  coherent f -> chunk_size (cfg f) = cs -> honest cs E -> 0 < cs ->
  M !! Conf.name m = Some m -> x00 ∉ str_bytes (Conf.name m) -> len file <= u64_max ->
  0 <= off -> 0 <= n ->
  let '(f', r, _) := fetch_range sha256 E m b off n (len file) f in
  coherent f' /\ (forall d, r = Ok d -> d = slice file off (Z.min (off + n) (len file))) /\
  (readable E cs m b f -> n <= MAX_READ_BYTES ->
     r = Ok (slice file off (Z.min (off + n) (len file)))).
Proof using Type.
  intros file Hc Hcs Hho Hpos HM Hname Hsize Ho Hn.
  pose proof (fetch_range_leaves E cs Hho Hpos m b HM Hname Hsize off n f Hc Hcs Ho Hn) as Hl.
  fold file in Hl. destruct (fetch_range sha256 E m b off n (len file) f) as [[g r] pf].
  destruct Hl as (Hgc & _ & _ & HQ & Hok). simpl in Hgc, HQ, Hok. split_and!; [done|done|].
  intros Hr Hmax. destruct (Hok Hr Hmax) as [d Hd]. by rewrite Hd, (HQ d Hd).
Qed.
End coherence.
End fetcher.

(** ** A small world for the witnesses: one mount over a ten-byte blob, chunks of four bytes, no
    peers, and the identity in place of SHA-256 *)
Definition demo_file : Bytes := str_bytes "0123456789".
Definition demo_origin (account container path : string) : Bytes := demo_file.
Definition demo_mount : Conf.MountConfig := Conf.mkMountConfig "m" "/mnt/m" "acct" "cont" "" None.
Definition demo_mounts : gmap string Conf.MountConfig := {["m" := demo_mount]}.

Definition demo_env : Env :=
  mkEnv true "" true false (fun _ => None) (fun _ _ _ _ _ _ => Err (NotFound "chunk"))
    (fun _ _ _ _ off n => Ok (slice demo_file off (Z.min (off + n) (len demo_file))))
    (fun _ => Dropped) (fun _ => None).

Definition demo_cache : Cache.DiskCache := Cache.mkDiskCache 1024 (Cache.mkInner ∅ ∅ 0 0) Cache.stats0 ∅.

Definition demo_fetcher : @Fetcher Lru.list_lru :=
  new (L := Lru.list_lru) demo_cache demo (Index.new "a" 64) 4 0 2 2 2 1 false true 16 3 3 1 0 demo_mounts.

Lemma demo_collision_free : collision_free (fun l => l).
Proof. by intros k k' _ _. Qed.

Lemma demo_named : mounts_named demo_mounts.
Proof. intros name m. unfold demo_mounts. intros [<- <-]%lookup_singleton_Some. done. Qed.

Lemma demo_honest : honest demo_origin demo_mounts 4 demo_env.
Proof. split; simpl; try done. by intros _ a c p off d _ [= <-]. Qed.

Lemma demo_known off : 0 <= off <= 8 -> known demo_mounts demo_mount "f" off.
Proof.
  intros Ho. split; [done|]. split; [|split; simpl; unfold u64_max, u64_mod; lia].
  apply (bool_decide_unpack _). vm_compute. exact I.
Qed.

Lemma demo_coherent :
  coherent (fun l => l) demo_origin demo_mounts demo_fetcher.
Proof.
  split; simpl.
  - by split; [intros k|intros k x]; simpl; rewrite lookup_empty; intros [? ?].
  - done.
  - intros k x Hin. by apply not_elem_of_nil in Hin.
  - intros l k x [= <-] Hin. by apply not_elem_of_nil in Hin.
Qed.

Lemma pipeline_coherent_witness :
  let f' := (fetch_chunk_inner (fun l => l) demo_env demo_mount "f" 4 4 false demo_fetcher).1 in
  spawned f' = [(mkChunkKey "m" "f" 4, str_bytes "4567")] /\
  coherent (fun l => l) demo_origin demo_mounts f'.
Proof.
  split; [vm_compute; reflexivity|].
  apply (pipeline_coherent (L := Lru.list_lru) (fun l => l) demo_origin demo_mounts demo_collision_free
    true true (fun _ => true) 1024 ∅ demo_cache demo (Index.new "a" 64) 4 0 2 2 2 1 false true 16 3 3 1 0);
    [exact demo_named|vm_compute; reflexivity|].
  eapply reach_step; [apply reach_start|].
  eapply op_intro; [exact demo_honest|]. apply act_fetch, demo_known. lia.
Defined.

Lemma fetch_chunk_correct_witness :
  (fetch_chunk_inner (fun l => l) demo_env demo_mount "f" 8 2 false demo_fetcher).2 = Ok (str_bytes "89").
Proof.
  pose proof (fetch_chunk_correct (L := Lru.list_lru) (fun l => l) demo_origin demo_mounts 4 demo_env
    demo_mount "f" 8 false demo_fetcher demo_coherent eq_refl demo_honest
    (demo_known 8 ltac:(lia))) as H.
  cbv zeta in H. change (len (chunk_of demo_origin demo_mounts 4 (chunk_key demo_mount "f" 8))) with 2 in H.
  revert H.
  generalize (fetch_chunk_inner (L := Lru.list_lru) (fun l => l) demo_env demo_mount "f" 8 2 false
    demo_fetcher). intros [f' r] (_ & _ & _ & H). cbn [snd].
  rewrite H; [vm_compute; reflexivity|reflexivity|by eexists|]. apply (bool_decide_unpack _). vm_compute. exact I.
Defined.

Lemma demo_readable : readable demo_origin demo_mounts demo_env 4 demo_mount "f" demo_fetcher.
Proof.
  split; [done|]. intros o Ho. split_and!; [done|by eexists|]. simpl. apply not_elem_of_empty.
Qed.

Lemma fetch_range_correct_witness :
  (fetch_range (fun l => l) demo_env demo_mount "f" 3 6 10 demo_fetcher).1.2 = Ok (str_bytes "345678").
Proof.
  pose proof (fetch_range_correct (L := Lru.list_lru) (fun l => l) demo_origin demo_mounts 4 demo_env
    demo_mount "f" 3 6 demo_fetcher demo_coherent eq_refl demo_honest) as H.
  cbv zeta in H. change (len (content demo_origin demo_mounts (Conf.name demo_mount) "f")) with 10 in H.
  specialize (H ltac:(lia) eq_refl).
  assert (Hn : x00 ∉ str_bytes (Conf.name demo_mount))
    by (apply (bool_decide_unpack _); vm_compute; exact I).
  specialize (H Hn ltac:(done) ltac:(lia) ltac:(lia)).
  revert H. generalize (fetch_range (L := Lru.list_lru) (fun l => l) demo_env demo_mount "f" 3 6 10
    demo_fetcher). intros [[f' r] pf] (_ & _ & H). cbn [fst snd].
  rewrite H; [vm_compute; reflexivity|exact demo_readable|done].
Defined.
End Fetch.
