(* ===== verification/BlobPool.v ===== *)
(** * The pool of blob clients (src/src/blob_fetcher_pool.rs)

    One client per mount and worker runtime; range reads go round the workers.  The pool is what
    the fetch pipeline calls the origin: [pool_origin_honest] turns an honest storage service into
    the [Fetch.honest] origin the pipeline's theorems assume. *)

From S2P Require Import Prelude ChunkKeys Config PeerLru HttpApi Auth Azure Fetcher.

Module Pool.
Import HttpApi.

(** The clients of one worker runtime, by mount. *)
Record Worker := mkWorker { blobs : gmap string Azure.BlobClient }.

Record BlobFetcherPool := mkPool {
  workers : list Worker;
  next : Z;
  view : gmap string Azure.BlobClient
}.

(** ** Construction *)
Inductive PoolError : Type :=
| RuntimeError (worker : Z) (msg : string)
| CredentialError (mount : string) (worker : Z) (e : BcError)
| ClientError (e : HttpError).

(** What construction meets: the runtime builder, the token sources and the client builder. *)
Record Host := mkHost {
  build_runtime : Z -> result string unit;
  identity : Z -> string -> Auth.Identity;
  build_client : Z -> string -> result HttpError unit
}.

Section construction.
Context (K : Host).

(** The inner loop over the mounts. *)
Fixpoint open_mounts (i : Z) (ms : list Conf.MountConfig) (blobs : gmap string Azure.BlobClient)
    (a : Auth.Ambient) : Auth.Ambient * result PoolError (gmap string Azure.BlobClient) :=
  match ms with
  | [] => (a, Ok blobs)
  | m :: t =>
      match Auth.resolve (identity K i (Conf.name m)) (Conf.sas_token m) a with
      | (a, Err e) => (a, Err (CredentialError (Conf.name m) i e))
      | (a, Ok cred) =>
          match build_client K i (Conf.name m) with
          | Err e => (a, Err (ClientError e))
          | Ok _ => open_mounts i t (<[Conf.name m := Azure.new cred true]> blobs) a
          end
      end
  end.

(** The outer loop: [n] more workers, the next of them number [i]. *)
Fixpoint open_workers (n : nat) (i : Z) (ms : list Conf.MountConfig) (a : Auth.Ambient)
    : Auth.Ambient * result PoolError (list Worker) :=
  match n with
  | O => (a, Ok [])
  | S n =>
      match build_runtime K i with
      | Err e => (a, Err (RuntimeError i e))
      | Ok _ =>
          match open_mounts i ms ∅ a with
          | (a, Err e) => (a, Err e)
          | (a, Ok blobs) =>
              let '(a, r) := open_workers n (i + 1) ms a in (a, let? ws := r in Ok (mkWorker blobs :: ws))
          end
      end
  end.

Definition new (ms : list Conf.MountConfig) (n_workers : Z) (a : Auth.Ambient)
    : Auth.Ambient * result PoolError BlobFetcherPool :=
  let '(a, r) := open_workers (Z.to_nat (Z.max n_workers 1)) 0 ms a in
  (a, let? ws := r in
      Ok (mkPool ws 0 (match ws with w :: _ => blobs w | [] => ∅ end))).
End construction.

Definition worker_count (p : BlobFetcherPool) : Z := len (workers p).

Definition blob_for (mount : string) (p : BlobFetcherPool) : option Azure.BlobClient := view p !! mount.

(** ** Range reads *)

(** The worker of the next request. *)
Definition pick (p : BlobFetcherPool) : Z := next p mod len (workers p).

Section reads.
Context {H : HeaderMap} {U : UrlApi} (W : Azure.World).
Context (sign : string -> string -> string -> url -> header_map -> option Z -> run string).
(** The text of a task's panic. *)
Context (panic_text : string).

(** [None] when the client's loops run out of fuel, which they do not ([pool_answers]). *)
Definition get_blob_range (mount account container blob_path : string) (offset length : Z)
    (p : BlobFetcherPool) (c : Azure.Conn) : BlobFetcherPool * Azure.Conn * option (res Bytes) :=
  let w := workers p !! Z.to_nat (pick p) in
  let p := mkPool (workers p) (wadd64 (next p) 1) (view p) in
  match w ≫= (fun w => blobs w !! mount) with
  | None => (p, c, Some (Err (Other ("no blob client for mount " +:+ mount))))
  | Some client =>
      let '(c, r) := Azure.get_blob_range W sign client account container blob_path offset length c in
      (p, c, match r with
             | Some (Returns r) => Some r
             | Some Panics => Some (Err (Other ("blob worker join: " +:+ panic_text)))
             | None => None
             end)
  end.

(** ** Lemmas *)
Definition pool_ok (p : BlobFetcherPool) : Prop :=
  workers p <> [] /\
  forall w n cl, w ∈ workers p -> blobs w !! n = Some cl -> Azure.config_ok cl.

Lemma pick_worker p : workers p <> [] -> exists w, workers p !! Z.to_nat (pick p) = Some w.
Proof.
  intros Hne. apply lookup_lt_is_Some. unfold pick, len.
  destruct (workers p) as [|w l]; [done|].
  pose proof (Z.mod_pos_bound (next p) (Z.of_nat (length (w :: l))) ltac:(simpl; lia)). lia.
Qed.

Lemma pool_answers m a k b o n p c :
  Azure.clocks_ok W -> pool_ok p -> is_Some (get_blob_range m a k b o n p c).2.
Proof.
  intros Hck [_ Hp]. unfold get_blob_range.
  destruct (workers p !! Z.to_nat (pick p)) as [w|] eqn:Ew; simpl; [|done].
  destruct (blobs w !! m) as [cl|] eqn:Em; simpl; [|done].
  apply list_elem_of_lookup_2 in Ew. specialize (Hp w m cl Ew Em).
  pose proof (Azure.get_blob_range_returns W sign cl a k b o n c Hck Hp) as Hr.
  destruct (Azure.get_blob_range _ _ _ _ _ _ _ _ _) as [c' [[r|]|]]; simpl; [done|done|].
  by destruct Hr.
Qed.

Lemma pool_range_correct stored m a k b o n p c p' c' d :
  Azure.honest_service W stored -> is_u64 o -> 0 < n <= u64_max ->
  get_blob_range m a k b o n p c = (p', c', Some (Ok d)) ->
  d = slice (Azure.blob_origin stored a k b) o (Z.min (o + n) (len (Azure.blob_origin stored a k b))).
Proof.
  intros Hsv Ho Hn. unfold get_blob_range. destruct (_ ≫= _) as [cl|]; [|done].
  destruct (Azure.get_blob_range _ _ _ _ _ _ _ _ _) as [c1 [[r|]|]] eqn:E; [|done..].
  intros [= _ _ ->]. by eapply Azure.get_blob_range_correct.
Qed.

(** Fewer than a full turn apart, requests go to different workers. *)
Lemma round_robin_spread p i j :
  workers p <> [] -> i < j < i + len (workers p) ->
  (next p + i) mod len (workers p) <> (next p + j) mod len (workers p).
Proof.
  intros Hne Hij. assert (Hpos : 0 < len (workers p)) by (destruct (workers p); [done|unfold len; simpl; lia]).
  set (l := len (workers p)) in *. clearbody l. intros Heq.
  assert (Hd : (j - i) mod l = 0).
  { replace (j - i) with ((next p + j) - (next p + i)) by lia.
    rewrite Zminus_mod, Heq, Z.sub_diag. by apply Z.mod_0_l; lia. }
  rewrite Z.mod_small in Hd by lia. lia.
Qed.
End reads.

(** *** Credentials *)
Definition one_source (w : Worker) : Prop :=
  forall n cl i, blobs w !! n = Some cl -> Azure.credential cl = Auth.Bearer i -> i = O.

Lemma open_mounts_source K i ms b a a' r :
  Auth.ambient_ok a -> open_mounts K i ms b a = (a', r) ->
  Auth.ambient_ok a' /\ (one_source (mkWorker b) -> forall b', r = Ok b' -> one_source (mkWorker b')) /\
  ((forall n cl, b !! n = Some cl -> Azure.config_ok cl) ->
   forall b', r = Ok b' -> forall n cl, b' !! n = Some cl -> Azure.config_ok cl).
Proof.
  revert b a. induction ms as [|m t IH]; intros b a Ha; simpl.
  { intros [= <- <-]. split_and!; [done|intros ? ? [= <-]; done..]. }
  destruct (Auth.resolve _ _ a) as [a1 rc] eqn:Er.
  destruct (Auth.resolve_cases _ _ _ _ _ Ha Er) as [Ha1 Hc]. destruct rc as [cred|e].
  2: { intros [= <- <-]. by split_and!. }
  destruct (build_client K i (Conf.name m)); [|intros [= <- <-]; by split_and!].
  intros Ho. destruct (IH _ _ Ha1 Ho) as (Ha2 & H1 & H2). split_and!; [done| |].
  - intros Hb. apply H1. intros n cl j. simpl. rewrite lookup_insert. case_decide; [|by apply Hb].
    intros [= <-] Hj. simpl in Hj. subst cred. by destruct Hc as (_ & _ & -> & _).
  - intros Hb. apply H2. intros n cl. rewrite lookup_insert. case_decide; [|by apply Hb].
    intros [= <-]. unfold Azure.config_ok. simpl. unfold u32_max, u32_mod. lia.
Qed.

Lemma open_workers_source K n i ms a a' r :
  Auth.ambient_ok a -> open_workers K n i ms a = (a', r) ->
  Auth.ambient_ok a' /\ forall ws, r = Ok ws -> length ws = n /\ Forall one_source ws /\
    Forall (fun w => forall m cl, blobs w !! m = Some cl -> Azure.config_ok cl) ws.
Proof.
  revert i a a' r. induction n as [|n IH]; intros i a a' r Ha; simpl.
  { intros [= <- <-]. split; [done|]. by intros ws [= <-]. }
  destruct (build_runtime K i); [|intros [= <- <-]; by split].
  destruct (open_mounts K i ms ∅ a) as [a1 [b|e]] eqn:Eo.
  2: { intros [= <- <-]. apply (open_mounts_source K i ms ∅ a) in Eo as [? _]; [|done]. by split. }
  apply (open_mounts_source K i ms ∅ a) in Eo as (Ha1 & H1 & H2); [|done].
  destruct (open_workers K n (i + 1) ms a1) as [a2 r2] eqn:Ew. intros [= <- <-].
  apply IH in Ew as [Ha2 Hws]; [|done]. split; [done|]. intros ws. destruct r2 as [l|e]; [|done].
  intros [= <-]. destruct (Hws l eq_refl) as (Hl & Hf & Hc). simpl. split_and!; [lia| |].
  - constructor; [by apply H1|done].
  - constructor; [by apply H2|done].
Qed.

(** A pool that was built is usable, and all its clients share one token source. *)
Lemma new_pool_ok K ms n a a' p :
  Auth.ambient_ok a -> new K ms n a = (a', Ok p) ->
  pool_ok p /\ len (workers p) = Z.max n 1 /\ Forall one_source (workers p).
Proof.
  intros Ha. unfold new. destruct (open_workers _ _ _ _ _) as [a1 r] eqn:Eo.
  apply open_workers_source in Eo as [_ Hws]; [|done]. destruct r as [ws|e]; [|done].
  intros [= _ <-]. destruct (Hws ws eq_refl) as (Hl & Hs & Hc). simpl. split_and!; [|unfold len; lia|done].
  split; simpl; [intros ->; simpl in Hl; lia|]. intros w m cl Hw. rewrite Forall_forall in Hc.
  by apply (Hc w Hw).
Qed.

(** ** The pool as the origin of the pipeline *)
Section origin.
Context {H : HeaderMap} {U : UrlApi} (W : Azure.World).
Context (sign : string -> string -> string -> url -> header_map -> option Z -> run string).
Context (panic_text : string).

(** Every range read of the pipeline's environment is a read through a pool, in whatever state
    pool and connection are. *)
Definition reads_through (E : Fetch.Env) : Prop :=
  forall m a k b o n, exists p c p' c', pool_ok p /\
    get_blob_range W sign panic_text m a k b o n p c
    = (p', c', Some (Fetch.get_blob_range E m a k b o n)).

(** C10.  The Azure client makes the origin the pipeline assumes: over a storage service that answers
    a successful ranged read with that range of the blob, and whatever else it fails, throttles or
    cuts off, an environment whose range reads go through the pool of clients has an honest origin -
    for the blobs as the client's URLs address them, chunks of any size up to the address space, and
    retries, token refreshes and panics included. *)
Theorem pool_origin_honest stored M cs E :
  Azure.honest_service W stored -> 0 < cs <= u64_max -> reads_through E ->
  (forall p u a k n w d, Fetch.fetch_peer E p u a k n w = Ok d ->
     d `prefix_of` Fetch.chunk_of (Azure.blob_origin stored) M cs k) ->
  (forall k d, Fetch.follow E k = Fetch.Got d ->
     d `prefix_of` Fetch.chunk_of (Azure.blob_origin stored) M cs k) ->
  Fetch.honest (Azure.blob_origin stored) M cs E.
Proof.
  intros Hsv Hcs Hr Hp Hf. split; [done|done|]. intros m a k b o d Ho Hg.
  destruct (Hr m a k b o cs) as (p & c & p' & c' & _ & Hget). rewrite Hg in Hget.
  by eapply pool_range_correct.
Qed.
End origin.

(** ** A pool of two workers over the small service *)
Definition demo_pool : BlobFetcherPool :=
  mkPool [mkWorker {["m" := Azure.demo_client]}; mkWorker {["m" := Azure.demo_client]}] 0
    {["m" := Azure.demo_client]}.

Definition demo_read (m a k b : string) (o n : Z) : res Bytes :=
  default (Err (Other "")) (get_blob_range Azure.demo_world Azure.demo_sign "panic" m a k b o n
                              demo_pool Azure.demo_conn).2.

Definition demo_env : Fetch.Env :=
  Fetch.mkEnv true "" true false (fun _ => None) (fun _ _ _ _ _ _ => Err (NotFound "chunk"))
    demo_read (fun _ => Fetch.Dropped) (fun _ => None).

Lemma demo_pool_ok : pool_ok demo_pool.
Proof.
  split; [done|]. intros w n cl Hw Hn.
  assert (Hb : blobs w = {["m" := Azure.demo_client]}) by (clear Hn; set_solver).
  rewrite Hb in Hn. apply lookup_singleton_Some in Hn as [_ <-]. exact Azure.demo_config.
Qed.

Lemma demo_reads_through : reads_through Azure.demo_world Azure.demo_sign "panic" demo_env.
Proof.
  intros m a k b o n. exists demo_pool, Azure.demo_conn. simpl. unfold demo_read.
  pose proof (pool_answers Azure.demo_world Azure.demo_sign "panic" m a k b o n demo_pool Azure.demo_conn) as Ha.
  destruct (get_blob_range _ _ _ _ _ _ _ _ _ _ _) as [[p' c'] [r|]].
  - exists p', c'. split; [exact demo_pool_ok|done].
  - destruct Ha as [? Ha]; [intros i; simpl; lia|exact demo_pool_ok|done].
Qed.

Lemma pool_origin_honest_witness :
  demo_read "m" "acct" "cont" "f" 4 4 = Ok (str_bytes "4567") /\
  Fetch.honest (Azure.blob_origin (fun _ _ => Azure.demo_blob)) Fetch.demo_mounts 4 demo_env.
Proof.
  split; [vm_compute; reflexivity|].
  apply (pool_origin_honest Azure.demo_world Azure.demo_sign "panic").
  - exact Azure.demo_honest_service.
  - unfold u64_max, u64_mod. lia.
  - exact demo_reads_through.
  - done.
  - done.
Defined.
End Pool.
