(* ===== verification/Mesh.v ===== *)
(** * The cluster of nodes that fetch from each other

    The pipeline of one node ([Fetch]) assumes that peers and the leaders of its own singleflight
    hand out pieces of the right chunk.  Here the assumption is discharged: a mesh is a map of
    nodes, a peer's answer is what a real transport ([Transport.PeerTransport], HTTP or RDMA) gets
    from a state the peer has been in - its cache, or [serve_peer_chunk] behind the chunk provider -
    and a follower receives what a fetch of its own node produced.  Only the origin is trusted.
    A node keeps the list of its states, since a reply may be older than the present. *)

From S2P Require Import Prelude ChunkKeys DiskCache Cluster PeerIndex Config PeerLru HttpApi Transport Fetcher.

Module Mesh.
Import Fetch.

Section mesh.
Context {L : Lru.LruCache} (sha256 : Bytes -> Bytes) (origin : string -> string -> string -> Bytes).
Context (M : gmap string Conf.MountConfig) (cs : Z).
Context (Hsha : collision_free sha256) (Hnamed : mounts_named M).

(** The states of a node, the latest first, and the chunks its fetches returned. *)
Record Node := mkNode {
  states : list Fetcher;
  produced : list (ChunkKey * Bytes)
}.

Abbreviation Net := (gmap string Node).

(** The origin answers a chunk's range with that range. *)
Definition honest_origin (E : Env) : Prop :=
  forall nm a c p off d, is_u64 off -> get_blob_range E nm a c p off cs = Ok d ->
  d = slice (origin a c p) off (Z.min (off + cs) (len (origin a c p))).

(** Followers of node [id] receive what its fetches returned. *)
Definition follows (s : Net) (id : string) (E : Env) : Prop :=
  forall k d, follow E k = Got d -> exists nd, s !! id = Some nd /\ (k, d) ∈ produced nd.

(** The chunk provider of a node in state [g] ([chunk_provider] in main.rs). *)
Definition provider_of (E : Env) (in_time : bool) (g : Fetcher) : Transport.Provider :=
  fun k n _ => (serve_peer_chunk sha256 E in_time k n g).2.

(** [d] is what some transport fetches for [k] from some node, in a state it has been in and with
    or without its provider. *)
Definition peer_says (s : Net) (k : ChunkKey) (d : Bytes) : Prop :=
  exists (tr : Transport.PeerTransport sha256) id nd g E in_time (with_provider : bool) n w,
    s !! id = Some nd /\ g ∈ states nd /\ honest_origin E /\ follows s id E /\
    Transport.wf_request k n w /\ valid_key k /\
    Transport.tr_fetch (cache g) (if with_provider then Some (provider_of E in_time g) else None) k n w = Ok d.

(** What node [id] meets when it acts: an honest origin, its peers, its own leaders. *)
Definition world (s : Net) (id : string) (E : Env) : Prop :=
  honest_origin E /\ follows s id E /\
  forall p u a k n w d, fetch_peer E p u a k n w = Ok d -> peer_says s k d.

Definition record (id : string) (nd : Node) (f : Fetcher) (l : list (ChunkKey * Bytes)) (s : Net) : Net :=
  <[id := mkNode (f :: states nd) (l ++ produced nd)]> s.

(** A node joins with an empty cache, fetches a chunk, or does anything else a node does. *)
Inductive step (s : Net) : Net -> Prop :=
| step_join id mkdir_ok readdir_ok stat_ok max d c mem idx bsize cc depth thr pfc oo onp lru mc my mm wait :
    s !! id = None -> Cache.open mkdir_ok readdir_ok stat_ok max d = Ok c ->
    step s (<[id := mkNode [new c mem idx cs bsize cc depth thr pfc oo onp lru mc my mm wait M] []]> s)
| step_fetch id nd f f' r rest E m b off n bypass :
    s !! id = Some nd -> states nd = f :: rest -> world s id E -> known M m b off ->
    fetch_chunk_inner sha256 E m b off n bypass f = (f', r) ->
    step s (record id nd f' (match r with Ok d => [(chunk_key m b off, d)] | Err _ => [] end) s)
| step_act id nd f f' rest E :
    s !! id = Some nd -> states nd = f :: rest -> world s id E ->
    act sha256 origin M cs E f f' -> step s (record id nd f' [] s).

Inductive reachable : Net -> Prop :=
| reach_empty : reachable ∅
| reach_next s s' : reachable s -> step s s' -> reachable s'.

(** ** Lemmas *)
Record good (nd : Node) : Prop := {
  go_states f : f ∈ states nd -> node_ok sha256 origin M cs f;
  go_produced k d : (k, d) ∈ produced nd -> d `prefix_of` chunk_of origin M cs k
}.

Definition all_good (s : Net) : Prop := map_Forall (fun _ => good) s.

(** An environment with no peers at all. *)
Definition alone (E : Env) : Env :=
  mkEnv (joined E) (join_error E) (read_ok E) (rdma E) (b64_decode E)
    (fun _ _ _ _ _ _ => Err (NotFound "alone")) (get_blob_range E) (follow E) (task_error E).

Lemma follows_honest s id E k d :
  all_good s -> follows s id E -> follow E k = Got d -> d `prefix_of` chunk_of origin M cs k.
Proof using Type. intros Hs Hf (nd & Hnd & Hin)%Hf. by apply (go_produced nd (Hs _ _ Hnd)). Qed.

(** Serving a peer does not ask other peers. *)
Lemma provider_alone E in_time g k n w :
  provider_of E in_time g k n w = provider_of (alone E) in_time g k n w.
Proof using Type. reflexivity. Qed.

Lemma alone_honest s id E :
  all_good s -> honest_origin E -> follows s id E -> honest origin M cs (alone E).
Proof using Type.
  intros Hs Ho Hf. split; simpl; [done| |exact Ho]. intros k d. by apply (follows_honest s id E).
Qed.

Lemma peer_says_piece s k d : all_good s -> peer_says s k d -> d `prefix_of` chunk_of origin M cs k.
Proof using Hsha Hnamed.
  intros Hs (tr & id & nd & g & E & in_time & wp & n & w & Hnd & Hg & Ho & Hf & Hwf & Hk & Hd).
  destruct (go_states nd (Hs _ _ Hnd) g Hg) as (Hc & Hcs & HM).
  apply Transport.tr_sound in Hd; [|done]. destruct Hd as [(file & He & Hfile & Hp)|(f & n' & w' & Hpr & Hd)].
  - etransitivity; [exact Hp|]. rewrite <- Hcs. by apply (ck_file _ _ _ _ _ (co_cache _ _ _ _ Hc)).
  - destruct wp; [|done]. injection Hpr as <-. rewrite provider_alone in Hd.
    pose proof (serve_peer_chunk_leaves sha256 origin M (alone E) cs (alone_honest s id E Hs Ho Hf)
      in_time k n' g Hc Hcs Hk HM Hnamed) as (_ & _ & _ & Ha).
    by destruct (Ha d Hd).
Qed.

Lemma world_honest s id E : all_good s -> world s id E -> honest origin M cs E.
Proof using Hsha Hnamed.
  intros Hs (Ho & Hf & Hp). split; [|by intros k d; apply (follows_honest s id)|exact Ho].
  intros p u a k n w d Hd. by eapply peer_says_piece, Hp.
Qed.

Lemma all_good_record s id nd f l :
  all_good s -> s !! id = Some nd -> node_ok sha256 origin M cs f ->
  (forall k d, (k, d) ∈ l -> d `prefix_of` chunk_of origin M cs k) ->
  all_good (record id nd f l s).
Proof using Type.
  intros Hs Hnd Hf Hl. apply map_Forall_insert_2; [|done].
  destruct (Hs _ _ Hnd) as [H1 H2]. split; simpl.
  - intros g [->|Hg]%elem_of_cons; auto.
  - intros k d [Hin|Hin]%elem_of_app; eauto.
Qed.

Lemma mesh_step_good s s' : step s s' -> all_good s -> all_good s'.
Proof using Hsha Hnamed.
  intros Hst Hs. destruct Hst as [id mo ro so mx d c mem idx bs cc dp th pfc oo onp lru mc my mm wt Hid Ho
                                 |id nd f f' r rest E m b off n bypass Hnd Hf Hw Hk Hfe
                                 |id nd f f' rest E Hnd Hf Hw Hact].
  - apply map_Forall_insert_2; [|done]. split; simpl; [|by intros k x Hin%not_elem_of_nil].
    intros f Hf. apply list_elem_of_singleton in Hf as ->. by eapply new_node_ok.
  - pose proof (world_honest s id E Hs Hw) as Hho.
    assert (Hok : node_ok sha256 origin M cs f)
      by (apply (go_states nd (Hs _ _ Hnd)); rewrite Hf; apply list_elem_of_here).
    pose proof Hok as (Hc & Hcs & _).
    pose proof (fetch_chunk_inner_leaves sha256 origin M E cs Hho m b off n bypass f Hc Hcs Hk) as Hl.
    pose proof (leaves_node_ok sha256 origin M cs f _ _ Hok Hl) as Hok'.
    rewrite Hfe in Hl, Hok'.
    apply all_good_record; [done..|]. intros k d Hin. destruct r as [x|e].
    + apply list_elem_of_singleton in Hin as [= -> ->]. destruct Hl as (_ & _ & _ & Hq).
      by destruct (Hq x eq_refl).
    + by apply not_elem_of_nil in Hin.
  - assert (Hok : node_ok sha256 origin M cs f)
      by (apply (go_states nd (Hs _ _ Hnd)); rewrite Hf; apply list_elem_of_here).
    apply all_good_record; [done|done| |by intros k d Hin%not_elem_of_nil].
    eapply (op_node_ok sha256 origin M Hsha cs f f' Hnamed); [|done].
    eapply op_intro; [by eapply world_honest|exact Hact].
Qed.

Lemma mesh_reachable_good s : reachable s -> all_good s.
Proof using Hsha Hnamed.
  induction 1 as [|s s' _ IH Hst]; [apply map_Forall_empty|by eapply mesh_step_good].
Qed.

(** ** Theorem *)

(** C3.  Only the origin has to be trusted: from an empty mesh, whatever nodes join and whatever
    they do - fetch and read with the answers of peers over HTTP or RDMA, out of the peers' caches
    or through the stampede provider, and out of states the peers have long left; follow their own
    leaders; serve, broadcast, prefetch, insert, evict, clear, gossip - every state of every node is
    coherent, every chunk a fetch ever returned is a piece of the blob, and a node that fetches a
    chunk gets the bytes of the blob or an error. *)
Theorem mesh_coherent s :
  reachable s ->
  (forall id nd f, s !! id = Some nd -> f ∈ states nd -> coherent sha256 origin M f) /\
  (forall id nd k d, s !! id = Some nd -> (k, d) ∈ produced nd -> d `prefix_of` chunk_of origin M cs k) /\
  (forall id nd f E m b off bypass f' d, s !! id = Some nd -> f ∈ states nd -> world s id E ->
     known M m b off ->
     fetch_chunk_inner sha256 E m b off (len (chunk_of origin M cs (chunk_key m b off))) bypass f = (f', Ok d) ->
     d = chunk_of origin M cs (chunk_key m b off)).
Proof using Hsha Hnamed.
  intros Hr%mesh_reachable_good. split_and!.
  - intros id nd f Hnd Hf. by apply (go_states nd (Hr _ _ Hnd)).
  - intros id nd k d Hnd. apply (go_produced nd (Hr _ _ Hnd)).
  - intros id nd f E m b off bypass f' d Hnd Hf Hw Hk Hfetch.
    destruct (go_states nd (Hr _ _ Hnd) f Hf) as (Hc & Hcs & _).
    pose proof (fetch_chunk_inner_leaves sha256 origin M E cs (world_honest s id E Hr Hw) m b off
      (len (chunk_of origin M cs (chunk_key m b off))) bypass f Hc Hcs Hk) as (_ & _ & _ & Hq).
    rewrite Hfetch in Hq. destruct (Hq d eq_refl). by apply prefix_full.
Qed.
End mesh.

(** ** Two nodes: the first caches a chunk of the small blob, the second fetches it over HTTP *)
#[local] Existing Instance Lru.list_lru.
Abbreviation demo_sha := (fun l : Bytes => l).
Definition demo_key : ChunkKey := chunk_key demo_mount "f" 4.

Definition demo_a1 : @Fetcher Lru.list_lru :=
  (fetch_chunk_inner demo_sha demo_env demo_mount "f" 4 4 false demo_fetcher).1.
Definition demo_a2 : @Fetcher Lru.list_lru :=
  finish_insert demo_sha ".tmp.1.x" (inr None) demo_key (str_bytes "4567") (set_spawned [] demo_a1).
Definition demo_b : @Fetcher Lru.list_lru :=
  new (L := Lru.list_lru) demo_cache
    (Cluster.merge 100 [Cluster.demo_node "a" 1 100 Cluster.Alive]
       (Cluster.new (Cluster.demo_node "b" 1 100 Cluster.Alive) Cluster.demo_stats)).1
    (Index.new "b" 64) 4 0 2 2 2 1 false true 16 3 3 1 0 demo_mounts.

Definition demo_node_a : Node := mkNode [demo_a2; demo_a1; demo_fetcher] [(demo_key, str_bytes "4567")].
Definition demo_net : gmap string Node :=
  <["b" := mkNode [demo_b] []]> (<["a" := demo_node_a]>
    (<["a" := mkNode [demo_a1; demo_fetcher] [(demo_key, str_bytes "4567")]]>
      (<["a" := mkNode [demo_fetcher] []]> ∅))).

(** The peer answers for the one chunk. *)
Definition demo_env_b : Env :=
  mkEnv true "" true false (fun _ => None)
    (fun _ _ _ k n w => if decide (k = demo_key /\ n = 4 /\ w = 0) then Ok (str_bytes "4567")
                        else Err (NotFound "peer miss"))
    (get_blob_range demo_env) (fun _ => Dropped) (fun _ => None).

Lemma demo_origin_honest E :
  get_blob_range E = get_blob_range demo_env -> honest_origin demo_origin 4 E.
Proof. intros HE nm a c p off d _. rewrite HE. by intros [= <-]. Qed.

Lemma demo_world s id : world demo_sha demo_origin 4 s id demo_env.
Proof. split_and!; [by apply demo_origin_honest|done|done]. Qed.

Lemma demo_a1_fetch :
  fetch_chunk_inner demo_sha demo_env demo_mount "f" 4 4 false demo_fetcher = (demo_a1, Ok (str_bytes "4567")).
Proof.
  assert (Hr : (fetch_chunk_inner demo_sha demo_env demo_mount "f" 4 4 false demo_fetcher).2
               = Ok (str_bytes "4567")) by (vm_compute; reflexivity).
  rewrite <- Hr. apply surjective_pairing.
Qed.

Lemma demo_mesh_reachable : reachable demo_sha demo_origin demo_mounts 4 demo_net.
Proof.
  assert (Hopen : Cache.open true true (fun _ => true) 1024 ∅ = Ok demo_cache) by (vm_compute; reflexivity).
  eapply reach_next; [eapply reach_next; [eapply reach_next; [eapply reach_next; [apply reach_empty|]|]|]|].
  - by eapply (step_join _ _ _ _ ∅ "a").
  - eapply (step_fetch _ _ _ _ _ "a" (mkNode [demo_fetcher] []) demo_fetcher demo_a1
      (Ok (str_bytes "4567")) [] demo_env demo_mount "f" 4 4 false);
      [apply lookup_insert_eq|done|apply demo_world|apply (demo_known 4); lia|exact demo_a1_fetch].
  - eapply (step_act _ _ _ _ _ "a" (mkNode [demo_a1; demo_fetcher] [(demo_key, str_bytes "4567")])
      demo_a1 demo_a2 [demo_fetcher]); [apply lookup_insert_eq|done|apply demo_world|].
    apply (act_finish _ _ _ _ _ _ ".tmp.1.x" (inr None) [] demo_key (str_bytes "4567") []);
      [vm_compute; reflexivity|reflexivity].
  - by eapply (step_join _ _ _ _ _ "b").
Qed.

Lemma demo_peer_says : peer_says demo_sha demo_origin 4 demo_net demo_key (str_bytes "4567").
Proof.
  exists (Transport.tcp_transport (P := Transport.percent_codec) (U := HttpApi.plain_url) demo_sha true true (fun _ => []) show Transport.demo_refused
            "https://peer:7000" Transport.demo_origin).
  exists "a", demo_node_a, demo_a2, demo_env, true, false, 4, 0.
  split_and!; [reflexivity|apply list_elem_of_here|by apply demo_origin_honest|done| | |vm_compute; reflexivity].
  - split; vm_compute; intuition congruence.
  - apply (demo_known 4). lia.
Qed.

Lemma demo_world_b : world demo_sha demo_origin 4 demo_net "b" demo_env_b.
Proof.
  split_and!; [by apply demo_origin_honest|done|]. intros p u a k n w d. simpl.
  case_decide as Hd; [|done]. destruct Hd as (-> & _ & _). intros [= <-]. exact demo_peer_says.
Qed.

Lemma mesh_coherent_witness :
  let r := fetch_chunk_inner demo_sha demo_env_b demo_mount "f" 4 4 false demo_b in
  stats r.1 !! "peer_fetches_ok" = Some 1 /\
  ok r.2 = Some (chunk_of demo_origin demo_mounts 4 (chunk_key demo_mount "f" 4)).
Proof.
  intros r. split; [vm_compute; reflexivity|].
  assert (Hok : is_ok r.2 = true) by (vm_compute; reflexivity).
  destruct r as [f' [d|e]] eqn:Er; [|done]. cbn [snd ok]. f_equal.
  destruct (mesh_coherent demo_sha demo_origin demo_mounts 4 demo_collision_free demo_named demo_net
    demo_mesh_reachable) as (_ & _ & Hfetch).
  eapply (Hfetch "b" (mkNode [demo_b] []) demo_b demo_env_b demo_mount "f" 4 false);
    [reflexivity|apply list_elem_of_here|exact demo_world_b|apply (demo_known 4); lia|exact Er].
Defined.
End Mesh.
