(* ===== verification/Hydrate.v ===== *)
(** * Hydration: pre-warming the caches of a cluster (src/src/hydrate.rs)

    The coordinator lists blobs, cuts them into chunks, deals the chunks to the alive nodes, waits
    for their shards (phase A) and, in broadcast or ring mode, lets every node pull the shards of
    the others (phase B).  The workers run on the local [Fetcher]; the other nodes and the HTTP
    layer are the record [World], which gives a peer's answer to a request.  Wall-clock readings
    are arguments ([Clock]); the floating-point rates and the logging are left out. *)

From S2P Require Import Prelude ChunkKeys DiskCache Cluster PeerIndex Config PeerLru Fetcher.

Module Hydrate.
Import Cluster.
Abbreviation Bytes := (list byte).

(** ** Messages *)
Record ChunkSpec := mkChunkSpec {
  blob : string;
  offset : Z;
  clen : Z
}.

#[export] Instance ChunkSpec_eq_decision : EqDecision ChunkSpec.
Proof. solve_decision. Defined.

Record HydrateShardRequest := mkShardRequest {
  sh_mount : string;
  sh_chunks : list ChunkSpec
}.

(** [elapsed_ms], [start_unix_ms] and [end_unix_ms] of an answer. *)
Record Clock := mkClock {
  elapsed_ms : Z;
  start_unix_ms : Z;
  end_unix_ms : Z
}.

Record HydrateShardResponse := mkShardResponse {
  sr_fetched : Z;
  sr_bytes : Z;
  sr_errors : list string;
  sr_clock : Clock
}.

Inductive HydrateMode : Type :=
| Default
| Broadcast
| Ring.

#[export] Instance HydrateMode_eq_decision : EqDecision HydrateMode.
Proof. solve_decision. Defined.

Record HydrateRequest := mkHydrateRequest {
  hy_mount : string;
  hy_path : string;
  hy_recursive : option bool;
  hy_mode : option HydrateMode
}.

Record BroadcastSource := mkSource {
  node_id : string;
  src_transport_url : string;
  src_worker_b64 : option string;
  chunks : list ChunkSpec
}.

Record HydrateBroadcastShardRequest := mkBroadcastRequest {
  br_mount : string;
  br_sources : list BroadcastSource
}.

Record HydrateBroadcastShardResponse := mkBroadcastResponse {
  bs_fetched : Z;
  bs_bytes : Z;
  bs_errors : list string;
  bs_clock : Clock;
  bs_assigned : Z
}.

Record HydrateRingStepRequest := mkRingRequest {
  rg_mount : string;
  rg_step : Z;
  rg_source_node_id : string;
  rg_prev_node_id : string;
  rg_prev_transport_url : string;
  rg_prev_worker_b64 : option string;
  rg_chunks : list ChunkSpec
}.

(** The two durations of the answer and its two time stamps. *)
Record HydrateRingStepResponse := mkRingResponse {
  rr_fetched : Z;
  rr_bytes : Z;
  rr_errors : list string;
  rr_pulls_ms : Z;
  rr_drain_ms : Z;
  rr_start_unix_ms : Z;
  rr_end_unix_ms : Z
}.

Record RingStepPerPod := mkRingPod {
  rp_node_id : string;
  rp_fetched : Z;
  rp_bytes : Z;
  rp_pulls_ms : Z;
  rp_drain_ms : Z;
  rp_n_errors : Z
}.

Record RingStepStat := mkRingStat {
  rs_step : Z;
  rs_source_rank : Z;
  rs_clock : Clock;
  rs_bytes : Z;
  rs_n_chunks : Z;
  rs_n_errors : Z;
  rs_per_pod : list RingStepPerPod
}.

Record PerPeerStats := mkPeerStats {
  ps_node_id : string;
  ps_assigned : Z;
  ps_fetched : Z;
  ps_bytes : Z;
  ps_errors : list string;
  ps_clock : Clock
}.

Record HydrateResponse := mkHydrateResponse {
  hr_mount : string;
  hr_path : string;
  hr_total_files : Z;
  hr_total_chunks : Z;
  hr_total_bytes : Z;
  hr_peers : list PerPeerStats;
  hr_mode : HydrateMode;
  hr_phase_b : bool;
  hr_broadcast_peers : list PerPeerStats;
  hr_ring_steps : list RingStepStat
}.

(** ** The coordinator's plan *)
(** [env] is the value of [HYDRATE_MODE]. *)
Definition hydrate_mode (env : option string) (request_mode : option HydrateMode) : HydrateMode :=
  let requested := default Default request_mode in
  match env with
  | Some s =>
      let s := to_ascii_lowercase s in
      if String.eqb s "broadcast" then Broadcast
      else if String.eqb s "ring" then Ring
      else requested
  | None => requested
  end.

Definition is_empty (s : string) : bool := match s with EmptyString => true | _ => false end.

Definition combined_prefix (prefix path : string) : string :=
  if is_empty prefix then path
  else if is_empty path then prefix
  else trim_end_matches slash prefix +:+ (if starts_with "/" path then path else "/" +:+ path).

(** The name of a listed blob relative to the mount. *)
Definition blob_path_of (prefix name : string) : string :=
  if negb (is_empty prefix) && starts_with prefix name
  then trim_start_matches slash (string_drop (String.length prefix) name)
  else name.

(** The [while off < content_length] loop; one chunk per turn, so [div_ceil size cs] turns. *)
Fixpoint cut (fuel : nat) (cs size off : Z) (b : string) : list ChunkSpec :=
  match fuel with
  | O => []
  | S n =>
      if off <? size then
        let l := Z.min cs (size - off) in
        mkChunkSpec b off l :: cut n cs size (wadd64 off l) b
      else []
  end.

Definition cut_blob (cs size : Z) (b : string) : list ChunkSpec :=
  cut (Z.to_nat (div_ceil size cs)) cs size 0 b.

(** The loop over the listing, names with their lengths: all chunks, and the number of non-empty files. *)
Fixpoint enumerate_chunks (cs : Z) (prefix : string) (listed : list (string * Z))
    : list ChunkSpec * Z :=
  match listed with
  | [] => ([], 0)
  | (name, content_length) :: t =>
      let '(l, files) := enumerate_chunks cs prefix t in
      if content_length =? 0 then (l, files)
      else (cut_blob cs content_length (blob_path_of prefix name) ++ l, wadd64 1 files)
  end.

(** A node to hydrate; no URL means this node. *)
Record Target := mkTarget {
  t_id : string;
  t_url : option string;
  t_worker : option string
}.

Definition is_alive (n : NodeInfo) : bool := match state n with Alive => true | _ => false end.

Definition targets (me_id : string) (members : list NodeInfo) : list Target :=
  let me_worker :=
    match list_find (fun n => id n = me_id) members with
    | Some (_, n) => ucx_worker_addr_b64 n
    | None => None
    end in
  mkTarget me_id None me_worker ::
  ((fun n => mkTarget (id n) (Some (transport_url n)) (ucx_worker_addr_b64 n)) <$>
     filter (fun n => is_alive n = true /\ id n <> me_id) members).

(** [buckets[i % n_targets].push(c)] for every chunk. *)
Fixpoint deal (n i : nat) (l : list ChunkSpec) (buckets : list (list ChunkSpec))
    : list (list ChunkSpec) :=
  match l with
  | [] => buckets
  | c :: t => deal n (S i) t (alter (fun b => b ++ [c]) (i mod n)%nat buckets)
  end.

Definition shard (n : nat) (l : list ChunkSpec) : list (list ChunkSpec) := deal n 0 l (replicate n []).

Definition make_plan (me_transport_url : string) (ts : list Target) (buckets : list (list ChunkSpec))
    : list BroadcastSource :=
  zip_with (fun t b => mkSource (t_id t) (default me_transport_url (t_url t)) (t_worker t) b) ts buckets.

(** ** Workers *)

(** One awaited task: a join error, or the chunk with its result. *)
Abbreviation Outcome := (string + ChunkSpec * res Bytes)%type.

Definition push_capped (e : string) (errors : list string) : list string :=
  if len errors <? 32 then errors ++ [e] else errors.

(** The loop that awaits the handles, with the two message formats of the caller. *)
Definition tally_step (fmt : ChunkSpec -> BcError -> string) (jfmt : string -> string)
    (acc : Z * Z * list string) (o : Outcome) : Z * Z * list string :=
  let '(fetched, bytes, errors) := acc in
  match o with
  | inr (_, Ok b) => (wadd64 fetched 1, wadd64 bytes (len b), errors)
  | inr (c, Err e) => (fetched, bytes, push_capped (fmt c e) errors)
  | inl e => (fetched, bytes, push_capped (jfmt e) errors)
  end.

Definition tally (fmt : ChunkSpec -> BcError -> string) (jfmt : string -> string) (os : list Outcome)
    : Z * Z * list string :=
  foldl (tally_step fmt jfmt) (0, 0, []) os.

Section workers.
Context {L : Lru.LruCache}.
Context (sha256 : Bytes -> Bytes) (E : Fetch.Env).

(** What the node's tasks meet: a panic per chunk, the text of a base64 error, and for each pending
    insert its temporary name and fate. *)
Context (panics : ChunkSpec -> option string).
Context (b64_error : string -> string).
Context (insert_fate : ChunkKey -> string * (string + option Cache.InsertFault)).

(** [await_inserts_drained]: the pending inserts run to their end. *)
Fixpoint drain (l : list (ChunkKey * Bytes)) (f : Fetch.Fetcher) : Fetch.Fetcher :=
  match l with
  | [] => f
  | (k, d) :: t =>
      drain t (Fetch.finish_insert sha256 (insert_fate k).1 (insert_fate k).2 k d (Fetch.set_spawned t f))
  end.

Definition await_inserts_drained (f : Fetch.Fetcher) : Fetch.Fetcher := drain (Fetch.spawned f) f.

(** The spawned chunk tasks, one after the other; [work] is the body of the task. *)
Fixpoint run_tasks {A} (work : A -> Fetch.Fetcher -> Fetch.Fetcher * res Bytes) (spec : A -> ChunkSpec)
    (l : list A) (f : Fetch.Fetcher) : Fetch.Fetcher * list (string + A * res Bytes) :=
  match l with
  | [] => (f, [])
  | x :: t =>
      let '(f, o) :=
        match panics (spec x) with
        | Some e => (f, inl e)
        | None => let '(f, r) := work x f in (f, inr (x, r))
        end in
      let '(f, os) := run_tasks work spec t f in
      (f, o :: os)
  end.

Definition insert_failure_text (p : ChunkKey * string) : string :=
  "insert: " +:+ ChunkKeys.blob p.1 +:+ "@" +:+ show (ChunkKeys.offset p.1) +:+ ": " +:+ p.2.

(** The fetch tasks of a shard. *)
Definition shard_fetches (m : Conf.MountConfig) (l : list ChunkSpec) (f : Fetch.Fetcher)
    : Fetch.Fetcher * list Outcome :=
  run_tasks (fun c => Fetch.fetch_chunk_origin_only sha256 E m (blob c) (offset c) (clen c))
    (fun c => c) l f.

Definition run_shard (clock : Clock) (mounts : gmap string Conf.MountConfig)
    (req : HydrateShardRequest) (f : Fetch.Fetcher) : Fetch.Fetcher * HydrateShardResponse :=
  match mounts !! sh_mount req with
  | None =>
      (f, mkShardResponse 0 0 ["unknown mount " +:+ sh_mount req]
            (mkClock 0 (start_unix_ms clock) (end_unix_ms clock)))
  | Some m =>
      let '(f, os) := shard_fetches m (sh_chunks req) f in
      let '(fetched, bytes, errors) :=
        tally (fun c e => blob c +:+ "@" +:+ show (offset c) +:+ ": " +:+ display e)
          (fun e => "join: " +:+ e) os in
      let f := await_inserts_drained f in
      let '(f, failures) := Fetch.take_insert_failures f in
      let errors := foldl (fun es p => push_capped (insert_failure_text p) es) errors failures in
      (f, mkShardResponse fetched bytes errors clock)
  end.

(** A source whose worker address has been decoded. *)
Record SourceCtx := mkSourceCtx {
  sc_node_id : string;
  sc_transport_url : string;
  sc_worker_addr : option Bytes
}.

Definition decode_addr (s : option string) : option Bytes :=
  match s with Some s => Fetch.b64_decode E s | None => None end.

(** One round of the [while any_left] loop: the next chunk of every source that has one left. *)
Fixpoint take_round (sources : list (SourceCtx * list ChunkSpec))
    : list (SourceCtx * ChunkSpec) * list (SourceCtx * list ChunkSpec) :=
  match sources with
  | [] => ([], [])
  | (s, []) :: t => let '(now, rest) := take_round t in (now, (s, []) :: rest)
  | (s, c :: cs) :: t => let '(now, rest) := take_round t in ((s, c) :: now, (s, cs) :: rest)
  end.

(** The whole loop; the longest shard bounds the rounds. *)
Fixpoint round_robin (fuel : nat) (sources : list (SourceCtx * list ChunkSpec))
    : list (SourceCtx * ChunkSpec) :=
  match fuel with
  | O => []
  | S n =>
      match take_round sources with
      | ([], _) => []
      | (now, rest) => now ++ round_robin n rest
      end
  end.

Definition longest (sources : list (SourceCtx * list ChunkSpec)) : nat :=
  foldr (fun s n => Nat.max (length s.2) n) 0%nat sources.

Definition pull_task (m : Conf.MountConfig) (x : SourceCtx * ChunkSpec) (f : Fetch.Fetcher)
    : Fetch.Fetcher * res Bytes :=
  Fetch.pull_chunk_from_peer sha256 E m (blob x.2) (offset x.2) (clen x.2) (sc_node_id x.1)
    (sc_transport_url x.1) (sc_worker_addr x.1) f.

(** How many chunks a request asks for. *)
Definition assigned_of (sources : list BroadcastSource) : Z :=
  zsum ((fun s => len (chunks s)) <$> sources).

(** [silent-loss] guard of the worker. *)
Definition silent_loss (assigned fetched : Z) (errors : list string) : list string :=
  let accounted := sat_add64 fetched (len errors) in
  if accounted <? assigned then
    errors ++ ["silent loss: assigned=" +:+ show assigned +:+ " fetched=" +:+ show fetched
                 +:+ " reported_errors=" +:+ show (len errors) +:+ " lost="
                 +:+ show (assigned - accounted)]
  else errors.

(** The pull loop labels an error with the peer it was pulled from. *)
Definition pull_tally_step (acc : Z * Z * list string)
    (o : string + (SourceCtx * ChunkSpec) * res Bytes) : Z * Z * list string :=
  match o with
  | inr ((s, c), r) =>
      tally_step (fun c e => "from " +:+ sc_node_id s +:+ " " +:+ blob c +:+ "@" +:+ show (offset c)
                               +:+ ": " +:+ display e) (fun e => "join: " +:+ e) acc (inr (c, r))
  | inl e => tally_step (fun _ _ => EmptyString) (fun e => "join: " +:+ e) acc (inl e)
  end.

Definition run_broadcast_shard (clock : Clock) (mounts : gmap string Conf.MountConfig)
    (req : HydrateBroadcastShardRequest) (f : Fetch.Fetcher)
    : Fetch.Fetcher * HydrateBroadcastShardResponse :=
  match mounts !! br_mount req with
  | None =>
      (f, mkBroadcastResponse 0 0 ["unknown mount " +:+ br_mount req]
            (mkClock 0 (start_unix_ms clock) (end_unix_ms clock)) 0)
  | Some m =>
      let assigned := assigned_of (br_sources req) in
      let sources :=
        (fun s => (mkSourceCtx (node_id s) (src_transport_url s) (decode_addr (src_worker_b64 s)),
                   chunks s)) <$> br_sources req in
      let '(f, os) := run_tasks (pull_task m) snd (round_robin (longest sources) sources) f in
      let '(fetched, bytes, errors) := foldl pull_tally_step (0, 0, []) os in
      let f := await_inserts_drained f in
      let errors := silent_loss assigned fetched errors in
      (f, mkBroadcastResponse fetched bytes errors clock assigned)
  end.

(** [pulls_ms] and [drain_ms] are readings of the clock. *)
Definition run_ring_step (pulls_ms drain_ms start stop : Z) (mounts : gmap string Conf.MountConfig)
    (req : HydrateRingStepRequest) (f : Fetch.Fetcher) : Fetch.Fetcher * HydrateRingStepResponse :=
  let failed e := (f, mkRingResponse 0 0 [e] 0 0 start stop) in
  match mounts !! rg_mount req with
  | None => failed ("unknown mount " +:+ rg_mount req)
  | Some m =>
      let addr :=
        match rg_prev_worker_b64 req with
        | Some s => match Fetch.b64_decode E s with Some v => Some (Some v) | None => None end
        | None => Some None
        end in
      match addr with
      | None => failed ("bad prev worker addr: " +:+ b64_error (default "" (rg_prev_worker_b64 req)))
      | Some addr =>
          let '(f, os) :=
            run_tasks
              (fun c => Fetch.pull_chunk_from_peer_wait sha256 E m (blob c) (offset c) (clen c)
                          (rg_prev_node_id req) (rg_prev_transport_url req) addr 0)
              (fun c => c) (rg_chunks req) f in
          let at_step := "step " +:+ show (rg_step req) in
          let '(fetched, bytes, errors) :=
            tally (fun c e => at_step +:+ " from " +:+ rg_prev_node_id req +:+ " " +:+ blob c +:+ "@"
                                +:+ show (offset c) +:+ ": " +:+ display e)
              (fun e => at_step +:+ " join: " +:+ e) os in
          (await_inserts_drained f,
           mkRingResponse fetched bytes errors pulls_ms drain_ms start stop)
      end
  end.
End workers.

(** ** The coordinator *)

(** How a peer answers a POST. *)
Inductive Reply (A : Type) : Type :=
| Answer (a : A)
| DecodeError (e : string)
| PostError (e : string).
#[global] Arguments Answer {A}.
#[global] Arguments DecodeError {A}.
#[global] Arguments PostError {A}.

(** [trim_start_matches("http://")]: the prefix goes as often as it is there. *)
Fixpoint strip_scheme (fuel : nat) (s : string) : string :=
  match fuel with
  | O => s
  | S n => match strip_prefix "http://" s with Some t => strip_scheme n t | None => s end
  end.

(** [split(':').next()]. *)
Fixpoint before_colon (s : string) : string :=
  match s with
  | EmptyString => EmptyString
  | String c t => if Ascii.eqb c ":" then EmptyString else String c (before_colon t)
  end.

Definition endpoint (url path : string) : string :=
  "http://" +:+ before_colon (strip_scheme (String.length url) url) +:+ ":7773/" +:+ path.

Section coordinator.
Context {L : Lru.LruCache}.
Context (sha256 : Bytes -> Bytes) (E : Fetch.Env).
Context (panics : ChunkSpec -> option string) (b64_error : string -> string).
Context (insert_fate : ChunkKey -> string * (string + option Cache.InsertFault)).
Context (mounts : gmap string Conf.MountConfig).

(** The peers' HTTP servers, the panic of the i-th task of a phase, the clock of this node's shard
    and of a failed POST, and the global timeout with the time it fired. *)
Record World := mkWorld {
  w_shard : string -> HydrateShardRequest -> Reply HydrateShardResponse;
  w_broadcast : string -> HydrateBroadcastShardRequest -> Reply HydrateBroadcastShardResponse;
  w_ring : string -> HydrateRingStepRequest -> Reply HydrateRingStepResponse;
  w_join : nat -> option string;
  w_clock : Clock;
  w_post_clock : Clock;
  w_timeout_secs : Z;
  w_timeout_end : Z
}.
Context (W : World).

Definition unknown_stats (e : string) : PerPeerStats :=
  mkPeerStats "unknown" 0 0 0 ["join: " +:+ e] (mkClock 0 0 0).

Definition timeout_stats (e : string) : PerPeerStats :=
  mkPeerStats "coordinator" 0 0 0 [e] (mkClock (wmul64 1000 (w_timeout_secs W)) 0 (w_timeout_end W)).

Definition failed_stats (nid : string) (assigned : Z) (e : string) : PerPeerStats :=
  mkPeerStats nid assigned 0 0 [e] (w_post_clock W).

(** One task of phase A. *)
Definition shard_task (mount : string) (t : Target) (cs : list ChunkSpec) (f : Fetch.Fetcher)
    : Fetch.Fetcher * PerPeerStats :=
  let assigned := len cs in
  let req := mkShardRequest mount cs in
  match t_url t with
  | None =>
      let '(f, r) := run_shard sha256 E panics insert_fate (w_clock W) mounts req f in
      (f, mkPeerStats (t_id t) assigned (sr_fetched r) (sr_bytes r) (sr_errors r) (sr_clock r))
  | Some url =>
      (f, match w_shard W (endpoint url "hydrate-shard") req with
          | Answer s =>
              mkPeerStats (t_id t) assigned (sr_fetched s) (sr_bytes s) (sr_errors s) (sr_clock s)
          | DecodeError e => failed_stats (t_id t) assigned ("decode: " +:+ e)
          | PostError e => failed_stats (t_id t) assigned ("post: " +:+ e)
          end)
  end.

Fixpoint shard_tasks (mount : string) (i : nat) (l : list (Target * list ChunkSpec))
    (f : Fetch.Fetcher) : Fetch.Fetcher * list PerPeerStats :=
  match l with
  | [] => (f, [])
  | (t, cs) :: rest =>
      let '(f, s) := shard_task mount t cs f in
      let s := match w_join W i with Some e => unknown_stats e | None => s end in
      let '(f, ss) := shard_tasks mount (S i) rest f in
      (f, s :: ss)
  end.

(** [timeout]: the global timeout fired, leaving the local fetcher as given. *)
Definition phase_a (timeout : option Fetch.Fetcher) (mount : string)
    (l : list (Target * list ChunkSpec)) (f : Fetch.Fetcher) : Fetch.Fetcher * list PerPeerStats :=
  match timeout with
  | Some f =>
      (f, [timeout_stats ("coordinator timeout after " +:+ show (w_timeout_secs W)
                            +:+ "s; aborted outstanding shards")])
  | None => shard_tasks mount 0 l f
  end.

(** The coordinator's cross-check of a receiver's answer. *)
Definition check_answer (assigned : Z) (s : HydrateBroadcastShardResponse) : list string :=
  let errors :=
    if negb (bs_assigned s =? 0) && negb (bs_assigned s =? assigned)
    then ("protocol skew: coordinator assigned=" +:+ show assigned +:+ " receiver assigned="
            +:+ show (bs_assigned s)) :: bs_errors s
    else bs_errors s in
  let accounted := sat_add64 (bs_fetched s) (len errors) in
  if accounted <? assigned then
    errors ++ ["coordinator silent-loss check: assigned=" +:+ show assigned +:+ " fetched="
                 +:+ show (bs_fetched s) +:+ " reported_errors=" +:+ show (len errors) +:+ " lost="
                 +:+ show (assigned - accounted)]
  else errors.

Definition broadcast_task (mount me_id : string) (plan : list BroadcastSource)
    (receiver : BroadcastSource) (f : Fetch.Fetcher) : Fetch.Fetcher * PerPeerStats :=
  let nid := node_id receiver in
  let sources := filter (fun s => node_id s <> nid) plan in
  let assigned := assigned_of sources in
  let body := mkBroadcastRequest mount sources in
  if String.eqb nid me_id then
    let '(f, r) := run_broadcast_shard sha256 E panics insert_fate (w_clock W) mounts body f in
    (f, mkPeerStats nid assigned (bs_fetched r) (bs_bytes r) (bs_errors r) (bs_clock r))
  else
    (f, match w_broadcast W (endpoint (src_transport_url receiver) "hydrate-broadcast-shard") body with
        | Answer s =>
            mkPeerStats nid assigned (bs_fetched s) (bs_bytes s) (check_answer assigned s) (bs_clock s)
        | DecodeError e => failed_stats nid assigned ("decode: " +:+ e)
        | PostError e => failed_stats nid assigned ("post: " +:+ e)
        end).

Fixpoint broadcast_tasks (mount me_id : string) (plan : list BroadcastSource) (i : nat)
    (l : list BroadcastSource) (f : Fetch.Fetcher) : Fetch.Fetcher * list PerPeerStats :=
  match l with
  | [] => (f, [])
  | r :: rest =>
      let '(f, s) := broadcast_task mount me_id plan r f in
      let s := match w_join W i with Some e => unknown_stats e | None => s end in
      let '(f, ss) := broadcast_tasks mount me_id plan (S i) rest f in
      (f, s :: ss)
  end.

Definition run_broadcast_phase (timeout : option Fetch.Fetcher) (mount me_id : string)
    (plan : list BroadcastSource) (f : Fetch.Fetcher) : Fetch.Fetcher * list PerPeerStats :=
  match timeout with
  | Some f =>
      (f, [timeout_stats ("phase-b coordinator timeout after " +:+ show (w_timeout_secs W)
                            +:+ "s; aborted outstanding shards")])
  | None => broadcast_tasks mount me_id plan 0 plan f
  end.

(** ** The ring *)
Definition prev_idx (world recv_idx : nat) : nat := ((recv_idx + world - 1) mod world)%nat.
Definition source_rank (world recv_idx k : nat) : nat := ((recv_idx + world - k) mod world)%nat.

Definition ring_body (mount : string) (k : nat) (source prev : BroadcastSource)
    : HydrateRingStepRequest :=
  mkRingRequest mount (Z.of_nat k) (node_id source) (node_id prev) (src_transport_url prev)
    (src_worker_b64 prev) (chunks source).

(** The request for the receiver at [recv_idx] in step [k]; indexing [sorted_plan] is within bounds. *)
Definition ring_request (mount : string) (sorted_plan : list BroadcastSource) (k recv_idx : nat)
    (receiver : BroadcastSource) : HydrateRingStepRequest :=
  let world := length sorted_plan in
  let prev := default receiver (sorted_plan !! prev_idx world recv_idx) in
  let source := default receiver (sorted_plan !! source_rank world recv_idx k) in
  ring_body mount k source prev.

(** The POST to a receiver. *)
Definition ring_post (receiver : BroadcastSource) (body : HydrateRingStepRequest) : HydrateRingStepResponse :=
  let c := w_post_clock W in
  match w_ring W (endpoint (src_transport_url receiver) "hydrate-ring-step") body with
  | Answer s => s
  | DecodeError e => mkRingResponse 0 0 ["decode: " +:+ e] 0 0 (start_unix_ms c) (end_unix_ms c)
  | PostError e => mkRingResponse 0 0 ["post: " +:+ e] 0 0 (start_unix_ms c) (end_unix_ms c)
  end.

(** The task of one receiver in step [k]. *)
Definition ring_task (mount me_id : string) (sorted_plan : list BroadcastSource) (k recv_idx : nat)
    (receiver : BroadcastSource) (f : Fetch.Fetcher)
    : Fetch.Fetcher * (string * HydrateRingStepResponse) :=
  let body := ring_request mount sorted_plan k recv_idx receiver in
  let nid := node_id receiver in
  if String.eqb nid me_id then
    let '(f, r) := run_ring_step sha256 E panics b64_error insert_fate (elapsed_ms (w_clock W)) 0
                     (start_unix_ms (w_clock W)) (end_unix_ms (w_clock W)) mounts body f in
    (f, (nid, r))
  else (f, (nid, ring_post receiver body)).

Fixpoint ring_tasks (mount me_id : string) (sorted_plan : list BroadcastSource) (k i : nat)
    (l : list BroadcastSource) (f : Fetch.Fetcher)
    : Fetch.Fetcher * list (string * HydrateRingStepResponse) :=
  match l with
  | [] => (f, [])
  | r :: rest =>
      let '(f, x) := ring_task mount me_id sorted_plan k i r f in
      let x := match w_join W i with
               | Some e => ("unknown", mkRingResponse 0 0 ["join: " +:+ e] 0 0 0 0)
               | None => x
               end in
      let '(f, xs) := ring_tasks mount me_id sorted_plan k (S i) rest f in
      (f, x :: xs)
  end.

(** The accumulation of one answer into the receiver's totals. *)
Definition add_answer (r : HydrateRingStepResponse) (ps : PerPeerStats) : PerPeerStats :=
  let c := ps_clock ps in
  let start :=
    if (start_unix_ms c =? 0) || (rr_start_unix_ms r <? start_unix_ms c)
    then rr_start_unix_ms r else start_unix_ms c in
  let stop := if end_unix_ms c <? rr_end_unix_ms r then rr_end_unix_ms r else end_unix_ms c in
  mkPeerStats (ps_node_id ps) (ps_assigned ps) (wadd64 (ps_fetched ps) (rr_fetched r))
    (wadd64 (ps_bytes ps) (rr_bytes r)) (foldl (fun es e => push_capped e es) (ps_errors ps) (rr_errors r))
    (mkClock (elapsed_ms c) start stop).

Definition add_error (e : string) (ps : PerPeerStats) : PerPeerStats :=
  mkPeerStats (ps_node_id ps) (ps_assigned ps) (ps_fetched ps) (ps_bytes ps) (ps_errors ps ++ [e])
    (ps_clock ps).

Definition pod_step (x : string * HydrateRingStepResponse) : RingStepPerPod :=
  mkRingPod x.1 (rr_fetched x.2) (rr_bytes x.2) (rr_pulls_ms x.2) (rr_drain_ms x.2)
    (len (rr_errors x.2)).

Definition step_stat (k : nat) (c : Clock) (results : list (string * HydrateRingStepResponse))
    : RingStepStat :=
  mkRingStat (Z.of_nat k) 0 c (wrap64 (zsum ((fun x => rr_bytes x.2) <$> results)))
    (wrap64 (zsum ((fun x => rr_fetched x.2) <$> results)))
    (zsum ((fun x => len (rr_errors x.2)) <$> results)) (pod_step <$> results).

(** When the ring gives up: before step [k], or while waiting for it (with the fetcher it leaves). *)
Record RingTimeouts := mkRingTimeouts {
  late_before : nat -> bool;
  late_during : nat -> option Fetch.Fetcher
}.

Fixpoint ring_loop (T : RingTimeouts) (mount me_id : string) (sorted_plan : list BroadcastSource)
    (ks : list nat) (per_pod : gmap string PerPeerStats) (f : Fetch.Fetcher)
    : Fetch.Fetcher * gmap string PerPeerStats * list RingStepStat :=
  match ks with
  | [] => (f, per_pod, [])
  | k :: rest =>
      let at_k := show (Z.of_nat k) in
      if late_before T k then
        (f, add_error ("ring coordinator timeout before step " +:+ at_k) <$> per_pod, [])
      else
        match late_during T k with
        | Some f => (f, add_error ("ring coordinator timeout at step " +:+ at_k) <$> per_pod, [])
        | None =>
            let '(f, results) := ring_tasks mount me_id sorted_plan k 0 sorted_plan f in
            let per_pod :=
              foldl (fun m x => alter (add_answer x.2) x.1 m) per_pod results in
            let '(f, per_pod, steps) := ring_loop T mount me_id sorted_plan rest per_pod f in
            (f, per_pod, step_stat k (w_clock W) results :: steps)
        end
  end.

Definition ring_start (sorted_plan : list BroadcastSource) : gmap string PerPeerStats :=
  foldl (fun m s =>
    <[node_id s := mkPeerStats (node_id s)
        (assigned_of (filter (fun p => node_id p <> node_id s) sorted_plan)) 0 0 [] (mkClock 0 0 0)]> m)
    ∅ sorted_plan.

Definition close_stats (total_elapsed : Z) (ps : PerPeerStats) : PerPeerStats :=
  let c := ps_clock ps in
  mkPeerStats (ps_node_id ps) (ps_assigned ps) (ps_fetched ps) (ps_bytes ps) (ps_errors ps)
    (mkClock (if elapsed_ms c =? 0 then total_elapsed else elapsed_ms c) (start_unix_ms c)
       (end_unix_ms c)).

Definition run_ring_phase (T : RingTimeouts) (mount me_id : string) (plan : list BroadcastSource)
    (f : Fetch.Fetcher) : Fetch.Fetcher * (list PerPeerStats * list RingStepStat) :=
  let sorted_plan := stable_sort (fun a b => str_le (node_id a) (node_id b)) plan in
  let world := length sorted_plan in
  if (world <? 2)%nat then (f, ([], [])) else
  let '(f, per_pod, steps) :=
    ring_loop T mount me_id sorted_plan (seq 1 (world - 1)) (ring_start sorted_plan) f in
  let peers := close_stats (elapsed_ms (w_clock W)) <$> (map_to_list per_pod).*2 in
  (f, (stable_sort (fun a b => str_le (ps_node_id a) (ps_node_id b)) peers, steps)).

(** ** The whole request *)
Record Timeouts := mkTimeouts {
  t_phase_a : option Fetch.Fetcher;
  t_phase_b : option Fetch.Fetcher;
  t_ring : RingTimeouts
}.

Definition nilb {A} (l : list A) : bool := match l with [] => true | _ => false end.

(** The second phase: it runs only when no shard reported an error.  The flag is the presence of
    [phase_b_elapsed_ms]. *)
Definition run_phase_b (T : Timeouts) (mode : HydrateMode) (mount me_id : string) (plan : list BroadcastSource)
    (peers : list PerPeerStats) (f : Fetch.Fetcher)
    : Fetch.Fetcher * (bool * list PerPeerStats * list RingStepStat) :=
  match mode, forallb (fun p => nilb (ps_errors p)) peers with
  | Broadcast, true =>
      let '(f, ps) := run_broadcast_phase (t_phase_b T) mount me_id plan f in (f, (true, ps, []))
  | Ring, true =>
      let '(f, (ps, steps)) := run_ring_phase (t_ring T) mount me_id plan f in (f, (true, ps, steps))
  | _, _ => (f, (false, [], []))
  end.

Definition run_coordinator (T : Timeouts) (env_mode : option string) (req : HydrateRequest)
    (chunk_size : Z) (blobs : gmap string (string -> string -> option string -> bool -> res (list (string * Z))))
    (membership : Membership) (me_id me_transport_url : string) (f : Fetch.Fetcher)
    : Fetch.Fetcher * res HydrateResponse :=
  let mode := hydrate_mode env_mode (hy_mode req) in
  match mounts !! hy_mount req, blobs !! hy_mount req with
  | None, _ => (f, Err (Other ("unknown mount " +:+ hy_mount req)))
  | _, None => (f, Err (Other ("no blob client for mount " +:+ hy_mount req)))
  | Some m, Some list_blobs =>
      let pre := combined_prefix (Conf.prefix m) (hy_path req) in
      let pre := if is_empty pre then None else Some pre in
      match list_blobs (Conf.account m) (Conf.container m) pre (default true (hy_recursive req)) with
      | Err e => (f, Err e)
      | Ok listed =>
          let '(all_chunks, total_files) := enumerate_chunks chunk_size (Conf.prefix m) listed in
          let respond := mkHydrateResponse (hy_mount req) (hy_path req) in
          if nilb all_chunks then (f, Ok (respond 0 0 0 [] mode false [] []))
          else
            let ts := targets me_id (members_all membership) in
            let buckets := shard (length ts) all_chunks in
            let plan := make_plan me_transport_url ts buckets in
            let '(f, peers) := phase_a (t_phase_a T) (hy_mount req) (zip ts buckets) f in
            let '(f, (phase_b, bpeers, steps)) := run_phase_b T mode (hy_mount req) me_id plan peers f in
            (f, Ok (respond total_files (len all_chunks) (wrap64 (zsum (ps_bytes <$> peers))) peers mode
                      phase_b bpeers steps))
      end
  end.
End coordinator.

(** ** Cutting *)
Lemma cut_spec cs size b n :
  0 < cs -> 0 <= size <= u64_max -> forall fuel, fuel = Z.to_nat (div_ceil size cs - n) -> 0 <= n ->
  cut fuel cs size (n * cs) b
  = (fun i => mkChunkSpec b (i * cs) (Z.min cs (size - i * cs))) <$> seqZ n (div_ceil size cs - n).
Proof.
  intros Hcs Hsize fuel. revert n. induction fuel as [|fuel IH]; intros n Hf Hn.
  - rewrite seqZ_nil by lia. done.
  - unfold div_ceil in *. rewrite seqZ_cons by lia. cbn [cut fmap list_fmap].
    assert (Hlt : n * cs < size).
    { pose proof (Z.div_mod (size + cs - 1) cs). pose proof (Z.mod_pos_bound (size + cs - 1) cs Hcs). nia. }
    rewrite (proj2 (Z.ltb_lt _ _)) by done. f_equal.
    replace (Z.pred ((size + cs - 1) / cs - n)) with ((size + cs - 1) / cs - Z.succ n) by lia.
    destruct (decide (n * cs + cs <= size)).
    + rewrite Z.min_l by lia. rewrite wadd64_small by nia.
      replace (n * cs + cs) with (Z.succ n * cs) by lia. apply IH; lia.
    + assert (Hend : (size + cs - 1) / cs = n + 1).
      { symmetry. apply Z.div_unique_pos with (r := size + cs - 1 - cs * (n + 1)); nia. }
      rewrite seqZ_nil by lia. destruct fuel; [done|]. lia.
Qed.

Lemma cut_blob_spec cs size b :
  0 < cs -> 0 <= size <= u64_max ->
  cut_blob cs size b
  = (fun i => mkChunkSpec b (i * cs) (Z.min cs (size - i * cs))) <$> seqZ 0 (div_ceil size cs).
Proof.
  intros Hcs Hs. unfold cut_blob. pose proof (cut_spec cs size b 0 Hcs Hs (Z.to_nat (div_ceil size cs))) as H.
  rewrite Z.sub_0_r in H. apply H; [done|lia].
Qed.

(** ** Dealing *)
Lemma concat_alter {A} (bs : list (list A)) j x :
  (j < length bs)%nat -> concat (alter (fun b => b ++ [x]) j bs) ≡ₚ x :: concat bs.
Proof.
  revert j. induction bs as [|b bs IH]; intros [|j] Hj; simpl in *; [lia|lia| |].
  - rewrite <-app_assoc. simpl. by rewrite <-Permutation_middle.
  - unfold alter in IH. rewrite IH by lia. by rewrite Permutation_middle.
Qed.

Lemma deal_permutation n i l bs :
  (0 < n)%nat -> length bs = n ->
  length (deal n i l bs) = n /\ concat (deal n i l bs) ≡ₚ l ++ concat bs.
Proof.
  intros Hn. revert i bs. induction l as [|c l IH]; intros i bs Hbs; cbn [deal]; [done|].
  destruct (IH (S i) (alter (fun b => b ++ [c]) (i mod n)%nat bs)) as [H1 H2];
    [by rewrite length_alter|]. split; [done|]. rewrite H2, concat_alter; [|rewrite Hbs; by apply Nat.mod_upper_bound; lia].
  simpl. by rewrite Permutation_middle.
Qed.

(** How many of the first [i] deals went to bucket [j]. *)
Definition dealt (n i j : nat) : nat := ((i + n - 1 - j) / n)%nat.

Lemma dealt_step n i j :
  (0 < n)%nat -> (j < n)%nat ->
  dealt n (S i) j = if decide (j = i mod n)%nat then S (dealt n i j) else dealt n i j.
Proof.
  intros Hn Hj. unfold dealt. pose proof (Nat.div_mod_eq i n) as Hi.
  pose proof (Nat.mod_upper_bound i n ltac:(lia)) as Hr.
  set (q := (i / n)%nat) in *. set (r := (i mod n)%nat) in *.
  assert (Hd : forall t, ((n * q + t) / n = q + t / n)%nat).
  { intros t. rewrite (Nat.mul_comm n q), Nat.add_comm, Nat.div_add by lia. lia. }
  replace (S i + n - 1 - j)%nat with (n * q + (S r + n - 1 - j))%nat by lia.
  replace (i + n - 1 - j)%nat with (n * q + (r + n - 1 - j))%nat by lia. rewrite !Hd.
  assert (Hsmall : forall t, (t < n -> t / n = 0)%nat) by (intros; by apply Nat.div_small).
  assert (Hone : forall t, (n <= t -> t < n + n -> t / n = 1)%nat)
    by (intros t ? ?; symmetry; apply (Nat.div_unique t n 1 (t - n)); lia).
  case_decide.
  - rewrite (Hone (S r + n - 1 - j)%nat), (Hsmall (r + n - 1 - j)%nat) by lia. lia.
  - destruct (decide (j < r)%nat).
    + rewrite !Hone by lia. done.
    + rewrite !Hsmall by lia. done.
Qed.

Lemma deal_sizes n i l bs :
  (0 < n)%nat -> length bs = n ->
  (forall j b, bs !! j = Some b -> length b = dealt n i j) ->
  forall j b, deal n i l bs !! j = Some b -> length b = dealt n (i + length l) j.
Proof.
  intros Hn. revert i bs. induction l as [|c l IH]; intros i bs Hbs Hinv j b; cbn [deal].
  - simpl. rewrite Nat.add_0_r. apply Hinv.
  - intros H. rewrite (IH (S i) (alter (fun b => b ++ [c]) (i mod n)%nat bs)) with (j := j); [| | |done].
    + simpl. f_equal. lia.
    + by rewrite length_alter.
    + intros j' b' Hj'. assert (Hlt : (j' < n)%nat).
      { apply lookup_lt_Some in Hj'. by rewrite length_alter, Hbs in Hj'. }
      rewrite dealt_step by done. case_decide as Hd.
      * subst j'. rewrite list_lookup_alter_eq in Hj'. apply fmap_Some in Hj' as (b0 & Hb0 & ->).
        rewrite length_app. simpl. rewrite (Hinv _ _ Hb0). lia.
      * rewrite list_lookup_alter_ne in Hj' by done. by apply Hinv.
Qed.

Lemma shard_facts n l :
  (0 < n)%nat -> length (shard n l) = n /\ concat (shard n l) ≡ₚ l /\
  forall j b, shard n l !! j = Some b -> length b = dealt n (length l) j.
Proof.
  intros Hn. unfold shard.
  assert (Hnil : concat (replicate n (@nil ChunkSpec)) = []) by (clear; induction n; simpl; done).
  destruct (deal_permutation n 0 l (replicate n []) Hn) as [H1 H2]; [by rewrite length_replicate|].
  rewrite Hnil, app_nil_r in H2. split_and!; [done|done|].
  intros j b Hb. apply (deal_sizes n 0 l (replicate n []) Hn) with (j := j); [by rewrite length_replicate| |done].
  intros j' b' [-> Hlt]%lookup_replicate. simpl. unfold dealt. symmetry. apply Nat.div_small. lia.
Qed.

(** ** The ring *)
Lemma source_rank_eq w r k :
  (r < w)%nat -> (k <= w)%nat ->
  source_rank w r k = (if decide (k <= r) then r - k else if decide (k = w) then r else r + w - k)%nat.
Proof.
  intros Hr Hk. unfold source_rank. repeat case_decide.
  - replace (r + w - k)%nat with (r - k + 1 * w)%nat by lia. rewrite Nat.Div0.mod_add. apply Nat.mod_small. lia.
  - subst. replace (r + w - w)%nat with r by lia. by apply Nat.mod_small.
  - apply Nat.mod_small. lia.
Qed.

Lemma source_rank_inj w r i j :
  (r < w)%nat -> (i < w)%nat -> (j < w)%nat -> source_rank w r i = source_rank w r j -> i = j.
Proof. intros ? ? ?. rewrite !source_rank_eq by lia. repeat case_decide; lia. Qed.

Lemma source_rank_lt w r k : (r < w)%nat -> (k <= w)%nat -> (source_rank w r k < w)%nat.
Proof. intros ? ?. rewrite source_rank_eq by lia. repeat case_decide; lia. Qed.

(** Over the steps of a round a node is sent the shard of every other rank once. *)
Lemma source_ranks w r : (r < w)%nat -> r :: (source_rank w r <$> seq 1 (w - 1)) ≡ₚ seq 0 w.
Proof.
  intros Hr. assert (H0 : source_rank w r 0 = r) by (rewrite source_rank_eq by lia; case_decide; lia).
  rewrite <- H0 at 1. change (source_rank w r <$> 0%nat :: seq 1 (w - 1) ≡ₚ seq 0 w).
  replace (0%nat :: seq 1 (w - 1)) with (seq 0 w) by (by destruct w as [|w]; [lia|]; simpl; rewrite Nat.sub_0_r).
  apply NoDup_Permutation; [|apply NoDup_seq|].
  - apply NoDup_fmap_2_strong; [|apply NoDup_seq]. intros i j Hi%elem_of_seq Hj%elem_of_seq Heq.
    apply (source_rank_inj w r); lia.
  - intros x. rewrite list_elem_of_fmap. setoid_rewrite elem_of_seq. split.
    + intros (i & -> & Hi). pose proof (source_rank_lt w r i). lia.
    + intros Hx. destruct (decide (x <= r)%nat).
      * exists (r - x)%nat. split; [|lia]. rewrite source_rank_eq by lia. repeat case_decide; lia.
      * exists (r + w - x)%nat. split; [|lia]. rewrite source_rank_eq by lia. repeat case_decide; lia.
Qed.

(** What a node asks its predecessor for in a step is what the predecessor asked for in the step
    before. *)
Lemma source_rank_chain w r k :
  (r < w)%nat -> (k < w)%nat -> source_rank w (prev_idx w r) k = source_rank w r (S k).
Proof.
  intros Hr Hk. assert (Hp : prev_idx w r = source_rank w r 1) by done.
  rewrite Hp, !source_rank_eq by (rewrite ?source_rank_eq by lia; repeat case_decide; lia).
  repeat case_decide; lia.
Qed.

(** A plan, read rank by rank. *)
Lemma chunks_by_rank (l : list BroadcastSource) :
  concat (chunks <$> l) = concat ((fun i => from_option chunks [] (l !! i)) <$> seq 0 (length l)).
Proof.
  f_equal. apply list_eq. intros i. rewrite !list_lookup_fmap. destruct (decide (i < length l)%nat).
  - rewrite lookup_seq_lt by lia. simpl. by destruct (lookup_lt_is_Some_2 l i) as [x ->].
  - rewrite (lookup_ge_None_2 l), (lookup_ge_None_2 (seq 0 _)); [done|rewrite length_seq; lia|lia].
Qed.

(** The requests of a receiver, over all steps, ask for every other shard once. *)
Lemma requests_cover mount (l : list BroadcastSource) r own :
  l !! r = Some own ->
  chunks own ++ concat ((fun k => rg_chunks (ring_request mount l k r own)) <$> seq 1 (length l - 1))
    ≡ₚ concat (chunks <$> l).
Proof.
  intros Hown. pose proof (lookup_lt_Some _ _ _ Hown) as Hr.
  rewrite (chunks_by_rank l), <- (source_ranks (length l) r Hr), fmap_cons, <- list_fmap_compose.
  cbn [concat]. rewrite Hown. cbn [from_option]. apply Permutation_app_head.
  rewrite (list_fmap_ext (fun k => rg_chunks (ring_request mount l k r own))
    ((fun i => from_option chunks [] (l !! i)) ∘ source_rank (length l) r)); [done|].
  intros i k Hk. apply list_elem_of_lookup_2, elem_of_seq in Hk. cbn [compose].
  destruct (lookup_lt_is_Some_2 l (source_rank (length l) r k)) as [x Hx]; [apply source_rank_lt; lia|].
  unfold ring_request. by rewrite Hx.
Qed.

(** ** Accounting *)
Lemma push_capped_not_nil e es : push_capped e es <> [].
Proof. unfold push_capped. destruct es; simpl; [done|]. by case_match. Qed.

Section accounting.
Context {O : Type} (ok_of : O -> option Bytes).
Context (step : Z * Z * list string -> O -> Z * Z * list string).
Context (step_spec : forall a b es o,
  match ok_of o with
  | Some d => step (a, b, es) o = (wadd64 a 1, wadd64 b (len d), es)
  | None => exists e, step (a, b, es) o = (a, b, push_capped e es)
  end).

Definition ok_bytes (o : O) : Z := match ok_of o with Some d => len d | None => 0 end.

(** When everything succeeded, the counters are exact and no error is added. *)
Lemma fold_all_ok os a b es :
  Forall (fun o => is_Some (ok_of o)) os -> 0 <= a -> a + len os <= u64_max -> 0 <= b ->
  b + zsum (ok_bytes <$> os) <= u64_max ->
  foldl step (a, b, es) os = (a + len os, b + zsum (ok_bytes <$> os), es).
Proof using step_spec.
  intros Hf. revert a b. induction Hf as [|o os [d Hd] Hf IH]; intros a b Ha Hl Hb Hz; cbn [foldl].
  - rewrite len_nil. simpl. f_equal. f_equal; lia.
  - rewrite len_cons in *. rewrite fmap_cons, zsum_cons in *.
    assert (Hob : ok_bytes o = len d) by (unfold ok_bytes; by rewrite Hd).
    pose proof (len_nonneg d). pose proof (len_nonneg os).
    assert (0 <= zsum (ok_bytes <$> os)).
    { apply zsum_nonneg, Forall_fmap, Forall_forall. intros o' _. simpl. unfold ok_bytes.
      case_match; [apply len_nonneg|done]. }
    pose proof (step_spec a b es o) as Hst. rewrite Hd in Hst. rewrite Hst.
    rewrite !wadd64_small by lia. rewrite IH by lia. f_equal. f_equal; lia.
Qed.

(** No error at the end means that every task succeeded. *)
Lemma fold_clean os a b es a' b' :
  foldl step (a, b, es) os = (a', b', []) -> es = [] /\ Forall (fun o => is_Some (ok_of o)) os.
Proof using step_spec.
  revert a b es. induction os as [|o os IH]; intros a b es; simpl; [by intros [= _ _ ->]|].
  pose proof (step_spec a b es o) as Hst. destruct (ok_of o) as [d|] eqn:Ho.
  - rewrite Hst. intros [-> ?]%IH. split; [done|]. constructor; [by rewrite Ho|done].
  - destruct Hst as [e ->]. intros [H _]%IH. by apply push_capped_not_nil in H.
Qed.

Lemma fold_fetched os a b es a' b' es' :
  foldl step (a, b, es) os = (a', b', es') -> Forall (fun o => is_Some (ok_of o)) os ->
  0 <= a -> a + len os <= u64_max -> a' = a + len os.
Proof using step_spec.
  intros Hfold Hf. revert a b Hfold. induction Hf as [|o os [d Hd] Hf IH]; intros a b Hfold Ha Hl; simpl in *.
  - rewrite len_nil. assert (a = a') by congruence. lia.
  - rewrite len_cons in *. pose proof (len_nonneg os).
    pose proof (step_spec a b es o) as Hst. rewrite Hd in Hst. rewrite Hst in Hfold.
    apply IH in Hfold; rewrite ?wadd64_small in * by lia; lia.
Qed.
End accounting.

Definition outcome_ok (o : Outcome) : option Bytes :=
  match o with inr (_, Ok b) => Some b | _ => None end.

Definition pull_ok (o : string + (SourceCtx * ChunkSpec) * res Bytes) : option Bytes :=
  match o with inr (_, Ok b) => Some b | _ => None end.

Lemma tally_step_spec fmt jfmt a b es o :
  match outcome_ok o with
  | Some d => tally_step fmt jfmt (a, b, es) o = (wadd64 a 1, wadd64 b (len d), es)
  | None => exists e, tally_step fmt jfmt (a, b, es) o = (a, b, push_capped e es)
  end.
Proof. destruct o as [e|[c [d|e]]]; simpl; eauto. Qed.

Lemma pull_tally_step_spec a b es o :
  match pull_ok o with
  | Some d => pull_tally_step (a, b, es) o = (wadd64 a 1, wadd64 b (len d), es)
  | None => exists e, pull_tally_step (a, b, es) o = (a, b, push_capped e es)
  end.
Proof. destruct o as [e|[[s c] [d|e]]]; simpl; eauto. Qed.

Lemma run_tasks_length {L : Lru.LruCache} {A} panics work (spec : A -> ChunkSpec) l f :
  length (run_tasks panics work spec l f).2 = length l.
Proof.
  revert f. induction l as [|x l IH]; intros f; simpl; [done|].
  destruct (match panics (spec x) with Some _ => _ | None => _ end) as [g o].
  specialize (IH g). destruct (run_tasks panics work spec l g) as [h os]. simpl in *. by rewrite IH.
Qed.

(** Insert failures end up in the error list. *)
Lemma failures_clean l es :
  foldl (fun es p => push_capped (insert_failure_text p) es) es l = [] -> es = [] /\ l = [].
Proof.
  revert es. induction l as [|p l IH]; intros es; simpl; [done|].
  intros [H _]%IH. by apply push_capped_not_nil in H.
Qed.

(** ** Round robin *)
Definition flat (sources : list (SourceCtx * list ChunkSpec)) : list (SourceCtx * ChunkSpec) :=
  sources ≫= (fun p => (fun c => (p.1, c)) <$> p.2).

Lemma take_round_flat sources :
  flat sources ≡ₚ (take_round sources).1 ++ flat (take_round sources).2.
Proof.
  induction sources as [|[s [|c cs]] t IH]; simpl; [done| |].
  - change (flat ((s, []) :: t)) with (flat t). by destruct (take_round t) as [now rest].
  - change (flat ((s, c :: cs) :: t)) with ((s, c) :: ((fun c => (s, c)) <$> cs) ++ flat t).
    destruct (take_round t) as [now rest]. simpl in IH. rewrite IH. simpl. constructor.
    change (flat ((s, cs) :: rest)) with (((fun c => (s, c)) <$> cs) ++ flat rest).
    rewrite !app_assoc. by rewrite (Permutation_app_comm now).
Qed.

Lemma take_round_longest sources : longest (take_round sources).2 = (longest sources - 1)%nat.
Proof.
  induction sources as [|[s [|c cs]] t IH]; simpl; [done| |].
  - destruct (take_round t) as [now rest]. unfold longest in *. simpl in *. lia.
  - destruct (take_round t) as [now rest]. unfold longest in *. simpl in *. lia.
Qed.

Lemma take_round_nil sources : (take_round sources).1 = [] -> flat sources = [].
Proof.
  induction sources as [|[s [|c cs]] t IH]; simpl; [done| |].
  - change (flat ((s, []) :: t)) with (flat t). by destruct (take_round t) as [now rest].
  - by destruct (take_round t) as [now rest].
Qed.

Lemma longest_flat sources : longest sources = 0%nat -> flat sources = [].
Proof.
  induction sources as [|[s cs] t IH]; [done|]. unfold longest. simpl. intros H.
  destruct cs; simpl in H; [|lia]. apply IH. unfold longest. lia.
Qed.

Lemma round_robin_flat fuel sources : (longest sources <= fuel)%nat -> round_robin fuel sources ≡ₚ flat sources.
Proof.
  revert sources. induction fuel as [|n IH]; intros sources Hf; cbn [round_robin].
  - by rewrite longest_flat by lia.
  - pose proof (take_round_flat sources) as H1. pose proof (take_round_longest sources) as H2.
    pose proof (take_round_nil sources) as H3. destruct (take_round sources) as [[|x now] rest].
    + by rewrite H3.
    + simpl in H1, H2. rewrite (IH rest) by lia. by rewrite H1.
Qed.

Lemma flat_length (g : BroadcastSource -> SourceCtx) l :
  len (flat ((fun s => (g s, chunks s)) <$> l)) = assigned_of l.
Proof.
  induction l as [|s l IH]; [done|]. unfold assigned_of in *. rewrite !fmap_cons, zsum_cons, <-IH.
  unfold flat. rewrite bind_cons, len_app. unfold len at 1. by rewrite length_fmap.
Qed.

(** ** Names *)
Lemma trim_end_snoc c p : trim_end_matches c (p +:+ String c EmptyString) = trim_end_matches c p.
Proof.
  induction p as [|x p IH]; [by simpl; rewrite Ascii.eqb_refl|].
  change (String x p +:+ String c EmptyString) with (String x (p +:+ String c EmptyString)).
  simpl. by rewrite IH.
Qed.

(** The prefix of a mount is a directory [p], written with or without its final slash. *)
Definition directory_prefix (p prefix : string) : Prop :=
  p <> EmptyString /\ trim_end_matches slash p = p /\ (prefix = p \/ prefix = p +:+ "/").

Lemma blob_path_roundtrip m p rest :
  directory_prefix p (Conf.prefix m) -> trim_start_matches slash rest = rest ->
  blob_path_of (Conf.prefix m) (p +:+ "/" +:+ rest) = rest /\ Fetch.real_path m rest = p +:+ "/" +:+ rest.
Proof.
  intros (Hne & Htrim & Hp) Hrest. unfold blob_path_of, Fetch.real_path.
  assert (He : is_empty (Conf.prefix m) = false).
  { destruct Hp as [-> | ->]; by destruct p. }
  rewrite He. cbn [negb andb]. split.
  - destruct Hp as [-> | ->].
    + rewrite starts_with_app, string_drop_app. simpl. exact Hrest.
    + rewrite <-string_app_assoc, starts_with_app, string_drop_app. exact Hrest.
  - assert (Ht : trim_end_matches slash (Conf.prefix m) = p).
    { destruct Hp as [-> | ->]; [done|]. by rewrite trim_end_snoc. }
    destruct (Conf.prefix m) as [|a s]; [done|]. by rewrite Ht.
Qed.

(** ** Theorems *)

(** Hydration warms exactly the chunks reads ask for: for a blob of a directory-prefixed mount,
    the chunk list the coordinator cuts names the blob as the mount sees it, its chunks are the
    consecutive aligned chunks [0, cs, 2cs, ...] of the file with the lengths a read expects of
    them, and every byte of the blob lies in one of them. *)
Lemma hydrate_keys_match_reads origin M m p rest cs :
  let name := p +:+ "/" +:+ rest in
  let size := len (origin (Conf.account m) (Conf.container m) name) in
  directory_prefix p (Conf.prefix m) -> trim_start_matches slash rest = rest ->
  M !! Conf.name m = Some m -> 0 < cs -> size <= u64_max ->
  (forall c, c ∈ cut_blob cs size (blob_path_of (Conf.prefix m) name) ->
     blob c = rest /\ offset c mod cs = 0 /\ 0 <= offset c < size /\
     clen c = len (Fetch.chunk_of origin M cs (Fetch.chunk_key m (blob c) (offset c)))) /\
  (forall o, 0 <= o < size -> exists c, c ∈ cut_blob cs size (blob_path_of (Conf.prefix m) name) /\
     offset c = o / cs * cs /\ offset c <= o < offset c + clen c).
Proof.
  intros name size Hp Hrest HM Hcs Hsize.
  destruct (blob_path_roundtrip m p rest Hp Hrest) as [Hb Hr]. fold name in Hb, Hr. rewrite Hb.
  pose proof (len_nonneg (origin (Conf.account m) (Conf.container m) name)) as Hpos. fold size in Hpos.
  assert (Hlast : forall i, i < div_ceil size cs <-> i * cs < size).
  { intros i. unfold div_ceil. pose proof (Z.div_mod (size + cs - 1) cs).
    pose proof (Z.mod_pos_bound (size + cs - 1) cs Hcs). nia. }
  rewrite cut_blob_spec by lia. split.
  - intros c (i & -> & Hi%elem_of_seqZ)%list_elem_of_fmap. cbn [blob offset clen].
    assert (i * cs < size) by (apply Hlast; lia).
    split_and!; [done|apply Z.mod_mul; lia|nia|done|]. unfold Fetch.chunk_of, Fetch.content. simpl.
    rewrite HM, Hr. fold size. rewrite len_slice by (fold size; nia). lia.
  - intros o Ho. exists (mkChunkSpec rest (o / cs * cs) (Z.min cs (size - o / cs * cs))).
    pose proof (Z.div_mod o cs). pose proof (Z.mod_pos_bound o cs Hcs). pose proof (Z.div_pos o cs).
    split_and!; cbn [offset clen]; [|done|nia|nia].
    apply list_elem_of_fmap. exists (o / cs). split; [done|]. apply elem_of_seqZ.
    split; [lia|]. apply Hlast. nia.
Qed.

(** The prefix is stripped without regard to the directory boundary. *)
Example prefix_without_boundary :
  let m := Conf.mkMountConfig "m" "/mnt" "acct" "cont" "data" None in
  blob_path_of (Conf.prefix m) "database/x" = "base/x" /\
  Fetch.real_path m "base/x" = "data/base/x".
Proof. split; reflexivity. Qed.

(** Sharding is a balanced partition: dealing any list of chunks to [n] nodes loses and
    repeats nothing, and two nodes' shares differ by at most one chunk. *)
Lemma shard_partition n l :
  (0 < n)%nat ->
  length (shard n l) = n /\ concat (shard n l) ≡ₚ l /\
  (forall i j a b, shard n l !! i = Some a -> shard n l !! j = Some b -> (length a <= length b + 1)%nat).
Proof.
  intros Hn. destruct (shard_facts n l Hn) as (H1 & H2 & H3). split_and!; [done|done|].
  intros i j a b Ha Hb. rewrite (H3 _ _ Ha), (H3 _ _ Hb). apply lookup_lt_Some in Ha, Hb. unfold dealt.
  rewrite <-(Nat.div_add (length l + n - 1 - j) 1 n) by lia. apply Nat.Div0.div_le_mono. lia.
Qed.

(** The counters of a tally whose error list stayed empty. *)
Lemma tally_clean fmt jfmt os fetched bytes :
  tally fmt jfmt os = (fetched, bytes, []) -> len os <= u64_max ->
  fetched = len os /\ Forall (fun o => is_Some (outcome_ok o)) os.
Proof.
  intros H Hlen. destruct (fold_clean outcome_ok _ (tally_step_spec fmt jfmt) _ _ _ _ _ _ H) as [_ Hok].
  split; [|done].
  apply (fold_fetched outcome_ok _ (tally_step_spec fmt jfmt) _ _ _ _ _ _ _ H Hok); lia.
Qed.

Lemma silent_loss_clean assigned fetched errors :
  silent_loss assigned fetched errors = [] -> errors = [] /\ assigned <= sat_add64 fetched 0.
Proof.
  unfold silent_loss. destruct (Z.ltb_spec (sat_add64 fetched (len errors)) assigned) as [|Hge].
  - by intros [_ ?]%app_nil.
  - intros ->. done.
Qed.

Section hydrated.
Context {L : Lru.LruCache}.
Context (sha256 : Bytes -> Bytes) (E : Fetch.Env).
Context (panics : ChunkSpec -> option string) (b64_error : string -> string).
Context (insert_fate : ChunkKey -> string * (string + option Cache.InsertFault)).

Lemma shard_fetches_length m l f : len (shard_fetches sha256 E panics m l f).2 = len l.
Proof. unfold len, shard_fetches. by rewrite run_tasks_length. Qed.

(** C28.  No silent loss: a worker that reports no error has fetched every chunk it was asked for -
    its shard in phase A (and then no cache insert failed either), the chunks of all sources in a
    broadcast, the predecessor's shard in a ring step - and a coordinator accepts a broadcast
    answer without complaint only if it covers every chunk assigned. *)
Theorem worker_accounting mounts clock pulls_ms drain_ms f :
  (forall req, len (sh_chunks req) <= u64_max ->
     let r := (run_shard sha256 E panics insert_fate clock mounts req f).2 in
     sr_errors r = [] -> sr_fetched r = len (sh_chunks req) /\
     exists m, mounts !! sh_mount req = Some m /\
       Fetch.insert_failures (await_inserts_drained sha256 insert_fate
         (shard_fetches sha256 E panics m (sh_chunks req) f).1) = []) /\
  (forall req, assigned_of (br_sources req) <= u64_max ->
     let r := (run_broadcast_shard sha256 E panics insert_fate clock mounts req f).2 in
     bs_errors r = [] ->
     bs_assigned r = assigned_of (br_sources req) /\ bs_fetched r = assigned_of (br_sources req)) /\
  (forall req, len (rg_chunks req) <= u64_max ->
     let r := (run_ring_step sha256 E panics b64_error insert_fate pulls_ms drain_ms
                 (start_unix_ms clock) (end_unix_ms clock) mounts req f).2 in
     rr_errors r = [] -> rr_fetched r = len (rg_chunks req)) /\
  (forall assigned s, assigned <= u64_max -> check_answer assigned s = [] ->
     bs_errors s = [] /\ assigned <= bs_fetched s /\ (bs_assigned s = 0 \/ bs_assigned s = assigned)).
Proof using Type.
  split_and!.
  - intros req Hlen. unfold run_shard. destruct (mounts !! sh_mount req) as [m|]; [|done].
    pose proof (shard_fetches_length m (sh_chunks req) f) as Hl.
    destruct (shard_fetches sha256 E panics m (sh_chunks req) f) as [g os] eqn:Eg.
    destruct (tally _ _ os) as [[fetched bytes] errors] eqn:Et. unfold Fetch.take_insert_failures.
    cbn [snd sr_errors sr_fetched] in *. intros [-> Hf]%failures_clean.
    destruct (tally_clean _ _ _ _ _ Et) as [-> _]; [lia|]. split; [done|]. exists m.
    split; [done|]. by rewrite Eg.
  - intros req Hlen. unfold run_broadcast_shard. destruct (mounts !! br_mount req) as [m|]; [|done].
    set (sources := _ <$> br_sources req).
    pose proof (run_tasks_length panics (pull_task sha256 E m) snd
      (round_robin (longest sources) sources) f) as Hl.
    assert (Hn : len (round_robin (longest sources) sources) = assigned_of (br_sources req)).
    { unfold len. rewrite (Permutation_length (round_robin_flat _ sources (Nat.le_refl _))). apply flat_length. }
    destruct (run_tasks panics _ snd (round_robin (longest sources) sources) f) as [g os].
    destruct (foldl pull_tally_step (0, 0, []) os) as [[fetched bytes] errors] eqn:Et.
    cbn [snd bs_errors bs_fetched bs_assigned] in *. intros [-> _]%silent_loss_clean. split; [done|].
    destruct (fold_clean pull_ok _ pull_tally_step_spec _ _ _ _ _ _ Et) as [_ Hok].
    assert (Hos : len os = assigned_of (br_sources req)) by (unfold len in *; lia).
    rewrite <-Hos.
    apply (fold_fetched pull_ok _ pull_tally_step_spec _ _ _ _ _ _ _ Et Hok); lia.
  - intros req Hlen. unfold run_ring_step. destruct (mounts !! rg_mount req) as [m|]; [|done].
    destruct (match rg_prev_worker_b64 req with Some _ => _ | None => _ end) as [addr|]; [|done].
    match goal with |- context [run_tasks panics ?w ?s ?l f] =>
      pose proof (run_tasks_length panics w s l f) as Hl; destruct (run_tasks panics w s l f) as [g os] end.
    destruct (tally _ _ os) as [[fetched bytes] errors] eqn:Et. cbn [snd rr_errors rr_fetched] in *.
    intros ->. destruct (tally_clean _ _ _ _ _ Et) as [-> _]; unfold len in *; lia.
  - intros assigned s Hmax. unfold check_answer. set (errors := if _ && _ then _ else _).
    destruct (Z.ltb_spec (sat_add64 (bs_fetched s) (len errors)) assigned) as [|Hge];
      [by intros [_ ?]%app_nil|].
    intros He. rewrite He, len_nil in Hge. unfold sat_add64 in Hge. subst errors.
    destruct (Z.eqb_spec (bs_assigned s) 0), (Z.eqb_spec (bs_assigned s) assigned);
      cbn [negb andb] in He; try done; (split; [done|]); (split; [lia|auto]).
Qed.

(** ** A shard in an honest world *)
Context (origin : string -> string -> string -> Bytes) (M : gmap string Conf.MountConfig).
Context (Hsha : collision_free sha256).

Lemma drain_coherent l f :
  Fetch.coherent sha256 origin M f -> Fetch.spawned f = l ->
  (forall k, Fetch.temporary (insert_fate k).1) ->
  Fetch.coherent sha256 origin M (drain sha256 insert_fate l f).
Proof using Hsha.
  intros Hc Hl Htmp. revert f Hc Hl. induction l as [|[k d] t IH]; intros f Hc Hl; simpl; [done|].
  destruct (Fetch.co_spawned _ _ _ _ Hc k d) as [Hk Hp]; [rewrite Hl; left|].
  assert (Hg : Fetch.coherent sha256 origin M (Fetch.set_spawned t f)).
  { destruct Hc as [Ha Hb Hsp Hlru]. split; try done. simpl. intros k' d' Hin. apply Hsp. rewrite Hl. by right. }
  apply IH.
  - by apply (Fetch.finish_insert_leaves sha256 origin M Hsha (insert_fate k).1 (insert_fate k).2 k d
      (Fetch.set_spawned t f) Hg (Htmp k) Hk Hp).
  - unfold Fetch.finish_insert, Fetch.record_insert_failure. by repeat case_match; simplify_eq/=.
Qed.

(** A chunk of the shard that the origin can serve. *)
Definition servable (cs : Z) (m : Conf.MountConfig) (f : Fetch.Fetcher) (c : ChunkSpec) : Prop :=
  let k := Fetch.chunk_key m (blob c) (offset c) in
  Fetch.known M m (blob c) (offset c) /\ clen c = len (Fetch.chunk_of origin M cs k) /\
  Fetch.origin_answers E cs m (blob c) (offset c) /\ k ∉ Fetch.inflight f /\ panics c = None.

Lemma shard_fetches_ok cs m l f :
  Fetch.coherent sha256 origin M f -> Fetch.chunk_size (Fetch.cfg f) = cs ->
  Fetch.honest origin M cs E -> Fetch.joined E = true -> Forall (servable cs m f) l ->
  let p := shard_fetches sha256 E panics m l f in
  Fetch.coherent sha256 origin M p.1 /\
  p.2 = (fun c => inr (c, Ok (Fetch.chunk_of origin M cs (Fetch.chunk_key m (blob c) (offset c))))) <$> l.
Proof using Type.
  intros Hc Hcs Hho Hj. revert f Hc Hcs. induction l as [|c l IH]; intros f Hc Hcs Hl; [by split|].
  apply Forall_cons in Hl as [(Hk & Hlen & Hor & Hni & Hpan) Hl].
  unfold shard_fetches in *. cbn [run_tasks fmap list_fmap]. rewrite Hpan.
  change (Fetch.fetch_chunk_origin_only sha256 E m (blob c) (offset c) (clen c) f)
    with (Fetch.fetch_chunk_inner sha256 E m (blob c) (offset c) (clen c) true f). rewrite Hlen.
  set (want := Fetch.chunk_of origin M cs (Fetch.chunk_key m (blob c) (offset c))).
  pose proof (Fetch.fetch_chunk_inner_leaves sha256 origin M E cs Hho m (blob c) (offset c) (len want) true
    f Hc Hcs Hk) as (Hgc & Hgcfg & Hgi & HQ).
  destruct (Fetch.fetch_chunk_inner_ok sha256 origin M E cs Hho m (blob c) (offset c) true f Hc Hcs Hk Hor Hj Hni)
    as [d Hd]. fold want in Hd.
  destruct (Fetch.fetch_chunk_inner sha256 E m (blob c) (offset c) (len want) true f) as [g r].
  simpl in Hgc, Hgcfg, Hgi, HQ, Hd. subst r. destruct (HQ d eq_refl) as [Hp Hdl].
  rewrite (Fetch.prefix_full _ _ Hp Hdl). clear Hk Hor Hni Hlen.
  destruct (IH g Hgc) as [H1 H2]; [by rewrite Hgcfg| |].
  { eapply Forall_impl; [exact Hl|]. intros c' (? & ? & ? & ? & ?). split_and!; try done. by rewrite Hgi. }
  destruct (run_tasks panics _ _ l g) as [h os]. cbn [fst snd] in *. by rewrite H2.
Qed.

(** Hydrating a shard succeeds: on a coherent node in an honest world whose origin serves the
    shard's chunks, [run_shard] fetches all of them - it reports their exact number and total size,
    its errors are the insert failures of the drained writes and nothing else - and the node stays
    coherent. *)
Lemma shard_complete cs clock m req f :
  let final := (shard_fetches sha256 E panics m (sh_chunks req) f).1 in
  Fetch.coherent sha256 origin M f -> Fetch.chunk_size (Fetch.cfg f) = cs ->
  Fetch.honest origin M cs E -> Fetch.joined E = true -> M !! sh_mount req = Some m ->
  (forall k, Fetch.temporary (insert_fate k).1) -> Forall (servable cs m f) (sh_chunks req) ->
  len (sh_chunks req) <= u64_max -> zsum (clen <$> sh_chunks req) <= u64_max ->
  let '(f', r) := run_shard sha256 E panics insert_fate clock M req f in
  Fetch.coherent sha256 origin M f' /\ sr_fetched r = len (sh_chunks req) /\
  sr_bytes r = zsum (clen <$> sh_chunks req) /\
  (Fetch.insert_failures (await_inserts_drained sha256 insert_fate final) = [] -> sr_errors r = []).
Proof using Hsha.
  intros final Hc Hcs Hho Hj HM Htmp Hl Hn Hb. subst final. unfold run_shard. rewrite HM.
  destruct (shard_fetches_ok cs m (sh_chunks req) f Hc Hcs Hho Hj Hl) as [Hgc Hos].
  destruct (shard_fetches sha256 E panics m (sh_chunks req) f) as [g os]. cbn [fst snd] in Hgc, Hos |- *.
  assert (Hsum : ok_bytes outcome_ok <$> os = clen <$> sh_chunks req).
  { rewrite Hos, <-list_fmap_compose. apply list_fmap_ext. intros i c Hi. simpl. unfold ok_bytes. simpl.
    symmetry. apply (proj1 (Forall_lookup _ _) Hl _ _ Hi). }
  assert (Hlen : len os = len (sh_chunks req)) by (rewrite Hos; unfold len; by rewrite length_fmap).
  assert (Hok : Forall (fun o => is_Some (outcome_ok o)) os).
  { rewrite Hos. apply Forall_fmap, Forall_forall. intros c _. simpl. eauto. }
  unfold tally. rewrite (fold_all_ok outcome_ok _ (tally_step_spec _ _) os 0 0 [] Hok);
    [|lia|lia|lia|rewrite Hsum; lia].
  unfold Fetch.take_insert_failures. cbn [sr_fetched sr_bytes sr_errors].
  split_and!; [|lia|by rewrite Hsum, Z.add_0_l|by intros ->].
  assert (Hd : Fetch.coherent sha256 origin M (await_inserts_drained sha256 insert_fate g))
    by (by apply drain_coherent).
  destruct Hd; by split.
Qed.
End hydrated.

Section coordinated.
Context {L : Lru.LruCache}.
Context (sha256 : Bytes -> Bytes) (E : Fetch.Env).
Context (panics : ChunkSpec -> option string) (b64_error : string -> string).
Context (insert_fate : ChunkKey -> string * (string + option Cache.InsertFault)).
Context (mounts : gmap string Conf.MountConfig) (W : World).

(** The entries of phase A: each under the name of its target, with what it was assigned. *)
Lemma shard_tasks_entries mount i l f :
  let ps := (shard_tasks sha256 E panics insert_fate mounts W mount i l f).2 in
  length ps = length l /\
  forall j t cs p, l !! j = Some (t, cs) -> ps !! j = Some p ->
    match w_join W (i + j) with
    | Some e => p = unknown_stats e
    | None => ps_node_id p = t_id t /\ ps_assigned p = len cs
    end.
Proof using Type.
  revert i f. induction l as [|[t cs] l IH]; intros i f; [by split|]. cbn [shard_tasks].
  assert (Hs : forall p, p = shard_task sha256 E panics insert_fate mounts W mount t cs f ->
    ps_node_id p.2 = t_id t /\ ps_assigned p.2 = len cs).
  { intros p ->. unfold shard_task, failed_stats. by repeat case_match; simplify_eq/=. }
  destruct (shard_task sha256 E panics insert_fate mounts W mount t cs f) as [g s].
  specialize (Hs _ eq_refl). destruct (IH (S i) g) as [H1 H2].
  destruct (shard_tasks sha256 E panics insert_fate mounts W mount (S i) l g) as [h ss].
  cbn [fst snd] in *. split; [simpl; by rewrite H1|]. intros [|j] t' cs' p.
  - intros [= <- <-] [= <-]. rewrite Nat.add_0_r. by destruct (w_join W i).
  - replace (i + S j)%nat with (S i + j)%nat by lia. apply H2.
Qed.

Lemma shard_tasks_assigned mount i l f :
  (forall j, w_join W j = None) ->
  ps_assigned <$> (shard_tasks sha256 E panics insert_fate mounts W mount i l f).2 = len <$> l.*2.
Proof using Type.
  intros Hj. destruct (shard_tasks_entries mount i l f) as [Hl He].
  destruct (shard_tasks sha256 E panics insert_fate mounts W mount i l f) as [g ps]. cbn [snd] in *.
  apply list_eq_same_length with (n := length l); rewrite ?length_fmap; [done..|].
  intros j x y _ (p & -> & Hp)%list_lookup_fmap_Some_1 (z & -> & Hz)%list_lookup_fmap_Some_1.
  apply list_lookup_fmap_Some_1 in Hz as ([t cs] & -> & Hz). specialize (He j t cs p Hz Hp).
  rewrite Hj in He. apply He.
Qed.

Lemma zsum_lens {A} (l : list (list A)) : zsum (len <$> l) = len (concat l).
Proof. induction l as [|x l IH]; [done|]. rewrite fmap_cons, zsum_cons, IH. simpl. by rewrite len_app. Qed.

Lemma targets_pos me ms : (0 < length (targets me ms))%nat.
Proof. simpl. lia. Qed.

(** What the receiver [rcv] answered to [body]: its own worker here, a POST elsewhere. *)
Definition answered (me_id : string) (rcv : BroadcastSource) (body : HydrateRingStepRequest)
    (a : HydrateRingStepResponse) : Prop :=
  if String.eqb (node_id rcv) me_id
  then exists g, a = (run_ring_step sha256 E panics b64_error insert_fate (elapsed_ms (w_clock W)) 0
                        (start_unix_ms (w_clock W)) (end_unix_ms (w_clock W)) mounts body g).2
  else a = ring_post W rcv body.

#[local] Abbreviation tasks := (ring_tasks sha256 E panics b64_error insert_fate mounts W).
#[local] Abbreviation loop := (ring_loop sha256 E panics b64_error insert_fate mounts W).

(** One step: every receiver of [l] is sent its request. *)
Lemma ring_tasks_spec mount me sp k i l f :
  (forall j, w_join W j = None) ->
  let results := (tasks mount me sp k i l f).2 in
  results.*1 = node_id <$> l /\
  forall j rcv, l !! j = Some rcv -> exists a, results !! j = Some (node_id rcv, a) /\
    answered me rcv (ring_request mount sp k (i + j) rcv) a.
Proof using Type.
  intros Hj. revert i f. induction l as [|r l IH]; intros i f; [by split|]. cbn [ring_tasks]. rewrite Hj.
  assert (Ht : forall p, p = ring_task sha256 E panics b64_error insert_fate mounts W mount me sp k i r f ->
    exists a, p.2 = (node_id r, a) /\ answered me r (ring_request mount sp k i r) a).
  { intros p ->. unfold ring_task, answered. destruct (String.eqb (node_id r) me).
    - destruct (run_ring_step _ _ _ _ _ _ _ _ _ _ _ _) as [g a] eqn:Er. exists a. split; [done|]. exists f. by rewrite Er.
    - eauto. }
  destruct (ring_task sha256 E panics b64_error insert_fate mounts W mount me sp k i r f) as [g x].
  destruct (Ht _ eq_refl) as (a & Hx & Ha). cbn [snd] in Hx. subst x. destruct (IH (S i) g) as [H1 H2].
  destruct (tasks mount me sp k (S i) l g) as [h xs]. cbn [fst snd fmap list_fmap] in *.
  split; [by rewrite H1|]. intros [|j] rcv Hl.
  - injection Hl as ->. exists a. by rewrite Nat.add_0_r.
  - replace (i + S j)%nat with (S i + j)%nat by lia. by apply H2.
Qed.

(** The answers of a step go to the entries of their nodes. *)
Lemma alter_other {A B} (g : B -> A -> A) (l : list (string * B)) (m : gmap string A) i :
  i ∉ l.*1 -> foldl (fun m x => alter (g x.2) x.1 m) m l !! i = m !! i.
Proof using Type.
  clear. revert m. induction l as [|[n b] l IH]; intros m; [done|]. rewrite fmap_cons, not_elem_of_cons.
  intros [H1 H2]. simpl. rewrite IH by done. by apply lookup_alter_ne.
Qed.

Lemma alter_own {A B} (g : B -> A -> A) (l : list (string * B)) (m : gmap string A) j i b :
  NoDup l.*1 -> l !! j = Some (i, b) ->
  foldl (fun m x => alter (g x.2) x.1 m) m l !! i = g b <$> m !! i.
Proof using Type.
  clear. revert m j. induction l as [|[n b'] l IH]; intros m j; [done|]. rewrite fmap_cons, NoDup_cons.
  intros [Hn Hnd] Hj. simpl. destruct j as [|j]; simpl in Hj.
  - injection Hj as -> ->. rewrite alter_other by done. by rewrite lookup_alter_eq.
  - rewrite (IH _ j) by done. rewrite lookup_alter_ne; [done|]. intros ->. apply Hn.
    apply list_elem_of_fmap. exists (i, b). split; [done|]. by eapply list_elem_of_lookup_2.
Qed.

(** The whole loop, from the side of one receiver. *)
Lemma ring_loop_spec T mount me sp ks m f r own ps :
  (forall k, late_before T k = false /\ late_during T k = None) -> (forall j, w_join W j = None) ->
  NoDup (node_id <$> sp) -> sp !! r = Some own -> m !! node_id own = Some ps ->
  let '(_, m', steps) := loop T mount me sp ks m f in
  length steps = length ks /\
  exists answers, Forall2 (fun k a => answered me own (ring_request mount sp k r own) a) ks answers /\
    m' !! node_id own = Some (foldl (fun p a => add_answer a p) ps answers).
Proof using Type.
  intros HT Hj Hnd Hr. revert m f ps. induction ks as [|k ks IH]; intros m f ps Hps; cbn [ring_loop].
  { split; [done|]. exists []. split; [constructor|done]. }
  destruct (HT k) as [-> ->]. pose proof (ring_tasks_spec mount me sp k 0 sp f Hj) as [Hid Hres].
  destruct (tasks mount me sp k 0 sp f) as [g results]. cbn [snd] in *.
  destruct (Hres r own Hr) as (a & Ha & Hans). rewrite <- Hid in Hnd.
  assert (Hm : foldl (fun m x => alter (add_answer x.2) x.1 m) m results !! node_id own = Some (add_answer a ps))
    by (rewrite (alter_own add_answer _ m r (node_id own) a Hnd Ha), Hps; done).
  specialize (IH _ g _ Hm). destruct (loop T mount me sp ks _ g) as [[h m'] steps].
  destruct IH as (Hl & answers & HF & Hm'). split; [simpl; by rewrite Hl|].
  exists (a :: answers). split; [by constructor|done].
Qed.

(** The accumulated counters of an entry. *)
Lemma answers_sum ps answers :
  is_u64 (ps_fetched ps) -> is_u64 (ps_bytes ps) ->
  let ps' := foldl (fun p a => add_answer a p) ps answers in
  ps_node_id ps' = ps_node_id ps /\ ps_assigned ps' = ps_assigned ps /\
  ps_fetched ps' = wrap64 (ps_fetched ps + zsum (rr_fetched <$> answers)) /\
  ps_bytes ps' = wrap64 (ps_bytes ps + zsum (rr_bytes <$> answers)) /\
  (ps_errors ps' = [] <-> ps_errors ps = [] /\ Forall (fun a => rr_errors a = []) answers).
Proof using Type.
  clear. revert ps. induction answers as [|a l IH]; intros ps Hf Hb; cbv zeta; cbn [foldl].
  { cbn [fmap list_fmap zsum foldr]. rewrite !Z.add_0_r, !wrap64_small by done. split_and!; try done. split; [|tauto]. auto. }
  destruct (IH (add_answer a ps)) as (H1 & H2 & H3 & H4 & H5); [apply wrap64_range..|].
  cbn [add_answer ps_node_id ps_assigned ps_fetched ps_bytes ps_errors] in *.
  split_and!; [done|done| | |].
  - rewrite H3, fmap_cons, zsum_cons. unfold wadd64, wrap64. rewrite Zplus_mod_idemp_l. f_equal. lia.
  - rewrite H4, fmap_cons, zsum_cons. unfold wadd64, wrap64. rewrite Zplus_mod_idemp_l. f_equal. lia.
  - rewrite H5, Forall_cons. destruct (rr_errors a) as [|e es]; [tauto|]. split; [|by intros (_ & ? & _)].
    intros [He _]. exfalso. revert He. generalize (ps_errors ps). clear. revert e.
    induction es as [|e' es IH]; intros e x; simpl; [apply push_capped_not_nil|apply IH].
Qed.

(** The entry an insertion leaves, when no later one is for the same name. *)
Lemma insert_fold_lookup {A B} (key : A -> string) (g : A -> B) (l : list A) (m : gmap string B) r x :
  NoDup (key <$> l) -> l !! r = Some x ->
  foldl (fun m y => <[key y := g y]> m) m l !! key x = Some (g x).
Proof using Type.
  clear. revert r m. induction l as [|y l IH]; intros r m; [done|]. rewrite fmap_cons, NoDup_cons.
  intros [Hn Hnd] Hr. simpl. destruct r as [|r]; simpl in Hr; [injection Hr as ->|by apply (IH r)].
  assert (Hk : forall m' : gmap string B, foldl (fun m y => <[key y := g y]> m) m' l !! key x = m' !! key x).
  { clear IH Hnd. revert Hn. induction l as [|z l IHl]; intros Hn m'; [done|].
    rewrite fmap_cons, not_elem_of_cons in Hn. simpl. rewrite IHl by tauto. apply lookup_insert_ne. intuition congruence. }
  by rewrite Hk, lookup_insert_eq.
Qed.

(** The chunks assigned to a receiver are those its requests ask for. *)
Lemma assigned_requests mount sp r own :
  NoDup (node_id <$> sp) -> sp !! r = Some own ->
  assigned_of (filter (fun p => node_id p <> node_id own) sp)
  = len (concat ((fun k => rg_chunks (ring_request mount sp k r own)) <$> seq 1 (length sp - 1))).
Proof using Type.
  clear. intros Hnd Hr. pose proof (requests_cover mount sp r own Hr) as Hc.
  apply Permutation_length in Hc. rewrite length_app in Hc.
  assert (Hp : sp ≡ₚ own :: filter (fun p => node_id p <> node_id own) sp).
  { apply list_elem_of_split_length in Hr as (l1 & l2 & -> & _).
    rewrite fmap_app, fmap_cons, NoDup_app, NoDup_cons in Hnd. destruct Hnd as (_ & Hd & Hn & _).
    assert (Hall : forall l : list BroadcastSource, node_id own ∉ node_id <$> l -> filter (fun p => node_id p <> node_id own) l = l).
    { induction l as [|y l IH]; intros Hy; [done|]. rewrite fmap_cons, not_elem_of_cons in Hy.
      rewrite filter_cons_True by intuition congruence. by rewrite IH by tauto. }
    rewrite filter_app, filter_cons_False by tauto. rewrite !Hall; [|done|].
    - by rewrite Permutation_middle.
    - intros Hin. apply (Hd _ Hin). left. }
  unfold assigned_of. change (fun s => len (chunks s)) with (len ∘ chunks). rewrite list_fmap_compose, zsum_lens.
  rewrite Hp in Hc at 2. rewrite fmap_cons in Hc. cbn [concat] in Hc. rewrite length_app in Hc. unfold len. lia.
Qed.

(** The requests follow the ring: what is pulled from the predecessor is what it was sent before. *)
Lemma request_chain mount sp r own :
  sp !! r = Some own -> (2 <= length sp)%nat ->
  exists prev, sp !! prev_idx (length sp) r = Some prev /\ forall k, (0 < k < length sp)%nat ->
    rg_step (ring_request mount sp k r own) = Z.of_nat k /\
    rg_prev_node_id (ring_request mount sp k r own) = node_id prev /\
    rg_prev_transport_url (ring_request mount sp k r own) = src_transport_url prev /\
    rg_chunks (ring_request mount sp k r own)
    = if decide (k = 1%nat) then chunks prev
      else rg_chunks (ring_request mount sp (k - 1) (prev_idx (length sp) r) prev).
Proof using Type.
  clear. intros Hr Hw. pose proof (lookup_lt_Some _ _ _ Hr) as Hlt.
  destruct (lookup_lt_is_Some_2 sp (prev_idx (length sp) r)) as [prev Hprev].
  { change (prev_idx (length sp) r) with (source_rank (length sp) r 1). apply source_rank_lt; lia. }
  exists prev. split; [done|]. intros k Hk. unfold ring_request. rewrite Hprev. split_and!; [done..|].
  destruct (decide (k = 1%nat)) as [->|Hne].
  - change (source_rank (length sp) r 1) with (prev_idx (length sp) r). by rewrite Hprev.
  - rewrite source_rank_chain by lia. replace (S (k - 1)) with k by lia.
    destruct (lookup_lt_is_Some_2 sp (source_rank (length sp) r k)) as [x ->]; [apply source_rank_lt; lia|done].
Qed.

(** Complete answers add up to the chunks asked for. *)
Lemma answers_total (g : nat -> list ChunkSpec) ks answers :
  Forall2 (fun k a => rr_fetched a = len (g k) /\ rr_errors a = []) ks answers ->
  zsum (rr_fetched <$> answers) = len (concat (g <$> ks)).
Proof using Type.
  clear. induction 1 as [|k a ks l [Ha _] _ IH]; [done|]. rewrite !fmap_cons, zsum_cons, IH, Ha.
  cbn [concat]. by rewrite len_app.
Qed.

(** C27.  The ring all-gather is complete and needs no fallback.  For a plan of [w] nodes with
    different names, without timeouts and lost tasks: the phase takes [w - 1] steps; in step [k] it
    sends each receiver one request, for chunks that its predecessor - the node it is told to pull
    from - owns ([k = 1]) or was itself sent in the step before; over all steps the requests of a
    receiver together with its own shard are exactly all chunks of the plan; and the entry of the
    receiver in the report is the sum of the answers to these requests, so that it is complete -
    as many fetched as assigned, no errors - when each of them is. *)
Theorem ring_allgather T mount me plan f r own :
  let sp := stable_sort (fun a b => str_le (node_id a) (node_id b)) plan in
  let w := length plan in
  let request := ring_request mount sp in
  (2 <= w)%nat -> NoDup (node_id <$> plan) -> (forall k, late_before T k = false /\ late_during T k = None) ->
  (forall j, w_join W j = None) -> sp !! r = Some own ->
  let '(_, (peers, steps)) := run_ring_phase sha256 E panics b64_error insert_fate mounts W T mount me plan f in
  length steps = (w - 1)%nat /\
  (exists prev, sp !! prev_idx w r = Some prev /\ forall k, (0 < k < w)%nat ->
     rg_step (request k r own) = Z.of_nat k /\ rg_prev_node_id (request k r own) = node_id prev /\
     rg_prev_transport_url (request k r own) = src_transport_url prev /\
     rg_chunks (request k r own)
     = if decide (k = 1%nat) then chunks prev else rg_chunks (request (k - 1)%nat (prev_idx w r) prev)) /\
  chunks own ++ concat ((fun k => rg_chunks (request k r own)) <$> seq 1 (w - 1))
    ≡ₚ concat (chunks <$> plan) /\
  exists answers entry,
    Forall2 (fun k a => answered me own (request k r own) a) (seq 1 (w - 1)) answers /\
    entry ∈ peers /\ ps_node_id entry = node_id own /\
    ps_assigned entry = len (concat ((fun k => rg_chunks (request k r own)) <$> seq 1 (w - 1))) /\
    ps_fetched entry = wrap64 (zsum (rr_fetched <$> answers)) /\
    ps_bytes entry = wrap64 (zsum (rr_bytes <$> answers)) /\
    (ps_errors entry = [] <-> Forall (fun a => rr_errors a = []) answers) /\
    (Forall2 (fun k a => rr_fetched a = len (rg_chunks (request k r own)) /\ rr_errors a = []) (seq 1 (w - 1)) answers ->
     ps_assigned entry <= u64_max -> ps_fetched entry = ps_assigned entry /\ ps_errors entry = []).
Proof using Type.
  intros sp w request Hw Hnd HT Hj Hr.
  assert (Hp : sp ≡ₚ plan) by apply stable_sort_permutation.
  assert (Hlen : length sp = w) by (by rewrite Hp).
  assert (Hsnd : NoDup (node_id <$> sp)) by (by rewrite Hp).
  pose proof (lookup_lt_Some _ _ _ Hr) as Hrw. rewrite Hlen in Hrw.
  unfold run_ring_phase. fold sp. rewrite Hlen. destruct (Nat.ltb_spec w 2) as [|_]; [lia|].
  pose proof (ring_loop_spec T mount me sp (seq 1 (w - 1)) (ring_start sp) f r own _ HT Hj Hsnd Hr
    (insert_fold_lookup node_id _ sp ∅ r own Hsnd Hr)) as Hloop.
  destruct (loop T mount me sp (seq 1 (w - 1)) (ring_start sp) f) as [[g m] steps].
  destruct Hloop as (Hsteps & answers & HF & Hm). rewrite length_seq in Hsteps.
  destruct (answers_sum (mkPeerStats (node_id own) (assigned_of (filter (fun p => node_id p <> node_id own) sp)) 0 0 []
    (mkClock 0 0 0)) answers) as (H1 & H2 & H3 & H4 & H5); [by vm_compute..|].
  set (entry := foldl _ _ answers) in *. cbn [ps_node_id ps_assigned ps_fetched ps_bytes ps_errors] in H1, H2, H3, H4, H5.
  rewrite Z.add_0_l in H3, H4. rewrite (assigned_requests mount sp r own Hsnd Hr), Hlen in H2.
  split_and!; [done|rewrite <- Hlen; apply request_chain; [done|lia]|rewrite <- Hp, <- Hlen; by apply requests_cover|].
  exists answers, (close_stats (elapsed_ms (w_clock W)) entry). split_and!; try done.
  - rewrite stable_sort_permutation. apply list_elem_of_fmap_2, list_elem_of_fmap.
    exists (node_id own, entry). split; [done|]. by apply elem_of_map_to_list.
  - cbn [close_stats ps_errors]. rewrite H5. tauto.
  - intros Hok Hmax. cbn [close_stats ps_fetched ps_assigned ps_errors]. rewrite H5. split; [|split; [done|]].
    + cbn [close_stats ps_assigned] in Hmax. rewrite H2 in *. rewrite H3.
      rewrite (answers_total (fun k => rg_chunks (ring_request mount sp k r own)) _ _ Hok).
      apply wrap64_small. split; [apply len_nonneg|done].
    + clear -Hok. induction Hok; constructor; [tauto|done].
Qed.

(** The names of the targets, spelled out. *)
Lemma targets_names me ms :
  t_id <$> targets me ms = me :: (id <$> filter (fun n => state n = Alive /\ id n <> me) ms).
Proof using Type.
  clear. unfold targets. cbn [fmap list_fmap]. f_equal. rewrite <- list_fmap_compose.
  rewrite (list_filter_iff _ (fun n => state n = Alive /\ id n <> me)); [done|].
  intros n. unfold is_alive. destruct (state n); naive_solver.
Qed.

(** What phase A reports. *)
Lemma phase_a_report mount me mem all timeout f :
  let others := filter (fun n => state n = Alive /\ id n <> me) (members_all mem) in
  let ts := targets me (members_all mem) in
  let ps := (phase_a sha256 E panics insert_fate mounts W timeout mount (zip ts (shard (length ts) all)) f).2 in
  match timeout with
  | Some _ => exists p e, ps = [p] /\ ps_node_id p = "coordinator" /\ ps_errors p = [e]
  | None =>
      length ps = S (length others) /\
      (forall j p, ps !! j = Some p ->
         match w_join W j with
         | Some e => p = unknown_stats e
         | None => (me :: (id <$> others)) !! j = Some (ps_node_id p)
         end) /\
      ((forall j, w_join W j = None) -> zsum (ps_assigned <$> ps) = len all)
  end.
Proof using Type.
  intros others ts. destruct timeout as [g|]; [by eexists _, _|]. cbn [phase_a].
  pose proof (shard_facts (length ts) all (targets_pos me (members_all mem))) as (Hs1 & Hs2 & _).
  destruct (shard_tasks_entries mount 0 (zip ts (shard (length ts) all)) f) as [Hl He].
  pose proof (shard_tasks_assigned mount 0 (zip ts (shard (length ts) all)) f) as Has.
  cbv zeta. set (ps := (shard_tasks _ _ _ _ _ _ _ _ _ _).2) in *. rewrite length_zip, Hs1, Nat.min_id in Hl.
  assert (Hts : t_id <$> ts = me :: (id <$> others)) by apply targets_names. split_and!.
  - rewrite Hl, <- (length_fmap t_id), Hts. simpl. by rewrite length_fmap.
  - intros j p Hp. pose proof (lookup_lt_Some _ _ _ Hp) as Hj. rewrite Hl in Hj.
    destruct (lookup_lt_is_Some_2 ts j Hj) as [t Ht]. rewrite <- Hs1 in Hj.
    destruct (lookup_lt_is_Some_2 _ j Hj) as [b Hb].
    assert (Hz : zip ts (shard (length ts) all) !! j = Some (t, b)) by (apply lookup_zip_with_Some; eauto).
    specialize (He j t b p Hz Hp). simpl in He. destruct (w_join W j); [done|]. destruct He as [-> _].
    by rewrite <- Hts, list_lookup_fmap, Ht.
  - intros Hj. rewrite (Has Hj), snd_zip, zsum_lens by lia. unfold len. by rewrite (Permutation_length Hs2).
Qed.

(** C29.  The coordinator's report accounts for every branch of a hydration that returns one.  When the
    listing has no chunks the report has no entries; when the global timeout fires in phase A it has
    one entry, the coordinator's, with an error; otherwise it has one entry for this node and one for
    every other alive node of the table, in its order, each under its name or, if its task was lost to
    a panic, unknown, and if none was lost the assigned counts add up to the chunks found.  Phase B ran
    exactly when there were chunks, the mode asks for it, and no entry of phase A carries an error. *)
Theorem coordinator_accounts T env req cs blobs mem me url f f' r :
  run_coordinator sha256 E panics b64_error insert_fate mounts W T env req cs blobs mem me url f
    = (f', Ok r) ->
  let others := filter (fun n => state n = Alive /\ id n <> me) (members_all mem) in
  0 <= hr_total_chunks r /\
  (hr_total_chunks r = 0 -> hr_peers r = []) /\
  (0 < hr_total_chunks r ->
     match t_phase_a T with
     | Some _ => exists p e, hr_peers r = [p] /\ ps_node_id p = "coordinator" /\ ps_errors p = [e]
     | None =>
         length (hr_peers r) = S (length others) /\
         (forall j p, hr_peers r !! j = Some p ->
            match w_join W j with
            | Some e => p = unknown_stats e
            | None => (me :: (id <$> others)) !! j = Some (ps_node_id p)
            end) /\
         ((forall j, w_join W j = None) -> zsum (ps_assigned <$> hr_peers r) = hr_total_chunks r)
     end) /\
  (hr_phase_b r = true <->
     0 < hr_total_chunks r /\ hr_mode r <> Default /\ Forall (fun p => ps_errors p = []) (hr_peers r)).
Proof using Type.
  unfold run_coordinator. destruct (mounts !! hy_mount req) as [m|]; [|done].
  destruct (blobs !! hy_mount req) as [lb|]; [|done]. destruct (lb _ _ _ _) as [listed|e]; [|done].
  destruct (enumerate_chunks cs (Conf.prefix m) listed) as [all files].
  destruct all as [|c0 all0].
  { simpl. intros [= <- <-]. simpl. split_and!; [lia|done|lia|]. split; [done|]. intros (? & _). lia. }
  cbn [nilb]. set (all := c0 :: all0). set (others := filter _ (members_all mem)).
  pose proof (phase_a_report (hy_mount req) me mem all (t_phase_a T) f) as Ha. cbv zeta in Ha.
  set (ts := targets me (members_all mem)) in *. set (buckets := shard (length ts) all) in *.
  destruct (phase_a sha256 E panics insert_fate mounts W (t_phase_a T) (hy_mount req) (zip ts buckets) f)
    as [g peers] eqn:Ea. cbn [snd] in Ha.
  set (mode := hydrate_mode env (hy_mode req)).
  unfold run_phase_b. set (clean := forallb _ peers).
  assert (Hclean : clean = true <-> Forall (fun p => ps_errors p = []) peers).
  { subst clean. rewrite forallb_forall, Forall_forall. split; intros H p Hp; specialize (H p);
      rewrite <-list_elem_of_In in H || rewrite list_elem_of_In in H; specialize (H Hp); by destruct (ps_errors p). }
  intros Hrun.
  assert (Hr : hr_peers r = peers /\ hr_total_chunks r = len all /\ hr_mode r = mode /\
    (hr_phase_b r = true <-> mode <> Default /\ clean = true)).
  { destruct mode, clean; repeat case_match; simplify_eq/=; split_and!; try done; split; try done; tauto. }
  assert (Hpos : 0 < len all) by (unfold all; rewrite len_cons; pose proof (len_nonneg all0); lia).
  destruct Hr as (-> & -> & -> & Hb). split_and!; [lia|lia|by intros _|]. rewrite Hb, Hclean. tauto.
Qed.
End coordinated.

(** ** Witnesses *)
Definition demo_chunks : list ChunkSpec := [mkChunkSpec "f" 0 4; mkChunkSpec "f" 4 4; mkChunkSpec "f" 8 2].

Definition demo_plan : list BroadcastSource :=
  [mkSource "a" "http://a:7772" None [mkChunkSpec "f" 0 4];
   mkSource "b" "http://b:7772" None [mkChunkSpec "f" 4 4];
   mkSource "c" "http://c:7772" None [mkChunkSpec "f" 8 2]].

Definition demo_fate (k : ChunkKey) : string * (string + option Cache.InsertFault) := (".tmp.1.00", inr None).

Lemma worker_accounting_witness :
  let r := (run_shard (fun l => l) Fetch.demo_env (fun _ => None) demo_fate (mkClock 0 0 0)
              Fetch.demo_mounts (mkShardRequest "m" demo_chunks) Fetch.demo_fetcher).2 in
  sr_errors r = [] /\ sr_fetched r = 3.
Proof.
  split; [vm_compute; reflexivity|].
  pose proof (worker_accounting (L := Lru.list_lru) (fun l => l) Fetch.demo_env (fun _ => None) (fun e => e)
    demo_fate Fetch.demo_mounts (mkClock 0 0 0) 0 0 Fetch.demo_fetcher) as [H _].
  apply (H (mkShardRequest "m" demo_chunks)); [done|vm_compute; reflexivity].
Defined.

(** Three nodes whose ring requests are answered in full; [a] runs the phase and pulls from [c]. *)
Definition ring_world : World :=
  mkWorld (fun _ _ => PostError "down") (fun _ _ => PostError "down")
    (fun _ r => Answer (mkRingResponse (len (rg_chunks r)) 0 [] 0 0 0 0)) (fun _ => None) (mkClock 0 0 0)
    (mkClock 0 0 0) 3700 0.

Definition ring_timely : @RingTimeouts Lru.list_lru := mkRingTimeouts (fun _ => false) (fun _ => None).

Lemma ring_allgather_witness :
  let '(_, (peers, steps)) :=
    run_ring_phase (fun l => l) Fetch.demo_env (fun _ => None) (fun e => e) demo_fate Fetch.demo_mounts
      ring_world ring_timely "m" "a" demo_plan Fetch.demo_fetcher in
  length steps = 2%nat /\ exists entry, entry ∈ peers /\ ps_node_id entry = "b" /\ ps_fetched entry = 2.
Proof.
  pose proof (ring_allgather (L := Lru.list_lru) (fun l => l) Fetch.demo_env (fun _ => None) (fun e => e) demo_fate
    Fetch.demo_mounts ring_world ring_timely "m" "a" demo_plan Fetch.demo_fetcher 1
    (mkSource "b" "http://b:7772" None [mkChunkSpec "f" 4 4])) as H.
  cbv zeta in H. destruct (run_ring_phase _ _ _ _ _ _ _ _ _ _ _ _) as [g [peers steps]].
  destruct H as (Hs & _ & _ & answers & entry & HF & Hin & Hid & _ & Hf & _).
  - simpl. lia.
  - vm_compute. repeat constructor; set_solver.
  - done.
  - done.
  - vm_compute. reflexivity.
  - split; [exact Hs|]. exists entry. split; [exact Hin|]. split; [exact Hid|]. rewrite Hf.
    repeat match goal with H : Forall2 _ _ _ |- _ => inversion H; clear H; subst end.
    unfold answered in *. simpl in *. subst. vm_compute. reflexivity.
Defined.

(** One coordinator, one peer that answers, a blob of ten bytes. *)
Definition demo_world : World :=
  mkWorld (fun _ r => Answer (mkShardResponse (len (sh_chunks r)) 0 [] (mkClock 0 0 0)))
    (fun _ _ => PostError "down") (fun _ _ => PostError "down") (fun _ => None) (mkClock 0 0 0)
    (mkClock 0 0 0) 3700 0.

Definition demo_members : Membership :=
  (merge 100 [demo_node "b" 1 100 Alive] demo).1.

Definition demo_timeouts : @Timeouts Lru.list_lru :=
  mkTimeouts None None (mkRingTimeouts (fun _ => false) (fun _ => None)).

Definition demo_run : @Fetch.Fetcher Lru.list_lru * res HydrateResponse :=
  run_coordinator (fun l => l) Fetch.demo_env (fun _ => None) (fun e => e) demo_fate Fetch.demo_mounts
    demo_world demo_timeouts None (mkHydrateRequest "m" "" None (Some Broadcast)) 4
    {["m" := fun _ _ _ _ => Ok [("f", 10)]]} demo_members "a" "http://a:7772" Fetch.demo_fetcher.

Lemma coordinator_accounts_witness :
  match demo_run with
  | (_, Ok r) => hr_phase_b r = true /\ zsum (ps_assigned <$> hr_peers r) = 3
  | _ => False
  end.
Proof.
  destruct demo_run as [f' [r|e]] eqn:Er; [|apply (f_equal snd) in Er; vm_compute in Er; discriminate].
  destruct (coordinator_accounts (L := Lru.list_lru) (fun l => l) Fetch.demo_env (fun _ => None) (fun e => e)
    demo_fate Fetch.demo_mounts demo_world demo_timeouts None
    (mkHydrateRequest "m" "" None (Some Broadcast)) 4 {["m" := fun _ _ _ _ => Ok [("f", 10)]]} demo_members
    "a" "http://a:7772" Fetch.demo_fetcher f' r Er) as (_ & _ & H1 & _).
  assert (Ht : hr_total_chunks r = 3)
    by (apply (f_equal snd) in Er; vm_compute in Er; by injection Er as <-).
  destruct (H1 ltac:(lia)) as (_ & _ & Hz). rewrite (Hz (fun _ => eq_refl)).
  apply (f_equal snd) in Er. vm_compute in Er. injection Er as <-. split; reflexivity.
Defined.
End Hydrate.
