(* ===== verification/Clear.v ===== *)
(** * Clearing the caches of the cluster (src/src/clear.rs)

    The shard handler of one node and the coordinator that clears its own node and posts to every
    other alive member.  The cluster is a map of fetchers; [route] says which node listens at an
    endpoint, and [Delivery] what happens to a POST: it may not arrive, or arrive and lose its
    reply (to the timeout of the request, or in decoding).  The target list follows the coordinator's membership table. *)

From S2P Require Import Prelude ChunkKeys DiskCache Cluster PeerIndex Config PeerLru Fetcher Hydrate.

Module Clear.
Import Cluster.
Abbreviation Clock := Hydrate.Clock.

(** ** Data *)
Record ClearShardResponse := mkShardResponse {
  files_removed : Z;
  bytes_removed : Z;
  clock : Clock;
  error : option string
}.

Record PerPeerClear := mkPeerClear {
  p_node_id : string;
  p_files_removed : Z;
  p_bytes_removed : Z;
  p_clock : Clock;
  p_error : option string
}.

Record ClearResponse := mkClearResponse {
  total_files_removed : Z;
  total_bytes_removed : Z;
  elapsed_ms : Z;
  peers : list PerPeerClear
}.

(** What becomes of a POST to a peer. *)
Inductive Delivery : Type :=
| Delivered
| Lost (e : string)
| Unanswered (e : string)
| Garbled (e : string).

Section clear.
Context {L : Lru.LruCache} (sha256 : list byte -> list byte).
Context (insert_fate : ChunkKey -> string * (string + option Cache.InsertFault)).
(** Whether the sweep of a node's directory can read it, and its files. *)
Context (readdir_ok : bool) (stat_ok : string -> bool).

(** [clear_local_state] with the wait it starts with. *)
Definition clear_local_state (f : Fetch.Fetcher) : Fetch.Fetcher * res (Z * Z) :=
  Fetch.clear_local_state sha256 readdir_ok stat_ok (Hydrate.await_inserts_drained sha256 insert_fate f).

Definition run_shard (t : Clock) (f : Fetch.Fetcher) : Fetch.Fetcher * ClearShardResponse :=
  match clear_local_state f with
  | (f, Ok (files, bytes)) => (f, mkShardResponse files bytes t None)
  | (f, Err e) => (f, mkShardResponse 0 0 t (Some (display e)))
  end.

(** This node without an address, then the other alive members. *)
Definition targets (me_id : string) (members : list NodeInfo) : list (string * option string) :=
  (me_id, None) ::
  ((fun n => (id n, Some (transport_url n)))
     <$> filter (fun n => Hydrate.is_alive n = true /\ id n <> me_id) members).

Definition of_shard (node_id : string) (r : ClearShardResponse) : PerPeerClear :=
  mkPeerClear node_id (files_removed r) (bytes_removed r) (clock r) (error r).

Definition failed (node_id : string) (t : Clock) (e : string) : PerPeerClear :=
  mkPeerClear node_id 0 0 t (Some e).

(** ** The cluster *)
Context (route : string -> option string) (delivery : string -> Delivery).
(** The clocks of a shard and of a failed POST, and the panic of the i-th task. *)
Context (shard_clock : string -> Clock) (post_clock : Clock) (panics : nat -> option string).

Abbreviation Nodes := (gmap string Fetch.Fetcher).

(** The shard handler of node [n] runs. *)
Definition run_on (n : string) (ns : Nodes) : Nodes * option ClearShardResponse :=
  match ns !! n with
  | Some f => let '(f, r) := run_shard (shard_clock n) f in (<[n := f]> ns, Some r)
  | None => (ns, None)
  end.

(** The request arrives and its reply does not. *)
Definition post_only (ep : string) (ns : Nodes) : Nodes :=
  match route ep with Some n => (run_on n ns).1 | None => ns end.

(** The body of a task. *)
Definition visit (me_id : string) (t : string * option string) (ns : Nodes) : Nodes * PerPeerClear :=
  match t with
  | (node_id, None) =>
      match run_on me_id ns with
      | (ns, Some r) => (ns, of_shard node_id r)
      | (ns, None) => (ns, failed node_id post_clock "no node")
      end
  | (node_id, Some u) =>
      let ep := Hydrate.endpoint u "clear-cache-shard" in
      match delivery ep with
      | Lost e => (ns, failed node_id post_clock ("post: " +:+ e))
      | Delivered =>
          match route ep with
          | None => (ns, failed node_id post_clock "post: refused")
          | Some n =>
              match run_on n ns with
              | (ns, Some r) => (ns, of_shard node_id r)
              | (ns, None) => (ns, failed node_id post_clock "post: refused")
              end
          end
      | Unanswered e => (post_only ep ns, failed node_id post_clock ("post: " +:+ e))
      | Garbled e => (post_only ep ns, failed node_id post_clock ("decode: " +:+ e))
      end
  end.

Definition unknown (e : string) : PerPeerClear :=
  failed "unknown" (Hydrate.mkClock 0 0 0) ("join: " +:+ e).

(** The tasks, joined in order; a task that panics has not reached its node. *)
Fixpoint visit_all (me_id : string) (i : nat) (ts : list (string * option string)) (ns : Nodes)
    : Nodes * list PerPeerClear :=
  match ts with
  | [] => (ns, [])
  | t :: rest =>
      let '(ns, p) := match panics i with Some e => (ns, unknown e) | None => visit me_id t ns end in
      let '(ns, ps) := visit_all me_id (S i) rest ns in
      (ns, p :: ps)
  end.

Definition GLOBAL_TIMEOUT_SECS : Z := 360.

(** What the coordinator reports when the deadline passes first. *)
Definition timed_out (now : Z) : PerPeerClear :=
  failed "coordinator" (Hydrate.mkClock (GLOBAL_TIMEOUT_SECS * 1000) 0 now)
    ("coordinator timeout after " +:+ show GLOBAL_TIMEOUT_SECS +:+ "s").

(** [deadline] is the time the timeout fired, with the nodes as the aborted tasks left them. *)
Definition run_coordinator (deadline : option (Z * Nodes)) (elapsed : Z) (members : list NodeInfo)
    (me_id : string) (ns : Nodes) : Nodes * res ClearResponse :=
  let '(ns, ps) :=
    match deadline with
    | None => visit_all me_id 0 (targets me_id members) ns
    | Some (now, ns') => (ns', [timed_out now])
    end in
  (ns, Ok (mkClearResponse (wrap64 (zsum (p_files_removed <$> ps)))
             (wrap64 (zsum (p_bytes_removed <$> ps))) elapsed ps)).

(** ** Lemmas *)

(** Nothing is cached, pending or remembered. *)
Record cleared (f : Fetch.Fetcher) : Prop := {
  cl_entries : Cache.entries (Cache.inner (Fetch.cache f)) = ∅;
  cl_bytes : Cache.bytes (Cache.inner (Fetch.cache f)) = 0;
  cl_writes : Fetch.inflight_writes f = ∅;
  cl_inflight : Fetch.inflight f = ∅;
  cl_lru l : Fetch.peer_lru f = Some l -> Lru.lru_view (Lru.inner l) = []
}.

Lemma fetch_clear_cleared rd st f f' r :
  Fetch.clear_local_state sha256 rd st f = (f', Ok r) -> cleared f'.
Proof.
  unfold Fetch.clear_local_state, Cache.clear_all.
  pose proof (Cache.clear_locked_inner sha256 (Fetch.cache f)) as Hi.
  destruct (Cache.clear_locked sha256 (Fetch.cache f)) as [c n]. simpl in Hi.
  destruct (Index.rebuild_local_from_cache _ _ _) as [p v]. intros [= <- _].
  assert (Hc : Cache.inner (if rd then Cache.set_disk (Cache.sweep st false (Cache.disk c)) c else c)
               = Cache.mkInner ∅ ∅ (Cache.seq (Cache.inner (Fetch.cache f))) 0) by by destruct rd.
  split; simpl; rewrite ?Hc; try done.
  intros l Hl. destruct (Fetch.peer_lru f) as [l0|]; [|done]. simpl in Hl. injection Hl as <-.
  apply Lru.lru_view_clear.
Qed.

Lemma run_shard_always_cleared t f : cleared (run_shard t f).1.
Proof.
  unfold run_shard. destruct (clear_local_state f) as [g [[n b]|e]] eqn:E.
  - by eapply fetch_clear_cleared.
  - unfold clear_local_state, Fetch.clear_local_state, Cache.clear_all in E.
    destruct (Cache.clear_locked _ _) as [c x]. by destruct (Index.rebuild_local_from_cache _ _ _).
Qed.

(** A node is as it was or has been cleared. *)
Definition kept_or_cleared (ns ns' : Nodes) : Prop :=
  forall n f', ns' !! n = Some f' -> ns !! n = Some f' \/ cleared f'.

Lemma kept_refl ns : kept_or_cleared ns ns.
Proof. intros n f Hf. by left. Qed.

Lemma kept_trans a b c : kept_or_cleared a b -> kept_or_cleared b c -> kept_or_cleared a c.
Proof. intros H1 H2 n f Hf. destruct (H2 n f Hf) as [Hb|]; [by apply H1|by right]. Qed.

Lemma run_on_kept n ns : kept_or_cleared ns (run_on n ns).1.
Proof.
  unfold run_on. destruct (ns !! n) as [f|]; [|apply kept_refl].
  pose proof (run_shard_always_cleared (shard_clock n) f) as Hc.
  destruct (run_shard _ f) as [g r]. simpl in *. intros m h. rewrite lookup_insert.
  case_decide; [|by left]. intros [= <-]. by right.
Qed.

Lemma post_only_kept ep ns : kept_or_cleared ns (post_only ep ns).
Proof. unfold post_only. destruct (route ep); [apply run_on_kept|apply kept_refl]. Qed.

Lemma visit_kept me t ns : kept_or_cleared ns (visit me t ns).1.
Proof.
  unfold visit. destruct t as [node_id [u|]].
  - destruct (delivery _); [|apply kept_refl|apply post_only_kept..].
    destruct (route _) as [n|]; [|apply kept_refl].
    pose proof (run_on_kept n ns) as Hk. by destruct (run_on n ns) as [ns' [r|]].
  - pose proof (run_on_kept me ns) as Hk. by destruct (run_on me ns) as [ns' [r|]].
Qed.

Lemma visit_all_kept me i ts ns : kept_or_cleared ns (visit_all me i ts ns).1.
Proof.
  revert i ns. induction ts as [|t ts IH]; intros i ns; simpl; [apply kept_refl|].
  assert (Hv : kept_or_cleared ns
    (match panics i with Some e => (ns, unknown e) | None => visit me t ns end).1)
    by (destruct (panics i); [apply kept_refl|apply visit_kept]).
  destruct (match panics i with Some e => _ | None => _ end) as [ns1 p].
  specialize (IH (S i) ns1). destruct (visit_all me (S i) ts ns1) as [ns2 ps].
  by eapply kept_trans.
Qed.

(** Which node a target's request reaches. *)
Definition reaches (me : string) (t : string * option string) (n : string) : Prop :=
  match t.2 with
  | None => n = me
  | Some u => route (Hydrate.endpoint u "clear-cache-shard") = Some n
  end.

(** A node that answers is there, and stays there empty. *)
Lemma run_on_spec n ns ns' o :
  run_on n ns = (ns', o) ->
  dom ns' = dom ns /\ (is_Some o -> exists f, ns' !! n = Some f /\ cleared f).
Proof.
  unfold run_on. destruct (ns !! n) as [g|] eqn:E; [|by intros [= <- <-]; split; [|intros [? ?]]].
  pose proof (run_shard_always_cleared (shard_clock n) g) as Hc.
  destruct (run_shard _ g) as [h r]. simpl in Hc. intros [= <- <-]. split.
  - rewrite dom_insert_L. apply elem_of_dom_2 in E. set_solver.
  - intros _. exists h. by rewrite lookup_insert_eq.
Qed.

Lemma post_only_dom ep ns : dom (post_only ep ns) = dom ns.
Proof.
  unfold post_only. destruct (route ep) as [n|]; [|done].
  destruct (run_on n ns) as [ns' o] eqn:E. by apply run_on_spec in E as [? _].
Qed.

Lemma visit_spec me t ns ns' p :
  visit me t ns = (ns', p) ->
  dom ns' = dom ns /\ p_node_id p = t.1 /\
  (p_error p = None -> exists n f, reaches me t n /\ ns' !! n = Some f /\ cleared f).
Proof.
  unfold visit, reaches. destruct t as [node_id [u|]]; cbn [fst snd].
  - destruct (delivery _); [|by intros [= <- <-]|intros [= <- <-]; by rewrite post_only_dom..].
    destruct (route _) as [n|]; [|by intros [= <- <-]].
    destruct (run_on n ns) as [ns1 [r|]] eqn:E; intros [= <- <-]; apply run_on_spec in E as [Hd Hc]; [|done].
    split_and!; [done|done|]. intros _. destruct Hc as (f & ? & ?); eauto.
  - destruct (run_on me ns) as [ns1 [r|]] eqn:E; intros [= <- <-]; apply run_on_spec in E as [Hd Hc]; [|done].
    split_and!; [done|done|]. intros _. destruct Hc as (f & ? & ?); eauto.
Qed.

(** One entry per target, under its name; an entry without an error means a cleared node. *)
Lemma visit_all_spec me i ts ns ns' ps :
  visit_all me i ts ns = (ns', ps) ->
  dom ns' = dom ns /\ length ps = length ts /\
  forall j t p, ts !! j = Some t -> ps !! j = Some p ->
    match panics (i + j) with
    | Some e => p = unknown e
    | None => p_node_id p = t.1 /\
        (p_error p = None -> exists n f, reaches me t n /\ ns' !! n = Some f /\ cleared f)
    end.
Proof.
  revert i ns ps. induction ts as [|t ts IH]; intros i ns ps; simpl; [by intros [= <- <-]|].
  destruct (match panics i with Some e => _ | None => _ end) as [ns1 p0] eqn:E0.
  pose proof (visit_all_kept me (S i) ts ns1) as Hk.
  destruct (visit_all me (S i) ts ns1) as [ns2 ps2] eqn:E2. intros [= <- <-].
  destruct (IH _ _ _ E2) as (Hd & Hlen & Hrest). simpl in Hk.
  assert (Hd1 : dom ns1 = dom ns) by (destruct (panics i); [by injection E0 as <- _|by apply visit_spec in E0 as (? & _)]).
  split_and!; [congruence|simpl; lia|]. intros [|j] t' p; simpl.
  2: { replace (i + S j)%nat with (S i + j)%nat by lia. apply Hrest. }
  intros [= <-] [= <-]. rewrite Nat.add_0_r. destruct (panics i); [by injection E0 as _ <-|].
  apply visit_spec in E0 as (_ & Hid & Hc). split; [done|]. intros (n & f & Hr & Hf & Hcl)%Hc. exists n.
  assert (Hin : n ∈ dom ns2) by (rewrite Hd; by eapply elem_of_dom_2).
  apply elem_of_dom in Hin as [g Hg]. exists g. split_and!; [done|done|].
  destruct (Hk n g Hg) as [Hg1|]; [|done]. congruence.
Qed.

(** ** Theorem *)

(** C33.  A cluster-wide clear that meets its deadline does what it reports.  The answer has exactly
    one entry for the coordinator and one for every other alive member, in table order, under their
    names whether or not they carry an error (the entry of a task that panicked is named unknown);
    its totals are the sums of the entries; whenever the entry of a member carries no error, its
    request has reached a node, and that node - this one for the first entry - is left with nothing
    cached, nothing in flight and an empty peer LRU; and no node is changed in any other way than by
    being cleared. *)
Theorem clear_accounts elapsed members me_id ns ns' r :
  run_coordinator None elapsed members me_id ns = (ns', Ok r) ->
  let others := filter (fun n => state n = Alive /\ id n <> me_id) members in
  length (peers r) = S (length others) /\
  (forall j p, peers r !! j = Some p ->
     match panics j with
     | Some e => p = unknown e
     | None => (me_id :: (id <$> others)) !! j = Some (p_node_id p)
     end) /\
  total_files_removed r = wrap64 (zsum (p_files_removed <$> peers r)) /\
  total_bytes_removed r = wrap64 (zsum (p_bytes_removed <$> peers r)) /\
  (forall p, peers r !! 0%nat = Some p -> p_error p = None ->
     exists f, ns' !! me_id = Some f /\ cleared f) /\
  (forall j n p, others !! j = Some n -> peers r !! S j = Some p -> p_error p = None ->
     exists x f, route (Hydrate.endpoint (transport_url n) "clear-cache-shard") = Some x /\
       ns' !! x = Some f /\ cleared f) /\
  kept_or_cleared ns ns'.
Proof.
  unfold run_coordinator. pose proof (visit_all_kept me_id 0 (targets me_id members) ns) as Hk.
  destruct (visit_all me_id 0 (targets me_id members) ns) as [ns1 ps] eqn:E. intros [= <- <-].
  set (others := filter _ members).
  destruct (visit_all_spec _ _ _ _ _ _ E) as (_ & Hlen & Hall).
  assert (Ht : targets me_id members = (me_id, None) :: ((fun n => (id n, Some (transport_url n))) <$> others)).
  { unfold targets, others. do 2 f_equal. apply list_filter_iff. intros n. unfold Hydrate.is_alive.
    destruct (state n); naive_solver. }
  rewrite Ht in Hlen, Hall. cbn [peers total_files_removed total_bytes_removed].
  assert (Herr : forall e, p_error (unknown e) <> None) by done.
  split_and!; [rewrite Hlen; simpl; by rewrite length_fmap| |done|done| | |done].
  - intros j p Hp. destruct (lookup_lt_is_Some_2 ((me_id, None) :: ((fun n => (id n, Some (transport_url n))) <$> others)) j)
      as [t Hj]; [rewrite <- Hlen; by eapply lookup_lt_Some|].
    specialize (Hall j t p Hj Hp). simpl in Hall. destruct (panics j); [done|]. destruct Hall as [-> _].
    destruct j as [|j]; [by injection Hj as <-|]. change ((id <$> others) !! j = Some t.1).
    apply (list_lookup_fmap_Some_1 _ others j) in Hj as (n & -> & Hn). by rewrite list_lookup_fmap, Hn.
  - intros p Hp He. specialize (Hall 0%nat _ p eq_refl Hp). simpl in Hall. destruct (panics 0%nat); [by subst|].
    destruct Hall as [_ Hc]. destruct (Hc He) as (n & f & -> & ? & ?). eauto.
  - intros j n p Hn Hp He. assert (Hj : ((fun n => (id n, Some (transport_url n))) <$> others) !! j = Some (id n, Some (transport_url n)))
      by by rewrite list_lookup_fmap, Hn.
    specialize (Hall (S j) _ p Hj Hp). simpl in Hall. destruct (panics (S j)); [by subst|].
    destruct Hall as [_ Hc]. destruct (Hc He) as (x & f & Hr & ? & ?). exists x, f. done.
Qed.
End clear.

(** ** A node and one peer that do not answer *)
Definition demo_clear : gmap string (@Fetch.Fetcher Lru.list_lru) * res ClearResponse :=
  run_coordinator (L := Lru.list_lru) (fun l => l) (fun _ => (".tmp.1", inr None)) true (fun _ => true)
    (fun _ => None) (fun _ => Lost "timed out") (fun _ => Hydrate.mkClock 0 0 0) (Hydrate.mkClock 0 0 0)
    (fun _ => None) None 5
    [Cluster.demo_node "a" 1 100 Alive; Cluster.demo_node "b" 1 100 Alive] "a"
    {["a" := (Fetch.fetch_chunk_inner (fun l => l) Fetch.demo_env Fetch.demo_mount "f" 4 4 false
                Fetch.demo_fetcher).1]}.

Lemma clear_accounts_witness :
  exists r, demo_clear.2 = Ok r /\ total_files_removed r = 1 /\ total_bytes_removed r = 4 /\
    length (peers r) = 2%nat.
Proof.
  destruct demo_clear as [ns' [r|e]] eqn:E.
  2: { exfalso. assert (Hok : is_ok demo_clear.2 = true) by (vm_compute; reflexivity).
       rewrite E in Hok. discriminate. }
  exists r. cbn [snd]. split; [done|].
  assert (Hf : (total_files_removed <$> ok demo_clear.2) = Some 1) by (vm_compute; reflexivity).
  assert (Hb : (total_bytes_removed <$> ok demo_clear.2) = Some 4) by (vm_compute; reflexivity).
  rewrite E in Hf, Hb. injection Hf as Hf. injection Hb as Hb. split; [done|]. split; [done|].
  unfold demo_clear in E. apply clear_accounts in E. destruct E as (-> & _). vm_compute. reflexivity.
Defined.
End Clear.
