(* ===== verification/Jobs.v ===== *)
(** * The table of background hydrate jobs (src/src/hydrate_jobs.rs; the job's task in src/src/stats.rs)

    A job's state is shared between the table and the task that runs it, so the states live in a
    heap and the table is the set of identifiers it still lists.  Instants are nanoseconds; the
    interleaving of requests and tasks is [step], under a clock that does not run backwards. *)

From S2P Require Import Prelude ChunkKeys Hydrate.

Module Jobs.
Abbreviation HydrateResponse := Hydrate.HydrateResponse.

Definition COMPLETED_TTL : Z := 3600 * 10 ^ 9.

Inductive JobStatus : Type :=
| Pending
| Running
| Completed
| Failed.

Record JobState := mkJobState {
  status : JobStatus;
  started_at : Z;
  finished_at : option Z;
  result : option HydrateResponse;
  error : option string
}.

Record JobView := mkJobView {
  v_job_id : string;
  v_status : JobStatus;
  v_elapsed_ms : Z;
  v_result : option HydrateResponse;
  v_error : option string
}.

Record HydrateJobs := mkJobs {
  heap : gmap string JobState;
  listed : gset string
}.

Definition new : HydrateJobs := mkJobs ∅ ∅.

(** ** Operations *)
Definition retained (now : Z) (j : JobState) : bool :=
  match finished_at j with
  | Some t => sat_sub now t <? COMPLETED_TTL
  | None => true
  end.

Definition keeps (now : Z) (h : gmap string JobState) (i : string) : bool :=
  match h !! i with Some j => retained now j | None => false end.

Definition gc (now : Z) (s : HydrateJobs) : HydrateJobs :=
  mkJobs (heap s) (filter (fun i => keeps now (heap s) i = true) (listed s)).

(** [i] is the fresh identifier, [now] the instant of the start, [now'] that of the collection. *)
Definition create (i : string) (now now' : Z) (s : HydrateJobs) : HydrateJobs :=
  gc now' (mkJobs (<[i := mkJobState Pending now None None None]> (heap s)) ({[i]} ∪ listed s)).

Definition view_of (i : string) (now : Z) (j : JobState) : JobView :=
  mkJobView i (status j) (sat_sub (default now (finished_at j)) (started_at j) / 10 ^ 6)
    (result j) (error j).

Definition view (i : string) (now now' : Z) (s : HydrateJobs) : HydrateJobs * option JobView :=
  let s := gc now s in
  (s, if decide (i ∈ listed s) then view_of i now' <$> (heap s !! i) else None).

Definition update (i : string) (f : JobState -> JobState) (s : HydrateJobs) : HydrateJobs :=
  mkJobs (alter f i (heap s)) (listed s).

(** The two locked sections of the job's task. *)
Definition begin (i : string) (s : HydrateJobs) : HydrateJobs :=
  update i (fun j => mkJobState Running (started_at j) (finished_at j) (result j) (error j)) s.

Definition settle (now : Z) (res : res HydrateResponse) (j : JobState) : JobState :=
  match res with
  | Ok r => mkJobState Completed (started_at j) (Some now) (Some r) (error j)
  | Err e => mkJobState Failed (started_at j) (Some now) (result j) (Some (display e))
  end.

Definition finish (i : string) (now : Z) (res : res HydrateResponse) (s : HydrateJobs) : HydrateJobs :=
  update i (settle now res) s.

(** ** Interleaving *)

(** [Sys now s]: the table and the latest instant read. *)
Record Sys := mkSys {
  clock : Z;
  table : HydrateJobs
}.

Inductive step (s : Sys) : Sys -> Prop :=
| step_create i now now' :
    heap (table s) !! i = None -> clock s <= now <= now' ->
    step s (mkSys now' (create i now now' (table s)))
| step_begin i j :
    heap (table s) !! i = Some j -> status j = Pending -> step s (mkSys (clock s) (begin i (table s)))
| step_finish i j now res :
    heap (table s) !! i = Some j -> status j = Running -> clock s <= now ->
    step s (mkSys now (finish i now res (table s)))
| step_view i now now' :
    clock s <= now <= now' -> step s (mkSys now' (view i now now' (table s)).1)
| step_wait now : clock s <= now -> step s (mkSys now (table s)).

Inductive reachable : Sys -> Prop :=
| reach_new t : 0 <= t -> reachable (mkSys t new)
| reach_step s s' : reachable s -> step s s' -> reachable s'.

(** ** Lemmas *)

(** What a status says of the other fields. *)
Definition job_wf (now : Z) (j : JobState) : Prop :=
  0 <= started_at j <= now /\
  match status j with
  | Pending | Running => finished_at j = None /\ result j = None /\ error j = None
  | Completed => (exists t, finished_at j = Some t /\ started_at j <= t <= now) /\
                 is_Some (result j) /\ error j = None
  | Failed => (exists t, finished_at j = Some t /\ started_at j <= t <= now) /\
              result j = None /\ is_Some (error j)
  end.

(** A job that is not listed any more finished long ago. *)
Definition expired (now : Z) (j : JobState) : Prop :=
  exists t, finished_at j = Some t /\ t + COMPLETED_TTL <= now.

Record sound (s : Sys) : Prop := {
  so_clock : 0 <= clock s;
  so_wf i j : heap (table s) !! i = Some j -> job_wf (clock s) j;
  so_listed i j : heap (table s) !! i = Some j -> i ∈ listed (table s) \/ expired (clock s) j;
  so_heap i : i ∈ listed (table s) -> is_Some (heap (table s) !! i)
}.

Lemma job_wf_later now now' j : now <= now' -> job_wf now j -> job_wf now' j.
Proof.
  unfold job_wf. intros Hle [Hs Hj]. split; [lia|].
  destruct (status j); [done|done|destruct Hj as [(t & ? & ?) ?]..]; (split; [exists t; split; [done|lia]|done]).
Qed.

Lemma expired_later now now' j : now <= now' -> expired now j -> expired now' j.
Proof. intros Hle (t & Ht & Hx). exists t. split; [done|lia]. Qed.

Lemma retained_or_expired now j : job_wf now j -> retained now j = false -> expired now j.
Proof.
  unfold retained, expired. destruct (finished_at j) as [t|]; [|done]. intros _ Hr. case_bool.
  exists t. split; [done|]. unfold sat_sub in Hr. unfold COMPLETED_TTL in *. lia.
Qed.

Lemma sound_gc now s :
  sound s -> clock s <= now -> sound (mkSys now (gc now (table s))).
Proof.
  intros [Hc Hw Hl Hh] Hle. split; simpl; [lia| | |].
  - intros i j Hj. by eapply job_wf_later, Hw.
  - intros i j Hj. assert (Hwf : job_wf now j) by (by eapply job_wf_later, Hw).
    destruct (retained now j) eqn:Er; [|right; by apply retained_or_expired].
    destruct (Hl i j Hj) as [Hin|Hx]; [|right; by eapply expired_later].
    left. apply elem_of_filter. split; [|done]. unfold keeps. by rewrite Hj.
  - intros i [_ Hin]%elem_of_filter. by apply Hh.
Qed.

Lemma sound_later now s : sound s -> clock s <= now -> sound (mkSys now (table s)).
Proof.
  intros [Hc Hw Hl Hh] Hle. split; simpl; [lia| | |done].
  - intros i j Hj. by eapply job_wf_later, Hw.
  - intros i j Hj. destruct (Hl i j Hj); [by left|right; by eapply expired_later].
Qed.

(** Replacing the state of a job that is still listed. *)
Lemma job_sound_update now i f s j :
  sound s -> clock s <= now -> heap (table s) !! i = Some j -> finished_at j = None ->
  job_wf now (f j) -> sound (mkSys now (update i f (table s))).
Proof.
  intros [Hc Hw Hl Hh] Hle Hj Hfin Hf. split; simpl; [lia| | |].
  - intros k x. destruct (decide (i = k)) as [->|Hne].
    + rewrite lookup_alter_eq, Hj. by intros [= <-].
    + rewrite lookup_alter_ne by done. intros Hx. by eapply job_wf_later, Hw.
  - intros k x. destruct (decide (i = k)) as [->|Hne].
    + intros _. destruct (Hl k j Hj) as [?|(t & Ht & _)]; [by left|congruence].
    + rewrite lookup_alter_ne by done. intros Hx.
      destruct (Hl k x Hx); [by left|right; by eapply expired_later].
  - intros k [x Hx]%Hh. destruct (decide (i = k)) as [->|Hne].
    + rewrite lookup_alter_eq, Hx. eauto.
    + rewrite lookup_alter_ne by done. eauto.
Qed.

Lemma job_step_sound s s' : step s s' -> sound s -> sound s'.
Proof.
  destruct 1 as [i now now' Hi Ht|i j Hj Hst|i j now res Hj Hst Ht|i now now' Ht|now Ht]; intros Hs.
  - set (t0 := mkJobs (<[i := mkJobState Pending now None None None]> (heap (table s))) ({[i]} ∪ listed (table s))).
    assert (H0 : sound (mkSys now t0)).
    { destruct (sound_later now s Hs ltac:(lia)) as [Hc Hw Hl Hh]. simpl in *. split; simpl; [done| | |].
      - intros k x. rewrite lookup_insert. case_decide; [|apply Hw]. intros [= <-]. by split; simpl; [lia|].
      - intros k x. rewrite lookup_insert. case_decide; [set_solver|]. intros Hx.
        destruct (Hl k x Hx); [set_solver|by right].
      - intros k Hk. rewrite lookup_insert. case_decide; [done|]. apply Hh. set_solver. }
    apply (sound_gc now' _ H0). simpl. lia.
  - assert (Hwf := so_wf s Hs i j Hj). eapply job_sound_update; [done|lia|done| |].
    + destruct Hwf as [_ Hwf]. rewrite Hst in Hwf. apply Hwf.
    + destruct Hwf as [H1 H2]. rewrite Hst in H2. by split.
  - assert (Hwf := so_wf s Hs i j Hj). destruct Hwf as [H1 H2]. rewrite Hst in H2.
    destruct H2 as (H2 & H3 & H4). eapply job_sound_update; [done|lia|done|done|].
    destruct res as [r|e]; split; simpl; try lia; (split; [exists now; split; [done|lia]|]); eauto.
  - apply (sound_later now' (mkSys now (gc now (table s)))); [|simpl; lia]. apply sound_gc; [done|lia].
  - by apply sound_later.
Qed.

Lemma reachable_sound s : reachable s -> sound s.
Proof. induction 1 as [t Ht|s s' _ IH Hst]; [by split; simpl; [lia|..]|by eapply job_step_sound]. Qed.

(** How far a job is; a later status never gives way to an earlier one. *)
Definition rank (st : JobStatus) : nat :=
  match st with Pending => 0 | Running => 1 | Completed | Failed => 2 end.

(** A finished job is final. *)
Lemma step_monotone s s' i j :
  step s s' -> heap (table s) !! i = Some j ->
  exists j', heap (table s') !! i = Some j' /\ (rank (status j) <= rank (status j'))%nat /\
    (finished_at j <> None -> sound s -> j' = j).
Proof.
  intros Hst Hj. destruct Hst as [k now now' Hk Ht|k x Hx Hs|k x now res Hx Hs Ht|k now now' Ht|now Ht]; simpl.
  - exists j. rewrite lookup_insert_ne by congruence. done.
  - destruct (decide (k = i)) as [->|Hne]; [|exists j; by rewrite lookup_alter_ne].
    rewrite lookup_alter_eq, Hj. eexists. split; [done|]. assert (x = j) as -> by congruence. rewrite Hs.
    split; [simpl; lia|]. intros Hf Hso. destruct (so_wf s Hso i j Hj) as [_ Hw]. rewrite Hs in Hw. naive_solver.
  - destruct (decide (k = i)) as [->|Hne]; [|exists j; by rewrite lookup_alter_ne].
    rewrite lookup_alter_eq, Hj. eexists. split; [done|]. assert (x = j) as -> by congruence. rewrite Hs.
    split; [destruct res; simpl; lia|]. intros Hf Hso.
    destruct (so_wf s Hso i j Hj) as [_ Hw]. rewrite Hs in Hw. naive_solver.
  - by exists j.
  - by exists j.
Qed.

(** A poll finds a job until an hour after its end. *)
Lemma view_sound s now now' i j :
  sound s -> heap (table s) !! i = Some j -> clock s <= now ->
  (view i now now' (table s)).2 = (if retained now j then Some (view_of i now' j) else None).
Proof.
  intros Hs Hj Ht. unfold view, gc. simpl. destruct (retained now j) eqn:Er.
  - rewrite decide_True; [by rewrite Hj|]. apply elem_of_filter. unfold keeps. rewrite Hj. split; [done|].
    destruct (so_listed s Hs i j Hj) as [?|(t & Hf & Hx)]; [done|].
    unfold retained in Er. rewrite Hf in Er. case_bool. unfold sat_sub, COMPLETED_TTL in *. lia.
  - rewrite decide_False; [done|]. intros [Hk _]%elem_of_filter. unfold keeps in Hk.
    rewrite Hj in Hk. congruence.
Qed.

(** ** Theorem *)

(** The job table tells the truth: in every interleaving of submissions, tasks and polls, each
    job's fields fit its status (a result exactly when completed, an error exactly when failed, an
    end exactly when either); a job never goes back a status and never changes once it has ended;
    and a poll at any later instant finds the job unless it ended an hour or more before, in which
    case it finds nothing. *)
Lemma job_table_sound s now now' i j :
  reachable s -> heap (table s) !! i = Some j -> clock s <= now <= now' ->
  job_wf (clock s) j /\
  (forall s', step s s' -> exists j', heap (table s') !! i = Some j' /\
     (rank (status j) <= rank (status j'))%nat /\ (finished_at j <> None -> j' = j)) /\
  (view i now now' (table s)).2 = (if retained now j then Some (view_of i now' j) else None).
Proof.
  intros Hr Hj Ht. pose proof (reachable_sound s Hr) as Hs. split_and!; [by apply (so_wf s Hs i)| |].
  - intros s' Hst. destruct (step_monotone s s' i j Hst Hj) as (j' & ? & ? & Hf). exists j'. auto.
  - apply view_sound; [done|done|lia].
Qed.

End Jobs.
