(* ===== verification/Status.v ===== *)
(** * The status server (src/src/stats.rs, [serve])

    The operator's HTTP interface of a node: metrics, health and membership, hydration in the
    foreground or as a job, cluster-wide clearing, and the shard endpoints the coordinators of other
    nodes post to.  JSON and the Prometheus text are the record [Codec]; what the handlers call is
    the record [Services], filled with the models of hydrate.rs and clear.rs by [services]. *)

From S2P Require Import Prelude ChunkKeys DiskCache Cluster PeerIndex Gossip HttpApi Transport Config PeerLru.
From S2P Require Import Fetcher Hydrate Clear Jobs.

Module Status.
Import Cluster.
Abbreviation Bytes := (list byte).
Abbreviation Response := Gossip.Response.

(** The gauges and counters that a scrape refreshes. *)
Record Gauges := mkGauges {
  cache_hits : Z;
  cache_misses : Z;
  cache_evictions : Z;
  cache_inserts : Z;
  cache_reconcile_drops : Z;
  cache_bytes : Z;
  members_alive : Z;
  members_dead : Z
}.

Record Codec := mkCodec {
  render : Gauges -> Bytes;
  enc_stats : Cache.CacheStats -> list NodeInfo -> Bytes;
  enc_members : list NodeInfo -> Bytes;
  enc_job_id : string -> Bytes;
  enc_view : Jobs.JobView -> Bytes;
  enc_hydrate : Hydrate.HydrateResponse -> Bytes;
  enc_clear : Clear.ClearResponse -> Bytes;
  enc_clear_shard : Clear.ClearShardResponse -> Bytes;
  enc_shard : Hydrate.HydrateShardResponse -> Bytes;
  enc_broadcast : Hydrate.HydrateBroadcastShardResponse -> Bytes;
  enc_ring : Hydrate.HydrateRingStepResponse -> Bytes;
  dec_hydrate : Bytes -> result string Hydrate.HydrateRequest;
  dec_shard : Bytes -> result string Hydrate.HydrateShardRequest;
  dec_broadcast : Bytes -> result string Hydrate.HydrateBroadcastShardRequest;
  dec_ring : Bytes -> result string Hydrate.HydrateRingStepRequest
}.

Record Request := mkRequest {
  method : Gossip.Method;
  path : string;
  query : option string;
  body : result string Bytes
}.

Definition json (st : Z) (b : Bytes) : Response := Gossip.mkResponse st [("content-type", "application/json")] b.
Definition text (st : Z) (b : string) : Response :=
  Gossip.mkResponse st [("content-type", "text/plain")] (str_bytes b).
Definition bare (st : Z) (b : string) : Response := Gossip.mkResponse st [] (str_bytes b).
Definition newline : string := String (Ascii.ascii_of_nat 10) EmptyString.

Section status.
Context {L : Lru.LruCache} {P : Transport.PercentCodec} (C : Codec).

Record Services := mkServices {
  hydrate : Hydrate.HydrateRequest -> Fetch.Fetcher -> Fetch.Fetcher * res Hydrate.HydrateResponse;
  clear : Fetch.Fetcher -> Fetch.Fetcher * res Clear.ClearResponse;
  clear_shard : Fetch.Fetcher -> Fetch.Fetcher * Clear.ClearShardResponse;
  shard : Hydrate.HydrateShardRequest -> Fetch.Fetcher -> Fetch.Fetcher * Hydrate.HydrateShardResponse;
  broadcast_shard : Hydrate.HydrateBroadcastShardRequest -> Fetch.Fetcher ->
    Fetch.Fetcher * Hydrate.HydrateBroadcastShardResponse;
  ring_step : Hydrate.HydrateRingStepRequest -> Fetch.Fetcher -> Fetch.Fetcher * Hydrate.HydrateRingStepResponse
}.

(** The node behind the server: the fetcher with its cache and membership, the metrics, the job
    table, the spawned tasks of jobs that have not run yet, and the jobs whose coordinator runs. *)
Record Server := mkServer {
  fetcher : Fetch.Fetcher;
  gauges : Gauges;
  jobs : Jobs.HydrateJobs;
  tasks : list (string * Hydrate.HydrateRequest);
  running : gmap string Hydrate.HydrateRequest
}.

Definition set_fetcher (f : Fetch.Fetcher) (s : Server) : Server :=
  mkServer f (gauges s) (jobs s) (tasks s) (running s).
Definition set_gauges (g : Gauges) (s : Server) : Server :=
  mkServer (fetcher s) g (jobs s) (tasks s) (running s).
Definition set_jobs (j : Jobs.HydrateJobs) (s : Server) : Server :=
  mkServer (fetcher s) (gauges s) j (tasks s) (running s).

Definition members (s : Server) : list NodeInfo := members_all (Fetch.membership (fetcher s)).
Definition count_state (st : NodeState) (l : list NodeInfo) : Z := len (filter (fun n => state n = st) l).

(** An [as i64] cast. *)
Definition as_i64 (z : Z) : Z := (z + 2 ^ 63) mod 2 ^ 64 - 2 ^ 63.

Definition scrape (s : Server) : Gauges :=
  let cs := Cache.stats (Fetch.cache (fetcher s)) in
  mkGauges (Cache.hits cs) (Cache.misses cs) (Cache.evictions cs) (Cache.inserts cs)
    (Cache.reconcile_drops cs) (as_i64 (Cache.bytes_in_use cs))
    (count_state Alive (members s)) (count_state Dead (members s)).

(** [?async=1], [true] or [yes], wherever it stands in the query. *)
Definition is_async (q : option string) : bool :=
  match q with
  | Some q =>
      existsb (fun kv => String.eqb kv.1 "async"
                         && (String.eqb kv.2 "1" || String.eqb kv.2 "true" || String.eqb kv.2 "yes"))
        (Transport.form_parse q)
  | None => false
  end.

(** The two ways a request's body can be refused. *)
Definition with_body {A} (dec : Bytes -> result string A) (req : Request)
    (k : A -> Server -> Server * Response) (s : Server) : Server * Response :=
  match body req with
  | Err e => (s, bare 400 ("body read: " +:+ e))
  | Ok b =>
      match dec b with
      | Err e => (s, bare 400 ("json: " +:+ e))
      | Ok a => k a s
      end
  end.

Definition readyz (s : Server) : Response :=
  if 1 <=? count_state Alive (members s) then text 200 ("ready" +:+ newline)
  else text 503 ("joining" +:+ newline).

(** What [serve] is given: mounts, listings and the node's names, with what its calls meet - the
    peers of a hydration ([W], [T]), of a clearing ([others], [route], [delivery]), and clocks. *)
Definition services (sha256 : Bytes -> Bytes) (E : Fetch.Env) (panics : Hydrate.ChunkSpec -> option string)
    (b64_error : string -> string) (fate : ChunkKey -> string * (string + option Cache.InsertFault))
    (mounts : gmap string Conf.MountConfig) (W : Hydrate.World) (T : Hydrate.Timeouts)
    (env_mode : option string) (chunk_size : Z)
    (blobs : gmap string (string -> string -> option string -> bool -> res (list (string * Z))))
    (me_id me_url : string) (others : gmap string Fetch.Fetcher) (route : string -> option string)
    (delivery : string -> Clear.Delivery) (joins : nat -> option string) (clock : Hydrate.Clock)
    (readdir_ok : bool) (stat_ok : string -> bool) (elapsed pulls_ms drain_ms : Z) : Services :=
  mkServices
    (fun r f => Hydrate.run_coordinator sha256 E panics b64_error fate mounts W T env_mode r chunk_size blobs
                  (Fetch.membership f) me_id me_url f)
    (fun f => let '(ns, r) := Clear.run_coordinator sha256 fate readdir_ok stat_ok route delivery
                                (fun _ => clock) clock joins None elapsed (members_all (Fetch.membership f))
                                me_id (<[me_id := f]> others) in
              (default f (ns !! me_id), r))
    (Clear.run_shard sha256 fate readdir_ok stat_ok clock)
    (Hydrate.run_shard sha256 E panics fate clock mounts)
    (Hydrate.run_broadcast_shard sha256 E panics fate clock mounts)
    (Hydrate.run_ring_step sha256 E panics b64_error fate pulls_ms drain_ms
       (Hydrate.start_unix_ms clock) (Hydrate.end_unix_ms clock) mounts).

Context (S : Services).

(** The answer of a call that may fail. *)
Definition or_500 {A} (enc : A -> Bytes) (r : res A) : Response :=
  match r with Ok a => json 200 (enc a) | Err e => bare 500 (display e) end.

Definition post_hydrate (uuid : string) (now now' : Z) (async : bool) (hreq : Hydrate.HydrateRequest)
    (s : Server) : Server * Response :=
  if async then
    (mkServer (fetcher s) (gauges s) (Jobs.create uuid now now' (jobs s)) (tasks s ++ [(uuid, hreq)])
       (running s),
     json 202 (enc_job_id C uuid))
  else
    let '(f, r) := hydrate S hreq (fetcher s) in (set_fetcher f s, or_500 (enc_hydrate C) r).

Definition get_job (now now' : Z) (id : string) (s : Server) : Server * Response :=
  let '(j, v) := Jobs.view id now now' (jobs s) in
  (set_jobs j s, match v with Some v => json 200 (enc_view C v) | None => bare 404 "unknown job_id" end).

Definition post (uuid : string) (now now' : Z) (req : Request) (s : Server) : Server * Response :=
  let p := path req in
  if String.eqb p "/hydrate" then
    with_body (dec_hydrate C) req (post_hydrate uuid now now' (is_async (query req))) s
  else if String.eqb p "/clear-cache" then
    let '(f, r) := clear S (fetcher s) in (set_fetcher f s, or_500 (enc_clear C) r)
  else if String.eqb p "/clear-cache-shard" then
    let '(f, r) := clear_shard S (fetcher s) in (set_fetcher f s, json 200 (enc_clear_shard C r))
  else if String.eqb p "/hydrate-shard" then
    with_body (dec_shard C) req (fun a s =>
      let '(f, r) := shard S a (fetcher s) in (set_fetcher f s, json 200 (enc_shard C r))) s
  else if String.eqb p "/hydrate-broadcast-shard" then
    with_body (dec_broadcast C) req (fun a s =>
      let '(f, r) := broadcast_shard S a (fetcher s) in (set_fetcher f s, json 200 (enc_broadcast C r))) s
  else if String.eqb p "/hydrate-ring-step" then
    with_body (dec_ring C) req (fun a s =>
      let '(f, r) := ring_step S a (fetcher s) in (set_fetcher f s, json 200 (enc_ring C r))) s
  else (s, bare 404 "").

Definition get (now now' : Z) (req : Request) (s : Server) : Server * Response :=
  let p := path req in
  if String.eqb p "/metrics" then
    let s := set_gauges (scrape s) s in
    (s, Gossip.mkResponse 200 [("content-type", "text/plain; version=0.0.4")] (render C (gauges s)))
  else if String.eqb p "/stats" then
    (s, json 200 (enc_stats C (Cache.stats (Fetch.cache (fetcher s))) (members s)))
  else if String.eqb p "/peers" then (s, json 200 (enc_members C (members s)))
  else if String.eqb p "/healthz" then (s, text 200 ("ok" +:+ newline))
  else if String.eqb p "/readyz" then (s, readyz s)
  else if starts_with "/hydrate/" p && (9 <? str_len p) then get_job now now' (string_drop 9 p) s
  else (s, bare 404 "").

(** [uuid] is the identifier a new job gets; [now] and [now'] are two readings of the clock. *)
Definition handle (uuid : string) (now now' : Z) (req : Request) (s : Server) : Server * Response :=
  match method req with
  | Gossip.GET => get now now' req s
  | Gossip.POST => post uuid now now' req s
  | Gossip.OtherMethod => (s, bare 404 "")
  end.

(** The [i]-th spawned task begins: its job is running. *)
Definition start_job (i : nat) (s : Server) : Server :=
  match tasks s !! i with
  | None => s
  | Some (id, hreq) =>
      mkServer (fetcher s) (gauges s) (Jobs.begin id (jobs s)) (delete i (tasks s)) (<[id := hreq]> (running s))
  end.

(** The coordinator of job [id] returns and the task records the outcome. *)
Definition end_job (now : Z) (id : string) (s : Server) : Server * option (res Hydrate.HydrateResponse) :=
  match running s !! id with
  | None => (s, None)
  | Some hreq =>
      let '(f, r) := hydrate S hreq (fetcher s) in
      (mkServer f (gauges s) (Jobs.finish id now r (jobs s)) (tasks s) (delete id (running s)), Some r)
  end.

(** ** Interleaving *)

(** The task of a job panics inside its coordinator, which has left the fetcher at [f]: nothing is
    recorded, so the job table goes on counting the job among the running ones. *)
Definition panic_job (f : Fetch.Fetcher) (s : Server) : Server := set_fetcher f s.

(** The server with the latest clock reading, the outcomes of the jobs that have ended and the jobs
    whose task has panicked. *)
Record Sys := mkSys {
  srv : Server;
  clock : Z;
  ended : gmap string (Z * res Hydrate.HydrateResponse);
  crashed : gset string
}.

Inductive step (s : Sys) : Sys -> Prop :=
| step_request uuid now now' req :
    Jobs.heap (jobs (srv s)) !! uuid = None -> clock s <= now <= now' ->
    step s (mkSys (handle uuid now now' req (srv s)).1 now' (ended s) (crashed s))
| step_start i : step s (mkSys (start_job i (srv s)) (clock s) (ended s) (crashed s))
| step_end now id s' r :
    clock s <= now -> id ∉ crashed s -> end_job now id (srv s) = (s', Some r) ->
    step s (mkSys s' now (<[id := (now, r)]> (ended s)) (crashed s))
| step_panic id f :
    is_Some (running (srv s) !! id) ->
    step s (mkSys (panic_job f (srv s)) (clock s) (ended s) ({[id]} ∪ crashed s)).

Definition boot (f : Fetch.Fetcher) (g : Gauges) : Server := mkServer f g Jobs.new [] ∅.

Inductive reachable : Sys -> Prop :=
| reach_boot f g t : 0 <= t -> reachable (mkSys (boot f g) t ∅ ∅)
| reach_step s s' : reachable s -> step s s' -> reachable s'.

(** ** Lemmas *)
Lemma with_body_refused {A} (dec : Bytes -> result string A) req k s :
  is_ok (body req) = false \/ (exists b, body req = Ok b /\ is_ok (dec b) = false) ->
  let '(s', r) := with_body dec req k s in s' = s /\ Gossip.status r = 400.
Proof using Type.
  unfold with_body. intros [Hb|(b & Hb & Hd)].
  - by destruct (body req).
  - rewrite Hb. by destruct (dec b).
Qed.

(** The routes with a body, and their decoders. *)
Definition refuses (req : Request) : Prop :=
  let bad {A} (dec : Bytes -> result string A) :=
    is_ok (body req) = false \/ (exists b, body req = Ok b /\ is_ok (dec b) = false) in
  (path req = "/hydrate" /\ bad (dec_hydrate C)) \/
  (path req = "/hydrate-shard" /\ bad (dec_shard C)) \/
  (path req = "/hydrate-broadcast-shard" /\ bad (dec_broadcast C)) \/
  (path req = "/hydrate-ring-step" /\ bad (dec_ring C)).

Definition routes : list (Gossip.Method * string) :=
  ((fun p => (Gossip.GET, p)) <$> ["/metrics"; "/stats"; "/peers"; "/healthz"; "/readyz"])
  ++ ((fun p => (Gossip.POST, p)) <$> ["/hydrate"; "/clear-cache"; "/clear-cache-shard"; "/hydrate-shard";
                                       "/hydrate-broadcast-shard"; "/hydrate-ring-step"]).

Lemma eqb_route m p q : (m, p) ∉ routes -> (m, q) ∈ routes -> String.eqb p q = false.
Proof using Type. intros Hp Hq. apply String.eqb_neq. by intros ->. Qed.

(** ** Theorems *)

(** A request the server cannot serve changes nothing: a POST whose body does not arrive or does
    not decode is answered 400, a request outside the routes 404, and in both cases the node - its
    caches, membership, metrics, job table and tasks - is exactly as before. *)
Lemma bad_requests_harmless uuid now now' req s :
  (method req = Gossip.POST -> refuses req ->
   let '(s', r) := handle uuid now now' req s in s' = s /\ Gossip.status r = 400) /\
  ((method req, path req) ∉ routes ->
   (method req = Gossip.GET -> starts_with "/hydrate/" (path req) && (9 <? str_len (path req)) = false) ->
   let '(s', r) := handle uuid now now' req s in s' = s /\ Gossip.status r = 404).
Proof using Type.
  unfold handle. split.
  - intros -> [[Hp Hb]|[[Hp Hb]|[[Hp Hb]|[Hp Hb]]]]; unfold post; rewrite Hp; cbn [String.eqb Ascii.eqb];
      by apply with_body_refused.
  - intros Hr Hj. destruct (method req) eqn:Em; [| |done].
    + unfold get. rewrite (Hj eq_refl).
      rewrite !(eqb_route Gossip.GET (path req)) by (done || (unfold routes; simpl; set_solver)).
      done.
    + unfold post.
      rewrite !(eqb_route Gossip.POST (path req)) by (done || (unfold routes; simpl; set_solver)).
      done.
Qed.
Lemma async_1 : is_async (Some "async=1") = true.
Proof using Type.
  assert (Hq : "async=1" = Transport.form_query Transport.percent_encode [("async", "1")]).
  { unfold Transport.form_query, Transport.form_pair. cbn [fmap list_fmap join fst snd].
    by rewrite (Transport.percent_alnum "1") by reflexivity. }
  unfold is_async. rewrite Hq, Transport.form_roundtrip by (done || by repeat constructor). done.
Qed.

(** A job that was submitted and has ended within the hour is found, as its task left it. *)
Lemma view_of_ended id t0 t0' t1 t2 t2' r j :
  t2 < t1 + Jobs.COMPLETED_TTL ->
  (Jobs.view id t2 t2' (Jobs.finish id t1 r (Jobs.begin id (Jobs.create id t0 t0' j)))).2
  = Some (Jobs.view_of id t2' (Jobs.settle t1 r (Jobs.mkJobState Jobs.Running t0 None None None))).
Proof using Type.
  intros Ht. unfold Jobs.view, Jobs.finish, Jobs.begin, Jobs.create, Jobs.update, Jobs.gc.
  cbn [Jobs.heap Jobs.listed snd].
  rewrite lookup_alter_eq, lookup_alter_eq, lookup_insert_eq. rewrite decide_True; [done|].
  apply elem_of_filter. unfold Jobs.keeps at 1. rewrite lookup_alter_eq, lookup_alter_eq, lookup_insert_eq.
  split; [|apply elem_of_filter; unfold Jobs.keeps; rewrite lookup_insert_eq; split; [done|set_solver]].
  destruct r; unfold Jobs.retained, sat_sub; cbn; unfold Jobs.COMPLETED_TTL in *; apply Z.ltb_lt; lia.
Qed.

(** The requests of a hydration in the foreground and in the background, and of a poll. *)
Definition post_sync (b : Bytes) : Request := mkRequest Gossip.POST "/hydrate" None (Ok b).
Definition post_async (b : Bytes) : Request := mkRequest Gossip.POST "/hydrate" (Some "async=1") (Ok b).
Definition poll (id : string) : Request := mkRequest Gossip.GET ("/hydrate/" +:+ id) None (Ok []).

Lemma handle_sync id t0 t0' b hreq s :
  dec_hydrate C b = Ok hreq ->
  handle id t0 t0' (post_sync b) s = post_hydrate id t0 t0' false hreq s.
Proof using Type. intros Hd. unfold handle, post, with_body. simpl. by rewrite Hd. Qed.

Lemma handle_async id t0 t0' b hreq s :
  dec_hydrate C b = Ok hreq ->
  handle id t0 t0' (post_async b) s = post_hydrate id t0 t0' true hreq s.
Proof using Type.
  intros Hd. unfold handle, post, with_body, post_async. cbn [method path query body].
  rewrite async_1, Hd. done.
Qed.

Lemma handle_poll uuid t t' id s : id <> "" -> handle uuid t t' (poll id) s = get_job t t' id s.
Proof using Type.
  intros Hid. unfold handle, poll. cbn [method]. unfold get. cbn [path].
  rewrite starts_with_app.
  assert (Hl : (9 <? str_len ("/hydrate/" +:+ id)) = true).
  { apply Z.ltb_lt. unfold str_len. rewrite str_bytes_app. unfold len. rewrite length_app. simpl.
    destruct id; [done|]. cbn [str_bytes]. simpl. lia. }
  rewrite Hl. change (string_drop 9 ("/hydrate/" +:+ id)) with id. reflexivity.
Qed.

(** C30.  A background hydration is the foreground one, reported later: a POST with [async=1] is
    answered 202 with the job's identifier and has not touched the node; once its task has run, the
    node is as the plain POST would have left it, and a poll within the hour is answered 200 with the
    result the plain POST would have returned, or with the error it would have reported. *)
Theorem async_reports_sync id b hreq t0 t0' t1 t2 t2' s :
  id <> "" -> dec_hydrate C b = Ok hreq -> tasks s = [] -> running s !! id = None -> t2 < t1 + Jobs.COMPLETED_TTL ->
  let '(s1, r1) := handle id t0 t0' (post_async b) s in
  let s2 := (end_job t1 id (start_job 0 s1)).1 in
  let '(s3, r3) := handle id t2 t2' (poll id) s2 in
  let '(s', r') := handle id t0 t0' (post_sync b) s in
  r1 = json 202 (enc_job_id C id) /\ fetcher s1 = fetcher s /\
  fetcher s2 = fetcher s' /\ tasks s2 = [] /\ running s2 = running s /\
  exists v, r3 = json 200 (enc_view C v) /\ Jobs.v_job_id v = id /\
    match (hydrate S hreq (fetcher s)).2 with
    | Ok r => Jobs.v_status v = Jobs.Completed /\ Jobs.v_result v = Some r /\ Jobs.v_error v = None /\
              r' = json 200 (enc_hydrate C r)
    | Err e => Jobs.v_status v = Jobs.Failed /\ Jobs.v_result v = None /\
               Jobs.v_error v = Some (display e) /\ r' = bare 500 (display e)
    end.
Proof using Type.
  intros Hid Hd Ht Hru Ht2. rewrite (handle_async _ _ _ _ _ _ Hd), (handle_sync _ _ _ _ _ _ Hd).
  unfold post_hydrate. rewrite Ht. cbv zeta.
  destruct (hydrate S hreq (fetcher s)) as [f r] eqn:Eh. cbn [app].
  unfold start_job. cbn [tasks jobs fetcher gauges running lookup list_lookup list_lookup_total].
  unfold end_job. cbn [running fetcher]. rewrite lookup_insert_eq, Eh. cbn [fst].
  rewrite handle_poll by done. unfold get_job. cbn [jobs].
  pose proof (view_of_ended id t0 t0' t1 t2 t2' r (jobs s) Ht2) as Hv.
  destruct (Jobs.view _ _ _ _) as [j v] eqn:Ej. cbn [snd] in Hv. subst v.
  split_and!; [done..|cbn [running]; by rewrite delete_insert_id|]. eexists. split; [done|]. by destruct r.
Qed.

(** ** Jobs under interleaving *)

(** What a request does to the jobs. *)
Lemma handle_jobs uuid now now' req s :
  let s' := (handle uuid now now' req s).1 in
  running s' = running s /\
  ((jobs s' = jobs s /\ tasks s' = tasks s) \/
   (exists hreq, jobs s' = Jobs.create uuid now now' (jobs s) /\ tasks s' = tasks s ++ [(uuid, hreq)]) \/
   (exists id, jobs s' = (Jobs.view id now now' (jobs s)).1 /\ tasks s' = tasks s)).
Proof using Type.
  unfold handle. destruct (method req); [| |by split; [|left]].
  - unfold get. repeat (destruct (String.eqb _ _); [by split; [|left]|]).
    destruct (_ && _); [|by split; [|left]]. unfold get_job.
    destruct (Jobs.view _ _ _ _) as [j v] eqn:Ev. split; [done|]. right. right. eexists. rewrite Ev. done.
  - unfold post. destruct (String.eqb _ _).
    { unfold with_body, post_hydrate. destruct (body req); [|by split; [|left]].
      destruct (dec_hydrate C _); [|by split; [|left]]. destruct (is_async _).
      - split; [done|]. right. left. eauto.
      - destruct (hydrate S _ _). by split; [|left]. }
    unfold with_body.
    repeat (destruct (String.eqb _ _); [repeat case_match; by split; [|left]|]). by split; [|left].
Qed.

Record jobs_inv (s : Sys) : Prop := {
  ji_table : Jobs.reachable (Jobs.mkSys (clock s) (jobs (srv s)));
  ji_nodup : NoDup (tasks (srv s)).*1;
  ji_spawned id hreq : (id, hreq) ∈ tasks (srv s) ->
    running (srv s) !! id = None /\ ended s !! id = None /\
    exists j, Jobs.heap (jobs (srv s)) !! id = Some j /\ Jobs.status j = Jobs.Pending;
  ji_running id hreq : running (srv s) !! id = Some hreq ->
    ended s !! id = None /\ exists j, Jobs.heap (jobs (srv s)) !! id = Some j /\ Jobs.status j = Jobs.Running;
  ji_ended id t r : ended s !! id = Some (t, r) ->
    exists t0, Jobs.heap (jobs (srv s)) !! id
               = Some (Jobs.settle t r (Jobs.mkJobState Jobs.Running t0 None None None));
  ji_crashed id : id ∈ crashed s -> is_Some (running (srv s) !! id);
  ji_all id : is_Some (Jobs.heap (jobs (srv s)) !! id) ->
    id ∈ (tasks (srv s)).*1 \/ is_Some (running (srv s) !! id) \/ is_Some (ended s !! id)
}.

(** A request that leaves the heap of job states as it was. *)
Lemma jobs_inv_same s srv' now' :
  jobs_inv s -> Jobs.reachable (Jobs.mkSys now' (jobs srv')) ->
  Jobs.heap (jobs srv') = Jobs.heap (jobs (srv s)) -> tasks srv' = tasks (srv s) -> running srv' = running (srv s) ->
  jobs_inv (mkSys srv' now' (ended s) (crashed s)).
Proof using Type. intros [] Hr Hh Ht Hru. split; simpl; rewrite ?Hh, ?Ht, ?Hru; done. Qed.

(** A submission adds a job that nothing refers to yet. *)
Lemma jobs_inv_fresh s id :
  jobs_inv s -> Jobs.heap (jobs (srv s)) !! id = None ->
  running (srv s) !! id = None /\ ended s !! id = None /\ id ∉ (tasks (srv s)).*1.
Proof using Type.
  intros Hs Hu. split_and!.
  - apply eq_None_not_Some. intros [h Hi]. destruct (ji_running s Hs _ _ Hi) as (_ & j & ? & _). congruence.
  - apply eq_None_not_Some. intros [[t r] Hi]. destruct (ji_ended s Hs _ _ _ Hi) as (t0 & ?). congruence.
  - intros ([i h] & -> & Hi)%list_elem_of_fmap.
    destruct (ji_spawned s Hs _ _ Hi) as (_ & _ & j & ? & _). simpl in *. congruence.
Qed.

Lemma jobs_inv_create s srv' id hreq now now' :
  jobs_inv s -> Jobs.heap (jobs (srv s)) !! id = None -> clock s <= now <= now' ->
  jobs srv' = Jobs.create id now now' (jobs (srv s)) -> tasks srv' = tasks (srv s) ++ [(id, hreq)] ->
  running srv' = running (srv s) -> jobs_inv (mkSys srv' now' (ended s) (crashed s)).
Proof using Type.
  intros Hs Hu Ht Hj Hta Hru. destruct (jobs_inv_fresh s id Hs Hu) as (Hno1 & Hno2 & Hno3).
  assert (Hne : forall i j, Jobs.heap (jobs (srv s)) !! i = Some j -> id <> i) by congruence.
  assert (Hh : Jobs.heap (jobs srv') = <[id := Jobs.mkJobState Jobs.Pending now None None None]>
                                         (Jobs.heap (jobs (srv s)))) by by rewrite Hj.
  split; cbn [srv clock ended]; rewrite ?Hh, ?Hta, ?Hru.
  - rewrite Hj. eapply Jobs.reach_step; [by apply ji_table|]. by apply Jobs.step_create.
  - rewrite fmap_app. apply NoDup_app. split_and!; [apply (ji_nodup s Hs)| |apply NoDup_singleton].
    by intros i Hi [= ->]%list_elem_of_singleton.
  - intros i h [Hi|[= -> ->]%list_elem_of_singleton]%elem_of_app; [|rewrite lookup_insert_eq; eauto].
    destruct (ji_spawned s Hs i h Hi) as (? & ? & j & Hjj & ?). rewrite lookup_insert_ne; eauto.
  - intros i h Hi. destruct (ji_running s Hs i h Hi) as (? & j & Hjj & ?). rewrite lookup_insert_ne; eauto.
  - intros i t r Hi. destruct (ji_ended s Hs i t r Hi) as (t0 & Hjj). rewrite lookup_insert_ne; eauto.
  - apply (ji_crashed s Hs).
  - intros i. rewrite lookup_insert, fmap_app, elem_of_app. case_decide as Hid.
    + intros _. left. right. subst i. by apply list_elem_of_singleton.
    + intros Hi. destruct (ji_all s Hs i Hi) as [?|?]; auto.
Qed.

Lemma jobs_inv_request s uuid now now' req :
  jobs_inv s -> Jobs.heap (jobs (srv s)) !! uuid = None -> clock s <= now <= now' ->
  jobs_inv (mkSys (handle uuid now now' req (srv s)).1 now' (ended s) (crashed s)).
Proof using Type.
  intros Hs Hu Ht. pose proof (handle_jobs uuid now now' req (srv s)) as [Hru Hcase].
  destruct Hcase as [[Hj Hta]|[(hreq & Hj & Hta)|(id & Hj & Hta)]].
  - apply jobs_inv_same; try done; [|by rewrite Hj].
    rewrite Hj. eapply Jobs.reach_step; [by apply ji_table|]. apply Jobs.step_wait. simpl. lia.
  - by eapply jobs_inv_create.
  - apply jobs_inv_same; try done; [|by rewrite Hj].
    rewrite Hj. eapply Jobs.reach_step; [by apply ji_table|]. by apply (Jobs.step_view (Jobs.mkSys (clock s) (jobs (srv s))) id now now').
Qed.

Lemma jobs_inv_start s i : jobs_inv s -> jobs_inv (mkSys (start_job i (srv s)) (clock s) (ended s) (crashed s)).
Proof using Type.
  intros Hs. unfold start_job. destruct (tasks (srv s) !! i) as [[id hreq]|] eqn:Ei.
  2: { apply jobs_inv_same; try done. apply (ji_table s Hs). }
  destruct (ji_spawned s Hs id hreq (list_elem_of_lookup_2 _ _ _ Ei)) as (Hr & He & j & Hj & Hst).
  assert (Hp : tasks (srv s) ≡ₚ (id, hreq) :: delete i (tasks (srv s))) by by apply delete_Permutation.
  pose proof (ji_nodup s Hs) as Hnd. rewrite Hp in Hnd. apply NoDup_cons in Hnd as [Hni Hnd].
  assert (Hin : forall k h, (k, h) ∈ delete i (tasks (srv s)) -> (k, h) ∈ tasks (srv s) /\ id <> k).
  { intros k h Hk. split; [rewrite Hp; by right|]. intros <-. apply Hni.
    by apply (list_elem_of_fmap_2 fst) in Hk. }
  split; cbn [srv clock ended jobs tasks running].
  - eapply Jobs.reach_step; [by apply ji_table|]. by eapply Jobs.step_begin.
  - done.
  - intros k h [Hk Hne]%Hin. simpl. rewrite lookup_insert_ne, lookup_alter_ne by done.
    by apply (ji_spawned s Hs k h).
  - intros k h. simpl. rewrite lookup_insert. case_decide as Hk.
    + intros _. subst k. rewrite lookup_alter_eq, Hj. split; [done|]. eauto.
    + rewrite lookup_alter_ne by done. apply (ji_running s Hs).
  - intros k t r Hk. simpl. rewrite lookup_alter_ne by congruence. by apply (ji_ended s Hs).
  - intros k Hk%(ji_crashed s Hs). simpl. rewrite lookup_insert. by case_decide.
  - intros k. simpl. rewrite lookup_insert. intros Hk. case_decide as Hne; [right; left; eauto|].
    rewrite lookup_alter_ne in Hk by done. destruct (ji_all s Hs k Hk) as [Hk'|?]; [|tauto].
    left. rewrite Hp in Hk'. apply elem_of_cons in Hk' as [->|]; done.
Qed.

Lemma jobs_inv_end s now id s' r :
  jobs_inv s -> clock s <= now -> id ∉ crashed s -> end_job now id (srv s) = (s', Some r) ->
  jobs_inv (mkSys s' now (<[id := (now, r)]> (ended s)) (crashed s)).
Proof using Type.
  intros Hs Ht Hcr. unfold end_job. destruct (running (srv s) !! id) as [hreq|] eqn:Er; [|done].
  destruct (hydrate S hreq (fetcher (srv s))) as [f r']. intros [= <- ->].
  destruct (ji_running s Hs id hreq Er) as (He & j & Hj & Hst).
  assert (Hj0 : exists t0, j = Jobs.mkJobState Jobs.Running t0 None None None).
  { destruct (Jobs.so_wf _ (Jobs.reachable_sound _ (ji_table s Hs)) id j Hj) as [_ Hw]. simpl in Hw.
    rewrite Hst in Hw. destruct j; simpl in *. naive_solver. }
  split; cbn [srv clock ended jobs tasks running].
  - eapply Jobs.reach_step; [by apply ji_table|]. by eapply Jobs.step_finish.
  - apply (ji_nodup s Hs).
  - intros k h Hk. destruct (ji_spawned s Hs k h Hk) as (Hr & Hn & jk & Hjk & Hpk).
    assert (id <> k) by congruence. simpl. rewrite lookup_delete_ne, lookup_insert_ne, lookup_alter_ne by done. eauto.
  - intros k h [Hne Hk]%lookup_delete_Some. simpl. rewrite lookup_insert_ne, lookup_alter_ne by done.
    by apply (ji_running s Hs k h).
  - intros k t x. simpl. rewrite lookup_insert. case_decide as Hk.
    + intros [= <- <-]. subst k. destruct Hj0 as (t0 & ->). exists t0. by rewrite lookup_alter_eq, Hj.
    + rewrite lookup_alter_ne by done. apply (ji_ended s Hs).
  - intros k Hk. simpl. rewrite lookup_delete_ne by (by intros <-). by apply (ji_crashed s Hs).
  - intros k. simpl. rewrite lookup_insert. intros Hk. case_decide as Hne; [right; right; eauto|].
    rewrite lookup_alter_ne in Hk by done. rewrite lookup_delete_ne by done. by apply (ji_all s Hs).
Qed.

Lemma reachable_jobs s : reachable s -> jobs_inv s.
Proof using Type.
  induction 1 as [f g t Ht|s s' _ IH Hst].
  - split; simpl; try done; [by apply Jobs.reach_new|apply NoDup_nil_2| |by intros id [? ?]].
    intros id h Hi. by apply not_elem_of_nil in Hi.
  - destruct Hst; [by apply jobs_inv_request|by apply jobs_inv_start|by apply jobs_inv_end|].
    destruct IH. split; try done. simpl. by intros k [->%elem_of_singleton|?%ji_crashed0]%elem_of_union.
Qed.

(** What the table says of a job that has not ended. *)
Lemma live_job s id j :
  jobs_inv s -> Jobs.heap (jobs (srv s)) !! id = Some j -> ended s !! id = None ->
  Jobs.status j = (if decide (is_Some (running (srv s) !! id)) then Jobs.Running else Jobs.Pending) /\
  Jobs.finished_at j = None /\ Jobs.result j = None /\ Jobs.error j = None.
Proof using Type.
  intros Hs Hj He. destruct (Jobs.so_wf _ (Jobs.reachable_sound _ (ji_table s Hs)) id j Hj) as [_ Hw].
  destruct (ji_all s Hs id ltac:(eauto)) as [Hin|[[h Hr]|[? Hx]]]; [| |congruence].
  - apply list_elem_of_fmap in Hin as ([i h] & -> & Hin). cbn [fst] in *.
    destruct (ji_spawned s Hs i h Hin) as (Hr & _ & j' & Hj' & Hp). assert (j' = j) as -> by congruence.
    rewrite Hp in Hw |- *. by rewrite Hr, decide_False by apply is_Some_None.
  - destruct (ji_running s Hs id h Hr) as (_ & j' & Hj' & Hp). assert (j' = j) as -> by congruence.
    rewrite Hp in Hw |- *. by rewrite Hr, decide_True by eauto.
Qed.

(** An outcome is final: a job that has ended does not end again. *)
Lemma ended_final s s' id x : jobs_inv s -> step s s' -> ended s !! id = Some x -> ended s' !! id = Some x.
Proof using Type.
  intros Hs Hst Hx. destruct Hst as [| |t i srv' r Hle Hcr Hend|]; simpl; [done|done| |done].
  rewrite lookup_insert_ne; [done|]. intros ->. unfold end_job in Hend.
  destruct (running (srv s) !! id) as [h|] eqn:Er; [|done].
  destruct (ji_running s Hs id h Er) as [? _]. congruence.
Qed.

(** C31.  Polls tell the truth whatever else happens: in every interleaving of requests, job tasks and
    polls, a poll of a submitted job is answered 200 with "pending" until its task begins, "running"
    until its coordinator returns, and then for an hour with the outcome the coordinator returned -
    its result when it succeeded, its error when it did not - and 404 afterwards; a job ends at most
    once, and its outcome never changes.  A job whose task panics has no end: it is polled as
    "running" for good. *)
Theorem polls_truthful s id j uuid now now' :
  reachable s -> id <> "" -> Jobs.heap (jobs (srv s)) !! id = Some j -> clock s <= now <= now' ->
  (exists t0, 0 <= t0 <= clock s /\
    (handle uuid now now' (poll id) (srv s)).2 =
      let ms t := sat_sub t t0 / 10 ^ 6 in
      match ended s !! id with
      | Some (t, r) =>
          if sat_sub now t <? Jobs.COMPLETED_TTL then
            json 200 (enc_view C match r with
                                 | Ok x => Jobs.mkJobView id Jobs.Completed (ms t) (Some x) None
                                 | Err e => Jobs.mkJobView id Jobs.Failed (ms t) None (Some (display e))
                                 end)
          else bare 404 "unknown job_id"
      | None =>
          json 200 (enc_view C (Jobs.mkJobView id
            (if decide (is_Some (running (srv s) !! id)) then Jobs.Running else Jobs.Pending) (ms now') None None))
      end) /\
  (forall s' x, step s s' -> ended s !! id = Some x -> ended s' !! id = Some x) /\
  (id ∈ crashed s -> ended s !! id = None /\ is_Some (running (srv s) !! id) /\
     forall s', step s s' -> id ∈ crashed s').
Proof using Type.
  intros Hs%reachable_jobs Hid Hj Ht. split_and!; [|by intros s' x; apply ended_final|].
  2: { intros Hcr. destruct (ji_crashed s Hs id Hcr) as [h Hh]. split_and!; [by apply (ji_running s Hs id h)|eauto|].
       intros s' Hst. destruct Hst; simpl; try done. by apply elem_of_union_r. }
  pose proof (Jobs.reachable_sound _ (ji_table s Hs)) as Hso.
  destruct (Jobs.so_wf _ Hso id j Hj) as [Hst _]. exists (Jobs.started_at j). split; [done|].
  rewrite handle_poll by done. unfold get_job.
  pose proof (Jobs.view_sound _ now now' id j Hso Hj ltac:(simpl; lia)) as Hv. cbn [Jobs.table] in Hv.
  destruct (Jobs.view id now now' (jobs (srv s))) as [js v]. cbn [snd] in Hv |- *. subst v. cbv zeta.
  destruct (ended s !! id) as [[t r]|] eqn:Ee.
  - destruct (ji_ended s Hs id t r Ee) as (t0 & Hj'). assert (j = Jobs.settle t r
      (Jobs.mkJobState Jobs.Running t0 None None None)) as -> by congruence.
    unfold Jobs.retained. destruct r; simpl; by destruct (_ <? _).
  - destruct (live_job s id j Hs Hj Ee) as (Hp & Hf & Hr & He). unfold Jobs.retained, Jobs.view_of.
    by rewrite Hf, Hr, He, Hp.
Qed.
End status.

(** ** A node that serves *)
#[local] Existing Instance Lru.list_lru.
#[local] Existing Instance Transport.percent_codec.

(** An encoding with one word per answer; the only body that decodes is empty. *)
Definition demo_codec : Codec :=
  let word {A} (w : string) (_ : A) := str_bytes w in
  let refuse {A} (_ : Bytes) : result string A := Err "expected value" in
  mkCodec (word "metrics") (fun _ _ => str_bytes "stats") (word "members") str_bytes
    (fun v => str_bytes match Jobs.v_status v with
                        | Jobs.Pending => "pending" | Jobs.Running => "running"
                        | Jobs.Completed => "completed" | Jobs.Failed => "failed"
                        end)
    (fun r => str_bytes (show (Hydrate.hr_total_chunks r))) (word "clear") (word "cleared") (word "shard")
    (word "broadcast") (word "ring")
    (fun b => match b with
              | [] => Ok (Hydrate.mkHydrateRequest "m" "" None None)
              | _ => Err "expected value"
              end)
    refuse refuse refuse.

Definition demo_services : Services :=
  services (fun l => l) Fetch.demo_env (fun _ => None) (fun e => e) Hydrate.demo_fate Fetch.demo_mounts
    Hydrate.demo_world Hydrate.demo_timeouts None 4 {["m" := fun _ _ _ _ => Ok [("f", 10)]]} "a"
    "http://a:7772" ∅ (fun _ => None) (fun _ => Clear.Lost "down") (fun _ => None) (Hydrate.mkClock 0 0 0)
    true (fun _ => true) 0 0 0.

Definition demo_server : Server :=
  boot Fetch.demo_fetcher (mkGauges 0 0 0 0 0 0 0 0).

(** A job is submitted and its task begins. *)
Definition demo_submitted : Sys :=
  mkSys (handle demo_codec demo_services "u" 5 5 (post_async []) demo_server).1 5 ∅ ∅.

Definition demo_begun : Sys := mkSys (start_job 0 (srv demo_submitted)) 5 ∅ ∅.

Lemma polls_truthful_witness :
  reachable demo_codec demo_services demo_begun /\
  Gossip.body (handle demo_codec demo_services "v" 9 9 (poll "u") (srv demo_begun)).2 = str_bytes "running".
Proof.
  assert (Hr : reachable demo_codec demo_services demo_begun).
  { apply (reach_step _ _ demo_submitted); [|apply (step_start _ _ demo_submitted 0)].
    apply (reach_step _ _ (mkSys demo_server 0 ∅ ∅)); [by apply reach_boot|].
    by apply (step_request _ _ (mkSys demo_server 0 ∅ ∅) "u" 5 5 (post_async [])). }
  split; [done|].
  destruct (polls_truthful demo_codec demo_services demo_begun "u"
    (Jobs.mkJobState Jobs.Running 5 None None None) "v" 9 9) as ((t0 & _ & ->) & _); try done.
Defined.

Lemma async_reports_sync_witness :
  Gossip.body (handle demo_codec demo_services "u" 9 9 (poll "u")
    (end_job demo_services 7 "u" (start_job 0 (handle demo_codec demo_services "u" 5 5 (post_async []) demo_server).1)).1).2
  = str_bytes "completed".
Proof.
  pose proof (async_reports_sync demo_codec demo_services "u" [] (Hydrate.mkHydrateRequest "m" "" None None)
    5 5 7 9 9 demo_server) as H. cbv zeta in H.
  destruct (handle _ _ _ _ _ (post_async []) _) as [s1 r1] in H |- *. cbn [fst].
  destruct (handle _ _ _ _ _ (poll "u") _) as [s3 r3] in H |- *. cbn [snd].
  destruct (handle _ _ _ _ _ (post_sync []) _) as [s' r'] in H.
  destruct H as (_ & _ & _ & _ & _ & v & -> & _ & Hv); [done|done|done|done|reflexivity|].
  assert (Hok : is_ok (hydrate demo_services (Hydrate.mkHydrateRequest "m" "" None None)
    (fetcher demo_server)).2 = true) by (vm_compute; reflexivity).
  destruct (hydrate _ _ _) as [f [r|e]] in Hok, Hv; [|discriminate]. cbn [snd] in Hv. destruct Hv as (Hv & _).
  cbn. rewrite Hv. reflexivity.
Defined.
End Status.
