(* ===== verification/FuseFs.v ===== *)
(** * The FUSE file system (src/src/fuse_fs.rs)

    The inode table behind the lock, the lazy directory listings, and the FUSE operations.  The blob
    service is the record [Service]; clock readings are the argument [now]; a reply is a value.  The
    operations that take the lock more than once are cut there: [apply_listing] and [upsert_file] are
    the writing sections, and [step] lets them run in any order. *)

From S2P Require Import Prelude ChunkKeys DiskCache Cluster PeerIndex Config PeerLru Fetcher.

Module Fs.
Abbreviation Bytes := (list byte).

Definition LISTING_TTL : Z := 30.
Definition ROOT_INO : Z := 1.
Definition MAX_CHILDREN_PER_DIR : Z := 100000.

(** ** The inode table *)
Inductive NodeKind : Type :=
| Dir (children_loaded : bool)
| File (fsize : Z) (etag : option string) (mtime : Z).

Record Node := mkNode {
  ino : Z;
  parent : Z;
  name : string;
  full_path : string;
  kind : NodeKind
}.

Record Inner := mkInner {
  by_ino : gmap Z Node;
  by_parent_name : gmap (Z * string) Z;
  children : gmap Z (list Z);
  next_ino : Z
}.

Definition root : Node := mkNode ROOT_INO ROOT_INO "" "" (Dir false).

Definition new_inner : Inner := mkInner {[ROOT_INO := root]} ∅ {[ROOT_INO := []]} 2.

Inductive FileType : Type := Directory | RegularFile.

(** The fields of [fuser::FileAttr] that depend on the node; the four times are equal, [blksize] is
    4096, [rdev] and [flags] are 0. *)
Record FileAttr := mkFileAttr {
  a_ino : Z;
  a_size : Z;
  a_blocks : Z;
  a_time : Z;
  a_kind : FileType;
  a_perm : Z;
  a_nlink : Z;
  a_uid : Z;
  a_gid : Z
}.

Definition attr_for (n : Node) (uid gid : Z) : FileAttr :=
  match kind n with
  | Dir _ => mkFileAttr (ino n) 0 0 0 Directory 365 2 uid gid
  | File size _ mtime => mkFileAttr (ino n) size (div_ceil size 512) mtime RegularFile 292 1 uid gid
  end.

(** [str::get(n..)]: [None] past the end or inside a UTF-8 sequence. *)
Definition is_char_boundary (s : string) (n : nat) : bool :=
  match str_bytes s !! n with
  | Some b => negb (in_range 128 191 b)
  | None => (n =? String.length s)%nat
  end.

Definition get_from (s : string) (n : nat) : option string :=
  if is_char_boundary s n then Some (string_drop n s) else None.

Definition is_empty (s : string) : bool := match s with EmptyString => true | _ => false end.

Section table.
Context (mount : Conf.MountConfig).

(** The name prefix of everything in the mount. *)
Definition mount_prefix : string :=
  if is_empty (Conf.prefix mount) then EmptyString
  else trim_matches slash (Conf.prefix mount) +:+ "/".

Definition strip_prefix_len : nat :=
  if is_empty (Conf.prefix mount) then O
  else (String.length (trim_matches slash (Conf.prefix mount)) + 1)%nat.

(** Filing a new node under its parent. *)
Definition add_node (n : Node) (own_children : bool) (g : Inner) : Inner :=
  let kids := <[parent n := default [] (children g !! parent n) ++ [ino n]]> (children g) in
  mkInner (<[ino n := n]> (by_ino g)) (<[(parent n, name n) := ino n]> (by_parent_name g))
    (if own_children then <[ino n := default [] (kids !! ino n)]> kids else kids)
    (wadd64 (next_ino g) 1).

Definition upsert_dir (p : Z) (nm full_blob_path : string) (g : Inner) : Inner :=
  match by_parent_name g !! (p, nm) with
  | Some _ => g
  | None =>
      let trim := trim_end_matches slash full_blob_path in
      let path := default EmptyString (get_from trim strip_prefix_len) in
      add_node (mkNode (next_ino g) p nm path (Dir false)) true g
  end.

Definition set_file (size : Z) (etag : option string) (mtime : Z) (n : Node) : Node :=
  match kind n with
  | File _ _ _ => mkNode (ino n) (parent n) (name n) (full_path n) (File size etag mtime)
  | Dir _ => n
  end.

Definition upsert_file (p : Z) (nm full_blob_name : string) (size : Z) (etag : option string)
    (mtime : Z) (g : Inner) : Inner :=
  match by_parent_name g !! (p, nm) with
  | Some existing =>
      mkInner (alter (set_file size etag mtime) existing (by_ino g)) (by_parent_name g) (children g)
        (next_ino g)
  | None =>
      let path := default full_blob_name (get_from full_blob_name strip_prefix_len) in
      add_node (mkNode (next_ino g) p nm path (File size etag mtime)) false g
  end.

(** ** Listings *)
Record ListedBlob := mkListedBlob {
  lb_name : string;
  lb_content_length : Z;
  lb_etag : option string
}.

(** The directory is full and the name is not in it yet. *)
Definition over_cap (d : Z) (rel : string) (g : Inner) : bool :=
  (MAX_CHILDREN_PER_DIR <=? len (default [] (children g !! d)))
  && negb (bool_decide (is_Some (by_parent_name g !! (d, rel)))).

Definition relative (strip nm : string) : string := default nm (strip_prefix strip nm).

Fixpoint list_dirs (d : Z) (strip : string) (prefixes : list string) (g : Inner) (seen : gset string)
    : Inner * gset string :=
  match prefixes with
  | [] => (g, seen)
  | p :: t =>
      let rel := trim_end_matches slash (relative strip p) in
      if is_empty rel || over_cap d rel g then list_dirs d strip t g seen
      else list_dirs d strip t (upsert_dir d rel p g) ({[rel]} ∪ seen)
  end.

Fixpoint list_files (now d : Z) (strip : string) (blobs : list ListedBlob) (g : Inner)
    (seen : gset string) : Inner * gset string :=
  match blobs with
  | [] => (g, seen)
  | b :: t =>
      let rel := relative strip (lb_name b) in
      if is_empty rel || contains_char slash rel || over_cap d rel g then list_files now d strip t g seen
      else list_files now d strip t
             (upsert_file d rel (lb_name b) (lb_content_length b) (lb_etag b) now g) ({[rel]} ∪ seen)
  end.

(** What the delta-delete removes: tracked children that were not seen. *)
Definition to_remove (d : Z) (seen : gset string) (g : Inner) : list (string * Z) :=
  omap (fun k => n ← by_ino g !! k; if decide (name n ∈ seen) then None else Some (name n, k))
    (default [] (children g !! d)).

Definition remove_child (d : Z) (g : Inner) (x : string * Z) : Inner :=
  let kids := alter (filter (fun k => k <> x.2)) d (children g) in
  mkInner (by_ino g) (delete (d, x.1) (by_parent_name g)) (delete x.2 kids) (next_ino g).

Definition delta_delete (d : Z) (seen : gset string) (g : Inner) : Inner :=
  foldl (remove_child d) g (to_remove d seen g).

Definition set_loaded (n : Node) : Node :=
  match kind n with
  | Dir _ => mkNode (ino n) (parent n) (name n) (full_path n) (Dir true)
  | File _ _ _ => n
  end.

(** The writing section of [ensure_dir_listed]. *)
Definition apply_listing (now d : Z) (strip : string) (blobs : list ListedBlob) (prefixes : list string)
    (g : Inner) : Inner :=
  let '(g, seen) := list_dirs d strip prefixes g ∅ in
  let '(g, seen) := list_files now d strip blobs g seen in
  let g := delta_delete d seen g in
  mkInner (alter set_loaded d (by_ino g)) (by_parent_name g) (children g) (next_ino g).

(** The prefix a directory is listed with. *)
Definition dir_prefix (n : Node) : string :=
  if is_empty (full_path n) then mount_prefix else mount_prefix +:+ full_path n +:+ "/".
End table.

(** ** The operations *)
Definition ENOENT : Z := 2.
Definition EIO : Z := 5.
Definition ENOTDIR : Z := 20.
Definition EISDIR : Z := 21.

(** A reply: an errno, or the answer. *)
Abbreviation reply := (result Z).

(** The blob service. *)
Record Service := mkService {
  list_blobs : string -> string -> option string -> bool -> res (list ListedBlob * list string);
  get_blob_properties : string -> string -> string -> res (Z * option string)
}.

Section operations.
Context {L : Lru.LruCache}.
Context (sha256 : Bytes -> Bytes) (E : Fetch.Env) (S : Service).

Record BlobFs := mkBlobFs {
  mount : Conf.MountConfig;
  inner : Inner;
  last_listing : gmap Z Z;
  fuse_reads : Z;
  fuse_read_bytes : Z;
  fetcher : Fetch.Fetcher
}.

Definition new (m : Conf.MountConfig) (f : Fetch.Fetcher) : BlobFs := mkBlobFs m new_inner ∅ 0 0 f.

Definition set_inner (g : Inner) (s : BlobFs) : BlobFs :=
  mkBlobFs (mount s) g (last_listing s) (fuse_reads s) (fuse_read_bytes s) (fetcher s).

Definition need_load (now d : Z) (n : Node) (s : BlobFs) : reply bool :=
  match kind n with
  | Dir children_loaded =>
      let recent := match last_listing s !! d with Some t => now - t <? LISTING_TTL | None => false end in
      Ok (negb children_loaded || negb recent)
  | File _ _ _ => Err ENOTDIR
  end.

Definition ensure_dir_listed (now d : Z) (s : BlobFs) : BlobFs * reply unit :=
  match by_ino (inner s) !! d with
  | None => (s, Err ENOENT)
  | Some n =>
      match need_load now d n s with
      | Err e => (s, Err e)
      | Ok false => (s, Ok tt)
      | Ok true =>
          let prefix := dir_prefix (mount s) n in
          let pref_arg := if is_empty prefix then None else Some prefix in
          match list_blobs S (Conf.account (mount s)) (Conf.container (mount s)) pref_arg false with
          | Err _ => (s, Err EIO)
          | Ok (blobs, prefixes) =>
              let g := apply_listing (mount s) now d prefix blobs prefixes (inner s) in
              (mkBlobFs (mount s) g (<[d := now]> (last_listing s)) (fuse_reads s) (fuse_read_bytes s)
                 (fetcher s), Ok tt)
          end
      end
  end.

(** The blob a name of a directory would be. *)
Definition candidate (p : Node) (nm : string) (s : BlobFs) : string :=
  if is_empty (full_path p) then mount_prefix (mount s) +:+ nm
  else mount_prefix (mount s) +:+ full_path p +:+ "/" +:+ nm.

(** The second half of [lookup]: the name is not in the table, so ask the service for the blob. *)
Definition lookup_blob (now p : Z) (nm : string) (uid gid : Z) (s : BlobFs) : BlobFs * reply FileAttr :=
  match by_ino (inner s) !! p with
  | None => (s, Err ENOENT)
  | Some pn =>
      let c := candidate pn nm s in
      match get_blob_properties S (Conf.account (mount s)) (Conf.container (mount s)) c with
      | Err _ => (s, Err ENOENT)
      | Ok (content_length, etag) =>
          let g := upsert_file (mount s) p nm c content_length etag now (inner s) in
          let s := set_inner g s in
          match by_parent_name g !! (p, nm) ≫= (fun i => by_ino g !! i) with
          | Some n => (s, Ok (attr_for n uid gid))
          | None => (s, Err EIO)
          end
      end
  end.

Definition lookup (now p : Z) (nm : string) (uid gid : Z) (s : BlobFs) : BlobFs * reply FileAttr :=
  match ensure_dir_listed now p s with
  | (s, Err e) => (s, Err e)
  | (s, Ok _) =>
      match by_parent_name (inner s) !! (p, nm) ≫= (fun i => by_ino (inner s) !! i) with
      | Some n => (s, Ok (attr_for n uid gid))
      | None => lookup_blob now p nm uid gid s
      end
  end.

Definition getattr (i uid gid : Z) (s : BlobFs) : reply FileAttr :=
  match by_ino (inner s) !! i with
  | Some n => Ok (attr_for n uid gid)
  | None => Err ENOENT
  end.

(** [offset] is the [i64] of the request; [as u64] wraps a negative one. *)
Definition read (i off size : Z) (s : BlobFs) : BlobFs * reply Bytes :=
  match by_ino (inner s) !! i with
  | None => (s, Err ENOENT)
  | Some n =>
      match kind n with
      | Dir _ => (s, Err EISDIR)
      | File file_size _ _ =>
          let o := wrap64 off in
          if file_size <=? o then (s, Ok [])
          else
            let length := Z.min size (file_size - o) in
            let '(f, r, _) := Fetch.fetch_range sha256 E (mount s) (full_path n) o length file_size (fetcher s) in
            match r with
            | Ok b =>
                let f := Fetch.add_stat "fuse_read_bytes" (len b) (Fetch.inc "fuse_reads" f) in
                (mkBlobFs (mount s) (inner s) (last_listing s) (wadd64 (fuse_reads s) 1)
                   (wadd64 (fuse_read_bytes s) (len b)) f, Ok b)
            | Err _ =>
                (mkBlobFs (mount s) (inner s) (last_listing s) (wadd64 (fuse_reads s) 1)
                   (fuse_read_bytes s) f, Err EIO)
            end
      end
  end.

Definition file_type (n : Node) : FileType :=
  match kind n with Dir _ => Directory | File _ _ _ => RegularFile end.

(** Everything [readdir] would list. *)
Definition dir_entries (d : Z) (g : Inner) : list (Z * FileType * string) :=
  let parent_ino := match by_ino g !! d with Some n => parent n | None => ROOT_INO end in
  (d, Directory, ".") :: (parent_ino, Directory, "..") ::
  omap (fun k => n ← by_ino g !! k; Some (k, file_type n, name n)) (default [] (children g !! d)).

(** The loop over [reply.add]: entry, and the cookie to resume after it; [room] entries fit. *)
Definition add_entries (off : Z) (room : nat) (entries : list (Z * FileType * string))
    : list (Z * FileType * string * Z) :=
  take room (drop (Z.to_nat (wrap64 off)) (imap (fun i e => (e, Z.of_nat i + 1)) entries)).

Definition readdir (now d off : Z) (room : nat) (s : BlobFs)
    : BlobFs * reply (list (Z * FileType * string * Z)) :=
  match ensure_dir_listed now d s with
  | (s, Err e) => (s, Err e)
  | (s, Ok _) => (s, Ok (add_entries off room (dir_entries d (inner s))))
  end.
End operations.

(** ** The invariant of the table *)
Definition is_dir (n : Node) : bool := match kind n with Dir _ => true | File _ _ _ => false end.

(** Every inode but the root has an older parent in the table; names and child lists point to inodes
    with that parent and that name.  The converse does not hold of names: those of a directory that has
    disappeared stay in [by_parent_name] when its child list goes. *)
Record wf (g : Inner) : Prop := {
  wf_ino i n : by_ino g !! i = Some n ->
    ino n = i /\ ROOT_INO <= i < next_ino g /\
    (i <> ROOT_INO -> parent n < i /\ is_Some (by_ino g !! parent n));
  wf_name p nm i : by_parent_name g !! (p, nm) = Some i ->
    i <> ROOT_INO /\ exists n, by_ino g !! i = Some n /\ parent n = p /\ name n = nm;
  wf_kids p kids : children g !! p = Some kids ->
    p < next_ino g /\ NoDup kids /\
    forall k, k ∈ kids -> exists n, by_ino g !! k = Some n /\ parent n = p /\
      by_parent_name g !! (p, name n) = Some k;
  wf_root : exists n, by_ino g !! ROOT_INO = Some n /\ is_dir n = true;
  wf_next : ROOT_INO < next_ino g
}.

(** What an inode number stands for never changes. *)
Definition same_identity (n n' : Node) : Prop :=
  ino n' = ino n /\ parent n' = parent n /\ name n' = name n /\ full_path n' = full_path n /\
  is_dir n' = is_dir n.

Definition stable (g g' : Inner) : Prop :=
  forall i n, by_ino g !! i = Some n -> exists n', by_ino g' !! i = Some n' /\ same_identity n n'.

Lemma stable_refl g : stable g g.
Proof. intros i n H. exists n. by split. Qed.

Lemma stable_trans a b c : stable a b -> stable b c -> stable a c.
Proof.
  intros H1 H2 i n Hi. destruct (H1 i n Hi) as (n1 & Hn1 & ? & ? & ? & ? & ?).
  destruct (H2 i n1 Hn1) as (n2 & Hn2 & ? & ? & ? & ? & ?). exists n2.
  split; [done|]. unfold same_identity. split_and!; congruence.
Qed.

Lemma stable_parent g g' p : stable g g' -> is_Some (by_ino g !! p) -> is_Some (by_ino g' !! p).
Proof. intros H [n Hn]. destruct (H _ _ Hn) as (n' & ? & _). eauto. Qed.

(** Only the kind of a node is rewritten, and not from directory to file. *)
Lemma alter_stable (f : Node -> Node) i g b c nx :
  (forall n, same_identity n (f n)) ->
  stable g (mkInner (alter f i (by_ino g)) b c nx).
Proof.
  intros Hf j n Hj. simpl. destruct (decide (i = j)) as [<-|].
  - exists (f n). rewrite lookup_alter_eq, Hj. split; [done|apply Hf].
  - exists n. rewrite lookup_alter_ne by done. by split.
Qed.

Lemma alter_wf (f : Node -> Node) i g :
  (forall n, same_identity n (f n)) -> wf g ->
  wf (mkInner (alter f i (by_ino g)) (by_parent_name g) (children g) (next_ino g)).
Proof.
  intros Hf [H1 H2 H3 (r & Hr & Hrd) H5].
  assert (Hl : forall j n', alter f i (by_ino g) !! j = Some n' ->
    exists n, by_ino g !! j = Some n /\ same_identity n n').
  { intros j n'. rewrite lookup_alter_Some. intros [(<- & n & Hn & ->)|[_ Hn]]; exists n || exists n'; split;
      try done; apply Hf. }
  pose proof (alter_stable f i g (by_parent_name g) (children g) (next_ino g) Hf) as Hs.
  unfold stable in Hs. cbn [by_ino] in Hs.
  split; simpl; try done.
  - intros j n' (n & Hn & Hid & Hpar & _)%Hl. destruct (H1 _ _ Hn) as (? & ? & Hup).
    split_and!; [congruence|lia|lia|]. rewrite Hpar. intros [? [q Hq]]%Hup. split; [done|].
    destruct (Hs _ _ Hq) as (q' & -> & _). eauto.
  - intros p nm j Hj. destruct (H2 _ _ _ Hj) as (? & n & Hn & ? & ?). split; [done|].
    destruct (Hs _ _ Hn) as (n' & Hn' & ? & ? & ? & ? & ?). exists n'. split_and!; congruence.
  - intros p kids Hk. destruct (H3 _ _ Hk) as (? & ? & Hin). split_and!; [done|done|].
    intros k (n & Hn & ? & ?)%Hin. destruct (Hs _ _ Hn) as (n' & Hn' & ? & ? & ? & ? & ?).
    exists n'. split_and!; congruence.
  - destruct (Hs _ _ Hr) as (r' & Hr' & ? & ? & ? & ? & ?). exists r'. split; [done|congruence].
Qed.

Lemma set_file_identity size etag mtime n : same_identity n (set_file size etag mtime n).
Proof. unfold set_file, same_identity, is_dir. by destruct (kind n) eqn:E; rewrite ?E. Qed.

Lemma set_loaded_identity n : same_identity n (set_loaded n).
Proof. unfold set_loaded, same_identity, is_dir. by destruct (kind n) eqn:E; rewrite ?E. Qed.

(** Adding a fresh node under an existing parent. *)
Section add_node.
Context (n : Node) (own : bool) (g : Inner) (Hwf : wf g).
Context (Hnone : by_parent_name g !! (parent n, name n) = None) (Hino : ino n = next_ino g).
Context (Hp : is_Some (by_ino g !! parent n)) (Hmax : next_ino g + 1 <= u64_max).
#[local] Notation g' := (add_node n own g).
#[local] Notation kids' := (<[parent n := default [] (children g !! parent n) ++ [ino n]]> (children g)).

Lemma add_fresh : by_ino g !! ino n = None.
Proof using Hwf Hino.
  destruct (by_ino g !! ino n) as [x|] eqn:E; [|done]. destruct (wf_ino _ Hwf _ _ E) as (? & ? & ?). lia.
Qed.

Lemma add_next : next_ino g' = next_ino g + 1.
Proof using Hwf Hmax. pose proof (wf_next _ Hwf). apply wadd64_small; unfold ROOT_INO in *; lia. Qed.

Lemma add_old i x : by_ino g !! i = Some x -> by_ino g' !! i = Some x.
Proof using Hwf Hino.
  intros Hi. simpl. rewrite lookup_insert_ne; [done|]. intros <-. by rewrite add_fresh in Hi.
Qed.

Lemma add_stable : stable g g'.
Proof using Hwf Hino. intros i x Hi. exists x. split; [by apply add_old|done]. Qed.

Lemma add_kept p k x :
  by_ino g !! k = Some x -> parent x = p -> by_parent_name g !! (p, name x) = Some k ->
  exists x', by_ino g' !! k = Some x' /\ parent x' = p /\ by_parent_name g' !! (p, name x') = Some k.
Proof using Hwf Hnone Hino.
  intros Hx Hpx Hb. exists x. split_and!; [by apply add_old|done|]. simpl.
  rewrite lookup_insert_ne; [done|]. intros [= Hp' Hn']. rewrite Hp', Hn', Hb in Hnone. done.
Qed.

Lemma add_kid : exists x, by_ino g' !! ino n = Some x /\ parent x = parent n /\
  by_parent_name g' !! (parent n, name x) = Some (ino n).
Proof using Type. exists n. simpl. by rewrite !lookup_insert_eq. Qed.

Lemma add_kids p kids :
  kids' !! p = Some kids -> p < next_ino g + 1 /\ NoDup kids /\
  forall k, k ∈ kids -> exists x, by_ino g' !! k = Some x /\ parent x = p /\
    by_parent_name g' !! (p, name x) = Some k.
Proof using Hwf Hnone Hino Hp.
  intros [[<- <-]|[_ Hk]]%lookup_insert_Some.
  - set (l := default [] (children g !! parent n)).
    assert (Hl : NoDup l /\ forall k, k ∈ l -> exists x, by_ino g !! k = Some x /\ parent x = parent n /\
      by_parent_name g !! (parent n, name x) = Some k).
    { subst l. destruct (children g !! parent n) as [l|] eqn:El; simpl; [apply (wf_kids _ Hwf _ _ El)|].
      split; [constructor|]. intros k Hk. by apply not_elem_of_nil in Hk. }
    destruct Hl as [Hnd Hd]. destruct Hp as [pn Hpn]. destruct (wf_ino _ Hwf _ _ Hpn) as (? & ? & _). split_and!; [lia| |].
    + apply NoDup_app. split_and!; [done| |apply NoDup_singleton]. intros k Hk.
      rewrite list_elem_of_singleton. intros ->. destruct (Hd _ Hk) as (x & Hx & _). by rewrite add_fresh in Hx.
    + intros k [Hk|Hk%list_elem_of_singleton]%elem_of_app; [|subst k; apply add_kid].
      destruct (Hd _ Hk) as (x & Hx & ? & ?). by apply (add_kept _ k x).
  - destruct (wf_kids _ Hwf _ _ Hk) as (? & ? & Hin). split_and!; [lia|done|].
    intros k (x & Hx & ? & ?)%Hin. by apply (add_kept _ k x).
Qed.

Lemma add_node_wf : wf g'.
Proof using Hwf Hnone Hino Hp Hmax.
  pose proof (wf_next _ Hwf) as Hnx. destruct (wf_root _ Hwf) as (r & Hr & Hrd).
  split; rewrite ?add_next; [| | | |lia].
  - destruct Hp as [pn Hpn]. destruct (wf_ino _ Hwf _ _ Hpn) as (_ & ? & _). simpl.
    assert (Hkeep : forall q, is_Some (by_ino g !! q) -> is_Some (<[ino n := n]> (by_ino g) !! q))
      by (intros q Hq; rewrite lookup_insert; by case_decide).
    intros i x [[<- <-]|[_ Hi]]%lookup_insert_Some.
    { split_and!; [done|lia|lia|]. intros _. split; [lia|]. apply Hkeep. eauto. }
    destruct (wf_ino _ Hwf _ _ Hi) as (? & ? & Hup). split_and!; [done|lia|lia|].
    intros [? ?]%Hup. split; [done|by apply Hkeep].
  - intros p nm i Hi. simpl in Hi. apply lookup_insert_Some in Hi as [[[= <- <-] <-]|[_ Hi]].
    + split; [lia|]. exists n. simpl. by rewrite lookup_insert_eq.
    + destruct (wf_name _ Hwf _ _ _ Hi) as (? & x & Hx & ? & ?). split; [done|]. exists x.
      split; [by apply add_old|done].
  - intros p kids Hk. simpl in Hk. destruct own; [|by apply add_kids].
    apply lookup_insert_Some in Hk as [[<- <-]|[_ Hk]]; [|by apply add_kids].
    assert (Hnk : kids' !! ino n = None).
    { rewrite lookup_insert_ne.
      - destruct (children g !! ino n) as [l|] eqn:El; [|done]. destruct (wf_kids _ Hwf _ _ El). lia.
      - intros Heq. destruct Hp as [pn Hpn]. rewrite Heq, add_fresh in Hpn. done. }
    rewrite Hnk. simpl. split_and!; [lia|constructor|]. intros k Hk. by apply not_elem_of_nil in Hk.
  - exists r. split; [by apply add_old|done].
Qed.
End add_node.

(** A change of the table: the invariant holds afterwards, inode numbers keep their meaning, and at
    most [room] new ones were handed out. *)
Definition good_change (room : Z) (g g' : Inner) : Prop :=
  wf g' /\ stable g g' /\ next_ino g <= next_ino g' <= next_ino g + room.

Lemma good_change_trans a b x y z :
  good_change a x y -> good_change b y z -> good_change (a + b) x z.
Proof.
  intros (_ & H1 & H2) (Hz & H3 & H4). split_and!; [done|by eapply stable_trans|lia|lia].
Qed.

Lemma good_change_refl room g : wf g -> 0 <= room -> good_change room g g.
Proof. intros. split_and!; [done|apply stable_refl|lia|lia]. Qed.

Lemma add_good n own g :
  wf g -> by_parent_name g !! (parent n, name n) = None -> ino n = next_ino g ->
  is_Some (by_ino g !! parent n) -> next_ino g + 1 <= u64_max -> good_change 1 g (add_node n own g).
Proof.
  intros. split_and!; [by apply add_node_wf|by apply add_stable| |]; rewrite add_next by done; lia.
Qed.

Section tables.
Context (mount : Conf.MountConfig).

Lemma upsert_dir_good p nm full g :
  wf g -> is_Some (by_ino g !! p) -> next_ino g + 1 <= u64_max ->
  good_change 1 g (upsert_dir mount p nm full g).
Proof using Type.
  intros Hwf Hp Hmax. unfold upsert_dir. destruct (by_parent_name g !! (p, nm)) eqn:E.
  - by apply good_change_refl.
  - by apply add_good.
Qed.

Lemma upsert_file_good p nm full size etag mtime g :
  wf g -> is_Some (by_ino g !! p) -> next_ino g + 1 <= u64_max ->
  good_change 1 g (upsert_file mount p nm full size etag mtime g).
Proof using Type.
  intros Hwf Hp Hmax. unfold upsert_file. destruct (by_parent_name g !! (p, nm)) eqn:E.
  - split_and!; simpl; [|apply alter_stable, set_file_identity|lia|lia].
    by apply alter_wf; [apply set_file_identity|].
  - by apply add_good.
Qed.

Lemma list_dirs_good d strip ps g seen :
  wf g -> is_Some (by_ino g !! d) -> next_ino g + len ps <= u64_max ->
  good_change (len ps) g (list_dirs mount d strip ps g seen).1.
Proof using Type.
  revert g seen. induction ps as [|p ps IH]; intros g seen Hwf Hd Hmax; cbn [list_dirs].
  - by apply good_change_refl.
  - rewrite len_cons in *. pose proof (len_nonneg ps). destruct (_ || _).
    + destruct (IH g seen) as (? & ? & ?); [done|done|lia|]. split_and!; [done|done|lia|lia].
    + pose proof (upsert_dir_good d (trim_end_matches slash (relative strip p)) p g Hwf Hd ltac:(lia)) as Hu.
      eapply good_change_trans; [exact Hu|]. destruct Hu as (? & ? & ?).
      apply IH; [done|by eapply stable_parent|lia].
Qed.

Lemma list_files_good now d strip bs g seen :
  wf g -> is_Some (by_ino g !! d) -> next_ino g + len bs <= u64_max ->
  good_change (len bs) g (list_files mount now d strip bs g seen).1.
Proof using Type.
  revert g seen. induction bs as [|b bs IH]; intros g seen Hwf Hd Hmax; cbn [list_files].
  - by apply good_change_refl.
  - rewrite len_cons in *. pose proof (len_nonneg bs). destruct (_ || _).
    + destruct (IH g seen) as (? & ? & ?); [done|done|lia|]. split_and!; [done|done|lia|lia].
    + pose proof (upsert_file_good d (relative strip (lb_name b)) (lb_name b) (lb_content_length b)
        (lb_etag b) now g Hwf Hd ltac:(lia)) as Hu.
      eapply good_change_trans; [exact Hu|]. destruct Hu as (? & ? & ?).
      apply IH; [done|by eapply stable_parent|lia].
Qed.
End tables.

(** Removing a child by its own name. *)
Lemma remove_child_wf d x g :
  wf g -> (forall k, by_parent_name g !! (d, x.1) = Some k -> k = x.2) -> wf (remove_child d g x).
Proof.
  intros [H1 H2 H3 H4 H5] Hx. split; simpl; try done.
  - intros p nm i [_ Hi]%lookup_delete_Some. by apply H2.
  - intros p kids [Hne Hk]%lookup_delete_Some. rewrite lookup_alter_Some in Hk.
    destruct Hk as [(<- & l & Hl & ->)|[Hpd Hk]].
    + destruct (H3 _ _ Hl) as (? & ? & Hin). split_and!; [done|by apply NoDup_filter|].
      intros k [Hkx Hk]%list_elem_of_filter. destruct (Hin k Hk) as (n & Hn & ? & Hb).
      exists n. split_and!; [done|done|]. rewrite lookup_delete_ne; [done|]. intros [= Heq].
      apply Hkx, Hx. by rewrite Heq.
    + destruct (H3 _ _ Hk) as (? & ? & Hin). split_and!; [done|done|].
      intros k Hkk. destruct (Hin k Hkk) as (n & Hn & ? & Hb). exists n. split_and!; [done|done|].
      rewrite lookup_delete_ne; [done|]. congruence.
Qed.

Lemma remove_children_wf d l g :
  wf g -> Forall (fun x => forall k, by_parent_name g !! (d, x.1) = Some k -> k = x.2) l ->
  good_change 0 g (foldl (remove_child d) g l).
Proof.
  revert g. induction l as [|x l IH]; intros g Hwf Hl; simpl; [by apply good_change_refl|].
  apply Forall_cons in Hl as [Hx Hl]. pose proof (remove_child_wf d x g Hwf Hx) as Hw.
  eapply (good_change_trans 0 0); [split_and!; [exact Hw|by intros i n Hi; exists n|simpl; lia|simpl; lia]|].
  apply IH; [done|]. eapply Forall_impl; [exact Hl|]. simpl. intros y Hy k [_ Hk]%lookup_delete_Some. auto.
Qed.

Lemma to_remove_elem d seen g x :
  wf g -> x ∈ to_remove d seen g <->
  exists kids n, children g !! d = Some kids /\ x.2 ∈ kids /\ by_ino g !! x.2 = Some n /\ x.1 = name n /\
    name n ∉ seen.
Proof.
  intros Hwf. unfold to_remove. rewrite list_elem_of_omap. split.
  - intros (k & Hk & Hs). destruct (children g !! d) as [kids|] eqn:Ec; [|by apply not_elem_of_nil in Hk].
    destruct (by_ino g !! k) as [n|] eqn:En; simpl in Hs; [|done]. case_decide; simplify_eq/=. eauto 10.
  - intros (kids & n & Hc & Hk & Hn & Hx & Hs). exists x.2. rewrite Hc. split; [done|]. rewrite Hn. simpl.
    rewrite decide_False by done. destruct x. simpl in *. by subst.
Qed.

Lemma delta_delete_good d seen g : wf g -> good_change 0 g (delta_delete d seen g).
Proof.
  intros Hwf. apply remove_children_wf; [done|]. apply Forall_forall. intros x Hx k Hk.
  apply to_remove_elem in Hx as (kids & n & Hc & Hin & Hn & Hx & _); [|done].
  destruct (wf_kids _ Hwf _ _ Hc) as (_ & _ & Hkids). destruct (Hkids _ Hin) as (n' & Hn' & _ & Hb).
  rewrite Hn in Hn'. injection Hn' as <-. rewrite Hx, Hb in Hk. congruence.
Qed.

Lemma apply_listing_good mount now d strip bs ps g :
  wf g -> is_Some (by_ino g !! d) -> next_ino g + (len ps + len bs) <= u64_max ->
  good_change (len ps + len bs) g (apply_listing mount now d strip bs ps g).
Proof.
  intros Hwf Hd Hmax. unfold apply_listing. pose proof (len_nonneg bs). pose proof (len_nonneg ps).
  pose proof (list_dirs_good mount d strip ps g ∅ Hwf Hd ltac:(lia)) as H1.
  destruct (list_dirs mount d strip ps g ∅) as [g1 seen1]. cbn [fst] in H1.
  destruct (H1) as (Hwf1 & Hst1 & Hn1).
  pose proof (list_files_good mount now d strip bs g1 seen1 Hwf1 ltac:(by eapply stable_parent) ltac:(lia)) as H2.
  destruct (list_files mount now d strip bs g1 seen1) as [g2 seen2]. cbn [fst] in H2.
  destruct (H2) as (Hwf2 & Hst2 & Hn2).
  pose proof (delta_delete_good d seen2 g2 Hwf2) as H3. destruct (H3) as (Hwf3 & Hst3 & Hn3).
  split_and!; simpl; [by apply alter_wf; [apply set_loaded_identity|]| |lia|lia].
  eapply stable_trans; [exact Hst1|]. eapply stable_trans; [exact Hst2|].
  eapply stable_trans; [exact Hst3|]. apply alter_stable, set_loaded_identity.
Qed.

(** ** Listings are exact *)

(** Every name of the directory is among its children: true of every directory that is still
    attached to the tree. *)
Definition complete (d : Z) (g : Inner) : Prop :=
  forall nm i, by_parent_name g !! (d, nm) = Some i -> exists kids, children g !! d = Some kids /\ i ∈ kids.

Definition has_name (d : Z) (nm : string) (g : Inner) : Prop := is_Some (by_parent_name g !! (d, nm)).

Definition n_kids (d : Z) (g : Inner) : Z := len (default [] (children g !! d)).

(** [g'] is [g] with the name [nm] in [d], and at most one child more. *)
Definition named (d : Z) (nm : string) (g g' : Inner) : Prop :=
  (forall x, has_name d x g' <-> x = nm \/ has_name d x g) /\ (complete d g -> complete d g') /\
  n_kids d g' <= n_kids d g + 1.

Lemma named_kept d nm g : has_name d nm g -> named d nm g g.
Proof. intros H. split_and!; [|done|lia]. intros x. split; [auto|]. by intros [->|?]. Qed.

Lemma named_added d n own g : parent n = d -> ino n <> d -> named d (name n) g (add_node n own g).
Proof.
  intros <- Hne.
  assert (Hkids : children (add_node n own g) !! parent n = Some (default [] (children g !! parent n) ++ [ino n])).
  { simpl. destruct own; rewrite ?(lookup_insert_ne _ _ _ _ Hne); by rewrite lookup_insert_eq. }
  split_and!.
  - intros x. unfold has_name. simpl. destruct (decide (x = name n)) as [->|Hx].
    + rewrite lookup_insert_eq. naive_solver.
    + rewrite lookup_insert_ne by congruence. naive_solver.
  - intros Hc nm i. rewrite Hkids. intros Hi. eexists. split; [done|]. simpl in Hi.
    apply lookup_insert_Some in Hi as [[_ <-]|[_ Hi]]; apply elem_of_app; [by right; left|left].
    destruct (Hc _ _ Hi) as (kids & -> & Hin). done.
  - unfold n_kids. rewrite Hkids. simpl. rewrite len_app, len_cons, len_nil. lia.
Qed.

Section exact.
Context (mount : Conf.MountConfig) (d : Z) (strip : string).

Lemma upsert_dir_named nm full g :
  wf g -> is_Some (by_ino g !! d) -> named d nm g (upsert_dir mount d nm full g).
Proof using Type.
  intros Hwf [dn Hd]. unfold upsert_dir. destruct (by_parent_name g !! (d, nm)) eqn:E.
  - apply named_kept. unfold has_name. by rewrite E.
  - apply (named_added d (mkNode _ _ _ _ _)); [done|]. simpl. destruct (wf_ino _ Hwf _ _ Hd) as (_ & ? & _). lia.
Qed.

Lemma upsert_file_named nm full size etag mtime g :
  wf g -> is_Some (by_ino g !! d) -> named d nm g (upsert_file mount d nm full size etag mtime g).
Proof using Type.
  intros Hwf [dn Hd]. unfold upsert_file. destruct (by_parent_name g !! (d, nm)) eqn:E.
  - apply (named_kept d nm g). unfold has_name. by rewrite E.
  - apply (named_added d (mkNode _ _ _ _ _)); [done|]. simpl. destruct (wf_ino _ Hwf _ _ Hd) as (_ & ? & _). lia.
Qed.

(** The names a listing contributes. *)
Definition dir_names (ps : list string) : list string :=
  filter (fun r => is_empty r = false) ((fun p => trim_end_matches slash (relative strip p)) <$> ps).

Definition file_names (bs : list ListedBlob) : list string :=
  filter (fun r => is_empty r || contains_char slash r = false)
    ((fun b => relative strip (lb_name b)) <$> bs).

(** [g'] is [g] with the names [l] in [d]. *)
Definition grown (l : list string) (seen : gset string) (g : Inner) (p : Inner * gset string) : Prop :=
  p.2 = list_to_set l ∪ seen /\ (forall x, has_name d x p.1 <-> x ∈ l \/ has_name d x g) /\
  (complete d g -> complete d p.1) /\ n_kids d p.1 <= n_kids d g + len l.

Lemma grown_step nm l seen g g' p :
  named d nm g g' -> grown l ({[nm]} ∪ seen) g' p -> grown (nm :: l) seen g p.
Proof using Type.
  intros (H1 & H2 & H3) (H4 & H5 & H6 & H7). unfold grown. rewrite len_cons. split_and!; [| |auto|lia].
  - rewrite H4. simpl. set_solver.
  - intros x. rewrite H5, H1, elem_of_cons. tauto.
Qed.

Lemma not_over_cap rel g : n_kids d g < MAX_CHILDREN_PER_DIR -> over_cap d rel g = false.
Proof using Type.
  intros H. unfold over_cap. unfold n_kids in H. by rewrite (proj2 (Z.leb_gt _ _)) by lia.
Qed.

Lemma list_dirs_grown ps g seen :
  wf g -> is_Some (by_ino g !! d) -> next_ino g + len ps <= u64_max ->
  n_kids d g + len ps <= MAX_CHILDREN_PER_DIR ->
  grown (dir_names ps) seen g (list_dirs mount d strip ps g seen).
Proof using Type.
  revert g seen. induction ps as [|p ps IH]; intros g seen Hwf Hd Hmax Hcap; cbn [list_dirs].
  - split_and!; [simpl; set_solver|simpl; set_solver|done|].
    cbn [fst]. match goal with |- _ <= _ + len ?l => pose proof (len_nonneg l) end. lia.
  - rewrite len_cons in *. pose proof (len_nonneg ps). rewrite not_over_cap by lia.
    unfold dir_names. rewrite fmap_cons, filter_cons. set (rel := trim_end_matches slash (relative strip p)).
    destruct (is_empty rel) eqn:Ee; cbn [orb].
    + rewrite decide_False by done. apply IH; [done|done|lia|lia].
    + rewrite decide_True by done. pose proof (upsert_dir_named rel p g Hwf Hd) as Hn.
      eapply grown_step; [exact Hn|]. destruct Hn as (_ & _ & Hk).
      destruct (upsert_dir_good mount d rel p g Hwf Hd ltac:(lia)) as (? & Hst & ?).
      apply IH; [done|by eapply stable_parent|lia|lia].
Qed.

Lemma list_files_grown now bs g seen :
  wf g -> is_Some (by_ino g !! d) -> next_ino g + len bs <= u64_max ->
  n_kids d g + len bs <= MAX_CHILDREN_PER_DIR ->
  grown (file_names bs) seen g (list_files mount now d strip bs g seen).
Proof using Type.
  revert g seen. induction bs as [|b bs IH]; intros g seen Hwf Hd Hmax Hcap; cbn [list_files].
  - split_and!; [simpl; set_solver|simpl; set_solver|done|].
    cbn [fst]. match goal with |- _ <= _ + len ?l => pose proof (len_nonneg l) end. lia.
  - rewrite len_cons in *. pose proof (len_nonneg bs). rewrite not_over_cap by lia. rewrite orb_false_r.
    unfold file_names. rewrite fmap_cons, filter_cons. set (rel := relative strip (lb_name b)).
    destruct (is_empty rel || contains_char slash rel) eqn:Ee.
    + rewrite decide_False by congruence. apply IH; [done|done|lia|lia].
    + rewrite decide_True by done.
      pose proof (upsert_file_named rel (lb_name b) (lb_content_length b) (lb_etag b) now g Hwf Hd) as Hn.
      eapply grown_step; [exact Hn|]. destruct Hn as (_ & _ & Hk).
      destruct (upsert_file_good mount d rel (lb_name b) (lb_content_length b) (lb_etag b) now g Hwf Hd
        ltac:(lia)) as (? & Hst & ?).
      apply IH; [done|by eapply stable_parent|lia|lia].
Qed.
End exact.

(** What a run of removals leaves. *)
Lemma remove_children_spec d l g :
  let g' := foldl (remove_child d) g l in
  by_ino g' = by_ino g /\
  (forall nm, by_parent_name g' !! (d, nm)
     = if decide (nm ∈ l.*1) then None else by_parent_name g !! (d, nm)) /\
  (d ∉ l.*2 -> children g' !! d = filter (fun k => k ∉ l.*2) <$> children g !! d).
Proof.
  revert g. induction l as [|x l IH]; intros g; simpl.
  - split_and!; [done|done|]. intros _. destruct (children g !! d) as [kids|]; [|done]. simpl. f_equal.
    symmetry. apply filter_id, Forall_forall. intros k _ Hk. by apply not_elem_of_nil in Hk.
  - destruct (IH (remove_child d g x)) as (H1 & H2 & H3). split_and!; [done| |].
    + intros nm. rewrite H2. simpl. rewrite lookup_delete.
      repeat case_decide; simplify_eq; try done; set_solver.
    + rewrite not_elem_of_cons. intros [Hx Hl]. rewrite (H3 Hl). simpl. rewrite lookup_delete_ne by done.
      rewrite lookup_alter_eq. destruct (children g !! d) as [kids|]; [|done]. simpl. f_equal.
      rewrite list_filter_filter. apply list_filter_iff. intros k. rewrite not_elem_of_cons. tauto.
Qed.

Lemma delta_delete_spec d seen g :
  wf g -> complete d g ->
  (forall nm, has_name d nm (delta_delete d seen g) <-> has_name d nm g /\ nm ∈ seen) /\
  complete d (delta_delete d seen g) /\ by_ino (delta_delete d seen g) = by_ino g.
Proof.
  intros Hwf Hc. unfold delta_delete. set (l := to_remove d seen g).
  destruct (remove_children_spec d l g) as (H1 & H2 & H3).
  assert (Hd : d ∉ l.*2).
  { intros (x & -> & Hx)%list_elem_of_fmap. apply to_remove_elem in Hx as (kids & n & Hk & Hin & _); [|done].
    destruct (wf_kids _ Hwf _ _ Hk) as (_ & _ & Hkids). destruct (Hkids _ Hin) as (n' & Hn' & Hp & Hb).
    destruct (wf_ino _ Hwf _ _ Hn') as (_ & _ & Hlt). destruct (wf_name _ Hwf _ _ _ Hb) as [Hr _].
    destruct (Hlt Hr) as [? _]. lia. }
  specialize (H3 Hd). set (g' := foldl (remove_child d) g l) in *.
  assert (Hgone : forall nm, has_name d nm g -> nm ∈ l.*1 <-> nm ∉ seen).
  { intros nm [i Hi]. split.
    - intros (x & -> & Hx)%list_elem_of_fmap. apply to_remove_elem in Hx as (_ & n & _ & _ & _ & -> & ?); done.
    - intros Hns. destruct (Hc _ _ Hi) as (kids & Hk & Hin).
      destruct (wf_name _ Hwf _ _ _ Hi) as (_ & n & Hn & _ & Hnm). apply list_elem_of_fmap. exists (nm, i).
      split; [done|]. apply to_remove_elem; [done|]. exists kids, n. simpl. by rewrite Hnm. }
  split_and!; [|intros nm i|done].
  - intros nm. unfold has_name at 1. rewrite H2. case_decide as Hn.
    + split; [by intros []|]. intros [Hh Hs]. by apply Hgone in Hn.
    + split; [|by intros [? _]]. intros Hh. split; [done|]. destruct (decide (nm ∈ seen)); [done|].
      destruct Hn. by apply Hgone.
  - rewrite H2, H3. case_decide as Hn; [done|]. intros Hi. destruct (Hc _ _ Hi) as (kids & -> & Hin).
    eexists. split; [done|]. apply list_elem_of_filter. split; [|done].
    intros (x & -> & Hx)%list_elem_of_fmap. apply to_remove_elem in Hx as (_ & n & _ & _ & Hbn & Hxn & Hns); [|done].
    destruct (wf_name _ Hwf _ _ _ Hi) as (_ & n' & Hn' & _ & Hnm).
    rewrite Hbn in Hn'. injection Hn' as <-. destruct Hn. apply Hgone; [by eexists|congruence].
Qed.

(** The names [readdir] shows after the two dots. *)
Definition child_names (d : Z) (g : Inner) : list string := drop 2 (dir_entries d g).*2.

Lemma child_names_spec d g :
  wf g -> complete d g ->
  NoDup (child_names d g) /\ forall nm, nm ∈ child_names d g <-> has_name d nm g.
Proof.
  intros Hwf Hc. unfold child_names, dir_entries. cbn [fmap list_fmap]. rewrite skipn_cons, skipn_cons, drop_0.
  set (kids := default [] (children g !! d)).
  assert (Hk : NoDup kids /\ forall k, k ∈ kids -> exists n, by_ino g !! k = Some n /\
    by_parent_name g !! (d, name n) = Some k).
  { subst kids. destruct (children g !! d) as [l|] eqn:El; simpl.
    - destruct (wf_kids _ Hwf _ _ El) as (_ & ? & Hin). split; [done|]. intros k (n & ? & _ & ?)%Hin. eauto.
    - split; [constructor|]. intros k Hk. by apply not_elem_of_nil in Hk. }
  destruct Hk as [Hnd Hk].
  assert (Hin : forall l, (forall k, k ∈ l -> k ∈ kids) -> forall nm,
    nm ∈ (omap (fun k => n ← by_ino g !! k; Some (k, file_type n, name n)) l).*2 <->
    exists k n, k ∈ l /\ by_ino g !! k = Some n /\ name n = nm).
  { intros l Hl nm. rewrite list_elem_of_fmap. split.
    - intros (e & -> & (k & Hkl & He)%list_elem_of_omap). destruct (Hk k (Hl _ Hkl)) as (n & Hn & _).
      rewrite Hn in He. simplify_eq/=. eauto.
    - intros (k & n & Hkl & Hn & <-). exists (k, file_type n, name n). split; [done|].
      apply list_elem_of_omap. exists k. by rewrite Hn. }
  split.
  - clearbody kids. induction Hnd as [|k l Hnk Hnd IH]; [constructor|]. simpl.
    destruct (Hk k) as (n & Hn & Hb); [left|]. rewrite Hn. simpl. constructor.
    + rewrite Hin by (intros; by right). intros (k' & n' & Hk' & Hn' & Hnm).
      destruct (Hk k') as (n2 & Hn2 & Hb2); [by right|]. rewrite Hn' in Hn2. injection Hn2 as <-.
      rewrite Hnm, Hb in Hb2. by simplify_eq.
    + apply IH; [intros; apply Hk; by right|intros; apply Hin; intros; right; auto].
  - intros nm. rewrite Hin by done. split.
    + intros (k & n & Hkk & Hn & <-). destruct (Hk k Hkk) as (n' & Hn' & Hb). rewrite Hn in Hn'.
      injection Hn' as <-. by eexists.
    + intros [i Hi]. destruct (Hc _ _ Hi) as (l & Hl & Hil). destruct (wf_name _ Hwf _ _ _ Hi) as (_ & n & Hn & _ & Hnm).
      exists i, n. split_and!; [|done|done]. subst kids. by rewrite Hl.
Qed.

Lemma apply_listing_names mount now d strip bs ps g :
  wf g -> is_Some (by_ino g !! d) -> complete d g ->
  next_ino g + (len ps + len bs) <= u64_max -> n_kids d g + (len ps + len bs) <= MAX_CHILDREN_PER_DIR ->
  let g' := apply_listing mount now d strip bs ps g in
  complete d g' /\
  forall nm, has_name d nm g' <-> nm ∈ dir_names strip ps \/ nm ∈ file_names strip bs.
Proof.
  intros Hwf Hd Hc Hmax Hcap. pose proof (len_nonneg bs). pose proof (len_nonneg ps). unfold apply_listing.
  pose proof (list_dirs_grown mount d strip ps g ∅ Hwf Hd ltac:(lia) ltac:(lia)) as (Hs1 & Hn1 & Hc1 & Hk1).
  destruct (list_dirs_good mount d strip ps g ∅ Hwf Hd ltac:(lia)) as (Hwf1 & Hst1 & Hx1).
  destruct (list_dirs mount d strip ps g ∅) as [g1 seen1]. cbn [fst snd] in *.
  assert (Hdn : len (dir_names strip ps) <= len ps).
  { unfold len, dir_names. rewrite <-(length_fmap (fun p => trim_end_matches slash (relative strip p)) ps).
    apply inj_le, length_filter. }
  assert (Hd1 : is_Some (by_ino g1 !! d)) by by eapply stable_parent.
  pose proof (list_files_grown mount d strip now bs g1 seen1 Hwf1 Hd1 ltac:(lia) ltac:(lia)) as (Hs2 & Hn2 & Hc2 & Hk2).
  destruct (list_files_good mount now d strip bs g1 seen1 Hwf1 Hd1 ltac:(lia)) as (Hwf2 & Hst2 & _).
  destruct (list_files mount now d strip bs g1 seen1) as [g2 seen2]. cbn [fst snd] in *.
  destruct (delta_delete_spec d seen2 g2 Hwf2 (Hc2 (Hc1 Hc))) as (Hn3 & Hc3 & _).
  split; [exact Hc3|]. intros nm. change (has_name d nm (delta_delete d seen2 g2) <->
    nm ∈ dir_names strip ps \/ nm ∈ file_names strip bs). rewrite Hn3, Hn2, Hn1, Hs2, Hs1.
  rewrite !elem_of_union, !elem_of_list_to_set, elem_of_empty. tauto.
Qed.

(** ** Runs of the table

    The writing sections of the operations, in any order; a listing cannot exhaust 64 bits of inode
    numbers. *)
Inductive step (m : Conf.MountConfig) (g : Inner) : Inner -> Prop :=
| step_listing now d strip bs ps :
    is_Some (by_ino g !! d) -> next_ino g + (len ps + len bs) <= u64_max ->
    step m g (apply_listing m now d strip bs ps g)
| step_upsert p nm full size etag mtime :
    is_Some (by_ino g !! p) -> next_ino g + 1 <= u64_max ->
    step m g (upsert_file m p nm full size etag mtime g).

Inductive reachable (m : Conf.MountConfig) (g : Inner) : Inner -> Prop :=
| reach_refl : reachable m g g
| reach_step g1 g2 : reachable m g g1 -> step m g1 g2 -> reachable m g g2.

Lemma new_inner_wf : wf new_inner.
Proof.
  split; simpl.
  - intros i n [<- <-]%lookup_singleton_Some. unfold ROOT_INO. split_and!; [done|lia|lia|done].
  - intros p nm i. by rewrite lookup_empty.
  - intros p kids [<- <-]%lookup_singleton_Some. split_and!; [unfold ROOT_INO; lia|constructor|].
    intros k Hk. by apply not_elem_of_nil in Hk.
  - exists root. by rewrite lookup_singleton_eq.
  - unfold ROOT_INO. lia.
Qed.

Lemma step_good m g g' : step m g g' -> wf g -> wf g' /\ stable g g'.
Proof.
  intros [now d strip bs ps Hd Hmax|p nm full size etag mtime Hp Hmax] Hwf.
  - destruct (apply_listing_good m now d strip bs ps g Hwf Hd Hmax) as (? & ? & _). done.
  - destruct (upsert_file_good m p nm full size etag mtime g Hwf Hp Hmax) as (? & ? & _). done.
Qed.

Lemma reachable_good m g g' : reachable m g g' -> wf g -> wf g' /\ stable g g'.
Proof.
  intros Hr Hwf. induction Hr as [|g1 g2 _ [IH1 IH2] Hst]; [by split; [|apply stable_refl]|].
  destruct (step_good _ _ _ Hst IH1). split; [done|by eapply stable_trans].
Qed.

(** The operations only take such steps. *)
Lemma ensure_reachable {L : Lru.LruCache} S now d (s : BlobFs) :
  (forall a c p r bs ps, list_blobs S a c p r = Ok (bs, ps) ->
     next_ino (inner s) + (len ps + len bs) <= u64_max) ->
  let s' := (ensure_dir_listed S now d s).1 in
  mount s' = mount s /\ reachable (mount s) (inner s) (inner s').
Proof.
  intros Hroom. unfold ensure_dir_listed. destruct (by_ino (inner s) !! d) as [n|] eqn:En; [|by split; [|constructor]].
  destruct (need_load now d n s) as [[]|e]; [|by split; [|constructor]..].
  destruct (list_blobs S _ _ _ _) as [[bs ps]|e] eqn:El; [|by split; [|constructor]].
  split; [done|]. simpl. eapply reach_step; [apply reach_refl|]. apply step_listing; [by eexists|by eapply Hroom].
Qed.

(** ** Theorems *)

(** C34.  The inode table stays a tree and inode numbers keep their meaning: after any sequence of
    listings and lookups, in any interleaving, every inode is filed under its own number and below
    its parent's, every name leads to a node of that parent and name, the children of a directory
    are distinct and each is found under its name; and a number once handed out denotes the same
    parent, name, path and kind for ever, whatever is listed or deleted later. *)
Theorem fuse_table_invariant m g g' :
  reachable m new_inner g -> reachable m g g' -> wf g' /\ stable g g'.
Proof.
  intros H1 H2. destruct (reachable_good _ _ _ H1 new_inner_wf) as [Hwf _].
  by apply (reachable_good m).
Qed.

(** A directory shows exactly what the origin lists: after a listing of a directory that is
    attached to the tree, below the cap on children, [readdir] shows - each once - the listed
    sub-directories and the listed blobs directly in it, and nothing that has disappeared. *)
Lemma listing_exact m g now d strip bs ps :
  reachable m new_inner g -> is_Some (by_ino g !! d) -> complete d g ->
  next_ino g + (len ps + len bs) <= u64_max -> n_kids d g + (len ps + len bs) <= MAX_CHILDREN_PER_DIR ->
  let g' := apply_listing m now d strip bs ps g in
  NoDup (child_names d g') /\ complete d g' /\
  forall nm, nm ∈ child_names d g' <-> nm ∈ dir_names strip ps \/ nm ∈ file_names strip bs.
Proof.
  intros Hr Hd Hc Hmax Hcap g'. destruct (reachable_good _ _ _ Hr new_inner_wf) as [Hwf _].
  destruct (apply_listing_good m now d strip bs ps g Hwf Hd Hmax) as (Hwf' & _).
  destruct (apply_listing_names m now d strip bs ps g Hwf Hd Hc Hmax Hcap) as [Hc' Hn].
  destruct (child_names_spec d g' Hwf' Hc') as [Hnd Hin]. split_and!; [done|done|].
  intros nm. by rewrite Hin.
Qed.

(** A mount prefix without a leading slash: FUSE and the fetcher agree on names. *)
Lemma real_path_mount_prefix m p :
  trim_start_matches slash (Conf.prefix m) = Conf.prefix m -> Fetch.real_path m p = mount_prefix m +:+ p.
Proof.
  intros Hp. unfold Fetch.real_path, mount_prefix, trim_matches. rewrite Hp.
  destruct (Conf.prefix m) as [|a s]; [done|]. cbn [is_empty].
  generalize (trim_end_matches slash (String a s)). intros x.
  induction x as [|c x IH]; [done|].
  change (String c (x +:+ "/" +:+ p) = String c ((x +:+ "/") +:+ p)). by rewrite IH.
Qed.

(** With one, they do not. *)
Example leading_slash_prefix :
  let m := Conf.mkMountConfig "m" "/mnt/m" "acct" "cont" "/data" None in
  mount_prefix m +:+ "f" = "data/f" /\ Fetch.real_path m "f" = "/data/f".
Proof. split; reflexivity. Qed.

(** Pages of [readdir] resumed at the last cookie give every entry once. *)
Lemma readdir_resumes (e : list (Z * FileType * string)) off room :
  0 <= off <= len e -> len e <= u64_max ->
  let page := add_entries off room e in
  page ++ add_entries (off + len page) (length e) e = add_entries off (length e) e.
Proof.
  intros Hoff Hmax. unfold add_entries. rewrite (wrap64_small off) by lia.
  set (all := imap _ e). assert (Hall : length all = length e) by apply length_imap.
  set (page := take room _).
  assert (Hpl : len page <= len e - off).
  { unfold page, len. rewrite length_take, length_drop, Hall. unfold len in Hoff. lia. }
  pose proof (len_nonneg page). rewrite wrap64_small by lia.
  rewrite !(take_ge (drop _ _)) by (rewrite length_drop; lia).
  replace (Z.to_nat (off + len page)) with (Z.to_nat off + length page)%nat by (unfold len; lia).
  rewrite <-drop_drop. rewrite <-(take_drop (length page) (drop (Z.to_nat off) all)) at 2. f_equal.
  unfold page. rewrite length_take. symmetry. destruct (decide (room <= length (drop (Z.to_nat off) all))%nat).
  - by rewrite Nat.min_l.
  - rewrite Nat.min_r by lia. rewrite !take_ge by lia. done.
Qed.

(** C1.  Reading through the mount is right, end to end, under these conditions: the prefix of the
    mount has no leading slash (with one, listings and reads name different blobs), the name of the
    mount resolves to this mount, the size recorded in the inode is the current size of the blob, and
    the origin is honest.  Then a read of any range answers with exactly these bytes of the blob,
    clipped to the end of the file, leaves the inode table alone and the node coherent; and it does
    answer, not EIO, when the chunks are readable and no more than [MAX_READ_BYTES] are asked for. *)
Theorem fuse_read_correct {L : Lru.LruCache} sha256 origin M E cs (s : BlobFs) i n etag mtime off size :
  let m := mount s in
  let file := origin (Conf.account m) (Conf.container m) (mount_prefix m +:+ full_path n) in
  by_ino (inner s) !! i = Some n -> kind n = File (len file) etag mtime ->
  trim_start_matches slash (Conf.prefix m) = Conf.prefix m ->
  M !! Conf.name m = Some m -> x00 ∉ str_bytes (Conf.name m) -> len file <= u64_max ->
  Fetch.coherent sha256 origin M (fetcher s) -> Fetch.chunk_size (Fetch.cfg (fetcher s)) = cs -> 0 < cs ->
  Fetch.honest origin M cs E -> 0 <= off < 2 ^ 63 -> 0 <= size <= u32_max ->
  let '(s', r) := read sha256 E i off size s in
  inner s' = inner s /\ Fetch.coherent sha256 origin M (fetcher s') /\
  (forall d, r = Ok d -> d = slice file off (Z.min (off + size) (len file))) /\
  (Fetch.readable origin M E cs m (full_path n) (fetcher s) -> size <= Fetch.MAX_READ_BYTES ->
     r = Ok (slice file off (Z.min (off + size) (len file)))).
Proof.
  intros m file Hi Hk Hpre HM Hname Hlen Hc Hcs Hpos Hho Hoff Hsize.
  unfold read. rewrite Hi, Hk. fold m.
  assert (Hfile : Fetch.content origin M (Conf.name m) (full_path n) = file).
  { unfold Fetch.content. rewrite HM. by rewrite real_path_mount_prefix. }
  rewrite wrap64_small by (unfold u64_max, u64_mod; lia).
  destruct (Z.leb_spec (len file) off) as [Hge|Hlt].
  { assert (Hnil : [] = slice file off (Z.min (off + size) (len file))).
    { unfold slice. by replace (Z.to_nat (Z.min (off + size) (len file) - off)) with 0%nat by lia. }
    rewrite <-Hnil. split_and!; [done|done|by intros d [= <-]|done]. }
  pose proof (Fetch.fetch_range_leaves sha256 origin M E cs Hho Hpos m (full_path n) HM Hname) as Hl.
  rewrite Hfile in Hl. specialize (Hl Hlen off (Z.min size (len file - off)) (fetcher s) Hc Hcs ltac:(lia) ltac:(lia)).
  replace (Z.min (off + Z.min size (len file - off)) (len file)) with (Z.min (off + size) (len file)) in Hl by lia.
  destruct (Fetch.fetch_range sha256 E m (full_path n) off (Z.min size (len file - off)) (len file) (fetcher s))
    as [[f r] pf]. destruct Hl as (Hfc & _ & _ & HQ & Hok). cbn [fst snd] in Hfc, HQ, Hok.
  destruct r as [b|e]; cbn [inner fetcher].
  - split_and!; [done|by apply (Fetch.same_data_coherent _ _ _ f)|by intros d [= <-]; apply HQ|].
    intros _ _. by rewrite (HQ b eq_refl).
  - split_and!; [done|done|done|]. intros Hr Hmax. destruct (Hok Hr) as [d Hd]; [lia|done].
Qed.

(** ** Witnesses *)

(** A listing of the root: one directory, two files, then one of them gone. *)
Definition demo_blobs : list ListedBlob := [mkListedBlob "f" 10 None; mkListedBlob "g" 3 None].
Definition demo_table : Inner := apply_listing Fetch.demo_mount 100 ROOT_INO "" demo_blobs ["sub/"] new_inner.

Lemma demo_table_reachable : reachable Fetch.demo_mount new_inner demo_table.
Proof.
  eapply reach_step; [apply reach_refl|]. apply step_listing; [by eexists|vm_compute; discriminate].
Qed.

Lemma fuse_table_invariant_witness :
  by_ino demo_table !! 3 = Some (mkNode 3 1 "f" "f" (File 10 None 100)) /\
  stable demo_table (apply_listing Fetch.demo_mount 200 ROOT_INO "" [mkListedBlob "g" 4 None] [] demo_table).
Proof.
  split; [vm_compute; reflexivity|].
  apply (fuse_table_invariant Fetch.demo_mount demo_table); [exact demo_table_reachable|].
  eapply reach_step; [apply reach_refl|].
  apply step_listing; [by eexists; vm_compute; reflexivity|vm_compute; discriminate].
Defined.

Definition demo_fs : @BlobFs Lru.list_lru :=
  set_inner demo_table (new Fetch.demo_mount Fetch.demo_fetcher).

Lemma fuse_read_correct_witness :
  (read (fun l => l) Fetch.demo_env 3 6 100 demo_fs).2 = Ok (str_bytes "6789").
Proof.
  pose proof (fuse_read_correct (L := Lru.list_lru) (fun l => l) Fetch.demo_origin Fetch.demo_mounts
    Fetch.demo_env 4 demo_fs 3 (mkNode 3 1 "f" "f" (File 10 None 100)) None 100 6 100) as H.
  assert (Hn : x00 ∉ str_bytes (Conf.name Fetch.demo_mount))
    by (apply (bool_decide_unpack _); vm_compute; exact I).
  specialize (H ltac:(vm_compute; reflexivity) ltac:(vm_compute; reflexivity) ltac:(vm_compute; reflexivity)
    ltac:(vm_compute; reflexivity) Hn ltac:(vm_compute; discriminate) Fetch.demo_coherent
    ltac:(reflexivity) ltac:(lia) Fetch.demo_honest ltac:(lia) ltac:(vm_compute; split; discriminate)).
  revert H. generalize (read (L := Lru.list_lru) (fun l => l) Fetch.demo_env 3 6 100 demo_fs).
  intros [s' r] (_ & _ & _ & H). cbn [snd].
  rewrite H; [vm_compute; reflexivity|exact Fetch.demo_readable|vm_compute; discriminate].
Defined.
End Fs.
