(* ===== verification/Daemon.v ===== *)
(** * Starting the daemon (src/src/main.rs, [main]; src/src/nic.rs)

    [Nic] lists the local addresses, [Daemon] builds a node from its configuration in the order of
    [main]: each step may end the process with an error.  What the machine answers - files, sockets,
    the RDMA runtime, the FUSE mounts - is the record [Machine]; the components are the models of
    the other files, so the theorem says that a validated configuration starts a node on which their
    theorems apply. *)

From S2P Require Import Prelude ChunkKeys DiskCache Cluster PeerIndex Config HttpApi Auth Azure PeerLru.
From S2P Require Import Transport UcxRuntime UcxRequest UcxLoop Fetcher BlobPool Mesh FuseFs.

(** ** Network interfaces *)
Module Nic.

(** [std::net::IpAddr]: four octets, or eight segments. *)
Inductive IpAddr : Type :=
| V4 (a b c d : Z)
| V6 (segments : list Z).

Record Interface := mkInterface {
  name : string;
  is_loopback : bool;
  is_up : bool;
  ips : list IpAddr
}.

Record LocalAddr := mkLocalAddr {
  iface : string;
  ip : IpAddr
}.

Definition is_unspecified (a : IpAddr) : bool :=
  match a with
  | V4 a b c d => forallb (Z.eqb 0) [a; b; c; d]
  | V6 l => forallb (Z.eqb 0) l
  end.

Definition ip_is_loopback (a : IpAddr) : bool :=
  match a with
  | V4 a _ _ _ => a =? 127
  | V6 l => bool_decide (l = [0; 0; 0; 0; 0; 0; 0; 1])
  end.

Definition is_v4 (a : IpAddr) : bool := match a with V4 _ _ _ _ => true | V6 _ => false end.

(** The addresses of one interface that are kept. *)
Definition addresses (filter_loopback : bool) (i : Interface) : list LocalAddr :=
  mkLocalAddr (name i) <$>
    filter (fun a => is_unspecified a = false /\ filter_loopback && ip_is_loopback a = false) (ips i).

Fixpoint enumerate (filter_loopback : bool) (l : list Interface) : list LocalAddr :=
  match l with
  | [] => []
  | i :: l =>
      if filter_loopback && is_loopback i then enumerate filter_loopback l
      else if negb (is_up i) then enumerate filter_loopback l
      else addresses filter_loopback i ++ enumerate filter_loopback l
  end.

Definition is_likely_infiniband (n : string) : bool :=
  starts_with "ib" n || starts_with "ibp" n || starts_with "ibs" n.

(** An address of an interface that is up, and not one of this machine alone. *)
Lemma enumerate_spec l a :
  a ∈ enumerate true l <->
  exists i, i ∈ l /\ is_up i = true /\ is_loopback i = false /\ iface a = name i /\
    ip a ∈ ips i /\ is_unspecified (ip a) = false /\ ip_is_loopback (ip a) = false.
Proof.
  assert (Ha : forall i, a ∈ addresses true i <->
    iface a = name i /\ ip a ∈ ips i /\ is_unspecified (ip a) = false /\ ip_is_loopback (ip a) = false).
  { intros i. unfold addresses. rewrite list_elem_of_fmap. setoid_rewrite list_elem_of_filter.
    destruct a as [n x]. simpl. naive_solver. }
  induction l as [|i l IH]; simpl.
  - split; [by intros ?%not_elem_of_nil|]. by intros (i & ?%not_elem_of_nil & _).
  - setoid_rewrite elem_of_cons. destruct (is_loopback i) eqn:El; simpl.
    { rewrite IH. split; [naive_solver|]. intros (j & [->|?] & ?); [naive_solver congruence|eauto]. }
    destruct (is_up i) eqn:Eu; simpl.
    + rewrite elem_of_app, Ha, IH. naive_solver.
    + rewrite IH. split; [naive_solver|]. intros (j & [->|?] & ?); [naive_solver congruence|eauto].
Qed.
End Nic.

(** ** The daemon *)
Module Daemon.
Import Cluster.
Abbreviation Bytes := (list byte).

(** [rsplit_once]: at the last [c]. *)
Fixpoint rsplit_once (c : ascii) (s : string) : option (string * string) :=
  match s with
  | EmptyString => None
  | String x t =>
      match rsplit_once c t with
      | Some (a, b) => Some (String x a, b)
      | None => if Ascii.eqb x c then Some (EmptyString, t) else None
      end
  end.

Definition v4_display (a : Nic.IpAddr) : string :=
  match a with
  | Nic.V4 a b c d => show a +:+ "." +:+ show b +:+ "." +:+ show c +:+ "." +:+ show d
  | Nic.V6 _ => ""
  end.

(** The address a listener bound to [bind] is reached at. *)
Definition advertised (ifs : list Nic.Interface) (bind : string) : string :=
  match rsplit_once ":" bind with
  | Some (host, port) =>
      if String.eqb host "0.0.0.0" || Conf.str_empty host then
        match filter (fun a => Nic.is_v4 (Nic.ip a) = true) (Nic.enumerate true ifs) with
        | a :: _ => "http://" +:+ v4_display (Nic.ip a) +:+ ":" +:+ port
        | [] => "http://127.0.0.1:" +:+ port
        end
      else "http://" +:+ bind
  | None => "http://" +:+ bind
  end.

(** [file] is the contents of /etc/hostname. *)
Definition hostname (file : option string) : option string :=
  match file with
  | Some s => if Conf.str_empty (trim s) then None else Some (trim s)
  | None => None
  end.

Definition node_id (cfg : Conf.Config) (file : option string) (pid : Z) : string :=
  match Conf.node_id cfg with
  | Some i => i
  | None => default ("node-" +:+ show pid) (hostname file)
  end.

(** [collect] into a map: the last of two mounts with one name. *)
Definition mount_map (l : list Conf.MountConfig) : gmap string Conf.MountConfig :=
  foldl (fun m x => <[Conf.name x := x]> m) ∅ l.

(** The hook that passes a peer's gossiped worker address to the RDMA client. *)
Definition rdma_peer_hook (decode : string -> result string Bytes) (update : string -> Bytes -> res unit)
    (n : NodeInfo) : option (res unit) :=
  match ucx_worker_addr_b64 n with
  | None => None
  | Some enc => match decode enc with Ok b => Some (update (id n) b) | Err _ => None end
  end.

(** How [main] can end before the node runs. *)
Inductive StartError : Type :=
| LoadConfig (e : BcError)
| Runtime (e : string)
| OpenCache (e : BcError)
| BuildPool (e : Pool.PoolError)
| NoUcx
| UnknownKind (k : string)
| StartRdma (e : BcError)
| ParseAddress (what : string)
| CreateMountpoint (path e : string)
| MissingClient (name : string)
| Mount (name path e : string).

Record Machine := mkMachine {
  read_config : result string string;
  parse_config : string -> res Conf.Config;
  debug_str : string -> string;
  build_runtime : result string unit;
  mkdir_ok : bool;
  readdir_ok : bool;
  stat_ok : string -> bool;
  cache_dir : gmap string Cache.Dirent;
  pool_host : Pool.Host;
  ambient : Auth.Ambient;
  hostname_file : option string;
  pid : Z;
  interfaces : list Nic.Interface;
  now : Z;
  socket_addr : string -> bool;
  ucx : bool;
  ffi : Boot.Ffi;
  status_string : Request.ucs_status -> option string;
  status_debug : Request.ucs_status -> string;
  worker_address : Bytes;
  b64_encode : Bytes -> string;
  cluster_stats : ClusterStats;
  create_dir_all : string -> result string unit;
  spawn_mount : Conf.MountConfig -> result string unit
}.

Section daemon.
Context {L : Lru.LruCache} (sha256 : Bytes -> Bytes).

(** The RDMA runtime: its receive slab and the encoded worker address. *)
Record Rdma := mkRdma {
  slab : Slab.RecvSlab;
  worker_addr_b64 : string
}.

Record Node := mkNode {
  config : Conf.Config;
  me : NodeInfo;
  membership : Membership;
  rdma : option Rdma;
  fetcher : Fetch.Fetcher;
  service : option Transport.PeerService;
  pool : Pool.BlobFetcherPool;
  sessions : list (@Fs.BlobFs L)
}.

(** [RdmaPeerService::start] as [main] calls it: slots for a chunk and its header. *)
Definition start_rdma (K : Machine) (cfg : Conf.Config) (me : string) : res Rdma :=
  match Boot.start (status_string K) (status_debug K) (ffi K) (Conf.chunk_concurrency (Conf.transport cfg))
          (8 + Conf.chunk_size (Conf.cache cfg)) me (worker_address K) with
  | (_, Ok blob, Some (sl, _)) => Ok (mkRdma sl (b64_encode K blob))
  | (_, Ok _, None) => Err (Peer "ucx runtime startup channel closed")
  | (_, Err e, _) => Err e
  end.

(** The transport of [kind]: [None] for TCP. *)
Definition start_transport (K : Machine) (cfg : Conf.Config) (me : string) : result StartError (option Rdma) :=
  let t := Conf.transport cfg in
  if String.eqb (Conf.kind t) "tcp" then Ok None
  else if String.eqb (Conf.kind t) "rdma" then
    if ucx K then
      if socket_addr K (Conf.bind t) then let? r := map_err StartRdma (start_rdma K cfg me) in Ok (Some r)
      else Err (ParseAddress "transport.bind")
    else Err NoUcx
  else Err (UnknownKind (Conf.kind t)).

Definition make_me (K : Machine) (cfg : Conf.Config) (nid : string) (r : option Rdma) : NodeInfo :=
  mkNodeInfo nid
    (match Conf.advertise (Conf.transport cfg) with
     | a :: _ => a
     | [] => advertised (interfaces K) (Conf.bind (Conf.transport cfg))
     end)
    (match Conf.cluster_advertise (Conf.cluster cfg) with
     | Some a => a
     | None => advertised (interfaces K) (Conf.cluster_bind (Conf.cluster cfg))
     end)
    (Transport.hex32 (Conf.cluster_hash sha256 cfg))
    (worker_addr_b64 <$> r) (now K) Alive 1 0.

Definition make_fetcher (cfg : Conf.Config) (c : Cache.DiskCache) (m : Membership) (nid : string) : Fetch.Fetcher :=
  let t := Conf.transport cfg in
  Fetch.new c m (Index.new nid (Conf.bloom_bits t)) (Conf.chunk_size (Conf.cache cfg))
    (Conf.block_size (Conf.azure cfg)) (Conf.chunk_concurrency t) (Conf.prefetch_depth t)
    (Conf.prefetch_threshold t) (Conf.prefetch_concurrency t) (Conf.prefetch_origin_only t)
    (Conf.cache_on_peer_fetch (Conf.cache cfg)) (Conf.peer_lru_bytes (Conf.cache cfg))
    (Conf.peer_max_candidates t) (Conf.peer_max_yes_attempts t) (Conf.peer_max_maybe_attempts t)
    (Conf.stampede_wait_ms t) (mount_map (Conf.mounts cfg)).

(** The listen addresses of the three servers. *)
Definition parse_binds (K : Machine) (cfg : Conf.Config) : result StartError unit :=
  if negb (socket_addr K (Conf.bind (Conf.transport cfg))) then Err (ParseAddress "transport.bind")
  else if negb (socket_addr K (Conf.cluster_bind (Conf.cluster cfg))) then Err (ParseAddress "cluster.bind")
  else if negb (socket_addr K (Conf.stats_bind cfg)) then Err (ParseAddress "stats.bind")
  else Ok tt.

(** The file systems, in the order of the configuration. *)
Fixpoint mount_all (K : Machine) (p : Pool.BlobFetcherPool) (f : Fetch.Fetcher) (ms : list Conf.MountConfig)
    : result StartError (list (@Fs.BlobFs L)) :=
  match ms with
  | [] => Ok []
  | m :: ms =>
      let? _ := map_err (CreateMountpoint (Conf.mountpoint m)) (create_dir_all K (Conf.mountpoint m)) in
      match Pool.blob_for (Conf.name m) p with
      | None => Err (MissingClient (Conf.name m))
      | Some _ =>
          let? _ := map_err (Mount (Conf.name m) (Conf.mountpoint m)) (spawn_mount K m) in
          let? l := mount_all K p f ms in
          Ok (Fs.new m f :: l)
      end
  end.

(** What [main] has put together when the membership table exists. *)
Record Prepared := mkPrepared {
  p_config : Conf.Config;
  p_cache : Cache.DiskCache;
  p_pool : Pool.BlobFetcherPool;
  p_id : string;
  p_rdma : option Rdma;
  p_me : NodeInfo;
  p_membership : Membership
}.

(** The first part of [main]: configuration, cache, blob clients, transport, membership. *)
Definition prepare (K : Machine) (path : string) : result StartError Prepared :=
  let? cfg := map_err LoadConfig (Conf.from_path (debug_str K) path (read_config K) (parse_config K)) in
  let? _ := map_err Runtime (build_runtime K) in
  let? c := map_err OpenCache (Cache.open (mkdir_ok K) (readdir_ok K) (stat_ok K)
                                 (Conf.max_bytes (Conf.cache cfg)) (cache_dir K)) in
  let? p := map_err BuildPool (Pool.new (pool_host K) (Conf.mounts cfg) (Conf.workers (Conf.azure cfg)) (ambient K)).2 in
  let nid := node_id cfg (hostname_file K) (pid K) in
  let? r := start_transport K cfg nid in
  let me := make_me K cfg nid r in
  Ok (mkPrepared cfg c p nid r me (Cluster.new me (cluster_stats K))).

(** The HTTP peer service, with the TCP transport only; [provider] is the closure around
    [serve_peer_chunk]. *)
Definition peer_service (cfg : Conf.Config) (c : Cache.DiskCache) (r : option Rdma) (provider : Transport.Provider)
    : option Transport.PeerService :=
  match r with
  | None => Some (Transport.with_chunk_provider provider (Transport.new c (Conf.cluster_hash sha256 cfg)))
  | Some _ => None
  end.

(** [main] up to the wait for a signal. *)
Definition main (K : Machine) (path : string) (provider : Fetch.Fetcher -> Transport.Provider)
    : result StartError Node :=
  let? b := prepare K path in
  let f := make_fetcher (p_config b) (p_cache b) (p_membership b) (p_id b) in
  let? _ := parse_binds K (p_config b) in
  let svc := peer_service (p_config b) (p_cache b) (p_rdma b) (provider f) in
  let? ss := mount_all K (p_pool b) f (Conf.mounts (p_config b)) in
  Ok (mkNode (p_config b) (p_me b) (p_membership b) (p_rdma b) f svc (p_pool b) ss).

(** ** Lemmas *)
Lemma mount_map_app l x : mount_map (l ++ [x]) = <[Conf.name x := x]> (mount_map l).
Proof. unfold mount_map. by rewrite foldl_app. Qed.

Lemma mount_map_named l : Fetch.mounts_named (mount_map l).
Proof.
  induction l as [|x l IH] using rev_ind; intros n m; [done|]. rewrite mount_map_app, lookup_insert.
  case_decide; [by intros [= <-]|]. apply IH.
Qed.

Lemma mount_map_lookup l m : NoDup (Conf.name <$> l) -> m ∈ l -> mount_map l !! Conf.name m = Some m.
Proof.
  induction l as [|x l IH] using rev_ind; [by intros _ ?%not_elem_of_nil|].
  rewrite fmap_app, NoDup_app, mount_map_app, elem_of_app. intros (Hnd & Hdis & _) [Hm|Hm%list_elem_of_singleton].
  - rewrite lookup_insert_ne; [by apply IH|]. intros Hx. apply (Hdis (Conf.name m)).
    + by apply list_elem_of_fmap_2.
    + rewrite <- Hx. apply list_elem_of_singleton. done.
  - subst. by rewrite lookup_insert_eq.
Qed.

Lemma mount_all_spec K p f ms l :
  mount_all K p f ms = Ok l ->
  l = (fun m => Fs.new m f) <$> ms /\ Forall (fun m => is_Some (Pool.blob_for (Conf.name m) p)) ms.
Proof.
  revert l. induction ms as [|m ms IH]; intros l; simpl; [by intros [= <-]|].
  destruct (create_dir_all K (Conf.mountpoint m)); [|done]. cbn [map_err rbind].
  destruct (Pool.blob_for (Conf.name m) p) as [b|] eqn:Eb; [|done]. destruct (spawn_mount K m); [|done].
  cbn [map_err rbind].
  destruct (mount_all K p f ms) as [l'|]; [|done]. simpl. intros [= <-].
  destruct (IH l' eq_refl) as [-> ?]. split; [done|]. constructor; [by rewrite Eb|done].
Qed.

(** The transport that runs is the configured one, with slots for whole chunks. *)
Definition transport_ready (cfg : Conf.Config) (r : option Rdma) : Prop :=
  match r with
  | None => Conf.kind (Conf.transport cfg) = "tcp"
  | Some r =>
      Conf.kind (Conf.transport cfg) = "rdma" /\
      Slab.n_slots (slab r) = Conf.chunk_concurrency (Conf.transport cfg) /\
      Slab.slot_size (slab r) = 8 + Conf.chunk_size (Conf.cache cfg)
  end.

Lemma start_rdma_slab K cfg me r :
  start_rdma K cfg me = Ok r ->
  Slab.n_slots (slab r) = Conf.chunk_concurrency (Conf.transport cfg) /\
  Slab.slot_size (slab r) = 8 + Conf.chunk_size (Conf.cache cfg).
Proof.
  unfold start_rdma. destruct (Boot.start _ _ _ _ _ _ _) as [[tr [blob|e]] [[sl st]|]] eqn:Es; try done.
  intros [= <-]. apply Boot.start_slab in Es. unfold Slab.new in Es.
  destruct (_ <? _); [done|]. by injection Es as <-.
Qed.

Lemma start_transport_ready K cfg me r : start_transport K cfg me = Ok r -> transport_ready cfg r.
Proof.
  unfold start_transport, transport_ready. destruct (String.eqb_spec (Conf.kind (Conf.transport cfg)) "tcp").
  { by intros [= <-]. }
  destruct (String.eqb_spec (Conf.kind (Conf.transport cfg)) "rdma"); [|done].
  destruct (ucx K); [|done]. destruct (socket_addr _ _); [|done].
  destruct (start_rdma K cfg me) as [x|] eqn:Er; [|done]. intros [= <-]. split; [done|].
  by apply (start_rdma_slab K cfg me).
Qed.

Lemma from_path_valid dbg path rd parse cfg :
  Conf.from_path dbg path rd parse = Ok cfg -> exists s, parse s = Ok cfg /\ Conf.validate dbg cfg = Ok tt.
Proof.
  unfold Conf.from_path. destruct rd as [s|]; [|done]. intros H. exists s.
  destruct (parse s) as [c|]; [|done]. simpl in H.
  destruct (Conf.validate dbg c) as [[]|] eqn:Ev; [|done]. simpl in H. injection H as ->. done.
Qed.

(** What [main] went through when it succeeds. *)
Lemma main_steps K path provider n :
  main K path provider = Ok n ->
  exists s c nid, parse_config K s = Ok (config n) /\
    Conf.validate (debug_str K) (config n) = Ok tt /\
    Cache.open (mkdir_ok K) (readdir_ok K) (stat_ok K) (Conf.max_bytes (Conf.cache (config n))) (cache_dir K) = Ok c /\
    start_transport K (config n) nid = Ok (rdma n) /\
    me n = make_me K (config n) nid (rdma n) /\
    membership n = Cluster.new (me n) (cluster_stats K) /\
    fetcher n = make_fetcher (config n) c (membership n) nid /\
    mount_all K (pool n) (fetcher n) (Conf.mounts (config n)) = Ok (sessions n).
Proof.
  unfold main, prepare. destruct (Conf.from_path _ _ _ _) as [cfg|] eqn:Ec; [|done]. simpl.
  apply from_path_valid in Ec as (s & Hs & Hv).
  destruct (build_runtime K); [|done]. simpl.
  destruct (Cache.open _ _ _ _ _) as [c|] eqn:Eo; [|done]. simpl.
  destruct (Pool.new _ _ _ _).2 as [p|]; [|done]. simpl.
  set (nid := node_id cfg _ _). destruct (start_transport K cfg nid) as [r|] eqn:Et; [|done]. simpl.
  destruct (parse_binds K cfg); [|done]. simpl.
  destruct (mount_all _ _ _ _) as [ss|] eqn:Em; [|done]. simpl. intros [= <-]. simpl.
  exists s, c, nid. by split_and!.
Qed.

(** ** Theorem *)

(** C11.  A node that starts is one the other theorems are about: when [main] reaches its wait for a
    signal, the configuration is usable; the fetcher is coherent for every origin and has the
    configured chunk size; every mount is served, in order, by a file system with an empty, well-formed
    table over that fetcher and has a blob client, and - if the mounts have different names, which
    validation does not ask for - the fetcher knows it under its name; the membership table is
    well-formed with this node alive in it; and the transport is the configured one, whose RDMA receive
    slots, as many as configured (which may be none), hold any reply for up to a chunk. *)
Theorem started_ready K path provider n :
  (forall s c, parse_config K s = Ok c -> 0 <= Conf.chunk_size (Conf.cache c) /\ 0 <= Conf.block_size (Conf.azure c)) ->
  main K path provider = Ok n ->
  let cfg := config n in
  let M := mount_map (Conf.mounts cfg) in
  Conf.usable cfg /\
  Fetch.mounts_named M /\
  (forall origin, Fetch.node_ok sha256 origin M (Conf.chunk_size (Conf.cache cfg)) (fetcher n)) /\
  Fs.mount <$> sessions n = Conf.mounts cfg /\
  Forall (fun s => Fs.wf (Fs.inner s) /\ Fs.fetcher s = fetcher n /\
            is_Some (Pool.blob_for (Conf.name (Fs.mount s)) (pool n)) /\
            (NoDup (Conf.name <$> Conf.mounts cfg) -> M !! Conf.name (Fs.mount s) = Some (Fs.mount s)))
    (sessions n) /\
  wf (membership n) /\ state (me n) = Alive /\
  transport_ready cfg (rdma n).
Proof.
  intros Hu Hn. apply main_steps in Hn as (s & c & nid & Hs & Hv & Ho & Ht & Hme & Hmem & Hf & Hm).
  cbv zeta. destruct (Hu _ _ Hs) as [Hc Hb]. apply mount_all_spec in Hm as [Hss Hb']. split_and!.
  - by eapply Conf.validate_usable.
  - apply mount_map_named.
  - intros origin. rewrite Hf. by eapply Fetch.new_node_ok.
  - rewrite Hss, <- list_fmap_compose. apply list_fmap_id.
  - rewrite Hss, Forall_fmap. apply Forall_forall. intros m Hin. rewrite Forall_forall in Hb'.
    split_and!; [apply Fs.new_inner_wf|done|by apply Hb'|]. intros Hnd. by apply mount_map_lookup.
  - rewrite Hmem. apply membership_new_wf. by rewrite Hme.
  - by rewrite Hme.
  - by eapply start_transport_ready.
Qed.
End daemon.

(** ** A machine with RDMA and one mount *)
#[local] Existing Instance Lru.list_lru.

Definition demo_conf : Conf.Config :=
  Conf.mkConfig None (Conf.mkCacheConfig "/c" 100 4096 true 0) Conf.default_azure
    (Conf.mkClusterConfig "0.0.0.0:7771" [] None)
    (Conf.mkTransportConfig ":7772" [] 2 8 16 3 32 false "rdma" 64 30 5 4 2 2 5000) "0.0.0.0:7773"
    [Conf.mkMountConfig "m" "/mnt" "acct" "cont" "" (Some "sv=1")].

Definition demo_machine : Machine :=
  mkMachine (Ok "") (fun _ => Ok demo_conf) (fun s => s) (Ok tt) true true (fun _ => true) ∅
    (Pool.mkHost (fun _ => Ok tt)
       (fun _ _ => Auth.mkIdentity (fun _ => None) (fun _ => Err "") (Ok tt) (fun _ _ => Err "") (fun _ => Err "")
                     0 (fun _ => Err "") (fun _ => Err "") show)
       (fun _ _ => Ok tt))
    (Auth.mkAmbient None []) (Some ("host-a" +:+ bytes_str [x0a])) 17
    [Nic.mkInterface "lo" true true [Nic.V4 127 0 0 1]; Nic.mkInterface "eth0" false true [Nic.V4 10 0 0 4]]
    100 (fun _ => true) true
    (Boot.demo_ffi Request.UCS_OK)
    (fun _ => None) (fun _ => "") [x01] (fun _ => "AQ==") demo_stats (fun _ => Ok tt) (fun _ => Ok tt).

Definition demo_main : result StartError Node :=
  main (fun l => l) demo_machine "/etc/blobcached.toml" (fun _ _ _ _ => None).

Lemma started_ready_witness :
  exists n, demo_main = Ok n /\
    id (me n) = "host-a" /\ transport_url (me n) = "http://10.0.0.4:7772" /\
    wf (membership n) /\ transport_ready demo_conf (rdma n).
Proof.
  destruct demo_main as [n|e] eqn:En.
  2: { exfalso. assert (Hok : is_ok demo_main = true) by (vm_compute; reflexivity). rewrite En in Hok. discriminate. }
  exists n. split; [reflexivity|].
  assert (Hid : (fun n => id (me n)) <$> ok demo_main = Some "host-a") by (vm_compute; reflexivity).
  assert (Hurl : (fun n => transport_url (me n)) <$> ok demo_main = Some "http://10.0.0.4:7772")
    by (vm_compute; reflexivity).
  assert (Hcfg : config <$> ok demo_main = Some demo_conf) by (vm_compute; reflexivity).
  rewrite En in Hid, Hurl, Hcfg. injection Hid as Hid. injection Hurl as Hurl. injection Hcfg as Hcfg.
  unfold demo_main in En. apply started_ready in En.
  - rewrite Hcfg in En. destruct En as (_ & _ & _ & _ & _ & Hw & _ & Ht). split; [exact Hid|].
    split; [exact Hurl|]. split; [exact Hw|exact Ht].
  - intros s c Hc. injection Hc as <-. vm_compute. split; discriminate.
Defined.
End Daemon.
